(* ===== verification/_CoqProject ===== *)
-Q . S2P
Prelude.v
GoStrings.v
NetAddr.v
Json.v
Policy.v
PolicySpec.v
Alloc.v
AllocSpec.v
AllocCache.v
DnsWire.v
DnsWireSpec.v
DnsServe.v
Tags.v
Upstream.v
Url.v
GoTime.v
GoFlag.v
Store.v
StoreSpec.v
StoreSave.v
Replicas.v
Converge.v
OpenStore.v
Service.v
ServiceSpec.v
Egress.v
EgressSpec.v
Command.v
LocalApi.v
TSNet.v
Gateway.v
Relay.v
Startup.v
Authority.v
Deployment.v
Memory.v
Backing.v
Fleet.v
JsonText.v
StateFile.v
