(* ===== verification/Prelude.v ===== *)
(** * domain-gateway: a verification development

    The program gives tailnet clients synthetic IPv4 addresses for the domains a policy
    lets them reach, and proxies connections to those addresses.  A DNS role answers
    questions from a pool of synthetic addresses and keeps the allocations in memory, in
    a state file or in a SQL database shared by replicas; an egress role receives flows
    to synthetic addresses, recovers the domain through a PTR question, checks the policy
    again and connects to the real destination.

    ** Components, files and source

    - [Prelude] (this file): byte strings, machine integers, the development's tactics,
      hint databases and shared list lemmas.
    - [GoStrings], [NetAddr], [Json], [Url], [GoTime], [GoFlag]: what the source uses of
      Go's [strings], [unicode], [strconv], [net], [net/netip], [encoding/json],
      [net/url], [time], [path/filepath] and [flag].  Strings are byte lists; raw JSON
      messages are the trees they denote.  Three corners of the library are classes, so
      theorems hold for any instance: the Unicode lower-case table beyond ASCII
      ([UnicodeTable]), the rounding of a fraction of a duration ([FloatProduct]) and
      URL hosts with escapes or brackets ([HostSyntax]).
    - [Policy], [PolicySpec]: [internal/domain/domain.go], lines 15-349: decoding of
      capabilities ([Resource], [Grant], [Parse]), names and patterns ([NormalName],
      [match_] for [match]), ports, resolvers, [Authorize], [GatewayFor],
      [RangesForName], [rangeKey].
    - [Alloc], [AllocSpec], [AllocCache]: the [Allocator] of [domain.go] and the rows of
      its state file ([state.go]).  A method is a function on the record of its maps;
      [Allocate] has two definitions, one per critical section.
    - [Memory], [JsonText], [StateFile]: [AllocationLifecycle] of [state.go] without a
      store.  [Memory] interleaves its critical sections; [JsonText] prints and parses
      JSON; [StateFile] has [Load], and [Save] as the steps of its lock and its file
      operations, in a machine that may fail, crash and restart.
    - [DnsWire], [DnsWireSpec]: the packets of [internal/dnsudp/server.go].  Every
      run-time check of an index or slice is an option: [None] is a panic.
    - [DnsServe]: [Server.Serve] of the same file, the read loop with its pool of
      buffers and its bound on handlers, as a step relation over the reader and the
      handler goroutines.
    - [Tags]: [internal/domain/tags.go] and the inventory functions of [service.go].
    - [Upstream]: [internal/domain/upstream.go].
    - [Store], [StoreSpec], [StoreSave], [Replicas], [Converge]: [SQLStore] and [AllocationLifecycle]
      of [state.go].  A method is a program, a tree of memory steps and SQL statements,
      run against any instance of the class [Database]; its laws state what each
      statement of the source does to the table and that a failed statement did all or
      nothing.  [table_db] is a concrete instance, [flaky_db] one that fails on demand.
      [Replicas] takes the requests of many replicas one at a time, [Converge] interleaves
      them statement by statement; [StoreSave] is about [Save] and [Load].
    - [OpenStore]: [sqlitePath] and [OpenAllocationStore] of [state.go]: URLs, schema and
      migration, over any instance of the class [Disk].
    - [Service], [ServiceSpec]: [Service] of [internal/domain/service.go] over the
      interface [Identity].
    - [LocalApi]: [LocalAPI] of [service.go], the identity behind the host's daemon, from
      the query it sends to the decoding of the reply; [TSNet]: [internal/domain/tsnet.go],
      the identity behind an embedded node.
    - [Egress], [EgressSpec]: resolver selection and egress configuration of
      [cmd/domain-gateway/main.go] and [ProxyTCP] of [gateway.go]; [Gateway]: the two
      dataplanes of [gateway.go] and [tsnet_gateway.go]; [Relay]: the accept loop, the
      goroutines of each connection and the copying of bytes, as a step relation over
      sockets whose peers act at any time.
    - [Command]: [configPath] and [parseCommand] of [main.go]; [Startup]:
      [systemUpstream], [newTSNet], [allocationStore], [runDNS], [runEgress] and [main],
      and [openTailnetTransport] of [transport.go], over a [world] of everything outside
      the process.
    - [Authority]: the decision closure of [runDNS] in [main.go], plugged into the wire
      server; [Deployment]: the DNS role from its command line to the wire; [Fleet]: many
      replicas at once, each with the read loop of [DnsServe], whose handlers' decisions
      interleave at their critical sections and SQL statements.  [Backing] is the
      interface between the servers and what their decisions rest on, with one instance
      for the shared table and one for the memory of a process.

    ** What the theorems show

    - The roles end to end: the DNS authority on the wire (C1), an egress process from its
      command line to a connection (C2), a DNS answer and the flow to it (C5), both
      dataplanes (C8), a DNS process from its command line to the wire (C35).
    - Connections: only permitted backends are relayed to, bytes arrive in order and whole
      (C9), and connections end (C19).
    - Replicas and the SQL store: a fleet of servers converges on one address per name and
      one name per address, on the wire and under every interleaving (C3, with
      [Converge.concurrent_replicas_converge] for requests alone); requests in turn agree,
      and an answered address resolves back, for a lease less the five-minute renewal
      interval (C6, C7); with a coherent cache a replica answers exactly what the table
      says (C12, C13); a failed renewal breaks this (C40); copying the allocator to the
      table and back is lossless, but the store does not see the copy (C15).
    - Service: decisions fail closed (C10), use exactly the authorised pool (C11); a
      destination has the same gateway in every map order
      ([ServiceSpec.gatewayForDestination_spec]).
    - Allocation in memory: refinement of a book of names (C14), a server without a
      database that answers consistently on the wire for as long as it runs (C4, with
      [AllocSpec.concurrent_allocations_agree] for the allocator alone), a state file that
      survives failures, crashes and restarts (C16; [StateFile.unsaved_answer_lost] shows
      which answers it does not hold), full use of a pool in order (C37) and the range
      lists for which this fails (C38).
    - DNS server: the read loop is safe (C17) and never stuck (C18); a resolver reads from
      a reply exactly what was decided (C20), no input panics the server (C21), the parser
      accepts exactly the well-formed questions (C22); replies to queries with additional
      records are unreadable (C39).
    - Policy: only well-formed grants come out of the parser (C23); flow decisions are
      sound, fail closed and pick the most specific resolver (C24, C25); pools, patterns
      and ports mean what the documentation says (C26-C28).
    - Tags, node configuration and identities: exact meanings (C29, C30), and the two
      identities lead to the same decisions (C31).
    - Start-up: an accepted command is well formed (C32) and its settings come from where
      the documentation says (C33); what it takes for an egress process to start (C34);
      opening and migrating a database (C36).  [OpenStore.sqlite_url_path] and
      [Command.configPath_agrees] say which file is opened and which is read.

    ** Choices and bounds

    - Integers are [Z] with their wrap-around written out ([uint16], [uint64], [int64]).
      Times are nanoseconds; store theorems assume clock readings and leases whose sum
      fits 63 bits ([time_ok]), as [UnixNano] requires.
    - Fuel: [parse_labels] gets one more step than the request has bytes and never runs
      out (C21); [hosts] gets the size of the prefix and visits the whole pool
      ([hosts_pool]); the duration parser gets the length of its text
      ([duration_loop_fuel]), the JSON parser two steps per byte ([parse_json_fuel]);
      everything else is structural recursion.
    - C6, C7, C12 and C13 assume a common lease and clock and a database whose statements
      succeed ([Reliable]); C3 needs neither, but a window in which no row falls due.  C40,
      [Replicas.lookup_allocate_race] and [Converge.stale_key_race] show what these rule
      out.
    - A configuration file is the JSON value its text denotes, comments removed; a reply
      of the daemon is a status code and a JSON value.
    - A write to a socket takes as many bytes as its peer has made room for, a file
      operation succeeds or fails, and the process may stop between any two of them; a
      stop of the machine that loses unsynced data is not considered.

    ** Not modelled

    The HTTP transport, the SQL drivers, HuJSON, the tailscale client libraries and the
    network are parameters; timeouts and logging have no result the program looks at. *)

From Stdlib Require Export Ascii String ZArith Lia.
From stdpp Require Export base tactics gmap sets strings numbers list.

(** The [last] of stdpp, not the one of the Standard Library. *)
Abbreviation last := list.last.

#[global] Open Scope Z_scope.
#[global] Open Scope list_scope.

(** ** Byte strings

    A Go [string] or [[]byte] is a finite sequence of bytes; [ascii] is the type
    of 8-bit characters, so every element is a byte by construction. *)

Abbreviation byte := ascii.
Abbreviation str := (list ascii).

(** String literals of the source are written as Rocq string literals and read
    as byte strings through this coercion. *)
Definition lit (s : string) : str := list_ascii_of_string s.
Coercion lit : string >-> list.

(** The value of a byte, 0..255, and the byte of a value (modulo 256, as Go's
    [byte(n)] conversion). *)
Definition bval (c : byte) : Z := Z.of_N (N_of_ascii c).
Definition byte_of (n : Z) : byte := ascii_of_N (Z.to_N (n mod 256)).

(** ** Machine integers *)

Definition wrap (w n : Z) : Z := n mod 2 ^ w.
Definition uint16 (n : Z) : Z := wrap 16 n.
Definition uint64 (n : Z) : Z := wrap 64 n.
Definition int64 (n : Z) : Z := (n + 2 ^ 63) mod 2 ^ 64 - 2 ^ 63.

(** ** Automation *)

Create HintDb dgw.
Create Rewrite HintDb dgw.

(** Case analysis on the boolean tests of translated code. *)
Ltac bool_simp :=
  repeat match goal with
  | H : _ && _ = true |- _ => apply andb_prop in H as [? ?]
  | H : _ || _ = false |- _ => apply orb_false_elim in H as [? ?]
  | H : negb _ = true |- _ => apply negb_true_iff in H
  | H : negb _ = false |- _ => apply negb_false_iff in H
  | H : bool_decide _ = true |- _ => apply bool_decide_eq_true_1 in H
  | H : bool_decide _ = false |- _ => apply bool_decide_eq_false_1 in H
  | H : Z.eqb _ _ = true |- _ => apply Z.eqb_eq in H
  | H : Z.eqb _ _ = false |- _ => apply Z.eqb_neq in H
  | H : Z.leb _ _ = true |- _ => apply Z.leb_le in H
  | H : Z.leb _ _ = false |- _ => apply Z.leb_gt in H
  | H : Z.ltb _ _ = true |- _ => apply Z.ltb_lt in H
  | H : Z.ltb _ _ = false |- _ => apply Z.ltb_ge in H
  | H : Nat.eqb _ _ = true |- _ => apply Nat.eqb_eq in H
  | H : Nat.eqb _ _ = false |- _ => apply Nat.eqb_neq in H
  | H : Nat.leb _ _ = true |- _ => apply Nat.leb_le in H
  | H : Nat.leb _ _ = false |- _ => apply Nat.leb_gt in H
  | H : Nat.ltb _ _ = true |- _ => apply Nat.ltb_lt in H
  | H : Nat.ltb _ _ = false |- _ => apply Nat.ltb_ge in H
  end.

(** Split every [if]/[match] of the goal whose scrutinee is not bound. *)
Ltac case_all := repeat (case_match; simplify_eq/=); bool_simp.

(** ** Bytes and integers: shared lemmas *)

Lemma bval_bound c : 0 <= bval c < 256.
Proof.
  unfold bval. pose proof (N_ascii_bounded c). lia.
Qed.

Lemma byte_of_bval c : byte_of (bval c) = c.
Proof.
  unfold byte_of. rewrite Z.mod_small by apply bval_bound.
  unfold bval. by rewrite N2Z.id, ascii_N_embedding.
Qed.

Lemma bval_byte_of n : bval (byte_of n) = n mod 256.
Proof.
  unfold bval, byte_of. pose proof (Z.mod_pos_bound n 256 ltac:(lia)).
  rewrite N_ascii_embedding by lia. lia.
Qed.

Lemma bval_inj c d : bval c = bval d -> c = d.
Proof. intros H. by rewrite <-(byte_of_bval c), H, byte_of_bval. Qed.

Lemma wrap_small w n : 0 <= n < 2 ^ w -> wrap w n = n.
Proof. intros. unfold wrap. by rewrite Z.mod_small. Qed.

Lemma int64_small n : - 2 ^ 63 <= n < 2 ^ 63 -> int64 n = n.
Proof. intros. unfold int64. rewrite Z.mod_small; lia. Qed.

#[export] Hint Rewrite byte_of_bval bval_byte_of : dgw.
#[export] Hint Resolve bval_bound : dgw.

(** ** Boolean list tests as predicates *)

Lemma forallb_Forall_true {A} (f : A -> bool) l :
  forallb f l = true <-> Forall (fun x => f x = true) l.
Proof.
  rewrite forallb_forall, Forall_forall. split; intros H x Hx; by apply H, list_elem_of_In.
Qed.

Lemma existsb_elem {A} (f : A -> bool) l : existsb f l = true <-> exists x, x ∈ l /\ f x = true.
Proof.
  rewrite existsb_exists. split; intros (x & Hx & ?); exists x; split; try done;
    by apply list_elem_of_In.
Qed.

Lemma existsb_false_Forall {A} (f : A -> bool) l :
  existsb f l = false <-> Forall (fun x => f x = false) l.
Proof.
  rewrite <-not_true_iff_false, existsb_elem, Forall_forall. split.
  - intros H x Hx. apply not_true_iff_false. intros ?. apply H. eauto.
  - intros H (x & Hx & ?). apply H in Hx. congruence.
Qed.

(** ** Filters *)

Lemma list_filter_none {A} (P : A -> Prop) `{!forall x, Decision (P x)} l :
  Forall (fun x => ~ P x) l -> filter P l = [].
Proof. induction 1; [done|]. by rewrite filter_cons_False. Qed.
