(* ===== verification/GoStrings.v ===== *)
(** * Go strings

    The parts of Go's [strings], [strconv], [unicode/utf8] and [net] packages the
    repository uses, on byte strings.

    A [for _, c := range s] loop of the source walks the runes of [s].  Where the
    loop only asks whether a rune is one of a set of ASCII characters the model
    walks the bytes instead: a byte below 0x80 is its own rune, and every other
    byte belongs to a rune that is at least 0x80 (a decoded rune or U+FFFD), which
    fails each of these tests exactly as the byte does.  [strings.ToLower] and
    [strings.EqualFold] do look at the runes and are modelled on them. *)

From S2P Require Import Prelude.

(** ** Prefixes, suffixes, cutting, splitting *)

Fixpoint HasPrefix (s p : str) {struct p} : bool :=
  match p, s with
  | [], _ => true
  | _, [] => false
  | b :: p', a :: s' => Ascii.eqb a b && HasPrefix s' p'
  end.

Definition str_eqb (a b : str) : bool := bool_decide (a = b).

Definition HasSuffix (s t : str) : bool :=
  (length t <=? length s)%nat && str_eqb (drop (length s - length t) s) t.

Definition TrimSuffix (s t : str) : str :=
  if HasSuffix s t then take (length s - length t) s else s.

Definition TrimPrefix (s t : str) : str :=
  if HasPrefix s t then drop (length t) s else s.

Fixpoint Contains (s t : str) : bool :=
  HasPrefix s t || match s with [] => false | _ :: s' => Contains s' t end.

(** [strings.Cut]: the text before and after the first separator. *)
Fixpoint Cut (s sep : str) : option (str * str) :=
  if HasPrefix s sep then Some ([], drop (length sep) s) else
  match s with
  | [] => None
  | c :: s' =>
      match Cut s' sep with
      | Some (before, after) => Some (c :: before, after)
      | None => None
      end
  end.

Definition cons_head (c : byte) (l : list str) : list str :=
  match l with
  | [] => [[c]]
  | h :: t => (c :: h) :: t
  end.

(** [strings.Split] with a non-empty separator; [skip] bytes of a separator that
    has been recognised are still to be consumed. *)
Fixpoint split_go (sep : str) (skip : nat) (s : str) : list str :=
  match s with
  | [] => [[]]
  | c :: s' =>
      match skip with
      | S k => split_go sep k s'
      | O => if HasPrefix s sep then [] :: split_go sep (length sep - 1) s'
             else cons_head c (split_go sep 0 s')
      end
  end.

Definition Split (s sep : str) : list str := split_go sep 0 s.

(** [strings.Count]: the separators [Split] finds. *)
Definition Count (s sep : str) : nat := pred (length (Split s sep)).

Fixpoint Join (l : list str) (sep : str) : str :=
  match l with
  | [] => []
  | [a] => a
  | a :: l' => a ++ sep ++ Join l' sep
  end.

(** [strings.LastIndexByte]/[IndexByte] as a split at the byte. *)
Fixpoint cut_last (c : byte) (s : str) : option (str * str) :=
  match s with
  | [] => None
  | d :: s' =>
      match cut_last c s' with
      | Some (before, after) => Some (d :: before, after)
      | None => if Ascii.eqb d c then Some ([], s') else None
      end
  end.

Definition has_byte (c : byte) (s : str) : bool := existsb (Ascii.eqb c) s.

(** ** Decimal numbers *)

Definition is_digit (c : byte) : bool := (48 <=? bval c) && (bval c <=? 57).
Definition digit_val (c : byte) : Z := bval c - 48.
Definition digit_of (n : Z) : byte := byte_of (48 + n).

Fixpoint itoa_go (fuel : nat) (n : Z) : str :=
  match fuel with
  | O => []
  | S f => if n <? 10 then [digit_of n] else itoa_go f (n / 10) ++ [digit_of (n mod 10)]
  end.

(** [strconv.Itoa] of a non-negative number below 10^20. *)
Definition Itoa (n : Z) : str := itoa_go 20 n.

Definition dec_value (s : str) : Z :=
  fold_left (fun n c => n * 10 + digit_val c) s 0.

(** [strconv.ParseUint(s, 10, 16)]: an optional run of leading zeros is accepted,
    a sign, an empty string or a value above 65535 is not. *)
Definition ParseUint16 (s : str) : option Z :=
  match s with
  | [] => None
  | _ => if forallb is_digit s && (dec_value s <=? 65535) then Some (dec_value s) else None
  end.

(** ** UTF-8 and case *)

Definition RuneError : Z := 65533.

Definition cont_in (lo hi : Z) (c : byte) : bool := (lo <=? bval c) && (bval c <=? hi).
Definition cont (c : byte) : bool := cont_in 128 191 c.

(** [utf8.DecodeRuneInString] on a non-empty string: the rune and its width. *)
Definition DecodeRune (s : str) : Z * nat :=
  match s with
  | [] => (RuneError, 0%nat)
  | a :: s1 =>
    let x := bval a in
    if x <? 128 then (x, 1%nat)
    else if (194 <=? x) && (x <=? 223) then
      match s1 with
      | b :: _ => if cont b then (Z.lor (Z.shiftl (Z.land x 31) 6) (Z.land (bval b) 63), 2%nat)
                  else (RuneError, 1%nat)
      | _ => (RuneError, 1%nat)
      end
    else if (224 <=? x) && (x <=? 239) then
      match s1 with
      | b :: c :: _ =>
          let lo := if x =? 224 then 160 else 128 in
          let hi := if x =? 237 then 159 else 191 in
          if cont_in lo hi b && cont c then
            (Z.lor (Z.shiftl (Z.land x 15) 12)
               (Z.lor (Z.shiftl (Z.land (bval b) 63) 6) (Z.land (bval c) 63)), 3%nat)
          else (RuneError, 1%nat)
      | _ => (RuneError, 1%nat)
      end
    else if (240 <=? x) && (x <=? 244) then
      match s1 with
      | b :: c :: d :: _ =>
          let lo := if x =? 240 then 144 else 128 in
          let hi := if x =? 244 then 143 else 191 in
          if cont_in lo hi b && cont c && cont d then
            (Z.lor (Z.shiftl (Z.land x 7) 18)
               (Z.lor (Z.shiftl (Z.land (bval b) 63) 12)
                  (Z.lor (Z.shiftl (Z.land (bval c) 63) 6) (Z.land (bval d) 63))), 4%nat)
          else (RuneError, 1%nat)
      | _ => (RuneError, 1%nat)
      end
    else (RuneError, 1%nat)
  end.

(** The runes of [s], in order; [skip] bytes of the current rune remain. *)
Fixpoint runes_go (skip : nat) (s : str) : list Z :=
  match s with
  | [] => []
  | _ :: s' =>
      match skip with
      | S k => runes_go k s'
      | O => let '(r, w) := DecodeRune s in r :: runes_go (w - 1) s'
      end
  end.

Definition runes (s : str) : list Z := runes_go 0 s.

(** [utf8.AppendRune]: surrogates and values out of range are written as U+FFFD. *)
Definition EncodeRune (r0 : Z) : str :=
  let r := if (r0 <? 0) || (1114111 <? r0) || ((55296 <=? r0) && (r0 <=? 57343))
           then RuneError else r0 in
  if r <? 128 then [byte_of r]
  else if r <? 2048 then
    [byte_of (Z.lor 192 (Z.shiftr r 6)); byte_of (Z.lor 128 (Z.land r 63))]
  else if r <? 65536 then
    [byte_of (Z.lor 224 (Z.shiftr r 12)); byte_of (Z.lor 128 (Z.land (Z.shiftr r 6) 63));
     byte_of (Z.lor 128 (Z.land r 63))]
  else
    [byte_of (Z.lor 240 (Z.shiftr r 18)); byte_of (Z.lor 128 (Z.land (Z.shiftr r 12) 63));
     byte_of (Z.lor 128 (Z.land (Z.shiftr r 6) 63)); byte_of (Z.lor 128 (Z.land r 63))].

(** [unicode.ToLower] beyond ASCII is a table of the Unicode version the
    toolchain ships; the development is parametric in it. *)
Class UnicodeTable := unicode_lower : Z -> Z.

(** The entries that reach ASCII (U+0130 to i, U+212A to k) and no other: a table
    to evaluate concrete inputs with. *)
Definition table_min : UnicodeTable :=
  fun r => if r =? 304 then 105 else if r =? 8490 then 107 else r.

Definition is_upper (x : Z) : bool := (65 <=? x) && (x <=? 90).

Definition rune_lower `{UnicodeTable} (r : Z) : Z :=
  if r <? 128 then (if is_upper r then r + 32 else r) else unicode_lower r.

Definition is_ascii (s : str) : bool := forallb (fun c => bval c <? 128) s.

Definition byte_lower (c : byte) : byte :=
  if is_upper (bval c) then byte_of (bval c + 32) else c.

Definition ToLower `{UnicodeTable} (s : str) : str :=
  if is_ascii s then map byte_lower s
  else concat (map (fun r => EncodeRune (rune_lower r)) (runes s)).

(** Simple case folding onto ASCII: the letters fold to upper case, and the only
    other runes in their orbits are U+017F (with s) and U+212A (with k). *)
Definition fold_ascii (r : Z) : Z :=
  if (97 <=? r) && (r <=? 122) then r - 32
  else if r =? 383 then 83
  else if r =? 8490 then 75
  else r.

(** [strings.EqualFold(s, t)] for a [t] that is pure ASCII. *)
Definition EqualFold (s t : str) : bool :=
  bool_decide (map fold_ascii (runes s) = map (fun c => fold_ascii (bval c)) t).

(** ** Host and port *)

(** [net.SplitHostPort]; every error is [None]. *)
Definition SplitHostPort (hostport : str) : option (str * str) :=
  match cut_last ":" hostport with
  | None => None
  | Some (before, port) =>
      match hostport with
      | "["%char :: rest =>
          match Cut rest "]" with
          | None => None
          | Some (host, after) =>
              (* the first ']' must stand just before the last ':' *)
              if str_eqb after (":"%char :: port) then
                if has_byte "[" rest || has_byte "]" port then None else Some (host, port)
              else None
          end
      | _ =>
          if has_byte ":" before || has_byte "[" hostport || has_byte "]" hostport
          then None else Some (before, port)
      end
  end.

Definition JoinHostPort (host port : str) : str :=
  if has_byte ":" host then "[" ++ host ++ "]:" ++ port else host ++ ":" ++ port.

#[global] Arguments Split : simpl never.
#[global] Arguments Count : simpl never.
#[global] Arguments Itoa : simpl never.

(** * Lemmas *)

(** ** Prefixes and suffixes *)

Lemma ascii_eqb_true a b : Ascii.eqb a b = true <-> a = b.
Proof. apply Ascii.eqb_eq. Qed.

Lemma HasPrefix_spec s p : HasPrefix s p = true <-> p `prefix_of` s.
Proof.
  revert s; induction p as [|b p IH]; intros s; simpl.
  - split; [|done]. intros _. apply prefix_nil.
  - destruct s as [|a s]; simpl.
    + split; [done|]. intros H. by apply prefix_nil_not in H.
    + rewrite andb_true_iff, ascii_eqb_true, IH. split.
      * intros [-> H]. by apply prefix_cons.
      * intros H. split; [by apply prefix_cons_inv_1 in H|by apply prefix_cons_inv_2 in H].
Qed.

Lemma HasPrefix_app p s : HasPrefix (p ++ s) p = true.
Proof. apply HasPrefix_spec. by exists s. Qed.

Lemma HasPrefix_char (c d : byte) s : HasPrefix (c :: s) [d] = Ascii.eqb c d.
Proof. simpl. by destruct s; rewrite andb_true_r. Qed.

Lemma str_eqb_true a b : str_eqb a b = true <-> a = b.
Proof. apply bool_decide_eq_true. Qed.

Lemma str_eqb_refl (s : str) : str_eqb s s = true.
Proof. by apply str_eqb_true. Qed.

Lemma str_eqb_false (a b : str) : a <> b -> str_eqb a b = false.
Proof. intros. by apply bool_decide_eq_false_2. Qed.

Lemma HasSuffix_spec s t : HasSuffix s t = true <-> exists s0, s = s0 ++ t.
Proof.
  unfold HasSuffix. rewrite andb_true_iff, str_eqb_true, Nat.leb_le. split.
  - intros [Hl H]. exists (take (length s - length t) s).
    rewrite <-H at 2. by rewrite take_drop.
  - intros [s0 ->]. rewrite length_app. split; [lia|].
    replace (length s0 + length t - length t)%nat with (length s0) by lia.
    by rewrite drop_app_length.
Qed.

Lemma TrimSuffix_app s t : TrimSuffix (s ++ t) t = s.
Proof.
  unfold TrimSuffix. replace (HasSuffix (s ++ t) t) with true.
  - rewrite length_app.
    replace (length s + length t - length t)%nat with (length s) by lia.
    by rewrite take_app_length.
  - symmetry. apply HasSuffix_spec. eauto.
Qed.

Lemma TrimSuffix_id s t : (forall s0, s <> s0 ++ t) -> TrimSuffix s t = s.
Proof.
  intros H. unfold TrimSuffix. destruct (HasSuffix s t) eqn:E; [|done].
  apply HasSuffix_spec in E as [s0 ->]. by destruct (H s0).
Qed.

(** ** Splitting at one byte *)

Lemma has_byte_false c s : has_byte c s = false <-> c ∉ s.
Proof.
  unfold has_byte. rewrite <-not_true_iff_false, existsb_exists. split.
  - intros H Hin. apply H. exists c. split; [by apply list_elem_of_In|apply Ascii.eqb_refl].
  - intros H [d [Hd E]]. apply Ascii.eqb_eq in E as ->. by apply H, list_elem_of_In.
Qed.

Lemma has_byte_iff c s : has_byte c s = bool_decide (c ∈ s).
Proof.
  destruct (has_byte c s) eqn:E.
  - symmetry. apply bool_decide_eq_true_2. apply existsb_elem in E as (d & Hd & E).
    apply Ascii.eqb_eq in E as ->. done.
  - symmetry. apply bool_decide_eq_false_2. by apply has_byte_false.
Qed.

Lemma split_char_nil c : Split [] [c] = [[]].
Proof. done. Qed.

Lemma split_char_cons c a s :
  Split (a :: s) [c] = if Ascii.eqb a c then [] :: Split s [c] else cons_head a (Split s [c]).
Proof. unfold Split. cbn [split_go]. by rewrite HasPrefix_char. Qed.

Lemma split_char_not_nil c s : Split s [c] <> [].
Proof.
  induction s as [|a s IH]; [done|]. rewrite split_char_cons.
  destruct (Ascii.eqb a c); [done|]. by destruct (Split s [c]).
Qed.

Lemma split_char_free c s : c ∉ s -> Split s [c] = [s].
Proof.
  induction s as [|a s IH]; intros H; [done|].
  rewrite split_char_cons. apply not_elem_of_cons in H as [Hne H].
  rewrite IH by done. destruct (Ascii.eqb_spec a c); [congruence|done].
Qed.

Lemma split_char_app c a s : c ∉ a -> Split (a ++ c :: s) [c] = a :: Split s [c].
Proof.
  induction a as [|b a IH]; intros H; simpl.
  - by rewrite split_char_cons, Ascii.eqb_refl.
  - apply not_elem_of_cons in H as [Hne H].
    rewrite split_char_cons, (IH H). by destruct (Ascii.eqb_spec b c); [congruence|].
Qed.

Lemma split_char_parts_free c s : Forall (fun p => c ∉ p) (Split s [c]).
Proof.
  induction s as [|a s IH]; [repeat constructor; apply not_elem_of_nil|].
  rewrite split_char_cons. destruct (Ascii.eqb_spec a c).
  - constructor; [apply not_elem_of_nil|done].
  - destruct (Split s [c]) as [|h t]; simpl in *.
    + repeat constructor. apply not_elem_of_cons; split; [done|apply not_elem_of_nil].
    + inversion IH; subst. constructor; [|done]. by apply not_elem_of_cons.
Qed.

Lemma Join_cons2 a b l sep : Join (a :: b :: l) sep = a ++ sep ++ Join (b :: l) sep.
Proof. done. Qed.

(** [Join] undoes [Split] ... *)
Lemma join_split_char c s : Join (Split s [c]) [c] = s.
Proof.
  induction s as [|a s IH]; [done|]. rewrite split_char_cons.
  pose proof (split_char_not_nil c s) as Hn.
  destruct (Ascii.eqb_spec a c) as [->|Hne].
  - destruct (Split s [c]) as [|h t] eqn:E; [done|]. simpl in *. by rewrite IH.
  - destruct (Split s [c]) as [|h t] eqn:E; [done|]. simpl in *.
    destruct t; simpl in *; by rewrite IH.
Qed.

(** ... and [Split] undoes [Join] on parts free of the separator. *)
Lemma split_join_char c (l : list str) :
  l <> [] -> Forall (fun p => c ∉ p) l -> Split (Join l [c]) [c] = l.
Proof.
  induction l as [|a l IH]; intros Hn Hf; [done|].
  inversion Hf; subst. destruct l as [|b l].
  - by apply split_char_free.
  - rewrite Join_cons2. cbn [app]. rewrite split_char_app by done. by rewrite IH.
Qed.

Lemma join_inj_char c (l1 l2 : list str) :
  l1 <> [] -> l2 <> [] -> Forall (fun p => c ∉ p) l1 -> Forall (fun p => c ∉ p) l2 ->
  Join l1 [c] = Join l2 [c] -> l1 = l2.
Proof.
  intros ???? H. by rewrite <-(split_join_char c l1), H, split_join_char.
Qed.

Lemma split_inj_char c s t : Split s [c] = Split t [c] -> s = t.
Proof. intros H. by rewrite <-(join_split_char c s), H, join_split_char. Qed.

(** Splitting a concatenation at a separator concatenates the parts. *)
Lemma split_char_mid c s t : Split (s ++ c :: t) [c] = Split s [c] ++ Split t [c].
Proof.
  induction s as [|a s IH]; cbn [app].
  - by rewrite split_char_cons, Ascii.eqb_refl.
  - rewrite !split_char_cons, IH. destruct (Ascii.eqb a c); [done|].
    destruct (Split s [c]) as [|h tl] eqn:E; [|done]. by destruct (split_char_not_nil c s).
Qed.

(** Conversely, a suffix of the list of parts is the text after a separator. *)
Lemma split_char_suffix c (ls : list str) s t :
  ls <> [] -> Split s [c] = ls ++ Split t [c] -> s = Join ls [c] ++ c :: t.
Proof.
  intros Hn H. rewrite <-(join_split_char c s), H. clear H.
  induction ls as [|a ls IH]; [done|]. destruct ls as [|b ls].
  - cbn [app]. pose proof (split_char_not_nil c t).
    destruct (Split t [c]) as [|h tl] eqn:E; [done|].
    rewrite Join_cons2, <-E, join_split_char. done.
  - change ((a :: b :: ls) ++ Split t [c]) with (a :: b :: (ls ++ Split t [c])).
    rewrite !Join_cons2. change (b :: (ls ++ Split t [c])) with ((b :: ls) ++ Split t [c]).
    rewrite IH by done. by rewrite <-!(assoc_L (++)).
Qed.

(** A byte that occurs once cuts the text in one way only. *)
Lemma char_once_unique (c : byte) (a b a' b' : str) :
  c ∉ a -> c ∉ b -> a ++ c :: b = a' ++ c :: b' -> a' = a /\ b' = b.
Proof.
  revert a'; induction a as [|x a IH]; intros a' Ha Hb E; destruct a' as [|y a']; injection E.
  - by intros ->.
  - intros -> ->. destruct Hb. apply elem_of_app. right. by left.
  - intros _ ->. destruct Ha. by left.
  - apply not_elem_of_cons in Ha as [_ Ha].
    intros E' ->. destruct (IH a' Ha Hb E') as [-> ->]. done.
Qed.

(** ** Cutting at one byte *)

Lemma Cut_free c s : c ∉ s -> Cut s [c] = None.
Proof.
  induction s as [|a s IH]; intros H; [done|]. apply not_elem_of_cons in H as [Hne H].
  cbn [Cut]. rewrite HasPrefix_char, (IH H). by destruct (Ascii.eqb_spec a c).
Qed.

Lemma Cut_at c a s : c ∉ a -> Cut (a ++ c :: s) [c] = Some (a, s).
Proof.
  induction a as [|b a IH]; intros H; cbn [app Cut].
  - rewrite HasPrefix_char, Ascii.eqb_refl. done.
  - apply not_elem_of_cons in H as [Hne H]. rewrite HasPrefix_char, (IH H).
    by destruct (Ascii.eqb_spec b c).
Qed.

Lemma cut_last_free c s : c ∉ s -> cut_last c s = None.
Proof.
  induction s as [|a s IH]; intros H; [done|]. apply not_elem_of_cons in H as [Hne H].
  cbn. rewrite (IH H). by destruct (Ascii.eqb_spec a c).
Qed.

Lemma Cut_Some c s a b : Cut s [c] = Some (a, b) -> s = a ++ c :: b /\ c ∉ a.
Proof.
  revert a; induction s as [|x s IH]; intros a; [done|]. cbn [Cut]. rewrite HasPrefix_char.
  destruct (Ascii.eqb_spec x c) as [->|Hne].
  - cbn. intros [= <- <-]. split; [done|apply not_elem_of_nil].
  - destruct (Cut s [c]) as [[a' b']|]; [|done]. intros [= <- <-]. destruct (IH a' eq_refl) as [-> Hn].
    split; [done|]. by apply not_elem_of_cons.
Qed.

Lemma Cut_None c s : Cut s [c] = None -> c ∉ s.
Proof.
  induction s as [|x s IH]; [intros _; apply not_elem_of_nil|]. cbn [Cut]. rewrite HasPrefix_char.
  destruct (Ascii.eqb_spec x c) as [->|Hne]; [done|]. destruct (Cut s [c]) as [[? ?]|]; [done|].
  intros _. apply not_elem_of_cons. split; [done|by apply IH].
Qed.

(** ** Decimal numbers *)

Lemma bval_digit_of n : 0 <= n < 10 -> bval (digit_of n) = 48 + n.
Proof. intros. unfold digit_of. rewrite bval_byte_of, Z.mod_small; lia. Qed.

Lemma is_digit_digit_of n : 0 <= n < 10 -> is_digit (digit_of n) = true.
Proof. intros. unfold is_digit. rewrite bval_digit_of by done. lia. Qed.

Lemma digit_val_digit_of n : 0 <= n < 10 -> digit_val (digit_of n) = n.
Proof. intros. unfold digit_val. rewrite bval_digit_of by done. lia. Qed.

Lemma dec_value_app s t : dec_value (s ++ t) = fold_left (fun n c => n * 10 + digit_val c) t (dec_value s).
Proof. unfold dec_value. by rewrite fold_left_app. Qed.

Lemma dec_value_snoc s c : dec_value (s ++ [c]) = dec_value s * 10 + digit_val c.
Proof. by rewrite dec_value_app. Qed.

Lemma itoa_go_spec f n :
  0 <= n < 10 ^ Z.of_nat f -> dec_value (itoa_go f n) = n /\ forallb is_digit (itoa_go f n) = true.
Proof.
  revert n; induction f as [|f IH]; intros n Hn; simpl itoa_go.
  - simpl in Hn. split; [|done]. unfold dec_value. simpl. lia.
  - destruct (Z.ltb_spec n 10).
    + split; [unfold dec_value; simpl; rewrite digit_val_digit_of; lia|].
      simpl. rewrite is_digit_digit_of by lia. done.
    + assert (0 <= n / 10 < 10 ^ Z.of_nat f) as Hq.
      { split; [apply Z.div_pos; lia|]. apply Z.div_lt_upper_bound; [lia|].
        rewrite Nat2Z.inj_succ, Z.pow_succ_r in Hn; lia. }
      pose proof (Z.mod_pos_bound n 10 ltac:(lia)).
      destruct (IH _ Hq) as [IHv IHd]. split.
      * rewrite dec_value_snoc, IHv, digit_val_digit_of by lia.
        rewrite (Z.div_mod n 10) at 3; lia.
      * rewrite forallb_app, IHd. simpl. rewrite is_digit_digit_of by lia. done.
Qed.

Lemma Itoa_value n : 0 <= n < 10 ^ 20 -> dec_value (Itoa n) = n.
Proof. intros H. exact (proj1 (itoa_go_spec 20 n H)). Qed.

Lemma Itoa_digits n : 0 <= n < 10 ^ 20 -> forallb is_digit (Itoa n) = true.
Proof. intros H. exact (proj2 (itoa_go_spec 20 n H)). Qed.

Lemma Itoa_inj n m : 0 <= n < 10 ^ 20 -> 0 <= m < 10 ^ 20 -> Itoa n = Itoa m -> n = m.
Proof. intros Hn Hm E. by rewrite <-(Itoa_value n), E, Itoa_value. Qed.

Lemma digits_free c s : forallb is_digit s = true -> is_digit c = false -> c ∉ s.
Proof.
  intros Hs Hc Hin. rewrite forallb_forall in Hs.
  apply list_elem_of_In in Hin. apply Hs in Hin. congruence.
Qed.

#[export] Hint Rewrite Itoa_value using lia : dgw.
#[export] Hint Resolve Itoa_digits : dgw.

(** ** Lower case *)

Definition is_lower_ascii (c : byte) : bool := (bval c <? 128) && negb (is_upper (bval c)).

Lemma byte_lower_fixed c : is_lower_ascii c = true -> byte_lower c = c.
Proof. unfold is_lower_ascii, byte_lower. intros. bool_simp. by rewrite H0. Qed.

(** Text that is ASCII and has no capital is left alone by [ToLower]. *)
Lemma ToLower_fixed `{UnicodeTable} s : forallb is_lower_ascii s = true -> ToLower s = s.
Proof.
  intros Hs. unfold ToLower.
  assert (is_ascii s = true) as ->.
  { unfold is_ascii. rewrite !forallb_forall in *. intros c Hc. apply Hs in Hc.
    unfold is_lower_ascii in Hc. bool_simp; lia. }
  induction s as [|c s IH]; [done|]. simpl in *. bool_simp.
  by rewrite byte_lower_fixed, IH.
Qed.
