(* ===== verification/NetAddr.v ===== *)
(** * IP addresses and prefixes

    Go's [net/netip]: the [Addr] and [Prefix] values every component passes
    around, with the operations the repository calls on them, their text form and
    their parsers.  An [Addr] keeps Go's distinction between the zero [Addr]
    (invalid), a 4-byte address and a 16-byte address with its zone. *)

From S2P Require Import Prelude GoStrings.

Inductive AddrKind :=
| z0
| z4
| z6 (zone : str).

Record Addr := mkAddr { addr_val : Z; addr_kind : AddrKind }.

#[export] Instance AddrKind_eq_dec : EqDecision AddrKind.
Proof. solve_decision. Defined.
#[export] Instance Addr_eq_dec : EqDecision Addr.
Proof. solve_decision. Defined.

Definition addr_enc (a : Addr) : Z * option (option str) :=
  (addr_val a, match addr_kind a with z0 => None | z4 => Some None | z6 z => Some (Some z) end).
Definition addr_dec (x : Z * option (option str)) : Addr :=
  mkAddr x.1 (match x.2 with None => z0 | Some None => z4 | Some (Some z) => z6 z end).

#[export] Instance Addr_countable : Countable Addr.
Proof. refine (inj_countable' addr_enc addr_dec _). by intros [v []]. Defined.

(** [netip.Addr{}] *)
Definition AddrZero : Addr := mkAddr 0 z0.
#[export] Instance Addr_inhabited : Inhabited Addr := populate AddrZero.

(** [netip.AddrFrom4], from the 32-bit value and from the four octets. *)
Definition Addr4 (v : Z) : Addr := mkAddr v z4.
Definition AddrFrom4 (a b c d : Z) : Addr := Addr4 (a * 2 ^ 24 + b * 2 ^ 16 + c * 2 ^ 8 + d).

Definition IsValid (a : Addr) : bool := match addr_kind a with z0 => false | _ => true end.
Definition Is4 (a : Addr) : bool := match addr_kind a with z4 => true | _ => false end.
Definition Is6 (a : Addr) : bool := match addr_kind a with z6 _ => true | _ => false end.
Definition Zone (a : Addr) : str := match addr_kind a with z6 z => z | _ => [] end.
Definition BitLen (a : Addr) : Z := match addr_kind a with z0 => 0 | z4 => 32 | z6 _ => 128 end.

(** [Next] and [Prev] fall back to the zero address at the ends of the space; on
    an invalid address they only move the (ignored) value, as Go does. *)
Definition Next (a : Addr) : Addr :=
  let w := if Is4 a then 32 else 128 in
  if addr_val a + 1 =? 2 ^ w then AddrZero else mkAddr (addr_val a + 1) (addr_kind a).
Definition Prev (a : Addr) : Addr :=
  if addr_val a =? 0 then AddrZero else mkAddr (addr_val a - 1) (addr_kind a).

Fixpoint str_ltb (a b : str) : bool :=
  match a, b with
  | _, [] => false
  | [], _ => true
  | x :: a', y :: b' => (bval x <? bval y) || ((bval x =? bval y) && str_ltb a' b')
  end.

Definition Less (a b : Addr) : bool :=
  if BitLen a =? BitLen b then
    if addr_val a =? addr_val b then (if Is6 a then str_ltb (Zone a) (Zone b) else false)
    else addr_val a <? addr_val b
  else BitLen a <? BitLen b.

(** ** Prefixes *)

Record Prefix := mkPrefix { p_addr : Addr; p_bits : Z }.

#[export] Instance Prefix_eq_dec : EqDecision Prefix.
Proof. solve_decision. Defined.

Definition withoutZone (a : Addr) : Addr :=
  match addr_kind a with z6 _ => mkAddr (addr_val a) (z6 []) | _ => a end.

(** [netip.PrefixFrom]; an invalid prefix has [p_bits = -1]. *)
Definition PrefixFrom (a : Addr) (bits : Z) : Prefix :=
  if IsValid a && (0 <=? bits) && (bits <=? BitLen a) then mkPrefix (withoutZone a) bits
  else mkPrefix (withoutZone a) (-1).

Definition PrefixIsValid (p : Prefix) : bool := 0 <=? p_bits p.

(** [Addr.Prefix(b)]: the address with everything below the top [b] bits cleared. *)
Definition AddrPrefix (a : Addr) (b : Z) : option Prefix :=
  if b <? 0 then None else
  match addr_kind a with
  | z0 => Some (mkPrefix AddrZero (-1))
  | _ => if BitLen a <? b then None
         else Some (PrefixFrom (mkAddr (Z.shiftl (Z.shiftr (addr_val a) (BitLen a - b)) (BitLen a - b))
                                  (addr_kind a)) b)
  end.

Definition Masked (p : Prefix) : Prefix :=
  match AddrPrefix (p_addr p) (p_bits p) with
  | Some q => q
  | None => mkPrefix AddrZero (-1)
  end.

Definition PContains (p : Prefix) (ip : Addr) : bool :=
  PrefixIsValid p && str_eqb (Zone ip) [] &&
  negb (BitLen (p_addr p) =? 0) && (BitLen (p_addr p) =? BitLen ip) &&
  (Z.shiftr (Z.lxor (addr_val ip) (addr_val (p_addr p))) (BitLen ip - p_bits p) =? 0).

Definition Overlaps (p o : Prefix) : bool :=
  if negb (PrefixIsValid p) || negb (PrefixIsValid o) then false
  else if bool_decide (p = o) then true
  else if negb (eqb (Is4 (p_addr p)) (Is4 (p_addr o))) then false
  else let minBits := Z.min (p_bits p) (p_bits o) in
       if minBits =? 0 then true
       else match AddrPrefix (p_addr p) minBits, AddrPrefix (p_addr o) minBits with
            | Some p', Some o' => bool_decide (p_addr p' = p_addr o')
            | _, _ => false
            end.

(** ** Text form *)

Definition octet (v : Z) (i : Z) : Z := Z.shiftr v (8 * i) mod 256.

Definition String4 (v : Z) : str :=
  Join [Itoa (octet v 3); Itoa (octet v 2); Itoa (octet v 1); Itoa (octet v 0)] ".".

Definition hex_digit (n : Z) : byte :=
  if n <? 10 then byte_of (48 + n) else byte_of (87 + n).

Fixpoint hex_go (fuel : nat) (n : Z) : str :=
  match fuel with
  | O => []
  | S f => if n <? 16 then [hex_digit n] else hex_go f (n / 16) ++ [hex_digit (n mod 16)]
  end.

Definition v6u16 (v : Z) (i : nat) : Z := Z.shiftr v (112 - 16 * Z.of_nat i) mod 65536.
Definition groups6 (v : Z) : list Z := v6u16 v <$> seq 0 8.

Fixpoint zero_run (gs : list Z) : nat :=
  match gs with
  | g :: gs' => if g =? 0 then S (zero_run gs') else 0%nat
  | [] => 0%nat
  end.

(** The first longest run of at least two zero groups: its start and length. *)
Fixpoint longest_run (i : nat) (gs : list Z) (best : nat * nat) : nat * nat :=
  match gs with
  | [] => best
  | _ :: gs' =>
      let l := zero_run gs in
      longest_run (S i) gs' (if (2 <=? l)%nat && (best.2 <? l)%nat then (i, l) else best)
  end.

Definition String6 (v : Z) : str :=
  let gs := groups6 v in
  let '(st, l) := longest_run 0 gs (0%nat, 0%nat) in
  if (l =? 0)%nat then Join (hex_go 4 <$> gs) ":"
  else Join (hex_go 4 <$> take st gs) ":" ++ "::" ++ Join (hex_go 4 <$> drop (st + l) gs) ":".

Definition zone_suffix (z : str) : str := match z with [] => [] | _ => "%" ++ z end.

Definition AddrString (a : Addr) : str :=
  match addr_kind a with
  | z0 => "invalid IP"
  | z4 => String4 (addr_val a)
  | z6 z => if Z.shiftr (addr_val a) 32 =? 65535
            then "::ffff:" ++ String4 (addr_val a mod 2 ^ 32) ++ zone_suffix z
            else String6 (addr_val a) ++ zone_suffix z
  end.

Definition PrefixString (p : Prefix) : str :=
  if PrefixIsValid p then AddrString (p_addr p) ++ "/" ++ Itoa (p_bits p)
  else "invalid Prefix".

(** ** Parsers *)

(** One dotted-decimal field: digits only, no leading zero, at most 255. *)
Definition parse_octet (s : str) : option Z :=
  match s with
  | [] => None
  | c :: rest =>
      if forallb is_digit s && (bool_decide (rest = []) || negb (Ascii.eqb c "0"))
         && (dec_value s <=? 255)
      then Some (dec_value s) else None
  end.

Definition parseIPv4 (s : str) : option Z :=
  match parse_octet <$> Split s "." with
  | [Some a; Some b; Some c; Some d] => Some (a * 2 ^ 24 + b * 2 ^ 16 + c * 2 ^ 8 + d)
  | _ => None
  end.

Definition hex_val (c : byte) : option Z :=
  let x := bval c in
  if (48 <=? x) && (x <=? 57) then Some (x - 48)
  else if (97 <=? x) && (x <=? 102) then Some (x - 87)
  else if (65 <=? x) && (x <=? 70) then Some (x - 55)
  else None.

(** The leading hex digits of [s]: how many, their value, and the rest. *)
Fixpoint hex_span (s : str) (n : nat) (acc : Z) : nat * Z * str :=
  match s with
  | c :: s' =>
      match hex_val c with
      | Some d => hex_span s' (S n) (acc * 16 + d)
      | None => (n, acc, s)
      end
  | [] => (n, acc, [])
  end.

(** The loop of [parseIPv6]; every pass stores one 16-bit group, so the fuel is
    the number of groups still missing. *)
Fixpoint parse6_loop (fuel : nat) (s : str) (gs : list Z) (ell : option nat)
  : option (str * list Z * option nat) :=
  match fuel with
  | O => Some (s, gs, ell)
  | S f =>
      let '(n, acc, rest) := hex_span s 0 0 in
      if (n =? 0)%nat || (4 <? n)%nat then None else
      let gs' := gs ++ [acc] in
      match rest with
      | [] => Some ([], gs', ell)
      | c :: s1 =>
          if Ascii.eqb c "." then
            if bool_decide (ell = None) && negb (length gs =? 6)%nat then None
            else if (6 <? length gs)%nat then None
            else match parseIPv4 s with
                 | Some v => Some ([], gs ++ [v / 65536; v mod 65536], ell)
                 | None => None
                 end
          else if Ascii.eqb c ":" then
            match s1 with
            | [] => None
            | c2 :: s2 =>
                if Ascii.eqb c2 ":" then
                  match ell with
                  | Some _ => None
                  | None => match s2 with
                            | [] => Some ([], gs', Some (length gs'))
                            | _ => parse6_loop f s2 gs' (Some (length gs'))
                            end
                  end
                else parse6_loop f s1 gs' ell
            end
          else None
      end
  end.

Definition groups_value (gs : list Z) : Z := fold_left (fun acc g => acc * 65536 + g) gs 0.

Definition parseIPv6 (input : str) : option Addr :=
  let finish (s : str) (zone : str) : option Addr :=
    let '(ell0, s0) := if HasPrefix s "::" then (Some 0%nat, drop 2 s) else (None, s) in
    if bool_decide (ell0 = Some 0%nat) && bool_decide (s0 = []) then Some (mkAddr 0 (z6 zone)) else
    match parse6_loop 8 s0 [] ell0 with
    | Some ([], gs, ell) =>
        if (length gs <? 8)%nat then
          match ell with
          | None => None
          | Some e => Some (mkAddr (groups_value (take e gs ++ replicate (8 - length gs) 0 ++ drop e gs))
                              (z6 zone))
          end
        else match ell with
             | Some _ => None
             | None => Some (mkAddr (groups_value gs) (z6 zone))
             end
    | _ => None
    end in
  match Cut input "%" with
  | Some (s, []) => None
  | Some (s, zone) => finish s zone
  | None => finish input []
  end.

(** [netip.ParseAddr]: the first of '.', ':' and '%' decides the family. *)
Fixpoint parse_family (s : str) : option byte :=
  match s with
  | [] => None
  | c :: s' => if Ascii.eqb c "." || Ascii.eqb c ":" || Ascii.eqb c "%" then Some c
               else parse_family s'
  end.

Definition ParseAddr (s : str) : option Addr :=
  match parse_family s with
  | Some "."%char => Addr4 <$> parseIPv4 s
  | Some ":"%char => parseIPv6 s
  | _ => None
  end.

(** [net.ParseIP(s) != nil]: an address without a zone. *)
Definition ParseIP_ok (s : str) : bool :=
  match ParseAddr s with
  | Some a => bool_decide (Zone a = [])
  | None => false
  end.

(** The number after the slash: digits only and no leading zero. *)
Definition parse_bits (s : str) : option Z :=
  match s with
  | [] => None
  | c :: rest =>
      if forallb is_digit s && (bool_decide (rest = []) || negb (Ascii.eqb c "0"))
      then Some (dec_value s) else None
  end.

Definition ParsePrefix (s : str) : option Prefix :=
  match cut_last "/" s with
  | None => None
  | Some (ips, bitss) =>
      match ParseAddr ips, parse_bits bitss with
      | Some ip, Some bits =>
          if bool_decide (Zone ip = []) && (bits <=? BitLen ip) then Some (PrefixFrom ip bits)
          else None
      | _, _ => None
      end
  end.

(** [netip.AddrFromSlice]; the zero address stands for its failure. *)
Definition be_value (bs : list byte) : Z := fold_left (fun acc b => acc * 256 + bval b) bs 0.

Definition AddrFromSlice (bs : list byte) : Addr :=
  if (length bs =? 4)%nat then Addr4 (be_value bs)
  else if (length bs =? 16)%nat then mkAddr (be_value bs) (z6 [])
  else AddrZero.

(** [Addr.AsSlice], big-endian. *)
Fixpoint be_bytes (n : nat) (v : Z) : list byte :=
  match n with
  | O => []
  | S k => byte_of (Z.shiftr v (8 * Z.of_nat k)) :: be_bytes k v
  end.

Definition AsSlice (a : Addr) : list byte :=
  match addr_kind a with
  | z0 => []
  | z4 => be_bytes 4 (addr_val a)
  | z6 _ => be_bytes 16 (addr_val a)
  end.

(** [netip.ParseAddrPort]: the address and the port of "ip:port" or "[ip6]:port". *)
Definition ParseAddrPort (s : str) : option (Addr * Z) :=
  match cut_last ":" s with
  | None => None
  | Some (ips, ports) =>
      if str_eqb ips [] || str_eqb ports [] then None else
      let '(ip_text, v6, ok) :=
        match ips with
        | "["%char :: rest =>
            if HasSuffix rest "]" then (TrimSuffix rest "]", true, true) else ([], true, false)
        | _ => (ips, false, true)
        end in
      if negb ok then None else
      match ParseAddr ip_text, ParseUint16 ports with
      | Some ip, Some port =>
          if (v6 && Is4 ip) || (negb v6 && Is6 ip) then None else Some (ip, port)
      | _, _ => None
      end
  end.

(** The concrete texts the repository's tests use. *)
Example parse_v4 : ParseAddr "10.254.0.1" = Some (AddrFrom4 10 254 0 1).
Proof. vm_compute. reflexivity. Qed.
Example parse_v4_leading_zero : ParseAddr "10.254.00.1" = None.
Proof. vm_compute. reflexivity. Qed.
Example parse_v6 : ParseAddr "fd00:1234::2" = Some (mkAddr (253 * 2 ^ 120 + 4660 * 2 ^ 96 + 2) (z6 [])).
Proof. vm_compute. reflexivity. Qed.
Example string_v6 : AddrString (mkAddr (253 * 2 ^ 120 + 4660 * 2 ^ 96 + 2) (z6 [])) = lit "fd00:1234::2".
Proof. vm_compute. reflexivity. Qed.
Example parse_v4in6 : AddrString <$> ParseAddr "::ffff:192.0.2.7" = Some (lit "::ffff:192.0.2.7").
Proof. vm_compute. reflexivity. Qed.
Example parse_prefix : ParsePrefix "10.254.0.0/18" = Some (mkPrefix (AddrFrom4 10 254 0 0) 18).
Proof. vm_compute. reflexivity. Qed.

(** * IPv4 prefixes as intervals *)

(** What [Grant.UnmarshalJSON] and [egressGateways] accept: a valid IPv4 prefix
    equal to its masked form. *)
Definition canonical4 (p : Prefix) : bool := Is4 (p_addr p) && bool_decide (p = Masked p).

Definition base (p : Prefix) : Z := addr_val (p_addr p).
Definition psize (p : Prefix) : Z := 2 ^ (32 - p_bits p).
Definition pend (p : Prefix) : Z := base p + psize p.

Record wf4 (p : Prefix) : Prop := {
  wf4_kind : addr_kind (p_addr p) = z4;
  wf4_bits : 0 <= p_bits p <= 32;
  wf4_base : 0 <= base p < 2 ^ 32;
  wf4_aligned : base p mod psize p = 0;
}.

Lemma psize_pos p : p_bits p <= 32 -> 0 < psize p.
Proof. intros. apply Z.pow_pos_nonneg; lia. Qed.

Lemma shift_down_up v h : 0 <= h -> Z.shiftl (Z.shiftr v h) h = v - v mod 2 ^ h.
Proof.
  intros. rewrite Z.shiftl_mul_pow2, Z.shiftr_div_pow2 by lia.
  pose proof (Z.div_mod v (2 ^ h) ltac:(lia)). lia.
Qed.

Lemma wf4_eta p : wf4 p -> p = mkPrefix (Addr4 (base p)) (p_bits p).
Proof. intros [Hk _ _ _]. destruct p as [[v k] b]. simpl in *. by subst. Qed.

Lemma wf4_addr p : wf4 p -> p_addr p = Addr4 (base p).
Proof. intros [Hk _ _ _]. destruct p as [[v k] b]. simpl in *. by subst. Qed.

Lemma Masked_wf4 p : wf4 p -> Masked p = p.
Proof.
  intros Hp. rewrite (wf4_eta p Hp). destruct Hp as [_ Hb Hv Ha].
  unfold Masked, AddrPrefix, Addr4. cbn [p_addr p_bits addr_kind addr_val BitLen].
  destruct (Z.ltb_spec (p_bits p) 0); [lia|]. destruct (Z.ltb_spec 32 (p_bits p)); [lia|].
  rewrite shift_down_up by lia. unfold psize in Ha. rewrite Ha, Z.sub_0_r.
  unfold PrefixFrom. cbn [IsValid addr_kind BitLen].
  destruct (Z.leb_spec 0 (p_bits p)); [|lia]. destruct (Z.leb_spec (p_bits p) 32); [|lia]. done.
Qed.

(** The parser's test establishes the interval view. *)
Lemma canonical4_wf4 p :
  0 <= base p < 2 ^ 32 -> 0 <= p_bits p <= 32 -> canonical4 p = true <-> wf4 p.
Proof.
  intros Hv Hb. unfold canonical4. split.
  - intros H. bool_simp. destruct p as [[v k] b]. unfold base in Hv. simpl in *.
    destruct k; try done. unfold Masked, AddrPrefix in H0.
    cbn [p_addr p_bits addr_kind addr_val BitLen] in H0.
    destruct (Z.ltb_spec b 0); [lia|]. destruct (Z.ltb_spec 32 b); [lia|].
    rewrite shift_down_up in H0 by lia. unfold PrefixFrom in H0.
    cbn [IsValid addr_kind BitLen] in H0.
    destruct (Z.leb_spec 0 b); [|lia]. destruct (Z.leb_spec b 32); [|lia].
    simpl in H0. injection H0 as Hv'. split; simpl; unfold base, psize; simpl; try lia; done.
  - intros Hp. rewrite (Masked_wf4 p Hp). destruct Hp as [Hk _ _ _].
    unfold Is4. rewrite Hk. by apply bool_decide_eq_true.
Qed.

Lemma pend_bound p : wf4 p -> pend p <= 2 ^ 32.
Proof.
  intros [_ Hb Hv Ha]. unfold pend, psize in *.
  replace (2 ^ 32) with (2 ^ p_bits p * 2 ^ (32 - p_bits p)) by (rewrite <-Z.pow_add_r by lia; f_equal; lia).
  replace (2 ^ 32) with (2 ^ p_bits p * 2 ^ (32 - p_bits p)) in Hv by (rewrite <-Z.pow_add_r by lia; f_equal; lia).
  pose proof (Z.pow_pos_nonneg 2 (32 - p_bits p) ltac:(lia) ltac:(lia)).
  pose proof (Z.div_mod (base p) (2 ^ (32 - p_bits p)) ltac:(lia)) as E.
  rewrite Ha, Z.add_0_r in E.
  set (k := base p / _) in *. set (S := 2 ^ (32 - p_bits p)) in *. set (P := 2 ^ p_bits p) in *.
  assert (k < P) by nia. nia.
Qed.

Lemma shiftr_eq_interval v b h :
  0 <= h -> b mod 2 ^ h = 0 -> Z.shiftr v h = Z.shiftr b h <-> b <= v < b + 2 ^ h.
Proof.
  intros Hh Hb. rewrite !Z.shiftr_div_pow2 by lia.
  pose proof (Z.pow_pos_nonneg 2 h ltac:(lia) Hh).
  pose proof (Z.div_mod b (2 ^ h) ltac:(lia)). pose proof (Z.div_mod v (2 ^ h) ltac:(lia)).
  pose proof (Z.mod_pos_bound v (2 ^ h) ltac:(lia)). split; [|intros; nia].
  intros E. rewrite E in *. lia.
Qed.

Lemma shiftr_lxor_zero v b h :
  0 <= h -> Z.shiftr (Z.lxor v b) h = 0 <-> Z.shiftr v h = Z.shiftr b h.
Proof. intros. rewrite Z.shiftr_lxor. apply Z.lxor_eq_0_iff. Qed.

(** [Prefix.Contains] is membership in the interval of addresses. *)
Lemma PContains4 p a :
  wf4 p -> PContains p a = true <-> addr_kind a = z4 /\ base p <= addr_val a < pend p.
Proof.
  intros Hp. rewrite (wf4_eta p Hp) at 1. destruct Hp as [_ Hb Hv Ha].
  unfold PContains, PrefixIsValid. cbn [p_addr p_bits Addr4 addr_kind addr_val].
  assert (BitLen (Addr4 (base p)) = 32) as -> by done.
  destruct (Z.leb_spec 0 (p_bits p)); [|lia].
  unfold BitLen, Zone. destruct (addr_kind a) eqn:Ek; simpl; try (split; [done|intros [? _]; done]).
  - change (str_eqb [] []) with true. simpl. rewrite Z.eqb_eq, shiftr_lxor_zero by lia.
    rewrite (shiftr_eq_interval _ _ (32 - p_bits p)) by (done || lia). unfold pend, psize. tauto.
  - rewrite andb_false_r. split; [done|]. intros [? _]; done.
Qed.

Lemma PContains_Addr4 p v : wf4 p -> PContains p (Addr4 v) = true <-> base p <= v < pend p.
Proof. intros Hp. rewrite (PContains4 p _ Hp). simpl. tauto. Qed.

Lemma PContains4_false p a :
  wf4 p -> PContains p a = false <-> ~ (addr_kind a = z4 /\ base p <= addr_val a < pend p).
Proof. intros Hp. rewrite <-(PContains4 p a Hp). by rewrite not_true_iff_false. Qed.

(** ** Overlap is intersection *)

Lemma AddrPrefix4 v m :
  0 <= m <= 32 ->
  AddrPrefix (Addr4 v) m = Some (mkPrefix (Addr4 (Z.shiftl (Z.shiftr v (32 - m)) (32 - m))) m).
Proof.
  intros. unfold AddrPrefix, Addr4. cbn [addr_kind addr_val BitLen].
  destruct (Z.ltb_spec m 0); [lia|]. destruct (Z.ltb_spec 32 m); [lia|].
  unfold PrefixFrom. cbn [IsValid addr_kind BitLen].
  destruct (Z.leb_spec 0 m); [|lia]. destruct (Z.leb_spec m 32); [|lia]. done.
Qed.

Lemma Overlaps4 p q :
  wf4 p -> wf4 q ->
  Overlaps p q = true <->
  let m := Z.min (p_bits p) (p_bits q) in
  Z.shiftr (base p) (32 - m) = Z.shiftr (base q) (32 - m).
Proof.
  intros Hp Hq. cbv zeta. pose proof (wf4_bits p Hp). pose proof (wf4_bits q Hq).
  pose proof (wf4_base p Hp). pose proof (wf4_base q Hq).
  rewrite (wf4_eta p Hp) at 1. rewrite (wf4_eta q Hq) at 1.
  unfold Overlaps, PrefixIsValid. cbn [p_addr p_bits Is4 Addr4 addr_kind].
  destruct (Z.leb_spec 0 (p_bits p)); [|lia]. destruct (Z.leb_spec 0 (p_bits q)); [|lia].
  cbn [negb orb eqb]. case_bool_decide as E.
  { injection E as -> ->. tauto. }
  destruct (Z.eqb_spec (Z.min (p_bits p) (p_bits q)) 0) as [->|Hm].
  - split; [|done]. intros _. rewrite !Z.shiftr_div_pow2, !Z.div_small by lia. done.
  - change (mkAddr (base p) z4) with (Addr4 (base p)). change (mkAddr (base q) z4) with (Addr4 (base q)).
    rewrite !AddrPrefix4 by lia. cbn [p_addr]. rewrite bool_decide_eq_true. split.
    + intros [= E']. rewrite !Z.shiftl_mul_pow2 in E' by lia.
      apply Z.mul_reg_r in E'; [done|]. apply Z.pow_nonzero; lia.
    + by intros ->.
Qed.

Definition p_disjoint (p q : Prefix) : Prop := pend p <= base q \/ pend q <= base p.

Lemma Overlaps_symm p q : wf4 p -> wf4 q -> Overlaps p q = Overlaps q p.
Proof.
  intros Hp Hq. apply eq_true_iff_eq. rewrite !Overlaps4 by done. cbv zeta.
  rewrite (Z.min_comm (p_bits q)). split; congruence.
Qed.

Lemma shiftr_coarser v b h k :
  0 <= h <= k -> Z.shiftr v h = Z.shiftr b h -> Z.shiftr v k = Z.shiftr b k.
Proof.
  intros Hk E. replace k with (h + (k - h)) by lia.
  rewrite <-!Z.shiftr_shiftr by lia. by rewrite E.
Qed.

(** Two canonical ranges overlap for the parser exactly when they share an address. *)
Lemma Overlaps_disjoint p q : wf4 p -> wf4 q -> Overlaps p q = false <-> p_disjoint p q.
Proof.
  intros Hp Hq. rewrite <-not_true_iff_false, Overlaps4 by done. cbv zeta.
  pose proof (wf4_bits p Hp) as Bp. pose proof (wf4_bits q Hq) as Bq.
  pose proof (wf4_aligned p Hp) as Ap. pose proof (wf4_aligned q Hq) as Aq. unfold psize in Ap, Aq.
  pose proof (psize_pos p ltac:(lia)). pose proof (psize_pos q ltac:(lia)).
  unfold p_disjoint, pend. split.
  - intros Hne. destruct (decide (base q < base p + psize p /\ base p < base q + psize q)) as [[H1 H2]|]; [|lia].
    destruct Hne. set (m := Z.min (p_bits p) (p_bits q)).
    transitivity (Z.shiftr (Z.max (base p) (base q)) (32 - m)); [symmetry|].
    + apply (shiftr_coarser _ _ (32 - p_bits p)); [lia|].
      apply shiftr_eq_interval; [lia|done|]. unfold psize in *. lia.
    + apply (shiftr_coarser _ _ (32 - p_bits q)); [lia|].
      apply shiftr_eq_interval; [lia|done|]. unfold psize in *. lia.
  - intros Hd E. destruct (Z.min_spec (p_bits p) (p_bits q)) as [[_ Em]|[_ Em]]; rewrite Em in E.
    + symmetry in E. apply shiftr_eq_interval in E; [|lia|done]. unfold psize in *. lia.
    + apply shiftr_eq_interval in E; [|lia|done]. unfold psize in *. lia.
Qed.

(** * Text round trips *)

Lemma forall_below (P : Z -> Prop) `{!forall z, Decision (P z)} (n : nat) :
  forallb (fun i => bool_decide (P (Z.of_nat i))) (seq 0 n) = true ->
  forall z, 0 <= z < Z.of_nat n -> P z.
Proof.
  intros Hall z Hz. rewrite forallb_forall in Hall. specialize (Hall (Z.to_nat z)).
  rewrite Z2Nat.id in Hall by lia. apply (bool_decide_eq_true_1 (P z)), Hall, in_seq. lia.
Qed.

Lemma parse_octet_Itoa n : 0 <= n < 256 -> parse_octet (Itoa n) = Some n.
Proof.
  apply (forall_below (fun n => parse_octet (Itoa n) = Some n) 256). by vm_compute.
Qed.

Lemma parse_bits_Itoa n : 0 <= n <= 128 -> parse_bits (Itoa n) = Some n.
Proof.
  intros Hn. apply (forall_below (fun n => parse_bits (Itoa n) = Some n) 129); [|lia].
  by vm_compute.
Qed.

Lemma octet_bound v i : 0 <= octet v i < 256.
Proof. unfold octet. apply Z.mod_pos_bound. lia. Qed.

Lemma octets_value v :
  0 <= v < 2 ^ 32 -> octet v 3 * 2 ^ 24 + octet v 2 * 2 ^ 16 + octet v 1 * 2 ^ 8 + octet v 0 = v.
Proof.
  intros. unfold octet. rewrite !Z.shiftr_div_pow2 by lia.
  change (2 ^ (8 * 3)) with 16777216. change (2 ^ (8 * 2)) with 65536.
  change (2 ^ (8 * 1)) with 256. change (2 ^ (8 * 0)) with 1. rewrite Z.div_1_r.
  assert (v / 16777216 = v / 256 / 256 / 256) as -> by (by rewrite !Z.div_div by lia).
  assert (v / 65536 = v / 256 / 256) as -> by (by rewrite !Z.div_div by lia).
  pose proof (Z.div_mod v 256). pose proof (Z.div_mod (v / 256) 256).
  pose proof (Z.div_mod (v / 256 / 256) 256).
  rewrite (Z.mod_small (v / 256 / 256 / 256)); [lia|].
  rewrite !Z.div_div by lia. split; [apply Z.div_pos|apply Z.div_lt_upper_bound]; lia.
Qed.

Lemma Itoa_free c n : 0 <= n < 10 ^ 20 -> is_digit c = false -> c ∉ Itoa n.
Proof. intros. apply digits_free; [by apply Itoa_digits|done]. Qed.

Lemma octet_text_free c v i : is_digit c = false -> c ∉ Itoa (octet v i).
Proof. intros. apply Itoa_free; [pose proof (octet_bound v i); lia|done]. Qed.

Lemma split_String4 v :
  Split (String4 v) "." = [Itoa (octet v 3); Itoa (octet v 2); Itoa (octet v 1); Itoa (octet v 0)].
Proof.
  apply split_join_char; [done|]. repeat constructor; by apply octet_text_free.
Qed.

Lemma parseIPv4_String4 v : 0 <= v < 2 ^ 32 -> parseIPv4 (String4 v) = Some v.
Proof.
  intros Hv. unfold parseIPv4. rewrite split_String4. cbn [fmap list_fmap].
  rewrite !parse_octet_Itoa by apply octet_bound. by rewrite octets_value.
Qed.

Lemma parse_family_digits s t :
  forallb is_digit s = true -> parse_family (s ++ t) = parse_family t.
Proof.
  induction s as [|c s IH]; intros H; [done|]. simpl in *. bool_simp.
  rewrite IH by done. unfold is_digit in H. bool_simp.
  destruct (Ascii.eqb_spec c "."); [by subst|]. destruct (Ascii.eqb_spec c ":"); [by subst|].
  destruct (Ascii.eqb_spec c "%"); by subst.
Qed.

Lemma String4_unfold v :
  String4 v = Itoa (octet v 3) ++ "."%char :: Itoa (octet v 2) ++ "."%char
              :: Itoa (octet v 1) ++ "."%char :: Itoa (octet v 0).
Proof. done. Qed.

Lemma Itoa_octet_digits v i : forallb is_digit (Itoa (octet v i)) = true.
Proof. apply Itoa_digits. pose proof (octet_bound v i). lia. Qed.

(** Printing an IPv4 address and parsing it back gives the address. *)
Lemma ParseAddr_AddrString v :
  0 <= v < 2 ^ 32 -> ParseAddr (AddrString (Addr4 v)) = Some (Addr4 v).
Proof.
  intros Hv. unfold AddrString, ParseAddr. cbn [Addr4 addr_kind addr_val].
  rewrite String4_unfold, parse_family_digits by apply Itoa_octet_digits.
  cbn [parse_family Ascii.eqb Bool.eqb orb]. rewrite <-String4_unfold.
  by rewrite parseIPv4_String4.
Qed.

Lemma String4_free c v : is_digit c = false -> c <> "."%char -> c ∉ String4 v.
Proof.
  intros Hd Hc. rewrite String4_unfold.
  repeat (rewrite not_elem_of_app || rewrite not_elem_of_cons).
  repeat split; try done; by apply octet_text_free.
Qed.

Lemma cut_last_app c s t : c ∉ t -> cut_last c (s ++ c :: t) = Some (s, t).
Proof.
  intros H. induction s as [|d s IH]; simpl.
  - by rewrite cut_last_free, Ascii.eqb_refl.
  - by rewrite IH.
Qed.

Lemma PrefixString_wf4 p :
  wf4 p -> PrefixString p = String4 (base p) ++ "/"%char :: Itoa (p_bits p).
Proof.
  intros Hp. rewrite (wf4_eta p Hp) at 1. unfold PrefixString, PrefixIsValid. cbn [p_bits p_addr].
  pose proof (wf4_bits p Hp). destruct (Z.leb_spec 0 (p_bits p)); [done|lia].
Qed.

(** Printing a canonical range and parsing it back gives the range. *)
Lemma ParsePrefix_PrefixString p : wf4 p -> ParsePrefix (PrefixString p) = Some p.
Proof.
  intros Hp. rewrite PrefixString_wf4 by done. unfold ParsePrefix.
  pose proof (wf4_bits p Hp) as Hb.
  rewrite cut_last_app by (apply Itoa_free; [lia|done]).
  change (String4 (base p)) with (AddrString (Addr4 (base p))).
  rewrite ParseAddr_AddrString by apply Hp. rewrite parse_bits_Itoa by lia.
  cbn [Zone Addr4 addr_kind]. rewrite bool_decide_eq_true_2 by done.
  cbn [BitLen addr_kind]. destruct (Z.leb_spec (p_bits p) 32); [|lia].
  transitivity (Some (mkPrefix (Addr4 (base p)) (p_bits p))); [|by rewrite <-wf4_eta].
  unfold PrefixFrom. cbn [IsValid BitLen Addr4 addr_kind].
  destruct (Z.leb_spec 0 (p_bits p)); [|lia]. destruct (Z.leb_spec (p_bits p) 32); [done|lia].
Qed.

(** Every prefix the parser returns is in range, so the test the callers add
    makes it a canonical interval. *)
Lemma parse_octet_bound s n : parse_octet s = Some n -> 0 <= n <= 255.
Proof.
  unfold parse_octet. destruct s as [|c s]; [done|]. case_match; [|done]. intros [= <-].
  bool_simp. split; [|done]. clear -H. unfold dec_value.
  assert (forall l n, 0 <= n -> forallb is_digit l = true ->
    0 <= fold_left (fun n c => n * 10 + digit_val c) l n) as Hgen; [|by apply Hgen].
  clear. induction l as [|c l IH]; intros n Hn H; [done|]. simpl in *. bool_simp.
  apply IH; [|done]. unfold is_digit, digit_val in *. bool_simp. lia.
Qed.

Lemma parseIPv4_bound s v : parseIPv4 s = Some v -> 0 <= v < 2 ^ 32.
Proof.
  unfold parseIPv4. destruct (Split s ".") as [|a [|b [|c [|d [|? ?]]]]]; simpl; repeat case_match; try done.
  intros [= <-].
  repeat match goal with H : parse_octet _ = Some _ |- _ => apply parse_octet_bound in H end. lia.
Qed.

Lemma dec_value_nonneg s : forallb is_digit s = true -> 0 <= dec_value s.
Proof.
  induction s as [|c s IH] using rev_ind; intros H; [done|].
  rewrite forallb_app in H. simpl in H. bool_simp. rewrite dec_value_snoc.
  unfold is_digit, digit_val in *. bool_simp. specialize (IH H). lia.
Qed.

Lemma parseIPv6_Is4 s a : parseIPv6 s = Some a -> Is4 a = false.
Proof. unfold parseIPv6. intros H. repeat case_match; simplify_eq/=; done. Qed.

Lemma ParseAddr_Is4 s a :
  ParseAddr s = Some a -> Is4 a = true -> exists v, a = Addr4 v /\ 0 <= v < 2 ^ 32.
Proof.
  unfold ParseAddr. intros H H4.
  assert (parseIPv6 s = Some a -> False) as H6 by (intros E; apply parseIPv6_Is4 in E; congruence).
  assert (Addr4 <$> parseIPv4 s = Some a -> exists v, a = Addr4 v /\ 0 <= v < 2 ^ 32) as Hok.
  { destruct (parseIPv4 s) as [v|] eqn:E; [|done]. intros [= <-].
    exists v. split; [done|]. by apply parseIPv4_bound in E. }
  destruct (parse_family s) as [[[] [] [] [] [] [] [] []]|]; solve [done|by apply Hok|by destruct H6].
Qed.

Lemma parse_bits_nonneg s n : parse_bits s = Some n -> 0 <= n.
Proof.
  unfold parse_bits. destruct s as [|c s]; [done|]. case_match eqn:E; [|done]. intros [= <-].
  apply andb_prop in E as [E _]. by apply dec_value_nonneg.
Qed.

Lemma PrefixFrom_addr a b : p_addr (PrefixFrom a b) = withoutZone a.
Proof. unfold PrefixFrom. by case_match. Qed.

Lemma withoutZone_Is4 a : Is4 (withoutZone a) = Is4 a.
Proof. unfold withoutZone, Is4. by destruct (addr_kind a) eqn:E; rewrite ?E. Qed.

Lemma ParsePrefix_canonical4 s p : ParsePrefix s = Some p -> canonical4 p = true -> wf4 p.
Proof.
  unfold ParsePrefix. destruct (cut_last "/" s) as [[ips bitss]|]; [|done].
  destruct (ParseAddr ips) as [a|] eqn:Ea; [|done].
  destruct (parse_bits bitss) as [z|] eqn:Eb; [|done].
  case_match eqn:Ec; [|done]. intros [= <-] Hc. bool_simp.
  assert (Is4 a = true) as H4.
  { unfold canonical4 in Hc. bool_simp. by rewrite PrefixFrom_addr, withoutZone_Is4 in H1. }
  destruct (ParseAddr_Is4 _ _ Ea H4) as (v & -> & Hv).
  apply parse_bits_nonneg in Eb.
  cbn [BitLen Addr4 addr_kind] in *. revert Hc. unfold PrefixFrom.
  cbn [IsValid BitLen Addr4 addr_kind]. destruct (Z.leb_spec 0 z); [|lia].
  destruct (Z.leb_spec z 32); [|lia]. apply canonical4_wf4; unfold base; simpl; lia.
Qed.

Lemma PrefixString_inj p q : wf4 p -> wf4 q -> PrefixString p = PrefixString q -> p = q.
Proof.
  intros Hp Hq E. apply (f_equal ParsePrefix) in E.
  rewrite !ParsePrefix_PrefixString in E by done. congruence.
Qed.

#[export] Hint Resolve psize_pos pend_bound octet_bound Itoa_octet_digits : dgw.
#[export] Hint Rewrite ParseAddr_AddrString ParsePrefix_PrefixString using done : dgw.
