(* ===== verification/Json.v ===== *)
(** * JSON values and Go's decoding rules

    The policy reaches the program as [json.RawMessage] values that an outer
    decoder has already accepted, so a raw message is modelled by the tree it
    denotes; an object keeps its members in order, with repeated keys.

    [encoding/json] decodes *into* an existing value: a [null] leaves a string as
    it was and empties a slice, an array reuses the elements already present, and a
    repeated object key decodes over the earlier result.  Decoders therefore take
    the previous value; [None] is any decoding error. *)

From S2P Require Import Prelude GoStrings.

Inductive json :=
| JNull
| JBool (b : bool)
| JNum (text : str)
| JStr (s : str)
| JArr (l : list json)
| JObj (l : list (str * json)).

Definition dec_string (prev : str) (j : json) : option str :=
  match j with
  | JNull => Some prev
  | JStr s => Some s
  | _ => None
  end.

Section slices.
Context {A : Type} (zero : A) (dec : A -> json -> option A).

Fixpoint dec_elems (prev : list A) (l : list json) : option (list A) :=
  match l with
  | [] => Some []
  | j :: l' =>
      match dec (hd zero prev) j, dec_elems (tl prev) l' with
      | Some a, Some r => Some (a :: r)
      | _, _ => None
      end
  end.

Definition dec_slice (prev : list A) (j : json) : option (list A) :=
  match j with
  | JNull => Some []
  | JArr l => dec_elems prev l
  | _ => None
  end.
End slices.

Definition dec_strings : list str -> json -> option (list str) := dec_slice [] dec_string.

(** [json.RawMessage] fields keep the value whatever it is; [None] is a nil
    message, an absent field. *)
Definition dec_raw (prev : option json) (j : json) : option (option json) := Some (Some j).

Definition dec_raws (j : json) : option (list json) :=
  match j with
  | JNull => Some []
  | JArr l => Some l
  | _ => None
  end.

(** Struct decoding: the members in order, each dispatched on its key; keys are
    compared the way [encoding/json] compares them, ignoring case. *)
Section structs.
Context {A : Type} (field : A -> str -> json -> option A).

Fixpoint dec_members (acc : A) (l : list (str * json)) : option A :=
  match l with
  | [] => Some acc
  | (k, v) :: l' =>
      match field acc k v with
      | Some acc' => dec_members acc' l'
      | None => None
      end
  end.

Definition dec_struct (init : A) (j : json) : option A :=
  match j with
  | JNull => Some init
  | JObj l => dec_members init l
  | _ => None
  end.
End structs.

Definition key_is (k : str) (name : string) : bool := EqualFold k name.

Lemma dec_elems_length {A} (zero : A) dec prev l r :
  dec_elems zero dec prev l = Some r -> length r = length l.
Proof.
  revert prev r; induction l as [|j l IH]; intros prev r H; simpl in H; [by simplify_eq|].
  repeat case_match; simplify_eq/=. f_equal. by eapply IH.
Qed.

(** What every element decoder establishes holds of every element. *)
Lemma dec_elems_Forall {A} (zero : A) dec (P : A -> Prop) prev l r :
  (forall a j b, dec a j = Some b -> P b) -> dec_elems zero dec prev l = Some r -> Forall P r.
Proof.
  intros HP. revert prev r; induction l as [|j l IH]; intros prev r H; simpl in H; [by simplify_eq|].
  repeat case_match; simplify_eq/=. constructor; eauto.
Qed.
