(* ===== verification/Policy.v ===== *)
(** * The policy: names, ports, resolvers, capability parsing, authorization

    [internal/domain/domain.go] up to the allocator, with [IsSystemResolver] of
    [upstream.go].  Everything here is pure: it is the authorization hot path of
    both the DNS authority and the egress gateway. *)

From S2P Require Import Prelude GoStrings NetAddr Json.

(** ** Data *)

Definition Capability : str := "matchlighter.net/domain-gateway".

Record Resource := mkResource {
  Domain : str;
  IP : list str;
  r_UpstreamDNS : str;
}.

Record Grant := mkGrant {
  g_UpstreamDNS : str;
  Resources : list Resource;
  Ranges : list Prefix;
}.

Record Gateway := mkGateway {
  Prefixes : list Prefix;
  Resolver : str;
  SystemResolver : bool;
}.

#[export] Instance Resource_eq_dec : EqDecision Resource.
Proof. solve_decision. Defined.
#[export] Instance Grant_eq_dec : EqDecision Grant.
Proof. solve_decision. Defined.
#[export] Instance Gateway_eq_dec : EqDecision Gateway.
Proof. solve_decision. Defined.

Definition ResourceZero : Resource := mkResource [] [] [].
Definition GrantZero : Grant := mkGrant [] [] [].
Definition GatewayZero : Gateway := mkGateway [] [] false.

(** ** Decoding *)

(** The shorthand "domain:port[,port...]". *)
Definition parse_shorthand (r : Resource) (shorthand : str) : option Resource :=
  match Cut shorthand ":" with
  | None => None
  | Some (domain, ports) =>
      if str_eqb domain [] || str_eqb ports [] || Contains ports ":" then None else
      let parts := Split ports "," in
      if existsb (fun port => str_eqb port []) parts then None
      else Some (mkResource domain (app "tcp:" <$> parts) (r_UpstreamDNS r))
  end.

Record resource_obj := mkResourceObj {
  ro_domain : str; ro_ip : list str; ro_upstream : str; ro_ports : option json }.

Definition resource_field (o : resource_obj) (k : str) (v : json) : option resource_obj :=
  let '(mkResourceObj d i u p) := o in
  if key_is k "domain" then (fun d' => mkResourceObj d' i u p) <$> dec_string d v
  else if key_is k "ip" then (fun i' => mkResourceObj d i' u p) <$> dec_strings i v
  else if key_is k "upstreamDNS" then (fun u' => mkResourceObj d i u' p) <$> dec_string u v
  else if key_is k "ports" then (fun p' => mkResourceObj d i u p') <$> dec_raw p v
  else Some o.

Definition Resource_UnmarshalJSON (r : Resource) (data : json) : option Resource :=
  match data with
  | JStr shorthand => parse_shorthand r shorthand
  | _ =>
      match dec_struct resource_field (mkResourceObj [] [] [] None) data with
      | None => None
      | Some o =>
          match ro_ports o with
          | Some _ => None
          | None => Some (mkResource (ro_domain o) (ro_ip o) (ro_upstream o))
          end
      end
  end.

Record grant_obj := mkGrantObj {
  go_upstream : str; go_resources : list Resource; go_ranges : option json }.

Definition grant_field (o : grant_obj) (k : str) (v : json) : option grant_obj :=
  let '(mkGrantObj u rs g) := o in
  if key_is k "upstreamDNS" then (fun u' => mkGrantObj u' rs g) <$> dec_string u v
  else if key_is k "resources" then
    (fun rs' => mkGrantObj u rs' g) <$> dec_slice ResourceZero Resource_UnmarshalJSON rs v
  else if key_is k "range" then (fun g' => mkGrantObj u rs g') <$> dec_raw g v
  else Some o.

(** The loop over the range values: each must parse, be a canonical IPv4 prefix
    and miss every range accepted before it. *)
Fixpoint parse_ranges (values : list str) (prior : list Prefix) : option (list Prefix) :=
  match values with
  | [] => Some prior
  | value :: rest =>
      match ParsePrefix value with
      | None => None
      | Some prefix =>
          if negb (Is4 (p_addr prefix)) || negb (bool_decide (prefix = Masked prefix)) then None
          else if existsb (Overlaps prefix) prior then None
          else parse_ranges rest (prior ++ [prefix])
      end
  end.

Definition Grant_UnmarshalJSON (data : json) : option Grant :=
  match dec_struct grant_field (mkGrantObj [] [] None) data with
  | None => None
  | Some o =>
      match go_ranges o with
      | None => None
      | Some raw =>
          match dec_strings [] raw with
          | None => None
          | Some [] => None
          | Some values => mkGrant (go_upstream o) (go_resources o) <$> parse_ranges values []
          end
      end
  end.

(** ** Names *)

Definition name_char (c : byte) : bool :=
  ((97 <=? bval c) && (bval c <=? 122)) || is_digit c || Ascii.eqb c "-".

Definition valid_label (label : str) : bool :=
  negb (length label =? 0)%nat && (length label <=? 63)%nat &&
  negb (bool_decide (head label = Some "-"%char)) &&
  negb (bool_decide (last label = Some "-"%char)) &&
  forallb name_char label.

Definition validName (name : str) : bool :=
  negb (length name =? 0)%nat && (length name <=? 253)%nat && Contains name "." &&
  forallb valid_label (Split name ".").

Definition NormalName `{UnicodeTable} (name : str) : str * bool :=
  let name := ToLower (TrimSuffix name ".") in (name, validName name).

Definition match_ (pattern name : str) : bool :=
  if HasPrefix pattern "**." then HasSuffix name ("." ++ drop 3 pattern)
  else if HasPrefix pattern "*." then
    let suffix := drop 2 pattern in
    HasSuffix name ("." ++ suffix) && (Count name "." =? Count suffix "." + 1)%nat
  else str_eqb pattern name.

(** ** Ports *)

(** The digit loop of [allowedPort], on 64-bit arithmetic: a non-digit resets the
    number and stops. *)
Fixpoint allowed_digits (s : str) (n : Z) : Z :=
  match s with
  | [] => n
  | c :: s' => if is_digit c then allowed_digits s' (uint64 (n * 10 + digit_val c)) else 0
  end.

Definition allowedPort (ports : list str) (proto : str) (port : Z) : bool :=
  match ports with
  | [] => true
  | _ =>
      let expected := proto ++ ":" in
      existsb (fun p => HasPrefix p expected &&
                        (allowed_digits (drop (length expected) p) 0 =? port)) ports
  end.

(** The digit loop of [validPorts]: [None] once a character is not a digit or the
    number passes 65535. *)
Fixpoint valid_digits (s : str) (n : Z) : option Z :=
  match s with
  | [] => Some n
  | c :: s' =>
      if is_digit c then
        let n' := uint64 (n * 10 + digit_val c) in
        if 65535 <? n' then None else valid_digits s' n'
      else None
  end.

Definition valid_port (p : str) : bool :=
  match Split p ":" with
  | [proto; digits] =>
      (str_eqb proto "tcp" || str_eqb proto "udp") && negb (str_eqb digits []) &&
      match valid_digits digits 0 with
      | None => false
      | Some n => negb (n =? 0)
      end
  | _ => false
  end.

Definition validPorts (ports : list str) : bool := forallb valid_port ports.

(** ** Resolvers *)

Definition IsSystemResolver (resolver : str) : bool := EqualFold resolver "system".

Definition normalizeResolver (resolver : str) : str * bool :=
  if IsSystemResolver resolver then (resolver, true) else
  match SplitHostPort resolver with
  | None =>
      if Contains resolver ":" && negb (ParseIP_ok resolver) then ([], false)
      else (JoinHostPort resolver "53", true)
  | Some (host, port) =>
      if str_eqb host [] then ([], false) else
      match ParseUint16 port with
      | None => ([], false)
      | Some n => if n =? 0 then ([], false) else (JoinHostPort host port, true)
      end
  end.

(** ** Parsing a capability map *)

Definition normalize_optional (resolver : str) : str * bool :=
  if str_eqb resolver [] then (resolver, true) else normalizeResolver resolver.

Definition valid_pattern (d : str) : bool :=
  if HasPrefix d "**." then validName (drop 3 d)
  else if HasPrefix d "*." then validName (drop 2 d)
  else validName d.

(** One pass of the resource loop: the rewritten resource and its validity. *)
Definition parse_resource `{UnicodeTable} (r : Resource) : Resource * bool :=
  let d := ToLower (TrimSuffix (Domain r) ".") in
  let '(u, ok) := normalize_optional (r_UpstreamDNS r) in
  (mkResource d (IP r) u, valid_pattern d && validPorts (IP r) && ok).

Definition parse_grant `{UnicodeTable} (g : Grant) : Grant * bool :=
  let '(u, ok) := normalize_optional (g_UpstreamDNS g) in
  let rs := parse_resource <$> Resources g in
  (mkGrant u (fst <$> rs) (Ranges g), ok && forallb snd rs).

(** One entry of the capability array; [None] when the loop skips it. *)
Definition parse_entry `{UnicodeTable} (entry : json) : option Grant :=
  match Grant_UnmarshalJSON entry with
  | None => None
  | Some g =>
      if bool_decide (Ranges g = []) || bool_decide (Resources g = []) then None
      else let '(g', valid) := parse_grant g in if valid then Some g' else None
  end.

Definition Parse `{UnicodeTable} (capmap : gmap str json) : list Grant :=
  match capmap !! Capability with
  | None => []
  | Some raw =>
      match dec_raws raw with
      | None => []
      | Some entries => omap parse_entry entries
      end
  end.

(** ** Authorization *)

Fixpoint samePrefixSlice (a b : list Prefix) : bool :=
  match a, b with
  | [], [] => true
  | x :: a', y :: b' => bool_decide (x = y) && samePrefixSlice a' b'
  | _, _ => false
  end.

Definition Authorize (grants : list Grant) (prefixes : list Prefix) (name proto : str) (port : Z) : bool :=
  existsb (fun g => samePrefixSlice (Ranges g) prefixes &&
    existsb (fun r => match_ (Domain r) name && allowedPort (IP r) proto port) (Resources g)) grants.

(** The loop state of [GatewayFor]. *)
Record gw_state := mkGwState {
  gw_resolver : str; gw_priority : Z; gw_system : bool; gw_matched : bool }.

(** The resolver a matching resource proposes, and how specific it is. *)
Definition candidate (gateway : Gateway) (grant : Grant) (resource : Resource) : str * Z :=
  let '(c, p) := if str_eqb (r_UpstreamDNS resource) [] then (g_UpstreamDNS grant, 1)
                 else (r_UpstreamDNS resource, 2) in
  if str_eqb c [] then (Resolver gateway, 0) else (c, p).

(** One matching resource; [None] is the early return on a conflict. *)
Definition gw_step (gateway : Gateway) (grant : Grant) (resource : Resource) (st : gw_state)
  : option gw_state :=
  let '(c, p) := candidate gateway grant resource in
  if negb (gw_matched st) || (gw_priority st <? p) then
    Some (mkGwState c p (if 0 <? p then IsSystemResolver c else gw_system st) true)
  else if (p =? gw_priority st) && negb (str_eqb c (gw_resolver st)) then None
  else Some (mkGwState (gw_resolver st) (gw_priority st) (gw_system st) true).

Fixpoint gw_resources (gateway : Gateway) (name proto : str) (port : Z) (grant : Grant)
  (rs : list Resource) (st : gw_state) : option gw_state :=
  match rs with
  | [] => Some st
  | r :: rs' =>
      if negb (match_ (Domain r) name) || negb (allowedPort (IP r) proto port)
      then gw_resources gateway name proto port grant rs' st
      else match gw_step gateway grant r st with
           | None => None
           | Some st' => gw_resources gateway name proto port grant rs' st'
           end
  end.

Fixpoint gw_grants (gateway : Gateway) (name proto : str) (port : Z) (grants : list Grant)
  (st : gw_state) : option gw_state :=
  match grants with
  | [] => Some st
  | g :: gs =>
      if samePrefixSlice (Ranges g) (Prefixes gateway) then
        match gw_resources gateway name proto port g (Resources g) st with
        | None => None
        | Some st' => gw_grants gateway name proto port gs st'
        end
      else gw_grants gateway name proto port gs st
  end.

Definition GatewayFor (grants : list Grant) (gateway : Gateway) (name proto : str) (port : Z)
  : Gateway * bool :=
  match gw_grants gateway name proto port grants
          (mkGwState (Resolver gateway) 0 (SystemResolver gateway) false) with
  | None => (GatewayZero, false)
  | Some st =>
      if gw_matched st
      then (mkGateway (Prefixes gateway) (gw_resolver st) (gw_system st), true)
      else (GatewayZero, false)
  end.

(** [RangesForName]; the local [ranges] is nil until a resource matches. *)
Fixpoint ranges_resources (name : str) (grant : Grant) (rs : list Resource) (ranges : list Prefix)
  : option (list Prefix) :=
  match rs with
  | [] => Some ranges
  | r :: rs' =>
      if negb (match_ (Domain r) name) then ranges_resources name grant rs' ranges
      else if negb (bool_decide (ranges = [])) && negb (samePrefixSlice ranges (Ranges grant)) then None
      else ranges_resources name grant rs' (Ranges grant)
  end.

Fixpoint ranges_grants (name : str) (grants : list Grant) (ranges : list Prefix)
  : option (list Prefix) :=
  match grants with
  | [] => Some ranges
  | g :: gs =>
      match ranges_resources name g (Resources g) ranges with
      | None => None
      | Some ranges' => ranges_grants name gs ranges'
      end
  end.

Definition RangesForName (grants : list Grant) (name : str) : list Prefix * bool :=
  match ranges_grants name grants [] with
  | None => ([], false)
  | Some ranges => (ranges, negb (bool_decide (ranges = [])))
  end.

Definition rangeKey (prefixes : list Prefix) : str := Join (PrefixString <$> prefixes) ",".
