(* ===== verification/PolicySpec.v ===== *)
(** * The policy: specifications and proofs

    What a normalised name, a pattern match and a port list mean, what the
    capability parser guarantees of every grant it returns, and when a flow is
    authorised and with which resolver. *)

From S2P Require Import Prelude GoStrings NetAddr Json Policy.

(** ** Names *)

Lemma name_char_lower c : name_char c = true -> is_lower_ascii c = true.
Proof.
  unfold name_char, is_lower_ascii, is_upper, is_digit.
  destruct (Ascii.eqb_spec c "-") as [->|]; [done|]. rewrite orb_false_r. lia.
Qed.

Lemma valid_label_chars l c : valid_label l = true -> c ∈ l -> name_char c = true.
Proof.
  unfold valid_label. intros H Hc. bool_simp.
  rewrite forallb_forall in H0. by apply H0, list_elem_of_In.
Qed.

Lemma elem_of_Join c sep (l : list str) : c ∈ Join l [sep] -> c = sep \/ exists p, p ∈ l /\ c ∈ p.
Proof.
  induction l as [|a l IH]; [intros H; by apply elem_of_nil in H|].
  destruct l as [|b l].
  - intros H. right. exists a. split; [by left|done].
  - rewrite Join_cons2. rewrite !elem_of_app, list_elem_of_singleton. intros [H|[H|H]].
    + right. exists a. split; [by left|done].
    + by left.
    + destruct (IH H) as [?|(p & Hp & ?)]; [by left|]. right. exists p. split; [by right|done].
Qed.

Lemma validName_labels n : validName n = true -> Forall (fun l => valid_label l = true) (Split n ".").
Proof. unfold validName. intros H. bool_simp. by apply forallb_Forall_true. Qed.

(** Every byte of a valid name is a lower-case letter, a digit, '-' or '.'. *)
Lemma validName_chars n c : validName n = true -> c ∈ n -> c = "."%char \/ name_char c = true.
Proof.
  intros Hv Hc. rewrite <-(join_split_char "." n) in Hc.
  apply elem_of_Join in Hc as [->|(p & Hp & Hc)]; [by left|]. right.
  apply validName_labels in Hv. rewrite Forall_forall in Hv.
  apply (valid_label_chars p); [by apply Hv|done].
Qed.

Lemma validName_lower n : validName n = true -> forallb is_lower_ascii n = true.
Proof.
  intros Hv. apply forallb_forall. intros c Hc. apply list_elem_of_In in Hc.
  destruct (validName_chars n c Hv Hc) as [->|H]; [done|by apply name_char_lower].
Qed.

Lemma validName_no_star n : validName n = true -> "*"%char ∉ n.
Proof. intros Hv Hc. by destruct (validName_chars n _ Hv Hc). Qed.

Lemma validName_no_nul n : validName n = true -> byte_of 0 ∉ n.
Proof. intros Hv Hc. by destruct (validName_chars n _ Hv Hc). Qed.

Lemma valid_label_nonempty : valid_label [] = false.
Proof. done. Qed.

Lemma validName_trim n : validName n = true -> TrimSuffix n "." = n.
Proof.
  intros Hv. apply TrimSuffix_id. intros s ->. apply validName_labels in Hv.
  change (lit ".") with ["."%char] in Hv. rewrite split_char_mid, Forall_app in Hv.
  destruct Hv as [_ Hv]. rewrite split_char_nil in Hv. by inversion Hv.
Qed.

Section names.
Context `{UnicodeTable}.

Lemma NormalName_fixed n : validName n = true -> NormalName n = (n, true).
Proof.
  intros Hv. unfold NormalName. rewrite validName_trim by done.
  rewrite ToLower_fixed by (by apply validName_lower). by rewrite Hv.
Qed.

Lemma NormalName_valid n m : NormalName n = (m, true) -> validName m = true.
Proof. unfold NormalName. by intros [= <- ?]. Qed.

(** Normalisation is a projection onto the valid names: whatever the Unicode
    case table is, an accepted name comes back in a form that normalises to itself
    and consists only of labels of lower-case letters, digits and inner hyphens. *)
Theorem NormalName_idempotent n m :
  NormalName n = (m, true) ->
  NormalName m = (m, true) /\
  (forall c, c ∈ m -> c = "."%char \/ name_char c = true) /\
  Forall (fun l => valid_label l = true) (Split m ".").
Proof.
  intros Hn. apply NormalName_valid in Hn. split; [by apply NormalName_fixed|].
  split; [intros c; by apply validName_chars|by apply validName_labels].
Qed.
End names.

(** A mixed-case name with its root dot, and one spelled with the Kelvin sign
    (U+212A), which Unicode lower-casing turns into the letter k. *)
Lemma NormalName_idempotent_witness :
  @NormalName table_min "App.Example.COM." = (lit "app.example.com", true) /\
  @NormalName table_min "app.example.com" = (lit "app.example.com", true).
Proof.
  split; [by vm_compute|].
  apply (@NormalName_idempotent table_min "App.Example.COM."). by vm_compute.
Defined.

(** ** Patterns *)

(** The documented meaning of a resource domain: exact by default, [*.suffix] for
    exactly one label below the suffix, [**.suffix] for one or more. *)
Inductive covers : str -> str -> Prop :=
| covers_exact n : covers n n
| covers_one label suffix n :
    Split n "." = label :: Split suffix "." -> covers ("*." ++ suffix) n
| covers_many labels suffix n :
    labels <> [] -> Split n "." = labels ++ Split suffix "." -> covers ("**." ++ suffix) n.

Lemma suffix_labels n suffix :
  HasSuffix n ("." ++ suffix) = true <->
  exists labels, labels <> [] /\ Split n "." = labels ++ Split suffix ".".
Proof.
  rewrite HasSuffix_spec. split.
  - intros [s0 ->]. exists (Split s0 "."). split; [apply split_char_not_nil|]. apply split_char_mid.
  - intros (ls & Hn & E). exists (Join ls "."). by apply split_char_suffix.
Qed.

Lemma Count_length s : S (Count s ".") = length (Split s ".").
Proof.
  unfold Count. pose proof (split_char_not_nil "." s) as H.
  change (lit ".") with ["."%char]. by destruct (Split s ["."%char]).
Qed.

Lemma match_one n suffix :
  HasSuffix n ("." ++ suffix) && (Count n "." =? Count suffix "." + 1)%nat = true <->
  exists label, Split n "." = label :: Split suffix ".".
Proof.
  rewrite andb_true_iff, Nat.eqb_eq, suffix_labels.
  pose proof (Count_length n) as Cn. pose proof (Count_length suffix) as Cs. split.
  - intros [(ls & Hn & E) Hc]. rewrite E, length_app in Cn.
    destruct ls as [|l [|l' ls]]; cbn [length app] in *; [done|by exists l|lia].
  - intros [l E]. rewrite E in Cn. cbn [length] in Cn. split; [|lia].
    exists [l]. split; done.
Qed.

Lemma star_not_valid s : validName ("*"%char :: s) = true -> False.
Proof. intros Hv. apply (validName_no_star _ Hv). by left. Qed.

(** C27: For a valid name, the string test of [match] is exactly the documented
    meaning of the pattern: the exact name, one label below the suffix for
    [*.suffix], one or more for [**.suffix], and never the bare suffix. *)
Theorem match_covers pattern n :
  validName n = true -> match_ pattern n = true <-> covers pattern n.
Proof.
  intros Hv. unfold match_. destruct (HasPrefix pattern "**.") eqn:E2.
  - apply HasPrefix_spec in E2 as [sfx ->].
    change (drop 3 ("**." ++ sfx)) with sfx. rewrite suffix_labels. split.
    + intros (ls & Hn & E). by apply (covers_many ls).
    + intros Hc. inversion Hc as [m Hm|l s m Hs|ls s m Hn Hs]; subst.
      * exfalso; exact (star_not_valid _ Hv).
      * simplify_eq/=. eauto.
  - destruct (HasPrefix pattern "*.") eqn:E1.
    + apply HasPrefix_spec in E1 as [sfx ->].
      change (drop 2 ("*." ++ sfx)) with sfx. rewrite match_one. split.
      * intros [l E]. by apply (covers_one l).
      * intros Hc. inversion Hc as [m Hm|l s m Hs|ls s m Hn Hs]; subst.
        -- exfalso; exact (star_not_valid _ Hv).
        -- simplify_eq/=. eauto.
    + rewrite str_eqb_true. split; [intros ->; constructor|].
      intros Hc. inversion Hc; subst; [done| |].
      * by rewrite HasPrefix_app in E1.
      * by rewrite HasPrefix_app in E2.
Qed.

Lemma match_covers_witness :
  match_ "*.dev.example.com" "api.dev.example.com" = true /\
  covers "*.dev.example.com" "api.dev.example.com" /\
  ~ covers "*.dev.example.com" "api.eu.dev.example.com" /\
  ~ covers "**.dev.example.com" "dev.example.com".
Proof.
  split; [by vm_compute|]. split; [apply match_covers; by vm_compute|].
  split; intros Hc; apply match_covers in Hc; by vm_compute in Hc.
Defined.

(** ** Ports *)

Lemma valid_digits_exact s n0 n :
  0 <= n0 -> valid_digits s n0 = Some n -> n0 <= 65535 ->
  forallb is_digit s = true /\ n = fold_left (fun n c => n * 10 + digit_val c) s n0 /\
  allowed_digits s n0 = n /\ n <= 65535.
Proof.
  revert n0; induction s as [|c s IH]; intros n0 H0 H Hb; simpl in *; [simplify_eq; tauto|].
  destruct (is_digit c) eqn:Ed; [|done]. unfold is_digit in Ed. unfold digit_val in *. bool_simp.
  assert (uint64 (n0 * 10 + (bval c - 48)) = n0 * 10 + (bval c - 48)) as Eu
    by (apply wrap_small; lia).
  rewrite Eu in *. case_match; [done|]. bool_simp. apply IH in H; [|lia|lia]. done.
Qed.

(** A listed port as the pair the entry denotes. *)
Lemma valid_port_spec p :
  valid_port p = true <->
  exists proto digits, p = proto ++ ":" ++ digits /\ (proto = lit "tcp" \/ proto = lit "udp") /\
    digits <> [] /\ forallb is_digit digits = true /\ 1 <= dec_value digits <= 65535 /\
    valid_digits digits 0 = Some (dec_value digits).
Proof.
  unfold valid_port. change (lit ":") with [":"%char]. split.
  - intros H. pose proof (join_split_char ":" p) as Ej.
    destruct (Split p [":"%char]) as [|proto [|digits [|? ?]]] eqn:E; try done.
    apply andb_prop in H as [H Hz]. apply andb_prop in H as [Hp Hn].
    apply orb_true_iff in Hp. rewrite !str_eqb_true in Hp. unfold str_eqb in Hn.
    destruct (valid_digits digits 0) as [n|] eqn:En; [|done]. bool_simp.
    destruct (valid_digits_exact digits 0 n) as (Hd & Hv & _ & Hle); [lia|done|lia|].
    fold (dec_value digits) in Hv. subst n. pose proof (dec_value_nonneg digits Hd).
    exists proto, digits. repeat split; try done; lia.
  - intros (proto & digits & -> & Hp & Hn & Hd & Hv & Hvd).
    change (proto ++ [":"%char] ++ digits) with (proto ++ ":"%char :: digits).
    rewrite split_char_app by (apply has_byte_false; by destruct Hp as [-> | ->]).
    rewrite split_char_free by (by apply digits_free). rewrite Hvd.
    apply andb_true_iff; split; [apply andb_true_iff; split|].
    + apply orb_true_iff. rewrite !str_eqb_true. done.
    + unfold str_eqb. apply negb_true_iff, bool_decide_eq_false. done.
    + apply negb_true_iff, Z.eqb_neq. lia.
Qed.

Lemma valid_port_parts p :
  valid_port p = true ->
  exists pr ds, p = pr ++ ":"%char :: ds /\ (":"%char ∉ pr) /\ (":"%char ∉ ds) /\
    allowed_digits ds 0 = dec_value ds /\ 1 <= dec_value ds <= 65535.
Proof.
  intros (pr & ds & -> & Hpr & _ & Hd & Hb & Hvd)%valid_port_spec.
  destruct (valid_digits_exact ds 0 (dec_value ds)) as (_ & _ & Ha & _); [lia|done|lia|].
  exists pr, ds. repeat split; try done; try lia.
  - apply has_byte_false; by destruct Hpr as [-> | ->].
  - by apply digits_free.
Qed.

(** One validated entry against one flow. *)
Lemma port_entry_spec p proto port :
  valid_port p = true ->
  HasPrefix p (proto ++ ":") && (allowed_digits (drop (length (proto ++ ":")) p) 0 =? port) = true <->
  exists digits, p = proto ++ ":" ++ digits /\ dec_value digits = port /\ 1 <= port <= 65535.
Proof.
  intros (pr & ds & -> & Hpr & Hds & Ha & Hb)%valid_port_parts.
  rewrite andb_true_iff, HasPrefix_spec, Z.eqb_eq. split.
  - intros [[rest E] Hr]. rewrite E, drop_app_length in Hr. rewrite <-(assoc_L (++)) in E.
    destruct (char_once_unique ":" pr ds proto rest Hpr Hds E) as [-> ->].
    exists ds. repeat split; try done; lia.
  - intros (ds' & E & Hval & Hport).
    destruct (char_once_unique ":" pr ds proto ds' Hpr Hds E) as [-> ->].
    split; [by exists ds; rewrite <-(assoc_L (++))|].
    change (pr ++ ":"%char :: ds) with (pr ++ lit ":" ++ ds).
    by rewrite (assoc_L (++)), drop_app_length, Ha.
Qed.

(** C28: A validated port list means what it says: a flow passes when the list is
    empty or contains the entry [proto:digits] with exactly that number.  The 64-bit
    accumulator of [allowedPort] cannot wrap on a list [validPorts] accepted. *)
Theorem allowedPort_spec ports proto port :
  validPorts ports = true ->
  allowedPort ports proto port = true <->
  ports = [] \/
  exists digits, proto ++ ":" ++ digits ∈ ports /\ dec_value digits = port /\ 1 <= port <= 65535.
Proof.
  unfold validPorts. rewrite forallb_Forall_true, Forall_forall. intros Hv.
  destruct ports as [|p0 ports0]; [simpl; tauto|].
  unfold allowedPort. set (ports := p0 :: ports0) in *. rewrite existsb_elem. split.
  - intros (p & Hin & Hp). apply port_entry_spec in Hp as (ds & -> & ?); [|by apply Hv].
    right. by exists ds.
  - intros [?|(ds & Hin & ?)]; [done|]. exists (proto ++ ":" ++ ds). split; [done|].
    apply port_entry_spec; [by apply Hv|]. by exists ds.
Qed.

Lemma allowedPort_spec_witness :
  allowedPort [lit "tcp:443"; lit "udp:53"] "udp" 53 = true /\
  allowedPort [lit "tcp:443"; lit "udp:53"] "tcp" 53 <> true /\
  exists digits, "udp" ++ ":" ++ digits ∈ [lit "tcp:443"; lit "udp:53"] /\
                 dec_value digits = 53 /\ 1 <= 53 <= 65535.
Proof.
  split; [by vm_compute|]. split; [by vm_compute|].
  destruct (allowedPort_spec [lit "tcp:443"; lit "udp:53"] "udp" 53) as [H _]; [by vm_compute|].
  destruct H as [?|H]; [by vm_compute|done|exact H].
Defined.

(** Without validation the accumulator does wrap: 2^64 + 443 reads as 443. *)
Example allowedPort_wraps :
  allowedPort [lit "tcp:18446744073709552059"] "tcp" 443 = true /\
  validPorts [lit "tcp:18446744073709552059"] = false.
Proof. split; by vm_compute. Qed.

(** ** What the parser guarantees *)

(** A resolver a grant may carry: absent, the system sentinel, or an endpoint with
    a non-empty host and a port between 1 and 65535. *)
Definition resolver_ok (u : str) : Prop :=
  u = [] \/ IsSystemResolver u = true \/
  exists host port n, u = JoinHostPort host port /\ host <> [] /\
                      ParseUint16 port = Some n /\ 1 <= n <= 65535.

Record wf_resource (r : Resource) : Prop := {
  wfr_pattern : valid_pattern (Domain r) = true;
  wfr_ports : validPorts (IP r) = true;
  wfr_resolver : resolver_ok (r_UpstreamDNS r);
}.

(** Range lists as the parser accepts them: canonical IPv4 prefixes, no two of
    which share an address. *)
Record wf_ranges (ps : list Prefix) : Prop := {
  wfr_nonempty : ps <> [];
  wfr_canonical : Forall wf4 ps;
  wfr_disjoint : forall i j p q, ps !! i = Some p -> ps !! j = Some q -> i <> j -> p_disjoint p q;
}.

Record wf_grant (g : Grant) : Prop := {
  wfg_ranges : wf_ranges (Ranges g);
  wfg_some : Resources g <> [];
  wfg_resources : Forall wf_resource (Resources g);
  wfg_resolver : resolver_ok (g_UpstreamDNS g);
}.

Lemma ParseUint16_bound s n : ParseUint16 s = Some n -> 0 <= n <= 65535.
Proof.
  unfold ParseUint16. destruct s as [|c s]; [done|]. case_match eqn:E; [|done]. intros [= <-].
  bool_simp. split; [by apply dec_value_nonneg|done].
Qed.

Lemma normalize_optional_ok u u' : normalize_optional u = (u', true) -> resolver_ok u'.
Proof.
  unfold normalize_optional, normalizeResolver. case_match eqn:E0.
  { intros [= <-]. left. by apply str_eqb_true. }
  case_match eqn:Es. { intros [= <-]. by right; left. }
  intros H. right; right. destruct (SplitHostPort u) as [[h p]|] eqn:Eh.
  - case_match eqn:Eh0; [done|]. destruct (ParseUint16 p) as [n|] eqn:Ep; [|done].
    case_match; [done|]. injection H as <-. bool_simp. exists h, p, n.
    apply ParseUint16_bound in Ep as Hb. split; [done|]. split; [|split; [done|lia]].
    intros ->. done.
  - case_match; [done|]. injection H as <-. exists u, (lit "53"), 53.
    split; [done|]. split; [by intros ->|]. split; [done|lia].
Qed.

(** The prior ranges are kept, and every new one is canonical and misses them. *)
Lemma parse_ranges_wf values prior ps :
  parse_ranges values prior = Some ps ->
  Forall wf4 prior ->
  (forall i j p q, prior !! i = Some p -> prior !! j = Some q -> i <> j -> p_disjoint p q) ->
  Forall wf4 ps /\
  (forall i j p q, ps !! i = Some p -> ps !! j = Some q -> i <> j -> p_disjoint p q) /\
  length ps = (length values + length prior)%nat.
Proof.
  revert prior; induction values as [|v values IH]; intros prior H Hwf Hd; simpl in H.
  { by simplify_eq. }
  destruct (ParsePrefix v) as [p|] eqn:Ep; [|done]. case_match eqn:Ec; [done|].
  case_match eqn:Eo; [done|]. apply orb_false_iff in Ec as [E4 Em].
  apply negb_false_iff in E4, Em.
  assert (wf4 p) as Hp.
  { apply (ParsePrefix_canonical4 v); [done|]. unfold canonical4. by rewrite E4, Em. }
  rewrite existsb_false_Forall, Forall_forall in Eo. rewrite Forall_forall in Hwf.
  apply IH in H as (H1 & H2 & H3).
  - split; [done|]. split; [done|]. rewrite H3, length_app. simpl. lia.
  - apply Forall_app. split; [by apply Forall_forall|by constructor].
  - assert (forall i q, prior !! i = Some q -> p_disjoint p q) as Hnew.
    { intros i q Hq. apply list_elem_of_lookup_2 in Hq. apply Overlaps_disjoint; auto. }
    intros i j a b Ha Hb Hne. apply lookup_snoc_Some in Ha as [[? Ha]|[-> <-]];
      apply lookup_snoc_Some in Hb as [[? Hb]|[-> <-]].
    + by apply (Hd i j).
    + destruct (Hnew _ _ Ha); [by right|by left].
    + by apply (Hnew j).
    + done.
Qed.

Lemma Grant_UnmarshalJSON_ranges j g : Grant_UnmarshalJSON j = Some g -> wf_ranges (Ranges g).
Proof.
  unfold Grant_UnmarshalJSON. case_match; [|done]. case_match; [|done]. case_match; [|done].
  destruct l as [|v vs]; [done|]. destruct (parse_ranges (v :: vs) []) as [ps|] eqn:E; [|done].
  intros [= <-]. apply parse_ranges_wf in E as (H3 & H4 & H5); [|by constructor|done].
  split; simpl; try done. by destruct ps.
Qed.

Section parse.
Context `{UnicodeTable}.

Lemma parse_resource_wf r : (parse_resource r).2 = true -> wf_resource (parse_resource r).1.
Proof.
  unfold parse_resource. destruct (normalize_optional (r_UpstreamDNS r)) as [u ok] eqn:E.
  simpl. intros Hv. bool_simp. subst ok. split; simpl; try done. by eapply normalize_optional_ok.
Qed.

Lemma parse_grant_wf g g' :
  parse_grant g = (g', true) -> wf_ranges (Ranges g) -> Resources g <> [] -> wf_grant g'.
Proof.
  unfold parse_grant. destruct (normalize_optional (g_UpstreamDNS g)) as [u ok] eqn:E.
  intros [= <- Hv] Hr Hn. bool_simp. subst ok. split; simpl; try done.
  - intros E0. apply fmap_nil_inv, fmap_nil_inv in E0. done.
  - rewrite forallb_Forall_true, Forall_fmap in H1. rewrite !Forall_fmap.
    eapply Forall_impl; [exact H1|]. intros r. apply parse_resource_wf.
  - by eapply normalize_optional_ok.
Qed.

Lemma parse_entry_wf j g : parse_entry j = Some g -> wf_grant g.
Proof.
  unfold parse_entry. destruct (Grant_UnmarshalJSON j) as [g0|] eqn:E; [|done].
  case_match eqn:Ee; [done|]. apply orb_false_iff in Ee as [_ Ee]. bool_simp.
  destruct (parse_grant g0) as [g' []] eqn:Eg; [|done]. intros [= <-].
  apply (parse_grant_wf g0); [done| |done]. by eapply Grant_UnmarshalJSON_ranges.
Qed.

Lemma Parse_elem_wf capmap g : g ∈ Parse capmap -> wf_grant g.
Proof.
  unfold Parse. intros Hg. repeat case_match; try by apply elem_of_nil in Hg.
  apply list_elem_of_omap in Hg as (e & _ & He). by eapply parse_entry_wf.
Qed.

(** C23: Whatever JSON a capability carries, every grant [Parse] returns is well
    formed: at least one range, all canonical IPv4 prefixes and pairwise disjoint;
    at least one resource, each with a valid name or wildcard and valid ports; and
    every resolver absent, the system sentinel or an endpoint with a port in range. *)
Theorem Parse_wf capmap : Forall wf_grant (Parse capmap).
Proof. apply Forall_forall. intros g. apply Parse_elem_wf. Qed.
End parse.

(** A capability array with a shorthand resource, a malformed entry (an unsupported
    [ports] field) and an entry with overlapping ranges: only the first survives. *)
Example Parse_example :
  @Parse table_min {[ Capability := JArr [
    JObj [(lit "range", JArr [JStr "10.254.0.0/29"]); (lit "upstreamDNS", JStr "9.9.9.9");
          (lit "resources", JArr [JStr "Example.net:443,80"])];
    JObj [(lit "range", JArr [JStr "10.254.0.0/29"]);
          (lit "resources", JArr [JObj [(lit "domain", JStr "a.example.com"); (lit "ports", JNull)]])];
    JObj [(lit "range", JArr [JStr "10.254.0.0/24"; JStr "10.254.0.128/25"]);
          (lit "resources", JArr [JStr "example.net:443"])]] ]}
  = [mkGrant "9.9.9.9:53" [mkResource "example.net" [lit "tcp:443"; lit "tcp:80"] []]
       [mkPrefix (AddrFrom4 10 254 0 0) 29]].
Proof. by vm_compute. Qed.

(** ** Authorization *)

Lemma samePrefixSlice_eq a b : samePrefixSlice a b = true <-> a = b.
Proof.
  revert b; induction a as [|x a IH]; intros [|y b]; simpl; try done.
  rewrite andb_true_iff, bool_decide_eq_true, IH. split; [by intros [-> ->]|by intros [= -> ->]].
Qed.

Lemma samePrefixSlice_refl a : samePrefixSlice a a = true.
Proof. by apply samePrefixSlice_eq. Qed.

(** The resolver proposals of all resources that match a flow, in policy order. *)
Definition flow_match (name proto : str) (port : Z) (r : Resource) : bool :=
  match_ (Domain r) name && allowedPort (IP r) proto port.

Definition grant_candidates (gw : Gateway) (name proto : str) (port : Z) (g : Grant) : list (str * Z) :=
  if samePrefixSlice (Ranges g) (Prefixes gw)
  then candidate gw g <$> List.filter (flow_match name proto port) (Resources g)
  else [].

Definition candidates (gw : Gateway) (name proto : str) (port : Z) (grants : list Grant) : list (str * Z) :=
  mjoin (grant_candidates gw name proto port <$> grants).

(** One proposal against the loop state. *)
Definition pick (st : gw_state) (cp : str * Z) : option gw_state :=
  let '(c, p) := cp in
  if negb (gw_matched st) || (gw_priority st <? p) then
    Some (mkGwState c p (if 0 <? p then IsSystemResolver c else gw_system st) true)
  else if (p =? gw_priority st) && negb (str_eqb c (gw_resolver st)) then None
  else Some (mkGwState (gw_resolver st) (gw_priority st) (gw_system st) true).

Fixpoint pick_all (st : gw_state) (cps : list (str * Z)) : option gw_state :=
  match cps with
  | [] => Some st
  | cp :: cps' => st' ← pick st cp; pick_all st' cps'
  end.

Lemma pick_all_app st l1 l2 : pick_all st (l1 ++ l2) = st' ← pick_all st l1; pick_all st' l2.
Proof.
  revert st; induction l1 as [|cp l1 IH]; intros st; simpl; [done|].
  destruct (pick st cp); simpl; [apply IH|done].
Qed.

Lemma gw_resources_pick gw name proto port g rs st :
  gw_resources gw name proto port g rs st =
  pick_all st (candidate gw g <$> List.filter (flow_match name proto port) rs).
Proof.
  revert st; induction rs as [|r rs IH]; intros st; simpl; [done|].
  unfold flow_match at 1. destruct (match_ (Domain r) name); simpl.
  - destruct (allowedPort (IP r) proto port); simpl.
    + unfold gw_step, pick. destruct (candidate gw g r) as [c p].
      repeat case_match; simpl; try done; apply IH.
    + apply IH.
  - apply IH.
Qed.

Lemma candidates_cons gw name proto port g grants :
  candidates gw name proto port (g :: grants) =
  grant_candidates gw name proto port g ++ candidates gw name proto port grants.
Proof. done. Qed.

(** The nested loops of [GatewayFor] are one pass over the proposals. *)
Lemma gw_grants_pick gw name proto port grants st :
  gw_grants gw name proto port grants st = pick_all st (candidates gw name proto port grants).
Proof.
  revert st; induction grants as [|g grants IH]; intros st; simpl; [done|].
  rewrite candidates_cons, pick_all_app. unfold grant_candidates.
  destruct (samePrefixSlice (Ranges g) (Prefixes gw)); simpl; [|apply IH].
  rewrite gw_resources_pick. destruct (pick_all _ _); simpl; [apply IH|done].
Qed.

Lemma candidate_priority gw g r : 0 <= (candidate gw g r).2 <= 2.
Proof. unfold candidate. repeat case_match; simplify_eq/=; lia. Qed.

Lemma candidates_priority gw name proto port grants cp :
  cp ∈ candidates gw name proto port grants -> 0 <= cp.2.
Proof.
  unfold candidates. intros (l & Hcp & (g & -> & _)%list_elem_of_fmap)%list_elem_of_join.
  unfold grant_candidates in Hcp. case_match; [|by apply elem_of_nil in Hcp].
  apply list_elem_of_fmap in Hcp as (r & -> & _). apply candidate_priority.
Qed.

(** The invariant of the pass: a maximal proposal, unopposed at its priority. *)
Definition best (cps : list (str * Z)) (gw : Gateway) (st : gw_state) : Prop :=
  gw_matched st = true /\ 0 <= gw_priority st /\ (gw_resolver st, gw_priority st) ∈ cps /\
  (forall c p, (c, p) ∈ cps -> p <= gw_priority st /\ (p = gw_priority st -> c = gw_resolver st)) /\
  gw_system st = (if 0 <? gw_priority st then IsSystemResolver (gw_resolver st) else SystemResolver gw).

Lemma pick_best_first gw c p :
  0 <= p ->
  best [(c, p)] gw (mkGwState c p (if 0 <? p then IsSystemResolver c else SystemResolver gw) true).
Proof.
  intros Hp. split; [done|]. split; [done|]. split; [by left|]. split; [|done].
  intros c' p' [= -> ->]%list_elem_of_singleton. split; [simpl; lia|done].
Qed.

Lemma pick_best cps gw st c p st' :
  0 <= p -> best cps gw st -> pick st (c, p) = Some st' -> best (cps ++ [(c, p)]) gw st'.
Proof.
  simpl. intros Hp (Hm & H0 & Hin & Hmax & Hs). rewrite Hm. simpl.
  destruct (gw_priority st <? p) eqn:El;
    [|destruct ((p =? gw_priority st) && negb (str_eqb c (gw_resolver st))) eqn:Ec; [done|]];
    intros [= <-]; bool_simp; unfold best; simpl.
  - split; [done|]. split; [done|]. split; [apply elem_of_app; right; by left|]. split.
    + intros c' p'. rewrite elem_of_app, list_elem_of_singleton.
      intros [[? ?]%Hmax|[= -> ->]]; split; try done; lia.
    + destruct (Z.ltb_spec 0 p); [done|lia].
  - split; [done|]. split; [done|]. split; [apply elem_of_app; by left|]. split; [|done].
    intros c' p'. rewrite elem_of_app, list_elem_of_singleton. intros [?%Hmax|[= -> ->]]; [done|].
    split; [lia|]. intros ->. rewrite Z.eqb_refl in Ec. simpl in Ec.
    by apply negb_false_iff, str_eqb_true in Ec.
Qed.

Lemma pick_all_best l cps gw st st' :
  Forall (fun cp => 0 <= cp.2) l -> best cps gw st -> pick_all st l = Some st' -> best (cps ++ l) gw st'.
Proof.
  revert cps st; induction l as [|[c p] l IH]; intros cps st Hf Hb; simpl.
  - intros [= <-]. by rewrite app_nil_r.
  - inversion Hf; subst. destruct (pick st (c, p)) as [st1|] eqn:E; simpl in *; [|by rewrite E].
    rewrite E. simpl. intros Hs. apply (pick_best cps gw) in E; [|done|done].
    rewrite cons_middle, (assoc_L (++)). by apply (IH _ st1).
Qed.

(** Agreement at every priority is enough for the pass to succeed. *)
Definition agreeing (cps : list (str * Z)) : Prop :=
  forall c c' p, (c, p) ∈ cps -> (c', p) ∈ cps -> c = c'.

Lemma pick_all_agreeing l cps gw st :
  Forall (fun cp => 0 <= cp.2) l -> best cps gw st -> agreeing (cps ++ l) ->
  exists st', pick_all st l = Some st'.
Proof.
  revert cps st; induction l as [|[c p] l IH]; intros cps st Hf Hb Ha; simpl; [eauto|].
  inversion Hf; subst. destruct (pick st (c, p)) as [st1|] eqn:E; simpl in E; rewrite E; simpl.
  - apply (IH (cps ++ [(c, p)]) st1); [done|by apply (pick_best _ _ st)|].
    by rewrite <-(assoc_L (++)).
  - exfalso. destruct Hb as (Hm & _ & Hin & _). rewrite Hm in E. simpl in E.
    destruct (gw_priority st <? p); [done|].
    destruct ((p =? gw_priority st) && _) eqn:Ec; [|done]. bool_simp. subst p.
    assert (c = gw_resolver st) as ->.
    { apply (Ha _ _ (gw_priority st)); apply elem_of_app; [right; by left|by left]. }
    unfold str_eqb in *. bool_simp. done.
Qed.

Definition gw_init (gw : Gateway) : gw_state := mkGwState (Resolver gw) 0 (SystemResolver gw) false.

Lemma candidates_nonneg gw name proto port grants :
  Forall (fun cp => 0 <= cp.2) (candidates gw name proto port grants).
Proof. apply Forall_forall. intros cp. apply candidates_priority. Qed.

Lemma pick_init gw c p l :
  pick_all (gw_init gw) ((c, p) :: l) =
  pick_all (mkGwState c p (if 0 <? p then IsSystemResolver c else SystemResolver gw) true) l.
Proof. done. Qed.

(** A pass that ends with a match ends in a best proposal. *)
Lemma pick_all_init l gw st :
  Forall (fun cp => 0 <= cp.2) l -> pick_all (gw_init gw) l = Some st ->
  (l = [] /\ st = gw_init gw) \/ best l gw st.
Proof.
  destruct l as [|[c p] l]; intros Hf; [intros [= <-]; by left|]. inversion Hf; subst.
  rewrite pick_init. intros Hs. right.
  apply (pick_all_best l [(c, p)] gw) in Hs; [done|done|by apply pick_best_first].
Qed.

(** C24: The gateway a flow is sent to carries the most specific resolver the policy
    proposes: resource before grant before the gateway's own.  No matching resource
    proposes another resolver at that level, and the system-resolver flag follows the
    resolver that was chosen. *)
Theorem GatewayFor_sound grants gw name proto port gw' :
  GatewayFor grants gw name proto port = (gw', true) ->
  exists c p, (c, p) ∈ candidates gw name proto port grants /\
    (forall c' p', (c', p') ∈ candidates gw name proto port grants ->
       p' <= p /\ (p' = p -> c' = c)) /\
    gw' = mkGateway (Prefixes gw) c (if 0 <? p then IsSystemResolver c else SystemResolver gw).
Proof.
  unfold GatewayFor. rewrite gw_grants_pick. fold (gw_init gw).
  destruct (pick_all _ _) as [st|] eqn:E; [|done]. destruct (gw_matched st) eqn:Em; [|done].
  intros [= <-]. apply pick_all_init in E as [[_ ->]|(_ & _ & Hin & Hmax & Hs)];
    [done| |apply candidates_nonneg].
  exists (gw_resolver st), (gw_priority st). rewrite <-Hs. done.
Qed.

Definition lab : list Prefix := [mkPrefix (AddrFrom4 10 254 0 0) 29].
Definition lab_gateway : Gateway := mkGateway lab "127.0.0.1:53" false.
Definition lab_grants : list Grant :=
  [mkGrant "127.0.0.2:53" [mkResource "resource.example.com" [] "127.0.0.3:53";
                           mkResource "grant.example.com" [] []] lab;
   mkGrant [] [mkResource "*.example.com" [] []] lab].

Lemma GatewayFor_sound_witness :
  exists c p, (c, p) ∈ candidates lab_gateway "resource.example.com" "tcp" 443 lab_grants /\
    (forall c' p', (c', p') ∈ candidates lab_gateway "resource.example.com" "tcp" 443 lab_grants ->
       p' <= p /\ (p' = p -> c' = c)) /\
    mkGateway lab "127.0.0.3:53" false =
    mkGateway (Prefixes lab_gateway) c (if 0 <? p then IsSystemResolver c else SystemResolver lab_gateway).
Proof. apply GatewayFor_sound. by vm_compute. Defined.

Lemma candidates_nonempty gw name proto port grants :
  candidates gw name proto port grants <> [] <-> Authorize grants (Prefixes gw) name proto port = true.
Proof.
  unfold Authorize. rewrite existsb_elem. split.
  - intros Hn. destruct (candidates gw name proto port grants) as [|cp l] eqn:E; [done|].
    assert (cp ∈ candidates gw name proto port grants) as Hin by (rewrite E; by left).
    unfold candidates in Hin. apply list_elem_of_join in Hin as (l' & Hcp & Hl).
    apply list_elem_of_fmap in Hl as (g & -> & Hg). exists g. split; [done|].
    unfold grant_candidates in Hcp. destruct (samePrefixSlice _ _); [|by apply elem_of_nil in Hcp].
    apply list_elem_of_fmap in Hcp as (r & _ & Hr). apply list_elem_of_In, filter_In in Hr as [Hr Hf].
    apply existsb_elem. exists r. split; [by apply list_elem_of_In|done].
  - intros (g & Hg & Hb). apply andb_prop in Hb as [Hs (r & Hr & Hf)%existsb_elem].
    intros E. apply (not_elem_of_nil (candidate gw g r)). rewrite <-E. unfold candidates.
    apply list_elem_of_join. exists (grant_candidates gw name proto port g). split.
    + unfold grant_candidates. rewrite Hs. apply list_elem_of_fmap. exists r. split; [done|].
      apply list_elem_of_In, filter_In. split; [by apply list_elem_of_In|done].
    + apply list_elem_of_fmap. by exists g.
Qed.

Lemma GatewayFor_cases grants gw name proto port :
  let '(gw', ok) := GatewayFor grants gw name proto port in
  (ok = true -> Authorize grants (Prefixes gw) name proto port = true) /\
  (ok = false -> gw' = GatewayZero) /\
  (Authorize grants (Prefixes gw) name proto port = true ->
   agreeing (candidates gw name proto port grants) -> ok = true).
Proof.
  pose proof (candidates_nonneg gw name proto port grants) as Hf.
  unfold GatewayFor. rewrite gw_grants_pick. fold (gw_init gw).
  pose proof (candidates_nonempty gw name proto port grants) as Hne.
  generalize dependent (candidates gw name proto port grants). intros l Hf Hne.
  destruct (pick_all (gw_init gw) l) as [st|] eqn:E.
  - apply pick_all_init in E as [[-> ->]|[Hm [_ [Hin _]]]]; [| |done].
    + simpl. rewrite <-Hne. split; [done|]. split; [done|]. intros Hn; by destruct Hn.
    + rewrite Hm, <-Hne. split; [intros _ ->; by apply elem_of_nil in Hin|done].
  - rewrite <-Hne. split; [done|]. split; [done|]. intros Hn Ha. exfalso.
    destruct l as [|[c p] l']; [done|].
    inversion Hf; subst. rewrite pick_init in E.
    destruct (pick_all_agreeing l' [(c, p)] gw _ ltac:(done) (pick_best_first gw c p ltac:(done)) Ha).
    congruence.
Qed.

(** C25: Fail closed, and only when there is a reason to: [GatewayFor] never accepts
    a flow [Authorize] rejects, a rejected flow gets the zero gateway, and an
    authorised flow is accepted whenever the matching resources of equal specificity
    agree on their resolver. *)
Theorem GatewayFor_authorized grants gw name proto port :
  let '(gw', ok) := GatewayFor grants gw name proto port in
  (ok = true -> Authorize grants (Prefixes gw) name proto port = true) /\
  (ok = false -> gw' = GatewayZero) /\
  (Authorize grants (Prefixes gw) name proto port = true ->
   agreeing (candidates gw name proto port grants) -> ok = true).
Proof. apply GatewayFor_cases. Qed.

(** The acceptance is not a property of the policy as a set: with the specific
    resolver listed first two disagreeing grant-level resolvers are ignored, with it
    listed last the same three resources are rejected. *)
Theorem GatewayFor_order_dependent :
  let r (u : str) := mkResource "app.example.com" [] u in
  let a := mkGrant "192.0.2.1:53" [r []] lab in
  let b := mkGrant "192.0.2.2:53" [r []] lab in
  let c := mkGrant [] [r "192.0.2.3:53"] lab in
  GatewayFor [c; a; b] lab_gateway "app.example.com" "tcp" 443
    = (mkGateway lab "192.0.2.3:53" false, true) /\
  GatewayFor [a; b; c] lab_gateway "app.example.com" "tcp" 443 = (GatewayZero, false).
Proof. split; by vm_compute. Qed.

(** ** Allocation pools *)

Definition name_match (name : str) (g : Grant) : bool :=
  existsb (fun r => match_ (Domain r) name) (Resources g).

Lemma ranges_resources_spec name g rs ranges :
  Ranges g <> [] ->
  ranges_resources name g rs ranges =
  if existsb (fun r => match_ (Domain r) name) rs
  then (if bool_decide (ranges = [] \/ ranges = Ranges g) then Some (Ranges g) else None)
  else Some ranges.
Proof.
  intros Hn. revert ranges; induction rs as [|r rs IH]; intros ranges; simpl; [done|].
  destruct (match_ (Domain r) name); simpl; [|apply IH].
  destruct (bool_decide (ranges = [])) eqn:E0; bool_simp; simpl.
  - rewrite IH, (bool_decide_eq_true_2 (ranges = [] \/ _)) by auto.
    rewrite (bool_decide_eq_true_2 (Ranges g = [] \/ _)) by auto. by case_match.
  - destruct (samePrefixSlice ranges (Ranges g)) eqn:Es; simpl.
    + apply samePrefixSlice_eq in Es. rewrite IH, !bool_decide_eq_true_2 by auto. by case_match.
    + rewrite bool_decide_eq_false_2; [done|]. intros [?| ->]; [done|].
      by rewrite samePrefixSlice_refl in Es.
Qed.

Lemma ranges_grants_spec name grants acc rs :
  Forall (fun g => Ranges g <> []) grants ->
  ranges_grants name grants acc = Some rs <->
  (acc <> [] -> rs = acc) /\
  (forall g, g ∈ grants -> name_match name g = true -> Ranges g = rs) /\
  (acc = [] -> (forall g, g ∈ grants -> name_match name g = false) -> rs = []).
Proof.
  revert acc; induction grants as [|g grants IH]; intros acc Hf; simpl.
  - split.
    + intros [= ->]. split; [done|]. split; [intros g Hg; by apply elem_of_nil in Hg|done].
    + intros (H1 & _ & H3). f_equal. destruct acc; [|by symmetry; apply H1].
      symmetry. apply H3; [done|]. intros g Hg. by apply elem_of_nil in Hg.
  - inversion Hf; subst. rewrite ranges_resources_spec by done. fold (name_match name g).
    setoid_rewrite elem_of_cons.
    destruct (name_match name g) eqn:Em; [case_bool_decide as Ea|].
    + rewrite IH by done. split.
      * intros (H3 & H4 & _). specialize (H3 H1). subst rs.
        split; [by destruct Ea as [-> | ->]|]. split; [by intros g' [-> | ?]; auto|].
        intros _ Hall. specialize (Hall g ltac:(by left)). congruence.
      * intros (H3 & H4 & _). rewrite (H4 g) by auto. split; [done|].
        split; [intros g' ?; rewrite <-(H4 g ltac:(by left) Em); rewrite (H4 g) by auto; auto|done].
    + split; [done|]. intros (H3 & H4 & _). destruct Ea.
      destruct acc; [by left|]. right. rewrite (H4 g) by auto. symmetry. by apply H3.
    + rewrite IH by done. split; intros (H3 & H4 & H5); split; try done; split.
      * intros g' [-> | ?] ?; [congruence|auto].
      * intros Ha Hall. apply H5; [done|]. auto.
      * auto.
      * intros Ha Hall. apply H5; [done|]. intros g' [-> | ?]; auto.
Qed.

Lemma RangesForName_iff grants name rs :
  Forall (fun g => Ranges g <> []) grants ->
  RangesForName grants name = (rs, true) <->
  (exists g, g ∈ grants /\ name_match name g = true) /\
  (forall g, g ∈ grants -> name_match name g = true -> Ranges g = rs).
Proof.
  intros Hf. unfold RangesForName. destruct (ranges_grants name grants []) as [rs'|] eqn:E.
  - apply ranges_grants_spec in E as (_ & H2 & H3); [|done]. split.
    + intros [= -> Hn]. bool_simp. split; [|done].
      destruct (existsb (name_match name) grants) eqn:Ex; [by apply existsb_elem|].
      rewrite existsb_false_Forall, Forall_forall in Ex. by destruct Hn; apply H3.
    + intros [(g & Hg & Hm) Hall]. rewrite Forall_forall in Hf.
      rewrite <-(Hall g), <-(H2 g) by done. specialize (H2 g Hg Hm). specialize (Hf g Hg).
      rewrite bool_decide_eq_false_2 by congruence. done.
  - split; [done|]. intros [(g & Hg & Hm) Hall].
    assert (ranges_grants name grants [] = Some rs) as E'; [|congruence].
    apply ranges_grants_spec; [done|]. split; [done|]. split; [done|].
    intros _ Hno. rewrite Hno in Hm by done. done.
Qed.

(** C26: A name has an allocation pool exactly when some grant matches it and all
    matching grants carry the same ranges; the pool is then those ranges. *)
Theorem RangesForName_spec grants name rs :
  Forall (fun g => Ranges g <> []) grants ->
  RangesForName grants name = (rs, true) <->
  (exists g, g ∈ grants /\ name_match name g = true) /\
  (forall g, g ∈ grants -> name_match name g = true -> Ranges g = rs).
Proof. apply RangesForName_iff. Qed.

Lemma RangesForName_spec_witness :
  RangesForName lab_grants "grant.example.com" = (lab, true) /\
  (exists g, g ∈ lab_grants /\ name_match "grant.example.com" g = true).
Proof.
  split; [by vm_compute|]. eapply RangesForName_spec; [|by vm_compute].
  repeat constructor; discriminate.
Defined.

Lemma RangesForName_false grants name rs : RangesForName grants name = (rs, false) -> rs = [].
Proof. unfold RangesForName. case_match; [|by intros [= <-]]. intros [= <- Hb]. by bool_simp. Qed.

(** Unlike the resolver choice, the pool choice does not depend on the order in
    which the policy lists its grants. *)
Theorem RangesForName_order grants grants' name :
  Forall (fun g => Ranges g <> []) grants -> grants ≡ₚ grants' ->
  RangesForName grants name = RangesForName grants' name.
Proof.
  intros Hf Hp. assert (Forall (fun g => Ranges g <> []) grants') as Hf' by (by rewrite <-Hp).
  assert (forall rs, RangesForName grants name = (rs, true) <-> RangesForName grants' name = (rs, true)) as Hiff.
  { intros rs. rewrite !RangesForName_iff by done. by setoid_rewrite Hp. }
  destruct (RangesForName grants name) as [rs []] eqn:E; [symmetry; by apply Hiff|].
  destruct (RangesForName grants' name) as [rs' []] eqn:E'; [by apply Hiff|].
  by rewrite (RangesForName_false _ _ _ E), (RangesForName_false _ _ _ E').
Qed.

Lemma RangesForName_order_witness :
  RangesForName lab_grants "grant.example.com" = RangesForName (reverse lab_grants) "grant.example.com".
Proof.
  apply RangesForName_order; [repeat constructor; discriminate|]. symmetry. apply reverse_Permutation.
Defined.

(** ** Pool keys *)

Lemma PrefixString_free c p :
  wf4 p -> is_digit c = false -> c <> "."%char -> c <> "/"%char -> c ∉ PrefixString p.
Proof.
  intros Hp Hd H1 H2. rewrite PrefixString_wf4 by done.
  rewrite not_elem_of_app, not_elem_of_cons. split; [by apply String4_free|]. split; [done|].
  apply Itoa_free; [pose proof (wf4_bits p Hp); lia|done].
Qed.

Lemma rangeKey_free c ps :
  Forall wf4 ps -> is_digit c = false -> c <> "."%char -> c <> "/"%char -> c <> ","%char ->
  c ∉ rangeKey ps.
Proof.
  intros Hf ???? Hin. apply elem_of_Join in Hin as [?|(t & Ht & Hc)]; [done|].
  apply list_elem_of_fmap in Ht as (p & -> & Hp). rewrite Forall_forall in Hf.
  by apply (PrefixString_free c p) in Hc; auto.
Qed.

Lemma rangeKey_no_nul ps : Forall wf4 ps -> byte_of 0 ∉ rangeKey ps.
Proof. intros. by apply rangeKey_free. Qed.

Lemma fmap_inj_on {A B} (f : A -> B) (P : A -> Prop) l1 l2 :
  (forall x y, P x -> P y -> f x = f y -> x = y) -> Forall P l1 -> Forall P l2 ->
  f <$> l1 = f <$> l2 -> l1 = l2.
Proof.
  intros Hinj. revert l2; induction l1 as [|x l1 IH]; intros [|y l2] H1 H2 E; simplify_eq/=; [done|].
  inversion H1; inversion H2; subst. f_equal; [by apply Hinj|by apply IH].
Qed.

Lemma rangeKey_injective ps qs :
  ps <> [] -> qs <> [] -> Forall wf4 ps -> Forall wf4 qs -> rangeKey ps = rangeKey qs -> ps = qs.
Proof.
  intros Hp Hq Fp Fq E. apply join_inj_char in E.
  - by apply (fmap_inj_on PrefixString wf4); [apply PrefixString_inj|..].
  - by intros ?%fmap_nil_inv.
  - by intros ?%fmap_nil_inv.
  - apply Forall_fmap. eapply Forall_impl; [exact Fp|]. intros p Hwf. by apply PrefixString_free.
  - apply Forall_fmap. eapply Forall_impl; [exact Fq|]. intros p Hwf. by apply PrefixString_free.
Qed.

(** The textual pool key identifies the pool: two non-empty lists of canonical
    ranges have the same key only when they are the same list, so the allocator's
    per-gateway counters never mix two pools. *)
Theorem rangeKey_inj ps qs :
  ps <> [] -> qs <> [] -> Forall wf4 ps -> Forall wf4 qs -> rangeKey ps = rangeKey qs -> ps = qs.
Proof. apply rangeKey_injective. Qed.

Lemma lab_wf : Forall wf4 lab.
Proof. by repeat constructor; vm_compute. Qed.

Lemma rangeKey_inj_witness :
  rangeKey lab = lit "10.254.0.0/29" /\ (rangeKey lab = rangeKey lab -> lab = lab).
Proof.
  split; [by vm_compute|]. apply (rangeKey_inj lab lab); try discriminate; apply lab_wf.
Defined.
