(* ===== verification/Alloc.v ===== *)
(** * The in-memory allocator

    [Allocator] of [internal/domain/domain.go] with the file persistence of
    [state.go].  A method holds the mutex for its whole body and is one function
    from the old state to the result and the new state, except [Allocate], which
    reads under the read lock and checks again under the write lock: its two
    critical sections are separate definitions.  An error result is [None]; the
    only error of [Allocate] is "synthetic ranges exhausted". *)

From S2P Require Import Prelude GoStrings NetAddr.

(** ** Times *)

(** [time.Time] as nanoseconds since the Unix epoch; the zero [Time] is January 1
    of year 1. *)
Abbreviation Time := Z.
Definition TimeZero : Time := -62135596800 * 10 ^ 9.
Definition IsZero (t : Time) : bool := t =? TimeZero.
Definition Before (a b : Time) : bool := a <? b.
Definition UnixNano (t : Time) : Z := int64 t.
(** [Time.Sub] saturates at the ends of [Duration]. *)
Definition TSub (a b : Time) : Z := Z.max (- 2 ^ 63) (Z.min (2 ^ 63 - 1) (a - b)).
Definition Hour : Z := 3600 * 10 ^ 9.
Definition Minute : Z := 60 * 10 ^ 9.

(** ** State *)

Record Mapping := mkMapping { m_Gateway : str; m_Domain : str }.

#[export] Instance Mapping_eq_dec : EqDecision Mapping.
Proof. solve_decision. Defined.

Definition MappingZero : Mapping := mkMapping [] [].

Record Allocator := mkAllocator {
  byKey : gmap str Addr;
  byIP : gmap Addr Mapping;
  next : gmap str Addr;
  expires : gmap Addr Time;
}.

Definition NewAllocator : Allocator := mkAllocator ∅ ∅ ∅ ∅.

(** The map key [gateway + "\x00" + name]. *)
Definition akey (gateway name : str) : str := gateway ++ byte_of 0 :: name.
Definition mkey (m : Mapping) : str := akey (m_Gateway m) (m_Domain m).

(** Reading a missing entry of a Go map gives the zero value. *)
Definition next_of (a : Allocator) (gateway : str) : Addr := default AddrZero (next a !! gateway).
Definition expires_of (a : Allocator) (ip : Addr) : Time := default TimeZero (expires a !! ip).

(** ** Allocation *)

(** The index at which the search resumes. *)
Fixpoint find_start (i : nat) (ip : Addr) (prefixes : list Prefix) : nat :=
  match prefixes with
  | [] => 0%nat
  | prefix :: rest =>
      if PContains prefix ip then i
      else if IsValid (Prev ip) && PContains prefix (Prev ip) then S i
      else find_start (S i) ip rest
  end.

Definition first_host (prefix : Prefix) : Addr := Next (p_addr (Masked prefix)).

(** The loop over the prefixes from [start]; [first] marks the pass at [start]. *)
Fixpoint alloc_loop (first : bool) (ip : Addr) (prefixes : list Prefix) : Addr :=
  match prefixes with
  | [] => ip
  | prefix :: rest =>
      let ip1 := if negb first || negb (PContains prefix ip) then first_host prefix else ip in
      if PContains prefix ip1 && negb (bool_decide (ip1 = p_addr (Masked prefix))) then ip1
      else alloc_loop false AddrZero rest
  end.

(** The address [Allocate] picks from the remembered next address. *)
Definition next_ip (ip : Addr) (prefixes : list Prefix) : option Addr :=
  let start := if IsValid ip then find_start 0 ip prefixes else 0%nat in
  match prefixes with
  | [] => None
  | prefix0 :: _ =>
      if (start =? length prefixes)%nat then None else
      let ip' := if IsValid ip then ip else first_host prefix0 in
      let r := alloc_loop true ip' (drop start prefixes) in
      if IsValid r then Some r else None
  end.

(** The read-locked fast path. *)
Definition AllocateRead (a : Allocator) (gateway name : str) : option Addr :=
  byKey a !! akey gateway name.

(** The write-locked section. *)
Definition AllocateLocked (a : Allocator) (gateway : str) (prefixes : list Prefix) (name : str)
  : option Addr * Allocator :=
  match byKey a !! akey gateway name with
  | Some ip => (Some ip, a)
  | None =>
      match next_ip (next_of a gateway) prefixes with
      | None => (None, a)
      | Some ip =>
          (Some ip, mkAllocator (<[akey gateway name := ip]> (byKey a))
                      (<[ip := mkMapping gateway name]> (byIP a))
                      (<[gateway := Next ip]> (next a)) (expires a))
      end
  end.

Definition Allocate (a : Allocator) (gateway : str) (prefixes : list Prefix) (name : str)
  : option Addr * Allocator :=
  match AllocateRead a gateway name with
  | Some ip => (Some ip, a)
  | None => AllocateLocked a gateway prefixes name
  end.

(** ** Lookups *)

Definition Lookup (a : Allocator) (ip : Addr) : Mapping * bool :=
  match byIP a !! ip with
  | Some m => (m, true)
  | None => (MappingZero, false)
  end.

Definition expired (a : Allocator) (ip : Addr) (now : Time) : bool :=
  negb (IsZero (expires_of a ip)) && negb (Before now (expires_of a ip)).

Definition LookupLive (a : Allocator) (ip : Addr) (now : Time) : Mapping * bool * Allocator :=
  match byIP a !! ip with
  | None => (MappingZero, false, a)
  | Some m =>
      if expired a ip now
      then (MappingZero, false,
            mkAllocator (delete (mkey m) (byKey a)) (delete ip (byIP a)) (next a)
              (delete ip (expires a)))
      else (m, true, a)
  end.

Definition LookupKey (a : Allocator) (gateway domain : str) : Addr * bool :=
  match byKey a !! akey gateway domain with
  | Some ip => (ip, true)
  | None => (AddrZero, false)
  end.

Definition LookupKeyLive (a : Allocator) (gateway domain : str) (now : Time) : Addr * bool * Allocator :=
  let '(ip, ok) := LookupKey a gateway domain in
  if negb ok then (AddrZero, false, a)
  else let '(_, ok', a') := LookupLive a ip now in (ip, ok', a').

(** ** Remembering allocations made elsewhere *)

(** [next] only ever moves up. *)
Definition bump_next (a : Allocator) (gateway : str) (ip : Addr) : gmap str Addr :=
  let nxt := Next ip in
  if negb (IsValid (next_of a gateway)) || Less (next_of a gateway) nxt
  then <[gateway := nxt]> (next a) else next a.

Definition RememberUntil (a : Allocator) (gateway domain : str) (ip : Addr) (expiry : Time) : Allocator :=
  match byKey a !! akey gateway domain with
  | Some _ => a
  | None =>
      match byIP a !! ip with
      | Some _ => a
      | None => mkAllocator (<[akey gateway domain := ip]> (byKey a))
                  (<[ip := mkMapping gateway domain]> (byIP a)) (bump_next a gateway ip)
                  (<[ip := expiry]> (expires a))
      end
  end.

Definition Remember (a : Allocator) (gateway domain : str) (ip : Addr) : Allocator :=
  RememberUntil a gateway domain ip TimeZero.

(** ** File persistence *)

Record diskMapping := mkDisk { d_Gateway : str; d_Domain : str; d_IP : str }.

(** One row read back: unlike [RememberUntil] it overwrites. *)
Definition load_row (a : Allocator) (gateway domain : str) (ip : Addr) : Allocator :=
  mkAllocator (<[akey gateway domain := ip]> (byKey a)) (<[ip := mkMapping gateway domain]> (byIP a))
    (bump_next a gateway ip) (expires a).

(** The row loop of [Load]: the rows before a malformed address stay loaded. *)
Fixpoint load_rows (a : Allocator) (rows : list diskMapping) : bool * Allocator :=
  match rows with
  | [] => (true, a)
  | r :: rows' =>
      match ParseAddr (d_IP r) with
      | None => (false, a)
      | Some ip => load_rows (load_row a (d_Gateway r) (d_Domain r) ip) rows'
      end
  end.

(** The rows [Save] writes, in the (unspecified) iteration order of the map. *)
Definition save_rows (a : Allocator) : list diskMapping :=
  (fun x : Addr * Mapping => mkDisk (m_Gateway x.2) (m_Domain x.2) (AddrString x.1))
    <$> map_to_list (byIP a).

(** A run of allocations from one pool. *)
Fixpoint allocate_all (a : Allocator) (gateway : str) (prefixes : list Prefix) (names : list str)
  : list (option Addr) * Allocator :=
  match names with
  | [] => ([], a)
  | n :: names' =>
      let '(r, a1) := Allocate a gateway prefixes n in
      let '(rs, a2) := allocate_all a1 gateway prefixes names' in
      (r :: rs, a2)
  end.
