(* ===== verification/AllocSpec.v ===== *)
(** * The allocator: pools, refinement, invariants, interleavings

    The abstract allocator of a pool is a counter into the list of its host
    addresses; the detailed one, with its next address and its search over the
    prefixes, refines it for range lists that are separated.  For lists that are
    not, concrete runs show addresses skipped or handed out twice. *)

From S2P Require Import Prelude GoStrings NetAddr Alloc.

(** ** Pools *)

(** The addresses a prefix offers: all but its base. *)
Definition pool1 (p : Prefix) : list Z := seqZ (base p + 1) (psize p - 1).
Definition pool (ps : list Prefix) : list Z := mjoin (pool1 <$> ps).

(** Canonical, pairwise disjoint ranges, none of which starts where another ends
    and none of which reaches the end of the address space. *)
Record separated (ps : list Prefix) : Prop := {
  sep_wf : Forall wf4 ps;
  sep_disjoint : forall i j p q, ps !! i = Some p -> ps !! j = Some q -> i <> j -> p_disjoint p q;
  sep_apart : forall p q, p ∈ ps -> q ∈ ps -> pend p <> base q;
  sep_end : forall p, p ∈ ps -> pend p < 2 ^ 32;
}.

Lemma pool_cons p ps : pool (p :: ps) = pool1 p ++ pool ps.
Proof. done. Qed.

Lemma pool_app ps qs : pool (ps ++ qs) = pool ps ++ pool qs.
Proof. unfold pool. by rewrite fmap_app, join_app. Qed.

Lemma pool1_lookup p i x :
  wf4 p -> pool1 p !! i = Some x <-> x = base p + 1 + Z.of_nat i /\ x < pend p.
Proof.
  intros Hp. unfold pool1, pend. rewrite lookup_seqZ. lia.
Qed.

Lemma pool1_length p : wf4 p -> Z.of_nat (length (pool1 p)) = psize p - 1.
Proof.
  intros Hp. unfold pool1. rewrite length_seqZ.
  pose proof (psize_pos p ltac:(apply Hp)). lia.
Qed.

Lemma elem_of_pool1 p x : wf4 p -> x ∈ pool1 p <-> base p < x < pend p.
Proof. intros Hp. unfold pool1, pend. rewrite elem_of_seqZ. lia. Qed.

Lemma elem_of_pool x ps : x ∈ pool ps <-> exists p, p ∈ ps /\ x ∈ pool1 p.
Proof.
  unfold pool. rewrite list_elem_of_join. split.
  - intros (l & Hx & (p & -> & Hp)%list_elem_of_fmap). eauto.
  - intros (p & Hp & Hx). exists (pool1 p). split; [done|]. apply list_elem_of_fmap. eauto.
Qed.

(** An address of the pool sits in one prefix, at a definite distance. *)
Lemma pool_lookup_split ps k x :
  Forall wf4 ps -> pool ps !! k = Some x ->
  exists l p r, ps = l ++ p :: r /\ base p < x < pend p /\
    k = (length (pool l) + Z.to_nat (x - base p - 1))%nat.
Proof.
  revert k; induction ps as [|p ps IH]; intros k Hf Hk; [done|]. inversion Hf; subst.
  rewrite pool_cons in Hk. apply lookup_app_Some in Hk as [Hk|[Hlen Hk]].
  - apply pool1_lookup in Hk as [Ex Hx]; [|done]. exists [], p, ps. repeat split; try done; simpl; lia.
  - destruct (IH _ H2 Hk) as (l & q & r & -> & Hq & Ek). exists (p :: l), q, r.
    rewrite pool_cons, length_app. repeat split; try done; lia.
Qed.

(** Positions before and after a prefix. *)
Lemma separated_middle l p r :
  separated (l ++ p :: r) -> wf4 p /\ (forall q, q ∈ l -> wf4 q /\ p_disjoint p q) /\
  (forall q, q ∈ r -> wf4 q /\ p_disjoint p q).
Proof.
  intros [Hf Hd _ _]. rewrite Forall_app, Forall_cons in Hf. destruct Hf as (Hl & Hp & Hr).
  rewrite Forall_forall in Hl, Hr. split; [done|].
  assert ((l ++ p :: r) !! length l = Some p) as Ep by (by rewrite list_lookup_middle).
  split; intros q Hq; split; auto; apply list_elem_of_lookup in Hq as [i Hi].
  - apply (Hd (length l) i); [done| |apply lookup_lt_Some in Hi; lia].
    by rewrite lookup_app_l by (by eapply lookup_lt_Some).
  - apply (Hd (length l) (length l + S i)%nat); [done| |lia].
    by rewrite lookup_app_r, Nat.add_sub_swap, Nat.sub_diag by lia.
Qed.

(** ** The search *)

Lemma first_host_wf p : wf4 p -> pend p < 2 ^ 32 -> first_host p = Addr4 (base p + 1).
Proof.
  intros Hp He. unfold first_host. rewrite Masked_wf4, wf4_addr by done.
  unfold Next. cbn [Is4 Addr4 addr_kind addr_val].
  pose proof (psize_pos p ltac:(apply Hp)). unfold pend in He.
  destruct (Z.eqb_spec (base p + 1) (2 ^ 32)); [lia|done].
Qed.

Lemma alloc_loop_pool ps :
  Forall wf4 ps -> (forall p, p ∈ ps -> pend p < 2 ^ 32) ->
  alloc_loop false AddrZero ps = default AddrZero (Addr4 <$> head (pool ps)).
Proof.
  induction ps as [|p ps IH]; intros Hf He; [done|]. inversion Hf; subst.
  cbn [alloc_loop negb orb]. rewrite first_host_wf by (try apply He; by try left).
  rewrite IH by (try done; intros; apply He; by right). rewrite pool_cons.
  rewrite Masked_wf4, wf4_addr by done.
  rewrite bool_decide_eq_false_2 by (intros [= ?]; lia). rewrite andb_true_r.
  pose proof (psize_pos p ltac:(apply H1)).
  destruct (PContains p (Addr4 (base p + 1))) eqn:Ec.
  - apply PContains_Addr4 in Ec; [|done]. destruct (pool1 p) as [|x l] eqn:E.
    + pose proof (pool1_length p H1) as Hl. rewrite E in Hl. simpl in Hl. unfold pend in Ec. lia.
    + assert (pool1 p !! 0%nat = Some x) as Hx by (by rewrite E).
      apply pool1_lookup in Hx as [-> _]; [|done]. simpl. f_equal. lia.
  - apply not_true_iff_false in Ec. rewrite PContains_Addr4 in Ec by done.
    destruct (pool1 p) as [|x l] eqn:E; [done|].
    pose proof (pool1_length p H1) as Hl. rewrite E in Hl. simpl in Hl. unfold pend in Ec. lia.
Qed.

(** The pass at [start] behaves like the others when the remembered address is
    outside its prefix. *)
Lemma alloc_loop_fresh p ps ip :
  PContains p ip = false -> alloc_loop true ip (p :: ps) = alloc_loop false AddrZero (p :: ps).
Proof. intros H. cbn [alloc_loop negb orb]. by rewrite H. Qed.

Lemma find_start_skip i ip l ps :
  (forall q, q ∈ l -> PContains q ip = false /\ PContains q (Prev ip) = false) ->
  find_start i ip (l ++ ps) = find_start (i + length l) ip ps.
Proof.
  revert i; induction l as [|q l IH]; intros i H; simpl; [by rewrite Nat.add_0_r|].
  destruct (H q) as [-> ->]; [by left|]. rewrite andb_false_r, IH by (intros; apply H; by right).
  f_equal. lia.
Qed.

Lemma Prev_Addr4 x : 0 <= x -> Prev (Addr4 (x + 1)) = Addr4 x.
Proof.
  intros. unfold Prev. cbn [Addr4 addr_val addr_kind].
  destruct (Z.eqb_spec (x + 1) 0); [lia|]. unfold Addr4. f_equal. lia.
Qed.

(** What the allocator remembers after [k] allocations. *)
Definition cursor (ps : list Prefix) (k : nat) : Addr :=
  match k with
  | O => AddrZero
  | S j => default AddrZero ((fun x => Addr4 (x + 1)) <$> pool ps !! j)
  end.

Lemma alloc_loop_first_host p ps :
  alloc_loop true (first_host p) (p :: ps) = alloc_loop false AddrZero (p :: ps).
Proof. cbn [alloc_loop negb orb]. by destruct (PContains p (first_host p)) eqn:E; simpl; rewrite ?E. Qed.

Lemma final_valid (o : option Z) :
  (if IsValid (default AddrZero (Addr4 <$> o)) then Some (default AddrZero (Addr4 <$> o)) else None)
  = Addr4 <$> o.
Proof. by destruct o. Qed.

Lemma outside_next p q x :
  p_disjoint p q -> wf4 q -> base p < x < pend p -> pend p <> base q ->
  PContains q (Addr4 (x + 1)) = false /\ PContains q (Addr4 x) = false.
Proof.
  intros Hd Hq Hx Hne. pose proof (psize_pos q ltac:(apply Hq)).
  split; apply not_true_iff_false; rewrite (PContains_Addr4 q _ Hq); unfold p_disjoint, pend in *; lia.
Qed.

Lemma pool_after l p r x :
  wf4 p -> base p < x < pend p ->
  pool (l ++ p :: r) !! S (length (pool l) + Z.to_nat (x - base p - 1)) =
  if x + 1 <? pend p then Some (x + 1) else head (pool r).
Proof.
  intros Hp Hx. pose proof (pool1_length p Hp) as Hl. unfold pend in Hx.
  rewrite pool_app, pool_cons, lookup_app_r by lia.
  replace (S (length (pool l) + Z.to_nat (x - base p - 1)) - length (pool l))%nat
    with (S (Z.to_nat (x - base p - 1))) by lia.
  destruct (Z.ltb_spec (x + 1) (pend p)) as [Hlt|Hge]; unfold pend in *.
  - rewrite lookup_app_l by lia. apply pool1_lookup; [done|]. unfold pend. lia.
  - rewrite lookup_app_r by lia.
    replace (S (Z.to_nat (x - base p - 1)) - length (pool1 p))%nat with 0%nat by lia.
    by destruct (pool r).
Qed.

Lemma next_ip_valid ip ps :
  IsValid ip = true -> ps <> [] ->
  next_ip ip ps =
  if (find_start 0 ip ps =? length ps)%nat then None
  else let r := alloc_loop true ip (drop (find_start 0 ip ps) ps) in
       if IsValid r then Some r else None.
Proof. intros Hv Hn. unfold next_ip. rewrite Hv. by destruct ps. Qed.

Section resume.
Context (l : list Prefix) (p : Prefix) (r : list Prefix) (x : Z).
Context (Hs : separated (l ++ p :: r)) (Hx : base p < x < pend p).

Lemma resume_wf : wf4 p.
Proof. exact (proj1 (separated_middle _ _ _ Hs)). Qed.

Lemma resume_outside q :
  q ∈ l \/ q ∈ r -> PContains q (Addr4 (x + 1)) = false /\ PContains q (Addr4 x) = false.
Proof.
  destruct (separated_middle _ _ _ Hs) as (Hp & Hl & Hr). intros Hq.
  assert (pend p <> base q) as Hne.
  { apply (sep_apart _ Hs); apply elem_of_app; rewrite !elem_of_cons; tauto. }
  destruct Hq as [Hq|Hq]; [destruct (Hl q Hq)|destruct (Hr q Hq)]; by apply (outside_next p).
Qed.

(** The search resumes in the prefix of the last address, or in the one after it
    when that address was the last of its prefix. *)
Lemma resume_start :
  find_start 0 (Addr4 (x + 1)) (l ++ p :: r) =
  if x + 1 <? pend p then length l else S (length l).
Proof.
  pose proof resume_wf as Hp. pose proof (wf4_base p Hp).
  rewrite find_start_skip; cycle 1.
  { intros q Hq. rewrite Prev_Addr4 by lia. apply resume_outside. by left. }
  cbn [find_start]. rewrite Prev_Addr4 by lia.
  rewrite (proj2 (PContains_Addr4 p x Hp)) by lia. cbn [IsValid Addr4 addr_kind andb].
  destruct (Z.ltb_spec (x + 1) (pend p)) as [Hlt|Hge].
  - by rewrite (proj2 (PContains_Addr4 p (x + 1) Hp)) by lia.
  - rewrite (proj1 (not_true_iff_false (PContains p (Addr4 (x + 1)))))
      by (rewrite (PContains_Addr4 p _ Hp); lia). done.
Qed.

Lemma resume_inside : x + 1 < pend p -> next_ip (Addr4 (x + 1)) (l ++ p :: r) = Some (Addr4 (x + 1)).
Proof.
  intros Hlt. pose proof resume_wf as Hp. rewrite next_ip_valid by (done || by destruct l).
  rewrite resume_start. destruct (Z.ltb_spec (x + 1) (pend p)); [|lia].
  rewrite length_app. cbn [length]. destruct (Nat.eqb_spec (length l) (length l + S (length r))); [lia|].
  rewrite drop_app_length. cbn [alloc_loop].
  rewrite (proj2 (PContains_Addr4 p (x + 1) Hp)) by lia. cbn [negb orb].
  rewrite (proj2 (PContains_Addr4 p (x + 1) Hp)) by lia. rewrite Masked_wf4, wf4_addr by done.
  by rewrite bool_decide_eq_false_2 by (intros [= ?]; lia).
Qed.

Lemma resume_boundary :
  x + 1 = pend p -> next_ip (Addr4 (x + 1)) (l ++ p :: r) = Addr4 <$> head (pool r).
Proof.
  intros Heq. pose proof resume_outside as Hout. rewrite next_ip_valid by (done || by destruct l).
  rewrite resume_start. destruct (Z.ltb_spec (x + 1) (pend p)); [lia|].
  rewrite length_app. cbn [length]. destruct r as [|q r'].
  { cbn [length]. destruct (Nat.eqb_spec (S (length l)) (length l + 1)); [done|lia]. }
  destruct (Nat.eqb_spec (S (length l)) (length l + S (length (q :: r')))) as [E|_];
    [cbn [length] in E; lia|].
  rewrite cons_middle, (assoc_L (++)), drop_app_length' by (rewrite length_app; simpl; lia).
  cbv zeta. rewrite alloc_loop_fresh by (apply Hout; right; by left).
  rewrite alloc_loop_pool; [apply final_valid| |].
  - pose proof (sep_wf _ Hs) as Hf. rewrite Forall_app, Forall_cons in Hf. tauto.
  - intros q' Hq'. apply (sep_end _ Hs), elem_of_app. right. by right.
Qed.
End resume.

(** The search from the remembered address of the [k]-th allocation finds the
    [k]-th address of the pool, and fails exactly when there is none. *)
Lemma next_ip_pool ps k :
  separated ps -> (k <= length (pool ps))%nat -> next_ip (cursor ps k) ps = Addr4 <$> pool ps !! k.
Proof.
  intros Hs Hk. destruct k as [|j].
  - destruct ps as [|p0 ps0]; [done|]. unfold next_ip. cbn [cursor IsValid AddrZero addr_kind].
    cbn [length Nat.eqb]. rewrite drop_0, alloc_loop_first_host.
    rewrite alloc_loop_pool by apply Hs. rewrite final_valid. by destruct (pool _).
  - destruct (lookup_lt_is_Some_2 (pool ps) j ltac:(lia)) as [x Hx].
    unfold cursor. rewrite Hx. cbn [fmap option_fmap option_map default].
    apply pool_lookup_split in Hx as (l & p & r & -> & Hxp & ->); [|apply Hs].
    rewrite pool_after; [|by apply (resume_wf l p r)|done].
    destruct (Z.ltb_spec (x + 1) (pend p)) as [Hlt|Hge].
    + by apply resume_inside.
    + apply resume_boundary; [done..|lia].
Qed.

(** ** The specification: names in order of arrival *)

(** What the allocator promises: each pool keeps the names it has admitted in
    order, and the [i]-th name owns the [i]-th address of the pool. *)
Abbreviation book := (gmap str (list str)).

Definition names_of (s : book) (g : str) : list str := default [] (s !! g).

Definition spec_allocate (s : book) (g : str) (ps : list Prefix) (n : str) : option Addr * book :=
  match list_find (eq n) (names_of s g) with
  | Some (i, _) => (Addr4 <$> pool ps !! i, s)
  | None =>
      match pool ps !! length (names_of s g) with
      | None => (None, s)
      | Some v => (Some (Addr4 v), <[g := names_of s g ++ [n]]> s)
      end
  end.

(** A family of pools that can be served side by side. *)
Record pools_ok (G : gmap str (list Prefix)) : Prop := {
  po_sep : forall g ps, G !! g = Some ps -> separated ps;
  po_key : forall g ps, G !! g = Some ps -> byte_of 0 ∉ g;
  po_apart : forall g h ps qs x, G !! g = Some ps -> G !! h = Some qs -> g <> h ->
    x ∈ pool ps -> x ∈ pool qs -> False;
}.

Lemma akey_inj g n h m :
  byte_of 0 ∉ g -> byte_of 0 ∉ h -> akey g n = akey h m -> g = h /\ n = m.
Proof.
  unfold akey. revert h; induction g as [|c g IH]; intros h Hg Hh E; destruct h as [|d h]; injection E.
  - by intros ->.
  - intros _ E1. destruct Hh. apply elem_of_cons. left. exact E1.
  - intros _ E1. destruct Hg. apply elem_of_cons. left. exact (eq_sym E1).
  - apply not_elem_of_cons in Hg as [_ Hg], Hh as [_ Hh].
    intros E' ->. destruct (IH h Hg Hh E') as [-> ->]. done.
Qed.

Lemma pool_nodup ps : separated ps -> NoDup (pool ps).
Proof.
  induction ps as [|p ps IH]; intros Hs; [constructor|]. rewrite pool_cons.
  destruct (separated_middle [] p ps Hs) as (Hp & _ & Hr).
  apply NoDup_app. split; [apply NoDup_seqZ|]. split.
  - intros x Hx (q & Hq & Hxq)%elem_of_pool. destruct (Hr q Hq) as [Hwq Hd].
    apply elem_of_pool1 in Hx, Hxq; [|done..]. unfold p_disjoint in Hd. lia.
  - apply IH. destruct Hs as [H1 H2 H3 H4]. split.
    + by inversion H1.
    + intros i j a b Ha Hb Hne. apply (H2 (S i) (S j)); [done..|lia].
    + intros a b Ha Hb. apply H3; by right.
    + intros a Ha. apply H4. by right.
Qed.

Lemma pool_Next ps v : separated ps -> v ∈ pool ps -> Next (Addr4 v) = Addr4 (v + 1).
Proof.
  intros Hs (p & Hp & Hx)%elem_of_pool. pose proof (sep_end _ Hs p Hp).
  pose proof (sep_wf _ Hs) as Hw. rewrite Forall_forall in Hw.
  apply elem_of_pool1 in Hx; [|auto]. unfold Next. cbn [Is4 Addr4 addr_kind addr_val].
  destruct (Z.eqb_spec (v + 1) (2 ^ 32)); [lia|done].
Qed.

Section refinement.
Context (G : gmap str (list Prefix)) (HG : pools_ok G).

Definition assigned (s : book) (g n : str) (v : Z) : Prop :=
  exists ps i, G !! g = Some ps /\ names_of s g !! i = Some n /\ pool ps !! i = Some v.

(** The allocator state that represents a book. *)
Record represents (s : book) (a : Allocator) : Prop := {
  rep_key : forall k ip, byKey a !! k = Some ip <->
    exists g n v, k = akey g n /\ ip = Addr4 v /\ assigned s g n v;
  rep_ip : forall ip m, byIP a !! ip = Some m <->
    exists v, ip = Addr4 v /\ assigned s (m_Gateway m) (m_Domain m) v;
  rep_next : forall g ps, G !! g = Some ps ->
    next_of a g = cursor ps (length (names_of s g)) /\
    (length (names_of s g) <= length (pool ps))%nat;
  rep_nodup : forall g, NoDup (names_of s g);
  rep_expires : expires a = ∅;
}.

Lemma represents_new : represents ∅ NewAllocator.
Proof.
  assert (forall g n v, ~ assigned ∅ g n v) as Hno.
  { intros g n v (ps & i & _ & Hn & _). unfold names_of in Hn. by rewrite lookup_empty in Hn. }
  split; simpl.
  - intros k ip. rewrite lookup_empty. split; [done|]. intros (g & n & v & _ & _ & H). by apply Hno in H.
  - intros ip m. rewrite lookup_empty. split; [done|]. intros (v & _ & H). by apply Hno in H.
  - intros g ps _. unfold names_of, next_of. rewrite !lookup_empty. simpl. split; [done|lia].
  - intros g. unfold names_of. rewrite lookup_empty. constructor.
  - done.
Qed.

Lemma assigned_gateway s g n v : assigned s g n v -> byte_of 0 ∉ g.
Proof. intros (ps & i & Hg & _). by apply (po_key G HG g ps). Qed.

Lemma rep_key_spec s a g ps n ip :
  represents s a -> G !! g = Some ps ->
  byKey a !! akey g n = Some ip <->
  exists i v, names_of s g !! i = Some n /\ pool ps !! i = Some v /\ ip = Addr4 v.
Proof.
  intros Hr Hg. rewrite (rep_key s a Hr). split.
  - intros (g' & n' & v & E & -> & Ha). apply akey_inj in E as [<- <-].
    + destruct Ha as (ps' & i & Hg' & Hn & Hv). simplify_eq. eauto.
    + by apply (po_key G HG g ps).
    + by eapply assigned_gateway.
  - intros (i & v & Hn & Hv & ->). exists g, n, v. split; [done|]. split; [done|].
    by exists ps, i.
Qed.

Lemma rep_miss s a g ps n :
  represents s a -> G !! g = Some ps -> byKey a !! akey g n = None -> n ∉ names_of s g.
Proof.
  intros Hr Hg Hm [i Hi]%list_elem_of_lookup.
  destruct (rep_next s a Hr g ps Hg) as [_ Hle].
  destruct (lookup_lt_is_Some_2 (pool ps) i) as [v Hv]; [apply lookup_lt_Some in Hi; lia|].
  assert (byKey a !! akey g n = Some (Addr4 v)); [|congruence].
  apply (rep_key_spec s a g ps n); eauto.
Qed.

(** Admitting a name at the end of its pool adds one assignment. *)
Lemma assigned_admit s g ps n v g' n' v' :
  G !! g = Some ps -> pool ps !! length (names_of s g) = Some v ->
  assigned (<[g := names_of s g ++ [n]]> s) g' n' v' <->
  (g' = g /\ n' = n /\ v' = v) \/ assigned s g' n' v'.
Proof.
  intros Hg Hv. unfold assigned, names_of. destruct (decide (g' = g)) as [->|Hne].
  - rewrite lookup_insert_eq. simpl. split.
    + intros (ps' & i & Hg' & Hn & Hp). simplify_eq.
      apply lookup_snoc_Some in Hn as [[_ Hn]|[-> <-]]; [right; eauto 10|].
      left. unfold names_of in Hv. by simplify_eq.
    + intros [(_ & -> & ->)|(ps' & i & Hg' & Hn & Hp)].
      * exists ps, (length (names_of s g)). split; [done|]. split; [|done].
        apply lookup_snoc_Some. right. done.
      * exists ps', i. split; [done|]. split; [|done]. by apply lookup_app_l_Some.
  - rewrite lookup_insert_ne by done. tauto.
Qed.

(** The address the search finds is owned by nobody. *)
Lemma assigned_fresh s a g ps v g' n' :
  represents s a -> G !! g = Some ps -> pool ps !! length (names_of s g) = Some v ->
  ~ assigned s g' n' v.
Proof.
  intros Hr Hg Hv (ps' & i & Hg' & Hn & Hp). destruct (decide (g' = g)) as [->|Hne].
  - simplify_eq. assert (i = length (names_of s g)) as ->.
    { apply (NoDup_lookup (pool ps) _ _ v); [|done..]. by apply pool_nodup, (po_sep G HG g). }
    apply lookup_lt_Some in Hn. lia.
  - apply (po_apart G HG g' g ps' ps v); try done; by eapply list_elem_of_lookup_2.
Qed.

Lemma admit_represents s a g ps n v :
  represents s a -> G !! g = Some ps -> byKey a !! akey g n = None ->
  pool ps !! length (names_of s g) = Some v ->
  represents (<[g := names_of s g ++ [n]]> s)
    (mkAllocator (<[akey g n := Addr4 v]> (byKey a)) (<[Addr4 v := mkMapping g n]> (byIP a))
       (<[g := Next (Addr4 v)]> (next a)) (expires a)).
Proof.
  intros Hr Hg Hm Hv. pose proof (fun g' n' v' => assigned_admit s g ps n v g' n' v' Hg Hv) as Hadm.
  split; simpl.
  - intros k ip. setoid_rewrite Hadm. rewrite lookup_insert_Some, (rep_key s a Hr). split.
    + intros [[<- <-]|(_ & g' & n' & v' & -> & -> & Ha)]; eauto 10.
    + intros (g' & n' & v' & -> & -> & [(-> & -> & ->)|Ha]); [by left|]. right. split; [|eauto 10].
      intros E. rewrite E in Hm. apply eq_None_not_Some in Hm. apply Hm.
      exists (Addr4 v'). apply (rep_key s a Hr). eauto 10.
  - intros ip m. setoid_rewrite Hadm. rewrite lookup_insert_Some, (rep_ip s a Hr). split.
    + intros [[<- <-]|(_ & v' & -> & Ha)]; simpl; eauto 10.
    + intros (v' & -> & [(E1 & E2 & ->)|Ha]).
      * left. destruct m. simpl in *. by subst.
      * right. split; [|eauto]. intros [= ->]. by apply (assigned_fresh s a g ps v' _ _ Hr Hg Hv Ha).
  - intros h qs Hh. unfold next_of, names_of. simpl. destruct (decide (h = g)) as [->|Hne].
    + rewrite !lookup_insert_eq. simpl. simplify_eq. rewrite length_app, Nat.add_1_r. simpl.
      fold (names_of s g). rewrite Hv. simpl. pose proof (lookup_lt_Some _ _ _ Hv).
      split; [|lia]. apply (pool_Next ps); [by apply (po_sep G HG g)|by eapply list_elem_of_lookup_2].
    + rewrite !lookup_insert_ne by done. by apply (rep_next s a Hr).
  - intros h. unfold names_of. destruct (decide (h = g)) as [->|Hne].
    + rewrite lookup_insert_eq. simpl. fold (names_of s g). apply NoDup_app.
      split; [apply (rep_nodup s a Hr)|]. split; [|apply NoDup_singleton].
      intros x Hx ->%list_elem_of_singleton. by apply (rep_miss s a g ps n Hr Hg Hm).
    + rewrite lookup_insert_ne by done. apply (rep_nodup s a Hr).
  - apply (rep_expires s a Hr).
Qed.

Lemma list_find_name (l : list str) i n :
  NoDup l -> l !! i = Some n -> list_find (eq n) l = Some (i, n).
Proof.
  intros Hn Hi. apply list_find_Some. split; [done|]. split; [done|].
  intros j y Hj Hlt <-. assert (j = i) by (by eapply NoDup_lookup). lia.
Qed.

Lemma locked_refines s a g ps n :
  represents s a -> G !! g = Some ps ->
  (AllocateLocked a g ps n).1 = (spec_allocate s g ps n).1 /\
  represents (spec_allocate s g ps n).2 (AllocateLocked a g ps n).2.
Proof.
  intros Hr Hg. unfold AllocateLocked, spec_allocate.
  destruct (byKey a !! akey g n) as [ip|] eqn:Ek.
  - apply (rep_key_spec s a g ps n ip Hr Hg) in Ek as (i & v & Hn & Hv & ->).
    rewrite (list_find_name _ i n) by (done || apply (rep_nodup s a Hr)). rewrite Hv. done.
  - pose proof (rep_miss s a g ps n Hr Hg Ek) as Hni.
    assert (list_find (eq n) (names_of s g) = None) as ->.
    { apply list_find_None, Forall_forall. intros x Hx <-. done. }
    destruct (rep_next s a Hr g ps Hg) as [-> Hle].
    rewrite next_ip_pool by (done || by apply (po_sep G HG g ps)).
    destruct (pool ps !! length (names_of s g)) as [v|] eqn:Hv; simpl; [|done].
    split; [done|]. by apply (admit_represents s a g ps).
Qed.
End refinement.

(** The second check under the write lock makes the read-locked fast path an
    optimisation only. *)
Lemma Allocate_locked a g ps n : Allocate a g ps n = AllocateLocked a g ps n.
Proof. unfold Allocate, AllocateRead, AllocateLocked. by destruct (byKey a !! akey g n). Qed.

(** C14: Refinement: over any family of separated, mutually disjoint pools, the
    allocator with its maps, its next addresses and its search over the prefixes
    returns what the book of names returns and keeps representing it. *)
Theorem Allocate_refines G s a g ps n :
  pools_ok G -> represents G s a -> G !! g = Some ps ->
  let '(r, a') := Allocate a g ps n in
  let '(r', s') := spec_allocate s g ps n in
  r = r' /\ represents G s' a'.
Proof.
  intros HG Hr Hg. rewrite Allocate_locked.
  pose proof (locked_refines G HG s a g ps n Hr Hg) as H.
  by destruct (AllocateLocked a g ps n), (spec_allocate s g ps n).
Qed.

(** Two prefixes of four addresses, apart from each other. *)
Definition pair_ranges : list Prefix :=
  [mkPrefix (AddrFrom4 10 254 0 0) 30; mkPrefix (AddrFrom4 10 254 1 0) 30].

Lemma pair_separated : separated pair_ranges.
Proof.
  split.
  - by repeat constructor; vm_compute.
  - intros [|[|i]] [|[|j]] p q Hp Hq Hne; simplify_eq/=; try done;
      unfold p_disjoint; [left|right]; by vm_compute.
  - unfold pair_ranges. intros p q. rewrite !elem_of_cons, !elem_of_nil.
    intros [-> |[-> |[]]] [-> |[-> |[]]]; by vm_compute.
  - unfold pair_ranges. intros p. rewrite !elem_of_cons, !elem_of_nil.
    intros [-> |[-> |[]]]; by vm_compute.
Qed.

Definition pair_family : gmap str (list Prefix) := {[ lit "pair" := pair_ranges ]}.

Lemma pair_pools_ok : pools_ok pair_family.
Proof.
  unfold pair_family. split.
  - intros g ps [<- <-]%lookup_singleton_Some. apply pair_separated.
  - intros g ps [<- <-]%lookup_singleton_Some. by apply has_byte_false.
  - intros g h ps qs x [<- <-]%lookup_singleton_Some [<- <-]%lookup_singleton_Some Hne. done.
Qed.

Lemma Allocate_refines_witness :
  (Allocate NewAllocator "pair" pair_ranges "one.example.com").1 = Some (AddrFrom4 10 254 0 1) /\
  represents pair_family (spec_allocate ∅ "pair" pair_ranges "one.example.com").2
    (Allocate NewAllocator "pair" pair_ranges "one.example.com").2.
Proof.
  pose proof (Allocate_refines pair_family ∅ NewAllocator "pair" pair_ranges "one.example.com"
    pair_pools_ok (represents_new pair_family) ltac:(by vm_compute)) as H.
  destruct (Allocate NewAllocator "pair" pair_ranges "one.example.com") as [r a'] eqn:E.
  destruct (spec_allocate ∅ "pair" pair_ranges "one.example.com") as [r' s'] eqn:E'.
  destruct H as [-> H]. split; [|exact H].
  change r' with (r', s').1. rewrite <-E'. by vm_compute.
Defined.

(** ** Interleavings *)

(** Requests from many goroutines: a request either returns from the read-locked
    section, or misses there and waits for the write lock, which requests take in
    any order; lookups of live mappings run in between. *)
Record cstate := mkC {
  c_alloc : Allocator;
  c_waiting : list (str * str);
  c_log : list (str * str * option Addr);
}.

Inductive cstep (G : gmap str (list Prefix)) : cstate -> cstate -> Prop :=
| step_hit a w log g n ip :
    is_Some (G !! g) -> AllocateRead a g n = Some ip ->
    cstep G (mkC a w log) (mkC a w ((g, n, Some ip) :: log))
| step_miss a w log g n :
    AllocateRead a g n = None -> cstep G (mkC a w log) (mkC a ((g, n) :: w) log)
| step_locked a w1 w2 log g n ps r a' :
    G !! g = Some ps -> AllocateLocked a g ps n = (r, a') ->
    cstep G (mkC a (w1 ++ (g, n) :: w2) log) (mkC a' (w1 ++ w2) ((g, n, r) :: log))
| step_lookup a w log ip now m ok a' :
    LookupLive a ip now = (m, ok, a') -> cstep G (mkC a w log) (mkC a' w log).

Definition c_init : cstate := mkC NewAllocator [] [].

(** Everything answered is still what the allocator holds. *)
Definition c_inv (G : gmap str (list Prefix)) (c : cstate) : Prop :=
  (exists s, represents G s (c_alloc c)) /\
  (forall g n ip, (g, n, Some ip) ∈ c_log c ->
     is_Some (G !! g) /\ byKey (c_alloc c) !! akey g n = Some ip).

Lemma AllocateLocked_extends a g ps n k ip :
  byKey a !! k = Some ip -> byKey (AllocateLocked a g ps n).2 !! k = Some ip.
Proof.
  unfold AllocateLocked. destruct (byKey a !! akey g n) eqn:E; [done|].
  destruct (next_ip _ _); [|done]. simpl. intros Hk. rewrite lookup_insert_ne; [done|]. congruence.
Qed.

Lemma AllocateLocked_result a g ps n ip :
  (AllocateLocked a g ps n).1 = Some ip -> byKey (AllocateLocked a g ps n).2 !! akey g n = Some ip.
Proof.
  unfold AllocateLocked. destruct (byKey a !! akey g n) eqn:E; simpl; [congruence|].
  destruct (next_ip _ _); simpl; [|done]. intros [= ->]. apply lookup_insert_eq.
Qed.

Lemma LookupLive_no_expiry a ip now : expires a = ∅ -> (LookupLive a ip now).2 = a.
Proof.
  intros He. unfold LookupLive. destruct (byIP a !! ip); [|done].
  assert (expired a ip now = false) as ->; [|done].
  unfold expired, expires_of. by rewrite He, lookup_empty.
Qed.

Lemma cstep_inv G c c' : pools_ok G -> c_inv G c -> cstep G c c' -> c_inv G c'.
Proof.
  intros HG [[s Hr] Hlog] Hst. destruct Hst as [a w log g n ip Hg Hrd|a w log g n Hrd|
    a w1 w2 log g n ps r a' Hg Hl|a w log ip now m ok a' Hl]; simpl in *.
  - split; [by exists s|]. intros g' n' ip' [[= -> -> ->]|Hin]%elem_of_cons; [done|by apply Hlog].
  - split; [by exists s|done].
  - pose proof (locked_refines G HG s a g ps n Hr Hg) as [_ Hr']. rewrite Hl in Hr'.
    split; [eexists; exact Hr'|]. intros g' n' ip' [[= -> -> <-]|Hin]%elem_of_cons.
    + split; [by eexists|]. pose proof (AllocateLocked_result a g ps n ip') as Hres.
      rewrite Hl in Hres. by apply Hres.
    + destruct (Hlog _ _ _ Hin) as [? Hk]. split; [done|].
      apply (AllocateLocked_extends a g ps n) in Hk. by rewrite Hl in Hk.
  - pose proof (LookupLive_no_expiry a ip now (rep_expires _ _ _ Hr)) as E. rewrite Hl in E.
    simpl in E. subst a'. split; [by exists s|done].
Qed.

(** Whatever the interleaving of requests, re-checks and lookups: two answers
    for one name are the same address, two answers for different names are different
    addresses, and every answer is a host address of the pool that was asked. *)
Theorem concurrent_allocations_agree G c g n ip g' n' ip' :
  pools_ok G -> rtc (cstep G) c_init c ->
  (g, n, Some ip) ∈ c_log c -> (g', n', Some ip') ∈ c_log c ->
  (ip = ip' <-> (g, n) = (g', n')) /\
  exists ps v, G !! g = Some ps /\ ip = Addr4 v /\ v ∈ pool ps.
Proof.
  intros HG Hsteps. assert (c_inv G c) as [[s Hr] Hlog].
  { revert Hsteps. apply (rtc_ind_r (c_inv G)).
    - split; [exists ∅; apply represents_new|]. intros ???. simpl. by intros ?%elem_of_nil.
    - intros y z _ Hst Hi. by apply (cstep_inv G y z). }
  intros [[ps Hg] Hk]%Hlog [[ps' Hg'] Hk']%Hlog.
  pose proof Hk as Hk2. apply (rep_key_spec G HG s _ g ps n ip Hr Hg) in Hk2 as (i & v & Hn & Hv & ->).
  split; [|exists ps, v; split; [done|]; split; [done|]; by eapply list_elem_of_lookup_2].
  split; [|intros [= <- <-]; congruence]. intros <-.
  apply (rep_key_spec G HG s _ g' ps' n' _ Hr Hg') in Hk' as (i' & v' & Hn' & Hv' & [= <-]).
  assert (byIP (c_alloc c) !! Addr4 v = Some (mkMapping g n)) as E1
    by (apply (rep_ip G s _ Hr); exists v; split; [done|]; by exists ps, i).
  assert (byIP (c_alloc c) !! Addr4 v = Some (mkMapping g' n')) as E2
    by (apply (rep_ip G s _ Hr); exists v; split; [done|]; by exists ps', i').
  congruence.
Qed.

(** Two goroutines miss on the same name before either takes the write lock. *)
Definition race_end : cstate :=
  let a1 := (AllocateLocked NewAllocator "pair" pair_ranges "one.example.com").2 in
  mkC (AllocateLocked a1 "pair" pair_ranges "one.example.com").2 []
    [(lit "pair", lit "one.example.com", Some (AddrFrom4 10 254 0 1));
     (lit "pair", lit "one.example.com", Some (AddrFrom4 10 254 0 1))].

Lemma step_locked_pair a w n log :
  cstep pair_family (mkC a ((lit "pair", n) :: w) log)
    (mkC (AllocateLocked a "pair" pair_ranges n).2 w
       ((lit "pair", n, (AllocateLocked a "pair" pair_ranges n).1) :: log)).
Proof.
  apply (step_locked _ _ [] _ _ _ _ pair_ranges); [by vm_compute|].
  by destruct (AllocateLocked _ _ _ _).
Qed.

Lemma race_reachable : rtc (cstep pair_family) c_init race_end.
Proof.
  eapply rtc_l; [by apply (step_miss _ _ _ _ "pair" "one.example.com")|].
  eapply rtc_l; [by apply (step_miss _ _ _ _ "pair" "one.example.com")|].
  eapply rtc_l; [apply step_locked_pair|]. eapply rtc_l; [apply step_locked_pair|].
  unfold race_end. match goal with |- rtc _ ?x ?y => replace x with y; [apply rtc_refl|] end.
  do 3 f_equal; by vm_compute.
Qed.

Lemma concurrent_allocations_agree_witness :
  (AddrFrom4 10 254 0 1 = AddrFrom4 10 254 0 1 <->
   (lit "pair", lit "one.example.com") = (lit "pair", lit "one.example.com")) /\
  exists ps v, pair_family !! lit "pair" = Some ps /\ AddrFrom4 10 254 0 1 = Addr4 v /\ v ∈ pool ps.
Proof.
  apply (concurrent_allocations_agree pair_family race_end); [apply pair_pools_ok|apply race_reachable| |].
  - by left.
  - right. by left.
Defined.

(** ** Runs over one pool *)

Lemma allocate_all_from g ps names s a :
  byte_of 0 ∉ g -> separated ps -> represents {[ g := ps ]} s a ->
  NoDup (names_of s g ++ names) ->
  (allocate_all a g ps names).1 =
  imap (fun i _ => Addr4 <$> pool ps !! (length (names_of s g) + i)%nat) names.
Proof.
  intros Hnul Hs. assert (pools_ok {[ g := ps ]}) as HG.
  { split.
    - by intros h qs [<- <-]%lookup_singleton_Some.
    - by intros h qs [<- <-]%lookup_singleton_Some.
    - intros h h' qs qs' x [<- <-]%lookup_singleton_Some [<- <-]%lookup_singleton_Some Hne. done. }
  revert s a; induction names as [|n names IH]; intros s a Hr Hn; [done|].
  pose proof (locked_refines _ HG s a g ps n Hr (lookup_singleton_eq g ps)) as [Hres Hr'].
  cbn [allocate_all]. rewrite Allocate_locked.
  destruct (AllocateLocked a g ps n) as [r a1]. simpl in Hres, Hr'. subst r.
  specialize (IH (spec_allocate s g ps n).2 a1 Hr').
  destruct (allocate_all a1 g ps names) as [rs a2]. simpl in *.
  unfold spec_allocate in *.
  assert (list_find (eq n) (names_of s g) = None) as E.
  { apply list_find_None, Forall_forall. intros x Hx <-. apply NoDup_app in Hn as (_ & Hd & _).
    apply (Hd n Hx). by left. }
  rewrite E in *. rewrite Nat.add_0_r.
  destruct (pool ps !! length (names_of s g)) as [v|] eqn:Hv; simpl in *.
  - f_equal. rewrite IH.
    + apply imap_ext. intros i x Hx. unfold names_of. rewrite lookup_insert_eq. simpl.
      fold (names_of s g). rewrite length_app. simpl. do 2 f_equal. lia.
    + unfold names_of. rewrite lookup_insert_eq. simpl. fold (names_of s g).
      by rewrite <-(assoc_L (++)).
  - f_equal. rewrite IH.
    + apply imap_ext. intros i x Hx. apply lookup_ge_None in Hv.
      simpl. rewrite (lookup_ge_None_2 _ (length (names_of s g) + i)) by lia.
      by rewrite (lookup_ge_None_2 _ (length (names_of s g) + S i)) by lia.
    + apply NoDup_app in Hn as (Hn1 & Hd & Hn2%NoDup_cons). apply NoDup_app.
      split; [done|]. split; [|tauto]. intros x Hx Hx'. apply (Hd x Hx). by right.
Qed.

(** C37: Starting empty, distinct names receive the host addresses of a separated
    range list in order, prefix after prefix, and once every address is out each
    further name is refused: no address is skipped and none is reused. *)
Theorem allocate_all_pool g ps names :
  byte_of 0 ∉ g -> separated ps -> NoDup names ->
  (allocate_all NewAllocator g ps names).1 = imap (fun i _ => Addr4 <$> pool ps !! i) names.
Proof.
  intros Hg Hs Hn. rewrite (allocate_all_from g ps names ∅); [done|done|done| |].
  - apply represents_new.
  - unfold names_of. by rewrite lookup_empty.
Qed.

Lemma allocate_all_pool_witness :
  (allocate_all NewAllocator "pair" pair_ranges
     [lit "one"; lit "two"; lit "three"; lit "four"; lit "five"; lit "six"; lit "seven"]).1
  = [Some (AddrFrom4 10 254 0 1); Some (AddrFrom4 10 254 0 2); Some (AddrFrom4 10 254 0 3);
     Some (AddrFrom4 10 254 1 1); Some (AddrFrom4 10 254 1 2); Some (AddrFrom4 10 254 1 3); None].
Proof.
  rewrite (allocate_all_pool "pair" pair_ranges); [by vm_compute| | |].
  - by apply has_byte_false.
  - apply pair_separated.
  - apply (bool_decide_unpack _). by vm_compute.
Defined.


(** Two pools that share a prefix hand out one address twice, and the reverse
    mapping of the first is lost. *)
Example shared_prefix_pools :
  let p := mkPrefix (AddrFrom4 10 254 0 0) 30 in
  let q := mkPrefix (AddrFrom4 10 254 9 0) 30 in
  let a1 := (Allocate NewAllocator "p" [p] "a.example.com").2 in
  let '(r, a2) := Allocate a1 "p,q" [p; q] "b.example.com" in
  r = (Allocate NewAllocator "p" [p] "a.example.com").1 /\
  Lookup a2 (AddrFrom4 10 254 0 1) = (mkMapping "p,q" "b.example.com", true) /\
  LookupKey a2 "p" "a.example.com" = (AddrFrom4 10 254 0 1, true).
Proof. repeat split; by vm_compute. Qed.
