(* ===== verification/AllocCache.v ===== *)
(** * The allocator as a cache: expiry, remembered mappings, persistence

    When a SQL store is the allocation authority the [Allocator] is an
    expiry-bounded cache of it.  This file has the invariant that its two maps
    mirror each other, the meaning of a live lookup, what [RememberUntil] may
    change, and the round trip through the state file. *)

From S2P Require Import Prelude GoStrings NetAddr Alloc.

(** The forward and the reverse map hold the same pairs. *)
Record linked (a : Allocator) : Prop := {
  linked_ip : forall ip m, byIP a !! ip = Some m -> byKey a !! mkey m = Some ip;
  linked_key : forall k ip, byKey a !! k = Some ip -> exists m, byIP a !! ip = Some m /\ k = mkey m;
}.

Lemma linked_new : linked NewAllocator.
Proof. split; simpl; intros ??; rewrite lookup_empty; done. Qed.

Lemma linked_unique a ip ip' m m' :
  linked a -> byIP a !! ip = Some m -> byIP a !! ip' = Some m' -> mkey m = mkey m' -> ip = ip'.
Proof. intros Hl H1%(linked_ip a Hl) H2%(linked_ip a Hl) E. rewrite E in H1. congruence. Qed.

Lemma linked_insert a g n ip nx ex :
  linked a -> byKey a !! akey g n = None -> byIP a !! ip = None ->
  linked (mkAllocator (<[akey g n := ip]> (byKey a)) (<[ip := mkMapping g n]> (byIP a)) nx ex).
Proof.
  intros [H1 H2] Hk Hi. split; simpl.
  - intros ip' m. rewrite lookup_insert_Some. intros [[<- <-]|[Hne Hm]]; [apply lookup_insert_eq|].
    apply H1 in Hm as Hm'. rewrite lookup_insert_ne; [done|]. intros E. rewrite E in Hk. congruence.
  - intros k ip'. rewrite lookup_insert_Some. intros [[<- <-]|[Hne Hm]].
    + exists (mkMapping g n). split; [apply lookup_insert_eq|done].
    + destruct (H2 _ _ Hm) as (m & Hm' & ->). exists m. split; [|done].
      rewrite lookup_insert_ne; [done|]. congruence.
Qed.

Lemma linked_delete a ip m nx ex :
  linked a -> byIP a !! ip = Some m ->
  linked (mkAllocator (delete (mkey m) (byKey a)) (delete ip (byIP a)) nx ex).
Proof.
  intros Hl Hm. split; simpl.
  - intros ip' m'. rewrite lookup_delete_Some. intros [Hne Hm'].
    apply lookup_delete_Some. split; [|by apply (linked_ip a Hl)].
    intros E. apply Hne. by apply (linked_unique a ip ip' m m').
  - intros k ip'. rewrite lookup_delete_Some. intros [Hne Hk].
    destruct (linked_key a Hl _ _ Hk) as (m' & Hm' & ->). exists m'. split; [|done].
    apply lookup_delete_Some. split; [|done]. intros <-. congruence.
Qed.

Lemma RememberUntil_linked a g n ip e : linked a -> linked (RememberUntil a g n ip e).
Proof.
  intros Hl. unfold RememberUntil. destruct (byKey a !! akey g n) eqn:E1; [done|].
  destruct (byIP a !! ip) eqn:E2; [done|]. by apply linked_insert.
Qed.

Lemma LookupLive_linked a ip now : linked a -> linked (LookupLive a ip now).2.
Proof.
  intros Hl. unfold LookupLive. destruct (byIP a !! ip) as [m|] eqn:E; [|done].
  destruct (expired a ip now); [|done]. by apply linked_delete.
Qed.

(** ** Live lookups *)

(** A mapping is live when it has no expiry or the expiry is still ahead. *)
Definition live (a : Allocator) (ip : Addr) (now : Time) : Prop :=
  expires_of a ip = TimeZero \/ now < expires_of a ip.

Lemma expired_live a ip now : expired a ip now = false <-> live a ip now.
Proof.
  unfold expired, live, IsZero, Before.
  destruct (Z.eqb_spec (expires_of a ip) TimeZero); simpl; [tauto|].
  destruct (Z.ltb_spec now (expires_of a ip)); simpl; split; try done; lia.
Qed.

(** A live lookup returns the mapping exactly when it is present and its lease
    has not run out.  An expired one disappears from both directions at once, nothing
    else changes, and the maps keep mirroring each other. *)
Theorem LookupLive_spec a ip now :
  linked a ->
  let '(m, ok, a') := LookupLive a ip now in
  (ok = true <-> byIP a !! ip = Some m /\ live a ip now) /\
  (ok = true -> a' = a) /\
  (ok = false -> m = MappingZero /\ byIP a' = delete ip (byIP a) /\
     (forall k, byKey a' !! k = Some ip -> False) /\
     (forall k ip', ip' <> ip -> byKey a' !! k = Some ip' <-> byKey a !! k = Some ip')) /\
  next a' = next a /\ linked a'.
Proof.
  intros Hl. pose proof (LookupLive_linked a ip now Hl) as Hl'. unfold LookupLive in *.
  destruct (byIP a !! ip) as [m|] eqn:Em.
  - destruct (expired a ip now) eqn:Ee; simpl in *.
    + rewrite <-expired_live, Ee. split; [split; [done|by intros [_ ?]]|]. split; [done|].
      split; [|done]. intros _. split; [done|]. split; [done|]. split.
      * intros k [Hne Hk]%lookup_delete_Some. destruct (linked_key a Hl _ _ Hk) as (m' & Hm' & ->). congruence.
      * intros k ip' Hne. rewrite lookup_delete_Some. split; [tauto|]. intros Hk. split; [|done].
        intros <-. apply (linked_ip a Hl) in Em. congruence.
    + rewrite <-expired_live. done.
  - split; [split; [done|by intros [? _]]|]. split; [done|]. split; [|done]. intros _.
    split; [done|]. split; [by rewrite delete_id|]. split; [|done].
    intros k Hk. destruct (linked_key a Hl _ _ Hk) as (m' & Hm' & _). congruence.
Qed.

Definition cache1 : Allocator :=
  RememberUntil NewAllocator "gw" "app.example.com" (AddrFrom4 10 254 0 1) 1000.

Lemma LookupLive_spec_witness :
  let '(m, ok, a') := LookupLive cache1 (AddrFrom4 10 254 0 1) 1000 in
  ok = false /\ m = MappingZero /\ linked a'.
Proof.
  pose proof (LookupLive_spec cache1 (AddrFrom4 10 254 0 1) 1000
    (RememberUntil_linked _ _ _ _ _ linked_new)) as H.
  destruct (LookupLive cache1 (AddrFrom4 10 254 0 1) 1000) as [[m ok] a'] eqn:E.
  assert (ok = false) as -> by (change ok with (m, ok, a').1.2; rewrite <-E; by vm_compute).
  destruct H as (_ & _ & H & _ & Hl). destruct (H eq_refl) as (-> & _). done.
Defined.

(** ** Remembering *)

(** [RememberUntil] never changes an existing mapping: both maps only grow, the
    entries present keep their expiry, and a new entry appears only when neither its
    key nor its address is taken. *)
Theorem RememberUntil_extends a g n ip e :
  linked a ->
  let a' := RememberUntil a g n ip e in
  byKey a ⊆ byKey a' /\ byIP a ⊆ byIP a' /\
  (forall ip', is_Some (byIP a !! ip') -> expires_of a' ip' = expires_of a ip') /\
  (byKey a !! akey g n = None /\ byIP a !! ip = None ->
     Lookup a' ip = (mkMapping g n, true) /\ LookupKey a' g n = (ip, true) /\ expires_of a' ip = e) /\
  linked a'.
Proof.
  intros Hl. cbv zeta. pose proof (RememberUntil_linked a g n ip e Hl) as Hl'.
  unfold RememberUntil in *. destruct (byKey a !! akey g n) as [ip0|] eqn:E1.
  - split; [done|]. split; [done|]. split; [done|]. split; [by intros [? _]|done].
  - destruct (byIP a !! ip) as [m0|] eqn:E2.
    { split; [done|]. split; [done|]. split; [done|]. split; [by intros [_ ?]|done]. }
    simpl. split; [by apply insert_subseteq|]. split; [by apply insert_subseteq|]. split; [|split; [|done]].
    + intros ip' [m Hm]. unfold expires_of. simpl. rewrite lookup_insert_ne; [done|]. congruence.
    + intros _. unfold Lookup, LookupKey, expires_of. simpl. by rewrite !lookup_insert_eq.
Qed.

Lemma RememberUntil_extends_witness :
  byIP cache1 ⊆ byIP (RememberUntil cache1 "gw" "app.example.com" (AddrFrom4 10 254 0 2) 2000).
Proof.
  apply (RememberUntil_extends cache1 "gw" "app.example.com" (AddrFrom4 10 254 0 2) 2000).
  apply RememberUntil_linked, linked_new.
Defined.

(** ** The state file *)

Definition disk_row (x : Addr * Mapping) : diskMapping :=
  mkDisk (m_Gateway x.2) (m_Domain x.2) (AddrString x.1).

Definition load_pairs (a : Allocator) (l : list (Addr * Mapping)) : Allocator :=
  foldl (fun a x => load_row a (m_Gateway x.2) (m_Domain x.2) x.1) a l.

Definition ipv4 (ip : Addr) : Prop := exists v, ip = Addr4 v /\ 0 <= v < 2 ^ 32.

Lemma load_rows_pairs a l :
  Forall (fun x : Addr * Mapping => ipv4 x.1) l ->
  load_rows a (disk_row <$> l) = (true, load_pairs a l).
Proof.
  revert a; induction l as [|[ip m] l IH]; intros a Hf; [done|].
  inversion Hf as [|? ? (v & E & Hv) Hf']; subst. simpl in *. subst ip.
  rewrite (ParseAddr_AddrString v Hv). by apply IH.
Qed.

Lemma load_pairs_ip l a ip m :
  NoDup l.*1 ->
  byIP (load_pairs a l) !! ip = Some m <-> (ip, m) ∈ l \/ ((ip ∉ l.*1) /\ byIP a !! ip = Some m).
Proof.
  revert a; induction l as [|[ip0 m0] l IH]; intros a Hn; simpl.
  { rewrite elem_of_nil. split; [intros; right; split; [apply not_elem_of_nil|done]|tauto]. }
  apply NoDup_cons in Hn as [Hni Hn]. simpl in Hni.
  unfold load_pairs in *. simpl. rewrite IH by done. simpl. clear IH.
  rewrite lookup_insert_Some, elem_of_cons, not_elem_of_cons.
  assert ((ip, m) ∈ l -> ip ∈ l.*1) as Hin by (intros H; apply list_elem_of_fmap; by exists (ip, m)).
  destruct m0 as [g n]. simpl. split.
  - intros [?|[? [[<- <-]|[? ?]]]]; auto.
  - intros [[[= -> ->]|?]|[[? ?] ?]]; auto.
Qed.

Lemma load_pairs_key l a k ip :
  NoDup (mkey ∘ snd <$> l) ->
  byKey (load_pairs a l) !! k = Some ip <->
  (exists m, (ip, m) ∈ l /\ k = mkey m) \/ ((k ∉ (mkey ∘ snd <$> l)) /\ byKey a !! k = Some ip).
Proof.
  revert a; induction l as [|[ip0 m0] l IH]; intros a Hn; simpl.
  { split; [intros; right; split; [apply not_elem_of_nil|done]|].
    intros [(m & Hm & _)|[_ ?]]; [by apply elem_of_nil in Hm|done]. }
  apply NoDup_cons in Hn as [Hni Hn]. simpl in Hni.
  unfold load_pairs in *. simpl. rewrite IH by done. simpl. clear IH.
  rewrite lookup_insert_Some, not_elem_of_cons. setoid_rewrite elem_of_cons.
  change (akey (m_Gateway m0) (m_Domain m0)) with (mkey m0). split.
  - intros [(m & ? & ->)|[? [[<- <-]|[? ?]]]]; [left; eauto|left; eauto|right; auto].
  - intros [(m & [[= -> ->]|?] & ->)|[[? ?] ?]]; [right; auto|left; eauto|right; auto].
Qed.

(** Saving and loading is lossless: for a consistent allocator over IPv4 addresses the
    rows of [Save], in whatever order the map is iterated, load back without error into
    the same forward and reverse mappings. *)
Lemma save_load a rows :
  linked a -> (forall ip m, byIP a !! ip = Some m -> ipv4 ip) -> rows ≡ₚ save_rows a ->
  exists l, (forall ip m, (ip, m) ∈ l <-> byIP a !! ip = Some m) /\
    load_rows NewAllocator rows = (true, load_pairs NewAllocator l) /\
    byIP (load_pairs NewAllocator l) = byIP a /\ byKey (load_pairs NewAllocator l) = byKey a.
Proof.
  intros Hl H4 Hp. apply Permutation_map_inv in Hp as (l & -> & Hp). exists l.
  assert (forall ip m, (ip, m) ∈ l <-> byIP a !! ip = Some m) as Hin
    by (intros; rewrite <-Hp; apply elem_of_map_to_list).
  assert (NoDup l.*1) as Hn1 by (rewrite <-Hp; apply NoDup_fst_map_to_list).
  assert (NoDup (mkey ∘ snd <$> l)) as Hn2.
  { apply NoDup_fmap_2_strong; [|apply NoDup_fmap_1 in Hn1; done].
    intros [i1 m1] [i2 m2] H1%Hin H2%Hin E. simpl in E.
    assert (i1 = i2) as -> by (by apply (linked_unique a i1 i2 m1 m2)). congruence. }
  split; [done|]. split; [|split].
  - apply (load_rows_pairs NewAllocator l). apply Forall_forall. intros [ip m] Hx. by apply (H4 ip m), Hin.
  - apply map_eq. intros ip. apply option_eq. intros m. rewrite load_pairs_ip by done.
    rewrite Hin. simpl. rewrite lookup_empty. split; [by intros [?|[_ ?]]|tauto].
  - apply map_eq. intros k. apply option_eq. intros ip. rewrite load_pairs_key by done.
    simpl. rewrite lookup_empty. split.
    + intros [(m & Hm%Hin & ->)|[_ ?]]; [by apply (linked_ip a Hl)|done].
    + intros Hk. left. destruct (linked_key a Hl _ _ Hk) as (m & Hm & ->). exists m. by rewrite Hin.
Qed.

(** The loaded [next] address is the highest one seen, which is not where the search
    stood when the ranges are not listed in ascending order: after a reload the next
    allocation reuses an address of the second range. *)
Example reload_reuses_address :
  let ps := [mkPrefix (AddrFrom4 10 254 8 0) 30; mkPrefix (AddrFrom4 10 254 0 0) 30] in
  let a := (allocate_all NewAllocator "gw" ps [lit "a"; lit "b"; lit "c"; lit "d"]).2 in
  let '(ok, a') := load_rows NewAllocator (save_rows a) in
  ok = true /\ LookupKey a "gw" "d" = (AddrFrom4 10 254 0 1, true) /\
  (Allocate a' "gw" ps "e").1 = Some (AddrFrom4 10 254 0 1).
Proof. vm_compute. repeat split. Qed.
