(* ===== verification/DnsWire.v ===== *)
(** * DNS over UDP: the wire format

    [internal/dnsudp/server.go].  Requests and responses are byte strings; every
    index or slice expression of the source that Go checks at run time is an
    option-valued operation, so [None] is a panic and the theorem that the server
    never panics is a theorem about these definitions.  The domain decision is a
    parameter: a state-passing function over whatever state it keeps. *)

From S2P Require Import Prelude GoStrings NetAddr.

Definition TypeA : Z := 1.
Definition TypePTR : Z := 12.
Definition TypeAAAA : Z := 28.

Record Question := mkQuestion { q_Name : str; q_Type : Z }.
#[export] Instance Question_eq_dec : EqDecision Question.
Proof. solve_decision. Defined.

Definition QuestionZero : Question := mkQuestion [] 0.

Inductive Outcome :=
| NoResponse
| Address
| PTR
| Passthrough
| Unavailable.

Record Decision := mkDecision { d_Outcome : Outcome; d_Address : Addr; d_PTRName : str }.

#[export] Instance Outcome_eq_dec : EqDecision Outcome.
Proof. solve_decision. Defined.

(** A [net.Addr]: a UDP address with its IP bytes, or any other kind, known by its
    text. *)
Inductive NetAddr :=
| UDPAddr (ip : list byte)
| OtherAddr (text : str).

(** ** Checked byte operations *)

Definition slice (b : list byte) (lo hi : nat) : option (list byte) :=
  if (lo <=? hi)%nat && (hi <=? length b)%nat then Some (take (hi - lo) (drop lo b)) else None.

Definition u16 (b : list byte) (off : nat) : option Z :=
  match slice b off (off + 2) with
  | Some [x; y] => Some (bval x * 256 + bval y)
  | _ => None
  end.

(** Writing [bs] at [off]. *)
Definition put (b : list byte) (off : nat) (bs : list byte) : option (list byte) :=
  if (off + length bs <=? length b)%nat
  then Some (take off b ++ bs ++ drop (off + length bs) b) else None.

(** ** Parsing *)

Inductive labels_result :=
| LabelsOk (p : nat) (labels : list str)
| LabelsBad
| LabelsFuel.

Fixpoint parse_labels (fuel : nat) (request : list byte) (p : nat) (labels : list str) : labels_result :=
  match fuel with
  | O => LabelsFuel
  | S f =>
      match request !! p with
      | None => LabelsBad
      | Some b =>
          let n := Z.to_nat (bval b) in
          let p := S p in
          if (n =? 0)%nat then LabelsOk p labels
          else if (63 <? n)%nat || (length request <? p + n)%nat then LabelsBad
          else parse_labels f request (p + n) (labels ++ [take n (drop p request)])
      end
  end.

Definition parseQuestion (request : list byte) : option (Question * nat * bool) :=
  if (length request <? 17)%nat then Some (QuestionZero, 0%nat, false) else
  qd ← u16 request 4;
  if negb (qd =? 1) then Some (QuestionZero, 0%nat, false) else
  match parse_labels (S (length request)) request 12 [] with
  | LabelsOk p labels =>
      if (length request <? p + 4)%nat then Some (QuestionZero, 0%nat, false) else
      qtype ← u16 request p;
      Some (mkQuestion (Join labels ".") qtype, (p + 4)%nat, true)
  | LabelsBad => Some (QuestionZero, 0%nat, false)
  | LabelsFuel => None
  end.

Definition sourceIP (source : NetAddr) : Addr :=
  match source with
  | UDPAddr ip => AddrFromSlice ip
  | OtherAddr text => match ParseAddrPort text with Some (ip, _) => ip | None => AddrZero end
  end.

(** ** Responses *)

(** The common start: the request up to [end], room for [extra] bytes, and the
    response flags: QR set, RD copied, everything else clear. *)
Definition response_start (request : list byte) (end_ extra : nat) : option (list byte) :=
  b ← slice request 0 end_;
  flags ← u16 request 2;
  put (b ++ replicate extra (byte_of 0)) 2 (be_bytes 2 (Z.lor 32768 (Z.land flags 256))).

Definition addressAnswer (request : list byte) (end_ : nat) (ip : Addr) : option (list byte) :=
  r ← response_start request end_ 16;
  if IsValid ip then
    r ← put r 6 (be_bytes 2 1);
    r ← put r end_ [byte_of 192; byte_of 12];
    r ← put r (end_ + 2) (be_bytes 2 TypeA);
    r ← put r (end_ + 4) (be_bytes 2 1);
    r ← put r (end_ + 6) (be_bytes 4 600);
    r ← put r (end_ + 10) (be_bytes 2 4);
    put r (end_ + 12) (take 4 (AsSlice ip))
  else slice r 0 end_.

Definition serverFailure (request : list byte) (end_ : nat) : option (list byte) :=
  r ← addressAnswer request end_ AddrZero;
  f ← u16 r 2;
  put r 2 (be_bytes 2 (Z.lor f 2)).

Definition encode_label (label : str) : list byte := byte_of (Z.of_nat (length label)) :: label.

Definition encodeName (name : str) : list byte :=
  mjoin (encode_label <$> Split (TrimSuffix name ".") ".") ++ [byte_of 0].

Definition ptrAnswer (request : list byte) (end_ : nat) (name : str) : option (list byte) :=
  let rdata := encodeName name in
  r ← response_start request end_ (12 + length rdata);
  r ← put r 6 (be_bytes 2 1);
  r ← put r end_ [byte_of 192; byte_of 12];
  r ← put r (end_ + 2) (be_bytes 2 TypePTR);
  r ← put r (end_ + 4) (be_bytes 2 1);
  r ← put r (end_ + 6) (be_bytes 4 600);
  r ← put r (end_ + 10) (be_bytes 2 (uint16 (Z.of_nat (length rdata))));
  put r (end_ + 12) rdata.

(** ** Answering one request *)

(** [forward] against an upstream that may or may not reply in time: the bytes
    written back to the client, if any. *)
Definition forward (upstream : option (list byte -> option (list byte))) (request : list byte)
  : option (list byte) :=
  match upstream with
  | None => None
  | Some exchange => exchange request
  end.

Section server.
Context {St : Type}.

(** [Server.Decide]; [None] is a nil function value. *)
Definition Decide := option (St -> Addr -> Question -> Decision * St).

(** [Respond]: the response, if any, and whether to forward; outer [None] is a
    panic. *)
Definition Respond (decide : Decide) (st : St) (request : list byte) (source : NetAddr)
  : option (option (list byte) * bool * St) :=
  pq ← parseQuestion request;
  let '(question, end_, ok) := pq in
  match decide with
  | None => Some (None, false, st)
  | Some decide =>
      if negb ok then Some (None, false, st) else
      let '(decision, st) := decide st (sourceIP source) question in
      match d_Outcome decision with
      | Address =>
          if q_Type question =? TypeA then
            r ← addressAnswer request end_ (d_Address decision); Some (Some r, false, st)
          else if q_Type question =? TypeAAAA then
            r ← addressAnswer request end_ AddrZero; Some (Some r, false, st)
          else Some (None, false, st)
      | PTR =>
          if negb (str_eqb (d_PTRName decision) []) then
            r ← ptrAnswer request end_ (d_PTRName decision); Some (Some r, false, st)
          else r ← addressAnswer request end_ AddrZero; Some (Some r, false, st)
      | Passthrough => Some (None, true, st)
      | Unavailable => r ← serverFailure request end_; Some (Some r, false, st)
      | NoResponse => Some (None, false, st)
      end
  end.

(** The body of the goroutine [Serve] starts for a packet: what is written back. *)
Definition serve_packet (decide : Decide) (upstream : option (list byte -> option (list byte)))
  (st : St) (request : list byte) (source : NetAddr) : option (option (list byte) * St) :=
  match Respond decide st request source with
  | None => None
  | Some (Some response, _, st) => Some (Some response, st)
  | Some (None, fwd, st) => Some (if fwd : bool then forward upstream request else None, st)
  end.
End server.

(** ** Reverse names *)

(** The digit loop of one octet, on 16-bit arithmetic. *)
Fixpoint octet_digits (s : str) (n : Z) : option Z :=
  match s with
  | [] => Some n
  | c :: s' =>
      if is_digit c then
        let n' := uint16 (n * 10 + digit_val c) in
        if 255 <? n' then None else octet_digits s' n'
      else None
  end.

Definition ReverseIPv4 `{UnicodeTable} (name : str) : Addr * bool :=
  match Split (TrimSuffix (ToLower name) ".") "." with
  | [p0; p1; p2; p3; p4; p5] =>
      if negb (str_eqb p4 "in-addr") || negb (str_eqb p5 "arpa") then (AddrZero, false) else
      match octet_digits p3 0, octet_digits p2 0, octet_digits p1 0, octet_digits p0 0 with
      | Some a, Some b, Some c, Some d => (AddrFrom4 a b c d, true)
      | _, _, _, _ => (AddrZero, false)
      end
  | _ => (AddrZero, false)
  end.
