(* ===== verification/DnsWireSpec.v ===== *)
(** * DNS over UDP: the server never panics and clients can read what it sends

    The parser accepts exactly the messages whose question section is a sequence
    of labels of 1 to 63 bytes, a zero byte, a type and a class; every request,
    however malformed, is handled without a panic and within the parser's fuel;
    and a resolver that follows RFC 1035 reads from the reply exactly what the
    domain decision said. *)

From S2P Require Import Prelude GoStrings NetAddr DnsWire.

(** ** Checked byte operations *)

Lemma slice_some b lo hi :
  (lo <= hi)%nat -> (hi <= length b)%nat -> slice b lo hi = Some (take (hi - lo) (drop lo b)).
Proof.
  intros. unfold slice.
  by rewrite (proj2 (Nat.leb_le lo hi)), (proj2 (Nat.leb_le hi _)).
Qed.

Lemma slice_app l m r : slice (l ++ m ++ r) (length l) (length l + length m) = Some m.
Proof.
  rewrite slice_some by (rewrite ?length_app; lia).
  by rewrite drop_app_length, Nat.add_comm, Nat.add_sub, take_app_length.
Qed.

Lemma u16_app l x y r : u16 (l ++ x :: y :: r) (length l) = Some (bval x * 256 + bval y).
Proof.
  unfold u16. pose proof (slice_app l [x; y] r) as H. cbn [length app] in H. by rewrite H.
Qed.

Lemma put_app l m n r k :
  k = length l -> length n = length m -> put (l ++ m ++ r) k n = Some (l ++ n ++ r).
Proof.
  intros -> Hn. unfold put. rewrite (proj2 (Nat.leb_le _ _)) by (rewrite !length_app; lia).
  rewrite take_app_length, Hn, <-drop_drop, drop_app_length, drop_app_length. done.
Qed.

Lemma be_bytes_length n v : length (be_bytes n v) = n.
Proof. induction n as [|n IH]; cbn [be_bytes length]; lia. Qed.

Lemma be2_value v : bval (byte_of (Z.shiftr v 8)) * 256 + bval (byte_of v) = v mod 65536.
Proof.
  rewrite !bval_byte_of, Z.shiftr_div_pow2 by lia.
  change (2 ^ 8) with 256. Z.div_mod_to_equations. lia.
Qed.

Lemma be2_bval x y :
  be_bytes 2 (bval x * 256 + bval y) = [x; y].
Proof.
  pose proof (bval_bound x). pose proof (bval_bound y).
  cbn [be_bytes]. change (8 * Z.of_nat 1) with 8. change (8 * Z.of_nat 0) with 0.
  rewrite Z.shiftr_0_r, Z.shiftr_div_pow2 by lia. change (2 ^ 8) with 256.
  rewrite Z.div_add_l, Z.div_small, Z.add_0_r, byte_of_bval by lia.
  do 2 f_equal. apply bval_inj. rewrite bval_byte_of.
  rewrite Z.add_comm, Z.mod_add, Z.mod_small; lia.
Qed.

(** ** The question section *)

Definition label_ok (l : str) : Prop := (1 <= length l <= 63)%nat.

Definition labels_bytes (ls : list str) : list byte := mjoin (encode_label <$> ls).

Lemma labels_bytes_cons l ls :
  labels_bytes (l :: ls) = byte_of (Z.of_nat (length l)) :: l ++ labels_bytes ls.
Proof. done. Qed.

Lemma bval_label_length l : label_ok l -> bval (byte_of (Z.of_nat (length l))) = Z.of_nat (length l).
Proof. intros [? ?]. rewrite bval_byte_of, Z.mod_small; lia. Qed.

Lemma parse_labels_complete ls : forall fuel pre rest acc p,
  Forall label_ok ls -> (length ls < fuel)%nat -> p = length pre ->
  parse_labels fuel (pre ++ labels_bytes ls ++ byte_of 0 :: rest) p acc =
    LabelsOk (p + length (labels_bytes ls) + 1) (acc ++ ls).
Proof.
  induction ls as [|l ls IH]; intros [|fuel] pre rest acc p Hok Hf ->; cbn in Hf; try lia.
  - cbn [labels_bytes fmap list_fmap mjoin list_join app parse_labels].
    rewrite list_lookup_middle by done. cbn -[Nat.add].
    rewrite app_nil_r. f_equal. lia.
  - apply Forall_cons in Hok as [Hl Hls].
    rewrite labels_bytes_cons. cbn [app parse_labels].
    rewrite list_lookup_middle by done.
    cbn beta iota zeta. rewrite bval_label_length, Nat2Z.id by done.
    destruct Hl as [Hl1 Hl2].
    rewrite (proj2 (Nat.eqb_neq _ 0)), (proj2 (Nat.ltb_ge 63 _)) by lia. cbn [orb].
    rewrite (proj2 (Nat.ltb_ge _ _)) by (rewrite length_app; cbn [length]; rewrite !length_app; lia).
    set (b := byte_of (Z.of_nat (length l))).
    rewrite (cons_middle b pre), <-!(app_assoc l).
    rewrite (app_assoc pre [b]).
    replace (drop (S (length pre)) _) with (l ++ labels_bytes ls ++ byte_of 0 :: rest)
      by (rewrite drop_app_length' by (rewrite length_app; cbn; lia); done).
    rewrite take_app_length, (app_assoc _ l), IH
      by (first [done | lia | rewrite !length_app; cbn; lia]).
    rewrite <-app_assoc. f_equal. cbn [length]. rewrite length_app. lia.
Qed.

Lemma parse_labels_sound fuel : forall req p acc p' ls',
  parse_labels fuel req p acc = LabelsOk p' ls' ->
  exists ls, ls' = acc ++ ls /\ Forall label_ok ls /\
    p' = (p + length (labels_bytes ls) + 1)%nat /\ (p' <= length req)%nat /\
    drop p req = labels_bytes ls ++ byte_of 0 :: drop p' req.
Proof.
  induction fuel as [|fuel IH]; intros req p acc p' ls' H; cbn [parse_labels] in H; [done|].
  destruct (req !! p) as [b|] eqn:Hb; [|done].
  pose proof (lookup_lt_Some _ _ _ Hb). pose proof (bval_bound b).
  pose proof (drop_S _ _ _ Hb) as Hd.
  cbn beta zeta iota in H. destruct (Nat.eqb_spec (Z.to_nat (bval b)) 0) as [Hz|Hz].
  - injection H as <- <-. exists []. rewrite app_nil_r, Hd. cbn.
    replace (byte_of 0) with b by (rewrite <-(byte_of_bval b); f_equal; lia).
    repeat split; try done; try lia.
  - destruct (_ || _) eqn:Hc; [done|]. bool_simp.
    apply IH in H as (ls & -> & Hls & -> & Hle & Hdrop).
    set (n := Z.to_nat (bval b)) in *. set (l := take n (drop (S p) req)) in *.
    assert (Hll : length l = n) by (unfold l; rewrite length_take, length_drop; lia).
    exists (l :: ls). rewrite <-app_assoc. split; [done|].
    assert (label_ok l) by (unfold label_ok; lia).
    split; [by constructor|].
    assert (He : labels_bytes (l :: ls) = b :: l ++ labels_bytes ls).
    { rewrite labels_bytes_cons, Hll. unfold n. rewrite Z2Nat.id, byte_of_bval by lia. done. }
    rewrite He. cbn [length]. rewrite length_app, Hll.
    split; [lia|]. split; [lia|].
    rewrite Hd. cbn [app]. f_equal. rewrite <-app_assoc.
    replace (p + S (n + length (labels_bytes ls)) + 1)%nat
      with (S p + n + length (labels_bytes ls) + 1)%nat by lia.
    rewrite <-Hdrop. replace (S p + n)%nat with (S p + n)%nat by lia.
    rewrite <-drop_drop. unfold l. by rewrite take_drop.
Qed.

Lemma parse_labels_fuel fuel : forall req p acc,
  (length req <= fuel + p)%nat -> parse_labels (S fuel) req p acc <> LabelsFuel.
Proof.
  induction fuel as [|fuel IH]; intros req p acc Hf; cbn [parse_labels];
    (destruct (req !! p) as [b|] eqn:Hb; [|done]); apply lookup_lt_Some in Hb; [lia|].
  cbn beta zeta iota. destruct (Nat.eqb_spec (Z.to_nat (bval b)) 0); [done|].
  destruct (_ || _) eqn:Hc; [done|]. bool_simp. apply IH. lia.
Qed.

(** The question section of a message, type and class in network order. *)
Definition question_bytes (ls : list str) (t c : Z) : list byte :=
  labels_bytes ls ++ byte_of 0 :: be_bytes 2 t ++ be_bytes 2 c.

Lemma question_bytes_length ls t c :
  length (question_bytes ls t c) = (length (labels_bytes ls) + 5)%nat.
Proof. unfold question_bytes. rewrite length_app. done. Qed.

Lemma labels_bytes_length ls : Forall label_ok ls -> (length ls <= length (labels_bytes ls))%nat.
Proof.
  induction 1 as [|l ls _ _ IH]; [done|].
  rewrite labels_bytes_cons. cbn [length]. rewrite length_app. lia.
Qed.

Lemma u16_be l v r : 0 <= v < 65536 -> u16 (l ++ be_bytes 2 v ++ r) (length l) = Some v.
Proof.
  intros Hv. cbn [be_bytes app]. rewrite u16_app.
  change (8 * Z.of_nat 1) with 8. change (8 * Z.of_nat 0) with 0.
  rewrite Z.shiftr_0_r, be2_value, Z.mod_small by lia. done.
Qed.

Lemma u16_prefix h r off : (off + 2 <= length h)%nat -> u16 (h ++ r) off = u16 h off.
Proof.
  intros. unfold u16. rewrite !slice_some by (rewrite ?length_app; lia).
  rewrite drop_app_le by lia. rewrite take_app_le by (rewrite length_drop; lia). done.
Qed.

Lemma u16_two (l : list byte) off : (off + 2 <= length l)%nat ->
  exists x y, drop off l = x :: y :: drop (off + 2) l /\ u16 l off = Some (bval x * 256 + bval y).
Proof.
  intros H. destruct (lookup_lt_is_Some_2 l off) as [x Hx]; [lia|].
  destruct (lookup_lt_is_Some_2 l (S off)) as [y Hy]; [lia|].
  assert (Hd : drop off l = x :: y :: drop (off + 2) l).
  { rewrite (drop_S _ _ _ Hx), (drop_S _ _ _ Hy). repeat f_equal. lia. }
  exists x, y. split; [done|].
  rewrite <-(take_drop off l) at 1. rewrite Hd.
  replace off with (length (take off l)) at 3 by (rewrite length_take; lia).
  apply u16_app.
Qed.

Lemma parseQuestion_complete h ls t c rest :
  length h = 12%nat -> u16 h 4 = Some 1 -> Forall label_ok ls ->
  0 <= t < 65536 -> 0 <= c < 65536 ->
  parseQuestion (h ++ question_bytes ls t c ++ rest) =
    Some (mkQuestion (Join ls ".") t, (12 + length (question_bytes ls t c))%nat, true).
Proof.
  intros Hh Hq Hls Ht Hc. unfold parseQuestion.
  pose proof (labels_bytes_length ls Hls). pose proof (question_bytes_length ls t c).
  rewrite (proj2 (Nat.ltb_ge _ _)) by (rewrite !length_app; lia).
  rewrite u16_prefix, Hq by lia. cbn [mbind option_bind Z.eqb Pos.eqb negb].
  set (req := h ++ question_bytes ls t c ++ rest).
  assert (Hr : req = h ++ labels_bytes ls ++ byte_of 0 :: be_bytes 2 t ++ be_bytes 2 c ++ rest).
  { unfold req, question_bytes. rewrite <-!app_assoc. cbn [app]. by rewrite <-!app_assoc. }
  assert (Hlen : length req = (17 + length (labels_bytes ls) + length rest)%nat).
  { unfold req. rewrite !length_app. lia. }
  rewrite Hlen, Hr, parse_labels_complete by (done || lia). cbn [app].
  rewrite (proj2 (Nat.ltb_ge _ _)) by lia.
  replace (12 + length (labels_bytes ls) + 1)%nat
    with (length (h ++ labels_bytes ls ++ [byte_of 0])) by (rewrite !length_app; cbn; lia).
  assert (Hr' : req = (h ++ labels_bytes ls ++ [byte_of 0]) ++ be_bytes 2 t ++ be_bytes 2 c ++ rest)
    by (rewrite Hr, <-!app_assoc; done).
  rewrite <-Hr, Hr', u16_be by done.
  cbn [mbind option_bind]. rewrite !length_app. cbn [length]. do 3 f_equal. lia.
Qed.

Lemma parseQuestion_sound request q e :
  parseQuestion request = Some (q, e, true) ->
  exists h ls t c rest,
    request = h ++ question_bytes ls t c ++ rest /\ length h = 12%nat /\ u16 h 4 = Some 1 /\
    Forall label_ok ls /\ 0 <= t < 65536 /\ 0 <= c < 65536 /\
    q = mkQuestion (Join ls ".") t /\ e = (12 + length (question_bytes ls t c))%nat.
Proof.
  unfold parseQuestion. destruct (Nat.ltb_spec (length request) 17); [done|].
  destruct (u16 request 4) as [qd|] eqn:Hqd; [|done]. cbn [mbind option_bind].
  destruct (Z.eqb_spec qd 1) as [->|]; [|done]. cbn [negb].
  destruct (parse_labels _ _ _ _) as [p labels| |] eqn:Hp; try done.
  destruct (Nat.ltb_spec (length request) (p + 4)); [done|].
  apply parse_labels_sound in Hp as (ls & -> & Hls & Hpe & Hle & Hd). cbn [app].
  destruct (u16_two request p) as (t0 & t1 & Hd1 & ->); [lia|].
  destruct (u16_two request (p + 2)) as (c0 & c1 & Hd2 & _); [lia|].
  cbn [mbind option_bind]. intros [= <- <-].
  pose proof (bval_bound t0). pose proof (bval_bound t1).
  pose proof (bval_bound c0). pose proof (bval_bound c1).
  exists (take 12 request), ls, (bval t0 * 256 + bval t1), (bval c0 * 256 + bval c1), (drop (p + 2 + 2) request).
  split.
  { rewrite <-(take_drop 12 request) at 1. f_equal. unfold question_bytes.
    rewrite Hd, Hd1, Hd2, !be2_bval, <-!app_assoc. done. }
  split; [rewrite length_take; lia|]. split.
  { rewrite <-Hqd. rewrite <-(take_drop 12 request) at 2. rewrite u16_prefix; [done|].
    rewrite length_take. lia. }
  split_and!; try done; try lia. rewrite question_bytes_length. lia.
Qed.

(** C22: the request parser accepts exactly the well-formed questions: a header
    of 12 bytes announcing one question, labels of 1 to 63 bytes each, a zero byte,
    a type and a class, followed by anything.  The name is the labels joined by
    dots and [end] is the offset just after the class. *)
Theorem parseQuestion_spec request q e :
  parseQuestion request = Some (q, e, true) <->
  exists h ls t c rest,
    request = h ++ question_bytes ls t c ++ rest /\ length h = 12%nat /\ u16 h 4 = Some 1 /\
    Forall label_ok ls /\ 0 <= t < 65536 /\ 0 <= c < 65536 /\
    q = mkQuestion (Join ls ".") t /\ e = (12 + length (question_bytes ls t c))%nat.
Proof.
  split; [apply parseQuestion_sound|].
  intros (h & ls & t & c & rest & -> & ? & ? & ? & ? & ? & -> & ->).
  by apply parseQuestion_complete.
Qed.

(** ** The shape of the replies *)

Lemma put_prefix l r k bs :
  (k + length bs <= length l)%nat -> put (l ++ r) k bs = (.++ r) <$> put l k bs.
Proof.
  intros H. unfold put. rewrite !(proj2 (Nat.leb_le _ _)) by (rewrite ?length_app; lia).
  cbn. rewrite take_app_le, drop_app_le by lia. by rewrite <-!app_assoc.
Qed.

Lemma put_suffix l r k bs : put (l ++ r) (length l + k) bs = (l ++.) <$> put r k bs.
Proof.
  unfold put. rewrite length_app.
  replace (length l + k + length bs <=? length l + length r)%nat
    with (k + length bs <=? length r)%nat
    by (destruct (Nat.leb_spec (k + length bs) (length r));
        destruct (Nat.leb_spec (length l + k + length bs) (length l + length r)); lia || done).
  destruct (_ <=? _)%nat; [|done]. cbn.
  rewrite take_app_add, <-Nat.add_assoc, drop_app_add. by rewrite <-!app_assoc.
Qed.

(** The header of a reply: the request's with QR set, RD kept, the other flags
    cleared, a response code and, unless [an] is [None], an answer count. *)
Definition reply_flags (flags rcode : Z) : Z := Z.lor (Z.lor 32768 (Z.land flags 256)) rcode.

Definition reply_header (h : list byte) (rcode : Z) (an : option Z) : list byte :=
  match h with
  | [b0; b1; b2; b3; b4; b5; b6; b7; b8; b9; b10; b11] =>
      [b0; b1] ++ be_bytes 2 (reply_flags (bval b2 * 256 + bval b3) rcode) ++ [b4; b5] ++
      match an with Some n => be_bytes 2 n | None => [b6; b7] end ++ [b8; b9; b10; b11]
  | _ => []
  end.

(** A resource record owned by the name at offset 12, class IN, TTL 600. *)
Definition record_bytes (type : Z) (rdata : list byte) : list byte :=
  [byte_of 192; byte_of 12] ++ be_bytes 2 type ++ be_bytes 2 1 ++ be_bytes 4 600 ++
  be_bytes 2 (uint16 (Z.of_nat (length rdata))) ++ rdata.

Ltac header12 h :=
  do 12 (destruct h as [|? h]; [done|]); (destruct h; [|done]).

Lemma response_start_shape h qs rest extra :
  length h = 12%nat ->
  response_start (h ++ qs ++ rest) (12 + length qs) extra =
    Some (reply_header h 0 None ++ qs ++ replicate extra (byte_of 0)).
Proof.
  intros Hh. unfold response_start.
  rewrite slice_some by (rewrite ?length_app; lia). rewrite drop_0, Nat.sub_0_r, app_assoc.
  rewrite take_app_length' by (rewrite length_app; lia).
  rewrite <-app_assoc, u16_prefix by lia.
  header12 h. cbn [u16 slice]. unfold reply_header, reply_flags.
  rewrite Z.lor_0_r, <-app_assoc. reflexivity.
Qed.

Lemma reply_header_length h rc an : length h = 12%nat -> length (reply_header h rc an) = 12%nat.
Proof. intros Hh. header12 h. by destruct an. Qed.

Lemma put_ancount h rc n r :
  length h = 12%nat ->
  put (reply_header h rc None ++ r) 6 (be_bytes 2 n) = Some (reply_header h rc (Some n) ++ r).
Proof. intros Hh. header12 h. reflexivity. Qed.

Lemma put_tail h rc an qs r k bs e :
  length h = 12%nat -> e = (12 + length qs)%nat ->
  put (reply_header h rc an ++ qs ++ r) (e + k) bs =
    (fun r' => reply_header h rc an ++ qs ++ r') <$> put r k bs.
Proof.
  intros Hh ->. rewrite app_assoc.
  replace (12 + length qs + k)%nat with (length (reply_header h rc an ++ qs) + k)%nat
    by (rewrite length_app, reply_header_length by done; lia).
  rewrite put_suffix. destruct (put r k bs); [|done]. cbn. by rewrite <-app_assoc.
Qed.

Lemma put_record h rc an qs type len rdata e :
  length h = 12%nat -> e = (12 + length qs)%nat ->
  (r ← put (reply_header h rc an ++ qs ++ replicate (12 + length rdata) (byte_of 0)) e
         [byte_of 192; byte_of 12];
   r ← put r (e + 2) (be_bytes 2 type);
   r ← put r (e + 4) (be_bytes 2 1);
   r ← put r (e + 6) (be_bytes 4 600);
   r ← put r (e + 10) (be_bytes 2 len);
   put r (e + 12) rdata) =
  Some (reply_header h rc an ++ qs ++ [byte_of 192; byte_of 12] ++ be_bytes 2 type ++
        be_bytes 2 1 ++ be_bytes 4 600 ++ be_bytes 2 len ++ rdata).
Proof.
  intros Hh He. rewrite <-(Nat.add_0_r e) at 1.
  cbn [replicate Nat.add]. set (zs := replicate (length rdata) _).
  do 5 (rewrite (put_tail h rc an qs _ _ _ e) by done;
        cbn [mbind option_bind fmap option_fmap option_map put length Nat.leb Nat.add be_bytes take
             drop app]).
  rewrite put_tail by done.
  rewrite drop_0.
  match goal with |- context [put (?a :: ?b :: ?c :: ?d :: ?e :: ?f :: ?g :: ?h :: ?i :: ?j :: ?k :: ?l :: zs)] =>
    change (a :: b :: c :: d :: e :: f :: g :: h :: i :: j :: k :: l :: zs)
      with ([a; b; c; d; e; f; g; h; i; j; k; l] ++ zs) end.
  rewrite <-(app_nil_r zs), put_app by (done || by unfold zs; rewrite length_replicate).
  by rewrite app_nil_r.
Qed.

Lemma AsSlice_take_length ip : IsValid ip = true -> length (take 4 (AsSlice ip)) = 4%nat.
Proof. destruct ip as [v []]; cbn; done. Qed.

(** The two answers and the failure, as bytes. *)
Lemma addressAnswer_shape h qs rest ip :
  length h = 12%nat ->
  addressAnswer (h ++ qs ++ rest) (12 + length qs) ip =
    Some (if IsValid ip
          then reply_header h 0 (Some 1) ++ qs ++ record_bytes TypeA (take 4 (AsSlice ip))
          else reply_header h 0 None ++ qs).
Proof.
  intros Hh. unfold addressAnswer. rewrite response_start_shape by done. cbn [mbind option_bind].
  destruct (IsValid ip) eqn:Hv.
  - rewrite put_ancount by done. cbn [mbind option_bind].
    pose proof (AsSlice_take_length ip Hv) as Hl.
    replace 16%nat with (12 + length (take 4 (AsSlice ip)))%nat by lia.
    rewrite put_record by done. unfold record_bytes. by rewrite Hl.
  - rewrite app_assoc. rewrite slice_some by (rewrite ?length_app, ?reply_header_length by done; lia).
    rewrite Nat.sub_0_r, drop_0, take_app_length'; [done|].
    rewrite length_app, reply_header_length; done.
Qed.

Lemma ptrAnswer_shape h qs rest name :
  length h = 12%nat ->
  ptrAnswer (h ++ qs ++ rest) (12 + length qs) name =
    Some (reply_header h 0 (Some 1) ++ qs ++ record_bytes TypePTR (encodeName name)).
Proof.
  intros Hh. unfold ptrAnswer. rewrite response_start_shape by done. cbn [mbind option_bind].
  rewrite put_ancount by done. cbn [mbind option_bind]. by rewrite put_record.
Qed.

Lemma reply_flags_cases flags : Z.lor 32768 (Z.land flags 256) = 32768 \/ Z.lor 32768 (Z.land flags 256) = 33024.
Proof.
  replace (Z.land flags 256) with (if Z.testbit flags 8 then 256 else 0).
  { by destruct (Z.testbit flags 8); [right|left]. }
  apply Z.bits_inj'. intros n Hn. rewrite Z.land_spec. change 256 with (2 ^ 8).
  destruct (Z.eqb_spec n 8) as [->|Hn8].
  - rewrite Z.pow2_bits_true, andb_true_r by lia. by destruct (Z.testbit flags 8).
  - rewrite Z.pow2_bits_false, andb_false_r by lia.
    destruct (Z.testbit flags 8); [by rewrite Z.pow2_bits_false by lia|apply Z.bits_0].
Qed.

Lemma serverFailure_shape h qs rest :
  length h = 12%nat ->
  serverFailure (h ++ qs ++ rest) (12 + length qs) = Some (reply_header h 2 None ++ qs).
Proof.
  intros Hh. unfold serverFailure. rewrite addressAnswer_shape by done.
  change (IsValid AddrZero) with false. cbn [mbind option_bind].
  header12 h. unfold reply_header, reply_flags. rewrite Z.lor_0_r.
  match goal with |- context [Z.land ?f 256] => destruct (reply_flags_cases f) as [-> | ->] end;
    reflexivity.
Qed.

Lemma Respond_defined {St} (decide : Decide (St:=St)) st request source :
  exists response fwd st', Respond decide st request source = Some (response, fwd, st').
Proof.
  unfold Respond.
  assert (exists q e ok, parseQuestion request = Some (q, e, ok)) as (q & e & ok & Hp).
  { unfold parseQuestion. destruct (Nat.ltb_spec (length request) 17); [eauto|].
    destruct (u16_two request 4) as (? & ? & _ & ->); [lia|]. cbn [mbind option_bind].
    destruct (negb _); [eauto|].
    destruct (parse_labels _ _ _ _) as [p labels| |] eqn:Hl; [|eauto|].
    - destruct (Nat.ltb_spec (length request) (p + 4)); [eauto|].
      destruct (u16_two request p) as (? & ? & _ & ->); [lia|]. cbn. eauto.
    - exfalso. by apply parse_labels_fuel in Hl; [|lia]. }
  rewrite Hp. cbn [mbind option_bind]. destruct decide as [decide|]; [|eauto].
  destruct ok; [|cbn; eauto]. cbn [negb].
  destruct (decide st (sourceIP source) q) as [d st'].
  apply parseQuestion_sound in Hp as (h & ls & t & c & rest & -> & Hh & _ & _ & _ & _ & _ & ->).
  rewrite !addressAnswer_shape, ptrAnswer_shape, serverFailure_shape by done.
  cbn [mbind option_bind]. destruct (d_Outcome d); case_all; eauto.
Qed.

(** C21: no request, however short or malformed, makes the server panic or run its
    parser out of fuel, whatever the domain decision returns. *)
Theorem Respond_total {St} (decide : Decide (St:=St)) st request source :
  exists response fwd st', Respond decide st request source = Some (response, fwd, st').
Proof. apply Respond_defined. Qed.

(** ** Reading a reply the way a resolver does *)

Record RR := mkRR { rr_type : Z; rr_class : Z; rr_ttl : Z; rr_data : list byte }.

Record Reply := mkReply {
  r_id : Z; r_response : bool; r_recursion_desired : bool; r_code : Z;
  r_question : Question; r_records : list RR }.

(** [n] records owned by the question's name (a pointer to offset 12), and nothing
    after them. *)
Fixpoint read_records (n : nat) (b : list byte) : option (list RR) :=
  match n, b with
  | O, [] => Some []
  | S n, p0 :: p1 :: t0 :: t1 :: c0 :: c1 :: x0 :: x1 :: x2 :: x3 :: l0 :: l1 :: rest =>
      let len := Z.to_nat (be_value [l0; l1]) in
      if (be_value [p0; p1] =? 49164) && (len <=? length rest)%nat
      then rrs ← read_records n (drop len rest);
           Some (mkRR (be_value [t0; t1]) (be_value [c0; c1]) (be_value [x0; x1; x2; x3])
                   (take len rest) :: rrs)
      else None
  | _, _ => None
  end.

Definition read_reply (b : list byte) : option Reply :=
  match parseQuestion b with
  | Some (q, e, true) =>
      id ← u16 b 0; flags ← u16 b 2; an ← u16 b 6; ns ← u16 b 8; ar ← u16 b 10;
      rrs ← read_records (Z.to_nat (an + ns + ar)) (drop e b);
      Some (mkReply id (Z.testbit flags 15) (Z.testbit flags 8) (Z.land flags 15) q rrs)
  | _ => None
  end.

(** What the decision means on the wire: a response code and the records. *)
Definition decision_records (d : Decision) (q : Question) : option (Z * list RR) :=
  match d_Outcome d with
  | Address =>
      if q_Type q =? TypeA then
        Some (0, if IsValid (d_Address d)
                 then [mkRR TypeA 1 600 (be_bytes 4 (addr_val (d_Address d)))] else [])
      else if q_Type q =? TypeAAAA then Some (0, []) else None
  | PTR =>
      Some (0, if str_eqb (d_PTRName d) [] then []
               else [mkRR TypePTR 1 600 (encodeName (d_PTRName d))])
  | Unavailable => Some (2, [])
  | NoResponse | Passthrough => None
  end.

(** The decisions the gateway makes: IPv4 addresses and names that fit a record. *)
Definition decision_ok (d : Decision) : Prop :=
  (IsValid (d_Address d) = true -> Is4 (d_Address d) = true) /\
  Z.of_nat (length (encodeName (d_PTRName d))) < 65536.

Lemma reply_header_u16 h rc an off :
  length h = 12%nat -> (off = 0 \/ off = 4 \/ off = 8 \/ off = 10)%nat ->
  u16 (reply_header h rc an) off = u16 h off.
Proof.
  intros Hh Hoff. header12 h. by destruct an; destruct Hoff as [->|[->|[->| ->]]].
Qed.

Lemma reply_header_an h rc an :
  length h = 12%nat -> 0 <= default 0 an < 65536 ->
  u16 (reply_header h rc an) 6 = match an with Some n => Some n | None => u16 h 6 end.
Proof.
  intros Hh Han. header12 h. destruct an as [n|]; [|done]. cbn in Han.
  exact (u16_be [_; _; _; _; _; _] n [_; _; _; _] Han).
Qed.

Lemma reply_header_flags h rc an :
  length h = 12%nat -> rc = 0 \/ rc = 2 ->
  exists f f', u16 h 2 = Some f /\ u16 (reply_header h rc an) 2 = Some f' /\
    Z.testbit f' 15 = true /\ Z.testbit f' 8 = Z.testbit f 8 /\ Z.land f' 15 = rc.
Proof.
  intros Hh Hrc. header12 h. unfold reply_header, reply_flags.
  match goal with |- context [Z.land ?f 256] => set (f0 := f) end.
  exists f0. eexists. split; [done|]. split.
  { apply (u16_be [_; _] _ _). destruct (reply_flags_cases f0) as [-> | ->], Hrc as [-> | ->];
       by vm_compute. }
  split; [by destruct (reply_flags_cases f0) as [-> | ->], Hrc as [-> | ->]|].
  split; [|by destruct (reply_flags_cases f0) as [-> | ->], Hrc as [-> | ->]].
  rewrite !Z.lor_spec, Z.land_spec. change (Z.testbit 256 8) with true.
  destruct Hrc as [-> | ->]; change (Z.testbit 32768 8) with false;
    rewrite orb_false_l, andb_true_r; apply orb_false_r.
Qed.

(** A reply to [request] with the given code and records. *)
Definition reply_to (request : list byte) (q : Question) (rc : Z) (rrs : list RR) : option Reply :=
  id ← u16 request 0; flags ← u16 request 2;
  Some (mkReply id true (Z.testbit flags 8) rc q rrs).

Lemma be_value_be2 v : 0 <= v < 65536 ->
  be_value [byte_of (Z.shiftr v (8 * Z.of_nat 1)); byte_of (Z.shiftr v (8 * Z.of_nat 0))] = v.
Proof.
  intros Hv. cbn [be_value fold_left]. change (8 * Z.of_nat 1) with 8.
  change (8 * Z.of_nat 0) with 0. rewrite Z.shiftr_0_r, Z.mul_0_l, Z.add_0_l, be2_value.
  by apply Z.mod_small.
Qed.

Lemma read_record_bytes ty rdata n :
  0 <= ty < 65536 -> Z.of_nat (length rdata) < 65536 ->
  read_records (S n) (record_bytes ty rdata) =
    (rrs ← read_records n []; Some (mkRR ty 1 600 rdata :: rrs)).
Proof.
  intros Hty Hl. unfold record_bytes, uint16. rewrite wrap_small by lia.
  cbn [be_bytes app read_records].
  rewrite !be_value_be2 by lia. rewrite Nat2Z.id, Nat.leb_refl, drop_all, firstn_all. reflexivity.
Qed.

Lemma read_reply_shape h ls t c recs rc an n ns ar f0 :
  length h = 12%nat -> u16 h 4 = Some 1 -> Forall label_ok ls ->
  0 <= t < 65536 -> 0 <= c < 65536 -> rc = 0 \/ rc = 2 -> 0 <= default 0 an < 65536 ->
  u16 h 6 = Some f0 -> u16 h 8 = Some ns -> u16 h 10 = Some ar -> n = default f0 an ->
  read_reply (reply_header h rc an ++ question_bytes ls t c ++ recs) =
    (rrs ← read_records (Z.to_nat (n + ns + ar)) recs;
     reply_to h (mkQuestion (Join ls ".") t) rc rrs).
Proof.
  intros Hh H4 Hls Ht Hc Hrc Han H6 H8 H10 ->.
  pose proof (reply_header_length h rc an Hh) as Hl.
  destruct (reply_header_flags h rc an Hh Hrc) as (f & f' & Hf & Hf' & B15 & B8 & B0).
  unfold read_reply, reply_to.
  rewrite parseQuestion_complete by (try done; by rewrite reply_header_u16 by tauto).
  rewrite !u16_prefix by lia.
  rewrite Hf', Hf, reply_header_an by done.
  rewrite !(reply_header_u16 h rc an) by (done || tauto).
  destruct (u16_two h 0) as (? & ? & _ & ->); [lia|]. rewrite H6, H8, H10.
  cbn [mbind option_bind]. rewrite app_assoc, drop_app_length' by (rewrite length_app; lia).
  rewrite B15, B8, B0. by destruct an.
Qed.

Lemma reply_to_prefix h r q rc rrs :
  length h = 12%nat -> reply_to (h ++ r) q rc rrs = reply_to h q rc rrs.
Proof. intros. unfold reply_to. by rewrite !u16_prefix by lia. Qed.

(** The four kinds of reply bytes, read back. *)
Lemma reply_bytes_read h ls t c d :
  length h = 12%nat -> u16 h 4 = Some 1 -> Forall label_ok ls ->
  0 <= t < 65536 -> 0 <= c < 65536 -> decision_ok d ->
  u16 h 6 = Some 0 -> u16 h 8 = Some 0 -> u16 h 10 = Some 0 ->
  let q := mkQuestion (Join ls ".") t in
  let qs := question_bytes ls t c in
  (forall ip, ip = d_Address d -> IsValid ip = true ->
     read_reply (reply_header h 0 (Some 1) ++ qs ++ record_bytes TypeA (take 4 (AsSlice ip)))
     = reply_to h q 0 [mkRR TypeA 1 600 (be_bytes 4 (addr_val ip))]) /\
  read_reply (reply_header h 0 None ++ qs) = reply_to h q 0 [] /\
  read_reply (reply_header h 2 None ++ qs) = reply_to h q 2 [] /\
  read_reply (reply_header h 0 (Some 1) ++ qs ++ record_bytes TypePTR (encodeName (d_PTRName d)))
    = reply_to h q 0 [mkRR TypePTR 1 600 (encodeName (d_PTRName d))].
Proof.
  intros Hh H4 Hls Ht Hc [Hd4 Hdl] H6 H8 H10 q qs. split_and!.
  - intros ip -> Hv. specialize (Hd4 Hv).
    assert (Hs : take 4 (AsSlice (d_Address d)) = be_bytes 4 (addr_val (d_Address d))).
    { unfold Is4, AsSlice in *. by destruct (addr_kind _). }
    rewrite Hs. unfold qs. erewrite read_reply_shape; try done; try (by left).
    change (Z.to_nat _) with 1%nat.
    rewrite read_record_bytes by (rewrite ?be_bytes_length; done). done.
  - rewrite <-(app_nil_r qs). unfold qs. erewrite read_reply_shape; try done; try (by left). done.
  - rewrite <-(app_nil_r qs). unfold qs. erewrite read_reply_shape; try done; try (by right). done.
  - unfold qs. erewrite read_reply_shape; try done; try (by left).
    change (Z.to_nat _) with 1%nat.
    by rewrite read_record_bytes.
Qed.

Lemma Respond_reply {St} (decide : St -> Addr -> Question -> Decision * St)
    st st' request source q e d :
  parseQuestion request = Some (q, e, true) ->
  u16 request 6 = Some 0 -> u16 request 8 = Some 0 -> u16 request 10 = Some 0 ->
  decide st (sourceIP source) q = (d, st') -> decision_ok d ->
  exists response,
    Respond (Some decide) st request source
      = Some (response, bool_decide (d_Outcome d = Passthrough), st') /\
    (read_reply <$> response) = ((fun '(rc, rrs) => reply_to request q rc rrs) <$> decision_records d q).
Proof.
  intros Hp H6 H8 H10 Hd Hok.
  pose proof Hp as (h & ls & t & c & rest & -> & Hh & H4 & Hls & Ht & Hc & -> & ->)%parseQuestion_sound.
  rewrite u16_prefix in H6, H8, H10 by lia.
  unfold Respond. rewrite Hp. cbn [mbind option_bind negb]. rewrite Hd.
  rewrite !addressAnswer_shape, ptrAnswer_shape, serverFailure_shape by done.
  cbn [mbind option_bind q_Type].
  destruct (reply_bytes_read h ls t c d Hh H4 Hls Ht Hc Hok H6 H8 H10) as (R1 & R2 & R3 & R4).
  unfold decision_records. change (IsValid AddrZero) with false. cbn [q_Type].
  destruct (d_Outcome d); cbn [fmap option_fmap option_map]; try (eexists; split; reflexivity).
  - destruct (t =? TypeA); [destruct (IsValid (d_Address d)) eqn:Hv|destruct (t =? TypeAAAA)];
      eexists; (split; [reflexivity|]); cbn [fmap option_fmap option_map];
      rewrite ?reply_to_prefix by done; try done; apply f_equal; auto.
  - destruct (str_eqb (d_PTRName d) []); eexists; (split; [reflexivity|]);
      cbn [fmap option_fmap option_map]; rewrite reply_to_prefix by done; apply f_equal; auto.
  - eexists; (split; [reflexivity|]); cbn [fmap option_fmap option_map].
    rewrite reply_to_prefix by done. apply f_equal; auto.
Qed.

(** C20: a resolver reading the reply to a plain query (no answer, authority or
    additional records) sees the query's identifier, its RD bit and its question
    unchanged, the QR bit set, and exactly the response code and records that the
    domain decision stands for; a reply is absent exactly when the decision asks
    for none, and only [Passthrough] asks for forwarding. *)
Theorem Respond_reads_back {St} (decide : St -> Addr -> Question -> Decision * St)
    st st' request source q e d :
  parseQuestion request = Some (q, e, true) ->
  u16 request 6 = Some 0 -> u16 request 8 = Some 0 -> u16 request 10 = Some 0 ->
  decide st (sourceIP source) q = (d, st') -> decision_ok d ->
  exists response,
    Respond (Some decide) st request source
      = Some (response, bool_decide (d_Outcome d = Passthrough), st') /\
    (read_reply <$> response) = ((fun '(rc, rrs) => reply_to request q rc rrs) <$> decision_records d q).
Proof. apply Respond_reply. Qed.

(** ** A concrete exchange *)

Definition plain_header : list byte :=
  be_bytes 2 4660 ++ be_bytes 2 256 ++ be_bytes 2 1 ++ be_bytes 2 0 ++ be_bytes 2 0 ++ be_bytes 2 0.

Definition query (h : list byte) (name : str) (t : Z) : list byte :=
  h ++ encodeName name ++ be_bytes 2 t ++ be_bytes 2 1.

Lemma Respond_reads_back_witness :
  exists response,
    Respond (Some (fun st _ _ => (mkDecision Address (AddrFrom4 100 80 0 7) [], st))) tt
      (query plain_header "db.lab" TypeA) (UDPAddr (be_bytes 4 1681915905)) = Some (response, false, tt) /\
    (read_reply <$> response) =
      Some (Some (mkReply 4660 true true 0 (mkQuestion "db.lab" TypeA)
                    [mkRR TypeA 1 600 (be_bytes 4 1682964487)])).
Proof.
  apply (Respond_reads_back (fun st _ _ => (mkDecision Address (AddrFrom4 100 80 0 7) [], st)) tt tt
           (query plain_header "db.lab" TypeA) (UDPAddr (be_bytes 4 1681915905))
           (mkQuestion "db.lab" TypeA) 24 (mkDecision Address (AddrFrom4 100 80 0 7) []));
    vm_compute; try reflexivity.
  split; [|done]. done.
Defined.

(** ** Queries with additional records *)

Lemma read_records_too_few n ty rdata :
  0 <= ty < 65536 -> Z.of_nat (length rdata) < 65536 ->
  read_records (S (S n)) (record_bytes ty rdata) = None.
Proof. intros. by rewrite read_record_bytes by done. Qed.

Lemma records_overcounted h ls t c rc an n recs ar :
  length h = 12%nat -> u16 h 4 = Some 1 -> Forall label_ok ls ->
  0 <= t < 65536 -> 0 <= c < 65536 -> rc = 0 \/ rc = 2 ->
  u16 h 6 = Some 0 -> u16 h 8 = Some 0 -> u16 h 10 = Some ar -> 0 < ar ->
  (an = None /\ n = 0 /\ recs = []) \/
  (an = Some 1 /\ n = 1 /\ exists ty rdata,
     recs = record_bytes ty rdata /\ 0 <= ty < 65536 /\ Z.of_nat (length rdata) < 65536) ->
  read_reply (reply_header h rc an ++ question_bytes ls t c ++ recs) = None.
Proof.
  intros Hh H4 Hls Ht Hc Hrc H6 H8 H10 Har Hcase.
  erewrite (read_reply_shape h ls t c recs rc an n) by
    (try done; destruct Hcase as [(-> & -> & _)|(-> & -> & _)]; done).
  destruct Hcase as [(_ & -> & ->)|(_ & -> & ty & rdata & -> & Hty & Hl)].
  - by destruct (Z.to_nat (0 + 0 + ar)) eqn:E; [lia|].
  - replace (Z.to_nat (1 + 0 + ar)) with (S (S (Z.to_nat (ar - 1)))) by lia.
    by rewrite read_records_too_few.
Qed.

(** C39: the reply keeps the request's authority and additional counts but not its
    records.  For a query that carries an additional record, as every EDNS query
    does, any reply the server builds announces records it does not hold, and a
    resolver cannot read it. *)
Theorem additional_records_unreadable {St} (decide : St -> Addr -> Question -> Decision * St)
    st st' request source q e d ar response fwd :
  parseQuestion request = Some (q, e, true) ->
  u16 request 6 = Some 0 -> u16 request 8 = Some 0 -> u16 request 10 = Some ar -> 0 < ar ->
  decide st (sourceIP source) q = (d, st') -> decision_ok d ->
  Respond (Some decide) st request source = Some (Some response, fwd, st') ->
  read_reply response = None.
Proof.
  intros Hp H6 H8 H10 Har Hd [_ Hlen].
  pose proof Hp as (h & ls & t & c & rest & -> & Hh & H4 & Hls & Ht & Hc & -> & ->)%parseQuestion_sound.
  rewrite u16_prefix in H6, H8, H10 by lia.
  unfold Respond. rewrite Hp. cbn [mbind option_bind negb]. rewrite Hd.
  rewrite !addressAnswer_shape, ptrAnswer_shape, serverFailure_shape by done.
  cbn [mbind option_bind q_Type]. change (IsValid AddrZero) with false.
  assert (R0 : forall rc, rc = 0 \/ rc = 2 -> read_reply (reply_header h rc None ++ question_bytes ls t c) = None).
  { intros rc Hrc. rewrite <-(app_nil_r (question_bytes ls t c)).
    eapply (records_overcounted h ls t c rc None 0 []); eauto. }
  assert (R1 : forall ty rdata, 0 <= ty < 65536 -> Z.of_nat (length rdata) < 65536 ->
            read_reply (reply_header h 0 (Some 1) ++ question_bytes ls t c ++ record_bytes ty rdata) = None).
  { intros ty rdata ? ?. eapply (records_overcounted h ls t c 0 (Some 1) 1); eauto 10. }
  clear Hp. destruct (IsValid (d_Address d)) eqn:Hv;
    destruct (d_Outcome d); case_all; intros; simplify_eq; auto;
    apply R1; try done; by rewrite AsSlice_take_length.
Qed.

Definition edns_header : list byte :=
  be_bytes 2 4660 ++ be_bytes 2 256 ++ be_bytes 2 1 ++ be_bytes 2 0 ++ be_bytes 2 0 ++ be_bytes 2 1.

(** An EDNS query: the OPT record with a 1232-byte payload size. *)
Definition edns_query (name : str) (t : Z) : list byte :=
  query edns_header name t ++ [byte_of 0] ++ be_bytes 2 41 ++ be_bytes 2 1232 ++ be_bytes 4 0 ++ be_bytes 2 0.

Lemma additional_records_unreadable_witness :
  exists response,
    Respond (Some (fun st _ _ => (mkDecision Address (AddrFrom4 100 80 0 7) [], st))) tt
      (edns_query "db.lab" TypeA) (UDPAddr (be_bytes 4 1681915905)) = Some (Some response, false, tt) /\
    read_reply response = None.
Proof.
  eexists. split; [vm_compute; reflexivity|].
  apply (additional_records_unreadable
           (fun st _ _ => (mkDecision Address (AddrFrom4 100 80 0 7) [], st)) tt tt
           (edns_query "db.lab" TypeA) (UDPAddr (be_bytes 4 1681915905))
           (mkQuestion "db.lab" TypeA) 24 (mkDecision Address (AddrFrom4 100 80 0 7) []) 1 _ false);
    try (vm_compute; reflexivity).
  split; vm_compute; done.
Defined.

(** ** Names on the wire and reverse names *)

Lemma parse_encodeName h name t c rest :
  length h = 12%nat -> u16 h 4 = Some 1 -> 0 <= t < 65536 -> 0 <= c < 65536 ->
  Forall label_ok (Split (TrimSuffix name ".") ".") ->
  parseQuestion (h ++ encodeName name ++ be_bytes 2 t ++ be_bytes 2 c ++ rest) =
    Some (mkQuestion (TrimSuffix name ".") t, (12 + length (encodeName name) + 4)%nat, true).
Proof.
  intros Hh Hq Ht Hc Hls.
  pose proof (parseQuestion_complete h _ t c rest Hh Hq Hls Ht Hc) as Hp.
  unfold encodeName. fold (labels_bytes (Split (TrimSuffix name ".") ".")).
  change ("." : str) with ["."%char] in *. rewrite join_split_char in Hp.
  rewrite question_bytes_length in Hp. unfold question_bytes in Hp.
  rewrite <-!app_assoc in *. cbn [app] in *. rewrite <-!app_assoc in Hp. rewrite Hp.
  rewrite length_app. cbn [length]. do 3 f_equal. lia.
Qed.

(** A name all of whose labels have 1 to 63 bytes, with or without its final
    dot, is encoded so that the parser reads the same name back. *)
Theorem encodeName_parse h name t c rest :
  length h = 12%nat -> u16 h 4 = Some 1 -> 0 <= t < 65536 -> 0 <= c < 65536 ->
  Forall label_ok (Split (TrimSuffix name ".") ".") ->
  parseQuestion (h ++ encodeName name ++ be_bytes 2 t ++ be_bytes 2 c ++ rest) =
    Some (mkQuestion (TrimSuffix name ".") t, (12 + length (encodeName name) + 4)%nat, true).
Proof. apply parse_encodeName. Qed.

Lemma encodeName_parse_witness :
  parseQuestion (plain_header ++ encodeName "db.lab." ++ be_bytes 2 TypeA ++ be_bytes 2 1 ++ [])
    = Some (mkQuestion "db.lab" TypeA, 24%nat, true).
Proof.
  apply (encodeName_parse plain_header "db.lab." TypeA 1 []); try (vm_compute; reflexivity);
    try (by vm_compute).
  repeat constructor; cbn; lia.
Defined.

(** The name a client asks for the reverse mapping of [a.b.c.d]. *)
Definition reverse_name (a b c d : Z) : str :=
  Join [Itoa d; Itoa c; Itoa b; Itoa a; "in-addr" : str; "arpa" : str] ".".

Lemma octet_digits_Itoa n : 0 <= n < 256 -> octet_digits (Itoa n) 0 = Some n.
Proof. apply (forall_below (fun n => octet_digits (Itoa n) 0 = Some n) 256). by vm_compute. Qed.

Lemma Itoa_plain n : 0 <= n < 256 ->
  forallb (fun c => is_lower_ascii c && negb (Ascii.eqb c "."%char)) (Itoa n) = true.
Proof.
  apply (forall_below (fun n => forallb (fun c => is_lower_ascii c && negb (Ascii.eqb c "."%char)) (Itoa n) = true) 256).
  by vm_compute.
Qed.

Lemma plain_not_dot s :
  forallb (fun c => is_lower_ascii c && negb (Ascii.eqb c "."%char)) s = true -> "."%char ∉ s.
Proof.
  intros H Hin. rewrite forallb_Forall_true, Forall_forall in H. apply H in Hin. by bool_simp.
Qed.

Lemma plain_lower s :
  forallb (fun c => is_lower_ascii c && negb (Ascii.eqb c "."%char)) s = true ->
  forallb is_lower_ascii s = true.
Proof. rewrite !forallb_Forall_true. intros H. eapply Forall_impl; [exact H|]. cbn. intros x Hx. by bool_simp. Qed.

Lemma ReverseIPv4_round_trip `{UnicodeTable} a b c d dot :
  0 <= a < 256 -> 0 <= b < 256 -> 0 <= c < 256 -> 0 <= d < 256 -> dot = [] \/ dot = ("." : str) ->
  ReverseIPv4 (reverse_name a b c d ++ dot) = (AddrFrom4 a b c d, true).
Proof.
  intros Ha Hb Hc Hd Hdot. unfold ReverseIPv4.
  pose proof (Itoa_plain a Ha) as Pa. pose proof (Itoa_plain b Hb) as Pb.
  pose proof (Itoa_plain c Hc) as Pc. pose proof (Itoa_plain d Hd) as Pd.
  assert (Hlow : forallb is_lower_ascii (reverse_name a b c d ++ dot) = true).
  { unfold reverse_name. cbn [Join]. rewrite !forallb_app.
    rewrite (plain_lower _ Pa), (plain_lower _ Pb), (plain_lower _ Pc), (plain_lower _ Pd).
    by destruct Hdot as [-> | ->]. }
  rewrite ToLower_fixed by done.
  assert (Htrim : TrimSuffix (reverse_name a b c d ++ dot) "." = reverse_name a b c d).
  { destruct Hdot as [-> | ->]; [|apply TrimSuffix_app]. rewrite app_nil_r.
    apply TrimSuffix_id. intros s0 Hs. apply (f_equal last) in Hs.
    unfold reverse_name in Hs. cbn [Join] in Hs. rewrite !app_assoc, !last_app in Hs. done. }
  rewrite Htrim. unfold reverse_name.
  change ("." : str) with ["."%char]. rewrite split_join_char; [|done|].
  - cbn. by rewrite !octet_digits_Itoa.
  - repeat constructor; auto using plain_not_dot; apply plain_not_dot; done.
Qed.

(** The reverse name of every IPv4 address, with or without the final dot, is
    read back as that address. *)
Theorem ReverseIPv4_reverse_name `{UnicodeTable} a b c d dot :
  0 <= a < 256 -> 0 <= b < 256 -> 0 <= c < 256 -> 0 <= d < 256 -> dot = [] \/ dot = ("." : str) ->
  ReverseIPv4 (reverse_name a b c d ++ dot) = (AddrFrom4 a b c d, true).
Proof. apply ReverseIPv4_round_trip. Qed.

Lemma ReverseIPv4_reverse_name_witness :
  @ReverseIPv4 table_min (reverse_name 100 80 0 7 ++ ("." : str)) = (AddrFrom4 100 80 0 7, true).
Proof. apply (@ReverseIPv4_reverse_name table_min); [lia..|by right]. Defined.

Lemma octet_digits_bound s : forall n v, 0 <= n < 256 -> octet_digits s n = Some v -> 0 <= v < 256.
Proof.
  induction s as [|c s IH]; intros n v Hn Hv; cbn in Hv; [by simplify_eq|].
  destruct (is_digit c) eqn:Hc; [|done]. destruct (Z.ltb_spec 255 (uint16 (n * 10 + digit_val c))); [done|].
  eapply IH; [|done]. split; [|lia]. apply Z.mod_pos_bound. lia.
Qed.

(** A name that is not a reverse name of a whole address is refused; one that is
    accepted always denotes an IPv4 address. *)
Lemma ReverseIPv4_valid `{UnicodeTable} name a :
  ReverseIPv4 name = (a, true) -> exists v, a = Addr4 v /\ 0 <= v < 2 ^ 32.
Proof.
  unfold ReverseIPv4. intros Ha. repeat case_match; simplify_eq.
  repeat match goal with E : octet_digits _ 0 = Some _ |- _ => apply octet_digits_bound in E; [|lia] end.
  eexists. split; [done|]. lia.
Qed.
