(* ===== verification/DnsServe.v ===== *)
(** * DNS over UDP: the read loop

    [Server.Serve] of [internal/dnsudp/server.go]: one reader, a pool of buffers, and a
    goroutine per packet, of which a buffered channel lets 256 be active at a time.
    The loop and its goroutines are a step relation; a buffer is a cell of a heap that
    the reader fills and a handler reads, so that sharing one would show.

    What the domain decides is a relation here, since the decisions of concurrent
    requests interleave: [allowed source question decision]. *)

From stdpp Require Import list_tactics.
From S2P Require Import Prelude GoStrings NetAddr DnsWire DnsWireSpec.

(** The size of a buffer and the capacity of [jobs]. *)
Definition buffer_size : nat := N.to_nat 65535.
Definition max_jobs : nat := 256.

(** Where the reader is: before [pool.Get], in [ReadFrom], at [jobs <- struct{}{}], or
    returned. *)
Inductive reader :=
| RGet
| RRead (buf : nat)
| RSend (buf : nat) (n : nat) (source : NetAddr) (id : nat)
| RDone.

(** Where a handler is: before [Respond], before [WriteTo], before [forward], before
    [<-jobs], before [pool.Put]. *)
Inductive phase :=
| HRespond
| HWrite (response : list byte)
| HForward
| HRelease
| HPut.

(** A handler goroutine: its buffer, the length of its request, its peer.  [h_id] is the
    position of its packet among those received, and has no counterpart in the code. *)
Record handler := mkHandler {
  h_buf : nat; h_len : nat; h_source : NetAddr; h_id : nat; h_phase : phase }.

(** [sv_received] and [sv_sent] record the traffic; a sent datagram carries the position
    of the packet it answers.  [sv_crashed] is set by a panic in a handler. *)
Record server := mkServer {
  sv_reader : reader;
  sv_pool : list nat;
  sv_heap : gmap nat (list byte);
  sv_jobs : nat;
  sv_handlers : list handler;
  sv_received : list (list byte * NetAddr);
  sv_sent : list (nat * list byte * NetAddr);
  sv_crashed : bool;
}.

Definition server_init : server := mkServer RGet [] ∅ 0 [] [] [] false.

Definition set_phase (h : handler) (p : phase) : handler :=
  mkHandler (h_buf h) (h_len h) (h_source h) (h_id h) p.

(** [ReadFrom] fills the buffer from its start; a longer datagram is cut off. *)
Definition fill (buffer packet : list byte) : list byte :=
  take (length buffer) packet ++ drop (length packet) buffer.

Section serve.
Context (allowed : Addr -> Question -> Decision -> Prop).
(** The upstream resolver, if any: the replies it may give to a request within the two
    seconds [forward] waits. *)
Context (upstream : option (list byte -> option (list byte) -> Prop)).

Definition decides (f : Addr -> Question -> Decision) : Prop := forall src q, allowed src q (f src q).

Definition as_decide (f : Addr -> Question -> Decision) : Decide (St := unit) :=
  Some (fun st src q => (f src q, st)).

(** A possible result of the exchange with the upstream. *)
Definition exchanged (ex : option (list byte -> option (list byte))) : Prop :=
  match upstream, ex with
  | None, None => True
  | Some replies, Some ex => forall request, replies request (ex request)
  | _, _ => False
  end.

(** [request], the slice [buf[:n]]. *)
Definition request_of (s : server) (h : handler) : list byte :=
  take (h_len h) (default [] (sv_heap s !! h_buf h)).

Inductive serve_step : server -> server -> Prop :=
| ss_get_pooled s p1 b p2 :
    sv_reader s = RGet -> sv_pool s = p1 ++ b :: p2 ->
    serve_step s (mkServer (RRead b) (p1 ++ p2) (sv_heap s) (sv_jobs s) (sv_handlers s)
                    (sv_received s) (sv_sent s) (sv_crashed s))
| ss_get_new s b :
    sv_reader s = RGet -> sv_heap s !! b = None ->
    serve_step s (mkServer (RRead b) (sv_pool s) (<[b := replicate buffer_size (byte_of 0)]> (sv_heap s))
                    (sv_jobs s) (sv_handlers s) (sv_received s) (sv_sent s) (sv_crashed s))
| ss_collect s p1 b p2 :
    (* the pool may drop a buffer at any time *)
    sv_pool s = p1 ++ b :: p2 ->
    serve_step s (mkServer (sv_reader s) (p1 ++ p2) (sv_heap s) (sv_jobs s) (sv_handlers s)
                    (sv_received s) (sv_sent s) (sv_crashed s))
| ss_read s b buffer packet source :
    sv_reader s = RRead b -> sv_heap s !! b = Some buffer ->
    let n := Nat.min (length packet) (length buffer) in
    serve_step s (mkServer (RSend b n source (length (sv_received s))) (sv_pool s)
                    (<[b := fill buffer packet]> (sv_heap s)) (sv_jobs s) (sv_handlers s)
                    (sv_received s ++ [(take n packet, source)]) (sv_sent s) (sv_crashed s))
| ss_read_error s b :
    sv_reader s = RRead b ->
    serve_step s (mkServer RDone (b :: sv_pool s) (sv_heap s) (sv_jobs s) (sv_handlers s)
                    (sv_received s) (sv_sent s) (sv_crashed s))
| ss_spawn s b n source id :
    sv_reader s = RSend b n source id -> (sv_jobs s < max_jobs)%nat ->
    serve_step s (mkServer RGet (sv_pool s) (sv_heap s) (S (sv_jobs s))
                    (sv_handlers s ++ [mkHandler b n source id HRespond])
                    (sv_received s) (sv_sent s) (sv_crashed s))
| ss_respond s h1 h h2 f response fwd :
    sv_handlers s = h1 ++ h :: h2 -> h_phase h = HRespond -> decides f ->
    Respond (as_decide f) tt (request_of s h) (h_source h) = Some (response, fwd, tt) ->
    let p := match response with
             | Some response => HWrite response
             | None => if fwd : bool then HForward else HRelease
             end in
    serve_step s (mkServer (sv_reader s) (sv_pool s) (sv_heap s) (sv_jobs s) (h1 ++ set_phase h p :: h2)
                    (sv_received s) (sv_sent s) (sv_crashed s))
| ss_panic s h1 h h2 f :
    sv_handlers s = h1 ++ h :: h2 -> h_phase h = HRespond -> decides f ->
    Respond (as_decide f) tt (request_of s h) (h_source h) = None ->
    serve_step s (mkServer (sv_reader s) (sv_pool s) (sv_heap s) (sv_jobs s) (sv_handlers s)
                    (sv_received s) (sv_sent s) true)
| ss_write s h1 h h2 response (sent : bool) :
    (* the result of [WriteTo] is ignored *)
    sv_handlers s = h1 ++ h :: h2 -> h_phase h = HWrite response ->
    serve_step s (mkServer (sv_reader s) (sv_pool s) (sv_heap s) (sv_jobs s) (h1 ++ set_phase h HRelease :: h2)
                    (sv_received s)
                    (sv_sent s ++ if sent then [(h_id h, response, h_source h)] else []) (sv_crashed s))
| ss_forward s h1 h h2 ex (sent : bool) :
    sv_handlers s = h1 ++ h :: h2 -> h_phase h = HForward -> exchanged ex ->
    serve_step s (mkServer (sv_reader s) (sv_pool s) (sv_heap s) (sv_jobs s) (h1 ++ set_phase h HRelease :: h2)
                    (sv_received s)
                    (sv_sent s ++ match forward ex (request_of s h) with
                                  | Some reply => if sent then [(h_id h, reply, h_source h)] else []
                                  | None => []
                                  end) (sv_crashed s))
| ss_release s h1 h h2 :
    sv_handlers s = h1 ++ h :: h2 -> h_phase h = HRelease -> (0 < sv_jobs s)%nat ->
    serve_step s (mkServer (sv_reader s) (sv_pool s) (sv_heap s) (pred (sv_jobs s)) (h1 ++ set_phase h HPut :: h2)
                    (sv_received s) (sv_sent s) (sv_crashed s))
| ss_put s h1 h h2 :
    sv_handlers s = h1 ++ h :: h2 -> h_phase h = HPut ->
    serve_step s (mkServer (sv_reader s) (h_buf h :: sv_pool s) (sv_heap s) (sv_jobs s) (h1 ++ h2)
                    (sv_received s) (sv_sent s) (sv_crashed s)).

(** ** The invariant *)

(** What a request may be answered with: a response of [Respond] under some decision, or
    what the upstream replied when the decision was to pass it through. *)
Definition responds (packet : list byte) (source : NetAddr) (response : option (list byte)) (fwd : bool) : Prop :=
  exists f, decides f /\ Respond (as_decide f) tt packet source = Some (response, fwd, tt).

Definition reply_of (packet : list byte) (source : NetAddr) (reply : list byte) : Prop :=
  (exists fwd, responds packet source (Some reply) fwd) \/
  (responds packet source None true /\ exists ex, exchanged ex /\ forward ex packet = Some reply).

Definition reader_buf (r : reader) : list nat :=
  match r with RRead b | RSend b _ _ _ => [b] | RGet | RDone => [] end.

Definition reader_id (r : reader) : list nat := match r with RSend _ _ _ id => [id] | _ => [] end.

(** Every buffer the pool, the reader or a handler has. *)
Definition buffers (s : server) : list nat :=
  sv_pool s ++ reader_buf (sv_reader s) ++ (h_buf <$> sv_handlers s).

(** The packet a handler may still answer. *)
Definition owes (h : handler) : list nat :=
  match h_phase h with HRespond | HWrite _ | HForward => [h_id h] | HRelease | HPut => [] end.

(** The packets answered or still to be answered. *)
Definition packets (s : server) : list nat :=
  (sv_sent s).*1.*1 ++ reader_id (sv_reader s) ++ (sv_handlers s ≫= owes).

(** The handlers that hold a place in [jobs]. *)
Definition holds (h : handler) : list nat := match h_phase h with HPut => [] | _ => [h_id h] end.
Definition active (s : server) : list nat := sv_handlers s ≫= holds.

(** A buffer holds, up to [n], the packet received as number [id] from [source]. *)
Definition holds_packet (heap : gmap nat (list byte)) (received : list (list byte * NetAddr))
  (b n : nat) (source : NetAddr) (id : nat) : Prop :=
  received !! id = Some (take n (default [] (heap !! b)), source).

Definition handler_ok (heap : gmap nat (list byte)) (received : list (list byte * NetAddr)) (h : handler) : Prop :=
  holds_packet heap received (h_buf h) (h_len h) (h_source h) (h_id h) /\
  let packet := take (h_len h) (default [] (heap !! h_buf h)) in
  match h_phase h with
  | HWrite response => exists fwd, responds packet (h_source h) (Some response) fwd
  | HForward => responds packet (h_source h) None true
  | _ => True
  end.

Definition reader_ok (heap : gmap nat (list byte)) (received : list (list byte * NetAddr)) (r : reader) : Prop :=
  match r with RSend b n source id => holds_packet heap received b n source id | _ => True end.

Definition sent_ok (received : list (list byte * NetAddr)) (x : nat * list byte * NetAddr) : Prop :=
  exists packet, received !! x.1.1 = Some (packet, x.2) /\ reply_of packet x.2 x.1.2.

Record server_ok (s : server) : Prop := {
  so_crash : sv_crashed s = false;
  so_jobs : sv_jobs s = length (active s);
  so_bound : (sv_jobs s <= max_jobs)%nat;
  so_buffers : NoDup (buffers s);
  so_heap : Forall (fun b => is_Some (sv_heap s !! b)) (buffers s);
  so_packets : NoDup (packets s);
  so_ids : Forall (fun id => (id < length (sv_received s))%nat) (packets s);
  so_reader : reader_ok (sv_heap s) (sv_received s) (sv_reader s);
  so_handlers : Forall (handler_ok (sv_heap s) (sv_received s)) (sv_handlers s);
  so_sent : Forall (sent_ok (sv_received s)) (sv_sent s);
}.

Lemma server_init_ok : server_ok server_init.
Proof. split; cbn; repeat constructor. Qed.

(** Other buffers and later packets do not matter to a handler. *)
Lemma holds_packet_mono heap heap' received rest b n source id :
  heap' !! b = heap !! b -> holds_packet heap received b n source id ->
  holds_packet heap' (received ++ rest) b n source id.
Proof. unfold holds_packet. intros ->. apply lookup_app_l_Some. Qed.

Lemma handler_ok_mono heap heap' received rest h :
  heap' !! h_buf h = heap !! h_buf h -> handler_ok heap received h -> handler_ok heap' (received ++ rest) h.
Proof.
  intros E [Hp Hr]. split; [by eapply holds_packet_mono|]. by rewrite E.
Qed.

Lemma handlers_ok_mono heap heap' received rest hs :
  (forall h, h ∈ hs -> heap' !! h_buf h = heap !! h_buf h) ->
  Forall (handler_ok heap received) hs -> Forall (handler_ok heap' (received ++ rest)) hs.
Proof.
  rewrite !Forall_forall. intros E H h Hh. apply (handler_ok_mono heap); auto.
Qed.

Lemma sent_ok_mono received rest xs :
  Forall (sent_ok received) xs -> Forall (sent_ok (received ++ rest)) xs.
Proof.
  intros H. eapply Forall_impl; [exact H|]. intros x (packet & Hx & Hr). exists packet. split; [|done].
  by apply lookup_app_l_Some.
Qed.

(** A handler that moves on with its packet keeps buffers; what it owes and whether it
    holds a place is all that changes. *)
Lemma handler_moves hs1 h hs2 p :
  h_buf <$> hs1 ++ set_phase h p :: hs2 = h_buf <$> hs1 ++ h :: hs2.
Proof. by rewrite !fmap_app. Qed.

Lemma bind_split {A B} (f : A -> list B) l1 x l2 : (l1 ++ x :: l2) ≫= f ≡ₚ f x ++ ((l1 ++ l2) ≫= f).
Proof. rewrite !bind_app, bind_cons. solve_Permutation. Qed.

Lemma NoDup_submseteq {A} (l k : list A) : l ⊆+ k -> NoDup k -> NoDup l.
Proof. intros [k' ->]%submseteq_Permutation H. by apply NoDup_app in H as [? _]. Qed.

Lemma Forall_submseteq {A} (P : A -> Prop) (l k : list A) : l ⊆+ k -> Forall P k -> Forall P l.
Proof. intros [k' ->]%submseteq_Permutation H. by apply Forall_app in H as [? _]. Qed.

(** One handler moves to phase [p], having sent [sent]. *)
Lemma advance s h1 h h2 p sent jobs :
  server_ok s -> sv_handlers s = h1 ++ h :: h2 ->
  handler_ok (sv_heap s) (sv_received s) (set_phase h p) -> Forall (sent_ok (sv_received s)) sent ->
  sent.*1.*1 ++ owes (set_phase h p) ⊆+ owes h ->
  (jobs + length (holds h) = sv_jobs s + length (holds (set_phase h p)))%nat ->
  (jobs <= max_jobs)%nat ->
  server_ok (mkServer (sv_reader s) (sv_pool s) (sv_heap s) jobs (h1 ++ set_phase h p :: h2)
               (sv_received s) (sv_sent s ++ sent) (sv_crashed s)).
Proof.
  intros [Hc Hj Hb Hbuf Hheap Hpk Hids Hr Hh Hs] Eh Hok Hsent Howes Hjobs Hmax.
  assert (Hsub : packets (mkServer (sv_reader s) (sv_pool s) (sv_heap s) jobs (h1 ++ set_phase h p :: h2)
               (sv_received s) (sv_sent s ++ sent) (sv_crashed s)) ⊆+ packets s).
  { unfold packets. cbn. rewrite Eh, !bind_split, !fmap_app.
    transitivity ((sv_sent s).*1.*1 ++ reader_id (sv_reader s) ++ (sent.*1.*1 ++ owes (set_phase h p)) ++ ((h1 ++ h2) ≫= owes)).
    - apply Permutation_submseteq. solve_Permutation.
    - by apply submseteq_app, submseteq_app, submseteq_app. }
  unfold active in Hj. rewrite Eh, bind_split, length_app in Hj.
  unfold buffers in Hbuf, Hheap. rewrite Eh, <-(handler_moves h1 h h2 p) in Hbuf, Hheap.
  rewrite Eh, Forall_app, Forall_cons in Hh. destruct Hh as (Hh1 & _ & Hh2).
  split; cbn; try done.
  - unfold active. cbn. rewrite bind_split, length_app. lia.
  - by eapply NoDup_submseteq.
  - by eapply Forall_submseteq.
  - apply Forall_app. split; [done|]. by constructor.
  - by apply Forall_app.
Qed.

(** The buffer the reader has is no one else's. *)
Lemma reader_buffer_free s b :
  server_ok s -> reader_buf (sv_reader s) = [b] -> forall h, h ∈ sv_handlers s -> h_buf h <> b.
Proof.
  intros Hs Er h Hh <-. pose proof (so_buffers _ Hs) as Hn. unfold buffers in Hn. rewrite Er in Hn.
  apply NoDup_app in Hn as (_ & _ & Hn). apply NoDup_app in Hn as (_ & Hn & _).
  eapply Hn; [by apply list_elem_of_singleton|]. by apply list_elem_of_fmap_2.
Qed.

Lemma take_fill buffer packet n :
  n = Nat.min (length packet) (length buffer) -> take n (fill buffer packet) = take n packet.
Proof.
  intros ->. unfold fill. rewrite take_app, take_take, length_take.
  replace (_ - _)%nat with 0%nat by lia. rewrite app_nil_r. f_equal. lia.
Qed.

(** A packet arrives in the reader's buffer. *)
Lemma read_ok s b buffer packet source :
  server_ok s -> sv_reader s = RRead b -> sv_heap s !! b = Some buffer ->
  let n := Nat.min (length packet) (length buffer) in
  server_ok (mkServer (RSend b n source (length (sv_received s))) (sv_pool s)
               (<[b := fill buffer packet]> (sv_heap s)) (sv_jobs s) (sv_handlers s)
               (sv_received s ++ [(take n packet, source)]) (sv_sent s) (sv_crashed s)).
Proof.
  intros Hs Er Eb n. pose proof Hs as [Hc Hj Hb Hbuf Hheap Hpk Hids _ Hh Hsent].
  unfold buffers in Hbuf, Hheap. rewrite Er in Hbuf, Hheap.
  unfold packets in Hpk, Hids. rewrite Er in Hpk, Hids. cbn in Hpk, Hids.
  assert (Hperm : packets (mkServer (RSend b n source (length (sv_received s))) (sv_pool s)
               (<[b := fill buffer packet]> (sv_heap s)) (sv_jobs s) (sv_handlers s)
               (sv_received s ++ [(take n packet, source)]) (sv_sent s) (sv_crashed s))
            ≡ₚ length (sv_received s) :: (sv_sent s).*1.*1 ++ (sv_handlers s ≫= owes)).
  { unfold packets. cbn. solve_Permutation. }
  split; cbn; try done.
  - eapply Forall_impl; [exact Hheap|]. cbn. intros b' [x Hx]. apply lookup_insert_is_Some'. right. by eexists.
  - rewrite Hperm. constructor; [|done]. intros Hin. rewrite Forall_forall in Hids.
    specialize (Hids _ Hin). lia.
  - rewrite Hperm, length_app. cbn. constructor; [lia|]. eapply Forall_impl; [exact Hids|]. cbn. lia.
  - unfold holds_packet. rewrite lookup_insert_eq. cbn. rewrite take_fill by done.
    by rewrite lookup_app_r, Nat.sub_diag by lia.
  - apply (handlers_ok_mono (sv_heap s)); [|done]. intros h Hin. apply lookup_insert_ne.
    apply not_eq_sym. eapply reader_buffer_free; [done|by rewrite Er|done].
  - by apply sent_ok_mono.
Qed.

(** The reader and the pool trade buffers: the reader goes to [r], which holds no
    packet, and the pool becomes [pool]. *)
Lemma trade_ok s r pool :
  server_ok s -> reader_id (sv_reader s) = [] -> reader_id r = [] ->
  pool ++ reader_buf r ⊆+ sv_pool s ++ reader_buf (sv_reader s) ->
  server_ok (mkServer r pool (sv_heap s) (sv_jobs s) (sv_handlers s) (sv_received s) (sv_sent s) (sv_crashed s)).
Proof.
  intros [Hc Hj Hb Hbuf Hheap Hpk Hids Hr Hh Hsent] E0 E1 Hsub.
  assert (Hb' : pool ++ reader_buf r ++ (h_buf <$> sv_handlers s) ⊆+ buffers s).
  { unfold buffers. rewrite !(assoc_L (++)). by apply submseteq_app. }
  unfold packets in Hpk, Hids. rewrite E0 in Hpk, Hids.
  split; cbn; try done.
  - by eapply NoDup_submseteq.
  - by eapply Forall_submseteq.
  - unfold packets. cbn. by rewrite E1.
  - unfold packets. cbn. by rewrite E1.
  - by destruct r.
Qed.

(** A buffer the pool drops while the reader is elsewhere. *)
Lemma collect_ok s pool :
  server_ok s -> pool ⊆+ sv_pool s ->
  server_ok (mkServer (sv_reader s) pool (sv_heap s) (sv_jobs s) (sv_handlers s) (sv_received s) (sv_sent s) (sv_crashed s)).
Proof.
  intros [Hc Hj Hb Hbuf Hheap Hpk Hids Hr Hh Hsent] Hsub.
  assert (Hb' : pool ++ reader_buf (sv_reader s) ++ (h_buf <$> sv_handlers s) ⊆+ buffers s)
    by (by apply submseteq_app).
  split; cbn; try done; [by eapply NoDup_submseteq|by eapply Forall_submseteq].
Qed.

Lemma new_buffer_ok s b :
  server_ok s -> sv_reader s = RGet -> sv_heap s !! b = None ->
  server_ok (mkServer (RRead b) (sv_pool s) (<[b := replicate buffer_size (byte_of 0)]> (sv_heap s))
               (sv_jobs s) (sv_handlers s) (sv_received s) (sv_sent s) (sv_crashed s)).
Proof.
  intros Hs Er Eb. pose proof Hs as [Hc Hj Hb Hbuf Hheap Hpk Hids _ Hh Hsent].
  assert (Hperm : sv_pool s ++ [b] ++ (h_buf <$> sv_handlers s) ≡ₚ b :: buffers s).
  { unfold buffers. rewrite Er. solve_Permutation. }
  assert (Hout : b ∉ buffers s).
  { intros Hin. rewrite Forall_forall in Hheap. destruct (Hheap _ Hin). congruence. }
  unfold packets in Hpk, Hids. rewrite Er in Hpk, Hids. split; cbn; try done.
  - unfold buffers. cbn [sv_pool sv_reader sv_handlers reader_buf]. rewrite Hperm. by constructor.
  - unfold buffers. cbn [sv_pool sv_reader sv_handlers reader_buf]. rewrite Hperm. constructor.
    + rewrite lookup_insert_eq. by eexists.
    + eapply Forall_impl; [exact Hheap|]. intros b' Hb'. apply lookup_insert_is_Some'. by right.
  - rewrite <-(app_nil_r (sv_received s)). apply (handlers_ok_mono (sv_heap s)); [|done].
    intros h Hin. apply lookup_insert_ne. intros ->. apply Hout. unfold buffers.
    do 2 (apply elem_of_app; right). by apply list_elem_of_fmap_2.
Qed.

Lemma spawn_ok s b n source id :
  server_ok s -> sv_reader s = RSend b n source id -> (sv_jobs s < max_jobs)%nat ->
  server_ok (mkServer RGet (sv_pool s) (sv_heap s) (S (sv_jobs s))
               (sv_handlers s ++ [mkHandler b n source id HRespond])
               (sv_received s) (sv_sent s) (sv_crashed s)).
Proof.
  intros [Hc Hj Hb Hbuf Hheap Hpk Hids Hr Hh Hsent] Er Hlt.
  unfold buffers, packets in *. rewrite Er in *. cbn in Hr, Hbuf, Hheap, Hpk, Hids.
  assert (E1 : sv_pool s ++ (h_buf <$> sv_handlers s ++ [mkHandler b n source id HRespond])
             ≡ₚ sv_pool s ++ b :: (h_buf <$> sv_handlers s)).
  { rewrite fmap_app. cbn. solve_Permutation. }
  assert (E2 : (sv_sent s).*1.*1 ++ ((sv_handlers s ++ [mkHandler b n source id HRespond]) ≫= owes)
             ≡ₚ (sv_sent s).*1.*1 ++ id :: (sv_handlers s ≫= owes)).
  { rewrite bind_app. cbn. solve_Permutation. }
  split; unfold buffers, packets; cbn [sv_pool sv_reader sv_handlers sv_jobs sv_heap sv_sent sv_received
    sv_crashed reader_buf reader_id app]; rewrite ?E1, ?E2; try done.
  - unfold active in *. cbn. rewrite bind_app, length_app. cbn. lia.
  - apply Forall_app. split; [done|]. by repeat constructor.
Qed.

Lemma put_ok s h1 h h2 :
  server_ok s -> sv_handlers s = h1 ++ h :: h2 -> h_phase h = HPut ->
  server_ok (mkServer (sv_reader s) (h_buf h :: sv_pool s) (sv_heap s) (sv_jobs s) (h1 ++ h2)
               (sv_received s) (sv_sent s) (sv_crashed s)).
Proof.
  intros [Hc Hj Hb Hbuf Hheap Hpk Hids Hr Hh Hsent] Eh Ep.
  assert (Eo : owes h = []) by (unfold owes; by rewrite Ep).
  assert (Ea : holds h = []) by (unfold holds; by rewrite Ep).
  unfold buffers, packets, active in *. rewrite Eh, bind_split in Hj.
  rewrite Eh, bind_split, Eo in Hpk, Hids. rewrite Ea in Hj.
  assert (E1 : (h_buf h :: sv_pool s) ++ reader_buf (sv_reader s) ++ (h_buf <$> h1 ++ h2)
            ≡ₚ sv_pool s ++ reader_buf (sv_reader s) ++ (h_buf <$> h1 ++ h :: h2)).
  { rewrite !fmap_app. cbn [fmap list_fmap]. solve_Permutation. }
  rewrite Eh, <-E1 in Hbuf, Hheap. rewrite Eh, Forall_app, Forall_cons in Hh. destruct Hh as (? & _ & ?).
  split; try done. cbn. by apply Forall_app.
Qed.

Lemma serve_step_ok s s' : server_ok s -> serve_step s s' -> server_ok s'.
Proof.
  intros Hs Hstep. pose proof (so_bound _ Hs). destruct Hstep as
    [s p1 b p2 Er Ep|s b Er Eb|s p1 b p2 Ep|s b buffer packet source Er Eb n|s b Er|s b n source id Er Hlt
    |s h1 h h2 f response fwd Eh Ep Hf Hr p|s h1 h h2 f Eh Ep Hf Hr|s h1 h h2 response sent Eh Ep
    |s h1 h h2 ex sent Eh Ep Hx|s h1 h h2 Eh Ep Hj|s h1 h h2 Eh Ep].
  - apply trade_ok; [done|by rewrite Er|done|]. rewrite Er, Ep. apply Permutation_submseteq. cbn. solve_Permutation.
  - by apply new_buffer_ok.
  - apply collect_ok; [done|]. rewrite Ep. apply submseteq_app; [done|]. by apply submseteq_cons.
  - by apply read_ok.
  - apply trade_ok; [done|by rewrite Er|done|]. rewrite Er. apply Permutation_submseteq. cbn. solve_Permutation.
  - by apply spawn_ok.
  - pose proof (so_handlers _ Hs) as Hh. rewrite Eh, Forall_app, Forall_cons in Hh. destruct Hh as (_ & [Hp _] & _).
    rewrite <-(app_nil_r (sv_sent s)). apply advance; [done|done| |constructor| | |done].
    + split; [done|]. cbn. assert (Hresp : responds (request_of s h) (h_source h) response fwd) by (by exists f).
      unfold p. destruct response; [by eexists|]. by destruct fwd.
    + unfold owes at 2. rewrite Ep. cbn. unfold owes. cbn. unfold p.
      destruct response; [done|]. destruct fwd; [done|]. by apply submseteq_nil_l.
    + unfold holds. rewrite Ep. cbn. unfold p. destruct response; [done|]. by destruct fwd.
  - exfalso. destruct (Respond_defined (as_decide f) tt (request_of s h) (h_source h)) as (? & ? & ? & ?). congruence.
  - pose proof (so_handlers _ Hs) as Hh. rewrite Eh, Forall_app, Forall_cons in Hh.
    destruct Hh as (_ & [Hp Hr] & _). rewrite Ep in Hr. apply advance; [done|done|by split| | | |done].
    + destruct sent; constructor; [|done]. eexists. split; [exact Hp|]. by left.
    + unfold owes. rewrite Ep. cbn. destruct sent; [done|]. by apply submseteq_nil_l.
    + unfold holds. by rewrite Ep.
  - pose proof (so_handlers _ Hs) as Hh. rewrite Eh, Forall_app, Forall_cons in Hh.
    destruct Hh as (_ & [Hp Hr] & _). rewrite Ep in Hr. apply advance; [done|done|by split| | | |done].
    + destruct (forward ex (request_of s h)) eqn:E; [destruct sent|]; constructor; [|done].
      eexists. split; [exact Hp|]. right. eauto.
    + unfold owes. rewrite Ep. cbn. destruct (forward _ _); [destruct sent|]; try done; by apply submseteq_nil_l.
    + unfold holds. by rewrite Ep.
  - pose proof (so_handlers _ Hs) as Hh. rewrite Eh, Forall_app, Forall_cons in Hh. destruct Hh as (_ & [Hp _] & _).
    rewrite <-(app_nil_r (sv_sent s)). apply advance; [done|done|by split|constructor| | |lia].
    + unfold owes. by rewrite Ep.
    + unfold holds. rewrite Ep. cbn. lia.
  - by apply put_ok.
Qed.

Lemma serve_reachable_ok s : rtc serve_step server_init s -> server_ok s.
Proof.
  apply (rtc_ind_r server_ok); [apply server_init_ok|]. intros s1 s2 _ Hstep Hs. by eapply serve_step_ok.
Qed.

(** ** Draining *)

Context (f : Addr -> Question -> Decision) (Hf : decides f).
Context (ex : option (list byte -> option (list byte))) (Hx : exchanged ex).

(** What a handler does not touch. *)
Definition same_reads (s s' : server) : Prop :=
  sv_reader s' = sv_reader s /\ sv_received s' = sv_received s.

(** The handlers of [s] can become [hs]. *)
Definition finishes (s : server) (hs : list handler) : Prop :=
  exists s', rtc serve_step s s' /\ sv_handlers s' = hs /\ same_reads s s'.

Lemma finishes_step s s1 hs :
  server_ok s -> serve_step s s1 -> same_reads s s1 -> (server_ok s1 -> finishes s1 hs) -> finishes s hs.
Proof.
  intros Hs Hstep [Er Ec] Hrest.
  destruct (Hrest (serve_step_ok _ _ Hs Hstep)) as (s' & Hr & ? & E3 & E4).
  exists s'. split; [by eapply rtc_l|]. split; [done|]. split; congruence.
Qed.

Lemma finish_from_put s h hs : sv_handlers s = h :: hs -> h_phase h = HPut -> finishes s hs.
Proof.
  intros Eh Ep. eexists. split; [apply rtc_once; by apply (ss_put s [] h hs)|]. done.
Qed.

Lemma finish_from_release s h hs :
  server_ok s -> sv_handlers s = h :: hs -> h_phase h = HRelease -> finishes s hs.
Proof.
  intros Hs Eh Ep. pose proof (so_jobs _ Hs) as Hj. unfold active in Hj. rewrite Eh, bind_cons, length_app in Hj.
  unfold holds in Hj at 1. rewrite Ep in Hj. cbn in Hj.
  eapply finishes_step; [done|apply (ss_release s [] h hs Eh Ep); lia|done|]. intros _.
  by apply (finish_from_put _ (set_phase h HPut)).
Qed.

Lemma finish_from_write s h hs r :
  server_ok s -> sv_handlers s = h :: hs -> h_phase h = HWrite r -> finishes s hs.
Proof.
  intros Hs Eh Ep. eapply finishes_step; [done|apply (ss_write s [] h hs r true Eh Ep)|done|].
  intros Hs'. by apply (finish_from_release _ (set_phase h HRelease)).
Qed.

Lemma finish_from_forward s h hs :
  server_ok s -> sv_handlers s = h :: hs -> h_phase h = HForward -> finishes s hs.
Proof.
  intros Hs Eh Ep. eapply finishes_step; [done|apply (ss_forward s [] h hs ex true Eh Ep Hx)|done|].
  intros Hs'. by apply (finish_from_release _ (set_phase h HRelease)).
Qed.

Lemma finish_handler s h hs : server_ok s -> sv_handlers s = h :: hs -> finishes s hs.
Proof.
  intros Hs Eh. destruct (h_phase h) as [|r| | |] eqn:Ep;
    eauto using finish_from_write, finish_from_forward, finish_from_release, finish_from_put.
  destruct (Respond_defined (as_decide f) tt (request_of s h) (h_source h)) as (response & fwd & [] & Hr).
  eapply finishes_step; [done|apply (ss_respond s [] h hs f response fwd Eh Ep Hf Hr)|done|]. intros Hs'.
  destruct response as [r|]; [by eapply (finish_from_write _ (set_phase h (HWrite r)))|].
  destruct fwd; [by apply (finish_from_forward _ (set_phase h HForward))|].
  by apply (finish_from_release _ (set_phase h HRelease)).
Qed.

Lemma drain_handlers s :
  server_ok s -> finishes s [].
Proof.
  remember (sv_handlers s) as hs eqn:Eh. revert s Eh. induction hs as [|h hs IH]; intros s Eh Hs.
  { exists s. done. }
  destruct (finish_handler s h hs Hs (eq_sym Eh)) as (s1 & Hr1 & E1 & Er1 & Ec1).
  assert (Hs1 : server_ok s1).
  { clear -Hr1 Hs. induction Hr1; [done|]. apply IHHr1. by eapply serve_step_ok. }
  destruct (IH s1 (eq_sym E1) Hs1) as (s2 & Hr2 & E2 & Er2 & Ec2).
  exists s2. split; [by etrans|]. split; [done|]. split; congruence.
Qed.
End serve.

(** ** Weaker relations of decisions *)

Section weaken.
Context (allowed allowed' : Addr -> Question -> Decision -> Prop).
Context (upstream : option (list byte -> option (list byte) -> Prop)).
Context (Himp : forall src q d, allowed src q d -> allowed' src q d).

Lemma decides_weaken f : decides allowed f -> decides allowed' f.
Proof. intros H src q. apply Himp, H. Qed.

Lemma responds_weaken packet source response fwd :
  responds allowed packet source response fwd -> responds allowed' packet source response fwd.
Proof. intros (f & Hf & Hr). exists f. split; [by apply decides_weaken|done]. Qed.

Lemma serve_step_weaken s s' : serve_step allowed upstream s s' -> serve_step allowed' upstream s s'.
Proof. destruct 1; econstructor; eauto using decides_weaken. Qed.

Lemma server_ok_weaken s : server_ok allowed upstream s -> server_ok allowed' upstream s.
Proof.
  intros [Hc Hj Hb Hbuf Hheap Hpk Hids Hr Hh Hs]. split; try done.
  - eapply Forall_impl; [exact Hh|]. intros h [Hp Hok]. split; [done|].
    destruct (h_phase h); try done; [destruct Hok as [fwd Hok]; exists fwd|]; by apply responds_weaken.
  - eapply Forall_impl; [exact Hs|]. intros x (packet & Hx & [[fwd Ho]|[Ho Hex]]); exists packet; (split; [done|]).
    + left. exists fwd. by apply responds_weaken.
    + right. split; [by apply responds_weaken|done].
Qed.
End weaken.

(** C17: the read loop, for any traffic, scheduling and decisions.  No handler panics; at
    most 256 handlers hold a place in [jobs], one place each; no two of the pool, the
    reader and the handlers share a buffer, so each handler works on the very packet
    that was read for it; and every datagram sent goes to the sender of a packet, as a
    reply to that packet, at most one per packet. *)
Theorem serve_safety allowed upstream s :
  rtc (serve_step allowed upstream) server_init s ->
  sv_crashed s = false /\
  sv_jobs s = length (active s) /\ (sv_jobs s <= 256)%nat /\
  NoDup (buffers s) /\
  (forall h, h ∈ sv_handlers s -> sv_received s !! h_id h = Some (request_of s h, h_source h)) /\
  (forall id reply peer, (id, reply, peer) ∈ sv_sent s ->
     exists packet, sv_received s !! id = Some (packet, peer) /\ reply_of allowed upstream packet peer reply) /\
  NoDup (sv_sent s).*1.*1.
Proof.
  intros Hr. destruct (serve_reachable_ok _ _ s Hr) as [Hc Hj Hb Hbuf _ Hpk _ _ Hh Hsent].
  split_and!; try done.
  - intros h Hin. rewrite Forall_forall in Hh. by destruct (Hh h Hin).
  - intros id reply peer Hin. rewrite Forall_forall in Hsent. exact (Hsent _ Hin).
  - by apply NoDup_app in Hpk as [? _].
Qed.

(** C18: the bound never deadlocks the server: whatever state it has reached, its
    handlers can all finish without another packet arriving, and then a packet that was
    waiting for a place gets a handler. *)
Theorem serve_drains allowed upstream f ex s :
  decides allowed f -> exchanged upstream ex ->
  rtc (serve_step allowed upstream) server_init s ->
  exists s', rtc (serve_step allowed upstream) s s' /\ sv_handlers s' = [] /\ sv_jobs s' = 0%nat /\
    sv_received s' = sv_received s /\
    forall b n source id, sv_reader s = RSend b n source id ->
      exists s'', serve_step allowed upstream s' s'' /\ sv_handlers s'' = [mkHandler b n source id HRespond].
Proof.
  intros Hf Hx Hr. destruct (drain_handlers _ _ f Hf ex Hx s (serve_reachable_ok _ _ s Hr)) as (s' & Hd & E & Er & Ec).
  assert (Hs' : server_ok allowed upstream s').
  { apply serve_reachable_ok. by etrans. }
  pose proof (so_jobs _ _ _ Hs') as Hj. unfold active in Hj. rewrite E in Hj. cbn in Hj.
  exists s'. split_and!; try done. intros b n source id Es.
  eexists. split; [apply (ss_spawn _ _ s' b n source id); [congruence|rewrite Hj; unfold max_jobs; lia]|].
  cbn. by rewrite E.
Qed.

(** ** A run *)

Definition one_address (_ : Addr) (_ : Question) (d : Decision) : Prop :=
  d = mkDecision Address (AddrFrom4 100 80 0 7) [].

Definition packet1 : list byte := query plain_header "db.lab" TypeA.
Definition peer1 : NetAddr := UDPAddr (be_bytes 4 1681915905).

Lemma one_address_decides : decides one_address (fun _ _ => mkDecision Address (AddrFrom4 100 80 0 7) []).
Proof. by intros ??. Qed.

Definition buffer0 : list byte := replicate buffer_size (byte_of 0).

Lemma packet1_fits : 24%nat = Nat.min (length packet1) (length buffer0).
Proof.
  unfold buffer0, buffer_size. rewrite length_replicate. change (length packet1) with 24%nat. lia.
Qed.

(** The packet has been read into a new buffer. *)
Definition packet_read : server :=
  mkServer (RSend 0 24 peer1 0) [] {[ 0%nat := fill buffer0 packet1 ]} 0 [] [(packet1, peer1)] [] false.

Lemma packet_read_reachable upstream : rtc (serve_step one_address upstream) server_init packet_read.
Proof.
  eapply rtc_l; [by apply (ss_get_new _ _ server_init 0)|]. apply rtc_once.
  match goal with |- serve_step _ _ ?s _ => set (s1 := s) end.
  pose proof (ss_read one_address upstream s1 0 buffer0 packet1 peer1 eq_refl) as Hstep.
  replace packet_read with
    (mkServer (RSend 0 (Nat.min (length packet1) (length buffer0)) peer1 (length (sv_received s1))) (sv_pool s1)
       (<[0%nat := fill buffer0 packet1]> (sv_heap s1)) (sv_jobs s1) (sv_handlers s1)
       (sv_received s1 ++ [(take (Nat.min (length packet1) (length buffer0)) packet1, peer1)]) (sv_sent s1)
       (sv_crashed s1)).
  - apply Hstep. cbn. by rewrite lookup_insert_eq.
  - rewrite <-packet1_fits. cbn. unfold packet_read. by rewrite insert_insert_eq.
Qed.

Lemma serve_drains_witness :
  exists s', rtc (serve_step one_address None) packet_read s' /\ sv_handlers s' = [] /\ sv_jobs s' = 0%nat /\
    sv_received s' = sv_received packet_read /\
    forall b n source id, sv_reader packet_read = RSend b n source id ->
      exists s'', serve_step one_address None s' s'' /\ sv_handlers s'' = [mkHandler b n source id HRespond].
Proof.
  apply (serve_drains one_address None (fun _ _ => mkDecision Address (AddrFrom4 100 80 0 7) []) None packet_read).
  - apply one_address_decides.
  - exact I.
  - apply packet_read_reachable.
Defined.

(** The reply to the packet, and the state after it has been sent. *)
Definition reply1 : list byte :=
  default [] (addressAnswer packet1 24 (AddrFrom4 100 80 0 7)).

Definition packet_in_phase (p : phase) (sent : list (nat * list byte * NetAddr)) : server :=
  mkServer RGet [] {[ 0%nat := fill buffer0 packet1 ]} 1 [mkHandler 0 24 peer1 0 p] [(packet1, peer1)] sent false.

Definition packet_answered : server := packet_in_phase HRelease [(0%nat, reply1, peer1)].

Lemma packet_answered_reachable upstream : rtc (serve_step one_address upstream) server_init packet_answered.
Proof.
  etrans; [apply packet_read_reachable|]. apply (rtc_l _ _ (packet_in_phase HRespond [])).
  { apply (ss_spawn _ _ packet_read 0 24 peer1 0); [done|unfold max_jobs; cbn; lia]. }
  apply (rtc_l _ _ (packet_in_phase (HWrite reply1) [])).
  - apply (ss_respond _ _ (packet_in_phase HRespond []) [] (mkHandler 0 24 peer1 0 HRespond) []
             (fun _ _ => mkDecision Address (AddrFrom4 100 80 0 7) []) (Some reply1) false);
      [done|done|apply one_address_decides|].
    unfold request_of, packet_in_phase. cbn [sv_heap h_buf h_len h_source]. rewrite lookup_singleton_eq.
    cbn [default from_option id]. rewrite take_fill by apply packet1_fits. by vm_compute.
  - apply rtc_once.
    by apply (ss_write _ _ (packet_in_phase (HWrite reply1) []) [] (mkHandler 0 24 peer1 0 (HWrite reply1)) [] reply1 true).
Qed.

Lemma serve_safety_witness :
  exists packet, sv_received packet_answered !! 0%nat = Some (packet, peer1) /\
    reply_of one_address None packet peer1 reply1.
Proof.
  destruct (serve_safety one_address None packet_answered (packet_answered_reachable None))
    as (_ & _ & _ & _ & _ & Hsent & _).
  apply Hsent. apply list_elem_of_here.
Defined.
