(* ===== verification/Tags.v ===== *)
(** * The [.tags] namespace

    [internal/domain/tags.go] and [taggedNodes], [TaggedNodes] of
    [internal/domain/service.go]: tag expressions resolved against the tailnet
    inventory.  A node's tag map is a set; the inventory call is a parameter that
    succeeds with nodes or fails. *)

From stdpp Require Import sorting.
From S2P Require Import Prelude GoStrings NetAddr Json.

Record TaggedNode := mkTaggedNode { t_Address : str; t_Tags : gset str }.

(** ** The inventory *)

(** A nil capability map is [None]. *)
Record statusNode := mkStatusNode {
  n_TailscaleIPs : list Addr; n_Tags : list str; n_CapMap : option (gmap str json) }.

(** Go's [<] on strings compares bytes; [str_le x y] is [!(y < x)]. *)
Fixpoint str_leb (a b : str) : bool :=
  match a, b with
  | [], _ => true
  | _ :: _, [] => false
  | x :: a', y :: b' => if bval x <? bval y then true else (bval x =? bval y) && str_leb a' b'
  end.

Definition addr_le (x y : TaggedNode) : Prop := str_leb (t_Address x) (t_Address y) = true.
#[export] Instance addr_le_dec : RelDecision addr_le.
Proof. intros x y. unfold addr_le. apply _. Defined.

(** The loop of [taggedNodes]: one entry per IPv4 address of a tagged node. *)
Definition tagged_entries (nodes : list statusNode) : list TaggedNode :=
  nodes ≫= fun node =>
    if (length (n_Tags node) =? 0)%nat then []
    else (fun address => mkTaggedNode (AddrString address) (list_to_set (n_Tags node)))
           <$> filter (fun address => Is4 address = true) (n_TailscaleIPs node).

Definition taggedNodes (nodes : list statusNode) : list TaggedNode :=
  merge_sort addr_le (tagged_entries nodes).

(** [LocalAPI.TaggedNodes] on a decoded status: this node, then its peers in the
    order the map is iterated; a null peer is skipped. *)
Definition TaggedNodes (status : option (statusNode * list (option statusNode))) : option (list TaggedNode) :=
  match status with
  | None => None
  | Some (self, peers) => Some (taggedNodes (self :: omap id peers))
  end.

(** ** Tag expressions *)

(** What the label loop accumulates. *)
Record expr := mkExpr { required : list str; either : list (list str); excluded : list str }.

Fixpoint expr_opts (opts : list str) (pos excl : list str) : option (list str * list str) :=
  match opts with
  | [] => Some (pos, excl)
  | tag :: opts' =>
      if str_eqb tag [] then None
      else if HasPrefix tag "no-" then
        if (length tag =? 3)%nat then None
        else expr_opts opts' pos (excl ++ [lit "tag:" ++ drop 3 tag])
      else expr_opts opts' (pos ++ [lit "tag:" ++ tag]) excl
  end.

Fixpoint expr_parts (parts : list str) (e : expr) : option expr :=
  match parts with
  | [] => Some e
  | part :: parts' =>
      let opts := Split part "-or-" in
      if (length opts =? 0)%nat then None else
      match expr_opts opts [] (excluded e) with
      | None => None
      | Some (pos, excl) =>
          expr_parts parts'
            match pos with
            | [] => mkExpr (required e) (either e) excl
            | [p] => mkExpr (required e ++ [p]) (either e) excl
            | _ => mkExpr (required e) (either e ++ [pos]) excl
            end
      end
  end.

Definition has_tag (node : TaggedNode) (tag : str) : bool := bool_decide (tag ∈ t_Tags node).

Definition node_matches (e : expr) (node : TaggedNode) : bool :=
  forallb (has_tag node) (required e) &&
  forallb (fun choices => existsb (has_tag node) choices) (either e) &&
  forallb (fun tag => negb (has_tag node tag)) (excluded e).

Definition TagExpression `{UnicodeTable} (name : str) (nodes : list TaggedNode) : list str * bool :=
  let parts := Split (TrimSuffix (ToLower name) ".") "." in
  if (length parts <? 2)%nat || negb (bool_decide (last parts = Some (lit "tags"))) then ([], false) else
  match expr_parts (take (length parts - 1) parts) (mkExpr [] [] []) with
  | None => ([], false)
  | Some e => (t_Address <$> filter (fun n => node_matches e n = true) nodes, true)
  end.

(** An unavailable inventory is still a handled request. *)
Definition ResolveTags `{UnicodeTable} (name : str) (source : option (list TaggedNode)) : list str * bool :=
  match source with
  | None => let '(_, tagged) := TagExpression name [] in ([], tagged)
  | Some nodes => TagExpression name nodes
  end.

(** * Properties *)

(** ** Deterministic answers *)

#[export] Instance str_le_trans : Transitive (fun a b => str_leb a b = true).
Proof.
  intros a. induction a as [|x a IH]; intros [|y b] [|z c]; cbn; try done.
  destruct (Z.ltb_spec (bval x) (bval y)), (Z.ltb_spec (bval y) (bval z)),
    (Z.ltb_spec (bval x) (bval z)); cbn; try done; try lia;
    intros E1 E2; bool_simp; try lia.
  apply andb_true_intro. split; [apply Z.eqb_eq; lia|]. by apply (IH b).
Qed.

#[export] Instance str_le_antisym : AntiSymm (=) (fun a b => str_leb a b = true).
Proof.
  intros a. induction a as [|x a IH]; intros [|y b]; cbn; try done.
  destruct (Z.ltb_spec (bval x) (bval y)), (Z.ltb_spec (bval y) (bval x)); cbn; try lia;
    intros E1 E2; bool_simp; try lia.
  f_equal; [by apply bval_inj|auto].
Qed.

Lemma str_leb_total a : forall b, str_leb a b = true \/ str_leb b a = true.
Proof.
  induction a as [|x a IH]; intros [|y b]; cbn; auto.
  destruct (Z.ltb_spec (bval x) (bval y)), (Z.ltb_spec (bval y) (bval x)); auto.
  replace (bval y) with (bval x) by lia. rewrite Z.eqb_refl. cbn. apply IH.
Qed.

#[export] Instance addr_le_trans : Transitive addr_le.
Proof. intros x y z. apply str_le_trans. Qed.

#[export] Instance addr_le_total : Total addr_le.
Proof. intros x y. apply str_leb_total. Qed.

Lemma sorted_addresses (P : TaggedNode -> Prop) `{!forall x, Decision (P x)} l :
  Sorted addr_le l -> Sorted (fun a b => str_leb a b = true) (t_Address <$> filter P l).
Proof.
  intros Hs%Sorted_StronglySorted; [|apply _].
  apply StronglySorted_Sorted. induction Hs as [|x l _ IH Hx]; [constructor|].
  rewrite filter_cons. case_decide; [|done]. cbn. constructor; [done|].
  apply Forall_fmap, Forall_forall. intros y [_ Hy]%list_elem_of_filter.
  rewrite Forall_forall in Hx. by apply Hx.
Qed.

(** The answer to a tag expression does not depend on how a sorted inventory
    orders nodes that share an address. *)
Lemma TagExpression_sorted_perm `{UnicodeTable} name l1 l2 :
  Sorted addr_le l1 -> Sorted addr_le l2 -> l1 ≡ₚ l2 ->
  TagExpression name l1 = TagExpression name l2.
Proof.
  intros H1 H2 Hp. unfold TagExpression. case_all; try done. f_equal.
  apply (Sorted_unique (fun a b => str_leb a b = true)); [apply sorted_addresses; done..|].
  by rewrite Hp.
Qed.

(** The answer to a tag expression is the same whatever the order in which the
    peers of the status map are visited. *)
Theorem tags_peer_order `{UnicodeTable} name self peers peers' :
  peers ≡ₚ peers' ->
  ResolveTags name (TaggedNodes (Some (self, peers))) =
  ResolveTags name (TaggedNodes (Some (self, peers'))).
Proof.
  intros Hp. apply TagExpression_sorted_perm; [apply Sorted_merge_sort, _..|].
  unfold taggedNodes. rewrite !merge_sort_Permutation. unfold tagged_entries.
  by rewrite Hp.
Qed.

Definition sample_self : statusNode :=
  mkStatusNode [AddrFrom4 100 64 0 1] [lit "tag:web"; lit "tag:prod"] None.
Definition sample_peer : statusNode :=
  mkStatusNode [AddrFrom4 100 64 0 9; mkAddr 1 (z6 [])] [lit "tag:web"; lit "tag:test"] None.

Lemma tags_peer_order_witness :
  @ResolveTags table_min "web.tags." (TaggedNodes (Some (sample_self, [None; Some sample_peer]))) =
  @ResolveTags table_min "web.tags." (TaggedNodes (Some (sample_self, [Some sample_peer; None]))).
Proof. apply (@tags_peer_order table_min). apply Permutation_swap. Defined.

(** ** What an expression means *)

(** An alternative of a label: a tag, or [no-] and a tag. *)
Definition opt_ok (tag : str) : bool := negb (str_eqb tag []) && negb (str_eqb tag "no-").
Definition positives (opts : list str) : list str :=
  (fun tag => lit "tag:" ++ tag) <$> filter (fun tag => HasPrefix tag "no-" = false) opts.
Definition negatives (opts : list str) : list str :=
  (fun tag => lit "tag:" ++ drop 3 tag) <$> filter (fun tag => HasPrefix tag "no-" = true) opts.

(** The meaning of one label: some positive alternative holds, if there is any, and
    no negated one does. *)
Definition selects (node : TaggedNode) (part : str) : bool :=
  let opts := Split part "-or-" in
  (bool_decide (positives opts = []) || existsb (has_tag node) (positives opts)) &&
  forallb (fun tag => negb (has_tag node tag)) (negatives opts).

Lemma no_prefix_length tag : HasPrefix tag "no-" = true -> (length tag =? 3)%nat = str_eqb tag "no-".
Proof.
  intros [k ->]%HasPrefix_spec. destruct k; [done|]. cbn.
  symmetry. apply bool_decide_eq_false_2. cbn. congruence.
Qed.

Lemma expr_opts_spec opts : forall pos excl,
  expr_opts opts pos excl =
    if forallb opt_ok opts then Some (pos ++ positives opts, excl ++ negatives opts) else None.
Proof.
  induction opts as [|tag opts IH]; intros pos excl; [by cbn; rewrite !app_nil_r|].
  cbn [expr_opts forallb]. unfold opt_ok at 1, positives, negatives. rewrite !filter_cons.
  destruct (str_eqb tag []) eqn:E0; [done|]. cbn [negb andb].
  destruct (HasPrefix tag "no-") eqn:Ep.
  - rewrite no_prefix_length by done. rewrite decide_False, decide_True by done.
    destruct (str_eqb tag "no-"); [done|]. cbn [negb andb]. rewrite IH.
    cbn [fmap list_fmap]. by rewrite <-app_assoc.
  - rewrite decide_True, decide_False by done.
    replace (str_eqb tag "no-") with false.
    + cbn [negb andb]. rewrite IH. cbn [fmap list_fmap]. by rewrite <-app_assoc.
    + symmetry. apply bool_decide_eq_false_2. by intros ->.
Qed.

Lemma split_go_not_nil sep s : forall skip, split_go sep skip s <> [].
Proof.
  induction s as [|c s IH]; intros [|skip]; cbn; try done.
  destruct (HasPrefix (c :: s) sep); [done|].
  destruct (split_go sep 0 s) eqn:E; cbn; [by apply IH in E|done].
Qed.

Definition part_ok (part : str) : bool := forallb opt_ok (Split part "-or-").

Lemma expr_parts_spec parts : forall e,
  match expr_parts parts e with
  | None => forallb part_ok parts = false
  | Some e' => forallb part_ok parts = true /\ forall node,
      node_matches e' node = node_matches e node && forallb (selects node) parts
  end.
Proof.
  induction parts as [|part parts IH]; intros e; cbn [expr_parts forallb].
  { split; [done|]. intros. by rewrite andb_true_r. }
  destruct (Split part "-or-") as [|o os] eqn:Es; [by apply split_go_not_nil in Es|].
  rewrite <-Es. replace (length _ =? 0)%nat with false by (by rewrite Es). rewrite expr_opts_spec.
  unfold part_ok at 1 3. destruct (forallb opt_ok (Split part "-or-")); [|done].
  cbn [app andb].
  match goal with |- context [expr_parts parts ?e0] => set (e1 := e0) end.
  assert (Hstep : forall node, node_matches e1 node = node_matches e node && selects node part).
  { intros node. unfold e1, selects, node_matches. clear.
    destruct (positives (Split part "-or-")) as [|p [|p' ps]]; cbn [required either excluded];
      rewrite !forallb_app; cbn [forallb existsb bool_decide];
      generalize (forallb (has_tag node) (required e)) as a;
      generalize (forallb (fun c => existsb (has_tag node) c) (either e)) as b;
      generalize (forallb (fun tag => negb (has_tag node tag)) (excluded e)) as c;
      generalize (forallb (fun tag => negb (has_tag node tag)) (negatives (Split part "-or-"))) as d;
      intros d c b a; destruct a, b, c, d; cbn; rewrite ?andb_false_r, ?andb_true_r; try done;
      by rewrite ?orb_false_r. }
  specialize (IH e1). destruct (expr_parts parts e1); [|done].
  destruct IH as [-> IH]. split; [done|]. intros node. by rewrite IH, Hstep, andb_assoc.
Qed.

(** C29: a name is a tag expression exactly when its last label is [tags] and every
    alternative of the labels before it is a tag or a negated tag; it then resolves,
    in inventory order, to the nodes each label selects. *)
Theorem TagExpression_spec `{UnicodeTable} name nodes :
  let parts := Split (TrimSuffix (ToLower name) ".") "." in
  let labels := take (length parts - 1) parts in
  TagExpression name nodes =
    if bool_decide (labels <> []) && bool_decide (last parts = Some (lit "tags")) && forallb part_ok labels
    then (t_Address <$> filter (fun n => forallb (selects n) labels = true) nodes, true)
    else ([], false).
Proof.
  intros parts labels. unfold TagExpression. fold parts. fold labels.
  assert (Hl : (length parts <? 2)%nat = negb (bool_decide (labels <> []))).
  { unfold labels. destruct parts as [|p [|p' ps]]; done. }
  rewrite Hl. destruct (bool_decide (labels <> [])); [|done].
  destruct (bool_decide (last parts = _)); [|done]. cbn [negb orb andb].
  pose proof (expr_parts_spec labels (mkExpr [] [] [])) as He.
  destruct (expr_parts labels _) as [e|]; [|by rewrite He].
  destruct He as [-> He]. do 2 f_equal. apply list_filter_iff. intros n. by rewrite He.
Qed.

(** A failed inventory never sends a tag expression upstream. *)
Lemma ResolveTags_failed `{UnicodeTable} name nodes :
  (ResolveTags name None).2 = (ResolveTags name (Some nodes)).2 /\ (ResolveTags name None).1 = [].
Proof.
  unfold ResolveTags, TagExpression. by repeat case_match; simplify_eq.
Qed.
