(* ===== verification/Upstream.v ===== *)
(** * Node configuration

    [internal/domain/upstream.go]: the typed resolver configuration a node reads
    from its own NodeAttrs. *)

From S2P Require Import Prelude GoStrings Json Policy.

Definition NodeConfigCapability : str := "matchlighter.net/domain-gateway".

Record NodeConfig := mkNodeConfig { nc_UpstreamDNS : str; nc_HasUpstreamDNS : bool }.
Definition NodeConfigZero : NodeConfig := mkNodeConfig [] false.

#[export] Instance NodeConfig_eq_dec : EqDecision NodeConfig.
Proof. solve_decision. Defined.

(** The anonymous struct of the entry loop. *)
Record config_obj := mkConfigObj { co_upstream : str; co_gateways : option json }.

Definition config_field (o : config_obj) (k : str) (v : json) : option config_obj :=
  let '(mkConfigObj u g) := o in
  if key_is k "upstreamDNS" then (fun u' => mkConfigObj u' g) <$> dec_string u v
  else if key_is k "gateways" then (fun g' => mkConfigObj u g') <$> dec_raw g v
  else Some o.

(** The resolver of one entry; [None] when the entry is refused. *)
Definition config_entry (raw : json) : option str :=
  match dec_struct config_field (mkConfigObj [] None) raw with
  | None => None
  | Some config =>
      if str_eqb (co_upstream config) [] || bool_decide (is_Some (co_gateways config)) then None
      else let '(resolver, valid) := normalizeResolver (co_upstream config) in
           if valid then Some resolver else None
  end.

Fixpoint config_entries (values : list json) (result : NodeConfig) : option NodeConfig :=
  match values with
  | [] => Some result
  | raw :: values' =>
      match config_entry raw with
      | None => None
      | Some resolver =>
          if negb (str_eqb (nc_UpstreamDNS result) []) && negb (str_eqb (nc_UpstreamDNS result) resolver)
          then None
          else config_entries values' (mkNodeConfig resolver true)
      end
  end.

Definition ConfigFromNodeAttrs (caps : gmap str json) : NodeConfig * bool :=
  match caps !! NodeConfigCapability with
  | None => (mkNodeConfig "system" false, true)
  | Some raw =>
      match dec_raws raw with
      | None | Some [] => (NodeConfigZero, false)
      | Some values =>
          match config_entries values NodeConfigZero with
          | Some result => (result, true)
          | None => (NodeConfigZero, false)
          end
      end
  end.

(** ** Properties *)

Lemma JoinHostPort_not_nil h p : JoinHostPort h p <> [].
Proof. unfold JoinHostPort. case_match; [done|]. by destruct h. Qed.

Lemma normalizeResolver_not_nil u r : normalizeResolver u = (r, true) -> r <> [].
Proof.
  unfold normalizeResolver. case_match eqn:Es.
  { intros [= <-] ->. done. }
  intros H. repeat case_match; simplify_eq; apply JoinHostPort_not_nil.
Qed.

Lemma config_entry_not_nil raw r : config_entry raw = Some r -> r <> [].
Proof.
  unfold config_entry. intros H. repeat case_match; simplify_eq.
  by eapply normalizeResolver_not_nil.
Qed.

Lemma config_entries_spec values : forall result c,
  (nc_UpstreamDNS result = [] -> result = NodeConfigZero) ->
  (nc_UpstreamDNS result <> [] -> nc_HasUpstreamDNS result = true) ->
  config_entries values result = Some c <->
  (values = [] /\ c = result) \/
  (values <> [] /\ exists r, c = mkNodeConfig r true /\ Forall (fun j => config_entry j = Some r) values /\
     (nc_UpstreamDNS result = [] \/ nc_UpstreamDNS result = r)).
Proof.
  induction values as [|raw values IH]; intros result c H0 H1; cbn [config_entries].
  { split; [intros [= <-]; by left|]. by intros [[_ ->]|[? _]]. }
  destruct (config_entry raw) as [r|] eqn:Er.
  2:{ split; [done|]. intros [[? _]|(_ & r & _ & Hf & _)]; [done|].
      apply Forall_cons in Hf as [Hf _]. congruence. }
  pose proof (config_entry_not_nil _ _ Er) as Hr.
  destruct (_ && _) eqn:Ec.
  - apply andb_prop in Ec as [E1 E2]. split; [done|]. intros [[? _]|(_ & r' & _ & Hf & Hc)]; [done|].
    apply Forall_cons in Hf as [Hf _]. assert (r' = r) as -> by congruence.
    destruct Hc as [Hc|Hc]; rewrite Hc in E1, E2; [done|].
    by rewrite (proj2 (str_eqb_true r r) eq_refl) in E2.
  - rewrite IH by (cbn; done). cbn [nc_UpstreamDNS].
    assert (Hc : nc_UpstreamDNS result = [] \/ nc_UpstreamDNS result = r).
    { apply andb_false_iff in Ec as [Ec|Ec]; apply negb_false_iff, str_eqb_true in Ec; auto. }
    split.
    + intros [[-> ->]|(Hv & r' & -> & Hf & Hc')]; right; (split; [done|]).
      * exists r. split_and!; [done|by constructor|done].
      * destruct Hc' as [Hc'|Hc']; [done|]. subst r'. exists r. split_and!; [done|by constructor|done].
    + intros [[? _]|(_ & r' & -> & Hf & Hc')]; [done|].
      apply Forall_cons in Hf as [Hf Hf']. assert (r' = r) as -> by congruence.
      destruct values as [|v values]; [by left|]. right. split; [done|]. exists r. auto.
Qed.

(** C30: a node's configuration is accepted exactly when the attribute is absent
    (the system resolver, not marked as configured) or is a non-empty array whose
    entries all name one and the same valid resolver and none of which carries the
    retired [gateways] field. *)
Theorem ConfigFromNodeAttrs_spec caps c :
  ConfigFromNodeAttrs caps = (c, true) <->
  (caps !! NodeConfigCapability = None /\ c = mkNodeConfig "system" false) \/
  (exists values r, caps !! NodeConfigCapability = Some (JArr values) /\ values <> [] /\
     Forall (fun j => config_entry j = Some r) values /\ c = mkNodeConfig r true).
Proof.
  unfold ConfigFromNodeAttrs.
  destruct (caps !! NodeConfigCapability) as [raw|].
  2:{ split; [intros [= <-]; by left|]. intros [[_ ->]|(? & ? & ? & _)]; done. }
  assert (Hraw : forall values, dec_raws raw = Some values -> values <> [] -> raw = JArr values).
  { intros values Hd Hv. destruct raw; cbn in Hd; by simplify_eq. }
  destruct (dec_raws raw) as [[|v values]|] eqn:Hd.
  - split; [done|]. intros [[? _]|(values & r & [= ->] & Hv & _)]; [done|]. by cbn in Hd; simplify_eq.
  - specialize (Hraw _ eq_refl ltac:(done)) as ->.
    pose proof (config_entries_spec (v :: values) NodeConfigZero) as Hs.
    destruct (config_entries (v :: values) NodeConfigZero) as [c'|].
    + split.
      * intros [= <-]. right. specialize (Hs c') as [[[? _]|(_ & r & -> & Hf & _)] _]; try done.
        exists (v :: values), r. done.
      * intros [[? _]|(values' & r & [= <-] & _ & Hf & ->)]; [done|].
        specialize (Hs (mkNodeConfig r true)) as [_ Hs]; [done..|].
        assert (Some c' = Some (mkNodeConfig r true)) as [= ->]; [|done].
        apply Hs. right. eauto 10.
    + split; [done|]. intros [[? _]|(values' & r & [= <-] & _ & Hf & ->)]; [done|].
      specialize (Hs (mkNodeConfig r true)) as [_ Hs]; [done..|].
      discriminate Hs. right. eauto 10.
  - split; [done|]. intros [[? _]|(values & r & [= ->] & _)]; done.
Qed.

Example config_normalized :
  ConfigFromNodeAttrs {[ NodeConfigCapability := JArr [JObj [(lit "upstreamDNS", JStr "10.0.0.53")]] ]}
  = (mkNodeConfig "10.0.0.53:53" true, true).
Proof. by vm_compute. Qed.
