(* ===== verification/Url.v ===== *)
(** * URLs

    What [OpenAllocationStore] uses of Go's [net/url]: [Parse] and the fields [Scheme],
    [User], [Host], [Path], [RawQuery] and [Fragment] of its result.  An error is [None].

    A host with a bracketed IP literal or with more than one colon is left to the class
    [HostSyntax]: its treatment changed between releases of Go and depends on the
    scheme. *)

From S2P Require Import Prelude GoStrings.

(** What [Parse] makes of such a host under a scheme. *)
Class HostSyntax := special_host : str -> str -> option str.

Record URL := mkURL {
  u_Scheme : str; u_User : bool; (* a user is given *)
  u_Host : str; u_Path : str; u_RawQuery : str; u_Fragment : str }.

(** ** Characters *)

Definition is_alpha (c : byte) : bool :=
  (97 <=? bval c) && (bval c <=? 122) || (65 <=? bval c) && (bval c <=? 90).
Definition is_alnum (c : byte) : bool := is_alpha c || is_digit c.
Definition one_of (s : string) (c : byte) : bool := has_byte c (lit s).

(** [stringContainsCTLByte]. *)
Definition is_ctl (c : byte) : bool := (bval c <? 32) || (bval c =? 127).

Definition hex_val (c : byte) : option Z :=
  if is_digit c then Some (bval c - 48)
  else if (97 <=? bval c) && (bval c <=? 102) then Some (bval c - 87)
  else if (65 <=? bval c) && (bval c <=? 70) then Some (bval c - 55)
  else None.

(** ** Percent-encoding *)

(** [unescape] outside hosts: a percent sign needs two hexadecimal digits. *)
Fixpoint unescape (s : str) : option str :=
  match s with
  | [] => Some []
  | "%"%char :: a :: b :: s' =>
      match hex_val a, hex_val b with
      | Some x, Some y => cons (byte_of (x * 16 + y)) <$> unescape s'
      | _, _ => None
      end
  | "%"%char :: _ => None
  | c :: s' => cons c <$> unescape s'
  end.

(** The characters a host may hold unescaped. *)
Definition host_char (c : byte) : bool :=
  (128 <=? bval c) || is_alnum c || one_of "-_.~!$&'()*+,;=:[]<>" c || (bval c =? 34).

(** [unescape] in a host: only bytes above ASCII, and the percent sign, are escaped. *)
Fixpoint unescape_host (s : str) : option str :=
  match s with
  | [] => Some []
  | "%"%char :: a :: b :: s' =>
      match hex_val a, hex_val b with
      | Some x, Some y =>
          if (x <? 8) && negb (x * 16 + y =? 37) then None
          else cons (byte_of (x * 16 + y)) <$> unescape_host s'
      | _, _ => None
      end
  | "%"%char :: _ => None
  | c :: s' => if host_char c then cons c <$> unescape_host s' else None
  end.

(** ** The parts of a URL *)

(** [getScheme]: the scheme (empty if there is none) and the rest. *)
Fixpoint scheme_go (first : bool) (s : str) : option (option (str * str)) :=
  match s with
  | [] => Some None
  | c :: s' =>
      if Ascii.eqb c ":" then (if first then None else Some (Some ([], s')))
      else if is_alpha c || (negb first && (is_digit c || one_of "+-." c)) then
        match scheme_go false s' with
        | Some (Some (scheme, rest)) => Some (Some (c :: scheme, rest))
        | r => r
        end
      else Some None
  end.

Definition getScheme (rawURL : str) : option (str * str) :=
  match scheme_go true rawURL with
  | None => None
  | Some None => Some ([], rawURL)
  | Some (Some r) => Some r
  end.

(** [validOptionalPort] of what follows the colon. *)
Definition parseHost `{HostSyntax} (scheme host : str) : option str :=
  if has_byte "[" host then special_host scheme host else
  match Cut host ":" with
  | None => unescape_host host
  | Some (_, port) =>
      if has_byte ":" port then special_host scheme host
      else if forallb is_digit port then unescape_host host else None
  end.

Definition userinfo_char (c : byte) : bool := is_alnum c || one_of "-._:~!$&'()*+,;=%@" c.

Definition userinfo_ok (userinfo : str) : bool :=
  forallb userinfo_char userinfo &&
  match Cut userinfo ":" with
  | None => bool_decide (is_Some (unescape userinfo))
  | Some (username, password) =>
      bool_decide (is_Some (unescape username)) && bool_decide (is_Some (unescape password))
  end.

Definition parseAuthority `{HostSyntax} (scheme authority : str) : option (bool * str) :=
  match cut_last "@" authority with
  | None => pair false <$> parseHost scheme authority
  | Some (userinfo, host) =>
      match parseHost scheme host with
      | None => None
      | Some host => if userinfo_ok userinfo then Some (true, host) else None
      end
  end.

(** The text before the first slash, and the rest with it. *)
Definition cut_slash (s : str) : str * str :=
  match Cut s "/" with
  | None => (s, [])
  | Some (before, after) => (before, "/"%char :: after)
  end.

(** The query, without its question mark. *)
Definition split_query (rest : str) : str * str :=
  if HasSuffix rest "?" && (Count rest "?" =? 1)%nat then (TrimSuffix rest "?", [])
  else match Cut rest "?" with Some (a, b) => (a, b) | None => (rest, []) end.

(** [parse], without the fragment. *)
Definition parse_url `{HostSyntax} (rawURL : str) : option URL :=
  if existsb is_ctl rawURL then None else
  if str_eqb rawURL "*" then Some (mkURL [] false [] "*" [] []) else
  match getScheme rawURL with
  | None => None
  | Some (scheme, rest) =>
      let scheme := map byte_lower scheme in
      let '(rest, query) := split_query rest in
      if negb (HasPrefix rest "/") && negb (str_eqb scheme []) then
        Some (mkURL scheme false [] [] query [])  (* an opaque URL *)
      else if negb (HasPrefix rest "/") && has_byte ":" (cut_slash rest).1 then None
      else
        if (negb (str_eqb scheme []) || negb (HasPrefix rest "///")) && HasPrefix rest "//" then
          let '(authority, path) := cut_slash (drop 2 rest) in
          match parseAuthority scheme authority, unescape path with
          | Some (user, host), Some path => Some (mkURL scheme user host path query [])
          | _, _ => None
          end
        else
          match unescape rest with
          | Some path => Some (mkURL scheme false [] path query [])
          | None => None
          end
  end.

(** [url.Parse]. *)
Definition url_Parse `{HostSyntax} (rawURL : str) : option URL :=
  let '(u, frag) := match Cut rawURL "#" with Some p => p | None => (rawURL, []) end in
  match parse_url u with
  | None => None
  | Some url =>
      if str_eqb frag [] then Some url else
      match unescape frag with
      | None => None
      | Some frag => Some (mkURL (u_Scheme url) (u_User url) (u_Host url) (u_Path url) (u_RawQuery url) frag)
      end
  end.

(** ** Plain text

    Characters that stand for themselves everywhere in a URL. *)

Definition plain_char (c : byte) : bool := is_alnum c || one_of "-_.~/" c.

Lemma plain_cases (P : byte -> bool) :
  forallb (fun n => let c := ascii_of_nat n in implb (plain_char c) (P c)) (seq 0 256) = true ->
  forall c, plain_char c = true -> P c = true.
Proof.
  intros H c Hc. rewrite forallb_forall in H. specialize (H (nat_of_ascii c)).
  cbv zeta in H. rewrite ascii_nat_embedding, Hc in H. apply H, in_seq.
  pose proof (nat_ascii_bounded c). lia.
Qed.

Lemma plain_free (d : byte) s : plain_char d = false -> forallb plain_char s = true -> d ∉ s.
Proof.
  intros Hd Hs Hin. rewrite forallb_Forall_true, Forall_forall in Hs. specialize (Hs _ Hin). congruence.
Qed.

Lemma split_query_free s : "?"%char ∉ s -> split_query s = (s, []).
Proof.
  intros Hq. unfold split_query. rewrite (Cut_free "?"%char) by done.
  destruct (HasSuffix s "?") eqn:E; [|done]. exfalso. apply HasSuffix_spec in E as [s0 ->].
  apply Hq, elem_of_app. right. by left.
Qed.

Lemma unescape_plain s : forallb plain_char s = true -> unescape s = Some s.
Proof.
  induction s as [|c s IH]; intros H; [done|]. cbn in H. apply andb_prop in H as [Hc Hs].
  assert (E : unescape (c :: s) = cons c <$> unescape s).
  { assert (Hne : negb (Ascii.eqb c "%") = true) by (by apply (plain_cases (fun c => negb (Ascii.eqb c "%")))).
    destruct c as [[] [] [] [] [] [] [] []]; done. }
  by rewrite E, IH.
Qed.

Lemma unescape_host_plain s : forallb plain_char s = true -> "/"%char ∉ s -> unescape_host s = Some s.
Proof.
  induction s as [|c s IH]; intros H Hn; [done|]. cbn in H. apply andb_prop in H as [Hc Hs].
  apply not_elem_of_cons in Hn as [Hne Hn].
  assert (Hh : (Ascii.eqb c "/" || host_char c) && negb (Ascii.eqb c "%") = true)
    by (by apply (plain_cases (fun c => (Ascii.eqb c "/" || host_char c) && negb (Ascii.eqb c "%")))).
  apply andb_prop in Hh as [Hh Hp].
  assert (E : unescape_host (c :: s) = if host_char c then cons c <$> unescape_host s else None)
    by (destruct c as [[] [] [] [] [] [] [] []]; done).
  rewrite E, (IH Hs Hn). destruct (Ascii.eqb_spec c "/"); [congruence|]. cbn in Hh. by rewrite Hh.
Qed.
