(* ===== verification/GoTime.v ===== *)
(** * Durations

    [time.ParseDuration], which reads the allocation lease.  A [Duration] is a signed
    64-bit count of nanoseconds; the sums of the source are unsigned 64-bit and wrap.
    The product of the fraction of a number with its unit is computed by Go in [float64];
    that one operation is the class [FloatProduct], so theorems hold for any rounding. *)

From S2P Require Import Prelude GoStrings.

(** [float_product f scale unit] is [uint64(float64(f) * (float64(unit) / scale))]. *)
Class FloatProduct := float_product : Z -> Z -> Z -> Z.

(** The exact product, cut to an integer. *)
Definition exact_product : FloatProduct := fun f scale unit => f * unit / scale.

(** ** Numbers *)

(** [leadingInt]: the value of the leading digits and the rest; [None] past [1<<63]. *)
Fixpoint leadingInt (x : Z) (s : str) : option (Z * str) :=
  match s with
  | c :: s' =>
      if is_digit c then
        if 2 ^ 63 / 10 <? x then None else
        let x := x * 10 + digit_val c in
        if 2 ^ 63 <? x then None else leadingInt x s'
      else Some (x, s)
  | [] => Some (x, [])
  end.

(** [leadingFraction]: digits that no longer fit are skipped. *)
Fixpoint leadingFraction (x scale : Z) (overflow : bool) (s : str) : Z * Z * str :=
  match s with
  | c :: s' =>
      if is_digit c then
        if overflow || ((2 ^ 63 - 1) / 10 <? x) then leadingFraction x scale true s' else
        let y := x * 10 + digit_val c in
        if 2 ^ 63 <? y then leadingFraction x scale true s' else leadingFraction y (scale * 10) false s'
      else (x, scale, s)
  | [] => (x, scale, [])
  end.

(** The characters of a unit: all up to a period or a digit. *)
Fixpoint span_unit (s : str) : str * str :=
  match s with
  | c :: s' =>
      if Ascii.eqb c "." || is_digit c then ([], s)
      else let '(u, rest) := span_unit s' in (c :: u, rest)
  | [] => ([], [])
  end.

(** [unitMap]; the two spellings of the micro sign are U+00B5 and U+03BC. *)
Definition unit_value (u : str) : option Z :=
  if str_eqb u "ns" then Some 1
  else if str_eqb u "us" || str_eqb u [byte_of 194; byte_of 181; "s"%char]
          || str_eqb u [byte_of 206; byte_of 188; "s"%char] then Some (10 ^ 3)
  else if str_eqb u "ms" then Some (10 ^ 6)
  else if str_eqb u "s" then Some (10 ^ 9)
  else if str_eqb u "m" then Some (60 * 10 ^ 9)
  else if str_eqb u "h" then Some (3600 * 10 ^ 9)
  else None.

(** ** One number with its unit, and all of them *)

Definition duration_part `{FloatProduct} (s : str) : option (Z * str) :=
  match leadingInt 0 s with
  | None => None
  | Some (v, s1) =>
      let pre := negb (length s1 =? length s)%nat in
      let '(f, scale, s2, post) :=
        match s1 with
        | "."%char :: s1' =>
            let '(f, scale, s2) := leadingFraction 0 1 false s1' in (f, scale, s2, negb (length s2 =? length s1')%nat)
        | _ => (0, 1, s1, false)
        end in
      if negb pre && negb post then None else
      let '(u, s3) := span_unit s2 in
      match u with
      | [] => None
      | _ =>
          match unit_value u with
          | None => None
          | Some unit =>
              if 2 ^ 63 / unit <? v then None else
              let v := uint64 (v * unit) in
              if 0 <? f then
                let v := uint64 (v + uint64 (float_product f scale unit)) in
                if 2 ^ 63 <? v then None else Some (v, s3)
              else Some (v, s3)
          end
      end
  end.

(** The loop; every turn shortens the text, so its length is enough fuel. *)
Fixpoint duration_loop `{FloatProduct} (fuel : nat) (d : Z) (s : str) : option Z :=
  match s with
  | [] => Some d
  | c :: _ =>
      match fuel with
      | O => None
      | S fuel =>
          if negb (Ascii.eqb c "." || is_digit c) then None else
          match duration_part s with
          | None => None
          | Some (v, rest) =>
              let d := uint64 (d + v) in
              if 2 ^ 63 <? d then None else duration_loop fuel d rest
          end
      end
  end.

Definition ParseDuration `{FloatProduct} (s : str) : option Z :=
  let '(neg, s) := match s with
                   | c :: s' => if Ascii.eqb c "-" then (true, s') else if Ascii.eqb c "+" then (false, s') else (false, s)
                   | [] => (false, [])
                   end in
  if str_eqb s "0" then Some 0 else
  match s with
  | [] => None
  | _ =>
      match duration_loop (length s) 0 s with
      | None => None
      | Some d => if neg then Some (int64 (- d)) else if 2 ^ 63 - 1 <? d then None else Some d
      end
  end.

(** ** Properties *)

Lemma leadingInt_length x s v r : leadingInt x s = Some (v, r) -> (length r <= length s)%nat.
Proof.
  revert x; induction s as [|c s IH]; intros x H; cbn in H; [by simplify_eq|].
  repeat case_match; simplify_eq; cbn; try lia. apply IH in H. lia.
Qed.

Lemma leadingInt_bound x s v r : 0 <= x -> leadingInt x s = Some (v, r) -> 0 <= v.
Proof.
  revert x; induction s as [|c s IH]; intros x Hx H; cbn in H; [by simplify_eq|].
  destruct (is_digit c) eqn:Hd; [|by simplify_eq]. repeat case_match; simplify_eq.
  apply IH in H; [done|]. unfold is_digit, digit_val in *. bool_simp. lia.
Qed.

Lemma leadingFraction_length s : forall x scale o f sc r,
  leadingFraction x scale o s = (f, sc, r) -> (length r <= length s)%nat.
Proof.
  induction s as [|c s IH]; intros x scale o f sc r H; cbn in H; [by simplify_eq|].
  repeat case_match; simplify_eq; cbn; try lia; apply IH in H; lia.
Qed.

Lemma span_unit_length s : forall u r, span_unit s = (u, r) -> (length u + length r = length s)%nat.
Proof.
  induction s as [|c s IH]; intros u r H; cbn in H; [by simplify_eq|].
  destruct (Ascii.eqb c "." || is_digit c); [by simplify_eq|].
  destruct (span_unit s) as [u' r'] eqn:E. injection H as <- <-. cbn. by rewrite (IH u' r').
Qed.

(** Each turn of the loop consumes at least one character ... *)
Lemma duration_part_shorter `{FloatProduct} s v r :
  duration_part s = Some (v, r) -> (length r < length s)%nat.
Proof.
  unfold duration_part. destruct (leadingInt 0 s) as [[v0 s1]|] eqn:E1; [|done].
  apply leadingInt_length in E1.
  set (t := match s1 with "."%char :: s1' => _ | _ => _ end).
  assert (Ht : (length t.1.2 <= length s1)%nat).
  { unfold t. destruct s1 as [|c s1']; [cbn; lia|]. destruct (ascii_dec c ".") as [->|Hc].
    - destruct (leadingFraction 0 1 false s1') as [[f sc] s2] eqn:E2. apply leadingFraction_length in E2. cbn. lia.
    - destruct c as [[] [] [] [] [] [] [] []]; cbn; try lia; done. }
  destruct t as [[[f scale] s2] post]. cbn in Ht. destruct (negb _ && negb post); [done|].
  destruct (span_unit s2) as [u s3] eqn:E3. apply span_unit_length in E3.
  destruct u as [|c u]; [done|]. cbn in E3. intros Hr. repeat case_match; simplify_eq; lia.
Qed.

(** ... so the loop never runs out of fuel: more fuel changes nothing. *)
Lemma duration_loop_fuel `{FloatProduct} n m : forall d s,
  (length s <= n)%nat -> (length s <= m)%nat -> duration_loop n d s = duration_loop m d s.
Proof.
  revert m; induction n as [|n IH]; intros m d s Hn Hm; (destruct s as [|c s]; [by destruct m|]); cbn in Hn, Hm; [lia|].
  destruct m as [|m]; [lia|]. cbn [duration_loop]. destruct (negb _); [done|].
  destruct (duration_part (c :: s)) as [[v r]|] eqn:E; [|done]. apply duration_part_shorter in E. cbn in E.
  destruct (2 ^ 63 <? _); [done|]. apply IH; lia.
Qed.

Lemma duration_loop_bound `{FloatProduct} n : forall d s r,
  0 <= d <= 2 ^ 63 -> duration_loop n d s = Some r -> 0 <= r <= 2 ^ 63.
Proof.
  induction n as [|n IH]; intros d s r Hd Hl; (destruct s as [|c s]; cbn [duration_loop] in Hl; [by simplify_eq|]); [done|].
  repeat case_match; simplify_eq. bool_simp. eapply IH; [|exact Hl].
  pose proof (Z.mod_pos_bound (d + z) (2 ^ 64) ltac:(lia)). unfold uint64, wrap in *. lia.
Qed.

(** A duration is a signed 64-bit number. *)
Lemma ParseDuration_bound `{FloatProduct} s d : ParseDuration s = Some d -> - 2 ^ 63 <= d < 2 ^ 63.
Proof.
  unfold ParseDuration. destruct (match s with [] => _ | _ => _ end) as [neg s'].
  destruct (str_eqb s' "0"); [intros [= <-]; lia|]. destruct s' as [|c s']; [done|].
  destruct (duration_loop _ _ _) as [r|] eqn:E; [|done]. apply duration_loop_bound in E; [|lia].
  destruct neg; [|destruct (Z.ltb_spec (2 ^ 63 - 1) r); [done|intros [= <-]; lia]].
  intros [= <-]. unfold int64. pose proof (Z.mod_pos_bound (- r + 2 ^ 63) (2 ^ 64) ltac:(lia)). lia.
Qed.

(** Digits are read as their number while it fits. *)
Lemma leadingInt_digits ds : forall x rest,
  forallb is_digit ds = true -> 0 <= x -> match rest with [] => True | c :: _ => is_digit c = false end ->
  fold_left (fun n c => n * 10 + digit_val c) ds x <= 2 ^ 63 ->
  leadingInt x (ds ++ rest) = Some (fold_left (fun n c => n * 10 + digit_val c) ds x, rest).
Proof.
  induction ds as [|c ds IH]; intros x rest Hd Hx Hr Hle; cbn in *.
  { destruct rest as [|c rest]; [done|]. cbn. by rewrite Hr. }
  apply andb_prop in Hd as [Hc Hd]. rewrite Hc.
  assert (Hg : 0 <= digit_val c) by (unfold is_digit, digit_val in *; bool_simp; lia).
  assert (Hmono : forall l y, 0 <= y -> forallb is_digit l = true ->
            y <= fold_left (fun n c => n * 10 + digit_val c) l y).
  { induction l as [|a l IHl]; intros y Hy Hl; cbn in *; [lia|]. apply andb_prop in Hl as [Ha Hl].
    assert (0 <= digit_val a) by (unfold is_digit, digit_val in *; bool_simp; lia).
    specialize (IHl (y * 10 + digit_val a) ltac:(lia) Hl). lia. }
  pose proof (Hmono ds (x * 10 + digit_val c) ltac:(lia) Hd).
  assert (x * 10 <= 2 ^ 63) by lia. pose proof (Z.div_le_lower_bound (2 ^ 63) 10 x ltac:(lia) ltac:(lia)).
  destruct (Z.ltb_spec (2 ^ 63 / 10) x); [lia|]. destruct (Z.ltb_spec (2 ^ 63) (x * 10 + digit_val c)); [lia|].
  apply IH; lia || done.
Qed.

Lemma Itoa_head n : 0 <= n < 10 ^ 20 -> exists c ds, Itoa n = c :: ds /\ is_digit c = true.
Proof.
  intros Hn. pose proof (Itoa_digits n Hn) as Hd. destruct (Itoa n) as [|c ds] eqn:E.
  - exfalso. unfold Itoa in E. cbn in E. destruct (n <? 10); [done|]. by apply app_nil in E as [_ ?].
  - exists c, ds. split; [done|]. cbn in Hd. by apply andb_prop in Hd as [? _].
Qed.

Lemma span_unit_all u : forallb (fun c => negb (Ascii.eqb c "." || is_digit c)) u = true -> span_unit u = (u, []).
Proof.
  induction u as [|c u IH]; intros H; [done|]. cbn in H. apply andb_prop in H as [Hc Hu].
  cbn. apply negb_true_iff in Hc. rewrite Hc. by rewrite IH.
Qed.

(** The units of the table have no digit or period, and some character. *)
Lemma unit_chars u k :
  unit_value u = Some k ->
  forallb (fun c => negb (Ascii.eqb c "." || is_digit c)) u = true /\ u <> [] /\ 0 < k.
Proof.
  unfold unit_value. intros H. repeat case_match; simplify_eq;
    repeat match goal with E : _ || _ = true |- _ => apply orb_prop in E as [E|E] end;
    match goal with E : str_eqb u _ = true |- _ => apply str_eqb_true in E as -> end; by vm_compute.
Qed.

(** A whole number of some unit is read exactly, as long as it fits. *)
Lemma ParseDuration_whole `{FloatProduct} n u k :
  0 <= n -> unit_value u = Some k -> n * k < 2 ^ 63 -> ParseDuration (Itoa n ++ u) = Some (n * k).
Proof.
  intros Hn Hu Hb. destruct (unit_chars u k Hu) as (Hc & Hne & Hk).
  assert (Hn63 : n < 2 ^ 63) by nia. assert (Hr : 0 <= n < 10 ^ 20) by lia.
  destruct (Itoa_head n Hr) as (c & ds & E & Hd).
  assert (Hns : Ascii.eqb c "-" = false /\ Ascii.eqb c "+" = false).
  { split; destruct (Ascii.eqb_spec c "-"), (Ascii.eqb_spec c "+"); subst; done. }
  assert (Hpart : duration_part (Itoa n ++ u) = Some (n * k, [])).
  { unfold duration_part.
    assert (leadingInt 0 (Itoa n ++ u) = Some (n, u)) as ->.
    { rewrite <-(Itoa_value n Hr) at 2. apply leadingInt_digits; [by apply Itoa_digits|lia| |].
      - destruct u as [|c' u']; [done|]. cbn in Hc. apply andb_prop in Hc as [Hc _].
        apply negb_true_iff, orb_false_elim in Hc as [_ ?]. done.
      - change (dec_value (Itoa n) <= 2 ^ 63). rewrite Itoa_value by done. lia. }
    rewrite length_app, E. cbn [length]. destruct (Nat.eqb_spec (length u) (S (length ds) + length u)); [lia|].
    destruct u as [|c' u']; [done|]. cbn in Hc. apply andb_prop in Hc as [Hc' Hu'].
    assert (Hdot : match c' :: u' with
                   | "."%char :: s1' => let '(f, scale, s2) := leadingFraction 0 1 false s1' in
                       (f, scale, s2, negb (length s2 =? length s1')%nat)
                   | _ => (0, 1, c' :: u', false) end = (0, 1, c' :: u', false)).
    { apply negb_true_iff, orb_false_elim in Hc' as [Hc' _]. destruct c' as [[] [] [] [] [] [] [] []]; done. }
    rewrite Hdot. cbn [negb andb]. rewrite span_unit_all by (cbn; by rewrite Hc', Hu').
    rewrite Hu. destruct (Z.ltb_spec (2 ^ 63 / k) n) as [Hov|_].
    { pose proof (Z.div_le_lower_bound (2 ^ 63) k n ltac:(lia) ltac:(lia)). lia. }
    cbn [Z.ltb Z.compare]. unfold uint64. rewrite wrap_small by lia. done. }
  unfold ParseDuration. rewrite E in *. cbn [app] in *. destruct Hns as [-> ->].
  rewrite (str_eqb_false (c :: ds ++ u) "0").
  2:{ intros Heq. apply (f_equal length) in Heq. cbn in Heq. rewrite length_app in Heq.
      destruct u; [done|]. cbn in Heq. lia. }
  cbn [length duration_loop]. rewrite Hd, orb_true_r. cbn [negb]. rewrite Hpart.
  unfold uint64. rewrite Z.add_0_l, wrap_small by lia.
  destruct (Z.ltb_spec (2 ^ 63) (n * k)); [lia|].
  assert (duration_loop (length (ds ++ u)) (n * k) [] = Some (n * k)) as -> by (by destruct (length (ds ++ u))).
  destruct (Z.ltb_spec (2 ^ 63 - 1) (n * k)); [lia|done].
Qed.
