(* ===== verification/GoFlag.v ===== *)
(** * Command lines, paths and fields

    What the commands use of Go's [flag], [path/filepath] and [strings.Fields]. *)

From S2P Require Import Prelude GoStrings.

(** ** [filepath.Clean] on Unix

    The elements of the path, innermost first. *)

Definition clean_element (rooted : bool) (stack : list str) (element : str) : list str :=
  if str_eqb element [] || str_eqb element "." then stack
  else if str_eqb element ".." then
    match stack with
    | [] => if rooted then [] else [element]
    | top :: below => if str_eqb top ".." then element :: stack else below
    end
  else element :: stack.

Definition Clean (path : str) : str :=
  let rooted := HasPrefix path "/" in
  let body := Join (rev (fold_left (clean_element rooted) (Split path "/") [])) "/" in
  if rooted then "/" ++ body else if str_eqb body [] then lit "." else body.

(** ** [strings.Fields] *)

(** [unicode.IsSpace]. *)
Definition is_space (r : Z) : bool :=
  ((9 <=? r) && (r <=? 13)) || (r =? 32) || (r =? 133) || (r =? 160) || (r =? 5760)
  || ((8192 <=? r) && (r <=? 8202)) || (r =? 8232) || (r =? 8233) || (r =? 8239) || (r =? 8287) || (r =? 12288).

Definition flush (field : str) (rest : list str) : list str :=
  if str_eqb field [] then rest else field :: rest.

(** [skip] bytes of the current rune remain; they belong to the field if [keep]. *)
Fixpoint fields_go (skip : nat) (keep : bool) (s field : str) : list str :=
  match s with
  | [] => flush field []
  | c :: s' =>
      match skip with
      | S k => fields_go k keep s' (if keep then field ++ [c] else field)
      | O =>
          let '(r, w) := DecodeRune s in
          if is_space r then flush field (fields_go (w - 1) false s' [])
          else fields_go (w - 1) true s' (field ++ [c])
      end
  end.

Definition Fields (s : str) : list str := fields_go 0 false s [].

(** ** [flag.FlagSet.Parse] with string flags only *)

Inductive flag_token :=
| NotFlag                                   (* the first argument that is not a flag *)
| Terminator                                (* [--] *)
| BadFlag
| AFlag (name : str) (value : option str).  (* with [=value] or without *)

Definition flag_body (name : str) : flag_token :=
  match name with
  | [] => BadFlag
  | c :: rest =>
      if Ascii.eqb c "-" || Ascii.eqb c "=" then BadFlag
      else match Cut rest "=" with
           | None => AFlag name None
           | Some (n, v) => AFlag (c :: n) (Some v)
           end
  end.

Definition flag_token_of (s : str) : flag_token :=
  match s with
  | "-"%char :: c :: rest =>
      if Ascii.eqb c "-" then match rest with [] => Terminator | _ => flag_body rest end
      else flag_body (c :: rest)
  | _ => NotFlag
  end.

(** The assignments in order and the arguments left over; [None] is an error. *)
Fixpoint parse_flags (defined : str -> bool) (args : list str) : option (list (str * str) * list str) :=
  match args with
  | [] => Some ([], [])
  | s :: args' =>
      match flag_token_of s with
      | NotFlag => Some ([], args)
      | Terminator => Some ([], args')
      | BadFlag => None
      | AFlag name (Some value) =>
          if negb (defined name) then None else
          match parse_flags defined args' with
          | Some (assigns, rest) => Some ((name, value) :: assigns, rest)
          | None => None
          end
      | AFlag name None =>
          if negb (defined name) then None else
          match args' with
          | [] => None
          | value :: args'' =>
              match parse_flags defined args'' with
              | Some (assigns, rest) => Some ((name, value) :: assigns, rest)
              | None => None
              end
          end
      end
  end.

(** The value a flag ends up with. *)
Definition flag_value (name : string) (assigns : list (str * str)) (initial : str) : str :=
  fold_left (fun v a => if str_eqb a.1 name then a.2 else v) assigns initial.

(** ** Properties *)

Lemma flag_value_cons name n v assigns initial :
  flag_value name ((n, v) :: assigns) initial = flag_value name assigns (if str_eqb n name then v else initial).
Proof. done. Qed.

(** Every flag that is assigned is a defined one. *)
Lemma parse_flags_defined defined : forall args assigns rest,
  parse_flags defined args = Some (assigns, rest) -> Forall (fun a => defined a.1 = true) assigns.
Proof.
  assert (Hall : forall n args, (length args <= n)%nat -> forall assigns rest,
            parse_flags defined args = Some (assigns, rest) -> Forall (fun a => defined a.1 = true) assigns).
  { induction n as [|n IH]; intros [|s args] Hn assigns rest H; cbn in Hn, H; try (simplify_eq; by constructor); [lia|].
    destruct (flag_token_of s) as [| | |name [value|]]; try (simplify_eq; by constructor);
      (destruct (defined name) eqn:Ed; [|done]); cbn in H.
    - destruct (parse_flags defined args) as [[as' r']|] eqn:E; [|done]. simplify_eq.
      constructor; [done|]. eapply IH; [|done]. lia.
    - destruct args as [|value args]; [done|]. destruct (parse_flags defined args) as [[as' r']|] eqn:E; [|done].
      simplify_eq. constructor; [done|]. eapply IH; [|done]. cbn in Hn. lia. }
  intros args. by apply (Hall (length args)).
Qed.
