(* ===== verification/Store.v ===== *)
(** * The SQL allocation store and the allocation lifecycle

    [internal/domain/state.go].  A method of the store is a program: a tree of
    steps, each of which is one critical section on the process's memory or one SQL
    statement, so that any interleaving of requests inside a process and between
    replicas can be expressed.  A statement that fails returns [None] to the program.

    The database is not part of the source: it is the class [Database], whose laws
    say what each statement of the source does to the table and what a failed
    statement may have done. *)

From S2P Require Import Prelude GoStrings NetAddr Alloc.

(** ** The table *)

(** [domain_gateway_allocations]: the primary key gives the address text and the
    nullable [expires_at]. *)
Abbreviation Table := (gmap (str * str) (str * option Z)).

(** [expires_at > now]; a comparison with NULL selects nothing. *)
Definition row_live (now : Z) (row : str * option Z) : bool :=
  match row.2 with Some e => now <? e | None => false end.

Definition holds_ip (t : Table) (ip : str) : Prop := exists k e, t !! k = Some (ip, e).

(** The statements of the source, with the type of their result. *)
Inductive stmt : Type -> Type :=
| SelectKey (gateway domain : str) (now : Z) : stmt (option (str * Z))
| SelectKeyIP (gateway domain : str) (now : Z) : stmt (option str)
| SelectIP (ip : str) (now : Z) : stmt (option (str * str))
| DeleteExpired (now : Z) : stmt unit
| InsertRow (gateway domain ip : str) (expires_at : Z) : stmt Z
| UpdateExpires (expires_at : Z) (gateway domain : str) : stmt unit
| SelectAll : stmt (list diskMapping)
| UpsertAll (rows : list diskMapping) : stmt unit
| WriteState (path : str) (rows : list diskMapping) : stmt unit.

(** One upsert of [Save]: the address of an existing key is replaced and its expiry
    kept, a new row has a NULL expiry, and an address held by another key violates
    the UNIQUE constraint. *)
Definition upsert (t : Table) (r : diskMapping) (t' : Table) : Prop :=
  let k := (d_Gateway r, d_Domain r) in
  (forall k' e, t !! k' = Some (d_IP r, e) -> k' = k) /\
  t' = <[k := (d_IP r, t !! k ≫= snd)]> t.

Fixpoint upserts (rows : list diskMapping) (t t' : Table) : Prop :=
  match rows with
  | [] => t' = t
  | r :: rows' => exists t1, upsert t r t1 /\ upserts rows' t1 t'
  end.

(** What a successful statement returns and leaves behind. *)
Definition sql_step {A} (s : stmt A) : Table -> A -> Table -> Prop :=
  match s in stmt A return Table -> A -> Table -> Prop with
  | SelectKey g d now => fun t r t' => t' = t /\
      r = match t !! (g, d) with
          | Some (ip, Some e) => if now <? e then Some (ip, e) else None
          | _ => None
          end
  | SelectKeyIP g d now => fun t r t' => t' = t /\
      r = match t !! (g, d) with
          | Some (ip, e) => if row_live now (ip, e) then Some ip else None
          | None => None
          end
  | SelectIP ip now => fun t r t' => t' = t /\
      match r with
      | Some k => exists e, t !! k = Some (ip, e) /\ row_live now (ip, e) = true
      | None => forall k e, t !! k = Some (ip, e) -> row_live now (ip, e) = false
      end
  | DeleteExpired now => fun t _ t' => t' = filter (fun kr => row_live now kr.2 = true) t
  | InsertRow g d ip e => fun t n t' =>
      (n = 0 /\ t' = t /\ (is_Some (t !! (g, d)) \/ holds_ip t ip)) \/
      (n = 1 /\ t' = <[(g, d) := (ip, Some e)]> t /\ t !! (g, d) = None /\ ~ holds_ip t ip)
  | UpdateExpires e g d => fun t _ t' => t' = alter (fun r => (r.1, Some e)) (g, d) t
  | SelectAll => fun t rows t' => t' = t /\
      rows ≡ₚ (fun kr : (str * str) * (str * option Z) => mkDisk kr.1.1 kr.1.2 kr.2.1) <$> map_to_list t
  | UpsertAll rows => fun t _ t' => upserts rows t t'
  | WriteState _ _ => fun t _ t' => t' = t
  end.

(** A database that keeps the table.  A statement that reports an error, such as a
    lost connection, has had its effect or none. *)
Class Database := {
  db : Type;
  table : db -> Table;
  exec : forall A, stmt A -> db -> option A * db;
  exec_ok : forall A (s : stmt A) d a d',
    exec A s d = (Some a, d') -> sql_step s (table d) a (table d');
  exec_err : forall A (s : stmt A) d d',
    exec A s d = (None, d') -> table d' = table d \/ exists a, sql_step s (table d) a (table d');
}.
#[global] Arguments exec {_ A} _ _.

(** ** Programs *)

(** The memory of a process: the shared cache and [SQLStore.lastRenewed], with the
    counters of [Service]. *)
Record Process := mkProcess {
  p_alloc : Allocator;
  p_lastRenewed : gmap str Time;
  p_Synthesized : Z; p_Passthrough : Z; p_Allowed : Z; p_Denied : Z;
}.

Definition NewProcess : Process := mkProcess NewAllocator ∅ 0 0 0 0.

Definition set_alloc (a : Allocator) (p : Process) : Process :=
  mkProcess a (p_lastRenewed p) (p_Synthesized p) (p_Passthrough p) (p_Allowed p) (p_Denied p).
Definition set_lastRenewed (l : gmap str Time) (p : Process) : Process :=
  mkProcess (p_alloc p) l (p_Synthesized p) (p_Passthrough p) (p_Allowed p) (p_Denied p).

Inductive prog (A : Type) : Type :=
| Ret (a : A)
| Sql (B : Type) (s : stmt B) (k : option B -> prog A)
| Mem (B : Type) (f : Process -> B * Process) (k : B -> prog A).
#[global] Arguments Ret {A} _.
#[global] Arguments Sql {A B} _ _.
#[global] Arguments Mem {A B} _ _.

#[export] Instance prog_ret : MRet prog := fun A => Ret.
#[export] Instance prog_bind : MBind prog := fun A B f =>
  fix bind (p : prog A) : prog B :=
    match p with
    | Ret a => f a
    | Sql s k => Sql s (fun r => bind (k r))
    | Mem g k => Mem g (fun b => bind (k b))
    end.

Definition sql {B} (s : stmt B) : prog (option B) := Sql s Ret.
Definition mem {B} (f : Process -> B * Process) : prog B := Mem f Ret.

(** One critical section of the cache. *)
Definition cache {B} (f : Allocator -> B * Allocator) : prog B :=
  mem (fun p => let '(b, a) := f (p_alloc p) in (b, set_alloc a p)).

(** Running a program alone against a database. *)
Fixpoint run `{DB : Database} {A} (p : prog A) (pr : Process) (d : db) : A * Process * db :=
  match p with
  | Ret a => (a, pr, d)
  | Sql s k => let '(r, d') := exec s d in run (k r) pr d'
  | Mem f k => let '(b, pr') := f pr in run (k b) pr' d
  end.

(** ** [SQLStore] *)

Inductive err := ErrDB | ErrNoRows | ErrAddress | ErrExhausted | ErrState.

Definition renewalDebounce : Z := 5 * Minute.

(** [LookupKeyLive]: two critical sections. *)
Definition cacheKeyLive (gateway domain : str) (now : Time) : prog (Addr * bool) :=
  '(ip, ok) ← cache (fun a => (LookupKey a gateway domain, a));
  if negb ok then mret (AddrZero, false) else
  '(_, ok) ← cache (fun a => LookupLive a ip now);
  mret (ip, ok).

Definition remember (gateway domain : str) (ip : Addr) (expiry : Time) : prog unit :=
  cache (fun a => (tt, RememberUntil a gateway domain ip expiry)).

Definition renew (gateway domain : str) (now : Time) (lease : Z) (force : bool) : prog (option err) :=
  debounced ← mem (fun p =>
    let last := default TimeZero (p_lastRenewed p !! akey gateway domain) in
    if negb force && negb (IsZero last) && (TSub now last <? renewalDebounce) then (true, p)
    else (false, set_lastRenewed (<[akey gateway domain := now]> (p_lastRenewed p)) p));
  if debounced : bool then mret None else
  r ← sql (UpdateExpires (UnixNano (now + lease)) gateway domain);
  mret (match r with Some _ => None | None => Some ErrDB end).

(** The addresses the inner loop visits: from the first host while the prefix
    contains them. *)
Fixpoint hosts_from (fuel : nat) (prefix : Prefix) (ip : Addr) : list Addr :=
  match fuel with
  | O => []
  | S f => if PContains prefix ip then ip :: hosts_from f prefix (Next ip) else []
  end.

Definition hosts (prefix : Prefix) : list Addr :=
  hosts_from (Z.to_nat (psize prefix)) prefix (first_host prefix).

(** The body of the two loops over the candidate addresses. *)
Fixpoint insert_loop (gateway domain : str) (now : Time) (lease : Z) (ips : list Addr)
  : prog (Addr * option err) :=
  match ips with
  | [] => mret (AddrZero, Some ErrExhausted)
  | ip :: ips' =>
      r ← sql (InsertRow gateway domain (AddrString ip) (UnixNano (now + lease)));
      match r with
      | None => mret (AddrZero, Some ErrDB)
      | Some inserted =>
          q ← sql (SelectKey gateway domain (UnixNano now));
          match q with
          | Some None =>
              if inserted =? 0 then insert_loop gateway domain now lease ips'
              else mret (AddrZero, Some ErrNoRows)
          | None => mret (AddrZero, Some ErrDB)
          | Some (Some (value, _)) =>
              match ParseAddr value with
              | None => mret (AddrZero, Some ErrAddress)
              | Some allocated =>
                  remember gateway domain allocated (now + lease);;
                  mem (fun p => (tt, set_lastRenewed (<[akey gateway domain := now]> (p_lastRenewed p)) p));;
                  mret (allocated, None)
              end
          end
      end
  end.

Definition SQL_Allocate (gateway : str) (prefixes : list Prefix) (domain : str) (now : Time) (lease : Z)
  : prog (Addr * option err) :=
  '(ip, ok) ← cacheKeyLive gateway domain now;
  if ok : bool then
    remember gateway domain ip (now + lease);;
    e ← renew gateway domain now lease false;
    mret (ip, e)
  else
    q ← sql (SelectKey gateway domain (UnixNano now));
    match q with
    | None => mret (AddrZero, Some ErrDB)
    | Some (Some (value, _)) =>
        match ParseAddr value with
        | None => mret (AddrZero, Some ErrAddress)
        | Some ip =>
            remember gateway domain ip (now + lease);;
            e ← renew gateway domain now lease true;
            mret (ip, e)
        end
    | Some None =>
        del ← sql (DeleteExpired (UnixNano now));
        match del with
        | None => mret (AddrZero, Some ErrDB)
        | Some _ => insert_loop gateway domain now lease (prefixes ≫= hosts)
        end
    end.

Definition SQL_Lookup (ip : Addr) (now : Time) (lease : Z) : prog (Mapping * bool * option err) :=
  '(mapping, ok) ← cache (fun a => LookupLive a ip now);
  if ok : bool then
    remember (m_Gateway mapping) (m_Domain mapping) ip (now + lease);;
    e ← renew (m_Gateway mapping) (m_Domain mapping) now lease false;
    mret (mapping, true, e)
  else
    q ← sql (SelectIP (AddrString ip) (UnixNano now));
    match q with
    | None => mret (MappingZero, false, Some ErrDB)
    | Some None => mret (MappingZero, false, None)
    | Some (Some (gateway, domain)) =>
        remember gateway domain ip (now + lease);;
        e ← renew gateway domain now lease true;
        mret (mkMapping gateway domain, true, e)
    end.

Definition SQL_LookupKey (gateway domain : str) (now : Time) (lease : Z) : prog (Addr * bool * option err) :=
  '(ip, ok) ← cacheKeyLive gateway domain now;
  if ok : bool then
    e ← renew gateway domain now lease false;
    mret (ip, true, e)
  else
    q ← sql (SelectKeyIP gateway domain (UnixNano now));
    match q with
    | None => mret (AddrZero, false, Some ErrDB)
    | Some None => mret (AddrZero, false, None)
    | Some (Some raw) =>
        match ParseAddr raw with
        | None => mret (AddrZero, false, Some ErrAddress)
        | Some ip =>
            remember gateway domain ip (now + lease);;
            e ← renew gateway domain now lease true;
            mret (ip, true, e)
        end
    end.

Definition SQL_Load : prog (option err) :=
  q ← sql SelectAll;
  match q with
  | None => mret (Some ErrDB)
  | Some rows =>
      ok ← cache (fun a => load_rows a rows);
      mret (if ok : bool then None else Some ErrAddress)
  end.

Definition SQL_Save : prog (option err) :=
  rows ← cache (fun a => (save_rows a, a));
  r ← sql (UpsertAll rows);
  mret (match r with Some _ => None | None => Some ErrDB end).

(** ** [AllocationLifecycle] *)

(** [Allocator.Allocate], with its two critical sections. *)
Definition cacheAllocate (gateway : str) (ranges : list Prefix) (domain : str) : prog (Addr * option err) :=
  r ← cache (fun a => (AllocateRead a gateway domain, a));
  match r with
  | Some ip => mret (ip, None)
  | None =>
      r ← cache (fun a => AllocateLocked a gateway ranges domain);
      mret (match r with Some ip => (ip, None) | None => (AddrZero, Some ErrExhausted) end)
  end.

(** [Allocator.Save] to the state file. *)
Definition File_Save (path : str) : prog (option err) :=
  rows ← cache (fun a => (save_rows a, a));
  r ← sql (WriteState path rows);
  mret (match r with Some _ => None | None => Some ErrState end).

Record AllocationLifecycle := mkLifecycle {
  l_Store : bool;  (* a store is configured *)
  l_StatePath : str;
  l_Lease : Z;
}.

Definition lease (l : AllocationLifecycle) : Z := if 0 <? l_Lease l then l_Lease l else Hour.

Definition Lifecycle_Allocate (l : AllocationLifecycle) (now : Time) (gateway : str)
  (ranges : list Prefix) (domain : str) : prog (Addr * option err) :=
  if l_Store l then
    '(ip, found, e) ← SQL_LookupKey gateway domain now (lease l);
    if bool_decide (is_Some e) || found then mret (ip, e)
    else SQL_Allocate gateway ranges domain now (lease l)
  else
    '(ip, found) ← cacheKeyLive gateway domain now;
    if found : bool then mret (ip, None) else
    '(ip, e) ← cacheAllocate gateway ranges domain;
    if bool_decide (e = None) && negb (str_eqb (l_StatePath l) []) then
      e ← File_Save (l_StatePath l);
      mret (ip, e)
    else mret (ip, e).

Definition Lifecycle_Lookup (l : AllocationLifecycle) (now : Time) (ip : Addr) : prog (Mapping * bool) :=
  if l_Store l then
    '(mapping, ok, e) ← SQL_Lookup ip now (lease l);
    mret (mapping, bool_decide (e = None) && ok)
  else cache (fun a => (Lookup a ip, a)).

(** ** The in-memory database

    A database that never fails: the table itself. *)

Definition select_ip (t : Table) (ip : str) (now : Z) : option (str * str) :=
  fst <$> List.find (fun kr => str_eqb kr.2.1 ip && row_live now kr.2) (map_to_list t).

Definition ip_taken (t : Table) (ip : str) : bool :=
  existsb (fun kr => str_eqb kr.2.1 ip) (map_to_list t).

Definition upsert_fun (t : Table) (r : diskMapping) : option Table :=
  let k := (d_Gateway r, d_Domain r) in
  if existsb (fun kr => str_eqb kr.2.1 (d_IP r) && negb (bool_decide (kr.1 = k))) (map_to_list t)
  then None else Some (<[k := (d_IP r, t !! k ≫= snd)]> t).

Fixpoint upserts_fun (rows : list diskMapping) (t : Table) : option Table :=
  match rows with
  | [] => Some t
  | r :: rows' => upsert_fun t r ≫= upserts_fun rows'
  end.

Definition table_exec {A} (s : stmt A) : Table -> option A * Table :=
  match s in stmt A return Table -> option A * Table with
  | SelectKey g d now => fun t => (Some match t !! (g, d) with
      | Some (ip, Some e) => if now <? e then Some (ip, e) else None
      | _ => None
      end, t)
  | SelectKeyIP g d now => fun t => (Some match t !! (g, d) with
      | Some (ip, e) => if row_live now (ip, e) then Some ip else None
      | None => None
      end, t)
  | SelectIP ip now => fun t => (Some (select_ip t ip now), t)
  | DeleteExpired now => fun t => (Some tt, filter (fun kr => row_live now kr.2 = true) t)
  | InsertRow g d ip e => fun t =>
      if bool_decide (is_Some (t !! (g, d))) || ip_taken t ip then (Some 0, t)
      else (Some 1, <[(g, d) := (ip, Some e)]> t)
  | UpdateExpires e g d => fun t => (Some tt, alter (fun r => (r.1, Some e)) (g, d) t)
  | SelectAll => fun t =>
      (Some ((fun kr : (str * str) * (str * option Z) => mkDisk kr.1.1 kr.1.2 kr.2.1) <$> map_to_list t), t)
  | UpsertAll rows => fun t =>
      match upserts_fun rows t with Some t' => (Some tt, t') | None => (None, t) end
  | WriteState _ _ => fun t => (Some tt, t)
  end.

Lemma ip_taken_holds t ip : ip_taken t ip = true <-> holds_ip t ip.
Proof.
  unfold ip_taken, holds_ip. rewrite existsb_elem. split.
  - intros ([k [i e]] & Hin%elem_of_map_to_list & Hi%str_eqb_true). simpl in Hi. subst. eauto.
  - intros (k & e & Hk). exists (k, (ip, e)). split; [by apply elem_of_map_to_list|].
    by apply str_eqb_true.
Qed.

Lemma upserts_fun_ok rows : forall t t', upserts_fun rows t = Some t' -> upserts rows t t'.
Proof.
  induction rows as [|r rows IH]; intros t t' H; cbn in *; [by simplify_eq|].
  destruct (upsert_fun t r) as [t1|] eqn:E; [|done]. cbn in H. exists t1. split; [|by apply IH].
  unfold upsert_fun in E. destruct (existsb _ _) eqn:Ee; [done|]. simplify_eq. split; [|done].
  intros k' e Hk'. rewrite existsb_false_Forall, Forall_forall in Ee.
  specialize (Ee (k', (d_IP r, e))). cbn in Ee.
  rewrite (proj2 (str_eqb_true _ _) eq_refl) in Ee. cbn in Ee.
  apply elem_of_map_to_list, Ee in Hk'. by bool_simp.
Qed.

Lemma select_ip_spec t ip now :
  match select_ip t ip now with
  | Some k => exists e, t !! k = Some (ip, e) /\ row_live now (ip, e) = true
  | None => forall k e, t !! k = Some (ip, e) -> row_live now (ip, e) = false
  end.
Proof.
  unfold select_ip. destruct (List.find _ _) as [[k [i e]]|] eqn:E; cbn.
  - apply find_some in E as [Hin H]. apply list_elem_of_In, elem_of_map_to_list in Hin. cbn in H.
    apply andb_prop in H as [->%str_eqb_true H]. eauto.
  - intros k e Hk. apply elem_of_map_to_list, list_elem_of_In in Hk.
    pose proof (find_none _ _ E _ Hk) as H. cbn in H.
    by rewrite (proj2 (str_eqb_true _ _) eq_refl) in H.
Qed.

Lemma table_exec_ok A (s : stmt A) t a t' : table_exec s t = (Some a, t') -> sql_step s t a t'.
Proof.
  destruct s; cbn; intros H; simplify_eq; try done.
  - split; [done|]. apply select_ip_spec.
  - destruct (bool_decide _ || _) eqn:E; simplify_eq.
    + left. split; [done|]. split; [done|]. apply orb_prop in E as [E|E]; bool_simp; [by left|].
      right. by apply ip_taken_holds.
    + right. apply orb_false_elim in E as [E1 E2]. bool_simp. split_and!; [done..| |].
      * by apply eq_None_not_Some.
      * by rewrite <-ip_taken_holds, E2.
  - destruct (upserts_fun rows t) eqn:E; simplify_eq. by apply upserts_fun_ok.
Qed.

Lemma table_exec_err A (s : stmt A) t t' : table_exec s t = (None, t') -> t' = t.
Proof.
  destruct s; cbn; intros H; simplify_eq; try done.
  - by destruct (bool_decide _ || _).
  - by destruct (upserts_fun rows t); simplify_eq.
Qed.

Definition table_db : Database := {|
  db := Table; table := id; exec := @table_exec;
  exec_ok := table_exec_ok;
  exec_err A s d d' H := or_introl (table_exec_err A s d d' H) |}.
