(* ===== verification/StoreSpec.v ===== *)
(** * The SQL store: a transparent cache over one authority

    A small program logic for the store's programs, the invariant that every live
    entry of a process's cache is backed by a row of the table, and the theorems
    that follow: a process answers exactly what the table says, an allocation takes
    the first address no live row holds, and any number of replicas sharing the
    database agree. *)

From S2P Require Import Prelude GoStrings NetAddr Policy PolicySpec Alloc AllocSpec AllocCache Store.

(** ** A program logic *)

(** Every statement of a request succeeds. *)
Definition ordinary {A} (s : stmt A) : bool := match s with UpsertAll _ => false | _ => true end.

Class Reliable `{Database} : Prop :=
  reliable A (s : stmt A) d : ordinary s = true -> exists a d', exec s d = (Some a, d').

#[export] Instance table_db_reliable : @Reliable table_db.
Proof.
  intros A s d Hs. destruct s; try done; cbn; try (eauto; done).
  case_match; eauto.
Qed.

Section logic.
Context `{Database}.

Definition wp {A} (p : prog A) (Q : A -> Process -> Table -> Prop) (pr : Process) (d : db) : Prop :=
  let '(a, pr', d') := run p pr d in Q a pr' (table d').

Lemma run_bind {A B} (p : prog A) (f : A -> prog B) pr d :
  run (p ≫= f) pr d = let '(a, pr', d') := run p pr d in run (f a) pr' d'.
Proof.
  revert pr d. induction p as [a|C s k IH|C g k IH]; intros pr d; [done| |].
  - change (Sql s k ≫= f) with (Sql s (fun r => k r ≫= f)). cbn.
    destruct (exec s d) as [r d']. apply IH.
  - change (Mem g k ≫= f) with (Mem g (fun b => k b ≫= f)). cbn.
    destruct (g pr) as [b pr']. apply IH.
Qed.

Lemma wp_ret {A} (a : A) (Q : A -> Process -> Table -> Prop) pr d :
  Q a pr (table d) -> wp (mret a) Q pr d.
Proof. done. Qed.

Lemma wp_mono {A} (p : prog A) (Q Q' : A -> Process -> Table -> Prop) pr d :
  (forall a pr' t', Q a pr' t' -> Q' a pr' t') -> wp p Q pr d -> wp p Q' pr d.
Proof. unfold wp. destruct (run p pr d) as [[a pr'] d']. auto. Qed.

Lemma wp_cache {A B} (f : Allocator -> B * Allocator) (k : B -> prog A) Q pr d :
  (forall b a', f (p_alloc pr) = (b, a') -> wp (k b) Q (set_alloc a' pr) d) ->
  wp (b ← cache f; k b) Q pr d.
Proof.
  intros Hk. unfold wp. cbn. destruct (f (p_alloc pr)) as [b a'] eqn:E. by apply Hk.
Qed.

Lemma wp_mem {A B} (f : Process -> B * Process) (k : B -> prog A) Q pr d :
  (forall b pr', f pr = (b, pr') -> wp (k b) Q pr' d) -> wp (b ← mem f; k b) Q pr d.
Proof. intros Hk. unfold wp. cbn. destruct (f pr) as [b pr'] eqn:E. by apply Hk. Qed.

Lemma wp_sql `{!Reliable} {A B} (s : stmt B) (k : option B -> prog A) Q pr d :
  ordinary s = true ->
  (forall b d', sql_step s (table d) b (table d') -> wp (k (Some b)) Q pr d') ->
  wp (r ← sql s; k r) Q pr d.
Proof.
  intros Hs Hk. unfold wp. cbn. destruct (reliable B s d Hs) as (b & d' & E). rewrite E.
  apply Hk. by apply exec_ok.
Qed.

(** A bind of a program whose effect is described by its own triple; the second
    program runs against any database with the table the first one left. *)
Lemma wp_bind {A B} (p : prog A) (f : A -> prog B) (R : A -> Process -> Table -> Prop) Q pr d :
  wp p R pr d ->
  (forall a pr' d', R a pr' (table d') -> wp (f a) Q pr' d') ->
  wp (p ≫= f) Q pr d.
Proof.
  unfold wp. intros Hp Hf. rewrite run_bind. destruct (run p pr d) as [[a pr'] d']. by apply Hf.
Qed.
End logic.

(** ** The invariant *)

(** The pool key [g] may hand out [v]: it is the key of ranges whose pool has it. *)
Definition owns (g : str) (v : Z) : Prop :=
  exists ps, Forall wf4 ps /\ g = rangeKey ps /\ v ∈ pool ps.

Section coherence.
(** The lease all replicas are configured with. *)
Context (L : Z).

Definition nul_free (g : str) : Prop := byte_of 0 ∉ g.

(** Clock readings for which no 64-bit nanosecond count wraps. *)
Definition time_ok (now : Time) : Prop := 0 < now /\ now + L < 2 ^ 63.

(** The table: addresses are unique, rows hold IPv4 addresses of the pool their key
    names and expire within a lease from now. *)
Record table_ok (now : Time) (t : Table) : Prop := {
  t_unique : forall k k' ip e e', t !! k = Some (ip, e) -> t !! k' = Some (ip, e') -> k = k';
  t_rows : forall k ip e, t !! k = Some (ip, e) ->
    nul_free k.1 /\ exists v x, ip = AddrString (Addr4 v) /\ 0 <= v < 2 ^ 32 /\ e = Some x /\ x <= now + L /\ owns k.1 v;
}.

(** A process: every cached mapping that has not expired is a row that lives at
    least as long, and a remembered renewal is reflected in its row. *)
Record proc_ok (now : Time) (t : Table) (pr : Process) : Prop := {
  c_linked : linked (p_alloc pr);
  c_entries : forall ip m, byIP (p_alloc pr) !! ip = Some m ->
    nul_free (m_Gateway m) /\ ipv4 ip /\ 0 < expires_of (p_alloc pr) ip /\
    (now < expires_of (p_alloc pr) ip -> exists x,
       t !! (m_Gateway m, m_Domain m) = Some (AddrString ip, Some x) /\ expires_of (p_alloc pr) ip <= x);
  c_renewed : forall g d last, nul_free g -> p_lastRenewed pr !! akey g d = Some last ->
    0 < last <= now /\ forall ip x, t !! (g, d) = Some (ip, Some x) -> last + L <= x;
}.

(** What a request may do to the table: live rows stay, and rows are only renewed
    or created with a full lease. *)
Record table_step (now : Time) (t t' : Table) : Prop := {
  ts_keep : forall k ip x, t !! k = Some (ip, Some x) -> now < x ->
    exists x', t' !! k = Some (ip, Some x') /\ x <= x';
  ts_new : forall k ip x', t' !! k = Some (ip, Some x') ->
    (exists x, t !! k = Some (ip, Some x) /\ x <= x') \/ now + L <= x';
}.

Lemma table_step_refl now t : table_step now t t.
Proof. split; eauto with lia. Qed.

Lemma table_step_trans now t1 t2 t3 :
  table_step now t1 t2 -> table_step now t2 t3 -> table_step now t1 t3.
Proof.
  intros [K1 N1] [K2 N2]. split.
  - intros k ip x Hk Hx. destruct (K1 _ _ _ Hk Hx) as (x' & Hk' & ?).
    destruct (K2 _ _ _ Hk' ltac:(lia)) as (x'' & ? & ?). exists x''. split; [done|lia].
  - intros k ip x3 Hk. destruct (N2 _ _ _ Hk) as [(x2 & Hk2 & ?)|?]; [|by right].
    destruct (N1 _ _ _ Hk2) as [(x1 & ? & ?)|?]; [left; exists x1; split; [done|lia]|right; lia].
Qed.

Lemma table_ok_later now now' t : now <= now' -> table_ok now t -> table_ok now' t.
Proof.
  intros Hn [U R]. split; [done|]. intros k ip e Hk.
  destruct (R _ _ _ Hk) as (? & v & x & ? & ? & ? & ? & ?). split; [done|]. exists v, x. split_and!; lia || done.
Qed.

Lemma proc_ok_later now now' t pr : now <= now' -> proc_ok now t pr -> proc_ok now' t pr.
Proof.
  intros Hn [Hl He Hr]. split; [done| |].
  - intros ip m Hm. destruct (He _ _ Hm) as (? & ? & ? & Hx). split_and!; try done.
    intros ?. apply Hx. lia.
  - intros g d last Hg Hd. destruct (Hr _ _ _ Hg Hd) as [? ?]. split; [lia|done].
Qed.

Lemma proc_ok_step now t t' pr : table_step now t t' -> proc_ok now t pr -> proc_ok now t' pr.
Proof.
  intros [K N] [Hl He Hr]. split; [done| |].
  - intros ip m Hm. destruct (He _ _ Hm) as (? & ? & ? & Hx). split_and!; try done.
    intros Hlive. destruct (Hx Hlive) as (x & Hk & ?).
    destruct (K _ _ _ Hk ltac:(lia)) as (x' & ? & ?). exists x'. split; [done|lia].
  - intros g d last Hg Hd. destruct (Hr _ _ _ Hg Hd) as [? Hx]. split; [done|].
    intros ip x' Hk. destruct (N _ _ _ Hk) as [(x & Hk' & ?)|?]; [|lia].
    specialize (Hx _ _ Hk'). lia.
Qed.
End coherence.

#[export] Hint Resolve table_step_refl : dgw.

Lemma UnixNano_small t : 0 < t < 2 ^ 63 -> UnixNano t = t.
Proof. intros. apply int64_small. lia. Qed.

Lemma AddrString4_inj v w :
  0 <= v < 2 ^ 32 -> 0 <= w < 2 ^ 32 -> AddrString (Addr4 v) = AddrString (Addr4 w) -> v = w.
Proof.
  intros Hv Hw E. apply (f_equal ParseAddr) in E. rewrite !ParseAddr_AddrString in E by done.
  by injection E.
Qed.

(** ** Each statement keeps the table well-formed *)

Section statements.
Context (L : Z) (HL : 0 < L).

Lemma renewed_lookup (t : Table) x k k' :
  alter (fun r : str * option Z => (r.1, Some x)) k t !! k' =
    if bool_decide (k = k') then (fun r : str * option Z => (r.1, Some x)) <$> t !! k' else t !! k'.
Proof. case_bool_decide; subst; [apply lookup_alter_eq|by apply lookup_alter_ne]. Qed.

Lemma update_ok now t k :
  table_ok L now t ->
  let t' := alter (fun r => (r.1, Some (now + L))) k t in table_ok L now t' /\ table_step L now t t'.
Proof.
  intros [U R]. cbv zeta. split; split.
  - intros k1 k2 ip e1 e2. rewrite !renewed_lookup. intros H1 H2.
    assert (forall k0 e, (if bool_decide (k = k0) then (fun r : str * option Z => (r.1, Some (now + L))) <$> t !! k0
                else t !! k0) = Some (ip, e) -> exists e', t !! k0 = Some (ip, e')) as Hb.
    { intros k0 e. destruct (bool_decide (k = k0)); [|eauto]. destruct (t !! k0) as [[ip0 e0]|]; cbn; [|done]. intros [= <- <-]. eauto. }
    apply Hb in H1 as [? H1]. apply Hb in H2 as [? H2]. eauto.
  - intros k1 ip e. rewrite renewed_lookup. case_bool_decide; [|apply R].
    destruct (t !! k1) as [[ip1 e1]|] eqn:E; cbn; [|done]. intros [= <- <-].
    destruct (R _ _ _ E) as (? & v & x & ? & ? & _ & _ & ?). split; [done|]. exists v, (now + L). split_and!; done || lia.
  - intros k1 ip x Hk Hx. rewrite renewed_lookup, Hk. cbn.
    destruct (R _ _ _ Hk) as (_ & v & x0 & _ & _ & [= <-] & ? & _).
    case_bool_decide; eauto with lia.
  - intros k1 ip x. rewrite renewed_lookup. case_bool_decide; [|eauto with lia].
    destruct (t !! k1) as [[ip1 e1]|] eqn:E; cbn; [|done]. intros [= <- <-]. right. lia.
Qed.

Lemma delete_ok now t :
  table_ok L now t ->
  let t' := filter (fun kr => row_live now kr.2 = true) t in table_ok L now t' /\ table_step L now t t'.
Proof.
  intros [U R]. cbv zeta. split; split.
  - intros k1 k2 ip e1 e2 [H1 _]%map_lookup_filter_Some [H2 _]%map_lookup_filter_Some. eauto.
  - intros k ip e [H1 _]%map_lookup_filter_Some. eauto.
  - intros k ip x Hk Hx. exists x. split; [|lia]. apply map_lookup_filter_Some. split; [done|].
    cbn. by apply Z.ltb_lt.
  - intros k ip x [H1 _]%map_lookup_filter_Some. left. eauto with lia.
Qed.

Lemma insert_ok now t g n v :
  table_ok L now t -> nul_free g -> 0 <= v < 2 ^ 32 -> owns g v ->
  t !! (g, n) = None -> ~ holds_ip t (AddrString (Addr4 v)) ->
  let t' := <[(g, n) := (AddrString (Addr4 v), Some (now + L))]> t in
  table_ok L now t' /\ table_step L now t t'.
Proof.
  intros [U R] Hg Hv Ho Hk Hi. cbv zeta. split; split.
  - intros k1 k2 ip e1 e2. rewrite !lookup_insert_Some.
    intros [[<- [= <- <-]]|[? H1]] [[<- E2]|[? H2]]; try done.
    + exfalso. apply Hi. by exists k2, e2.
    + injection E2 as <- <-. exfalso. apply Hi. by exists k1, e1.
    + eauto.
  - intros k ip e. rewrite lookup_insert_Some. intros [[<- [= <- <-]]|[? H1]]; [|eauto].
    split; [done|]. exists v, (now + L). split_and!; done || lia.
  - intros k ip x Hx ?. exists x. split; [|lia]. rewrite lookup_insert_ne; [done|]. congruence.
  - intros k ip x. rewrite lookup_insert_Some. intros [[<- [= <- <-]]|[? H1]]; [right; lia|eauto with lia].
Qed.

(** ** The cache *)

(** Expiring entries of the cache keeps a process coherent. *)
Lemma LookupLive_proc_ok now t pr ip m ok a' :
  proc_ok L now t pr -> LookupLive (p_alloc pr) ip now = (m, ok, a') ->
  proc_ok L now t (set_alloc a' pr) /\
  (ok = true -> a' = p_alloc pr /\ byIP a' !! ip = Some m /\ now < expires_of a' ip) /\
  (ok = false -> byIP a' !! ip = None).
Proof.
  intros [Hl He Hr] E. pose proof (LookupLive_linked (p_alloc pr) ip now Hl) as Hl'.
  rewrite E in Hl'. cbn in Hl'. unfold LookupLive in E.
  destruct (byIP (p_alloc pr) !! ip) as [m0|] eqn:Em; [|by simplify_eq; destruct pr].
  destruct (expired (p_alloc pr) ip now) eqn:Ex; simplify_eq.
  - split; [|split; [done|intros _; apply lookup_delete_eq]]. split; [done| |done]. cbn.
    intros ip' m' [Hne Hm']%lookup_delete_Some. destruct (He _ _ Hm') as (? & ? & Hp & Hx).
    unfold expires_of in *. cbn. rewrite lookup_delete_ne by done. done.
  - apply expired_live in Ex as [Ex|Ex].
    + destruct (He _ _ Em) as (_ & _ & Hp & _). rewrite Ex in Hp. by vm_compute in Hp.
    + split; [by destruct pr|]. done.
Qed.

(** Recording a renewal together with the renewed row. *)
Lemma renewed_proc_ok now t pr g n :
  0 < now -> table_ok L now t -> proc_ok L now t pr -> nul_free g ->
  proc_ok L now (alter (fun r => (r.1, Some (now + L))) (g, n) t)
    (set_lastRenewed (<[akey g n := now]> (p_lastRenewed pr)) pr).
Proof.
  intros Hn Ht Hp Hg. destruct (update_ok now t (g, n) Ht) as [_ Hs].
  apply (proc_ok_step L _ _ _ _ Hs) in Hp as [Hl He Hr]. split; [done|done|]. cbn.
  intros g' n' last Hg'. rewrite lookup_insert_Some. intros [[E <-]|[_ Hd]]; [|by apply Hr].
  apply akey_inj in E as [<- <-]; [|done|done]. split; [lia|]. intros ip x.
  rewrite renewed_lookup, bool_decide_eq_true_2 by done.
  destruct (t !! (g, n)) as [[? ?]|]; cbn; [|done]. intros [= <- <-]. lia.
Qed.

(** Caching a row that has a full lease. *)
Lemma remember_proc_ok now t pr g n ip :
  0 < now -> proc_ok L now t pr -> nul_free g -> ipv4 ip ->
  (exists x, t !! (g, n) = Some (AddrString ip, Some x) /\ now + L <= x) ->
  proc_ok L now t (set_alloc (RememberUntil (p_alloc pr) g n ip (now + L)) pr).
Proof.
  intros Hn [Hl He Hr] Hg H4 (x & Hx & Hle).
  pose proof (RememberUntil_linked (p_alloc pr) g n ip (now + L) Hl) as Hl'.
  unfold RememberUntil in *.
  destruct (byKey (p_alloc pr) !! akey g n) eqn:E1; [by destruct pr|].
  destruct (byIP (p_alloc pr) !! ip) eqn:E2; [by destruct pr|]. split; [done| |done]. cbn.
  intros ip' m. rewrite lookup_insert_Some. unfold expires_of. cbn. intros [[<- <-]|[Hne Hm]].
  - rewrite lookup_insert_eq. cbn. split_and!; [done|done|lia|]. eauto.
  - rewrite lookup_insert_ne by done. by apply He.
Qed.

(** What an answer leaves behind. *)
Definition kept (now : Time) (t : Table) (pr' : Process) (t' : Table) : Prop :=
  table_ok L now t' /\ table_step L now t t' /\ proc_ok L now t' pr'.

(** A row that holds [ip] for [(g, n)] and stays live for the lease, short of the
    renewal interval. *)
Definition served (now : Time) (t : Table) (g n : str) (ip : Addr) : Prop :=
  exists x, t !! (g, n) = Some (AddrString ip, Some x) /\ now + L - renewalDebounce < x.

Context `{DB : Database} {RL : Reliable}.

Lemma renew_wp g n now force pr d :
  time_ok L now ->
  wp (renew g n now L force)
    (fun e pr' t' => e = None /\
       ((force = false /\ pr' = pr /\ t' = table d /\
         exists last, p_lastRenewed pr !! akey g n = Some last /\ TSub now last < renewalDebounce) \/
        (pr' = set_lastRenewed (<[akey g n := now]> (p_lastRenewed pr)) pr /\
         t' = alter (fun r => (r.1, Some (now + L))) (g, n) (table d)))) pr d.
Proof.
  intros [Hn Hb]. unfold renew. apply wp_mem. intros b pr' E.
  destruct (negb force && _ && _) eqn:Ec; simplify_eq.
  - apply wp_ret. split; [done|]. left. apply andb_prop in Ec as [[Ef Ez]%andb_prop Es].
    bool_simp. split_and!; [done..|].
    destruct (p_lastRenewed pr' !! akey g n) as [last|]; [|done]. exists last. done.
  - apply wp_sql; [done|]. intros b d' Hs. cbn in Hs. apply wp_ret. split; [done|]. right.
    by rewrite Hs, UnixNano_small by lia.
Qed.

(** Renewing a live row, forced or debounced. *)
Lemma renew_ok g n now force pr d ip x :
  time_ok L now -> table_ok L now (table d) -> proc_ok L now (table d) pr -> nul_free g ->
  table d !! (g, n) = Some (AddrString ip, Some x) -> now < x ->
  wp (renew g n now L force)
    (fun e pr' t' => e = None /\ kept now (table d) pr' t' /\ served now t' g n ip) pr d.
Proof.
  intros Ht Hok Hp Hg Hrow Hx. pose proof Ht as [Hn Hb].
  eapply wp_mono; [|by apply renew_wp]. cbn.
  intros e pr' t' [-> [(_ & -> & -> & last & Hlast & Hd)|[-> ->]]]; (split; [done|]).
  - split; [by split_and!; [|apply table_step_refl|]|].
    exists x. split; [done|]. destruct (c_renewed _ _ _ _ Hp g n last Hg Hlast) as [? Hl].
    specialize (Hl _ _ Hrow). unfold TSub, renewalDebounce, Minute in *. lia.
  - destruct (update_ok now _ (g, n) Hok). split.
    + split_and!; [done..|]. by apply renewed_proc_ok.
    + exists (now + L). rewrite renewed_lookup, bool_decide_eq_true_2, Hrow by done.
      split; [done|]. unfold renewalDebounce, Minute. lia.
Qed.

(** Caching a live row and renewing it. *)
Lemma remember_renew_ok {A} g n now ip x pr d (F : option err -> A) :
  time_ok L now -> table_ok L now (table d) -> proc_ok L now (table d) pr -> nul_free g -> ipv4 ip ->
  table d !! (g, n) = Some (AddrString ip, Some x) ->
  wp (remember g n ip (now + L);; e ← renew g n now L true; mret (F e))
    (fun r pr' t' => r = F None /\ kept now (table d) pr' t' /\ served now t' g n ip) pr d.
Proof.
  intros Ht Hok Hp Hg H4 Hrow. pose proof Ht as [Hn Hb].
  apply wp_cache. intros u a' E. simplify_eq. eapply wp_bind; [by apply renew_wp|]. cbv beta.
  intros e pr' d' [-> [(? & _)|[-> Ht']]]; [done|]. apply wp_ret. rewrite Ht'. split; [done|].
  set (t' := alter _ _ _).
  assert (Hrow' : t' !! (g, n) = Some (AddrString ip, Some (now + L))).
  { unfold t'. rewrite renewed_lookup, bool_decide_eq_true_2, Hrow by done. done. }
  destruct (update_ok now _ (g, n) Hok). split; [split_and!; [done..|]|].
  - pose proof (remember_proc_ok now t' (set_lastRenewed (<[akey g n := now]> (p_lastRenewed pr)) pr) g n ip) as Hr.
    apply Hr; try done; [by apply renewed_proc_ok|eauto with lia].
  - exists (now + L). split; [done|]. unfold renewalDebounce, Minute. lia.
Qed.

(** ** The requests *)

(** The table says that [k] owns [ip] and that its lease has not run out. *)
Definition live_row (t : Table) (now : Time) (k : str * str) (ip : Addr) : Prop :=
  ipv4 ip /\ exists x, t !! k = Some (AddrString ip, Some x) /\ now < x.

Lemma set_alloc_id pr : set_alloc (p_alloc pr) pr = pr.
Proof. by destruct pr. Qed.

Lemma cacheKeyLive_wp g n now pr d :
  proc_ok L now (table d) pr -> nul_free g ->
  wp (cacheKeyLive g n now)
    (fun r pr' t' => t' = table d /\ proc_ok L now t' pr' /\
       (r.2 = true -> pr' = pr /\ byKey (p_alloc pr) !! akey g n = Some r.1 /\ ipv4 r.1 /\
          live_row t' now (g, n) r.1)) pr d.
Proof.
  intros Hp Hg. unfold cacheKeyLive. apply wp_cache. intros [ip ok] a' E.
  simplify_eq. rewrite set_alloc_id. unfold LookupKey in H.
  destruct (byKey (p_alloc pr) !! akey g n) as [ip'|] eqn:Ek; simplify_eq; cbn [negb].
  2:{ by apply wp_ret. }
  apply wp_cache. intros [m ok] a' E. apply (LookupLive_proc_ok now (table d)) in E as (Hp' & Hok & _); [|done].
  apply wp_ret. split; [done|]. split; [done|]. cbn. intros ->. destruct (Hok eq_refl) as (-> & Hm & Hx).
  rewrite set_alloc_id. split; [done|]. split; [done|].
  destruct (c_entries _ _ _ _ Hp _ _ Hm) as (Hgm & H4 & _ & Hrow).
  split; [done|]. destruct (Hrow Hx) as (x & Hrow' & ?).
  destruct (linked_key _ (c_linked _ _ _ _ Hp) _ _ Ek) as (m' & Hm' & Emk).
  assert (m' = m) as -> by congruence.
  apply akey_inj in Emk as [-> ->]; [|done|done]. split; [done|]. exists x. split; [done|lia].
Qed.

Lemma row_addr now t k s e :
  table_ok L now t -> t !! k = Some (s, e) ->
  exists ip x, s = AddrString ip /\ e = Some x /\ ipv4 ip /\ ParseAddr s = Some ip /\ nul_free k.1.
Proof.
  intros Hok Hk. destruct (t_rows _ _ _ Hok _ _ _ Hk) as (Hg & v & x & -> & Hv & -> & _).
  exists (Addr4 v), x. split_and!; try done; [by exists v|by apply ParseAddr_AddrString].
Qed.

Lemma SQL_LookupKey_wp g n now pr d :
  time_ok L now -> table_ok L now (table d) -> proc_ok L now (table d) pr -> nul_free g ->
  wp (SQL_LookupKey g n now L)
    (fun r pr' t' => kept now (table d) pr' t' /\
       ((exists ip, r = (ip, true, None) /\ live_row (table d) now (g, n) ip /\ served now t' g n ip) \/
        (r = (AddrZero, false, None) /\ t' = table d /\ forall ip, ~ live_row (table d) now (g, n) ip))) pr d.
Proof.
  intros Ht Hok Hp Hg. unfold SQL_LookupKey. eapply wp_bind; [by apply cacheKeyLive_wp|].
  intros [ip ok] pr' d' (Et & Hp' & Hhit). cbn in Hhit. rewrite Et in Hp'. destruct ok.
  - destruct (Hhit eq_refl) as (-> & _ & H4 & Hlive). rewrite Et in Hlive.
    destruct Hlive as (_ & x & Hrow & Hx).
    eapply wp_bind; [apply (renew_ok g n now false pr d' ip x); by rewrite ?Et|].
    intros e pr'' d'' (-> & Hk & Hsv). apply wp_ret. rewrite Et in Hk. split; [done|]. left.
    exists ip. split_and!; [done|by split; eauto|done].
  - apply wp_sql; [done|]. intros q d1 [Ed Eq]. rewrite Et in Ed, Eq. clear Hhit.
    rewrite UnixNano_small in Eq by (destruct Ht; lia). destruct (table d !! (g, n)) as [[s e]|] eqn:Hrow.
    + destruct (row_addr _ _ _ _ _ Hok Hrow) as (ip' & x & -> & -> & H4 & Hpa & _).
      unfold row_live in Eq. cbn in Eq. destruct (Z.ltb_spec now x); subst q; cbn beta iota.
      * rewrite Hpa. eapply wp_mono; [|apply (remember_renew_ok g n now ip' x pr' d1
            (fun e => (ip', true, e))); rewrite ?Ed; try done].
        cbv beta. intros r pr'' t'' (-> & Hk & Hsv). rewrite Ed in Hk. split; [done|]. left.
        exists ip'. split_and!; [done|by split; eauto|done].
      * apply wp_ret. rewrite Ed. split; [by split_and!; [|apply table_step_refl|]|]. right.
        split_and!; [done..|]. intros ip0 (_ & x0 & ? & ?). simplify_eq. lia.
    + subst q. cbn beta iota. apply wp_ret. rewrite Ed.
      split; [by split_and!; [|apply table_step_refl|]|]. right. split_and!; [done..|].
      intros ip0 (_ & x0 & ? & ?). congruence.
Qed.

Lemma SQL_Lookup_wp ip now pr d :
  time_ok L now -> table_ok L now (table d) -> proc_ok L now (table d) pr -> ipv4 ip ->
  wp (SQL_Lookup ip now L)
    (fun r pr' t' => kept now (table d) pr' t' /\
       ((exists g n, r = (mkMapping g n, true, None) /\ live_row (table d) now (g, n) ip /\
           served now t' g n ip) \/
        (r = (MappingZero, false, None) /\ t' = table d /\ forall k, ~ live_row (table d) now k ip))) pr d.
Proof.
  intros Ht Hok Hp H4. unfold SQL_Lookup. apply wp_cache. intros [m ok] a' E.
  apply (LookupLive_proc_ok now (table d)) in E as (Hp' & Hhit & _); [|done]. destruct ok.
  - destruct (Hhit eq_refl) as (-> & Hm & Hx). rewrite set_alloc_id in *.
    destruct (c_entries _ _ _ _ Hp _ _ Hm) as (Hg & _ & _ & Hrow).
    destruct (Hrow Hx) as (x & Hrow' & ?).
    apply wp_cache. intros u a' E. simplify_eq.
    assert (RememberUntil (p_alloc pr) (m_Gateway m) (m_Domain m) ip (now + L) = p_alloc pr) as ->.
    { unfold RememberUntil. by rewrite (linked_ip _ (c_linked _ _ _ _ Hp) _ _ Hm : byKey _ !! akey _ _ = _). }
    rewrite set_alloc_id. eapply wp_bind; [apply (renew_ok _ _ now false pr d ip x); done || lia|].
    intros e pr'' d'' (-> & Hk & Hsv). apply wp_ret. split; [done|]. left.
    exists (m_Gateway m), (m_Domain m). split_and!; [by destruct m| |done]. split; [done|]. exists x. split; [done|lia].
  - clear Hhit. apply wp_sql; [done|]. intros q d1 [Ed Eq].
    rewrite UnixNano_small in Eq by (destruct Ht; lia). destruct q as [[g n]|].
    + destruct Eq as (e & Hrow & Hlive).
      destruct (row_addr _ _ _ _ _ Hok Hrow) as (_ & x & _ & -> & _ & _ & Hg).
      unfold row_live in Hlive. cbn in Hlive, Hg. bool_simp.
      eapply wp_mono; [|apply (remember_renew_ok g n now ip x _ d1
          (fun e => (mkMapping g n, true, e))); rewrite ?Ed; try done].
      cbv beta. intros r pr'' t'' (-> & Hk & Hsv). rewrite Ed in Hk. split; [done|]. left.
      exists g, n. split_and!; [done|by split; eauto|done].
    + apply wp_ret. rewrite Ed. split; [by split_and!; [|apply table_step_refl|]|]. right.
      split_and!; [done..|]. intros k (_ & x & Hrow & Hx). apply Eq in Hrow. unfold row_live in Hrow.
      cbn in Hrow. bool_simp. lia.
Qed.

(** The first address of [vs] that no row holds. *)
Definition first_free (t : Table) (vs : list Z) : option Z :=
  List.find (fun v => negb (ip_taken t (AddrString (Addr4 v)))) vs.

Definition alloc_result (o : option Z) : Addr * option err :=
  match o with Some v => (Addr4 v, None) | None => (AddrZero, Some ErrExhausted) end.

Lemma insert_loop_wp g n now vs pr d :
  time_ok L now -> table_ok L now (table d) -> proc_ok L now (table d) pr -> nul_free g ->
  table d !! (g, n) = None -> Forall (fun v => 0 <= v < 2 ^ 32 /\ owns g v) vs ->
  wp (insert_loop g n now L (Addr4 <$> vs))
    (fun r pr' t' => r = alloc_result (first_free (table d) vs) /\ kept now (table d) pr' t' /\
       match first_free (table d) vs with
       | Some v => t' !! (g, n) = Some (AddrString (Addr4 v), Some (now + L))
       | None => t' = table d
       end) pr d.
Proof.
  intros Ht Hok Hp Hg Hnone Hvs. revert pr d Hok Hp Hnone.
  induction Hvs as [|v vs [Hv Ho] Hvs IH]; intros pr d Hok Hp Hnone; cbn [fmap list_fmap insert_loop].
  { apply wp_ret. split; [done|]. split; [by split_and!; [|apply table_step_refl|]|done]. }
  apply wp_sql; [done|]. intros ins d1 Hins. cbn [sql_step] in Hins.
  apply wp_sql; [done|]. intros q d2 [E2 Eq].
  rewrite UnixNano_small in Eq by (destruct Ht; lia).
  rewrite UnixNano_small in Hins by (destruct Ht; lia).
  unfold first_free. cbn [List.find].
  destruct Hins as [(-> & E1 & Hheld)|(-> & E1 & _ & Hfree)].
  - rewrite E1, Hnone in Eq. subst q. cbn beta iota. rewrite Z.eqb_refl. rewrite E1 in E2.
    destruct Hheld as [[? ?]|Hheld]; [congruence|].
    rewrite (proj2 (ip_taken_holds _ _) Hheld). cbn [negb].
    pose proof (IH pr d2) as IH'. rewrite E2 in IH'. by apply IH'.
  - destruct (ip_taken (table d) (AddrString (Addr4 v))) eqn:Etk.
    { exfalso. by apply Hfree, ip_taken_holds. }
    assert (Hrow : table d1 !! (g, n) = Some (AddrString (Addr4 v), Some (now + L)))
      by (rewrite E1; apply lookup_insert_eq).
    rewrite Hrow, (proj2 (Z.ltb_lt now (now + L))) in Eq by lia. subst q. cbn beta iota zeta.
    rewrite ParseAddr_AddrString by done. cbn [negb].
    destruct (insert_ok now (table d) g n v Hok Hg Hv Ho Hnone Hfree) as [Hok' Hst].
    rewrite <-E1 in Hok', Hst.
    apply wp_cache. intros u a' E. simplify_eq.
    apply wp_mem. intros u' pr' E. simplify_eq. apply wp_ret. rewrite E2.
    split; [done|]. split; [split_and!; [done..|]|done].
    pose proof (remember_proc_ok now (table d1)
      (set_lastRenewed (<[akey g n := now]> (p_lastRenewed pr)) pr) g n (Addr4 v)) as Hr.
    destruct Ht as [Hn0 Hb0]. apply Hr; [done| |done|by exists v|eauto with lia].
    pose proof (proc_ok_step L _ _ _ _ Hst Hp) as [Hl He Hrn]. split; [done|done|]. cbn.
    intros g' n' last Hg'. rewrite lookup_insert_Some. intros [[Ek <-]|[_ Hd]]; [|by apply Hrn].
    apply akey_inj in Ek as [<- <-]; [|done|done]. split; [lia|]. intros ip x Hx.
    rewrite Hrow in Hx. simplify_eq. lia.
Qed.

(** ** The candidate loop *)

Lemma hosts_from_seq p fuel : forall x,
  wf4 p -> base p < x <= pend p -> pend p - x <= Z.of_nat fuel ->
  hosts_from fuel p (Addr4 x) = Addr4 <$> seqZ x (pend p - x).
Proof.
  induction fuel as [|fuel IH]; intros x Hp Hx Hf.
  { replace (pend p - x) with 0 by lia. done. }
  cbn [hosts_from]. destruct (decide (x = pend p)) as [->|Hne].
  { replace (PContains p (Addr4 (pend p))) with false by (symmetry; apply PContains4_false; cbn; lia || done).
    by rewrite Z.sub_diag. }
  rewrite (proj2 (PContains_Addr4 p x Hp)) by lia. rewrite seqZ_cons by lia. cbn [fmap list_fmap]. f_equal.
  unfold Next. cbn [Is4 Addr4 addr_kind addr_val]. pose proof (pend_bound p Hp).
  destruct (Z.eqb_spec (x + 1) (2 ^ 32)).
  - replace (Z.pred (pend p - x)) with 0 by lia. destruct fuel; [done|]. cbn [hosts_from].
    replace (PContains p AddrZero) with false; [done|]. symmetry. apply PContains4_false; [done|]. by intros [? _].
  - fold (Addr4 (x + 1)). rewrite (IH (x + 1)) by (done || lia). do 2 f_equal; lia.
Qed.

(** The two nested loops visit exactly the pool, in order: the fuel of [hosts] is
    never the reason the loop stops. *)
Lemma hosts_pool ps : Forall wf4 ps -> ps ≫= hosts = Addr4 <$> pool ps.
Proof.
  induction 1 as [|p ps Hp _ IH]; [done|]. cbn [mbind list_bind]. fold (ps ≫= hosts).
  rewrite pool_cons, fmap_app. f_equal; [|exact IH]. unfold hosts, pool1, first_host.
  rewrite Masked_wf4, wf4_addr by done.
  pose proof (psize_pos p ltac:(apply Hp)). pose proof (pend_bound p Hp).
  unfold Next. cbn [Is4 Addr4 addr_kind addr_val]. destruct (Z.eqb_spec (base p + 1) (2 ^ 32)).
  - unfold pend in *. replace (psize p - 1) with 0 by lia. replace (psize p) with 1 by lia.
    change (Z.to_nat 1) with 1%nat. cbn [hosts_from].
    replace (PContains p AddrZero) with false; [done|]. symmetry. apply PContains4_false; [done|]. by intros [? _].
  - fold (Addr4 (base p + 1)). rewrite hosts_from_seq by (unfold pend; done || lia).
    f_equal. f_equal. unfold pend. lia.
Qed.

Lemma pool_bound ps : Forall wf4 ps -> Forall (fun v => 0 <= v < 2 ^ 32) (pool ps).
Proof.
  intros Hps. apply Forall_forall. intros v (p & Hp & Hv)%elem_of_pool.
  rewrite Forall_forall in Hps. specialize (Hps p Hp). apply elem_of_pool1 in Hv; [|done].
  pose proof (pend_bound p Hps). pose proof (wf4_base p Hps). lia.
Qed.

(** The table without its dead rows. *)
Definition live_table (now : Time) (t : Table) : Table := filter (fun kr => row_live now kr.2 = true) t.

(** What an allocation promises: the live row's address if there is one; otherwise
    the first address of the pool that no live row holds, recorded with a full
    lease; otherwise a refusal, with every address of the pool held. *)
Definition allocated (now : Time) (t : Table) (g : str) (ps : list Prefix) (n : str)
  (r : Addr * option err) (t' : Table) : Prop :=
  (exists ip, r = (ip, None) /\ live_row t now (g, n) ip /\ served now t' g n ip) \/
  ((forall ip, ~ live_row t now (g, n) ip) /\
   r = alloc_result (first_free (live_table now t) (pool ps)) /\
   forall v, first_free (live_table now t) (pool ps) = Some v -> served now t' g n (Addr4 v)).

Lemma live_table_none now t k :
  table_ok L now t -> (forall ip, ~ live_row t now k ip) -> live_table now t !! k = None.
Proof.
  intros Hok Hno. apply map_lookup_filter_None. right. intros [s e] Hk.
  destruct (row_addr _ _ _ _ _ Hok Hk) as (ip & x & -> & -> & H4 & _). cbn. unfold row_live. cbn.
  rewrite Z.ltb_lt. intros Hx. apply (Hno ip). split; eauto.
Qed.

Lemma kept_trans now t1 t2 pr2 pr3 t3 : kept now t1 pr2 t2 -> kept now t2 pr3 t3 -> kept now t1 pr3 t3.
Proof. intros (_ & S1 & _) (K2 & S2 & P2). split_and!; [done|by eapply table_step_trans|done]. Qed.

Lemma SQL_Allocate_wp g ps n now pr d :
  time_ok L now -> table_ok L now (table d) -> proc_ok L now (table d) pr -> Forall wf4 ps -> g = rangeKey ps ->
  wp (SQL_Allocate g ps n now L)
    (fun r pr' t' => kept now (table d) pr' t' /\ allocated now (table d) g ps n r t') pr d.
Proof.
  intros Ht Hok Hp Hps Egk.
  assert (Hg : nul_free g) by (rewrite Egk; by apply rangeKey_no_nul).
  assert (Hown : forall v, v ∈ pool ps -> owns g v) by (intros; by exists ps). clear Egk.
  unfold SQL_Allocate. eapply wp_bind; [by apply cacheKeyLive_wp|].
  intros [ip ok] pr' d' (Et & Hp' & Hhit). cbn in Hhit. rewrite Et in Hp'. destruct ok.
  - destruct (Hhit eq_refl) as (-> & Hkey & H4 & Hlive). rewrite Et in Hlive.
    destruct Hlive as (_ & x & Hrow & Hx). apply wp_cache. intros u a' E. simplify_eq.
    assert (RememberUntil (p_alloc pr) g n ip (now + L) = p_alloc pr) as ->.
    { unfold RememberUntil. by rewrite Hkey. }
    rewrite set_alloc_id.
    eapply wp_bind; [apply (renew_ok g n now false pr d' ip x); by rewrite ?Et|].
    intros e pr'' d'' (-> & Hk & Hsv). apply wp_ret. rewrite Et in Hk. split; [done|]. left.
    exists ip. split_and!; [done|by split; eauto|done].
  - clear Hhit. apply wp_sql; [done|]. intros q d1 [Ed Eq]. rewrite Et in Ed, Eq.
    rewrite UnixNano_small in Eq by (destruct Ht; lia).
    assert (q = None -> forall ip0, ~ live_row (table d) now (g, n) ip0) as Hno.
    { intros -> ip0 (_ & x & Hrow & Hx). rewrite Hrow, (proj2 (Z.ltb_lt _ _) Hx) in Eq. done. }
    destruct q as [[s x]|].
    + destruct (table d !! (g, n)) as [[s' [x'|]]|] eqn:Hrow; try done.
      destruct (Z.ltb_spec now x'); simplify_eq. clear Hno.
      destruct (row_addr _ _ _ _ _ Hok Hrow) as (ip' & x0 & -> & [= <-] & H4 & Hpa & _).
      rewrite Hpa. eapply wp_mono; [|apply (remember_renew_ok g n now ip' x' pr' d1
          (fun e => (ip', e))); rewrite ?Ed; try done].
      cbv beta. intros r pr'' t'' (-> & Hk & Hsv). rewrite Ed in Hk. split; [done|]. left.
      exists ip'. split_and!; [done|by split; eauto|done].
    + specialize (Hno eq_refl). apply wp_sql; [done|]. intros q d2 Hd2. cbn [sql_step] in Hd2.
      rewrite UnixNano_small, Ed in Hd2 by (destruct Ht; lia). fold (live_table now (table d)) in Hd2.
      destruct (delete_ok now (table d) Hok) as [Hok2 Hst2]. fold (live_table now (table d)) in Hok2, Hst2.
      rewrite hosts_pool by done.
      eapply wp_mono; [|apply (insert_loop_wp g n now (pool ps) pr' d2); rewrite ?Hd2; try done].
      * cbv beta. rewrite Hd2. intros r pr'' t'' (-> & Hk & Hrow). split.
        { eapply (kept_trans now _ _ pr'); [|done]. split_and!; [done..|]. by eapply proc_ok_step. }
        right. split_and!; [done..|]. intros v Hv. rewrite Hv in Hrow. exists (now + L).
        split; [done|]. unfold renewalDebounce, Minute. lia.
      * by eapply proc_ok_step.
      * by apply live_table_none.
      * apply Forall_forall. intros v Hv. pose proof (pool_bound ps Hps) as Hb.
        rewrite Forall_forall in Hb. auto.
Qed.
End statements.
