(* ===== verification/StoreSave.v ===== *)
(** * [Save] and [Load] of the SQL store

    The two methods of [SQLStore] in [internal/domain/state.go] that copy the whole
    allocator to the table and back: the copy is lossless, but its rows have no expiry,
    and the requests of the store do not see such rows. *)

From S2P Require Import Prelude GoStrings NetAddr Alloc AllocCache Store StoreSpec.

Definition row_key (r : diskMapping) : str * str := (d_Gateway r, d_Domain r).

(** A transaction of upserts of new keys. *)
Lemma upserts_rows rows : forall t t', upserts rows t t' -> NoDup (row_key <$> rows) ->
  (forall r, r ∈ rows -> t !! row_key r = None) -> forall k x,
  t' !! k = Some x <-> (exists r, r ∈ rows /\ k = row_key r /\ x = (d_IP r, None)) \/ t !! k = Some x.
Proof.
  induction rows as [|r rows IH]; intros t t' Hu Hn Hfree k x; cbn in Hu.
  { subst t'. split; [by right|]. by intros [(r & Hr%elem_of_nil & _)|?]. }
  destruct Hu as (t1 & [_ ->] & Hu). cbn in Hn. apply NoDup_cons in Hn as [Hni Hn].
  assert (Hr : t !! row_key r = None) by (apply Hfree; left). unfold row_key in Hr. rewrite Hr in Hu. cbn in Hu.
  rewrite (IH _ _ Hu Hn).
  - setoid_rewrite elem_of_cons. rewrite lookup_insert_Some. unfold row_key. split.
    + intros [(r' & Hin & -> & ->)|[[<- <-]|[_ Hx]]]; [left; eauto|left; eauto|by right].
    + intros [(r' & [->|Hin] & -> & ->)|Hx]; [by right; left|left; eauto|].
      right. right. split; [|done]. intros <-. congruence.
  - intros r' Hin. rewrite lookup_insert_ne; [apply Hfree; by right|]. intros E. apply Hni.
    apply list_elem_of_fmap. by exists r'.
Qed.

(** The rows of an allocator whose maps agree have distinct keys. *)
Lemma save_rows_nodup a : linked a -> NoDup (row_key <$> save_rows a).
Proof.
  intros Hl. unfold save_rows. rewrite <-list_fmap_compose. apply NoDup_fmap_2_strong; [|apply NoDup_map_to_list].
  intros [i1 [g1 n1]] [i2 [g2 n2]] H1%elem_of_map_to_list H2%elem_of_map_to_list E. cbn in E. injection E as -> ->.
  f_equal. by apply (linked_unique a i1 i2 _ _ Hl H1 H2).
Qed.

Lemma elem_of_save_rows a r :
  r ∈ save_rows a <-> exists ip m, byIP a !! ip = Some m /\ r = mkDisk (m_Gateway m) (m_Domain m) (AddrString ip).
Proof.
  unfold save_rows. rewrite list_elem_of_fmap. split.
  - intros ([ip m] & -> & Hm%elem_of_map_to_list). eauto.
  - intros (ip & m & Hm & ->). exists (ip, m). split; [done|]. by apply elem_of_map_to_list.
Qed.

(** What a table that was saved to from scratch reads as a whole. *)
Lemma saved_table a t rows :
  linked a -> upserts (save_rows a) ∅ t ->
  rows ≡ₚ ((fun kr : (str * str) * (str * option Z) => mkDisk kr.1.1 kr.1.2 kr.2.1) <$> map_to_list t) ->
  rows ≡ₚ save_rows a /\ forall k ip e, t !! k = Some (ip, e) -> e = None.
Proof.
  intros Hl Hu Hp.
  pose proof (upserts_rows _ _ _ Hu (save_rows_nodup a Hl) (fun r _ => lookup_empty _)) as Ht. split.
  - rewrite Hp. apply NoDup_Permutation.
    + apply NoDup_fmap_2_strong; [|apply NoDup_map_to_list].
      intros [[g1 n1] [i1 e1]] [[g2 n2] [i2 e2]] H1%elem_of_map_to_list H2%elem_of_map_to_list E. cbn in E.
      injection E as -> -> ->. congruence.
    + by eapply NoDup_fmap_1, save_rows_nodup.
    + intros r. rewrite list_elem_of_fmap. split.
      * intros ([[g n] [ip e]] & -> & Hm%elem_of_map_to_list). apply Ht in Hm as [([g' n' ip'] & Hr & [= -> ->] & [= -> ->])|?]; done.
      * intros Hr. exists (row_key r, (d_IP r, None)). split; [by destruct r|]. apply elem_of_map_to_list, Ht. left. eauto.
  - intros k ip e [(r & _ & _ & [= _ ->])|Hx]%Ht; [done|]. by rewrite lookup_empty in Hx.
Qed.

(** C15: saving an allocator to an empty table and loading it into a new process is lossless;
    but until then no request of a store finds what was saved: every lookup of a key or an
    address misses, and the clean-up of the first allocation deletes it all. *)
Theorem store_save_load `{DB : Database} pr pr' d d' :
  linked (p_alloc pr) -> (forall ip m, byIP (p_alloc pr) !! ip = Some m -> ipv4 ip) -> table d = ∅ ->
  run SQL_Save pr d = (None, pr', d') ->
  (forall r pr2 d2, run SQL_Load NewProcess d' = (r, pr2, d2) -> r <> Some ErrDB ->
     r = None /\ byIP (p_alloc pr2) = byIP (p_alloc pr) /\ byKey (p_alloc pr2) = byKey (p_alloc pr)) /\
  (forall A (q : stmt A) x d2, exec q d' = (Some x, d2) ->
     match q in stmt A return A -> Prop with
     | SelectKey _ _ _ => fun x => x = None
     | SelectKeyIP _ _ _ => fun x => x = None
     | SelectIP _ _ => fun x => x = None
     | DeleteExpired _ => fun _ => table d2 = ∅
     | _ => fun _ => True
     end x).
Proof.
  intros Hl H4 Hd Hs. cbn in Hs. destruct (exec (UpsertAll (save_rows (p_alloc pr))) d) as [r0 d1] eqn:Ee.
  destruct r0 as [[]|]; [|done]. cbn in Hs. injection Hs as _ <-. apply exec_ok in Ee. cbn in Ee. rewrite Hd in Ee.
  destruct (saved_table _ _ _ Hl Ee (reflexivity _)) as [Hrows Hnull]. split.
  - intros r pr2 d2 Hr Hne. cbn in Hr. destruct (exec SelectAll d1) as [[rows|] d3] eqn:Eq; [|cbn in Hr; congruence].
    cbn in Hr. apply exec_ok in Eq as [_ Hp]. destruct (saved_table _ _ rows Hl Ee Hp) as [Hperm _].
    destruct (save_load _ rows Hl H4 Hperm) as (l & _ & Hload & Hip & Hkey). rewrite Hload in Hr. cbn in Hr.
    injection Hr as <- <- <-. done.
  - intros A q x d2 Hq. apply exec_ok in Hq. destruct q; try done; cbn in Hq.
    + destruct Hq as [_ ->]. destruct (table d1 !! _) as [[ip [e|]]|] eqn:Er; [|done..]. by apply Hnull in Er.
    + destruct Hq as [_ ->]. destruct (table d1 !! _) as [[ip e]|] eqn:Er; [|done]. by rewrite (Hnull _ _ _ Er).
    + destruct Hq as [_ Hq]. destruct x as [k|]; [|done]. destruct Hq as (e & Hk & Hlive). by rewrite (Hnull _ _ _ Hk) in Hlive.
    + rewrite Hq. apply map_empty_filter_2. intros k [ip e] Hk Hlive. cbn in Hlive. by rewrite (Hnull _ _ _ Hk) in Hlive.
Qed.

Lemma cache1_ipv4 ip m : byIP cache1 !! ip = Some m -> ipv4 ip.
Proof.
  unfold cache1, RememberUntil. cbn. rewrite !lookup_empty. cbn. rewrite lookup_insert_Some, lookup_empty.
  intros [[<- _]|[_ ?]]; [|done]. by exists 184418305.
Qed.

Lemma store_save_load_witness :
  let '(_, _, d') := run (DB := table_db) SQL_Save (set_alloc cache1 NewProcess) ∅ in
  byKey (p_alloc (run (DB := table_db) SQL_Load NewProcess d').1.2) = byKey cache1.
Proof.
  destruct (run (DB := table_db) SQL_Save (set_alloc cache1 NewProcess) ∅) as [[r pr'] d'] eqn:E.
  assert (r = None) as -> by (apply (f_equal (fun x => x.1.1)) in E; vm_compute in E; done).
  destruct (run (DB := table_db) SQL_Load NewProcess d') as [[r2 pr2] d2] eqn:E2.
  destruct (store_save_load (DB := table_db) (set_alloc cache1 NewProcess) pr' ∅ d'
    (RememberUntil_linked _ _ _ _ _ linked_new) cache1_ipv4 eq_refl E) as [Hload _].
  destruct (Hload _ _ _ E2) as (_ & _ & Hk); [|exact Hk].
  intros ->. cbn in E2. by destruct (load_rows _ _) as [[] ?].
Defined.
