(* ===== verification/Replicas.v ===== *)
(** * Replicas: DNS authorities sharing one database

    The allocation lifecycle over the SQL store, for one process and for any number
    of replicas that share the database, the lease and a clock, each serving its
    requests one at a time; and the two ways in which the guarantee is lost, a
    failed renewal and an interleaving of two requests at statement level. *)

From S2P Require Import Prelude GoStrings NetAddr Policy PolicySpec Alloc AllocSpec AllocCache Store StoreSpec.

Lemma lease_pos l : 0 < lease l.
Proof. unfold lease. destruct (Z.ltb_spec 0 (l_Lease l)); [done|]. by vm_compute. Qed.

(** ** One process *)

Section lifecycle.
Context `{DB : Database} {RL : Reliable} (l : AllocationLifecycle) (Hstore : l_Store l = true).

Lemma Lifecycle_Allocate_wp now ps n pr d :
  time_ok (lease l) now -> table_ok (lease l) now (table d) -> proc_ok (lease l) now (table d) pr ->
  Forall wf4 ps ->
  wp (Lifecycle_Allocate l now (rangeKey ps) ps n)
    (fun r pr' t' => kept (lease l) now (table d) pr' t' /\
       allocated (lease l) now (table d) (rangeKey ps) ps n r t') pr d.
Proof.
  intros Ht Hok Hp Hps. pose proof (rangeKey_no_nul ps Hps) as Hg. unfold Lifecycle_Allocate. rewrite Hstore.
  eapply wp_bind; [by apply SQL_LookupKey_wp; auto using lease_pos|].
  cbv beta. intros r pr' d' [Hk [(ip & -> & Hlive & Hsv)|(-> & Et & Hno)]].
  - apply wp_ret. split; [done|]. left. eauto.
  - cbn [bool_decide orb is_Some]. rewrite bool_decide_eq_false_2 by (by intros [? ?]). cbn [orb].
    destruct Hk as (Hok' & Hst & Hp'). rewrite Et in *.
    eapply wp_mono; [|apply (SQL_Allocate_wp (lease l) (lease_pos l) (rangeKey ps) ps n now pr' d'); by rewrite ?Et].
    cbv beta. rewrite Et. done.
Qed.

Lemma Lifecycle_Lookup_wp now ip pr d :
  time_ok (lease l) now -> table_ok (lease l) now (table d) -> proc_ok (lease l) now (table d) pr ->
  ipv4 ip ->
  wp (Lifecycle_Lookup l now ip)
    (fun r pr' t' => kept (lease l) now (table d) pr' t' /\
       ((exists g n, r = (mkMapping g n, true) /\ live_row (table d) now (g, n) ip /\
           served (lease l) now t' g n ip) \/
        (r = (MappingZero, false) /\ forall k, ~ live_row (table d) now k ip))) pr d.
Proof.
  intros Ht Hok Hp H4. unfold Lifecycle_Lookup. rewrite Hstore.
  eapply wp_bind; [by apply SQL_Lookup_wp; auto using lease_pos|].
  cbv beta. intros r pr' d' [Hk [(g & n & -> & Hlive & Hsv)|(-> & Et & Hno)]]; apply wp_ret; eauto 10.
Qed.
End lifecycle.

(** C12: with a coherent cache, an allocation request answers exactly as the shared
    table dictates: the address of the name's live row if there is one; otherwise
    the first address of the pool that no live row holds, now recorded for a full
    lease; and a refusal only when live rows hold the whole pool.  Live rows of
    other names stay as they are and the cache stays coherent. *)
Theorem Lifecycle_Allocate_correct `{DB : Database} {RL : Reliable} l now ps n pr d :
  l_Store l = true -> time_ok (lease l) now ->
  table_ok (lease l) now (table d) -> proc_ok (lease l) now (table d) pr -> Forall wf4 ps ->
  let '(r, pr', d') := run (Lifecycle_Allocate l now (rangeKey ps) ps n) pr d in
  allocated (lease l) now (table d) (rangeKey ps) ps n r (table d') /\
  kept (lease l) now (table d) pr' (table d').
Proof.
  intros Hs Ht Hok Hp Hps.
  pose proof (Lifecycle_Allocate_wp l Hs now ps n pr d Ht Hok Hp Hps) as Hw. unfold wp in Hw.
  destruct (run _ pr d) as [[r pr'] d']. tauto.
Qed.

(** C13: with a coherent cache, a reverse lookup returns a name exactly when a live
    row of the shared table gives that name the address; the cache is transparent. *)
Theorem Lifecycle_Lookup_correct `{DB : Database} {RL : Reliable} l now ip pr d :
  l_Store l = true -> time_ok (lease l) now ->
  table_ok (lease l) now (table d) -> proc_ok (lease l) now (table d) pr -> ipv4 ip ->
  let '(m, ok, pr', d') := run (Lifecycle_Lookup l now ip) pr d in
  (ok = true <-> exists k, live_row (table d) now k ip) /\
  (ok = true -> live_row (table d) now (m_Gateway m, m_Domain m) ip /\
                served (lease l) now (table d') (m_Gateway m) (m_Domain m) ip) /\
  (ok = false -> m = MappingZero) /\
  kept (lease l) now (table d) pr' (table d').
Proof.
  intros Hs Ht Hok Hp H4.
  pose proof (Lifecycle_Lookup_wp l Hs now ip pr d Ht Hok Hp H4) as Hw. unfold wp in Hw.
  destruct (run _ pr d) as [[[m ok] pr'] d'].
  destruct Hw as [Hk [(g & n & [= -> ->] & Hlive & Hsv)|([= -> ->] & Hno)]].
  - split_and!; try done. split; [by eauto|done].
  - split_and!; try done. split; [done|]. intros [k Hk']. by apply Hno in Hk'.
Qed.

Lemma table_ok_empty L now : table_ok L now ∅.
Proof. split; [intros ?????|intros ???]; by rewrite lookup_empty. Qed.

Lemma proc_ok_new L now t : proc_ok L now t NewProcess.
Proof.
  split; cbn; [apply linked_new|intros ??; by rewrite lookup_empty|intros ????; by rewrite lookup_empty].
Qed.

(** A store with the default lease of an hour, and a small range. *)
Definition sql_lifecycle : AllocationLifecycle := mkLifecycle true [] 0.
Definition small_range : Prefix := mkPrefix (AddrFrom4 10 254 0 0) 30.
Definition noon : Time := 10 ^ 18.

Lemma small_range_wf : wf4 small_range.
Proof. by split; vm_compute. Qed.

Lemma noon_ok : time_ok (lease sql_lifecycle) noon.
Proof. by split; vm_compute. Qed.

Lemma nul_free_small : nul_free (rangeKey [small_range]).
Proof. apply has_byte_false. by vm_compute. Qed.

Lemma Lifecycle_Allocate_correct_witness :
  let '(r, pr', d') := @run table_db _ (Lifecycle_Allocate sql_lifecycle noon (rangeKey [small_range]) [small_range] "a.lab")
                         NewProcess ∅ in
  allocated (lease sql_lifecycle) noon ∅ (rangeKey [small_range]) [small_range] "a.lab" r d' /\
  kept (lease sql_lifecycle) noon ∅ pr' d'.
Proof.
  apply (@Lifecycle_Allocate_correct table_db _ sql_lifecycle noon [small_range] "a.lab" NewProcess ∅).
  - reflexivity.
  - apply noon_ok.
  - apply table_ok_empty.
  - apply proc_ok_new.
  - repeat constructor; apply small_range_wf.
Defined.

(** The run of the witness, evaluated. *)
Example first_allocation :
  (@run table_db _ (Lifecycle_Allocate sql_lifecycle noon (rangeKey [small_range]) [small_range] "a.lab")
     NewProcess ∅).1.1 = (AddrFrom4 10 254 0 1, None).
Proof. by vm_compute. Qed.

Definition one_row : Table :=
  {[ (rangeKey [small_range], lit "a.lab") := (AddrString (AddrFrom4 10 254 0 1), Some (noon + Minute)) ]}.

Lemma one_row_ok : table_ok (lease sql_lifecycle) noon one_row.
Proof.
  unfold one_row. split.
  - intros k k' ip e e' [<- _]%lookup_singleton_Some [<- _]%lookup_singleton_Some. done.
  - intros k ip e [<- [= <- <-]]%lookup_singleton_Some. split; [apply nul_free_small|].
    exists 184418305, (noon + Minute). split_and!; [by vm_compute|lia|lia|done|by vm_compute|].
    exists [small_range]. split_and!; [repeat constructor; apply small_range_wf|done|].
    apply elem_of_pool. exists small_range. split; [by apply list_elem_of_here|].
    apply elem_of_pool1; [apply small_range_wf|by vm_compute].
Qed.

Lemma Lifecycle_Lookup_correct_witness :
  let '(m, ok, pr', d') := @run table_db _ (Lifecycle_Lookup sql_lifecycle noon (AddrFrom4 10 254 0 1)) NewProcess one_row in
  ok = true /\ m = mkMapping (rangeKey [small_range]) "a.lab" /\
  kept (lease sql_lifecycle) noon one_row pr' d'.
Proof.
  pose proof (@Lifecycle_Lookup_correct table_db _ sql_lifecycle noon (AddrFrom4 10 254 0 1) NewProcess one_row
    eq_refl noon_ok one_row_ok (proc_ok_new _ _ _)) as H.
  destruct (run _ _ _) as [[[m ok] pr'] d'] eqn:E.
  assert (ok = true /\ m = mkMapping (rangeKey [small_range]) "a.lab") as [-> ->].
  { apply (f_equal (fun x => x.1.1)) in E. vm_compute in E. by simplify_eq. }
  split; [done|]. split; [done|]. apply H. exists 184418305. split; [by vm_compute|lia].
Defined.

(** ** Many processes *)

Section cluster.
Context `{DB : Database} {RL : Reliable} (l : AllocationLifecycle) (Hstore : l_Store l = true).

(** An answer given at a time: the name has the address. *)
Record answer := mkAnswer { a_time : Time; a_key : str * str; a_ip : Addr }.

Record cluster := mkCluster {
  cl_now : Time; cl_db : db; cl_procs : nat -> Process; cl_answers : list answer }.

Definition set_proc (procs : nat -> Process) (i : nat) (pr : Process) : nat -> Process :=
  fun j => if (j =? i)%nat then pr else procs j.

Definition log_allocate (now : Time) (k : str * str) (r : Addr * option err) : list answer :=
  match r.2 with None => [mkAnswer now k r.1] | Some _ => [] end.
Definition log_lookup (now : Time) (ip : Addr) (r : Mapping * bool) : list answer :=
  if r.2 then [mkAnswer now (m_Gateway r.1, m_Domain r.1) ip] else [].

(** Time passes; a replica serves an allocation; a replica serves a reverse lookup. *)
Inductive clstep : cluster -> cluster -> Prop :=
| cl_tick c now' :
    cl_now c <= now' -> time_ok (lease l) now' ->
    clstep c (mkCluster now' (cl_db c) (cl_procs c) (cl_answers c))
| cl_allocate c i ps n r pr' d' :
    Forall wf4 ps ->
    run (Lifecycle_Allocate l (cl_now c) (rangeKey ps) ps n) (cl_procs c i) (cl_db c) = (r, pr', d') ->
    clstep c (mkCluster (cl_now c) d' (set_proc (cl_procs c) i pr')
                (log_allocate (cl_now c) (rangeKey ps, n) r ++ cl_answers c))
| cl_lookup c i ip r pr' d' :
    ipv4 ip ->
    run (Lifecycle_Lookup l (cl_now c) ip) (cl_procs c i) (cl_db c) = (r, pr', d') ->
    clstep c (mkCluster (cl_now c) d' (set_proc (cl_procs c) i pr')
                (log_lookup (cl_now c) ip r ++ cl_answers c)).

(** How long an answer is good for: the lease, less the renewal interval. *)
Definition good_for : Z := lease l - renewalDebounce.

Definition backed (now : Time) (t : Table) (a : answer) : Prop :=
  a_time a <= now /\ ipv4 (a_ip a) /\
  (now <= a_time a + good_for -> exists x,
     t !! a_key a = Some (AddrString (a_ip a), Some x) /\ a_time a + good_for < x).

Definition agree (a b : answer) : Prop :=
  Z.abs (a_time a - a_time b) <= good_for -> (a_ip a = a_ip b <-> a_key a = a_key b).

Record cluster_ok (c : cluster) : Prop := {
  co_time : time_ok (lease l) (cl_now c);
  co_table : table_ok (lease l) (cl_now c) (table (cl_db c));
  co_procs : forall i, proc_ok (lease l) (cl_now c) (table (cl_db c)) (cl_procs c i);
  co_backed : Forall (backed (cl_now c) (table (cl_db c))) (cl_answers c);
  co_agree : forall a b, a ∈ cl_answers c -> b ∈ cl_answers c -> agree a b;
}.

Definition cluster_init (now : Time) (d : db) : cluster :=
  mkCluster now d (fun _ => NewProcess) [].

Lemma cluster_init_ok now d :
  time_ok (lease l) now -> table_ok (lease l) now (table d) -> cluster_ok (cluster_init now d).
Proof.
  intros Ht Hok. split; cbn; auto using proc_ok_new. by intros ?? ?%elem_of_nil.
Qed.

Lemma backed_step now t t' a : table_step (lease l) now t t' -> backed now t a -> backed now t' a.
Proof.
  intros Hs (? & ? & Hx). split_and!; [done..|]. intros Hg. destruct (Hx Hg) as (x & Hrow & ?).
  destruct (ts_keep _ _ _ _ Hs _ _ _ Hrow ltac:(lia)) as (x' & ? & ?). exists x'. split; [done|lia].
Qed.

Lemma ipv4_inj ip ip' : ipv4 ip -> ipv4 ip' -> AddrString ip = AddrString ip' -> ip = ip'.
Proof. intros (v & -> & Hv) (w & -> & Hw) E. f_equal. by apply AddrString4_inj. Qed.

(** A row that backs a new answer settles its relation to every earlier one. *)
Lemma backed_agree now t a b :
  table_ok (lease l) now t -> backed now t a -> backed now t b -> a_time a = now -> agree a b.
Proof.
  intros Hok (_ & H4 & Ha) (Hb0 & H4' & Hb) Hn Hd. subst now.
  destruct Ha as (x & Ha & _); [unfold good_for in *; lia|].
  destruct Hb as (y & Hb & _); [lia|]. split.
  - intros E. rewrite <-E in Hb. by eapply (t_unique _ _ _ Hok).
  - intros E. rewrite E in Ha. rewrite Ha in Hb. injection Hb as E' _. by apply ipv4_inj.
Qed.

(** Adding the answer of one request. *)
Lemma cluster_ok_request c i pr' d' new :
  cluster_ok c -> kept (lease l) (cl_now c) (table (cl_db c)) pr' (table d') ->
  (new = [] \/ exists g n ip, new = [mkAnswer (cl_now c) (g, n) ip] /\ ipv4 ip /\
                 served (lease l) (cl_now c) (table d') g n ip) ->
  cluster_ok (mkCluster (cl_now c) d' (set_proc (cl_procs c) i pr') (new ++ cl_answers c)).
Proof.
  intros [Ht Hok Hp Hb Ha] (Hok' & Hst & Hp') Hnew.
  assert (Hb' : Forall (backed (cl_now c) (table d')) (cl_answers c)).
  { eapply Forall_impl; [exact Hb|]. intros a. by apply backed_step. }
  assert (Hpr : forall j, proc_ok (lease l) (cl_now c) (table d') (set_proc (cl_procs c) i pr' j)).
  { intros j. unfold set_proc. destruct (j =? i)%nat; [done|]. by eapply proc_ok_step. }
  destruct Hnew as [->|(g & n & ip & -> & H4 & x & Hrow & Hx)]; [by split|].
  assert (Hbn : backed (cl_now c) (table d') (mkAnswer (cl_now c) (g, n) ip)).
  { split_and!; cbn; [lia|done|]. intros _. exists x. split; [done|]. unfold good_for. lia. }
  split; cbn; try done; [by constructor|].
  assert (Hall : forall b, b ∈ cl_answers c -> agree (mkAnswer (cl_now c) (g, n) ip) b).
  { intros b Hin. rewrite Forall_forall in Hb'. by apply (backed_agree (cl_now c) (table d')); auto. }
  intros a b [->|Hin]%elem_of_cons [->|Hin']%elem_of_cons; auto.
  - intros _. done.
  - intros Hd. rewrite <-Z.abs_opp, Z.opp_sub_distr, Z.add_comm in Hd.
    specialize (Hall a Hin ltac:(cbn in *; lia)). split; intros; symmetry; by apply Hall.
Qed.

Lemma clstep_ok c c' : cluster_ok c -> clstep c c' -> cluster_ok c'.
Proof.
  intros Hc Hstep. pose proof Hc as [Ht Hok Hp Hb Ha]. destruct Hstep as [c now' Hn Ht'|c i ps n r pr' d' Hps Hr|c i ip r pr' d' H4 Hr].
  - split; cbn; try done.
    + by eapply table_ok_later.
    + intros j. by eapply proc_ok_later.
    + eapply Forall_impl; [exact Hb|]. intros a (? & ? & Hx). split_and!; [lia|done|].
      intros ?. apply Hx. lia.
  - pose proof (Lifecycle_Allocate_wp l Hstore (cl_now c) ps n _ _ Ht Hok (Hp i) Hps) as Hw.
    unfold wp in Hw. rewrite Hr in Hw. destruct Hw as [Hk Hal].
    apply cluster_ok_request; [done|done|].
    destruct Hal as [(ip & -> & [H4 _] & Hsv)|(_ & -> & Hsv)]; [by right; eauto 10|].
    destruct (first_free _ _) as [v|] eqn:Ev; [|by left]. right.
    exists (rangeKey ps), n, (Addr4 v). split_and!; [done| |by apply Hsv]. exists v. split; [done|].
    apply find_some in Ev as [Hin%list_elem_of_In _]. pose proof (pool_bound ps Hps) as Hpb.
    rewrite Forall_forall in Hpb. by apply Hpb.
  - pose proof (Lifecycle_Lookup_wp l Hstore (cl_now c) ip _ _ Ht Hok (Hp i) H4) as Hw.
    unfold wp in Hw. rewrite Hr in Hw.
    destruct Hw as [Hk [(g & n & -> & _ & Hsv)|(-> & _)]];
      (apply cluster_ok_request; [done|done|]); [right; by eauto 10|by left].
Qed.

Lemma reachable_ok now d c :
  time_ok (lease l) now -> table_ok (lease l) now (table d) ->
  rtc clstep (cluster_init now d) c -> cluster_ok c.
Proof.
  intros Ht Hok. apply (rtc_ind_r cluster_ok); [by apply cluster_init_ok|].
  intros c1 c2 _ Hs Hc. by eapply clstep_ok.
Qed.
End cluster.



(** ** A concrete run of two replicas *)

Section runs.
Context `{DB : Database} (l : AllocationLifecycle).

Definition do_allocate (c : cluster) (i : nat) (ps : list Prefix) (n : str) : cluster :=
  let '(r, pr', d') := run (Lifecycle_Allocate l (cl_now c) (rangeKey ps) ps n) (cl_procs c i) (cl_db c) in
  mkCluster (cl_now c) d' (set_proc (cl_procs c) i pr') (log_allocate (cl_now c) (rangeKey ps, n) r ++ cl_answers c).

Definition do_lookup (c : cluster) (i : nat) (ip : Addr) : cluster :=
  let '(r, pr', d') := run (Lifecycle_Lookup l (cl_now c) ip) (cl_procs c i) (cl_db c) in
  mkCluster (cl_now c) d' (set_proc (cl_procs c) i pr') (log_lookup (cl_now c) ip r ++ cl_answers c).

Lemma do_allocate_step c i ps n : Forall wf4 ps -> clstep l c (do_allocate c i ps n).
Proof.
  intros. unfold do_allocate. destruct (run _ _ _) as [[r pr'] d'] eqn:E. by eapply cl_allocate.
Qed.

Lemma do_lookup_step c i ip : ipv4 ip -> clstep l c (do_lookup c i ip).
Proof. intros. unfold do_lookup. destruct (run _ _ _) as [[r pr'] d'] eqn:E. by eapply cl_lookup. Qed.
End runs.

Definition cluster1 : cluster (DB := table_db) :=
  do_allocate sql_lifecycle (cluster_init (DB := table_db) noon ∅) 0 [small_range] "a.lab".
Definition cluster2 : cluster (DB := table_db) :=
  do_allocate sql_lifecycle cluster1 1 [small_range] "b.lab".
Definition two_replicas : cluster (DB := table_db) := do_lookup sql_lifecycle cluster2 1 (AddrFrom4 10 254 0 1).

Lemma first_ip_ok : ipv4 (AddrFrom4 10 254 0 1).
Proof. exists 184418305. split; [by vm_compute|lia]. Qed.

Lemma two_replicas_reachable :
  rtc (clstep (DB := table_db) sql_lifecycle) (cluster_init (DB := table_db) noon ∅) two_replicas.
Proof.
  assert (Hr : Forall wf4 [small_range]) by (repeat constructor; apply small_range_wf).
  apply (rtc_l _ _ cluster1); [exact (do_allocate_step _ _ _ _ _ Hr)|].
  apply (rtc_l _ _ cluster2); [exact (do_allocate_step _ _ _ _ _ Hr)|].
  apply rtc_once. exact (do_lookup_step _ _ _ _ first_ip_ok).
Qed.

Lemma two_replicas_answers :
  cl_answers two_replicas =
    [mkAnswer noon (rangeKey [small_range], lit "a.lab") (AddrFrom4 10 254 0 1);
     mkAnswer noon (rangeKey [small_range], lit "b.lab") (AddrFrom4 10 254 0 2);
     mkAnswer noon (rangeKey [small_range], lit "a.lab") (AddrFrom4 10 254 0 1)].
Proof. by vm_compute. Qed.



(** ** What reliability and request atomicity are for *)

(** A database whose statements fail, without effect, where the script says so. *)
Definition flaky_exec {A} (s : stmt A) (d : Table * list bool) : option A * (Table * list bool) :=
  match d.2 with
  | true :: script => (None, (d.1, script))
  | _ => let '(r, t) := table_exec s d.1 in (r, (t, tl d.2))
  end.

Lemma flaky_exec_ok A (s : stmt A) d a d' :
  flaky_exec s d = (Some a, d') -> sql_step s d.1 a d'.1.
Proof.
  unfold flaky_exec. destruct d as [t [|[] script]]; cbn; try done;
    (destruct (table_exec s t) as [r t'] eqn:E; intros [= -> <-]; by apply table_exec_ok).
Qed.

Lemma flaky_exec_err A (s : stmt A) d d' :
  flaky_exec s d = (None, d') -> d'.1 = d.1 \/ exists a, sql_step s d.1 a d'.1.
Proof.
  unfold flaky_exec. destruct d as [t [|[] script]]; cbn; try (intros [= <-]; by left);
    (destruct (table_exec s t) as [r t'] eqn:E; intros [= -> <-]; left; by eapply table_exec_err).
Qed.

Definition flaky_db : Database := {|
  db := Table * list bool; table := fst; exec := @flaky_exec;
  exec_ok := flaky_exec_ok; exec_err := flaky_exec_err |}.

(** One step of a program, and the first [k] steps. *)
Fixpoint nsteps `{DB : Database} {A} (k : nat) (p : prog A) (pr : Process) (d : db) : prog A * Process * db :=
  match k, p with
  | S k, Sql s f => let '(r, d') := exec s d in nsteps k (f r) pr d'
  | S k, Mem f g => let '(b, pr') := f pr in nsteps k (g b) pr' d
  | _, _ => (p, pr, d)
  end.

Lemma run_nsteps `{DB : Database} {A} k (p : prog A) : forall pr d,
  run p pr d = let '(p', pr', d') := nsteps k p pr d in run p' pr' d'.
Proof.
  revert p. induction k as [|k IH]; intros [a|B s f|B f g] pr d; cbn; try done.
  - destruct (exec s d) as [r d']. apply IH.
  - destruct (f pr) as [b pr']. apply IH.
Qed.

(** The name's row in the table, and what the process would answer from its cache. *)
Definition owner (t : Table) (ip : Addr) (now : Time) : option (str * str) :=
  select_ip t (AddrString ip) now.


(** Two requests interleaved at statement level, with no failure.  A lookup reads the
    row just before it expires; before the lookup renews it, another replica deletes
    the expired row and hands the address to another name; the lookup's renewal then
    matches no row, and its replica answers with the old name for an hour. *)
Example lookup_allocate_race :
  let ip := AddrFrom4 10 254 0 1 in
  let gw := rangeKey [small_range] in
  let later := noon + 2 * Minute in
  let '(rest, p1, d1) := nsteps (DB := table_db) 2 (Lifecycle_Lookup sql_lifecycle noon ip) NewProcess one_row in
  let '(r2, _, d2) := run (DB := table_db) (Lifecycle_Allocate sql_lifecycle later gw [small_range] "b.lab")
                        NewProcess d1 in
  let '(r1, p1, d3) := run (DB := table_db) rest p1 d2 in
  let '(r3, _, _) := run (DB := table_db) (Lifecycle_Lookup sql_lifecycle later ip) p1 d3 in
  r2 = (ip, None) /\ owner d3 ip later = Some (gw, lit "b.lab") /\
  r1 = (mkMapping gw "a.lab", true) /\ r3 = (mkMapping gw "a.lab", true).
Proof. by vm_compute. Qed.
