(* ===== verification/Converge.v ===== *)
(** * Concurrent replicas converge

    [SQLStore.Allocate] promises that the unique constraints of the shared table make
    concurrent DNS authorities converge on one stable address.  Here requests of any
    number of replicas run concurrently, several in one replica, interleaved at every
    critical section and every SQL statement, with clocks that need not agree and
    statements that may fail.  The window of time looked at is shorter than a lease,
    and no row of the table falls due in it; [Replicas.lookup_allocate_race] shows what
    happens to a row that does. *)

From S2P Require Import Prelude GoStrings NetAddr Policy PolicySpec Alloc AllocSpec AllocCache Store StoreSpec Replicas.

(** ** Threads *)

Inductive request :=
| ReqAllocate (ps : list Prefix) (name : str)
| ReqLookup (ip : Addr).

(** A request as [Service] issues it, with the answer it gives. *)
Definition request_prog (l : AllocationLifecycle) (now : Time) (r : request) : prog (list answer) :=
  match r with
  | ReqAllocate ps name =>
      r ← Lifecycle_Allocate l now (rangeKey ps) ps name; mret (log_allocate now (rangeKey ps, name) r)
  | ReqLookup ip => r ← Lifecycle_Lookup l now ip; mret (log_lookup now ip r)
  end.

Definition request_ok (r : request) : Prop :=
  match r with ReqAllocate ps n => Forall wf4 ps /\ validName n = true | ReqLookup ip => ipv4 ip end.

(** A goroutine: the replica it runs in and what is left of its request. *)
Record thread := mkThread { th_proc : nat; th_prog : prog (list answer) }.

Record system `{Database} := mkSystem {
  sy_db : db; sy_procs : nat -> Process; sy_threads : list thread; sy_answers : list answer }.

Section system.
Context `{DB : Database} (l : AllocationLifecycle) (first last : Time).

(** A request arrives at some replica, whose clock reads a time of the window; a
    thread executes one statement or one critical section; a thread answers. *)
Inductive systep : system -> system -> Prop :=
| sy_arrive s i now r :
    first <= now <= last -> request_ok r ->
    systep s (mkSystem DB (sy_db s) (sy_procs s)
                (sy_threads s ++ [mkThread i (request_prog l now r)]) (sy_answers s))
| sy_sql s j i B (q : stmt B) k r d' :
    sy_threads s !! j = Some (mkThread i (Sql q k)) -> exec q (sy_db s) = (r, d') ->
    systep s (mkSystem DB d' (sy_procs s) (<[j := mkThread i (k r)]> (sy_threads s)) (sy_answers s))
| sy_mem s j i B (f : Process -> B * Process) k b pr' :
    sy_threads s !! j = Some (mkThread i (Mem f k)) -> f (sy_procs s i) = (b, pr') ->
    systep s (mkSystem DB (sy_db s) (set_proc (sy_procs s) i pr')
                (<[j := mkThread i (k b)]> (sy_threads s)) (sy_answers s))
| sy_answer s j i answers :
    sy_threads s !! j = Some (mkThread i (Ret answers)) ->
    systep s (mkSystem DB (sy_db s) (sy_procs s) (<[j := mkThread i (Ret [])]> (sy_threads s))
                (answers ++ sy_answers s)).

Definition system_init (d : db) : system := mkSystem DB d (fun _ => NewProcess) [] [].
End system.

(** ** What the window keeps *)

Section window.
Context (L first last : Z).

Definition window_ok : Prop := 0 < first /\ last < first + L /\ last + L < 2 ^ 63.

(** [k] has [ip] until after the window. *)
Definition pinned (t : Table) (k : str * str) (ip : Addr) : Prop :=
  ipv4 ip /\ exists x, t !! k = Some (AddrString ip, Some x) /\ last < x.

Record quiet (t : Table) : Prop := {
  q_unique : forall k k' ip e e', t !! k = Some (ip, e) -> t !! k' = Some (ip, e') -> k = k';
  q_rows : forall k ip e, t !! k = Some (ip, e) ->
    nul_free k.1 /\ exists v, ip = AddrString (Addr4 v) /\ 0 <= v < 2 ^ 32 /\ owns k.1 v;
  q_due : forall k ip x, t !! k = Some (ip, Some x) -> x <= first \/ last < x;
  q_names : forall k row, t !! k = Some row -> validName k.2 = true;
}.

Definition future (t t' : Table) : Prop := forall k ip, pinned t k ip -> pinned t' k ip.

#[export] Instance future_preorder : PreOrder future.
Proof. split; [by intros t k ip|]. intros t1 t2 t3 H1 H2 k ip H. by apply H2, H1. Qed.

(** The cache of a replica holds pinned rows only. *)
Record cache_pinned (t : Table) (pr : Process) : Prop := {
  cp_key : forall g n ip, nul_free g -> byKey (p_alloc pr) !! akey g n = Some ip -> pinned t (g, n) ip;
  cp_ip : forall ip m, byIP (p_alloc pr) !! ip = Some m ->
    nul_free (m_Gateway m) /\ pinned t (m_Gateway m, m_Domain m) ip;
}.

Lemma cache_pinned_future t t' pr : future t t' -> cache_pinned t pr -> cache_pinned t' pr.
Proof.
  intros Hf [Hk Hi]. split; [by eauto|]. intros ip m Hm. destruct (Hi _ _ Hm). auto.
Qed.

Lemma cache_pinned_new t : cache_pinned t NewProcess.
Proof. split; cbn; intros *; rewrite lookup_empty; by intros. Qed.

Lemma quiet_empty : quiet ∅.
Proof. split; intros *; by rewrite lookup_empty. Qed.

Lemma pinned_agree t k k' ip ip' :
  quiet t -> pinned t k ip -> pinned t k' ip' -> (ip = ip' <-> k = k').
Proof.
  intros Hq [H4 (x & Hx & _)] [H4' (y & Hy & _)]. split.
  - intros <-. by eapply (q_unique _ Hq).
  - intros <-. apply ipv4_inj; [done..|]. congruence.
Qed.

(** ** Statements *)

Lemma quiet_row t k s e :
  quiet t -> t !! k = Some (s, e) -> exists ip, s = AddrString ip /\ ipv4 ip /\ ParseAddr s = Some ip /\ nul_free k.1.
Proof.
  intros Hq Hk. destruct (q_rows _ Hq _ _ _ Hk) as (Hg & v & -> & Hv & _).
  exists (Addr4 v). split_and!; try done; [by exists v|by apply ParseAddr_AddrString].
Qed.

(** A row that is live at some time of the window is pinned. *)
Lemma live_pinned t k s x now :
  quiet t -> t !! k = Some (s, Some x) -> first <= now -> now < x ->
  exists ip, s = AddrString ip /\ ParseAddr s = Some ip /\ nul_free k.1 /\ pinned t k ip.
Proof.
  intros Hq Hk Hn Hx. destruct (quiet_row _ _ _ _ Hq Hk) as (ip & -> & H4 & Hp & Hg).
  exists ip. split_and!; try done. split; [done|]. exists x. split; [done|].
  destruct (q_due _ Hq _ _ _ Hk); lia.
Qed.

Lemma update_quiet t k x :
  quiet t -> last < x -> let t' := alter (fun r => (r.1, Some x)) k t in quiet t' /\ future t t'.
Proof.
  intros [U R D N] Hx. cbv zeta.
  assert (Hinv : forall k' s e, alter (fun r : str * option Z => (r.1, Some x)) k t !! k' = Some (s, e) ->
            exists e', t !! k' = Some (s, e') /\ (e = e' \/ e = Some x)).
  { intros k' s e. rewrite renewed_lookup. case_bool_decide; [|eauto].
    destruct (t !! k') as [[s' e']|]; cbn; [|done]. intros [= <- <-]. eauto. }
  split; [split|].
  - intros k1 k2 ip e1 e2 (e1' & H1 & _)%Hinv (e2' & H2 & _)%Hinv. eauto.
  - intros k' ip e (e' & H1 & _)%Hinv. eauto.
  - intros k' ip y (e' & H1 & [<-|[= <-]])%Hinv; [eauto|lia].
  - intros k' [s e] (e' & H1 & _)%Hinv. eauto.
  - intros k' ip [H4 (y & Hy & ?)]. split; [done|]. rewrite renewed_lookup, Hy. case_bool_decide; cbn; eauto.
Qed.

Lemma delete_quiet t now :
  quiet t -> now <= last ->
  let t' := filter (fun kr => row_live now kr.2 = true) t in quiet t' /\ future t t'.
Proof.
  intros [U R D N] Hn. cbv zeta. split; [split|].
  - intros k1 k2 ip e1 e2 [H1 _]%map_lookup_filter_Some [H2 _]%map_lookup_filter_Some. eauto.
  - intros k ip e [H1 _]%map_lookup_filter_Some. eauto.
  - intros k ip x [H1 _]%map_lookup_filter_Some. eauto.
  - intros k row [H1 _]%map_lookup_filter_Some. eauto.
  - intros k ip [H4 (x & Hx & ?)]. split; [done|]. exists x. split; [|done].
    apply map_lookup_filter_Some. split; [done|]. cbn. apply Z.ltb_lt. lia.
Qed.

Lemma insert_quiet t g n v x :
  quiet t -> nul_free g -> validName n = true -> 0 <= v < 2 ^ 32 -> owns g v -> last < x ->
  t !! (g, n) = None -> ~ holds_ip t (AddrString (Addr4 v)) ->
  let t' := <[(g, n) := (AddrString (Addr4 v), Some x)]> t in quiet t' /\ future t t'.
Proof.
  intros [U R D N] Hg Hvn Hv Ho Hx Hk Hi. cbv zeta. split; [split|].
  - intros k1 k2 ip e1 e2. rewrite !lookup_insert_Some.
    intros [[<- [= <- <-]]|[? H1]] [[<- E2]|[? H2]]; try done.
    + exfalso. apply Hi. by exists k2, e2.
    + injection E2 as <- <-. exfalso. apply Hi. by exists k1, e1.
    + eauto.
  - intros k ip e. rewrite lookup_insert_Some. intros [[<- [= <- <-]]|[? H1]]; [|eauto]. eauto.
  - intros k ip y. rewrite lookup_insert_Some. intros [[<- [= <- <-]]|[? H1]]; [lia|eauto].
  - intros k row. rewrite lookup_insert_Some. intros [[<- _]|[? H1]]; [done|eauto].
  - intros k ip [H4 (y & Hy & ?)]. split; [done|]. exists y. split; [|done].
    rewrite lookup_insert_ne; [done|]. congruence.
Qed.

(** ** Programs among others *)

(** [p] keeps the table quiet and the pinned rows pinned at each of its steps, caches
    pinned rows only, and ends with [Q], whatever other threads do in between. *)
Fixpoint safe {A} (p : prog A) (Q : A -> Table -> Prop) (t : Table) : Prop :=
  match p with
  | Ret a => Q a t
  | Sql s k => forall t1 r t2, future t t1 -> quiet t1 ->
      match r with
      | Some a => sql_step s t1 a t2
      | None => t2 = t1 \/ exists a, sql_step s t1 a t2
      end -> quiet t2 /\ future t1 t2 /\ safe (k r) Q t2
  | Mem f k => forall t1 pr, future t t1 -> quiet t1 -> cache_pinned t1 pr ->
      cache_pinned t1 (f pr).2 /\ safe (k (f pr).1) Q t1
  end.

Definition stable {A} (Q : A -> Table -> Prop) : Prop :=
  forall a t t', future t t' -> Q a t -> Q a t'.

Lemma safe_future {A} (p : prog A) Q t t' : stable Q -> future t t' -> safe p Q t -> safe p Q t'.
Proof.
  intros HQ Hf. destruct p as [a|B s k|B f k]; cbn; [by apply HQ| |].
  - intros H t1 r t2 Ht1. apply H. by etrans.
  - intros H t1 pr Ht1. apply H. by etrans.
Qed.

Lemma safe_bind {A B} (p : prog A) (f : A -> prog B) (R : A -> Table -> Prop) Q t :
  safe p R t ->
  (forall a t1, future t t1 -> R a t1 -> safe (f a) Q t1) ->
  safe (p ≫= f) Q t.
Proof.
  revert t. induction p as [a|C s k IH|C g k IH]; intros t Hp Hf; cbn in *; [by apply Hf| |].
  - intros t1 r t2 Ht1 Hq Hs. destruct (Hp t1 r t2 Ht1 Hq Hs) as (? & Ht2 & Hk). split_and!; [done..|].
    apply IH; [done|]. intros a t3 Ht3. apply Hf. etrans; [done|]. by etrans.
  - intros t1 pr Ht1 Hq Hc. destruct (Hp t1 pr Ht1 Hq Hc) as [? Hk]. split; [done|].
    apply IH; [done|]. intros a t3 Ht3. apply Hf. by etrans.
Qed.

Lemma safe_mono {A} (p : prog A) (Q Q' : A -> Table -> Prop) t :
  (forall a t', Q a t' -> Q' a t') -> safe p Q t -> safe p Q' t.
Proof.
  intros HQ. revert t. induction p as [a|B s k IH|B g k IH]; intros t Hp; cbn in *; [by apply HQ| |].
  - intros t1 r t2 Ht1 Hq Hs. destruct (Hp t1 r t2 Ht1 Hq Hs) as (? & ? & ?). auto.
  - intros t1 pr Ht1 Hq Hc. destruct (Hp t1 pr Ht1 Hq Hc) as [? ?]. auto.
Qed.

(** A statement that only reads. *)
Lemma safe_read {A B} (s : stmt B) (k : option B -> prog A) Q t :
  (forall t1 b t2, sql_step s t1 b t2 -> t2 = t1) ->
  (forall t1, future t t1 -> quiet t1 -> safe (k None) Q t1) ->
  (forall t1 b, future t t1 -> quiet t1 -> sql_step s t1 b t1 -> safe (k (Some b)) Q t1) ->
  safe (r ← sql s; k r) Q t.
Proof.
  intros Hread Hnone Hsome t1 r t2 Ht1 Hq Hs.
  assert (t2 = t1) as ->.
  { destruct r; [by eapply Hread|]. destruct Hs as [->|[a Hs]]; [done|by eapply Hread]. }
  split_and!; [done|done|]. destruct r; [by apply Hsome|by apply Hnone].
Qed.

(** A statement that writes, whether it reports success or not. *)
Lemma safe_write {A B} (s : stmt B) (k : option B -> prog A) Q t :
  (forall t1 b t2, future t t1 -> quiet t1 -> sql_step s t1 b t2 -> quiet t2 /\ future t1 t2) ->
  (forall t1 t2 r, future t t1 -> quiet t2 -> future t1 t2 ->
     (forall b, r = Some b -> sql_step s t1 b t2) -> safe (k r) Q t2) ->
  safe (r ← sql s; k r) Q t.
Proof.
  intros Hok Hk t1 r t2 Ht1 Hq Hs.
  assert (quiet t2 /\ future t1 t2) as [Hq2 Hf2].
  { destruct r; [by eapply Hok|]. destruct Hs as [->|[a Hs]]; [done|by eapply Hok]. }
  split_and!; [done..|]. apply (Hk t1); [done..|]. by intros b ->.
Qed.

Lemma safe_cache {A B} (f : Allocator -> B * Allocator) (k : B -> prog A) Q t :
  (forall t1 pr b a', future t t1 -> quiet t1 -> cache_pinned t1 pr -> f (p_alloc pr) = (b, a') ->
     cache_pinned t1 (set_alloc a' pr) /\ safe (k b) Q t1) ->
  safe (b ← cache f; k b) Q t.
Proof.
  intros Hf t1 pr Ht1 Hq Hc. cbn. destruct (f (p_alloc pr)) as [b a'] eqn:E. by apply (Hf t1 pr b a').
Qed.

Lemma safe_mem {A B} (f : Process -> B * Process) (k : B -> prog A) Q t :
  (forall t1 pr b pr', future t t1 -> quiet t1 -> cache_pinned t1 pr -> f pr = (b, pr') ->
     cache_pinned t1 pr' /\ safe (k b) Q t1) ->
  safe (b ← mem f; k b) Q t.
Proof.
  intros Hf t1 pr Ht1 Hq Hc. destruct (f pr) as [b pr'] eqn:E.
  by apply (Hf t1 pr b pr').
Qed.

(** ** The cache *)

Lemma LookupLive_pinned t pr ip now m ok a' :
  cache_pinned t pr -> LookupLive (p_alloc pr) ip now = (m, ok, a') ->
  cache_pinned t (set_alloc a' pr) /\
  (ok = true -> nul_free (m_Gateway m) /\ pinned t (m_Gateway m, m_Domain m) ip).
Proof.
  intros [Hk Hi] E. unfold LookupLive in E.
  destruct (byIP (p_alloc pr) !! ip) as [m0|] eqn:Em; [|by simplify_eq].
  destruct (expired _ _ _); simplify_eq.
  - split; [|done]. split; cbn.
    + intros g n ip' Hg [_ H]%lookup_delete_Some. eauto.
    + intros ip' m' [_ H]%lookup_delete_Some. eauto.
  - split; [by split|]. intros _. by apply Hi.
Qed.

Lemma remember_pinned t pr g n ip x :
  cache_pinned t pr -> nul_free g -> pinned t (g, n) ip ->
  cache_pinned t (set_alloc (RememberUntil (p_alloc pr) g n ip x) pr).
Proof.
  intros [Hk Hi] Hg Hp. unfold RememberUntil.
  destruct (byKey (p_alloc pr) !! akey g n); [by split|].
  destruct (byIP (p_alloc pr) !! ip); [by split|]. split; cbn.
  - intros g' n' ip' Hg'. rewrite lookup_insert_Some. intros [[E <-]|[_ H]]; [|eauto].
    by apply akey_inj in E as [<- <-].
  - intros ip' m'. rewrite lookup_insert_Some. intros [[<- <-]|[_ H]]; [done|eauto].
Qed.

Context (HW : window_ok).

Lemma cacheKeyLive_safe g n now t :
  nul_free g -> safe (cacheKeyLive g n now) (fun r t' => r.2 = true -> pinned t' (g, n) r.1) t.
Proof.
  intros Hg. unfold cacheKeyLive. apply safe_cache. intros t1 pr [ip ok] a' Ht1 _ Hc E. simplify_eq.
  rewrite set_alloc_id. split; [done|]. unfold LookupKey in H.
  destruct (byKey (p_alloc pr) !! akey g n) as [ip'|] eqn:Ek; simplify_eq; cbn [negb]; [|done].
  assert (Hp : pinned t1 (g, n) ip) by (by apply (cp_key _ _ Hc)).
  apply safe_cache. intros t2 pr2 [m ok] a' Ht2 _ Hc2 E.
  apply (LookupLive_pinned t2) in E as [Hc' _]; [|done]. split; [done|]. cbn. intros _. by apply Ht2.
Qed.

Lemma remember_safe {A} g n ip x (k : unit -> prog A) Q t :
  nul_free g -> pinned t (g, n) ip -> (forall t1, future t t1 -> safe (k tt) Q t1) ->
  safe (u ← remember g n ip x; k u) Q t.
Proof.
  intros Hg Hp Hk. unfold remember. apply safe_cache. intros t1 pr [] a' Ht1 _ Hc E. simplify_eq.
  split; [|by apply Hk]. apply remember_pinned; [done..|by apply Ht1].
Qed.

Lemma set_lastRenewed_pinned t pr r : cache_pinned t pr -> cache_pinned t (set_lastRenewed r pr).
Proof. by intros [? ?]. Qed.

Lemma renew_safe g n now force t :
  first <= now <= last -> safe (renew g n now L force) (fun _ _ => True) t.
Proof.
  intros Hn. destruct HW as (? & ? & ?). unfold renew. apply safe_mem.
  intros t1 pr b pr' Ht1 _ Hc E. destruct (negb force && _ && _); simplify_eq; [done|].
  split; [by apply set_lastRenewed_pinned|]. apply safe_write; [|done].
  intros t2 b t3 _ Hq2 Hs. cbn in Hs. subst t3. apply update_quiet; [done|]. rewrite UnixNano_small; lia.
Qed.

(** ** The requests *)

Lemma pinned_stable k ip : stable (fun (_ : unit) t => pinned t k ip).
Proof. intros _ t t' Hf. apply Hf. Qed.

(** Caching a pinned row and renewing it. *)
Lemma remember_renew_safe {A : Type} (g n : str) (ip : Addr) (now : Time) (force : bool) (t : Table) (F : option err -> A) (Q : A -> Table -> Prop) :
  first <= now <= last -> nul_free g -> pinned t (g, n) ip ->
  (forall e t', pinned t' (g, n) ip -> Q (F e) t') ->
  safe (remember g n ip (now + L);; e ← renew g n now L force; mret (F e)) Q t.
Proof.
  intros Hn Hg Hp HQ. apply remember_safe; [done..|]. intros t1 Ht1.
  eapply safe_bind; [by apply renew_safe|]. intros e t2 Ht2 _. apply HQ. by apply Ht2, Ht1.
Qed.

Definition served_key (g n : str) (r : Addr * bool * option err) (t : Table) : Prop :=
  r.1.2 = true -> pinned t (g, n) r.1.1.

Lemma SQL_LookupKey_safe g n now t :
  first <= now <= last -> nul_free g -> safe (SQL_LookupKey g n now L) (served_key g n) t.
Proof.
  intros Hn Hg. pose proof HW as (? & ? & ?). unfold SQL_LookupKey.
  eapply safe_bind; [by apply cacheKeyLive_safe|]. intros [ip ok] t1 _ Hhit. cbn in Hhit. destruct ok.
  - eapply safe_bind; [by apply renew_safe|]. intros e t2 Ht2 _ _. by apply Ht2, Hhit.
  - apply safe_read; [by intros ??? [? _]|done|]. intros t2 q _ Hq [_ Eq]. cbn beta iota.
    rewrite UnixNano_small in Eq by lia. destruct (t2 !! (g, n)) as [[s [x|]]|] eqn:Hrow; try (by subst q).
    unfold row_live in Eq. cbn in Eq. destruct (Z.ltb_spec now x); subst q; [|done].
    destruct (live_pinned _ _ _ _ now Hq Hrow) as (ip' & -> & -> & _ & Hp); [lia..|].
    apply (remember_renew_safe _ _ _ _ _ _ (fun e => (ip', true, e))); [by auto..|]. by intros e t' Hp' _.
Qed.

Lemma SQL_Lookup_safe ip now t :
  first <= now <= last -> ipv4 ip ->
  safe (SQL_Lookup ip now L)
    (fun r t' => r.1.2 = true -> pinned t' (m_Gateway r.1.1, m_Domain r.1.1) ip) t.
Proof.
  intros Hn H4. pose proof HW as (? & ? & ?). unfold SQL_Lookup. apply safe_cache.
  intros t1 pr [m ok] a' Ht1 Hq Hc E. apply (LookupLive_pinned t1) in E as [Hc' Hhit]; [|done].
  split; [done|]. destruct ok.
  - destruct (Hhit eq_refl) as [Hg Hp].
    apply (remember_renew_safe _ _ _ _ _ _ (fun e => (m, true, e))); [by auto..|]. by intros e t' Hp' _.
  - apply safe_read; [by intros ??? [? _]|done|]. intros t2 q _ Hq2 [_ Eq]. cbn beta iota.
    rewrite UnixNano_small in Eq by lia. destruct q as [[g n]|]; [|done].
    destruct Eq as ([x|] & Hrow & Hlive); [|done]. unfold row_live in Hlive. cbn in Hlive. bool_simp.
    destruct (live_pinned _ _ _ _ now Hq2 Hrow) as (ip' & Es & _ & Hg & Hp); [lia..|].
    assert (ip = ip') as <- by (apply ipv4_inj; [done|apply Hp|done]).
    apply (remember_renew_safe _ _ _ _ _ _ (fun e => (mkMapping g n, true, e))); [by auto..|]. by intros e t' Hp' _.
Qed.

Definition served_addr (g n : str) (r : Addr * option err) (t : Table) : Prop :=
  r.2 = None -> pinned t (g, n) r.1.

Lemma insert_loop_safe g n now vs t :
  first <= now <= last -> nul_free g -> validName n = true -> Forall (fun v => 0 <= v < 2 ^ 32 /\ owns g v) vs ->
  safe (insert_loop g n now L (Addr4 <$> vs)) (served_addr g n) t.
Proof.
  intros Hn Hg Hvn Hvs. pose proof HW as (? & ? & ?). revert t.
  induction Hvs as [|v vs [Hv Ho] Hvs IH]; intros t; cbn [fmap list_fmap insert_loop]; [done|].
  apply safe_write.
  { intros t1 b t2 _ Hq [(_ & -> & _)|(_ & -> & Hk & Hi)]; [done|].
    apply insert_quiet; [done..| |done|done]. rewrite UnixNano_small; lia. }
  intros t1 t2 [ins|] _ _ _ _; [|done]. cbn beta iota.
  apply safe_read; [by intros ??? [? _]|done|]. intros t3 q _ Hq [_ Eq]. cbn beta iota.
  rewrite UnixNano_small in Eq by lia. destruct q as [[s x]|]; [|by destruct (ins =? 0)].
  destruct (t3 !! (g, n)) as [[s' [x'|]]|] eqn:Hrow; try done.
  destruct (Z.ltb_spec now x'); simplify_eq.
  destruct (live_pinned _ _ _ _ now Hq Hrow) as (ip & -> & -> & _ & Hp); [lia..|].
  apply remember_safe; [done..|]. intros t4 Ht4. apply safe_mem.
  intros t5 pr b pr' Ht5 _ Hc E. simplify_eq. split; [by apply set_lastRenewed_pinned|].
  intros _. by apply Ht5, Ht4.
Qed.

Lemma SQL_Allocate_safe ps n now t :
  first <= now <= last -> Forall wf4 ps -> validName n = true ->
  safe (SQL_Allocate (rangeKey ps) ps n now L) (served_addr (rangeKey ps) n) t.
Proof.
  intros Hn Hps Hvn. pose proof HW as (? & ? & ?). pose proof (rangeKey_no_nul ps Hps) as Hg.
  unfold SQL_Allocate. eapply safe_bind; [by apply cacheKeyLive_safe|].
  intros [ip ok] t1 _ Hhit. cbn in Hhit. destruct ok.
  { apply (remember_renew_safe _ _ _ _ _ _ (fun e => (ip, e))); [by auto..|]. by intros e t' Hp' _. }
  apply safe_read; [by intros ??? [? _]|done|]. intros t2 q _ Hq [_ Eq]. cbn beta iota.
  rewrite UnixNano_small in Eq by lia. destruct q as [[s x]|].
  - destruct (t2 !! (rangeKey ps, n)) as [[s' [x'|]]|] eqn:Hrow; try done.
    destruct (Z.ltb_spec now x'); simplify_eq.
    destruct (live_pinned _ _ _ _ now Hq Hrow) as (ip' & -> & -> & _ & Hp); [lia..|].
    apply (remember_renew_safe _ _ _ _ _ _ (fun e => (ip', e))); [by auto..|]. by intros e t' Hp' _.
  - apply safe_write.
    { intros t3 b t4 _ Hq3 Hs. cbn in Hs. subst t4. apply delete_quiet; [done|]. rewrite UnixNano_small; lia. }
    intros t3 t4 [u|] _ _ _ _; [|done]. rewrite hosts_pool by done. apply insert_loop_safe; [done..|].
    apply Forall_forall. intros v Hv. split; [|by exists ps].
    pose proof (pool_bound ps Hps) as Hb. rewrite Forall_forall in Hb. auto.
Qed.
End window.

(** ** The system *)

Section convergence.
Context `{DB : Database} (l : AllocationLifecycle) (first last : Time).
Context (Hstore : l_Store l = true) (HW : window_ok (lease l) first last).

Definition answers_pinned (answers : list answer) (t : Table) : Prop :=
  Forall (fun a => pinned last t (a_key a) (a_ip a)) answers.

Lemma answers_pinned_stable : stable last answers_pinned.
Proof. intros answers t t' Hf H. eapply Forall_impl; [exact H|]. intros a. apply Hf. Qed.

Lemma Lifecycle_Allocate_safe ps n now t :
  first <= now <= last -> Forall wf4 ps -> validName n = true ->
  safe first last (Lifecycle_Allocate l now (rangeKey ps) ps n) (served_addr last (rangeKey ps) n) t.
Proof.
  intros Hn Hps Hvn. unfold Lifecycle_Allocate. rewrite Hstore.
  eapply safe_bind; [by apply SQL_LookupKey_safe; [| |apply rangeKey_no_nul]|].
  intros [[ip found] [e|]] t1 _ Hk; cbn; [done|]. destruct found; [by intros _; apply Hk|].
  by apply SQL_Allocate_safe.
Qed.

Lemma Lifecycle_Lookup_safe ip now t :
  first <= now <= last -> ipv4 ip ->
  safe first last (Lifecycle_Lookup l now ip)
    (fun r t' => r.2 = true -> pinned last t' (m_Gateway r.1, m_Domain r.1) ip) t.
Proof.
  intros Hn H4. unfold Lifecycle_Lookup. rewrite Hstore. eapply safe_bind; [by apply SQL_Lookup_safe|].
  intros [[m ok] e] t1 _ Hp. cbn in *. intros Hok. bool_simp. auto.
Qed.

Lemma request_safe now r t :
  first <= now <= last -> request_ok r -> safe first last (request_prog l now r) answers_pinned t.
Proof.
  intros Hn Hr. unfold request_prog. destruct r as [ps n|ip]; cbn in Hr.
  - eapply safe_bind; [by apply Lifecycle_Allocate_safe; [|apply Hr|apply Hr]|].
    intros [ip [e|]] t1 _ Hp; cbn; [constructor|]. apply Forall_singleton. by apply Hp.
  - eapply safe_bind; [by apply Lifecycle_Lookup_safe|].
    intros [m []] t1 _ Hp; cbn; [|constructor]. apply Forall_singleton. by apply Hp.
Qed.

Record system_ok (s : system) : Prop := {
  so_quiet : quiet first last (table (sy_db s));
  so_procs : forall i, cache_pinned last (table (sy_db s)) (sy_procs s i);
  so_threads : Forall (fun th => safe first last (th_prog th) answers_pinned (table (sy_db s))) (sy_threads s);
  so_answers : answers_pinned (sy_answers s) (table (sy_db s));
}.

Lemma system_init_ok d : quiet first last (table d) -> system_ok (system_init d).
Proof. intros Hq. split; cbn; [done|intros; apply cache_pinned_new|constructor|constructor]. Qed.

(** One step of a thread that ends in a table with the pinned rows still pinned. *)
Lemma threads_step t t' ths j th :
  future last t t' -> safe first last (th_prog th) answers_pinned t' ->
  Forall (fun th => safe first last (th_prog th) answers_pinned t) ths ->
  Forall (fun th => safe first last (th_prog th) answers_pinned t') (<[j := th]> ths).
Proof.
  intros Hf Hth Hall. apply Forall_insert; [|done]. eapply Forall_impl; [exact Hall|].
  intros th' Hs. eapply safe_future; [exact answers_pinned_stable|done|done].
Qed.

Lemma systep_ok s s' : system_ok s -> systep l first last s s' -> system_ok s'.
Proof.
  intros [Hq Hp Ht Ha] Hstep.
  destruct Hstep as [s i now r Hn Hr|s j i B q k r d' Hj He|s j i B f k b pr' Hj Hf|s j i answers Hj]; cbn.
  - split; cbn; try done. apply Forall_app. split; [done|]. constructor; [|done]. by apply request_safe.
  - pose proof (proj1 (Forall_lookup _ _) Ht _ _ Hj) as Hs. cbn in Hs.
    destruct (Hs (table (sy_db s)) r (table d')) as (Hq' & Hf' & Hk); [reflexivity|done| |].
    { destruct r; [by apply exec_ok|by apply exec_err]. }
    split; cbn; [done|intros; by eapply cache_pinned_future|by eapply threads_step|].
    by eapply answers_pinned_stable.
  - pose proof (proj1 (Forall_lookup _ _) Ht _ _ Hj) as Hs. cbn in Hs.
    destruct (Hs (table (sy_db s)) (sy_procs s i)) as [Hc Hk]; [reflexivity|done..|]. rewrite Hf in Hc, Hk.
    split; cbn; [done| |by apply (threads_step (table (sy_db s))); [reflexivity| |]|done].
    intros i'. unfold set_proc. by destruct (i' =? i)%nat.
  - pose proof (proj1 (Forall_lookup _ _) Ht _ _ Hj) as Hs. cbn in Hs.
    split; cbn; [done..| |by apply Forall_app].
    apply (threads_step (table (sy_db s))); [reflexivity|constructor|done].
Qed.

Lemma system_reachable_ok d s :
  quiet first last (table d) -> rtc (systep l first last) (system_init d) s -> system_ok s.
Proof.
  intros Hq. apply (rtc_ind_r system_ok); [by apply system_init_ok|].
  intros s1 s2 _ Hs Ho. by eapply systep_ok.
Qed.
End convergence.

(** Concurrent DNS authorities converge on one stable address.  Any number of
    replicas serve any number of requests at once, in any interleaving of their
    critical sections and SQL statements, with clocks that need not agree and
    statements that may fail.  In a window shorter than a lease in which no row falls
    due, two answers name the same address exactly when they name the same domain, and
    every answered address is of the pool its key names and stays recorded for that
    name beyond the window. *)
Theorem concurrent_replicas_converge `{DB : Database} l first last d s a b :
  l_Store l = true -> window_ok (lease l) first last -> quiet first last (table d) ->
  rtc (systep l first last) (system_init d) s ->
  a ∈ sy_answers s -> b ∈ sy_answers s ->
  (a_ip a = a_ip b <-> a_key a = a_key b) /\
  pinned last (table (sy_db s)) (a_key a) (a_ip a) /\
  exists v, a_ip a = Addr4 v /\ owns (a_key a).1 v.
Proof.
  intros Hs HW Hq Hr Ha Hb.
  destruct (system_reachable_ok l first last Hs HW d s Hq Hr) as [Hq' _ _ Hans].
  unfold answers_pinned in Hans. rewrite Forall_forall in Hans.
  pose proof (Hans a Ha) as Hpa. split_and!; [by eapply pinned_agree; auto|done|].
  destruct Hpa as [(v & E & Hv) (x & Hrow & _)].
  destruct (q_rows _ _ _ Hq' _ _ _ Hrow) as (_ & w & Ew & Hw & Ho). exists w. split; [|done].
  rewrite E in *. f_equal. by apply AddrString4_inj.
Qed.

(** ** A run *)

Section schedule.
Context `{DB : Database} (l : AllocationLifecycle).

Definition arrive (i : nat) (now : Time) (r : request) (s : system) : system :=
  mkSystem DB (sy_db s) (sy_procs s) (sy_threads s ++ [mkThread i (request_prog l now r)]) (sy_answers s).

(** One step of thread [j]. *)
Definition turn (s : system) (j : nat) : system :=
  match sy_threads s !! j with
  | None => s
  | Some (mkThread i (Ret answers)) =>
      mkSystem DB (sy_db s) (sy_procs s) (<[j := mkThread i (Ret [])]> (sy_threads s)) (answers ++ sy_answers s)
  | Some (mkThread i (Sql q k)) =>
      let '(r, d') := exec q (sy_db s) in
      mkSystem DB d' (sy_procs s) (<[j := mkThread i (k r)]> (sy_threads s)) (sy_answers s)
  | Some (mkThread i (Mem f k)) =>
      let '(b, pr') := f (sy_procs s i) in
      mkSystem DB (sy_db s) (set_proc (sy_procs s) i pr') (<[j := mkThread i (k b)]> (sy_threads s)) (sy_answers s)
  end.

Definition turns (s : system) (js : list nat) : system := fold_left turn js s.

Lemma turn_steps first last s j : rtc (systep l first last) s (turn s j).
Proof.
  unfold turn. destruct (sy_threads s !! j) as [[i [answers|B q k|B f k]]|] eqn:E; [| | |done].
  - apply rtc_once. by apply sy_answer.
  - destruct (exec q (sy_db s)) as [r d'] eqn:Ee. apply rtc_once. by eapply sy_sql.
  - destruct (f (sy_procs s i)) as [b pr'] eqn:Ef. apply rtc_once. by eapply sy_mem.
Qed.

Lemma turns_steps first last js : forall s, rtc (systep l first last) s (turns s js).
Proof.
  induction js as [|j js IH]; intros s; cbn; [done|]. etrans; [apply turn_steps|apply IH].
Qed.
End schedule.

(** Two replicas asked for one name at once, taking turns, and a third request for
    another name behind them; replica 1's clock runs a minute ahead. *)
Definition three_requests : system (H := table_db) :=
  arrive (DB := table_db) sql_lifecycle 1 (noon + Minute) (ReqAllocate [small_range] "b.lab")
    (arrive (DB := table_db) sql_lifecycle 1 (noon + Minute) (ReqAllocate [small_range] "a.lab")
       (arrive (DB := table_db) sql_lifecycle 0 noon (ReqAllocate [small_range] "a.lab")
          (system_init (DB := table_db) ∅))).

Definition round_robin : list nat := concat (replicate 40 [0; 1; 2]%nat).

Definition converged : system (H := table_db) := turns (DB := table_db) three_requests round_robin.

Lemma small_request_ok n : validName n = true -> request_ok (ReqAllocate [small_range] n).
Proof. intros Hn. split; [|done]. repeat constructor; apply small_range_wf. Qed.

Lemma converged_reachable :
  rtc (systep (DB := table_db) sql_lifecycle noon (noon + 2 * Minute)) (system_init (DB := table_db) ∅) converged.
Proof.
  eapply rtc_l; [|eapply rtc_l; [|eapply rtc_l; [|apply (turns_steps (DB := table_db) sql_lifecycle)]]];
    apply sy_arrive; try (by apply small_request_ok; vm_compute); vm_compute; split; congruence.
Qed.

Lemma converged_answers :
  sy_answers converged =
    [mkAnswer (noon + Minute) (rangeKey [small_range], lit "b.lab") (AddrFrom4 10 254 0 2);
     mkAnswer (noon + Minute) (rangeKey [small_range], lit "a.lab") (AddrFrom4 10 254 0 1);
     mkAnswer noon (rangeKey [small_range], lit "a.lab") (AddrFrom4 10 254 0 1)].
Proof. by vm_compute. Qed.

Lemma concurrent_replicas_converge_witness :
  let a := mkAnswer (noon + Minute) (rangeKey [small_range], lit "a.lab") (AddrFrom4 10 254 0 1) in
  let b := mkAnswer (noon + Minute) (rangeKey [small_range], lit "b.lab") (AddrFrom4 10 254 0 2) in
  (a_ip a = a_ip b <-> a_key a = a_key b) /\
  pinned (noon + 2 * Minute) (table (Database := table_db) (sy_db converged)) (a_key a) (a_ip a) /\
  exists v, a_ip a = Addr4 v /\ owns (a_key a).1 v.
Proof.
  intros a b.
  apply (@concurrent_replicas_converge table_db sql_lifecycle noon (noon + 2 * Minute) ∅ converged a b).
  - reflexivity.
  - by vm_compute.
  - apply quiet_empty.
  - apply converged_reachable.
  - rewrite converged_answers. apply list_elem_of_further, list_elem_of_here.
  - rewrite converged_answers. apply list_elem_of_here.
Defined.

(** Replicas that start with an empty cache is what the theorem assumes, and it
    matters: [LookupKeyLive] reads the address of a name and checks that the address
    is live in two critical sections.  Two hours after [a.lab] was allocated, a request
    for it reads its stale cache entry; before the check, the address is given to
    [b.lab], and a reverse lookup replaces the stale entry by the new one.  The check
    then finds the address live, and one replica has given it to two names. *)
Example stale_key_race :
  let ip := AddrFrom4 10 254 0 1 in
  let gw := rangeKey [small_range] in
  let later := noon + 2 * Hour in
  let '(_, pr, d) := run (DB := table_db) (Lifecycle_Allocate sql_lifecycle noon gw [small_range] "a.lab") NewProcess ∅ in
  let s := arrive (DB := table_db) sql_lifecycle 0 later (ReqLookup ip)
             (arrive (DB := table_db) sql_lifecycle 0 later (ReqAllocate [small_range] "b.lab")
                (arrive (DB := table_db) sql_lifecycle 0 later (ReqAllocate [small_range] "a.lab")
                   (mkSystem table_db d (fun _ => pr) [] []))) in
  let s' := turns (DB := table_db) s ([0] ++ replicate 20 1 ++ replicate 10 2 ++ replicate 20 0)%nat in
  sy_answers s' = [mkAnswer later (gw, lit "a.lab") ip; mkAnswer later (gw, lit "b.lab") ip;
                   mkAnswer later (gw, lit "b.lab") ip].
Proof. by vm_compute. Qed.
