(* ===== verification/OpenStore.v ===== *)
(** * Opening a store

    [OpenAllocationStore] and [sqlitePath] of [internal/domain/state.go]: the choice of
    driver and data source from the database URL, and the statements that create the
    table, add the [expires_at] column to a table of an older release and give its rows
    an expiry.

    The database is not part of the source: it is the class [Disk], whose laws say what
    each of these statements does to what is stored and that a failed one did all or
    nothing. *)

From S2P Require Import Prelude GoStrings NetAddr Alloc Url Store StoreSpec.

(** ** The data source *)

Definition sqlitePath (u : URL) : option str :=
  if u_User u || negb (str_eqb (u_RawQuery u) []) || negb (str_eqb (u_Fragment u) []) then None else
  if str_eqb (u_Host u) [] then
    if str_eqb (u_Path u) [] then None else Some (u_Path u)
  else
    let tail := TrimPrefix (u_Path u) "/" in
    Some (if negb (str_eqb tail []) then u_Host u ++ "/" ++ tail else u_Host u).

Inductive driver := Sqlite | Pgx.

#[export] Instance driver_eq_dec : EqDecision driver.
Proof. solve_decision. Defined.

(** The scheme switch: the driver and its data source. *)
Definition data_source `{HostSyntax} (databaseURL : str) : option (driver * str) :=
  match url_Parse databaseURL with
  | None => None
  | Some u =>
      if str_eqb (u_Scheme u) "sqlite" then pair Sqlite <$> sqlitePath u
      else if str_eqb (u_Scheme u) "postgres" then Some (Pgx, databaseURL)
      else None
  end.

(** ** What is stored *)

(** No table, a table without [expires_at], or the table of this release. *)
Inductive stored :=
| NoTable
| OldTable (rows : gmap (str * str) str)
| NewTable (rows : Table).

Inductive ddl :=
| Ping
| BusyTimeout
| CreateTable
| AddExpires
| Backfill (expires_at : Z).

(** The rows with NULL expiry get one, the others keep theirs. *)
Definition backfill (x : Z) (t : Table) : Table :=
  (fun row : str * option Z => (row.1, Some (default x row.2))) <$> t.

Definition add_expires (rows : gmap (str * str) str) : Table := (fun ip => (ip, None)) <$> rows.

(** A statement that succeeds; where there is no result it cannot. *)
Definition ddl_step (s : ddl) (d : stored) : option stored :=
  match s, d with
  | (Ping | BusyTimeout), _ => Some d
  | CreateTable, NoTable => Some (OldTable ∅)
  | CreateTable, _ => Some d
  | AddExpires, OldTable rows => Some (NewTable (add_expires rows))
  | AddExpires, _ => None
  | Backfill x, NewTable t => Some (NewTable (backfill x t))
  | Backfill _, _ => None
  end.

(** A connected database; [handle_closed] says whether the handle has been closed. *)
Class Disk := {
  handle : Type;
  content : handle -> stored;
  handle_closed : handle -> bool;
  close : handle -> handle;
  ddl_exec : ddl -> handle -> bool * handle;
  close_closed : forall h, handle_closed (close h) = true;
  close_content : forall h, content (close h) = content h;
  ddl_open : forall s h, handle_closed (ddl_exec s h).2 = handle_closed h;
  ddl_ok : forall s h h', ddl_exec s h = (true, h') -> ddl_step s (content h) = Some (content h');
  ddl_err : forall s h h', ddl_exec s h = (false, h') ->
    content h' = content h \/ ddl_step s (content h) = Some (content h');
}.

(** A statement whose failure ends the opening, with the handle closed. *)
Definition must `{Disk} (s : ddl) (h : handle) (k : handle -> bool * handle) : bool * handle :=
  let '(ok, h) := ddl_exec s h in if ok then k h else (false, close h).

(** [OpenAllocationStore] after [sql.Open] has made a handle: whether a store is
    returned, and the handle.  The result of adding the column is ignored. *)
Definition open_handle `{Disk} (d : driver) (now : Time) (h : handle) : bool * handle :=
  must Ping h (fun h =>
  (if bool_decide (d = Sqlite) then must BusyTimeout h else fun k => k h) (fun h =>
  must CreateTable h (fun h =>
  let '(_, h) := ddl_exec AddExpires h in
  must (Backfill (UnixNano (now + Hour))) h (fun h => (true, h))))).

(** [OpenAllocationStore]; [sql_Open] is [None] where the driver refuses the data
    source.  The store is returned with [store.postgres]. *)
Definition OpenAllocationStore `{HostSyntax, Disk} (sql_Open : driver -> str -> option handle)
  (databaseURL : str) (now : Time) : option bool * option handle :=
  match data_source databaseURL with
  | None => (None, None)
  | Some (d, dsn) =>
      match sql_Open d dsn with
      | None => (None, None)
      | Some h =>
          let '(ok, h) := open_handle d now h in
          (if ok then Some (bool_decide (d = Pgx)) else None, Some h)
      end
  end.

(** ** SQLite URLs *)

Lemma split_at_slash (s : str) :
  "/"%char ∉ s \/ exists a b, s = a ++ "/"%char :: b /\ "/"%char ∉ a.
Proof.
  induction s as [|c s IH]; [left; apply not_elem_of_nil|]. destruct (decide (c = "/"%char)) as [->|Hc].
  { right. exists [], s. split; [done|apply not_elem_of_nil]. }
  destruct IH as [IH|(a & b & -> & Ha)]; [left; by apply not_elem_of_cons|].
  right. exists (c :: a), b. split; [done|]. by apply not_elem_of_cons.
Qed.

(** Parsing [sqlite://p] for a plain [p]. *)
Lemma url_Parse_sqlite `{HostSyntax} p :
  forallb plain_char p = true ->
  url_Parse ("sqlite://" ++ p) = Some (mkURL "sqlite" false (cut_slash p).1 (cut_slash p).2 [] []).
Proof.
  intros Hp. unfold url_Parse.
  assert (Hf : forall c, has_byte c (lit "sqlite://") = false -> plain_char c = false -> c ∉ lit "sqlite://" ++ p).
  { intros c H1 H2 [H3|H3]%elem_of_app; [by apply has_byte_false in H1|]. by eapply plain_free. }
  rewrite (Cut_free "#"%char) by (by apply Hf). unfold parse_url.
  replace (existsb is_ctl ("sqlite://" ++ p)) with false.
  2:{ symmetry. apply existsb_false_Forall. apply Forall_app. split; [by repeat constructor|].
      rewrite forallb_Forall_true in Hp. eapply Forall_impl; [exact Hp|]. intros c Hc. cbn in Hc.
      apply negb_true_iff. by apply (plain_cases (fun c => negb (is_ctl c))). }
  change (str_eqb ("sqlite://" ++ p) "*") with false.
  change (getScheme ("sqlite://" ++ p)) with (Some (lit "sqlite", lit "//" ++ p)).
  assert (Hq : "?"%char ∉ lit "//" ++ p).
  { intros [H3|H3]%elem_of_app; [by apply (has_byte_false "?" "//")|]. by apply (plain_free "?" p) in H3. }
  cbv beta iota zeta. rewrite split_query_free by done.
  change (map byte_lower (lit "sqlite")) with (lit "sqlite").
  change (str_eqb (lit "sqlite") []) with false.
  change (HasPrefix (lit "//" ++ p) "/") with true. change (HasPrefix (lit "//" ++ p) "//") with true.
  cbn [negb andb orb]. change (drop 2 (lit "//" ++ p)) with p.
  assert (Hsplit : parseAuthority (lit "sqlite") (cut_slash p).1 = Some (false, (cut_slash p).1) /\
                   unescape (cut_slash p).2 = Some (cut_slash p).2).
  { assert (Hauth : forall a, forallb plain_char a = true -> "/"%char ∉ a ->
              parseAuthority (lit "sqlite") a = Some (false, a)).
    { intros a Ha Hs. unfold parseAuthority, parseHost.
      rewrite cut_last_free, has_byte_iff, bool_decide_eq_false_2, (Cut_free ":"%char), unescape_host_plain by
        (done || by eapply plain_free). done. }
    unfold cut_slash. destruct (split_at_slash p) as [Hn|(a & b & -> & Ha)].
    - rewrite (Cut_free "/"%char) by done. cbn. split; [by apply Hauth|done].
    - rewrite (Cut_at "/"%char) by done. cbn [fst snd]. rewrite forallb_app in Hp. apply andb_prop in Hp as [Hpa Hpb].
      split; [by apply Hauth|by apply unescape_plain]. }
  destruct (cut_slash p) as [a b].
  cbn [fst snd] in *.
  by destruct Hsplit as [-> ->].
Qed.

(** A relative path of one segment and a slash. *)
Definition bare_directory (p : str) : Prop := exists seg, p = seg ++ "/" /\ seg <> [] /\ "/"%char ∉ seg.

(** The URL [sqlite://p] opens the file [p], relative or absolute, for every path of
    unreserved characters; a path that is one segment with a slash after it, and no
    other, loses that slash. *)
Theorem sqlite_url_path `{HostSyntax} p :
  forallb plain_char p = true -> p <> [] ->
  (~ bare_directory p -> data_source ("sqlite://" ++ p) = Some (Sqlite, p)) /\
  (bare_directory p -> data_source ("sqlite://" ++ p) = Some (Sqlite, TrimSuffix p "/")).
Proof.
  intros Hp Hne.
  assert (E : data_source ("sqlite://" ++ p) =
    pair Sqlite <$> sqlitePath (mkURL "sqlite" false (cut_slash p).1 (cut_slash p).2 [] [])).
  { unfold data_source. by rewrite url_Parse_sqlite. }
  rewrite E. unfold sqlitePath, cut_slash. cbn [u_User u_RawQuery u_Fragment u_Host u_Path orb].
  rewrite str_eqb_refl. cbn [negb orb]. destruct (split_at_slash p) as [Hn|(a & b & -> & Ha)].
  - rewrite (Cut_free "/"%char) by done. cbn [fst snd]. rewrite (str_eqb_false p) by done. split; [done|].
    intros (seg & -> & _). destruct Hn. apply elem_of_app. right. by left.
  - rewrite (Cut_at "/"%char) by done. cbn [fst snd]. destruct a as [|x a].
    { rewrite str_eqb_refl, str_eqb_false by done. split; [done|]. intros (seg & Es & Hs & Hseg).
      destruct seg as [|c seg]; [done|]. injection Es as <- _. destruct Hseg. by left. }
    rewrite (str_eqb_false (x :: a)) by done.
    change (TrimPrefix ("/"%char :: b) "/") with b.
    destruct b as [|y b].
    + rewrite str_eqb_refl. cbn [negb fmap option_fmap option_map]. split.
      * intros Hb. destruct Hb. by exists (x :: a).
      * intros _. pose proof (TrimSuffix_app (x :: a) "/") as Et. cbn [lit list_ascii_of_string] in Et.
        cbn [lit list_ascii_of_string]. by rewrite Et.
    + rewrite str_eqb_false by done. cbn [negb]. split; [done|]. intros (seg & Es & Hs & Hseg).
      destruct (char_once_unique "/" seg [] (x :: a) (y :: b)) as [_ ?]; [done|apply not_elem_of_nil| |done].
      exact (eq_sym Es).
Qed.

#[local] Instance no_special_hosts : HostSyntax := fun _ _ => None.

Lemma sqlite_url_path_witness :
  data_source ("sqlite://" ++ "./dgw.db") = Some (Sqlite, lit "./dgw.db") /\
  data_source ("sqlite://" ++ "/state/dns.db") = Some (Sqlite, lit "/state/dns.db").
Proof.
  split.
  - apply (proj1 (sqlite_url_path "./dgw.db" eq_refl ltac:(done))).
    intros (seg & E & _). apply (f_equal last) in E. rewrite last_app in E. by vm_compute in E.
  - apply (proj1 (sqlite_url_path "/state/dns.db" eq_refl ltac:(done))).
    intros (seg & E & _). apply (f_equal last) in E. rewrite last_app in E. by vm_compute in E.
Defined.

(** ** Migration *)

(** The rows of this release that are stored. *)
Definition rows_of (d : stored) : Table :=
  match d with NoTable => ∅ | OldTable rows => add_expires rows | NewTable t => t end.

(** The addresses that are stored, by name. *)
Definition addresses (d : stored) : gmap (str * str) str := fst <$> rows_of d.

Lemma backfill_addresses x t : fst <$> backfill x t = fst <$> t.
Proof. unfold backfill. rewrite <-map_fmap_compose. by apply map_fmap_ext. Qed.

Lemma ddl_addresses s d d' : ddl_step s d = Some d' -> addresses d' = addresses d.
Proof.
  destruct s, d; cbn; intros [= <-]; try done.
  apply backfill_addresses.
Qed.

Section opening.
Context `{Disk}.

(** A statement that must succeed: the rest runs after it did, or the handle is closed
    with the addresses as they were. *)
Lemma must_spec s h k (P : bool * handle -> Prop) :
  (forall h', ddl_step s (content h) = Some (content h') -> handle_closed h' = handle_closed h -> P (k h')) ->
  (forall h', handle_closed h' = true -> addresses (content h') = addresses (content h) -> P (false, h')) ->
  P (must s h k).
Proof.
  intros Hok Herr. unfold must. destruct (ddl_exec s h) as [[] h'] eqn:E.
  - apply Hok; [by apply ddl_ok|]. rewrite <-(ddl_open s h), E. done.
  - apply Herr; [apply close_closed|]. rewrite close_content.
    destruct (ddl_err _ _ _ E) as [->|?]; [done|by eapply ddl_addresses].
Qed.

Definition opened (now : Time) (h : handle) (r : bool * handle) : Prop :=
  (r.1 = true -> handle_closed r.2 = false /\
     content r.2 = NewTable (backfill (UnixNano (now + Hour)) (rows_of (content h)))) /\
  (r.1 = false -> handle_closed r.2 = true /\ addresses (content r.2) = addresses (content h)).

(** Adding the column and filling it, from a table that exists. *)
Lemma add_and_fill now h x :
  x = UnixNano (now + Hour) -> handle_closed h = false -> content h <> NoTable ->
  opened now h (let '(_, h') := ddl_exec AddExpires h in must (Backfill x) h' (fun h => (true, h))).
Proof.
  intros Hx Hc Hn. destruct (ddl_exec AddExpires h) as [ok h'] eqn:E.
  assert (Hc' : handle_closed h' = false) by (by rewrite <-Hc, <-(ddl_open AddExpires h), E).
  assert (Hd : content h' = content h \/ content h' = NewTable (rows_of (content h))).
  { assert (ddl_step AddExpires (content h) = Some (content h') -> content h' = NewTable (rows_of (content h))).
    { destruct (content h); cbn; by intros [= <-]. }
    destruct ok; [right; eauto using ddl_ok|]. destruct (ddl_err _ _ _ E); auto. }
  assert (Ea : addresses (content h') = addresses (content h)).
  { destruct Hd as [-> | ->]; [done|]. unfold addresses. done. }
  apply must_spec.
  - intros h2 E2 Hc2. split; [|done]. intros _. cbn [fst snd]. rewrite Hc2. split; [done|]. subst x.
    destruct Hd as [Hd|Hd]; rewrite Hd in E2; [|by injection E2 as <-].
    destruct (content h); [done|done|by injection E2 as <-].
  - intros h2 Hc2 Ha2. split; [done|]. intros _. cbn [fst snd]. split; [done|congruence].
Qed.

(** Opening behind statements that leave the rows alone. *)
Lemma opened_before now h h' r :
  rows_of (content h') = rows_of (content h) -> opened now h' r -> opened now h r.
Proof. unfold opened, addresses. by intros ->. Qed.

Lemma open_handle_spec d now h : handle_closed h = false -> opened now h (open_handle d now h).
Proof.
  intros Hc. unfold open_handle.
  assert (Hfail : forall h0 h', rows_of (content h0) = rows_of (content h) -> handle_closed h' = true ->
            addresses (content h') = addresses (content h0) -> opened now h (false, h')).
  { intros h0 h' Er Hc' Ha. split; [done|]. intros _. split; [done|]. cbn. rewrite Ha. unfold addresses. by rewrite Er. }
  apply must_spec; [|by eauto]. intros h1 [= E1] Hc1. rewrite Hc in Hc1.
  assert (Hrest : forall h2, content h2 = content h1 -> handle_closed h2 = false ->
    opened now h (must CreateTable h2 (fun h => let '(_, h) := ddl_exec AddExpires h in
      must (Backfill (UnixNano (now + Hour))) h (fun h => (true, h))))).
  { intros h2 E2 Hc2. apply must_spec; [|intros h' ? ?; apply (Hfail h2); [by rewrite E2, <-E1|done..]].
    intros h3 E3 Hc3. apply (opened_before now h h3).
    - rewrite E1, <-E2. destruct (content h2); cbn in E3; injection E3 as <-; [|done..].
      cbn. unfold add_expires. by rewrite fmap_empty.
    - apply add_and_fill; [done|congruence|]. destruct (content h2); cbn in E3; injection E3 as <-; done. }
  case_bool_decide; [|by apply Hrest]. apply must_spec.
  - intros h2 [= E2] Hc2. apply Hrest; congruence.
  - intros h2 Hc2 Ha2. apply (Hfail h1); [by rewrite <-E1|done..].
Qed.
End opening.

(** C36: opening a database, of any release and whatever fails on the way.  A store is
    returned only for a URL with a known scheme and only with an open handle on the
    table of this release, in which every row has its old address and its old expiry or,
    if it had none, an hour from now; otherwise every handle that was opened is closed
    again and no address was lost. *)
Theorem open_store_migrates `{HostSyntax, Disk} sql_Open databaseURL now r h' :
  (forall d dsn h, sql_Open d dsn = Some h -> handle_closed h = false) ->
  OpenAllocationStore sql_Open databaseURL now = (r, h') ->
  match h' with
  | None => r = None
  | Some h' => exists d dsn h, data_source databaseURL = Some (d, dsn) /\ sql_Open d dsn = Some h /\
      match r with
      | Some postgres => postgres = bool_decide (d = Pgx) /\ handle_closed h' = false /\
          exists t, content h' = NewTable t /\ forall k,
            t !! k = (fun row => (row.1, Some (default (UnixNano (now + Hour)) row.2))) <$> rows_of (content h) !! k
      | None => handle_closed h' = true /\ addresses (content h') = addresses (content h)
      end
  end.
Proof.
  intros Hopen. unfold OpenAllocationStore.
  destruct (data_source databaseURL) as [[d dsn]|]; [|by intros [= <- <-]].
  destruct (sql_Open d dsn) as [h|] eqn:Eo; [|by intros [= <- <-]].
  pose proof (open_handle_spec d now h (Hopen _ _ _ Eo)) as [Hok Herr].
  destruct (open_handle d now h) as [[] h2]; intros [= <- <-]; exists d, dsn, h; (split_and!; try done).
  - destruct (Hok eq_refl). done.
  - destruct (Hok eq_refl) as [_ E]. eexists. split; [exact E|]. intros k. apply lookup_fmap.
  - by destruct (Herr eq_refl).
  - by destruct (Herr eq_refl).
Qed.

(** A database in memory whose statements fail where the script says so. *)
Definition memory_exec (s : ddl) (h : stored * bool * list bool) : bool * (stored * bool * list bool) :=
  match h.2, ddl_step s h.1.1 with
  | true :: script, _ => (false, (h.1, script))
  | _, Some d => (true, (d, h.1.2, tl h.2))
  | _, None => (false, (h.1, tl h.2))
  end.

Lemma memory_open s h : (memory_exec s h).2.1.2 = h.1.2.
Proof. unfold memory_exec. destruct h as [[d c] [|[] script]]; cbn; by destruct (ddl_step s d). Qed.

Lemma memory_ok s h h' : memory_exec s h = (true, h') -> ddl_step s h.1.1 = Some h'.1.1.
Proof.
  unfold memory_exec. destruct h as [[d c] [|[] script]]; cbn; destruct (ddl_step s d) eqn:E; by intros [= <-].
Qed.

Lemma memory_err s h h' :
  memory_exec s h = (false, h') -> h'.1.1 = h.1.1 \/ ddl_step s h.1.1 = Some h'.1.1.
Proof.
  unfold memory_exec. destruct h as [[d c] [|[] script]]; cbn; destruct (ddl_step s d) eqn:E; intros [= <-]; by left.
Qed.

Definition memory_disk : Disk := {|
  handle := stored * bool * list bool; content h := h.1.1; handle_closed h := h.1.2;
  close h := (h.1.1, true, h.2); ddl_exec := memory_exec;
  close_closed _ := eq_refl; close_content _ := eq_refl;
  ddl_open := memory_open; ddl_ok := memory_ok; ddl_err := memory_err |}.

(** A table of an older release with one name. *)
Definition legacy : stored := OldTable {[ (lit "10.254.0.0/30", lit "a.lab") := lit "10.254.0.1" ]}.

Lemma open_store_migrates_witness :
  exists t, (OpenAllocationStore (H0 := memory_disk) (fun _ _ => Some (legacy, false, [])) "sqlite:///dgw.db" (10 ^ 18)).2
      = Some (NewTable t, false, []) /\
    t !! (lit "10.254.0.0/30", lit "a.lab") = Some (lit "10.254.0.1", Some (10 ^ 18 + Hour)).
Proof.
  pose proof (@open_store_migrates _ memory_disk (fun _ _ => Some (legacy, false, [])) "sqlite:///dgw.db" (10 ^ 18)
    (Some false) (Some (NewTable (backfill (10 ^ 18 + Hour) (rows_of legacy)), false, []))) as H.
  destruct H as (d & dsn & h & _ & [= <-] & _ & _ & t & [= <-] & Ht).
  - by intros ??? [= <-].
  - reflexivity.
  - eexists. split; [reflexivity|]. rewrite Ht. reflexivity.
Defined.

(** The migrated table meets the invariant the store's theorems start from. *)
Lemma opened_table_ok L now t :
  0 < now -> now + Hour < 2 ^ 63 -> Hour <= L ->
  (forall k k' ip e e', t !! k = Some (ip, e) -> t !! k' = Some (ip, e') -> k = k') ->
  (forall k ip e, t !! k = Some (ip, e) -> nul_free k.1 /\
     (exists v, ip = AddrString (Addr4 v) /\ 0 <= v < 2 ^ 32 /\ owns k.1 v) /\ forall x, e = Some x -> x <= now + L) ->
  table_ok L now (backfill (UnixNano (now + Hour)) t).
Proof.
  intros Hn Hb HL U R. assert (HH : 0 < Hour) by (by vm_compute).
  rewrite UnixNano_small by lia. unfold backfill. split.
  - intros k k' ip e e'. rewrite !lookup_fmap.
    destruct (t !! k) as [[a x]|] eqn:Ek; [|done]. destruct (t !! k') as [[a' x']|] eqn:Ek'; [|done].
    cbn. intros [= <- <-] [= <- <-]. eauto.
  - intros k ip e. rewrite lookup_fmap. destruct (t !! k) as [[a x]|] eqn:Ek; [|done]. cbn. intros [= <- <-].
    destruct (R _ _ _ Ek) as (Hg & (v & -> & Hv & Ho) & Hx). split; [done|].
    exists v, (default (now + Hour) x). split_and!; try (done || lia).
    destruct x as [x|]; cbn; [by apply Hx|lia].
Qed.
