(* ===== verification/Service.v ===== *)
(** * The domain service

    [Service] of [internal/domain/service.go]: what a DNS question and a flow are
    answered with.  The tailnet identity API is outside the source: [Identity] is an
    interface whose methods may fail; [IsGateway] is absent for an identity that is
    not a [GatewaySource]. *)

From S2P Require Import Prelude GoStrings NetAddr Json Policy Alloc Store.

Class Identity := {
  Capabilities : Addr -> Addr -> option (gmap str json);
  IsGateway : option (Addr -> gmap str Gateway -> option bool);
}.

Record Service := mkService {
  sv_Gateways : gmap str Gateway;
  sv_AllocationStore : bool;  (* a store is configured *)
  sv_StatePath : str;
  sv_Lifecycle : option AllocationLifecycle;
  sv_Lease : Z;
}.

Inductive DNSOutcome := DNSPassthrough | DNSSynthesized | DNSUnavailable.

#[export] Instance DNSOutcome_eq_dec : EqDecision DNSOutcome.
Proof. solve_decision. Defined.

(** ** Counters: atomic 64-bit adds *)

Definition addSynthesized : prog unit := mem (fun p => (tt,
  mkProcess (p_alloc p) (p_lastRenewed p) (uint64 (p_Synthesized p + 1)) (p_Passthrough p) (p_Allowed p) (p_Denied p))).
Definition addPassthrough : prog unit := mem (fun p => (tt,
  mkProcess (p_alloc p) (p_lastRenewed p) (p_Synthesized p) (uint64 (p_Passthrough p + 1)) (p_Allowed p) (p_Denied p))).
Definition addAllowed : prog unit := mem (fun p => (tt,
  mkProcess (p_alloc p) (p_lastRenewed p) (p_Synthesized p) (p_Passthrough p) (uint64 (p_Allowed p + 1)) (p_Denied p))).
Definition addDenied : prog unit := mem (fun p => (tt,
  mkProcess (p_alloc p) (p_lastRenewed p) (p_Synthesized p) (p_Passthrough p) (p_Allowed p) (uint64 (p_Denied p + 1)))).

(** ** DNS *)

Definition lifecycle (s : Service) : AllocationLifecycle :=
  match sv_Lifecycle s with
  | Some l => l
  | None => mkLifecycle (sv_AllocationStore s) (sv_StatePath s) (sv_Lease s)
  end.

(** The gateway check: a failed check counts as a gateway. *)
Definition fromGateway `{Identity} (s : Service) (source : Addr) : bool :=
  match IsGateway with
  | Some check => match check source (sv_Gateways s) with Some gateway => gateway | None => true end
  | None => false
  end.

Definition DNSAnswer `{UnicodeTable, Identity} (s : Service) (now : Time) (source : Addr) (name : str)
  : prog (Addr * DNSOutcome) :=
  if fromGateway s source then addPassthrough;; mret (AddrZero, DNSPassthrough) else
  let '(name, ok) := NormalName name in
  if negb ok then addPassthrough;; mret (AddrZero, DNSPassthrough) else
  match Capabilities source AddrZero with
  | None => addPassthrough;; mret (AddrZero, DNSPassthrough)
  | Some caps =>
      let grants := Parse caps in
      let '(ranges, authorized) := RangesForName grants name in
      if negb authorized then addPassthrough;; mret (AddrZero, DNSPassthrough) else
      let gateway := rangeKey ranges in
      '(ip, e) ← Lifecycle_Allocate (lifecycle s) now gateway ranges name;
      if bool_decide (is_Some e) then addPassthrough;; mret (AddrZero, DNSUnavailable)
      else addSynthesized;; mret (ip, DNSSynthesized)
  end.

Definition DNS `{UnicodeTable, Identity} (s : Service) (now : Time) (source : Addr) (name : str)
  : prog (Addr * bool) :=
  '(ip, outcome) ← DNSAnswer s now source name;
  mret (ip, bool_decide (outcome = DNSSynthesized)).

Definition PTRMapping (s : Service) (now : Time) (ip : Addr) : prog (Mapping * bool) :=
  Lifecycle_Lookup (lifecycle s) now ip.

(** ** Flows *)

Definition containsPrefix (prefixes : list Prefix) (address : Addr) : bool :=
  existsb (fun prefix => PContains prefix address) prefixes.

(** The loop over the gateways, in the order the map is iterated; [Prefixes] of a
    selected gateway is never nil, since it contains the destination. *)
Fixpoint select_gateway (gateways : list Gateway) (destination : Addr) (selected : Gateway) : Gateway * bool :=
  match gateways with
  | [] => (selected, negb (bool_decide (Prefixes selected = [])))
  | gateway :: rest =>
      if negb (containsPrefix (Prefixes gateway) destination) then select_gateway rest destination selected
      else if negb (bool_decide (Prefixes selected = [])) then (GatewayZero, false)
      else select_gateway rest destination gateway
  end.

Definition gatewayForDestination (s : Service) (destination : Addr) : Gateway * bool :=
  select_gateway (map_to_list (sv_Gateways s)).*2 destination GatewayZero.

Definition Flow `{UnicodeTable, Identity} (s : Service) (now : Time) (source destination : Addr)
  (proto : str) (port : Z) : prog (Mapping * Gateway * bool) :=
  '(m, ok) ← PTRMapping s now destination;
  if negb ok then addDenied;; mret (MappingZero, GatewayZero, false) else
  match Capabilities source destination with
  | None => addDenied;; mret (MappingZero, GatewayZero, false)
  | Some caps =>
      let '(gateway, ok) := gatewayForDestination s destination in
      let '(gateway, ok) := if ok : bool then GatewayFor (Parse caps) gateway (m_Domain m) proto port
                            else (gateway, ok) in
      if negb ok then addDenied;; mret (MappingZero, GatewayZero, false)
      else addAllowed;; mret (m, gateway, true)
  end.

Definition FlowDomain `{UnicodeTable, Identity} (s : Service) (source destination : Addr)
  (name proto : str) (port : Z) : prog (Gateway * bool) :=
  let '(name, ok) := NormalName name in
  if negb ok then addDenied;; mret (GatewayZero, false) else
  let '(gateway, ok) := gatewayForDestination s destination in
  if negb ok then addDenied;; mret (GatewayZero, false) else
  match Capabilities source destination with
  | None => addDenied;; mret (GatewayZero, false)
  | Some caps =>
      let '(gateway, ok) := GatewayFor (Parse caps) gateway name proto port in
      if negb ok then addDenied;; mret (GatewayZero, false)
      else addAllowed;; mret (gateway, true)
  end.
