(* ===== verification/ServiceSpec.v ===== *)
(** * The domain service: fail closed, and end to end

    A question is answered from the allocation authority only for an authorised
    name; a flow is allowed only through the one gateway that owns its destination
    and only if the policy authorises it; and a client that asks for a name and
    connects to the answer is judged by the policy for that very name. *)

From S2P Require Import Prelude GoStrings NetAddr Json Policy PolicySpec Alloc AllocSpec AllocCache.
From S2P Require Import Store StoreSpec Replicas Service.

(** ** Selecting the gateway of a destination *)

Definition serves (destination : Addr) (g : Gateway) : bool := containsPrefix (Prefixes g) destination.

Lemma serves_prefixes destination g : serves destination g = true -> Prefixes g <> [].
Proof. unfold serves, containsPrefix. by destruct (Prefixes g). Qed.

(** The loop keeps the only gateway that serves the destination. *)
Lemma select_gateway_spec gws destination : forall sel,
  select_gateway gws destination sel =
  match filter (fun g => serves destination g = true) gws with
  | [] => (sel, negb (bool_decide (Prefixes sel = [])))
  | [g] => if bool_decide (Prefixes sel = []) then (g, true) else (GatewayZero, false)
  | _ => (GatewayZero, false)
  end.
Proof.
  induction gws as [|g gws IH]; intros sel; [done|]. cbn [select_gateway]. rewrite filter_cons.
  fold (serves destination g). destruct (serves destination g) eqn:Es; cbn [negb].
  - rewrite decide_True by done. apply serves_prefixes in Es.
    destruct (bool_decide (Prefixes sel = [])) eqn:Esel; cbn [negb].
    + rewrite IH, (bool_decide_eq_false_2 (Prefixes g = [])) by done.
      by destruct (filter _ gws) as [|? []].
    + by destruct (filter _ gws) as [|? []].
  - rewrite decide_False by done. apply IH.
Qed.

Lemma select_gateway_perm l l' destination :
  l ≡ₚ l' -> select_gateway l destination GatewayZero = select_gateway l' destination GatewayZero.
Proof.
  intros Hp. rewrite !select_gateway_spec.
  assert (Hf : filter (fun g => serves destination g = true) l ≡ₚ filter (fun g => serves destination g = true) l')
    by (by rewrite Hp).
  revert Hf. generalize (filter (fun g => serves destination g = true) l') as f'.
  generalize (filter (fun g => serves destination g = true) l) as f. intros f f' Hf.
  destruct f as [|g [|g2 f]].
  - apply Permutation_nil_l in Hf as <-. done.
  - apply Permutation_length_1_inv in Hf as ->. done.
  - pose proof (Permutation_length Hf). by destruct f' as [|? []].
Qed.

Lemma gatewayForDestination_iff s destination g :
  gatewayForDestination s destination = (g, true) <->
  exists k, sv_Gateways s !! k = Some g /\ serves destination g = true /\
    forall k' g', sv_Gateways s !! k' = Some g' -> serves destination g' = true -> k' = k.
Proof.
  unfold gatewayForDestination. split.
  - rewrite select_gateway_spec. set (m := sv_Gateways s).
    assert (Hsub : forall k g0, m !! k = Some g0 -> serves destination g0 = true ->
              g0 ∈ filter (fun g => serves destination g = true) (map_to_list m).*2).
    { intros k g0 Hk Hs. apply list_elem_of_filter. split; [done|]. apply list_elem_of_fmap.
      exists (k, g0). split; [done|]. by apply elem_of_map_to_list. }
    destruct (filter _ _) as [|g1 [|]] eqn:Ef; try done. cbn. intros [= ->].
    assert (Hg : g ∈ filter (fun g => serves destination g = true) (map_to_list m).*2) by (rewrite Ef; set_solver).
    apply list_elem_of_filter in Hg as [Hs ((k & g0) & E & Hk)%list_elem_of_fmap]. cbn in E. subst g0.
    apply elem_of_map_to_list in Hk. exists k. split_and!; [done|done|]. intros k' g' Hk' Hs'.
    destruct (decide (k' = k)) as [|Hne]; [done|]. exfalso.
    assert (Hm : (map_to_list m).*2 ≡ₚ g :: g' :: (map_to_list (delete k' (delete k m))).*2).
    { rewrite <-(insert_delete_id m k g) at 1 by done.
      rewrite map_to_list_insert by apply lookup_delete_eq. cbn.
      rewrite <-(insert_delete_id (delete k m) k' g') at 1 by (by rewrite lookup_delete_ne).
      rewrite map_to_list_insert by apply lookup_delete_eq. done. }
    assert (Hl : filter (fun g => serves destination g = true) (map_to_list m).*2 ≡ₚ
                 g :: g' :: filter (fun g => serves destination g = true) (map_to_list (delete k' (delete k m))).*2).
    { by rewrite Hm, !filter_cons, !decide_True by done. }
    rewrite Ef in Hl. by apply Permutation_length in Hl.
  - intros (k & Hk & Hs & Hu).
    rewrite (select_gateway_perm _ (g :: (map_to_list (delete k (sv_Gateways s))).*2)).
    + rewrite select_gateway_spec, filter_cons, decide_True by done.
      replace (filter _ _) with (@nil Gateway); [done|].
      symmetry. apply list_filter_none, Forall_fmap, Forall_forall.
      intros [k' g'] [Hne Hk']%elem_of_map_to_list%lookup_delete_Some. cbn. intros Hs'. apply Hne. symmetry. eauto.
    + rewrite <-(insert_delete_id (sv_Gateways s) k g) at 1 by done.
      by rewrite map_to_list_insert by apply lookup_delete_eq.
Qed.

(** The gateway of a destination does not depend on the order in which the
    gateway map is iterated, and it is chosen exactly when one and only one configured
    gateway has a prefix that contains the destination. *)
Theorem gatewayForDestination_spec s destination gws g :
  gws ≡ₚ (map_to_list (sv_Gateways s)).*2 ->
  select_gateway gws destination GatewayZero = gatewayForDestination s destination /\
  (gatewayForDestination s destination = (g, true) <->
   exists k, sv_Gateways s !! k = Some g /\ serves destination g = true /\
     forall k' g', sv_Gateways s !! k' = Some g' -> serves destination g' = true -> k' = k).
Proof. intros Hp. split; [by apply select_gateway_perm|apply gatewayForDestination_iff]. Qed.

Definition lab_service (l : AllocationLifecycle) : Service :=
  mkService {[ lit "tag:lab" := lab_gateway ]} false [] (Some l) 0.

Lemma gatewayForDestination_spec_witness :
  gatewayForDestination (lab_service sql_lifecycle) (AddrFrom4 10 254 0 3) = (lab_gateway, true) /\
  exists k, sv_Gateways (lab_service sql_lifecycle) !! k = Some lab_gateway.
Proof.
  pose proof (gatewayForDestination_spec (lab_service sql_lifecycle) (AddrFrom4 10 254 0 3)
    (map_to_list (sv_Gateways (lab_service sql_lifecycle))).*2 lab_gateway (reflexivity _)) as [_ H].
  assert (gatewayForDestination (lab_service sql_lifecycle) (AddrFrom4 10 254 0 3) = (lab_gateway, true)) as E
    by (by vm_compute).
  split; [done|]. apply H in E as (k & Hk & _). by exists k.
Defined.

(** ** Flows through a stateless gateway *)

Lemma GatewayFor_Prefixes grants gw name proto port gw' :
  GatewayFor grants gw name proto port = (gw', true) -> Prefixes gw' = Prefixes gw.
Proof. unfold GatewayFor. intros H. repeat case_match; by simplify_eq. Qed.

(** A gateway lets a flow through only for a valid name, towards the only
    configured gateway that owns the destination, and only if a grant with exactly
    that gateway's ranges authorises the name, protocol and port.  Every refusal is
    the zero gateway; each call counts once, and nothing else changes. *)
Theorem FlowDomain_authorized `{UnicodeTable, Database, Identity} s source destination name proto port pr d :
  let '(gw, ok, pr', d') := run (FlowDomain s source destination name proto port) pr d in
  d' = d /\ p_alloc pr' = p_alloc pr /\ p_lastRenewed pr' = p_lastRenewed pr /\
  (ok = true -> p_Allowed pr' = uint64 (p_Allowed pr + 1) /\ p_Denied pr' = p_Denied pr /\
     exists n caps g, NormalName name = (n, true) /\ Capabilities source destination = Some caps /\
       gatewayForDestination s destination = (g, true) /\ Prefixes gw = Prefixes g /\
       Authorize (Parse caps) (Prefixes g) n proto port = true) /\
  (ok = false -> p_Allowed pr' = p_Allowed pr /\ p_Denied pr' = uint64 (p_Denied pr + 1) /\ gw = GatewayZero).
Proof.
  unfold FlowDomain. destruct (NormalName name) as [n []]; [|done]. cbn [negb].
  destruct (gatewayForDestination s destination) as [g []]; [|done]. cbn [negb].
  destruct (Capabilities source destination) as [caps|]; [|done].
  pose proof (GatewayFor_cases (Parse caps) g n proto port) as Hc.
  destruct (GatewayFor (Parse caps) g n proto port) as [gw []] eqn:Eg; [|done]. cbn.
  destruct Hc as [Ha _]. split_and!; try done. intros _. split_and!; try done.
  exists n, caps, g. split_and!; try done; [by eapply GatewayFor_Prefixes|auto].
Qed.

(** ** DNS *)

(** The name and pool a question is authorised for, if any. *)
Definition pool_for `{UnicodeTable, Identity} (s : Service) (source : Addr) (name : str)
  : option (str * list Prefix) :=
  if fromGateway s source then None else
  match NormalName name, Capabilities source AddrZero with
  | (n, true), Some caps =>
      match RangesForName (Parse caps) n with
      | (rs, true) => Some (n, rs)
      | _ => None
      end
  | _, _ => None
  end.

Lemma Parse_ranges_not_nil `{UnicodeTable} caps : Forall (fun g => Ranges g <> []) (Parse caps).
Proof. apply Forall_forall. intros g Hg%Parse_elem_wf. apply Hg. Qed.

Lemma pool_for_wf `{UnicodeTable, Identity} s source name n rs :
  pool_for s source name = Some (n, rs) -> wf_ranges rs.
Proof.
  unfold pool_for. destruct (fromGateway s source); [done|].
  destruct (NormalName name) as [n' []]; [|done].
  destruct (Capabilities source AddrZero) as [caps|]; [|done].
  destruct (RangesForName (Parse caps) n') as [rs' []] eqn:E; [|done]. intros [= <- <-].
  apply RangesForName_iff in E as [(g & Hg & Hm) Hall]; [|apply Parse_ranges_not_nil].
  rewrite <-(Hall g Hg Hm). apply (Parse_elem_wf _ _ Hg).
Qed.

Lemma proc_ok_counters L now t pr pr' :
  p_alloc pr' = p_alloc pr -> p_lastRenewed pr' = p_lastRenewed pr ->
  proc_ok L now t pr -> proc_ok L now t pr'.
Proof. intros E1 E2 [? ? ?]. by split; rewrite ?E1, ?E2. Qed.

(** The address a pool key has in the table is one of the pool's. *)
Lemma row_in_pool L now t rs n ip e :
  table_ok L now t -> wf_ranges rs -> ipv4 ip -> t !! (rangeKey rs, n) = Some (AddrString ip, e) ->
  exists v, ip = Addr4 v /\ v ∈ pool rs.
Proof.
  intros Hok Hrs (w & -> & Hw) Hrow.
  destruct (t_rows _ _ _ Hok _ _ _ Hrow) as (_ & v & x & Es & Hv & _ & _ & ps & Hps & Ek & Hin).
  apply AddrString4_inj in Es as ->; [|done|done]. exists v. split; [done|]. cbn in Ek.
  apply rangeKey_injective in Ek as ->; [done|apply Hrs| |apply Hrs|done].
  intros ->. by apply elem_of_nil in Hin.
Qed.

Lemma live_table_holds L now t ip :
  table_ok L now t -> ipv4 ip -> ip_taken (live_table now t) (AddrString ip) = true ->
  exists k, live_row t now k ip.
Proof.
  intros Hok H4 (k & e & [Hk Hlive]%map_lookup_filter_Some)%ip_taken_holds.
  destruct (row_addr _ _ _ _ _ _ Hok Hk) as (_ & x & _ & -> & _). cbn in Hlive.
  unfold row_live in Hlive. cbn in Hlive. apply Z.ltb_lt in Hlive. exists k. split; eauto.
Qed.

(** What the answer to an authorised question promises. *)
Definition answered (L : Z) (now : Time) (t : Table) (n : str) (rs : list Prefix)
  (r : Addr * DNSOutcome) (t' : Table) : Prop :=
  (exists v, r = (Addr4 v, DNSSynthesized) /\ v ∈ pool rs /\ served L now t' (rangeKey rs) n (Addr4 v)) \/
  (r = (AddrZero, DNSUnavailable) /\
   forall v, v ∈ pool rs -> exists k, k <> (rangeKey rs, n) /\ live_row t now k (Addr4 v)).

Section dns.
Context `{UT : UnicodeTable, DB : Database, RL : !Reliable, ID : Identity} (s : Service).
Context (Hstore : l_Store (lifecycle s) = true).

Abbreviation L := (lease (lifecycle s)).

Lemma DNSAnswer_pool_for now source name :
  DNSAnswer s now source name =
  match pool_for s source name with
  | None => addPassthrough;; mret (AddrZero, DNSPassthrough)
  | Some (n, rs) =>
      '(ip, e) ← Lifecycle_Allocate (lifecycle s) now (rangeKey rs) rs n;
      if bool_decide (is_Some e) then addPassthrough;; mret (AddrZero, DNSUnavailable)
      else addSynthesized;; mret (ip, DNSSynthesized)
  end.
Proof.
  unfold DNSAnswer, pool_for. destruct (fromGateway s source); [done|].
  destruct (NormalName name) as [n []]; [|done].
  destruct (Capabilities source AddrZero) as [caps|]; [|done].
  by destruct (RangesForName (Parse caps) n) as [rs []].
Qed.

Lemma DNSAnswer_wp now source name n rs pr d :
  time_ok L now -> table_ok L now (table d) -> proc_ok L now (table d) pr ->
  pool_for s source name = Some (n, rs) ->
  wp (DNSAnswer s now source name)
    (fun r pr' t' => kept L now (table d) pr' t' /\ answered L now (table d) n rs r t') pr d.
Proof.
  intros Ht Hok Hp Hpool. rewrite DNSAnswer_pool_for, Hpool.
  pose proof (pool_for_wf _ _ _ _ _ Hpool) as Hrs.
  eapply wp_bind; [by apply Lifecycle_Allocate_wp; auto; apply Hrs|]. cbv beta.
  intros r pr' d' [(Hok' & Hst & Hp') Hal].
  assert (Hcount : forall pr'', p_alloc pr'' = p_alloc pr' -> p_lastRenewed pr'' = p_lastRenewed pr' ->
            kept L now (table d) pr'' (table d')).
  { intros pr'' E1 E2. split_and!; [done..|]. by eapply proc_ok_counters. }
  destruct Hal as [(ip & -> & (H4 & x & Hrow & Hx) & Hsv)|(Hno & -> & Hsv)].
  - rewrite bool_decide_eq_false_2 by (by intros [? ?]). apply wp_mem. intros u pr'' E. simplify_eq.
    apply wp_ret. split; [by apply Hcount|]. left.
    destruct (row_in_pool _ _ _ _ _ _ _ Hok Hrs H4 Hrow) as (v & -> & Hv). eauto.
  - destruct (first_free _ _) as [v|] eqn:Ev; cbn [alloc_result].
    + rewrite bool_decide_eq_false_2 by (by intros [? ?]). apply wp_mem. intros u pr'' E. simplify_eq.
      apply wp_ret. split; [by apply Hcount|]. left. exists v. split_and!; [done| |by apply Hsv].
      apply find_some in Ev as [Hin%list_elem_of_In _]. done.
    + rewrite bool_decide_eq_true_2 by (by eexists). apply wp_mem. intros u pr'' E. simplify_eq.
      apply wp_ret. split; [by apply Hcount|]. right. split; [done|]. intros v Hv.
      pose proof (pool_bound rs ltac:(apply Hrs)) as Hb. rewrite Forall_forall in Hb.
      pose proof (find_none _ _ Ev v ltac:(by apply list_elem_of_In)) as Htk.
      apply negb_false_iff, (live_table_holds L) in Htk as [k Hk]; [|done|exists v; auto].
      exists k. split; [|done]. intros ->. by apply (Hno (Addr4 v)).
Qed.
End dns.

(** C10: DNS fails closed.  A question from a gateway, for an invalid name, without a
    readable identity or without exactly one authorised pool is passed through: no
    address is handed out, no row, cache entry or renewal changes, and only the
    pass-through counter moves. *)
Theorem DNSAnswer_fail_closed `{UnicodeTable, Database, Identity} s now source name pr d :
  pool_for s source name = None ->
  let '(r, pr', d') := run (DNSAnswer s now source name) pr d in
  r = (AddrZero, DNSPassthrough) /\ d' = d /\ p_alloc pr' = p_alloc pr /\
  p_lastRenewed pr' = p_lastRenewed pr /\ p_Passthrough pr' = uint64 (p_Passthrough pr + 1) /\
  p_Synthesized pr' = p_Synthesized pr.
Proof. intros Hp. rewrite DNSAnswer_pool_for, Hp. done. Qed.

(** C11: for an authorised name the answer is an address of exactly the authorised
    pool, recorded in the shared table for this name; or, when other names hold every
    address of the pool, the question is reported unavailable and is not passed to
    another resolver. *)
Theorem DNSAnswer_authorized `{UT : UnicodeTable, DB : Database, RL : !Reliable, ID : Identity}
    s now source name n rs pr d :
  l_Store (lifecycle s) = true -> time_ok (lease (lifecycle s)) now ->
  table_ok (lease (lifecycle s)) now (table d) -> proc_ok (lease (lifecycle s)) now (table d) pr ->
  pool_for s source name = Some (n, rs) ->
  let '(r, pr', d') := run (DNSAnswer s now source name) pr d in
  answered (lease (lifecycle s)) now (table d) n rs r (table d') /\
  kept (lease (lifecycle s)) now (table d) pr' (table d').
Proof.
  intros Hs Ht Hok Hp Hpool.
  pose proof (DNSAnswer_wp s Hs now source name n rs pr d Ht Hok Hp Hpool) as Hw. unfold wp in Hw.
  destruct (run _ pr d) as [[r pr'] d']. tauto.
Qed.

(** ** From question to connection *)

Lemma pool_serves rs v gw :
  Forall wf4 rs -> v ∈ pool rs -> Prefixes gw = rs -> serves (Addr4 v) gw = true.
Proof.
  intros Hrs (p & Hp & Hv)%elem_of_pool Egw. unfold serves, containsPrefix. rewrite Egw.
  apply existsb_elem. exists p. split; [done|]. rewrite Forall_forall in Hrs.
  apply PContains_Addr4; [auto|]. apply elem_of_pool1 in Hv; [lia|auto].
Qed.

(** The mapping behind a served address, at any later time within the answer's life. *)
Lemma served_lookup `{DB : Database, RL : !Reliable} l now now' g n ip pr d :
  l_Store l = true -> time_ok (lease l) now' -> now <= now' <= now + (lease l - renewalDebounce) ->
  table_ok (lease l) now (table d) -> proc_ok (lease l) now (table d) pr -> ipv4 ip ->
  served (lease l) now (table d) g n ip ->
  (run (Lifecycle_Lookup l now' ip) pr d).1.1 = (mkMapping g n, true).
Proof.
  intros Hs Ht Hn Hok Hp H4 (x & Hrow & Hx).
  apply (table_ok_later _ now now') in Hok; [|lia]. apply (proc_ok_later _ now now') in Hp; [|lia].
  pose proof (Lifecycle_Lookup_wp l Hs now' ip pr d Ht Hok Hp H4) as Hw. unfold wp in Hw.
  destruct (run _ pr d) as [[r pr'] d']. cbn.
  destruct Hw as [_ [(g' & n' & -> & (_ & y & Hrow' & _) & _)|(_ & Hno)]].
  - pose proof (t_unique _ _ _ Hok _ _ _ _ _ Hrow Hrow') as E. by simplify_eq.
  - exfalso. apply (Hno (g, n)). split; [done|]. exists x. split; [done|lia].
Qed.

(** C5: end to end.  A client asks for a name and connects to the answer within a
    lease less the renewal interval.  If one configured gateway has the authorised
    ranges and no other gateway's ranges contain the address, the flow is judged by
    [GatewayFor] on the policy for that very name, protocol and port: an accepted flow
    carries the name and pool the question was answered with. *)
Theorem dns_then_flow `{UT : UnicodeTable, DB : Database, RL : !Reliable, ID : Identity}
    s now now' source name n rs pr d ip pr' d' k gw caps proto port :
  l_Store (lifecycle s) = true ->
  time_ok (lease (lifecycle s)) now -> time_ok (lease (lifecycle s)) now' ->
  now <= now' <= now + (lease (lifecycle s) - renewalDebounce) ->
  table_ok (lease (lifecycle s)) now (table d) -> proc_ok (lease (lifecycle s)) now (table d) pr ->
  pool_for s source name = Some (n, rs) ->
  run (DNSAnswer s now source name) pr d = (ip, DNSSynthesized, pr', d') ->
  sv_Gateways s !! k = Some gw -> Prefixes gw = rs ->
  (forall k' gw', sv_Gateways s !! k' = Some gw' -> serves ip gw' = true -> k' = k) ->
  Capabilities source ip = Some caps ->
  (run (Flow s now' source ip proto port) pr' d').1.1 =
    match GatewayFor (Parse caps) gw n proto port with
    | (gw', true) => (mkMapping (rangeKey rs) n, gw', true)
    | (_, false) => (MappingZero, GatewayZero, false)
    end.
Proof.
  intros Hs Ht Ht' Hn Hok Hp Hpool Hrun Hk Egw Hu Hcaps.
  pose proof (DNSAnswer_wp s Hs now source name n rs pr d Ht Hok Hp Hpool) as Hw. unfold wp in Hw.
  rewrite Hrun in Hw. destruct Hw as [(Hok' & _ & Hp') [(v & [= ->] & Hv & Hsv)|([= _ ?] & _)]].
  pose proof (pool_for_wf _ _ _ _ _ Hpool) as Hrs.
  pose proof (pool_bound rs ltac:(apply Hrs)) as Hb. rewrite Forall_forall in Hb.
  assert (Hlook : (run (Lifecycle_Lookup (lifecycle s) now' (Addr4 v)) pr' d').1.1
                  = (mkMapping (rangeKey rs) n, true)).
  { eapply served_lookup; eauto. exists v. auto. }
  assert (Hgw : gatewayForDestination s (Addr4 v) = (gw, true)).
  { apply gatewayForDestination_iff. exists k. split_and!; [done| |done].
    by apply (pool_serves rs); [apply Hrs|..]. }
  unfold Flow, PTRMapping. rewrite run_bind.
  destruct (run (Lifecycle_Lookup _ _ _) pr' d') as [[r pr2] d2]. cbn in Hlook. subst r.
  cbn [negb]. rewrite Hcaps, Hgw. cbn [m_Domain].
  by destruct (GatewayFor (Parse caps) gw n proto port) as [gw' []].
Qed.

(** ** A small deployment *)

Definition lab_caps : gmap str json :=
  {[ Capability := JArr [JObj [(lit "range", JArr [JStr "10.254.0.0/29"]);
                               (lit "resources", JArr [JStr "app.example.com:443"])]] ]}.

Definition lab_identity : Identity := {| Capabilities _ _ := Some lab_caps; IsGateway := None |}.

Abbreviation lab_ask name :=
  (@run table_db _ (@DNSAnswer table_min lab_identity (lab_service sql_lifecycle) noon (AddrFrom4 100 64 0 5) name)
     NewProcess ∅).

Lemma lab_pool : @pool_for table_min lab_identity (lab_service sql_lifecycle) (AddrFrom4 100 64 0 5) "App.example.com."
  = Some (lit "app.example.com", lab).
Proof. by vm_compute. Qed.

Lemma DNSAnswer_fail_closed_witness :
  let '(r, pr', d') := lab_ask "other.example.com" in
  r = (AddrZero, DNSPassthrough) /\ d' = ∅ /\ p_Passthrough pr' = 1.
Proof.
  pose proof (@DNSAnswer_fail_closed table_min table_db lab_identity (lab_service sql_lifecycle) noon
    (AddrFrom4 100 64 0 5) "other.example.com" NewProcess ∅ ltac:(by vm_compute)) as H.
  destruct (run _ _ _) as [[r pr'] d']. destruct H as (-> & -> & _ & _ & -> & _). done.
Defined.

Lemma DNSAnswer_authorized_witness :
  let '(r, pr', d') := lab_ask "App.example.com." in
  answered Hour noon ∅ "app.example.com" lab r d'.
Proof.
  pose proof (@DNSAnswer_authorized table_min table_db _ lab_identity (lab_service sql_lifecycle) noon
    (AddrFrom4 100 64 0 5) "App.example.com." "app.example.com" lab NewProcess ∅ eq_refl noon_ok
    (table_ok_empty _ _) (proc_ok_new _ _ _) lab_pool) as H.
  destruct (run _ _ _) as [[r pr'] d']. apply H.
Defined.

(** Port 443 of the name is authorised; the flow carries the name that was asked. *)
Lemma dns_then_flow_witness :
  let '(_, pr', d') := lab_ask "App.example.com." in
  (@run table_db _ (@Flow table_min lab_identity (lab_service sql_lifecycle) (noon + 3000 * 10 ^ 9)
     (AddrFrom4 100 64 0 5) (AddrFrom4 10 254 0 1) "tcp" 443) pr' d').1.1
  = (mkMapping "10.254.0.0/29" "app.example.com", lab_gateway, true).
Proof.
  destruct (lab_ask "App.example.com.") as [[[ip o] pr'] d'] eqn:E.
  assert (ip = AddrFrom4 10 254 0 1 /\ o = DNSSynthesized) as [-> ->].
  { apply (f_equal (fun x => x.1.1)) in E. vm_compute in E. by simplify_eq. }
  rewrite (@dns_then_flow table_min table_db _ lab_identity (lab_service sql_lifecycle) noon
    (noon + 3000 * 10 ^ 9) (AddrFrom4 100 64 0 5) "App.example.com." "app.example.com" lab NewProcess ∅
    (AddrFrom4 10 254 0 1) pr' d' "tag:lab" lab_gateway lab_caps "tcp" 443).
  - by vm_compute.
  - reflexivity.
  - apply noon_ok.
  - by split; vm_compute.
  - by split; vm_compute.
  - apply table_ok_empty.
  - apply proc_ok_new.
  - apply lab_pool.
  - exact E.
  - by vm_compute.
  - reflexivity.
  - intros k' gw' Hk _. unfold lab_service in Hk. cbn in Hk.
    apply lookup_singleton_Some in Hk as [<- _]. done.
  - reflexivity.
Defined.
