(* ===== verification/Egress.v ===== *)
(** * The egress role

    The egress side of [cmd/domain-gateway/main.go] and [ProxyTCP] of
    [internal/domain/gateway.go]: configuration, the choice of resolver and of the
    network a resolver is reached through, and what a gateway does with a flow.
    Reading [/etc/resolv.conf] and the status of the tailnet are parameters; a
    proxied flow is the plan of the lookups and the connection it makes. *)

From S2P Require Import Prelude GoStrings NetAddr Json Policy PolicySpec Alloc Upstream Store Service.

(** ** Configuration *)

Record egressConfig := mkEgressConfig {
  eg_Ranges : list str; eg_PTRResolver : str; eg_PTRResolverInterface : str }.

Record tsnetConfig := mkTSNetConfig {
  ts_Dir : str; ts_Hostname : str; ts_AuthKey : str; ts_ControlURL : str; ts_Tags : list str }.

Record config := mkConfig {
  cf_Listen : str;
  cf_GatewayListen : str;
  cf_TailscaledSocket : str;
  cf_Database : str;
  cf_AllocationLease : str;
  cf_UpstreamResolver : str;
  cf_UpstreamResolverInterface : str;
  cf_Egress : option egressConfig;
  cf_TSNet : tsnetConfig;
}.

Definition localEgressGatewayKey : str := "local-egress".

(** An error result is [None]. *)
Definition configuredResolver (resolver : str) : option str :=
  if str_eqb resolver [] || IsSystemResolver resolver then Some resolver else
  match SplitHostPort resolver with
  | None =>
      if negb (Contains resolver ":") || ParseIP_ok resolver then Some (JoinHostPort resolver "53") else None
  | Some (host, port) =>
      if str_eqb host [] || str_eqb port [] then None else
      match ParseUint16 port with
      | None => None
      | Some n => if n =? 0 then None else Some (JoinHostPort host port)
      end
  end.

(** [systemUpstream] is the host's resolver, if it has one. *)
Definition egressBackendResolver (systemUpstream : option str) (c : config) (nodeConfig : NodeConfig)
  : option (str * bool) :=
  let resolver := if nc_HasUpstreamDNS nodeConfig then nc_UpstreamDNS nodeConfig else cf_UpstreamResolver c in
  let resolver := if str_eqb resolver [] then lit "system" else resolver in
  match configuredResolver resolver with
  | None => None
  | Some resolver =>
      if IsSystemResolver resolver then
        match systemUpstream with Some resolver => Some (resolver, true) | None => None end
      else Some (resolver, false)
  end.

(** The range loop of [egressGateways]. *)
Fixpoint egress_ranges (raws : list str) (prefixes : list Prefix) : option (list Prefix) :=
  match raws with
  | [] => Some prefixes
  | raw :: raws' =>
      match ParsePrefix raw with
      | None => None
      | Some prefix =>
          if negb (Is4 (p_addr prefix)) || negb (bool_decide (prefix = Masked prefix)) then None
          else if existsb (Overlaps prefix) prefixes then None
          else egress_ranges raws' (prefixes ++ [prefix])
      end
  end.

Definition egressGateways (c : config) (resolver : str) (systemResolver : bool) : option (gmap str Gateway) :=
  match cf_Egress c with
  | None => None
  | Some e =>
      if (length (eg_Ranges e) =? 0)%nat then None else
      match egress_ranges (eg_Ranges e) [] with
      | None => None
      | Some prefixes => Some {[ localEgressGatewayKey := mkGateway prefixes resolver systemResolver ]}
      end
  end.

Definition egressResolverInterface (value : str) : option str :=
  let value := if str_eqb value [] then lit "auto" else value in
  if str_eqb value "auto" || str_eqb value "tailnet" || str_eqb value "host" then Some value else None.

Definition egressUpstreamResolverInterface (c : config) : option str :=
  egressResolverInterface (cf_UpstreamResolverInterface c).

Definition egressPTRResolverInterface (c : config) : option str :=
  match cf_Egress c with
  | None => egressResolverInterface []
  | Some e => egressResolverInterface (eg_PTRResolverInterface e)
  end.

(** The resolver and whether it is configured; [None] is an error. *)
Definition egressPTRResolver (c : config) : option (str * bool) :=
  match cf_Egress c with
  | None => Some ([], false)
  | Some e =>
      if str_eqb (eg_PTRResolver e) [] then Some ([], false) else
      let resolver := match SplitHostPort (eg_PTRResolver e) with
                      | Some _ => eg_PTRResolver e
                      | None => JoinHostPort (eg_PTRResolver e) "53"
                      end in
      match SplitHostPort resolver with
      | None => None
      | Some (host, port) =>
          if negb (ParseIP_ok host) then None else
          match ParseUint16 port with
          | None => None
          | Some n => if n =? 0 then None else Some (resolver, true)
          end
      end
  end.

(** The egress checks at the end of [parseCommand]. *)
Definition egress_config_ok (c : config) : bool :=
  bool_decide (is_Some (egressGateways c [] false)) &&
  bool_decide (is_Some (egressUpstreamResolverInterface c)) &&
  bool_decide (is_Some (egressPTRResolverInterface c)) &&
  bool_decide (is_Some (egressPTRResolver c)) &&
  bool_decide (is_Some (configuredResolver (cf_UpstreamResolver c))).

(** ** Reaching a resolver *)

(** A node of the tailnet status: its addresses, primary routes, tags and capabilities,
    the latter as lists of raw JSON texts; a nil pointer or slice is [None]. *)
Record peer := mkPeer {
  pe_TailscaleIPs : list Addr; pe_PrimaryRoutes : option (list Prefix);
  pe_Tags : option (list str); pe_CapMap : gmap str (option (list str)) }.
Record tailnet_status := mkStatus {
  ts_Self : option peer; ts_TailscaleIPs : list Addr; ts_Peer : list (option peer) }.

Definition prefixesContainResolver (prefixes : list Prefix) (resolver : str) : bool :=
  match SplitHostPort resolver with
  | None => false
  | Some (host, _) =>
      match ParseAddr host with
      | None => false
      | Some address => existsb (fun prefix => PContains prefix address) prefixes
      end
  end.

Definition peerRoutesContainResolver (status : option tailnet_status) (resolver : str) : bool :=
  match status with
  | None => false
  | Some status =>
      existsb (fun p => match p with
                        | Some p => match pe_PrimaryRoutes p with
                                    | Some routes => prefixesContainResolver routes resolver
                                    | None => false
                                    end
                        | None => false
                        end) (ts_Peer status)
  end.

Definition has_addr (address : Addr) (candidates : list Addr) : bool :=
  existsb (fun candidate => bool_decide (candidate = address)) candidates.

Definition tailnetResolver (status : option tailnet_status) (resolver : str) : bool :=
  match status with
  | None => false
  | Some status =>
      match SplitHostPort resolver with
      | None => false
      | Some (host, _) =>
          match ParseAddr host with
          | None => false
          | Some address =>
              match ts_Self status with Some self => has_addr address (pe_TailscaleIPs self) | None => false end
              || has_addr address (ts_TailscaleIPs status)
              || existsb (fun p => match p with Some p => has_addr address (pe_TailscaleIPs p) | None => false end)
                   (ts_Peer status)
          end
      end
  end.

Definition autoUsesTailnet (status : option tailnet_status) (resolver : str) : bool :=
  tailnetResolver status resolver || peerRoutesContainResolver status resolver.

Inductive network := Host | Tailnet.

#[export] Instance network_eq_dec : EqDecision network.
Proof. solve_decision. Defined.

(** [resolverDialFor]: the network an address is dialled through; [status] is [None]
    when the status call fails. *)
Definition resolverDialFor (resolverInterface : str) (status : option tailnet_status) (address : str) : network :=
  if str_eqb resolverInterface "tailnet" then Tailnet
  else if str_eqb resolverInterface "host" then Host
  else if autoUsesTailnet status address then Tailnet else Host.

(** The DNS authorities of a userspace gateway; [None] is a fatal error. *)
Definition dnsResolvers (c : config) (advertised : option (list str)) : option (list str) :=
  match egressPTRResolver c with
  | None => None
  | Some (ptrResolver, true) => Some [ptrResolver]
  | Some (_, false) =>
      match advertised with
      | None | Some [] => None
      | Some addrs =>
          let rs := (fun addr => match SplitHostPort addr with
                                 | Some _ => addr
                                 | None => JoinHostPort addr "53"
                                 end) <$> filter (fun addr => addr <> []) addrs in
          if (length rs =? 0)%nat then None else Some rs
      end
  end.

(** [lookupPTR]: the first resolver that answers with at least one name; [ask] is one
    [LookupAddr] call, [None] its error. *)
Fixpoint lookupPTR (ask : str -> option (list str)) (resolvers : list str) (last : bool) : option (list str) :=
  match resolvers with
  | [] => if last then None else Some []
  | dnsAddr :: rest =>
      match ask dnsAddr with
      | Some (n :: ns) => Some (n :: ns)
      | Some [] => lookupPTR ask rest false
      | None => lookupPTR ask rest true
      end
  end.

(** [dnsListenAddress]. *)
Definition dnsListenAddress (configured : str) (ip : Addr) : str :=
  if negb (str_eqb configured []) then configured else JoinHostPort (AddrString ip) "53".

(** [dnsGateways]: the DNS role has no gateways of its own. *)
Definition dnsGateways (systemUpstream : option str) (nodeConfig : NodeConfig) : option (gmap str Gateway * str) :=
  if IsSystemResolver (nc_UpstreamDNS nodeConfig) then
    match systemUpstream with Some upstream => Some (∅, upstream) | None => None end
  else Some (∅, nc_UpstreamDNS nodeConfig).

(** ** Proxying a flow *)

(** What a flow that is let through does: resolve [pl_name] at [pl_resolver], over the
    host network or through [ResolverDial], and connect to [pl_port] of the result. *)
Record plan := mkPlan { pl_name : str; pl_resolver : str; pl_host : bool; pl_port : Z }.

(** [ProxyTCP] up to the backend lookup.  [names] is the result of the PTR lookup;
    [systemResolver] is [None] when the service has none and [Some None] when it
    fails; [resolverDial] says whether a [ResolverDial] is set. *)
Definition ProxyTCP `{UnicodeTable, Identity} (s : Service) (names : option (list str))
  (systemResolver : option (option str)) (resolverDial : bool) (src dst : Addr) (port : Z) : prog (option plan) :=
  match names with
  | Some [name] =>
      '(g, ok) ← FlowDomain s src dst name "tcp" port;
      if negb ok then mret None else
      let address :=
        if SystemResolver g && IsSystemResolver (Resolver g) then
          match systemResolver with Some (Some r) => Some r | _ => None end
        else Some (Resolver g) in
      mret match address with
           | None => None
           | Some r => Some (mkPlan (TrimSuffix name ".") r (SystemResolver g || negb resolverDial) port)
           end
  | _ => mret None
  end.

(** [ServeTSNetGateway]: the routes advertised and the destinations handled. *)
Definition advertised_routes (s : Service) : list Prefix := (map_to_list (sv_Gateways s)).*2 ≫= Prefixes.

Definition handles (s : Service) (dst : Addr) : bool :=
  existsb (fun g => containsPrefix (Prefixes g) dst) (map_to_list (sv_Gateways s)).*2.
