(* ===== verification/EgressSpec.v ===== *)
(** * The egress role: configuration meets policy, and what a flow may do *)

From S2P Require Import Prelude GoStrings NetAddr Json Policy PolicySpec Alloc AllocSpec Upstream Store StoreSpec.
From S2P Require Import Service ServiceSpec Egress.

(** ** Configuration *)

(** The local configuration reads range texts exactly as the policy does. *)
Lemma egress_ranges_parse raws : forall prefixes, egress_ranges raws prefixes = parse_ranges raws prefixes.
Proof.
  induction raws as [|raw raws IH]; intros prefixes; cbn [egress_ranges parse_ranges]; [done|].
  destruct (ParsePrefix raw); [|done]. by rewrite IH.
Qed.

(** The local fallback is validated exactly as a capability's resolver is. *)
Lemma configuredResolver_normalize r :
  r <> [] ->
  configuredResolver r = match normalizeResolver r with (u, true) => Some u | (_, false) => None end.
Proof.
  intros Hr. unfold configuredResolver, normalizeResolver.
  rewrite (proj2 (bool_decide_eq_false _) Hr : str_eqb r [] = false). cbn [orb].
  destruct (IsSystemResolver r); [done|]. destruct (SplitHostPort r) as [[host port]|].
  - destruct (str_eqb host []); [done|]. cbn [orb]. destruct (str_eqb port []) eqn:Ep.
    + apply str_eqb_true in Ep as ->. done.
    + destruct (ParseUint16 port) as [n|]; [|done]. by destruct (n =? 0).
  - by destruct (Contains r ":"), (ParseIP_ok r).
Qed.

Lemma parse_ranges_wf_ranges raws ps : raws <> [] -> parse_ranges raws [] = Some ps -> wf_ranges ps.
Proof.
  intros Hr H. apply parse_ranges_wf in H as (Hwf & Hd & Hl); [|by constructor|].
  - split; [|done|done]. intros ->. destruct raws; [done|]. cbn in Hl. lia.
  - intros i j p q Hp. by rewrite lookup_nil in Hp.
Qed.

(** An egress instance starts exactly when its configured ranges are a range list
    the policy parser would accept, and it then enforces the very ranges a grant with
    the same texts carries: its only gateway has them, canonical and disjoint, so
    grants and gateway compare equal. *)
Lemma egressGateways_policy c resolver system gs :
  egressGateways c resolver system = Some gs <->
  exists e prefixes, cf_Egress c = Some e /\ eg_Ranges e <> [] /\
    parse_ranges (eg_Ranges e) [] = Some prefixes /\ wf_ranges prefixes /\
    gs = {[ localEgressGatewayKey := mkGateway prefixes resolver system ]}.
Proof.
  unfold egressGateways. destruct (cf_Egress c) as [e|].
  2:{ split; [done|]. by intros (? & ? & ? & _). }
  destruct (Nat.eqb_spec (length (eg_Ranges e)) 0) as [Hz|Hz].
  { apply nil_length_inv in Hz. split; [done|]. intros (e' & ? & [= <-] & ? & _). done. }
  assert (Hne : eg_Ranges e <> []) by (by intros E; rewrite E in Hz).
  rewrite egress_ranges_parse. destruct (parse_ranges (eg_Ranges e) []) as [ps|] eqn:Ep.
  - pose proof (parse_ranges_wf_ranges _ _ Hne Ep). split.
    + intros [= <-]. by exists e, ps.
    + intros (e' & ps' & [= <-] & _ & Hp & _ & ->). congruence.
  - split; [done|]. intros (e' & ps' & [= <-] & _ & Hp & _). congruence.
Qed.

(** ** Flows *)

(** ** Programs that only count *)

(** [p] runs no statement and changes nothing but the counters, and every result it may
    have among other threads satisfies [Q]. *)
Fixpoint counts {A} (Q : A -> Prop) (p : prog A) : Prop :=
  match p with
  | Ret a => Q a
  | Sql _ _ => False
  | Mem f k => forall pr,
      p_alloc (f pr).2 = p_alloc pr /\ p_lastRenewed (f pr).2 = p_lastRenewed pr /\ counts Q (k (f pr).1)
  end.

Lemma counts_mono {A} (Q Q' : A -> Prop) (p : prog A) : (forall a, Q a -> Q' a) -> counts Q p -> counts Q' p.
Proof.
  intros HQ. induction p as [a|C q k IH|C g k IH]; cbn; [auto|done|].
  intros Hp pr. destruct (Hp pr) as (? & ? & ?). auto.
Qed.

Lemma counts_bind {A B} (R : A -> Prop) (Q : B -> Prop) (p : prog A) (f : A -> prog B) :
  counts R p -> (forall a, R a -> counts Q (f a)) -> counts Q (p ≫= f).
Proof.
  intros Hp Hf. induction p as [a|C q k IH|C g k IH]; cbn in *; [by apply Hf|done|].
  intros pr. destruct (Hp pr) as (? & ? & ?). auto.
Qed.

Lemma counts_run `{Database} {A} (Q : A -> Prop) (p : prog A) pr d :
  counts Q p -> let '(r, pr', d') := run p pr d in
  d' = d /\ p_alloc pr' = p_alloc pr /\ p_lastRenewed pr' = p_lastRenewed pr /\ Q r.
Proof.
  revert pr. induction p as [a|C q k IH|C g k IH]; intros pr Hp; cbn in *; [done..|].
  destruct (Hp pr) as (Ha & Hl & Hk). destruct (g pr) as [b pr1]. cbn in *.
  specialize (IH b pr1 Hk). destruct (run (k b) pr1 d) as [[r pr'] d']. by rewrite <-Ha, <-Hl.
Qed.

(** What a plan of [ProxyTCP] stands on. *)
Definition planned `{UnicodeTable, Identity} (s : Service) (names : option (list str))
  (sysr : option (option str)) (src dst : Addr) (port : Z) (pl : plan) : Prop :=
  exists name caps g gw,
    names = Some [name] /\ pl_name pl = TrimSuffix name "." /\ pl_port pl = port /\
    validName (ToLower (pl_name pl)) = true /\
    Capabilities src dst = Some caps /\ gatewayForDestination s dst = (g, true) /\
    Authorize (Parse caps) (Prefixes g) (ToLower (pl_name pl)) "tcp" port = true /\
    GatewayFor (Parse caps) g (ToLower (pl_name pl)) "tcp" port = (gw, true) /\
    (if SystemResolver gw && IsSystemResolver (Resolver gw) then sysr = Some (Some (pl_resolver pl))
     else pl_resolver pl = Resolver gw) /\
    (SystemResolver gw = true -> pl_host pl = true).

(** A proxied connection is made only for a destination with exactly one PTR
    name; that name, lower-cased, is authorised by a grant with exactly the ranges of
    the only gateway that owns the destination, for TCP and the destination port; it
    is resolved at the resolver the policy selects, the host's own for [system], and a
    flow marked for the system resolver never dials through the tailnet.  Nothing but
    the counters changes. *)
Lemma ProxyTCP_counts `{UnicodeTable, Identity} s names sysr dial src dst port :
  counts (fun r => forall pl, r = Some pl -> planned s names sysr src dst port pl)
    (ProxyTCP s names sysr dial src dst port).
Proof.
  unfold ProxyTCP. destruct names as [[|name [|]]|]; try done.
  unfold FlowDomain, NormalName. set (n := ToLower (TrimSuffix name ".")).
  destruct (validName n) eqn:Hv; [|done]. cbn [negb].
  destruct (gatewayForDestination s dst) as [g []] eqn:Eg; [|done]. cbn [negb].
  destruct (Capabilities src dst) as [caps|] eqn:Ec; [|done].
  pose proof (GatewayFor_cases (Parse caps) g n "tcp" port) as Hc.
  destruct (GatewayFor (Parse caps) g n "tcp" port) as [gw []] eqn:Ef; [|done]. cbn.
  destruct Hc as [Ha _]. intros pr. split_and!; try done. intros pl Hpl. exists name, caps, g, gw.
  destruct (SystemResolver gw && IsSystemResolver (Resolver gw)) eqn:Es.
  - destruct sysr as [[r|]|]; simplify_eq. cbn. split_and!; try done; [by apply Ha|]. by intros ->.
  - simplify_eq. cbn. split_and!; try done; [by apply Ha|]. by intros ->.
Qed.

(** The DNS role's own gateway map is empty, so its gateway check only ever refuses
    sources whose identity cannot be read. *)
Lemma dnsGateways_empty sysr nc gs upstream : dnsGateways sysr nc = Some (gs, upstream) -> gs = ∅.
Proof. unfold dnsGateways. intros. repeat case_match; by simplify_eq. Qed.

(** A forced interface never depends on the tailnet status. *)
Lemma resolverDialFor_forced status status' address :
  resolverDialFor "tailnet" status address = Tailnet /\ resolverDialFor "host" status' address = Host.
Proof. done. Qed.
