(* ===== verification/Command.v ===== *)
(** * The command line and the configuration file

    [parseCommand], [configPath], [newTSNet], [systemUpstream] and [dnsListenAddress] of
    [cmd/domain-gateway/main.go].  The configuration file is read by [load]: the JSON
    tree of the file after [hujson.Standardize], or [None] when the file cannot be read,
    standardised or is not JSON. *)

From S2P Require Import Prelude GoStrings GoFlag GoTime NetAddr Json Policy PolicySpec Alloc Upstream Store Service Egress.

Record command := mkCommand { cm_Role : str; cm_Transport : str; cm_Config : config }.

(** The errors of [parseCommand]. *)
Inductive command_error :=
| ErrUsage
| ErrConfigArgument
| ErrConfigFile
| ErrRetiredField (name : str)
| ErrRetiredEgressField
| ErrConfigType
| ErrFlags
| ErrMode
| ErrLease
| ErrEgressRole
| ErrEgress.

(** ** The path of the configuration file *)

(** [strings.CutPrefix]. *)
Definition CutPrefix (s p : str) : option str := if HasPrefix s p then Some (drop (length p) s) else None.

(** The loop of [configPath], with the path so far. *)
Fixpoint config_path_loop (path : str) (args : list str) : option str :=
  match args with
  | [] => Some path
  | arg :: rest =>
      if str_eqb arg "-config" || str_eqb arg "--config" then
        match rest with
        | [] => None
        | value :: rest' => config_path_loop value rest'
        end
      else
        let path := default path (CutPrefix arg "-config=") in
        let path := default path (CutPrefix arg "--config=") in
        config_path_loop path rest
  end.

Definition configPath (args : list str) : option str :=
  Clean <$> config_path_loop "config.json" args.

(** ** Decoding the file *)

(** A [map[string]json.RawMessage], of which only the keys matter here. *)
Definition dec_map_keys (prev : list str) (j : json) : option (list str) :=
  match j with
  | JNull => Some []
  | JObj l => Some (prev ++ l.*1)
  | _ => None
  end.

(** The struct [legacy]. *)
Definition legacy_field (keys : list str) (k : str) (v : json) : option (list str) :=
  if key_is k "egress" then dec_map_keys keys v else Some keys.

Definition egressZero : egressConfig := mkEgressConfig [] [] [].
Definition tsnetZero : tsnetConfig := mkTSNetConfig [] [] [] [] [].
Definition configZero : config := mkConfig [] [] [] [] [] [] [] None tsnetZero.

Definition egress_field (e : egressConfig) (k : str) (v : json) : option egressConfig :=
  let '(mkEgressConfig r p i) := e in
  if key_is k "ranges" then (fun r => mkEgressConfig r p i) <$> dec_strings r v
  else if key_is k "ptr_resolver" then (fun p => mkEgressConfig r p i) <$> dec_string p v
  else if key_is k "ptr_resolver_interface" then (fun i => mkEgressConfig r p i) <$> dec_string i v
  else Some e.

(** A pointer field: [null] resets it, anything else decodes into what it points to. *)
Definition dec_egress (prev : option egressConfig) (j : json) : option (option egressConfig) :=
  match j with
  | JNull => Some None
  | _ => Some <$> dec_struct egress_field (default egressZero prev) j
  end.

Definition tsnet_field (t : tsnetConfig) (k : str) (v : json) : option tsnetConfig :=
  let '(mkTSNetConfig d h a c tags) := t in
  if key_is k "dir" then (fun d => mkTSNetConfig d h a c tags) <$> dec_string d v
  else if key_is k "hostname" then (fun h => mkTSNetConfig d h a c tags) <$> dec_string h v
  else if key_is k "auth_key" then (fun a => mkTSNetConfig d h a c tags) <$> dec_string a v
  else if key_is k "control_url" then (fun c => mkTSNetConfig d h a c tags) <$> dec_string c v
  else if key_is k "tags" then (fun tags => mkTSNetConfig d h a c tags) <$> dec_strings tags v
  else Some t.

Definition config_json_field (c : config) (k : str) (v : json) : option config :=
  let '(mkConfig l g s d a u i e t) := c in
  if key_is k "dns_listen" then (fun l => mkConfig l g s d a u i e t) <$> dec_string l v
  else if key_is k "gateway_listen" then (fun g => mkConfig l g s d a u i e t) <$> dec_string g v
  else if key_is k "tailscaled_socket" then (fun s => mkConfig l g s d a u i e t) <$> dec_string s v
  else if key_is k "database" then (fun d => mkConfig l g s d a u i e t) <$> dec_string d v
  else if key_is k "allocation_lease" then (fun a => mkConfig l g s d a u i e t) <$> dec_string a v
  else if key_is k "upstream_resolver" then (fun u => mkConfig l g s d a u i e t) <$> dec_string u v
  else if key_is k "upstream_resolver_interface" then (fun i => mkConfig l g s d a u i e t) <$> dec_string i v
  else if key_is k "egress" then (fun e => mkConfig l g s d a u i e t) <$> dec_egress e v
  else if key_is k "tsnet" then (fun t => mkConfig l g s d a u i e t) <$> dec_struct tsnet_field t v
  else Some c.

(** The fields of earlier releases. *)
Definition retired_fields : list str :=
  [lit "tsnet_dir"; lit "tsnet_hostname"; lit "tsnet_auth_key"; lit "tsnet_tags"].
Definition retired_egress_fields : list str := [lit "tag"; lit "dns_resolver"; lit "upstream_dns_interface"].

Definition decode_config (data : json) : command_error + config :=
  match dec_map_keys [] data with
  | None => inl ErrConfigType
  | Some fields =>
      match List.find (fun name => bool_decide (name ∈ fields)) retired_fields with
      | Some name => inl (ErrRetiredField name)
      | None =>
          match dec_struct legacy_field [] data with
          | None => inl ErrConfigType
          | Some legacy =>
              if existsb (fun name => bool_decide (name ∈ legacy)) retired_egress_fields
              then inl ErrRetiredEgressField
              else match dec_struct config_json_field configZero data with
                   | None => inl ErrConfigType
                   | Some c => inr c
                   end
          end
      end
  end.

(** ** The flags *)

Definition flag_names : list str :=
  [lit "mode"; lit "config"; lit "dns-listen"; lit "gateway-listen"; lit "tailscaled-socket"; lit "database";
   lit "allocation-lease"; lit "upstream-resolver"; lit "tsnet-dir"; lit "tsnet-hostname"; lit "tsnet-auth-key";
   lit "tsnet-control-url"; lit "tsnet-tags"].

Definition defined_flag (name : str) : bool := bool_decide (name ∈ flag_names).

(** What the flags are bound to: [*mode], [*tags] and the configuration. *)
Record flag_state := mkFlags { fl_mode : str; fl_tags : str; fl_config : config }.

(** [Value.Set] of one flag. *)
Definition set_flag (st : flag_state) (a : str * str) : flag_state :=
  let '(mkFlags mode tags c) := st in
  let '(mkConfig l g s d al u i e (mkTSNetConfig dir host auth url ts as t)) := c in
  let '(name, v) := a in
  if str_eqb name "mode" then mkFlags v tags c
  else if str_eqb name "dns-listen" then mkFlags mode tags (mkConfig v g s d al u i e t)
  else if str_eqb name "gateway-listen" then mkFlags mode tags (mkConfig l v s d al u i e t)
  else if str_eqb name "tailscaled-socket" then mkFlags mode tags (mkConfig l g v d al u i e t)
  else if str_eqb name "database" then mkFlags mode tags (mkConfig l g s v al u i e t)
  else if str_eqb name "allocation-lease" then mkFlags mode tags (mkConfig l g s d v u i e t)
  else if str_eqb name "upstream-resolver" then mkFlags mode tags (mkConfig l g s d al v i e t)
  else if str_eqb name "tsnet-dir" then mkFlags mode tags (mkConfig l g s d al u i e (mkTSNetConfig v host auth url ts))
  else if str_eqb name "tsnet-hostname" then mkFlags mode tags (mkConfig l g s d al u i e (mkTSNetConfig dir v auth url ts))
  else if str_eqb name "tsnet-auth-key" then mkFlags mode tags (mkConfig l g s d al u i e (mkTSNetConfig dir host v url ts))
  else if str_eqb name "tsnet-control-url" then mkFlags mode tags (mkConfig l g s d al u i e (mkTSNetConfig dir host auth v ts))
  else if str_eqb name "tsnet-tags" then mkFlags mode v c
  else st.

(** ** [parseCommand] *)

Definition lease_ok `{FloatProduct} (lease : str) : bool :=
  str_eqb lease [] || match ParseDuration lease with Some d => 0 <? d | None => false end.

Definition set_tags (c : config) (tags : list str) : config :=
  let '(mkConfig l g s d a u i e (mkTSNetConfig dir host auth url _)) := c in
  mkConfig l g s d a u i e (mkTSNetConfig dir host auth url tags).

Definition parseCommand `{FloatProduct} (load : str -> option json) (args : list str) : command_error + command :=
  match args with
  | [] => inl ErrUsage
  | role :: args' =>
      if negb (str_eqb role "dns") && negb (str_eqb role "egress") then inl ErrUsage else
      match configPath args' with
      | None => inl ErrConfigArgument
      | Some path =>
          match load path with
          | None => inl ErrConfigFile
          | Some data =>
              match decode_config data with
              | inl e => inl e
              | inr c =>
                  match parse_flags defined_flag args' with
                  | None => inl ErrFlags
                  | Some (assigns, _) =>
                      let st := fold_left set_flag assigns (mkFlags "tsnet" (Join (ts_Tags (cf_TSNet c)) ",") c) in
                      let c := fl_config st in
                      if negb (str_eqb (fl_mode st) "tsnet") && negb (str_eqb (fl_mode st) "tailscaled") then inl ErrMode
                      else if negb (lease_ok (cf_AllocationLease c)) then inl ErrLease
                      else if str_eqb role "dns" && bool_decide (is_Some (cf_Egress c)) then inl ErrEgressRole
                      else if str_eqb role "egress" && negb (egress_config_ok c) then inl ErrEgress
                      else
                        let tags := if str_eqb (fl_tags st) [] then [] else Split (fl_tags st) "," in
                        inr (mkCommand role (fl_mode st) (set_tags c tags))
                  end
              end
          end
      end
  end.

(** ** What the flags do *)

(** Each setting is the last flag that names it, or the file's; the rest is the file's. *)
Definition flags_applied (assigns : list (str * str)) (mode tags : str) (c : config) (st : flag_state) : Prop :=
  let c' := fl_config st in
  fl_mode st = flag_value "mode" assigns mode /\
  fl_tags st = flag_value "tsnet-tags" assigns tags /\
  cf_Listen c' = flag_value "dns-listen" assigns (cf_Listen c) /\
  cf_GatewayListen c' = flag_value "gateway-listen" assigns (cf_GatewayListen c) /\
  cf_TailscaledSocket c' = flag_value "tailscaled-socket" assigns (cf_TailscaledSocket c) /\
  cf_Database c' = flag_value "database" assigns (cf_Database c) /\
  cf_AllocationLease c' = flag_value "allocation-lease" assigns (cf_AllocationLease c) /\
  cf_UpstreamResolver c' = flag_value "upstream-resolver" assigns (cf_UpstreamResolver c) /\
  ts_Dir (cf_TSNet c') = flag_value "tsnet-dir" assigns (ts_Dir (cf_TSNet c)) /\
  ts_Hostname (cf_TSNet c') = flag_value "tsnet-hostname" assigns (ts_Hostname (cf_TSNet c)) /\
  ts_AuthKey (cf_TSNet c') = flag_value "tsnet-auth-key" assigns (ts_AuthKey (cf_TSNet c)) /\
  ts_ControlURL (cf_TSNet c') = flag_value "tsnet-control-url" assigns (ts_ControlURL (cf_TSNet c)) /\
  cf_UpstreamResolverInterface c' = cf_UpstreamResolverInterface c /\
  cf_Egress c' = cf_Egress c.

Lemma set_flag_applied st n v : flags_applied [(n, v)] (fl_mode st) (fl_tags st) (fl_config st) (set_flag st (n, v)).
Proof.
  unfold flags_applied, flag_value. cbn [fold_left fst snd].
  destruct st as [mode tags [l g s d a u i e [dir host auth url ts]]]. unfold set_flag.
  repeat (match goal with |- context [if str_eqb n ?x then mkFlags _ _ _ else _] =>
    destruct (str_eqb n x) eqn:?; [match goal with E : str_eqb n _ = true |- _ => apply str_eqb_true in E as -> end;
      split_and!; reflexivity|] end).
  cbn. repeat match goal with E : str_eqb n _ = false |- _ => rewrite E; clear E end. by split_and!.
Qed.

Lemma flags_applied_cons a assigns mode tags c st1 st2 :
  flags_applied [a] mode tags c st1 ->
  flags_applied assigns (fl_mode st1) (fl_tags st1) (fl_config st1) st2 ->
  flags_applied (a :: assigns) mode tags c st2.
Proof.
  unfold flags_applied, flag_value. cbn [fold_left].
  intros (E1 & E2 & E3 & E4 & E5 & E6 & E7 & E8 & E9 & E10 & E11 & E12 & E13 & E14).
  rewrite E1, E2, E3, E4, E5, E6, E7, E8, E9, E10, E11, E12, E13, E14. done.
Qed.

Lemma fold_flags_applied assigns : forall st,
  flags_applied assigns (fl_mode st) (fl_tags st) (fl_config st) (fold_left set_flag assigns st).
Proof.
  induction assigns as [|[n v] assigns IH]; intros st.
  - unfold flags_applied. by split_and!.
  - cbn [fold_left]. eapply flags_applied_cons; [apply set_flag_applied|apply IH].
Qed.

Section commands.
Context `{FloatProduct} (load : str -> option json).

(** An accepted command, taken apart. *)
Lemma parseCommand_inv args cmd :
  parseCommand load args = inr cmd ->
  exists role args' path data c0 assigns rest st,
    args = role :: args' /\ (role = "dns" \/ role = "egress") /\
    configPath args' = Some path /\ load path = Some data /\ decode_config data = inr c0 /\
    parse_flags defined_flag args' = Some (assigns, rest) /\
    flags_applied assigns "tsnet" (Join (ts_Tags (cf_TSNet c0)) ",") c0 st /\
    (fl_mode st = "tsnet" \/ fl_mode st = "tailscaled") /\
    lease_ok (cf_AllocationLease (fl_config st)) = true /\
    (role = "dns" -> cf_Egress (fl_config st) = None) /\
    (role = "egress" -> egress_config_ok (fl_config st) = true) /\
    cmd = mkCommand role (fl_mode st)
            (set_tags (fl_config st) (if str_eqb (fl_tags st) [] then [] else Split (fl_tags st) ",")).
Proof.
  unfold parseCommand. destruct args as [|role args']; [done|].
  destruct (negb (str_eqb role "dns") && _) eqn:Er; [done|].
  destruct (configPath args') as [path|] eqn:Ep; [|done]. destruct (load path) as [data|] eqn:El; [|done].
  destruct (decode_config data) as [e|c0] eqn:Ec; [done|].
  destruct (parse_flags defined_flag args') as [[assigns rest]|] eqn:Ef; [|done].
  set (st := fold_left _ _ _). cbv zeta.
  destruct (negb (str_eqb (fl_mode st) "tsnet") && _) eqn:Em; [done|].
  destruct (negb (lease_ok _)) eqn:Elease; [done|].
  destruct (str_eqb role "dns" && _) eqn:Ed; [done|]. destruct (str_eqb role "egress" && _) eqn:Eg; [done|].
  intros [= <-]. exists role, args', path, data, c0, assigns, rest, st. split_and!; try done.
  - apply andb_false_iff in Er as [E|E]; apply negb_false_iff, str_eqb_true in E; auto.
  - apply (fold_flags_applied assigns (mkFlags "tsnet" (Join (ts_Tags (cf_TSNet c0)) ",") c0)).
  - apply andb_false_iff in Em as [E|E]; apply negb_false_iff, str_eqb_true in E; auto.
  - by apply negb_false_iff in Elease.
  - intros ->. rewrite str_eqb_refl in Ed. cbn in Ed. bool_simp. by apply eq_None_not_Some.
  - intros ->. rewrite str_eqb_refl in Eg. cbn in Eg. by apply negb_false_iff in Eg.
Qed.
End commands.

Lemma set_tags_fields c tags :
  cf_Listen (set_tags c tags) = cf_Listen c /\ cf_GatewayListen (set_tags c tags) = cf_GatewayListen c /\
  cf_TailscaledSocket (set_tags c tags) = cf_TailscaledSocket c /\ cf_Database (set_tags c tags) = cf_Database c /\
  cf_AllocationLease (set_tags c tags) = cf_AllocationLease c /\
  cf_UpstreamResolver (set_tags c tags) = cf_UpstreamResolver c /\
  cf_UpstreamResolverInterface (set_tags c tags) = cf_UpstreamResolverInterface c /\
  cf_Egress (set_tags c tags) = cf_Egress c /\
  ts_Dir (cf_TSNet (set_tags c tags)) = ts_Dir (cf_TSNet c) /\
  ts_Hostname (cf_TSNet (set_tags c tags)) = ts_Hostname (cf_TSNet c) /\
  ts_AuthKey (cf_TSNet (set_tags c tags)) = ts_AuthKey (cf_TSNet c) /\
  ts_ControlURL (cf_TSNet (set_tags c tags)) = ts_ControlURL (cf_TSNet c) /\
  ts_Tags (cf_TSNet (set_tags c tags)) = tags.
Proof. by destruct c as [l g s d a u i e [dir host auth url ts]]. Qed.

(** The egress checks do not look at the tags. *)
Lemma egress_config_ok_ext c c' :
  cf_Egress c = cf_Egress c' -> cf_UpstreamResolver c = cf_UpstreamResolver c' ->
  cf_UpstreamResolverInterface c = cf_UpstreamResolverInterface c' -> egress_config_ok c = egress_config_ok c'.
Proof.
  intros E1 E2 E3. unfold egress_config_ok, egressGateways, egressUpstreamResolverInterface,
    egressPTRResolverInterface, egressPTRResolver. by rewrite E1, E2, E3.
Qed.

(** ** Which file is read *)

(** An argument [configPath] would take for the flag. *)
Definition config_like (arg : str) : bool :=
  str_eqb arg "-config" || str_eqb arg "--config" || HasPrefix arg "-config=" || HasPrefix arg "--config=".

(** The text of a flag. *)
Definition flag_text (dashes name : str) (value : option str) : str :=
  dashes ++ name ++ match value with Some v => "="%char :: v | None => [] end.

Lemma flag_body_text s name value :
  flag_body s = AFlag name value ->
  s = name ++ match value with Some v => "="%char :: v | None => [] end /\ ("="%char ∉ name) /\
  exists c n, name = c :: n /\ c <> "-"%char.
Proof.
  unfold flag_body. destruct s as [|c rest]; [done|].
  destruct (Ascii.eqb_spec c "-") as [|Hc]; [done|]. destruct (Ascii.eqb_spec c "=") as [|He]; [done|]. cbn [orb].
  destruct (Cut rest "=") as [[n v]|] eqn:E; intros [= <- <-].
  - apply (Cut_Some "="%char) in E as [-> Hn]. split; [done|]. split; [|eauto]. apply not_elem_of_cons. by split.
  - apply (Cut_None "="%char) in E. split; [by rewrite app_nil_r|]. split; [|eauto]. apply not_elem_of_cons. by split.
Qed.

Lemma flag_token_text s name value :
  flag_token_of s = AFlag name value ->
  exists dashes, (dashes = "-" \/ dashes = "--") /\ s = flag_text dashes name value /\ ("="%char ∉ name) /\
    exists c n, name = c :: n /\ c <> "-"%char.
Proof.
  intros Ht. assert (exists c rest, s = "-"%char :: c :: rest) as (c & rest & ->).
  { destruct s as [|d [|c rest]]; [done|by destruct d as [[] [] [] [] [] [] [] []]|].
    destruct (ascii_dec d "-") as [->|Hd]; [by eauto|].
    destruct d as [[] [] [] [] [] [] [] []]; done. }
  cbn [flag_token_of] in Ht. destruct (Ascii.eqb_spec c "-") as [->|Hc].
  - destruct rest as [|x rest]; [done|]. apply flag_body_text in Ht as (E & ? & ?).
    exists "--". split; [by right|]. split; [|done]. unfold flag_text. cbn. by rewrite E.
  - apply flag_body_text in Ht as (E & ? & ?). exists "-". split; [by left|]. split; [|done].
    unfold flag_text. cbn. by rewrite E.
Qed.

Lemma dashes_name_inj dashes dashes' name name' :
  (dashes = "-" \/ dashes = "--") -> (dashes' = "-" \/ dashes' = "--") ->
  (exists c n, name = c :: n /\ c <> "-"%char) -> (exists c n, name' = c :: n /\ c <> "-"%char) ->
  dashes ++ name = dashes' ++ name' -> dashes = dashes' /\ name = name'.
Proof.
  intros Hd Hd' (c & n & -> & Hc) (c' & n' & -> & Hc').
  destruct Hd as [-> | ->], Hd' as [-> | ->]; cbn; intros E; simplify_eq; done.
Qed.

(** [configPath] sees a flag as [Parse] does: [config] with a value sets the path, and
    any other flag leaves it. *)
Lemma config_step dashes name value path rest :
  (dashes = "-" \/ dashes = "--") -> "="%char ∉ name -> (exists c n, name = c :: n /\ c <> "-"%char) ->
  config_path_loop path (flag_text dashes name value :: rest) =
    match value with
    | Some v => config_path_loop (if str_eqb name "config" then v else path) rest
    | None => if str_eqb name "config"
              then match rest with [] => None | v :: rest' => config_path_loop v rest' end
              else config_path_loop path rest
    end.
Proof.
  intros Hd Hn Hc. assert (Hconf : exists c n, lit "config" = c :: n /\ c <> "-"%char) by (by eexists _, _).
  assert (Hdn : "="%char ∉ dashes ++ name).
  { intros [H|H]%elem_of_app; [|done]. destruct Hd as [-> | ->]; apply has_byte_false in H; done. }
  assert (Heq : forall d', d' = "-" \/ d' = "--" ->
            (flag_text dashes name value = d' ++ "config") <-> (value = None /\ dashes = d' /\ name = "config")).
  { intros d' Hd'. unfold flag_text. destruct value as [v|].
    - split; [|by intros [? _]]. intros E. exfalso.
      assert ("="%char ∈ d' ++ "config") as Hin by (rewrite <-E; do 2 (apply elem_of_app; right); by left).
      destruct Hd' as [-> | ->]; revert Hin; by apply (has_byte_false "=").
    - rewrite app_nil_r. split; [|by intros (_ & -> & ->)]. intros E. split; [done|]. by apply dashes_name_inj in E. }
  assert (Hcut : forall d', d' = "-" \/ d' = "--" ->
            CutPrefix (flag_text dashes name value) (d' ++ "config=") =
            match value with Some v => if bool_decide (dashes = d') && str_eqb name "config" then Some v else None
                           | None => None end).
  { intros d' Hd'. unfold CutPrefix. destruct (HasPrefix _ _) eqn:Ep.
    - apply HasPrefix_spec in Ep as [w Ew]. rewrite Ew, drop_app_length.
      assert (d' ++ "config=" ++ w = (d' ++ "config") ++ "="%char :: w) as Ew' by (by rewrite <-(assoc_L (++))).
      rewrite <-(assoc_L (++)), Ew' in Ew. unfold flag_text in Ew. destruct value as [v|].
      + rewrite (assoc_L (++)) in Ew. apply (f_equal (fun s => Cut s ["="%char])) in Ew.
        rewrite Cut_at in Ew by done. rewrite Cut_at in Ew by (destruct Hd' as [-> | ->]; by apply (has_byte_false "=")).
        injection Ew as Ew ->. apply dashes_name_inj in Ew as [-> ->]; [|done..].
        by rewrite bool_decide_eq_true_2, str_eqb_refl.
      + rewrite app_nil_r in Ew. destruct Hdn. rewrite Ew. apply elem_of_app. right. by left.
    - destruct value as [v|]; [|done]. destruct (bool_decide _ && _) eqn:Eb; [|done]. exfalso.
      apply andb_prop in Eb as [->%bool_decide_eq_true_1 ->%str_eqb_true]. apply not_true_iff_false in Ep. apply Ep.
      apply HasPrefix_spec. exists v. unfold flag_text. by rewrite <-!(assoc_L (++)). }
  pose proof (Hcut "-" (or_introl eq_refl) : CutPrefix _ "-config=" = _) as C1.
  pose proof (Hcut "--" (or_intror eq_refl) : CutPrefix _ "--config=" = _) as C2.
  pose proof (Heq "-" (or_introl eq_refl) : _ = lit "-config" <-> _) as E1.
  pose proof (Heq "--" (or_intror eq_refl) : _ = lit "--config" <-> _) as E2. clear Heq Hcut.
  cbn [config_path_loop]. set (arg := flag_text dashes name value) in *. clearbody arg.
  rewrite C1, C2. clear C1 C2. unfold str_eqb at 1 2.
  rewrite (bool_decide_ext _ _ E1), (bool_decide_ext _ _ E2). clear E1 E2 Hconf Hdn.
  destruct value as [v|].
  - rewrite !bool_decide_eq_false_2 by (by intros [? _]). cbn [orb].
    destruct (str_eqb name "config"); [|by rewrite !andb_false_r].
    by destruct Hd as [-> | ->].
  - cbn [default]. unfold str_eqb. destruct (decide (name = lit "config")) as [->|Hne].
    + rewrite (bool_decide_eq_true_2 (lit "config" = lit "config")) by done.
      replace (_ || _) with true; [done|]. symmetry. apply orb_true_iff.
      destruct Hd as [-> | ->]; [left|right]; by apply bool_decide_eq_true_2.
    + rewrite !bool_decide_eq_false_2 by (done || by intros (_ & _ & ?)). done.
Qed.

Lemma config_other path arg rest : config_like arg = false -> config_path_loop path (arg :: rest) = config_path_loop path rest.
Proof.
  unfold config_like. intros [[[E1 E2]%orb_false_elim E3]%orb_false_elim E4]%orb_false_elim.
  cbn [config_path_loop]. rewrite E1, E2. unfold CutPrefix. by rewrite E3, E4.
Qed.

Lemma config_path_flags : forall n args path assigns,
  (length args <= n)%nat -> parse_flags defined_flag args = Some (assigns, []) ->
  Forall (fun a => config_like a.2 = false) assigns ->
  config_path_loop path args = Some (flag_value "config" assigns path).
Proof.
  induction n as [|n IH]; intros [|s args] path assigns Hn H Hf; cbn in Hn, H; try (by simplify_eq); [lia|].
  destruct (flag_token_of s) as [| | |name value] eqn:Et; [done| |done|].
  { simplify_eq. unfold flag_token_of in Et. destruct s as [|d [|c rest]]; [done|by destruct d as [[] [] [] [] [] [] [] []]|].
    destruct (ascii_dec d "-") as [->|Hd]; [|by destruct d as [[] [] [] [] [] [] [] []]].
    destruct (Ascii.eqb_spec c "-") as [->|]; [destruct rest|]; [done|..];
      unfold flag_body in Et; by repeat case_match. }
  apply flag_token_text in Et as (dashes & Hd & -> & He & Hc). rewrite config_step by done.
  destruct value as [v|]; (destruct (defined_flag name); [|done]); cbn in H.
  - destruct (parse_flags defined_flag args) as [[as' r']|] eqn:E; [|done]. simplify_eq.
    apply Forall_cons in Hf as [_ Hf]. rewrite flag_value_cons. apply (IH args); [lia|done|done].
  - destruct args as [|v args]; [done|]. destruct (parse_flags defined_flag args) as [[as' r']|] eqn:E; [|done].
    simplify_eq. apply Forall_cons in Hf as [Hv Hf]. cbn in Hv, Hn. rewrite flag_value_cons.
    destruct (str_eqb name "config"); [|rewrite config_other by done]; apply (IH args); lia || done.
Qed.

(** The separate scan for the configuration file agrees with the flag parser: on a
    command line that is all flags, where no flag is given a value that itself looks like
    the [config] flag, the file read is the one the last [config] flag names, or
    [config.json]. *)
Theorem configPath_agrees args assigns :
  parse_flags defined_flag args = Some (assigns, []) ->
  Forall (fun a => config_like a.2 = false) assigns ->
  configPath args = Some (Clean (flag_value "config" assigns "config.json")).
Proof. intros H Hf. unfold configPath. by rewrite (config_path_flags (length args) args _ assigns). Qed.

Lemma configPath_agrees_witness :
  configPath [lit "-mode"; lit "tailscaled"; lit "--config=/etc//dgw/./a.json"; lit "-config"; lit "b/../c.json"]
    = Some (lit "c.json").
Proof.
  rewrite (configPath_agrees _ [(lit "mode", lit "tailscaled"); (lit "config", lit "/etc//dgw/./a.json");
    (lit "config", lit "b/../c.json")]); [by vm_compute|by vm_compute|by repeat constructor].
Defined.

(** The two scans part where a value looks like the flag, and behind an argument that is
    not a flag, where the flag parser stops and the scan goes on. *)
Example configPath_differs :
  configPath [lit "-tsnet-hostname"; lit "-config"; lit "-mode"; lit "tsnet"] = Some (lit "-mode") /\
  parse_flags defined_flag [lit "-tsnet-hostname"; lit "-config"; lit "-mode"; lit "tsnet"]
    = Some ([(lit "tsnet-hostname", lit "-config"); (lit "mode", lit "tsnet")], []) /\
  configPath [lit "x"; lit "-config=a.json"; lit "-mode=tailscaled"] = Some (lit "a.json") /\
  parse_flags defined_flag [lit "x"; lit "-config=a.json"; lit "-mode=tailscaled"]
    = Some ([], [lit "x"; lit "-config=a.json"; lit "-mode=tailscaled"]).
Proof. by vm_compute. Qed.

(** A command as the rest of the program relies on it. *)
Record command_wf `{FloatProduct} (cmd : command) : Prop := {
  cw_role : cm_Role cmd = "dns" \/ cm_Role cmd = "egress";
  cw_transport : cm_Transport cmd = "tsnet" \/ cm_Transport cmd = "tailscaled";
  cw_lease : cf_AllocationLease (cm_Config cmd) = [] \/
    exists d, ParseDuration (cf_AllocationLease (cm_Config cmd)) = Some d /\ 0 < d < 2 ^ 63;
  cw_dns : cm_Role cmd = "dns" -> cf_Egress (cm_Config cmd) = None;
  cw_egress : cm_Role cmd = "egress" -> egress_config_ok (cm_Config cmd) = true;
}.

Lemma lease_ok_spec `{FloatProduct} lease :
  lease_ok lease = true -> lease = [] \/ exists d, ParseDuration lease = Some d /\ 0 < d < 2 ^ 63.
Proof.
  unfold lease_ok. intros [->%str_eqb_true|E]%orb_prop; [by left|]. right.
  destruct (ParseDuration lease) as [d|] eqn:Ed; [|done]. exists d. split; [done|].
  apply ParseDuration_bound in Ed. bool_simp. lia.
Qed.

Lemma parseCommand_command_wf `{FloatProduct} load args cmd : parseCommand load args = inr cmd -> command_wf cmd.
Proof.
  intros (role & args' & path & data & c0 & assigns & rest & st & -> & Hrole & _ & _ & _ & _ & Hfl & Hmode & Hlease & Hdns & Heg & ->)%parseCommand_inv.
  set (tags := if str_eqb (fl_tags st) [] then [] else _).
  destruct (set_tags_fields (fl_config st) tags) as (_ & _ & _ & _ & El & Eu & Ei & Ee & _).
  split; cbn; try done.
  - rewrite El. by apply lease_ok_spec.
  - by rewrite Ee.
  - intros Hr. rewrite <-(Heg Hr). by apply egress_config_ok_ext.
Qed.

(** C32: whatever the arguments and the file hold, a command that is accepted is well
    formed: its role and transport are known, its lease is absent or a positive 64-bit
    duration, the DNS role has no egress assignment and the egress role has one whose
    ranges, resolvers and interfaces are all valid. *)
Theorem parseCommand_wf `{FloatProduct} load args cmd : parseCommand load args = inr cmd -> command_wf cmd.
Proof. apply parseCommand_command_wf. Qed.

Definition egress_file : json :=
  JObj [(lit "egress", JObj [(lit "ranges", JArr [JStr "10.254.0.0/24"; JStr "10.254.1.0/24"])]);
        (lit "upstream_resolver", JStr "9.9.9.9"); (lit "allocation_lease", JStr "90m");
        (lit "tsnet", JObj [(lit "dir", JStr "/state"); (lit "tags", JArr [JStr "tag:dgw"])])].

Definition egress_args : list str :=
  [lit "egress"; lit "-upstream-resolver"; lit "system"; lit "-mode=tailscaled"; lit "-tsnet-tags=tag:a,tag:b"].

Definition only_config (data : json) (path : str) : option json :=
  if str_eqb path "config.json" then Some data else None.

Definition egress_command : command :=
  mkCommand "egress" "tailscaled"
    (mkConfig [] [] [] [] "90m" "system" [] (Some (mkEgressConfig [lit "10.254.0.0/24"; lit "10.254.1.0/24"] [] []))
       (mkTSNetConfig "/state" [] [] [] [lit "tag:a"; lit "tag:b"])).

Lemma egress_command_parsed :
  parseCommand (H := exact_product) (only_config egress_file) egress_args = inr egress_command.
Proof. by vm_compute. Qed.

Lemma parseCommand_wf_witness : command_wf (H := exact_product) egress_command.
Proof. apply (parseCommand_wf (H := exact_product) (only_config egress_file) egress_args). apply egress_command_parsed. Defined.

(** C33: where each setting of an accepted command comes from: the last flag that names
    it, else the file; the egress assignment and the resolver interface only the file;
    the tags are the comma-separated text of the flag, else the tags of the file joined
    and split again.  No file with a retired field is accepted. *)
Theorem parseCommand_settings `{FloatProduct} load args cmd :
  parseCommand load args = inr cmd ->
  exists args' path data c0 assigns rest,
    args = cm_Role cmd :: args' /\ configPath args' = Some path /\ load path = Some data /\
    dec_struct config_json_field configZero data = Some c0 /\
    parse_flags defined_flag args' = Some (assigns, rest) /\
    (let tags := flag_value "tsnet-tags" assigns (Join (ts_Tags (cf_TSNet c0)) ",") in
     flags_applied assigns "tsnet" (Join (ts_Tags (cf_TSNet c0)) ",") c0 (mkFlags (cm_Transport cmd) tags (cm_Config cmd)) /\
     ts_Tags (cf_TSNet (cm_Config cmd)) = if str_eqb tags [] then [] else Split tags ",") /\
    (forall fields name, dec_map_keys [] data = Some fields -> name ∈ retired_fields -> name ∉ fields) /\
    (forall keys name, dec_struct legacy_field [] data = Some keys -> name ∈ retired_egress_fields -> name ∉ keys).
Proof.
  intros (role & args' & path & data & c0 & assigns & rest & st & -> & _ & Hp & Hl & Hd & Hf & Hfl & _ & _ & _ & _ & ->)%parseCommand_inv.
  assert (Hdec : dec_struct config_json_field configZero data = Some c0 /\
    (forall fields name, dec_map_keys [] data = Some fields -> name ∈ retired_fields -> name ∉ fields) /\
    (forall keys name, dec_struct legacy_field [] data = Some keys -> name ∈ retired_egress_fields -> name ∉ keys)).
  { unfold decode_config in Hd. destruct (dec_map_keys [] data) as [fields|]; [|done].
    destruct (List.find _ _) eqn:Efind; [done|].
    destruct (dec_struct legacy_field [] data) as [keys|]; [|done].
    destruct (existsb _ _) eqn:Eex; [done|].
    destruct (dec_struct config_json_field configZero data); [|done]. simplify_eq. split_and!; [done|..].
    - intros fields' name [= <-] Hin%list_elem_of_In. pose proof (find_none _ _ Efind _ Hin) as Hx. cbn in Hx. by bool_simp.
    - intros keys' name [= <-] Hin. rewrite existsb_false_Forall, Forall_forall in Eex.
      specialize (Eex _ Hin). cbn in Eex. by bool_simp. }
  destruct Hdec as (Hdec & Hr1 & Hr2).
  exists args', path, data, c0, assigns, rest. split_and!; try done. cbv zeta.
  pose proof Hfl as (_ & Et & _). rewrite <-Et.
  set (tags := if str_eqb (fl_tags st) [] then [] else _).
  destruct (set_tags_fields (fl_config st) tags) as (E1 & E2 & E3 & E4 & E5 & E6 & E7 & E8 & E9 & E10 & E11 & E12 & E13).
  split; [|done]. revert Hfl. unfold flags_applied. cbn [cm_Config cm_Transport fl_config fl_mode fl_tags].
  by rewrite E1, E2, E3, E4, E5, E6, E7, E8, E9, E10, E11, E12.
Qed.

Lemma parseCommand_settings_witness :
  exists assigns, parse_flags defined_flag (tl egress_args) = Some (assigns, []) /\
    cf_UpstreamResolver (cm_Config egress_command) = flag_value "upstream-resolver" assigns "9.9.9.9".
Proof.
  destruct (parseCommand_settings (H := exact_product) (only_config egress_file) egress_args egress_command egress_command_parsed)
    as (args' & path & data & c0 & assigns & rest & Ea & Hp & Hl & Hc & Hf & (Hfl & _) & _).
  injection Ea as <-. vm_compute in Hf. injection Hf as <- <-. eexists. split; [by vm_compute|].
  destruct Hfl as (_ & _ & _ & _ & _ & _ & _ & E & _).
  vm_compute in Hp. injection Hp as <-. vm_compute in Hl. injection Hl as <-. vm_compute in Hc. injection Hc as <-.
  exact E.
Defined.
