(* ===== verification/LocalApi.v ===== *)
(** * The local tailscaled API as an identity

    [LocalAPI] of [internal/domain/service.go]: what the service learns from the [whois]
    and [status] replies of the daemon.  The HTTP client is a parameter [http_get]: for a
    URL, the status code and the JSON tree of the body ([None] where the body is not
    JSON), or [None] where the exchange fails. *)

From S2P Require Import Prelude GoStrings NetAddr Json Policy Upstream Url Tags Store Service Egress.

(** ** Requests *)

Definition hex_digit (n : Z) : byte := if n <? 10 then byte_of (48 + n) else byte_of (55 + n).

(** [url.QueryEscape]. *)
Definition QueryEscape (s : str) : str :=
  s ≫= fun c =>
    if is_alnum c || one_of "-_.~" c then [c]
    else if Ascii.eqb c " " then ["+"%char]
    else ["%"%char; hex_digit (bval c / 16); hex_digit (bval c mod 16)].

(** [url.Values.Encode] on the sorted keys. *)
Definition whois_query (source destination : Addr) : str :=
  "addr=" ++ QueryEscape (AddrString source) ++
  (if IsValid destination then "&dst_ip=" ++ QueryEscape (AddrString destination) else []).

Abbreviation http := (str -> option (Z * option json)).

(** ** Replies *)

Record localWhoIs := mkWhoIs { w_CapMap : option (gmap str json); w_Tags : list str }.

Record localStatus := mkLocalStatus {
  st_Self : statusNode;
  st_Peer : gmap str (option statusNode);
  st_TailscaleIPs : list Addr;
}.

(** A [map[string]json.RawMessage]: [null] makes it nil, an object adds to it. *)
Definition dec_raw_map (prev : option (gmap str json)) (j : json) : option (option (gmap str json)) :=
  match j with
  | JNull => Some None
  | JObj l => Some (Some (fold_left (fun m kv => <[kv.1 := kv.2]> m) l (default ∅ prev)))
  | _ => None
  end.

(** [netip.Addr.UnmarshalText]; an empty text is the zero address. *)
Definition dec_addr (prev : Addr) (j : json) : option Addr :=
  match j with
  | JNull => Some prev
  | JStr [] => Some AddrZero
  | JStr s => ParseAddr s
  | _ => None
  end.

Definition node_tags_field (tags : list str) (k : str) (v : json) : option (list str) :=
  if key_is k "Tags" then dec_strings tags v else Some tags.

Definition whois_field (w : localWhoIs) (k : str) (v : json) : option localWhoIs :=
  let '(mkWhoIs caps tags) := w in
  if key_is k "CapMap" then (fun caps => mkWhoIs caps tags) <$> dec_raw_map caps v
  else if key_is k "Node" then (fun tags => mkWhoIs caps tags) <$> dec_struct node_tags_field tags v
  else Some w.

Definition status_node_field (n : statusNode) (k : str) (v : json) : option statusNode :=
  let '(mkStatusNode ips tags caps) := n in
  if key_is k "TailscaleIPs" then (fun ips => mkStatusNode ips tags caps) <$> dec_slice AddrZero dec_addr ips v
  else if key_is k "Tags" then (fun tags => mkStatusNode ips tags caps) <$> dec_strings tags v
  else if key_is k "CapMap" then (fun caps => mkStatusNode ips tags caps) <$> dec_raw_map caps v
  else Some n.

Definition statusNodeZero : statusNode := mkStatusNode [] [] None.

(** The values of the peer map: each is decoded afresh, [null] is a nil pointer. *)
Fixpoint dec_peers (prev : gmap str (option statusNode)) (l : list (str * json)) : option (gmap str (option statusNode)) :=
  match l with
  | [] => Some prev
  | (k, JNull) :: l' => dec_peers (<[k := None]> prev) l'
  | (k, v) :: l' =>
      match dec_struct status_node_field statusNodeZero v with
      | Some n => dec_peers (<[k := Some n]> prev) l'
      | None => None
      end
  end.

Definition dec_peer_map (prev : gmap str (option statusNode)) (j : json) : option (gmap str (option statusNode)) :=
  match j with
  | JNull => Some ∅
  | JObj l => dec_peers prev l
  | _ => None
  end.

Definition status_field (st : localStatus) (k : str) (v : json) : option localStatus :=
  let '(mkLocalStatus self peers ips) := st in
  if key_is k "Self" then (fun self => mkLocalStatus self peers ips) <$> dec_struct status_node_field self v
  else if key_is k "Peer" then (fun peers => mkLocalStatus self peers ips) <$> dec_peer_map peers v
  else if key_is k "TailscaleIPs" then (fun ips => mkLocalStatus self peers ips) <$> dec_slice AddrZero dec_addr ips v
  else Some st.

(** ** The calls; every error is [None] *)

Definition whoIs (http_get : http) (source destination : Addr) : option localWhoIs :=
  match http_get ("http://local-tailscaled/localapi/v0/whois?" ++ whois_query source destination) with
  | Some (200, Some body) => dec_struct whois_field (mkWhoIs None []) body
  | _ => None
  end.

Definition local_status (http_get : http) : option localStatus :=
  match http_get "http://local-tailscaled/localapi/v0/status" with
  | Some (200, Some body) => dec_struct status_field (mkLocalStatus statusNodeZero ∅ []) body
  | _ => None
  end.

(** A reply without a capability map is an error. *)
Definition LocalAPI_Capabilities (whoIs : Addr -> Addr -> option localWhoIs) (source destination : Addr)
  : option (gmap str json) :=
  match whoIs source destination with
  | None => None
  | Some response => w_CapMap response
  end.

Definition LocalAPI_IsGateway (whoIs : Addr -> Addr -> option localWhoIs) (source : Addr)
  (gateways : gmap str Gateway) : option bool :=
  match whoIs source AddrZero with
  | None => None
  | Some response => Some (existsb (fun tag => bool_decide (is_Some (gateways !! tag))) (w_Tags response))
  end.

Definition LocalAPI_NodeConfig (status : option localStatus) : option NodeConfig :=
  match status with
  | None => None
  | Some status =>
      match ConfigFromNodeAttrs (default ∅ (n_CapMap (st_Self status))) with
      | (config, true) => Some config
      | (_, false) => None
      end
  end.

(** The first IPv4 address of the daemon. *)
Definition LocalAPI_TailscaleIP (status : option localStatus) : option Addr :=
  match status with
  | None => None
  | Some status => List.find Is4 (st_TailscaleIPs status)
  end.

(** This node, then its peers as the map is iterated. *)
Definition LocalAPI_TaggedNodes (status : option localStatus) : option (list TaggedNode) :=
  TaggedNodes ((fun st => (st_Self st, (map_to_list (st_Peer st)).*2)) <$> status).

(** [LocalAPI] implements both interfaces of the service. *)
Definition LocalAPI (whoIs : Addr -> Addr -> option localWhoIs) : Identity := {|
  Capabilities := LocalAPI_Capabilities whoIs;
  IsGateway := Some (LocalAPI_IsGateway whoIs);
|}.

(** ** Properties *)

(** The gateway check asks whether a tag of the source names a configured gateway. *)
Lemma fromGateway_tags whoIs s source :
  @fromGateway (LocalAPI whoIs) s source = true <->
  match whoIs source AddrZero with
  | None => True
  | Some response => exists tag, tag ∈ w_Tags response /\ is_Some (sv_Gateways s !! tag)
  end.
Proof.
  unfold fromGateway. cbn. unfold LocalAPI_IsGateway. destruct (whoIs source AddrZero) as [response|]; [|done].
  rewrite existsb_elem. split; intros (tag & Hin & Ht); exists tag; (split; [done|]).
  - by apply bool_decide_eq_true_1 in Ht.
  - by apply bool_decide_eq_true_2.
Qed.

(** The DNS role is started with the gateways of [dnsGateways], of which there are
    none: no readable source is ever taken for a gateway. *)
Lemma dns_role_never_from_gateway whoIs s source response sysr nc upstream :
  dnsGateways sysr nc = Some (sv_Gateways s, upstream) -> whoIs source AddrZero = Some response ->
  @fromGateway (LocalAPI whoIs) s source = false.
Proof.
  intros Hg Hw. apply not_true_iff_false. rewrite fromGateway_tags, Hw. intros (tag & _ & [g Ht]).
  unfold dnsGateways in Hg. repeat case_match; simplify_eq;
    match goal with E : ∅ = _ |- _ => rewrite <-E in Ht | E : _ = ∅ |- _ => rewrite E in Ht end;
    by rewrite lookup_empty in Ht.
Qed.

(** The listen address is an IPv4 address of the daemon. *)
Lemma TailscaleIP_Is4 status ip : LocalAPI_TailscaleIP status = Some ip -> Is4 ip = true.
Proof. destruct status as [status|]; [|done]. cbn. by intros [_ H]%find_some. Qed.
