(* ===== verification/TSNet.v ===== *)
(** * The embedded tailnet node as an identity

    [TSNetIdentity] of [internal/domain/tsnet.go]: the same boundary as [LocalAPI], over
    the client library of an embedded node.  Its calls are parameters that return the
    library's values or fail.  Following a nil pointer is a panic: such a function
    returns [None] for a panic and [Some None] for an error. *)

From S2P Require Import Prelude GoStrings NetAddr Json Policy PolicySpec Upstream Tags Alloc Store StoreSpec Service ServiceSpec Egress LocalApi.

(** The JSON tree of a raw message, if its text is JSON: [json.Marshal] refuses a slice
    with one that is not. *)
Class RawJson := raw_json : str -> option json.

(** A [*apitype.WhoIsResponse]; the node pointer may be nil. *)
Record tsWhoIs := mkTSWhoIs { tw_CapMap : gmap str (option (list str)); tw_NodeTags : option (list str) }.

(** [json.Marshal] of a []RawMessage: nil is null, an empty message is null. *)
Definition marshal_raws `{RawJson} (value : option (list str)) : option json :=
  match value with
  | None => Some JNull
  | Some raws => JArr <$> mapM (fun raw => if str_eqb raw [] then Some JNull else raw_json raw) raws
  end.

Definition encodeCapMap `{RawJson} (values : gmap str (option (list str))) : option (gmap str json) :=
  list_to_map <$> mapM (fun kv : str * option (list str) => pair kv.1 <$> marshal_raws kv.2) (map_to_list values).

Definition TSNet_Capabilities `{RawJson} (whoIs : Addr -> option tsWhoIs) (source destination : Addr)
  : option (gmap str json) :=
  match whoIs source with
  | None => None
  | Some response => encodeCapMap (tw_CapMap response)
  end.

Definition TSNet_IsGateway (whoIs : Addr -> option tsWhoIs) (source : Addr) (gateways : gmap str Gateway)
  : option (option bool) :=
  match whoIs source with
  | None => Some None
  | Some response =>
      match tw_NodeTags response with
      | None => None
      | Some tags => Some (Some (existsb (fun tag => bool_decide (is_Some (gateways !! tag))) tags))
      end
  end.

Definition TSNet_NodeConfig `{RawJson} (status : option tailnet_status) : option (option NodeConfig) :=
  match status with
  | None => Some None
  | Some status =>
      match ts_Self status with
      | None => None
      | Some self =>
          match encodeCapMap (pe_CapMap self) with
          | None => Some None
          | Some raw =>
              match ConfigFromNodeAttrs raw with
              | (config, true) => Some (Some config)
              | (_, false) => Some None
              end
          end
      end
  end.

(** The node entry of a peer. *)
Definition peer_node (p : peer) : statusNode := mkStatusNode (pe_TailscaleIPs p) (default [] (pe_Tags p)) None.

Definition TSNet_TaggedNodes (status : option tailnet_status) : option (list TaggedNode) :=
  match status with
  | None => None
  | Some status =>
      Some (taggedNodes (match ts_Self status with Some self => [peer_node self] | None => [] end
                         ++ (peer_node <$> omap id (ts_Peer status))))
  end.

(** The identity of an embedded node whose replies name the node. *)
Definition TSNetIdentity `{RawJson} (whoIs : Addr -> option tsWhoIs) : Identity := {|
  Capabilities := TSNet_Capabilities whoIs;
  IsGateway := Some (fun source gateways => default None (TSNet_IsGateway whoIs source gateways));
|}.

(** ** The two adapters *)

Lemma encodeCapMap_lookup `{RawJson} values m k :
  encodeCapMap values = Some m ->
  m !! k = match values !! k with Some v => marshal_raws v | None => None end.
Proof.
  unfold encodeCapMap. destruct (mapM _ _) as [l|] eqn:E; [|done]. intros [= <-].
  apply mapM_Some in E.
  assert (Hkeys : l.*1 = (map_to_list values).*1).
  { clear -E. induction E as [|[k v] [k' j] l1 l2 Hx _ IH]; [done|]. cbn in *. f_equal; [|done].
    destruct (marshal_raws v); [|done]. by injection Hx. }
  assert (Hnd : NoDup l.*1) by (rewrite Hkeys; apply NoDup_fst_map_to_list).
  assert (Hin : forall j, (k, j) ∈ l <-> exists v, values !! k = Some v /\ marshal_raws v = Some j).
  { intros j. setoid_rewrite <-elem_of_map_to_list. clear -E. induction E as [|[k1 v1] [k2 j2] l1 l2 Hx _ IH].
    - split; [by intros ?%elem_of_nil|]. by intros (? & ?%elem_of_nil & _).
    - cbn in Hx. destruct (marshal_raws v1) as [j1|] eqn:Ev; [|done]. injection Hx as <- <-.
      rewrite elem_of_cons, IH. split.
      + intros [[= -> ->]|(v & Hv & Hm)]; [exists v1|exists v]; (split; [|done]); [by left|by right].
      + intros (v & [[= -> ->]|Hv]%elem_of_cons & Hm); [left; congruence|right; eauto]. }
  destruct ((list_to_map l : gmap str json) !! k) as [j|] eqn:El.
  - apply elem_of_list_to_map in El; [|done]. apply Hin in El as (v & -> & ?). done.
  - destruct (values !! k) as [v|] eqn:Ev; [|done]. destruct (marshal_raws v) as [j|] eqn:Ej; [|done].
    assert ((list_to_map l : gmap str json) !! k = Some j) as E'; [|by rewrite E' in El].
    apply elem_of_list_to_map_1; [done|]. apply Hin. eauto.
Qed.

(** The daemon and the embedded node describe the same source: the same tags, and the
    same capabilities, a reply without any being one that has no map at all at the
    daemon; the daemon is asked about a destination too, and answers alike. *)
Definition same_view `{RawJson} (local : Addr -> Addr -> option localWhoIs) (embedded : Addr -> option tsWhoIs) : Prop :=
  forall source destination,
    match local source destination, embedded source with
    | None, None => True
    | Some l, Some e =>
        tw_NodeTags e = Some (w_Tags l) /\
        match w_CapMap l with
        | Some caps => encodeCapMap (tw_CapMap e) = Some caps
        | None => tw_CapMap e = ∅
        end
    | _, _ => False
    end.

Lemma same_view_gateway `{RawJson} local embedded s source :
  same_view local embedded ->
  @fromGateway (LocalAPI local) s source = @fromGateway (TSNetIdentity embedded) s source.
Proof.
  intros Hv. specialize (Hv source AddrZero). unfold fromGateway. cbn.
  unfold LocalAPI_IsGateway, TSNet_IsGateway.
  destruct (local source AddrZero) as [l|], (embedded source) as [e|]; try done.
  destruct Hv as [-> _]. done.
Qed.

(** The capabilities differ only where the daemon reports none: an error there, an empty
    map here. *)
Lemma same_view_caps `{RawJson} local embedded source destination :
  same_view local embedded ->
  LocalAPI_Capabilities local source destination = TSNet_Capabilities embedded source destination \/
  (LocalAPI_Capabilities local source destination = None /\
   TSNet_Capabilities embedded source destination = Some ∅).
Proof.
  intros Hv. specialize (Hv source destination). unfold LocalAPI_Capabilities, TSNet_Capabilities.
  destruct (local source destination) as [l|], (embedded source) as [e|]; try done; [|by left].
  destruct Hv as [_ Hc]. destruct (w_CapMap l); [left; by rewrite Hc|]. right. by rewrite Hc.
Qed.

(** C31: the DNS authority and the gateway behave the same behind the host's daemon and
    behind an embedded node: if the two describe the same sources, every question and
    every flow runs the same program, also where one of them reports an error and the
    other an empty capability map. *)
Theorem adapters_agree `{UnicodeTable, RawJson} local embedded :
  same_view local embedded ->
  (forall s now source name,
     @DNSAnswer _ (LocalAPI local) s now source name = @DNSAnswer _ (TSNetIdentity embedded) s now source name) /\
  (forall s source destination name proto port,
     @FlowDomain _ (LocalAPI local) s source destination name proto port
       = @FlowDomain _ (TSNetIdentity embedded) s source destination name proto port).
Proof.
  intros Hv. split.
  - intros s now source name. unfold DNSAnswer. rewrite (same_view_gateway local embedded) by done.
    destruct (fromGateway s source); [done|]. destruct (NormalName name) as [n []]; [|done]. cbn [negb Capabilities LocalAPI TSNetIdentity].
    destruct (same_view_caps local embedded source AddrZero Hv) as [->|[-> ->]]; done.
  - intros s source destination name proto port. unfold FlowDomain.
    destruct (NormalName name) as [n []]; [|done]. cbn [negb].
    destruct (gatewayForDestination s destination) as [g []]; [|done]. cbn [negb Capabilities LocalAPI TSNetIdentity].
    destruct (same_view_caps local embedded source destination Hv) as [->|[-> ->]]; done.
Qed.

(** Raw texts of one shape, to evaluate an instance with. *)
#[local] Instance quoted_texts : RawJson := fun s => match s with "{"%char :: _ => Some (JObj []) | _ => None end.

Definition daemon_view (source destination : Addr) : option localWhoIs :=
  if bool_decide (source = AddrFrom4 100 64 0 1)
  then Some (mkWhoIs (Some {[ Capability := JArr [JObj []] ]}) [lit "tag:web"])
  else Some (mkWhoIs None []).

Definition node_view (source : Addr) : option tsWhoIs :=
  if bool_decide (source = AddrFrom4 100 64 0 1)
  then Some (mkTSWhoIs {[ Capability := Some [lit "{}"] ]} (Some [lit "tag:web"]))
  else Some (mkTSWhoIs ∅ (Some [])).

Lemma sample_same_view : same_view daemon_view node_view.
Proof. intros source destination. unfold daemon_view, node_view. case_bool_decide; by split. Qed.

Lemma adapters_agree_witness :
  @DNSAnswer table_min (LocalAPI daemon_view) (mkService ∅ false [] None 0) 1 (AddrFrom4 100 64 0 1) "app.example.com"
    = @DNSAnswer table_min (TSNetIdentity node_view) (mkService ∅ false [] None 0) 1 (AddrFrom4 100 64 0 1) "app.example.com".
Proof. apply (@adapters_agree table_min _ daemon_view node_view). apply sample_same_view. Defined.
