(* ===== verification/Gateway.v ===== *)
(** * The two dataplanes

    [ServeTCP], [proxy] and [originalDestination] of [internal/domain/gateway.go], which
    receive connections the kernel redirected, and [ServeTSNetGateway] of
    [tsnet_gateway.go], which receives them from the embedded node; both end in
    [ProxyTCP]. *)

From S2P Require Import Prelude GoStrings NetAddr Json Policy PolicySpec Alloc Upstream DnsWire Store StoreSpec Service ServiceSpec Egress EgressSpec.

(** ** The original destination *)

(** What the system call on the connection's descriptor came to. *)
Inductive sockopt :=
| NoRawConn          (* [SyscallConn] failed *)
| ControlFailed      (* [raw.Control] failed and the closure did not run *)
| Errno              (* the system call failed *)
| Wrote (b : list byte).

(** [originalDestination]: the [sockaddr_in] in the 16 bytes the system call wrote.  The
    error of [raw.Control] is not looked at. *)
Definition originalDestination (r : sockopt) : option (Addr * Z) :=
  match r with
  | NoRawConn | Errno => None
  | ControlFailed => Some (AddrZero, 0)
  | Wrote b =>
      match b with
      | _ :: _ :: p1 :: p0 :: a :: b :: c :: d :: _ =>
          Some (AddrFrom4 (bval a) (bval b) (bval c) (bval d), bval p1 * 256 + bval p0)
      | _ => None
      end
  end.

(** A connection as [proxy] sees it: whether it is a TCP connection, the text of its
    remote address and the result of the system call. *)
Record conn := mkConn { cn_tcp : bool; cn_remote : str; cn_sockaddr : sockopt }.

(** Dialling the backend: the first address the resolver returned, at the port of the
    flow; [None] is no connection. *)
Definition dial_backend (lookup : plan -> option (list Addr)) (pl : plan) : option str :=
  match lookup pl with
  | Some (ip :: _) => Some (JoinHostPort (AddrString ip) (Itoa (pl_port pl)))
  | _ => None
  end.

Section dataplanes.
Context `{UnicodeTable, Identity} (s : Service).
(** The PTR lookup, the host's resolver, whether a [ResolverDial] is set, and the lookup
    of a backend name at the resolver of a plan. *)
Context (ptr : Addr -> option (list str)) (systemResolver : option (option str)) (resolverDial : bool).
Context (lookup : plan -> option (list Addr)).

(** A flow from [src] to [dst]: the address that is dialled, if any. *)
Definition serve_flow (src dst : Addr) (port : Z) : prog (option str) :=
  r ← ProxyTCP s (ptr dst) systemResolver resolverDial src dst port;
  mret (r ≫= dial_backend lookup).

(** [proxy]; a remote address that does not parse is the zero address. *)
Definition proxy (client : conn) : prog (option str) :=
  if negb (cn_tcp client) then mret None else
  let src := match ParseAddrPort (cn_remote client) with Some (a, _) => a | None => AddrZero end in
  match originalDestination (cn_sockaddr client) with
  | None => mret None
  | Some (dst, port) => serve_flow src dst port
  end.

(** The fallback handler of the embedded node: [None] leaves the flow to others. *)
Definition fallback (src dst : Addr) (port : Z) : option (prog (option str)) :=
  if handles s dst then Some (serve_flow src dst port) else None.
End dataplanes.

(** ** Starting on the embedded node *)

Inductive gateway_action :=
| InstallHandler
| AdvertiseRoutes (routes : list Prefix).

(** [ServeTSNetGateway]: what it does, until it waits or an error of the library ends it. *)
Definition ServeTSNetGateway (s : Service) (start local_client edit_prefs : bool) : list gateway_action * bool :=
  if negb start then ([], false) else
  if negb local_client then ([], false) else
  ([InstallHandler; AdvertiseRoutes (advertised_routes s)], edit_prefs).

(** ** Properties *)

(** The [sockaddr_in] of an address and port. *)
Definition sockaddr_in (v port : Z) : list byte :=
  be_bytes 2 512 ++ be_bytes 2 port ++ be_bytes 4 v ++ replicate 8 (byte_of 0).

(** The address and port the kernel recorded are read back. *)
Lemma originalDestination_reads v port :
  0 <= v < 2 ^ 32 -> 0 <= port < 2 ^ 16 ->
  originalDestination (Wrote (sockaddr_in v port)) = Some (Addr4 v, port).
Proof.
  intros Hv Hp. unfold sockaddr_in. cbn [be_bytes app originalDestination]. autorewrite with dgw.
  rewrite !Z.shiftr_div_pow2 by lia. unfold AddrFrom4. do 2 f_equal; [f_equal|]; cbn [Z.mul Z.of_nat Pos.mul];
    Z.div_mod_to_equations; lia.
Qed.

(** The handler takes a flow exactly when its destination is in an advertised route. *)
Lemma handles_routes s dst : handles s dst = containsPrefix (advertised_routes s) dst.
Proof.
  unfold handles, advertised_routes, containsPrefix. induction (map_to_list (sv_Gateways s)).*2 as [|g gs IH]; [done|].
  cbn [existsb mbind list_bind]. rewrite existsb_app. f_equal. exact IH.
Qed.

(** A connection that is dialled: what the policy had to say for it. *)
Definition permitted `{UnicodeTable, Identity} (s : Service) (ptr : Addr -> option (list str))
  (systemResolver : option (option str)) (lookup : plan -> option (list Addr))
  (src dst : Addr) (port : Z) (address : str) : Prop :=
  exists name caps g gw pl ip ips,
    ptr dst = Some [name] /\ pl_name pl = TrimSuffix name "." /\ pl_port pl = port /\
    Capabilities src dst = Some caps /\ gatewayForDestination s dst = (g, true) /\
    Authorize (Parse caps) (Prefixes g) (ToLower (pl_name pl)) "tcp" port = true /\
    GatewayFor (Parse caps) g (ToLower (pl_name pl)) "tcp" port = (gw, true) /\
    (if SystemResolver gw && IsSystemResolver (Resolver gw) then systemResolver = Some (Some (pl_resolver pl))
     else pl_resolver pl = Resolver gw) /\
    lookup pl = Some (ip :: ips) /\ address = JoinHostPort (AddrString ip) (Itoa port).

Lemma serve_flow_counts `{UnicodeTable, Identity} s ptr sysr dial lookup src dst port :
  counts (fun r => forall address, r = Some address -> permitted s ptr sysr lookup src dst port address)
    (serve_flow s ptr sysr dial lookup src dst port).
Proof.
  eapply counts_bind; [apply ProxyTCP_counts|]. intros r Hpl address Hr.
  destruct r as [pl|]; [|done]. cbn in Hr. unfold dial_backend in Hr.
  destruct (lookup pl) as [[|ip ips]|] eqn:El; try done. injection Hr as <-.
  destruct (Hpl pl eq_refl) as (name & caps & g & gw & En & Epl & Ept & _ & Ec & Eg & Ea & Eg2 & Er & _).
  exists name, caps, g, gw, pl, ip, ips. split_and!; try done. by rewrite Ept.
Qed.

(** The flow [proxy] hands on, and what is dialled for it. *)
Definition redirected `{UnicodeTable, Identity} s ptr sysr lookup (client : conn) (address : str) : Prop :=
  exists src dst port, cn_tcp client = true /\ originalDestination (cn_sockaddr client) = Some (dst, port) /\
    permitted s ptr sysr lookup src dst port address.

Lemma proxy_counts `{UnicodeTable, Identity} s ptr sysr dial lookup client :
  counts (fun r => forall address, r = Some address -> redirected s ptr sysr lookup client address)
    (proxy s ptr sysr dial lookup client).
Proof.
  unfold proxy. destruct (cn_tcp client) eqn:Et; [|done]. cbn [negb].
  destruct (originalDestination (cn_sockaddr client)) as [[dst port]|] eqn:Ed; [|done].
  eapply counts_mono; [|apply serve_flow_counts]. intros r Hr address Ha. eexists _, dst, port. split_and!; eauto.
Qed.


(** No route is published before the handler that receives its flows is installed. *)
Lemma handler_before_routes s start client prefs routes before after :
  (ServeTSNetGateway s start client prefs).1 = before ++ AdvertiseRoutes routes :: after ->
  InstallHandler ∈ before /\ forall dst, containsPrefix routes dst = handles s dst.
Proof.
  unfold ServeTSNetGateway. destruct start; cbn [negb]; [|by destruct before].
  destruct client; cbn [negb fst]; [|by destruct before].
  destruct before as [|a [|b before]]; intros E; simplify_eq/=; [|by destruct before].
  split; [apply list_elem_of_here|]. intros dst. symmetry. apply handles_routes.
Qed.
