(* ===== verification/Relay.v ===== *)
(** * Connections: the accept loop and the relay

    [ServeTCP] of [internal/domain/gateway.go] with the goroutine per connection, the
    handler the embedded node runs per flow ([tsnet_gateway.go]), and the end of
    [ProxyTCP]: one goroutine copies from the client to the backend, the connection's own
    one copies back, and when the latter ends the deferred calls close the backend and
    then the client.  The whole is a step relation in which the peers of the sockets, the
    copies and the decisions of all connections interleave. *)

From S2P Require Import Prelude GoStrings NetAddr Json Policy PolicySpec Alloc Upstream DnsWire Store StoreSpec Service ServiceSpec.
From S2P Require Import Replicas Egress EgressSpec Gateway.

(** ** Sockets and copies *)

(** A connected socket: the bytes received and not yet read, whether the peer has ended
    its side, whether the connection has failed, whether the program still has it open,
    how many bytes it takes before a write blocks, and the bytes written to it.
    [so_sent], what the peer has sent so far, has no counterpart in the code. *)
Record socket := mkSocket {
  so_in : list byte; so_eof : bool; so_broken : bool; so_open : bool; so_room : nat;
  so_out : list byte; so_sent : list byte }.

Definition socket_init : socket := mkSocket [] false false true 0 [] [].

Definition so_close (so : socket) : socket :=
  mkSocket (so_in so) (so_eof so) (so_broken so) false (so_room so) (so_out so) (so_sent so).

(** What the peer, or the network, does to a socket. *)
Inductive peer_step : socket -> socket -> Prop :=
| pe_send so bs :
    so_eof so = false ->
    peer_step so (mkSocket (so_in so ++ bs) (so_eof so) (so_broken so) (so_open so) (so_room so) (so_out so) (so_sent so ++ bs))
| pe_fin so :
    peer_step so (mkSocket (so_in so) true (so_broken so) (so_open so) (so_room so) (so_out so) (so_sent so))
| pe_break so :
    peer_step so (mkSocket (so_in so) (so_eof so) true (so_open so) (so_room so) (so_out so) (so_sent so))
| pe_room so n :
    peer_step so (mkSocket (so_in so) (so_eof so) (so_broken so) (so_open so) (so_room so + n) (so_out so) (so_sent so)).

(** Where [io.Copy] is: reading, writing what it has read, or returned. *)
Inductive copier := CRead | CWrite (bs : list byte) | CDone.

(** [io.Copy(dst, src)]: a read gives some of what is there, and is the end of the copy on
    the end of the stream or an error; a write hands the bytes on in one or more parts,
    as far as the socket takes them.
    The errors it returns are not looked at. *)
Inductive copy_step : socket -> socket -> copier -> socket -> socket -> copier -> Prop :=
| cp_read src dst bs rest :
    so_open src = true -> so_in src = bs ++ rest -> bs <> [] ->
    copy_step src dst CRead
      (mkSocket rest (so_eof src) (so_broken src) (so_open src) (so_room src) (so_out src) (so_sent src)) dst (CWrite bs)
| cp_eof src dst :
    so_open src = true -> so_in src = [] -> so_eof src = true -> copy_step src dst CRead src dst CDone
| cp_read_error src dst :
    so_open src = false \/ so_broken src = true -> copy_step src dst CRead src dst CDone
| cp_write src dst bs rest :
    so_open dst = true -> bs <> [] -> (length bs <= so_room dst)%nat ->
    copy_step src dst (CWrite (bs ++ rest)) src
      (mkSocket (so_in dst) (so_eof dst) (so_broken dst) (so_open dst)
         (so_room dst - length bs) (so_out dst ++ bs) (so_sent dst)) (CWrite rest)
| cp_written src dst : copy_step src dst (CWrite []) src dst CRead
| cp_write_error src dst bs :
    so_open dst = false \/ so_broken dst = true -> copy_step src dst (CWrite bs) src dst CDone.

(** ** A connection *)

(** Where the goroutine of a connection is: deciding, in [DialTimeout], relaying to the
    backend it dialled, or returned without one. *)
Inductive flow :=
| FDeciding (p : prog (option str))
| FDialling (address : str)
| FRelaying (address : str) (backend : socket) (up down : copier)
| FRefused.

(** How the connection came: redirected by the kernel, or from the embedded node. *)
Inductive origin :=
| Redirected (client : conn)
| FromTailnet (src dst : Addr) (port : Z).

(** What the outside answers while a connection is decided: identities, the PTR lookup,
    the host's resolver and the lookup of the backend. *)
Record answers := mkAnswers {
  an_Identity : Identity;
  an_ptr : Addr -> option (list str);
  an_system : option (option str);
  an_lookup : plan -> option (list Addr);
}.

Record connection := mkConnection {
  cc_origin : origin; cc_answers : answers; cc_client : socket; cc_flow : flow }.

Definition set_flow (c : connection) (f : flow) : connection :=
  mkConnection (cc_origin c) (cc_answers c) (cc_client c) f.

(** The listener's loop, until [Accept] fails; the memory of the process; and the
    connections so far. *)
Record dataplane := mkDataplane { dp_listening : bool; dp_process : Process; dp_conns : list connection }.

Definition dataplane_init (listening : bool) (pr : Process) : dataplane := mkDataplane listening pr [].

Section connections.
Context `{UnicodeTable} (s : Service) (resolverDial : bool).

(** What a new connection decides. *)
Definition decision_of (a : answers) (o : origin) : prog (option str) :=
  match o with
  | Redirected client => proxy (H0 := an_Identity a) s (an_ptr a) (an_system a) resolverDial (an_lookup a) client
  | FromTailnet src dst port =>
      serve_flow (H0 := an_Identity a) s (an_ptr a) (an_system a) resolverDial (an_lookup a) src dst port
  end.

(** The steps of a connection's own goroutines. *)
Inductive conn_step : Process -> connection -> Process -> connection -> Prop :=
| cs_mem pr c B (f : Process -> B * Process) k :
    cc_flow c = FDeciding (Mem f k) ->
    conn_step pr c (f pr).2 (set_flow c (FDeciding (k (f pr).1)))
| cs_refused pr c :
    cc_flow c = FDeciding (Ret None) ->
    conn_step pr c pr (mkConnection (cc_origin c) (cc_answers c) (so_close (cc_client c)) FRefused)
| cs_dial pr c address :
    cc_flow c = FDeciding (Ret (Some address)) ->
    conn_step pr c pr (set_flow c (FDialling address))
| cs_dial_failed pr c address :
    cc_flow c = FDialling address ->
    conn_step pr c pr (mkConnection (cc_origin c) (cc_answers c) (so_close (cc_client c)) FRefused)
| cs_connected pr c address :
    cc_flow c = FDialling address ->
    conn_step pr c pr (set_flow c (FRelaying address socket_init CRead CRead))
| cs_up pr c address backend up down client' backend' up' :
    cc_flow c = FRelaying address backend up down ->
    copy_step (cc_client c) backend up client' backend' up' ->
    conn_step pr c pr (mkConnection (cc_origin c) (cc_answers c) client' (FRelaying address backend' up' down))
| cs_down pr c address backend up down client' backend' down' :
    cc_flow c = FRelaying address backend up down ->
    copy_step backend (cc_client c) down backend' client' down' ->
    conn_step pr c pr (mkConnection (cc_origin c) (cc_answers c) client' (FRelaying address backend' up down'))
| cs_close_backend pr c address backend up :
    cc_flow c = FRelaying address backend up CDone -> so_open backend = true ->
    conn_step pr c pr (set_flow c (FRelaying address (so_close backend) up CDone))
| cs_close_client pr c address backend up :
    cc_flow c = FRelaying address backend up CDone -> so_open backend = false -> so_open (cc_client c) = true ->
    conn_step pr c pr (mkConnection (cc_origin c) (cc_answers c) (so_close (cc_client c))
                         (FRelaying address backend up CDone)).

(** What happens to its sockets from outside. *)
Inductive conn_event : connection -> connection -> Prop :=
| ce_client c client' :
    peer_step (cc_client c) client' ->
    conn_event c (mkConnection (cc_origin c) (cc_answers c) client' (cc_flow c))
| ce_backend c address backend up down backend' :
    cc_flow c = FRelaying address backend up down -> peer_step backend backend' ->
    conn_event c (set_flow c (FRelaying address backend' up down)).

Definition new_connection (o : origin) (a : answers) : connection :=
  mkConnection o a socket_init (FDeciding (decision_of a o)).

(** [ServeTCP] accepts and starts a goroutine, until an error ends it; the embedded node
    starts a handler for the flows [fallback] takes. *)
Inductive dataplane_step : dataplane -> dataplane -> Prop :=
| gs_accept g client a :
    dp_listening g = true ->
    dataplane_step g (mkDataplane true (dp_process g) (dp_conns g ++ [new_connection (Redirected client) a]))
| gs_accept_error g :
    dp_listening g = true -> dataplane_step g (mkDataplane false (dp_process g) (dp_conns g))
| gs_fallback g src dst port a :
    handles s dst = true ->
    dataplane_step g (mkDataplane (dp_listening g) (dp_process g) (dp_conns g ++ [new_connection (FromTailnet src dst port) a]))
| gs_conn g c1 c c2 pr' c' :
    dp_conns g = c1 ++ c :: c2 -> conn_step (dp_process g) c pr' c' ->
    dataplane_step g (mkDataplane (dp_listening g) pr' (c1 ++ c' :: c2))
| gs_event g c1 c c2 c' :
    dp_conns g = c1 ++ c :: c2 -> conn_event c c' ->
    dataplane_step g (mkDataplane (dp_listening g) (dp_process g) (c1 ++ c' :: c2)).

(** ** Invariants *)

(** What a copy has read and not yet written. *)
Definition in_hand (c : copier) : list byte := match c with CWrite bs => bs | _ => [] end.

(** One direction: what was written is a prefix of what was sent, and until the copy ends
    the rest is in its hands or still to be read. *)
Definition carries (src dst : socket) (c : copier) : Prop :=
  so_out dst `prefix_of` so_sent src /\ (c <> CDone -> so_sent src = so_out dst ++ in_hand c ++ so_in src).

(** The sender has ended its stream and all of it was written. *)
Definition whole (src dst : socket) : Prop := so_eof src = true /\ so_out dst = so_sent src.

(** The flags and the other direction are untouched by a copy. *)
Lemma copy_step_frame src dst c src' dst' c' :
  copy_step src dst c src' dst' c' ->
  (so_eof src' = so_eof src /\ so_broken src' = so_broken src /\ so_open src' = so_open src /\
   so_sent src' = so_sent src /\ so_out src' = so_out src) /\
  (so_eof dst' = so_eof dst /\ so_broken dst' = so_broken dst /\ so_open dst' = so_open dst /\
   so_sent dst' = so_sent dst /\ so_in dst' = so_in dst).
Proof. by destruct 1. Qed.

Lemma copy_step_carries src dst c src' dst' c' :
  copy_step src dst c src' dst' c' -> carries src dst c ->
  carries src' dst' c' /\
  (c' = CDone -> whole src' dst' \/ so_broken src = true \/ so_broken dst = true \/
                 so_open src = false \/ so_open dst = false).
Proof.
  unfold carries, whole. destruct 1 as [src dst bs rest Ho Hi Hne|src dst Ho Hi He|src dst [Ho|Hb]|src dst bs rest Ho Hne _|src dst|src dst bs [Ho|Hb]];
    cbn; intros [Hp Hs]; (split; [split; [try done|intros Hc]|intros Hc]); try tauto; try done.
  - rewrite (Hs ltac:(done)), Hi. by rewrite app_assoc.
  - rewrite Hs, Hi by done. cbn. left. by rewrite app_nil_r.
  - rewrite (Hs ltac:(done)), <-!app_assoc. by apply prefix_app, prefix_app_r.
  - by rewrite (Hs ltac:(done)), <-!app_assoc.
  - by rewrite (Hs ltac:(done)).
Qed.

Lemma carries_frame src dst c src' dst' :
  so_sent src' = so_sent src -> so_in src' = so_in src -> so_out dst' = so_out dst ->
  carries src dst c -> carries src' dst' c.
Proof. unfold carries. by intros -> -> ->. Qed.

Lemma peer_step_src src src' dst c : peer_step src src' -> carries src dst c -> carries src' dst c.
Proof.
  unfold carries. destruct 1 as [so bs He|so|so|so n]; cbn; intros [Hp Hs]; try done.
  split; [by apply prefix_app_r|]. intros Hc. by rewrite (Hs Hc), <-!app_assoc.
Qed.

Lemma peer_step_frame so so' :
  peer_step so so' -> so_open so' = so_open so /\ so_out so' = so_out so /\
  (so_broken so = true -> so_broken so' = true) /\ (so_sent so = so_in so -> so_sent so' = so_in so').
Proof. destruct 1; cbn; try done. split_and!; try done. by intros ->. Qed.

Lemma peer_step_whole src src' dst : peer_step src src' -> whole src dst -> whole src' dst.
Proof. unfold whole. destruct 1 as [so bs He|so|so|so n]; cbn; [|tauto..]. intros [??]. congruence. Qed.

Definition failed (client backend : socket) : Prop := so_broken client = true \/ so_broken backend = true.

(** Both directions, and the order of the deferred calls. *)
Record relay_ok (client backend : socket) (up down : copier) : Prop := {
  ro_up : carries client backend up;
  ro_down : carries backend client down;
  ro_up_done : up = CDone -> whole client backend \/ failed client backend \/ so_open backend = false;
  ro_down_done : down = CDone -> whole backend client \/ failed client backend;
  ro_backend : so_open backend = false -> down = CDone;
  ro_client : so_open client = false -> so_open backend = false;
}.

Lemma relay_up client backend up down client' backend' up' :
  copy_step client backend up client' backend' up' -> relay_ok client backend up down ->
  relay_ok client' backend' up' down.
Proof.
  intros Hc [Hu Hd Hud Hdd Hb Hcl]. destruct (copy_step_carries _ _ _ _ _ _ Hc Hu) as [Hu' Hdone].
  destruct (copy_step_frame _ _ _ _ _ _ Hc) as [(E1 & E2 & E3 & E4 & E5) (E6 & E7 & E8 & E9 & E10)].
  constructor; unfold failed, whole in *; rewrite ?E1, ?E2, ?E3, ?E4, ?E5, ?E6, ?E7, ?E8, ?E9 in *; try done.
  - by apply (carries_frame backend client).
  - intros Eu. destruct (Hdone Eu) as [|[|[|[|]]]]; tauto.
Qed.

Lemma relay_down client backend up down client' backend' down' :
  copy_step backend client down backend' client' down' -> relay_ok client backend up down ->
  relay_ok client' backend' up down'.
Proof.
  intros Hc [Hu Hd Hud Hdd Hb Hcl]. destruct (copy_step_carries _ _ _ _ _ _ Hc Hd) as [Hd' Hdone].
  destruct (copy_step_frame _ _ _ _ _ _ Hc) as [(E1 & E2 & E3 & E4 & E5) (E6 & E7 & E8 & E9 & E10)].
  assert (Hne : so_open backend = true).
  { destruct (so_open backend) eqn:Eb; [done|]. rewrite (Hb eq_refl) in Hc. inversion Hc. }
  constructor; unfold failed, whole in *; rewrite ?E1, ?E2, ?E3, ?E4, ?E5, ?E6, ?E7, ?E8, ?E9 in *; try done.
  - by apply (carries_frame client backend).
  - intros Eu. destruct (Hdone Eu) as [|[|[|[|Ho]]]]; try tauto; [congruence|]. rewrite (Hcl Ho) in Hne. done.
  - congruence.
Qed.

Lemma relay_event_client client client' backend up down :
  peer_step client client' -> relay_ok client backend up down -> relay_ok client' backend up down.
Proof.
  intros Hp [Hu Hd Hud Hdd Hb Hcl]. destruct (peer_step_frame _ _ Hp) as (E1 & E2 & E3 & _).
  constructor; unfold failed in *; rewrite ?E1; try done.
  - by apply (peer_step_src client).
  - by apply (carries_frame backend client).
  - intros Eu. pose proof (peer_step_whole _ _ backend Hp). specialize (Hud Eu). tauto.
  - intros Eu. unfold whole in *. rewrite E2. specialize (Hdd Eu). tauto.
Qed.

Lemma relay_event_backend client backend backend' up down :
  peer_step backend backend' -> relay_ok client backend up down -> relay_ok client backend' up down.
Proof.
  intros Hp [Hu Hd Hud Hdd Hb Hcl]. destruct (peer_step_frame _ _ Hp) as (E1 & E2 & E3 & _).
  constructor; unfold failed in *; rewrite ?E1; try done.
  - by apply (carries_frame client backend).
  - by apply (peer_step_src backend).
  - intros Eu. unfold whole in *. rewrite E2. specialize (Hud Eu). tauto.
  - intros Eu. pose proof (peer_step_whole _ _ client Hp). specialize (Hdd Eu). tauto.
Qed.

(** The address may be dialled for the connection, by the answers it was decided with. *)
Definition granted (c : connection) (address : str) : Prop :=
  let a := cc_answers c in
  match cc_origin c with
  | Redirected client => redirected (H0 := an_Identity a) s (an_ptr a) (an_system a) (an_lookup a) client address
  | FromTailnet src dst port =>
      handles s dst = true /\
      permitted (H0 := an_Identity a) s (an_ptr a) (an_system a) (an_lookup a) src dst port address
  end.

Definition conn_ok (c : connection) : Prop :=
  let client := cc_client c in
  match cc_flow c with
  | FDeciding p => counts (fun r => forall address, r = Some address -> granted c address) p /\
      so_out client = [] /\ so_open client = true /\ so_sent client = so_in client
  | FDialling address => granted c address /\ so_out client = [] /\ so_open client = true /\ so_sent client = so_in client
  | FRelaying address backend up down => granted c address /\ relay_ok client backend up down
  | FRefused => so_out client = [] /\ so_open client = false
  end.

Lemma new_connection_ok o a :
  match o with FromTailnet _ dst _ => handles s dst = true | _ => True end -> conn_ok (new_connection o a).
Proof.
  intros Ho. split; [|done]. destruct o as [client|src dst port]; cbn; [apply proxy_counts|].
  eapply counts_mono; [|apply serve_flow_counts]. intros r Hr address Ha. split; [done|]. by apply Hr.
Qed.

(** A step of the program keeps the invariant and the memory but for the counters. *)
Lemma conn_step_ok pr c pr' c' :
  conn_step pr c pr' c' -> conn_ok c ->
  conn_ok c' /\ p_alloc pr' = p_alloc pr /\ p_lastRenewed pr' = p_lastRenewed pr.
Proof.
  unfold conn_ok. destruct 1 as [pr c B f k E|pr c E|pr c address E|pr c address E|pr c address E
    |pr c address backend up down client' backend' up' E Hc|pr c address backend up down client' backend' down' E Hc
    |pr c address backend up E Hb|pr c address backend up E Hb Hcl]; rewrite E; cbn.
  - intros (Hp & Hrest). destruct (Hp pr) as (? & ? & ?). done.
  - by intros (_ & ? & _).
  - intros (Hp & Hrest). split; [|done]. split; [by apply Hp|done].
  - by intros (_ & ? & _).
  - intros (Hg & Ho & Hop & Hs). split; [|done]. split; [done|]. constructor; cbn; try done.
    + split; [apply prefix_nil|]. done.
    + unfold carries. by rewrite Ho.
    + congruence.
  - intros [Hg Hr]. split; [|done]. split; [done|]. by eapply relay_up.
  - intros [Hg Hr]. split; [|done]. split; [done|]. by eapply relay_down.
  - intros [Hg [Hu Hd Hud Hdd Hbk Hcl]]. split; [|done]. split; [done|]. constructor; cbn; try done. by intros _; right; right.
  - intros [Hg [Hu Hd Hud Hdd Hbk Hcl']]. split; [|done]. split; [done|]. by constructor.
Qed.

Lemma conn_event_ok c c' : conn_event c c' -> conn_ok c -> conn_ok c'.
Proof.
  unfold conn_ok. destruct 1 as [c client' Hp|c address backend up down backend' E Hp]; cbn.
  - destruct (peer_step_frame _ _ Hp) as (E1 & E2 & _ & E3). rewrite E1, E2. unfold granted. cbn.
    destruct (cc_flow c); try tauto. intros [Hg Hr]. split; [done|]. by eapply relay_event_client.
  - rewrite E. intros [Hg Hr]. split; [done|]. by eapply relay_event_backend.
Qed.

Definition dataplane_ok (pr : Process) (g : dataplane) : Prop :=
  Forall conn_ok (dp_conns g) /\
  p_alloc (dp_process g) = p_alloc pr /\ p_lastRenewed (dp_process g) = p_lastRenewed pr.

Lemma dataplane_step_ok pr g g' : dataplane_step g g' -> dataplane_ok pr g -> dataplane_ok pr g'.
Proof.
  unfold dataplane_ok. destruct 1 as [g client a Hl|g Hl|g src dst port a Hh|g c1 c c2 pr' c' E Hs|g c1 c c2 c' E He];
    cbn; intros (Hc & Ha & Hl'); split_and!; try done.
  - apply Forall_app. split; [done|]. constructor; [by apply new_connection_ok|done].
  - apply Forall_app. split; [done|]. constructor; [by apply new_connection_ok|done].
  - rewrite E in Hc. apply Forall_app in Hc as [H1 [H2 H3]%Forall_cons]. apply Forall_app; split; [done|].
    constructor; [by eapply conn_step_ok|done].
  - rewrite E in Hc. apply Forall_app in Hc as [H1 [H2 H3]%Forall_cons].
    rewrite <-Ha. by eapply conn_step_ok.
  - rewrite E in Hc. apply Forall_app in Hc as [H1 [H2 H3]%Forall_cons].
    rewrite <-Hl'. by eapply conn_step_ok.
  - rewrite E in Hc. apply Forall_app in Hc as [H1 [H2 H3]%Forall_cons]. apply Forall_app; split; [done|].
    constructor; [by eapply conn_event_ok|done].
Qed.

Lemma dataplane_reachable listening pr g :
  rtc dataplane_step (dataplane_init listening pr) g -> dataplane_ok pr g.
Proof.
  intros Hr. assert (Hi : dataplane_ok pr (dataplane_init listening pr)) by (repeat split; apply Forall_nil; done).
  revert Hi. induction Hr; [done|]. eauto using dataplane_step_ok.
Qed.

(** ** The end of a connection *)

(** A step of a connection on whatever memory it finds. *)
Definition moves (c c' : connection) : Prop := exists pr pr', conn_step pr c pr' c'.

Definition copier_weight (c : copier) : nat :=
  match c with CRead => 1 | CWrite bs => 2 + length bs | CDone => 0 end.

Definition open_weight (so : socket) : nat := if so_open so then 1 else 0.

(** What is left to do once a connection is decided. *)
Definition weight (c : connection) : nat :=
  match cc_flow c with
  | FDeciding _ | FRefused => 0
  | FDialling _ => 3 * length (so_in (cc_client c)) + 5
  | FRelaying _ backend up down =>
      3 * length (so_in (cc_client c)) + 3 * length (so_in backend) + copier_weight up + copier_weight down +
      open_weight (cc_client c) + open_weight backend
  end.

Lemma copy_step_weight src dst c src' dst' c' :
  copy_step src dst c src' dst' c' ->
  (3 * length (so_in src') + copier_weight c' < 3 * length (so_in src) + copier_weight c)%nat.
Proof.
  assert (Hpos : forall bs : list byte, bs <> [] -> (0 < length bs)%nat) by (intros []; cbn; [done|lia]).
  destruct 1 as [src dst bs rest _ Hi Hne%Hpos|src dst _ Hi _|src dst _|src dst bs rest _ Hne%Hpos _|src dst|src dst bs _];
    cbn; rewrite ?length_app; try lia. rewrite Hi, length_app. lia.
Qed.

Definition decided (c : connection) : Prop := forall p, cc_flow c <> FDeciding p.

Lemma moves_decided c c' : moves c c' -> decided c -> decided c' /\ (weight c' < weight c)%nat.
Proof.
  intros (pr & pr' & Hs) Hd. unfold weight. revert Hd.
  destruct Hs as [pr c B f k E|pr c E|pr c address E|pr c address E|pr c address E
    |pr c address backend up down client' backend' up' E Hc|pr c address backend up down client' backend' down' E Hc
    |pr c address backend up E Hb|pr c address backend up E Hb Hcl]; intros Hd;
    try (by destruct (Hd _ E)); (split; [by intros p; cbn|]); rewrite E; cbn.
  - lia.
  - unfold open_weight. cbn. destruct (so_open (cc_client c)); lia.
  - pose proof (copy_step_weight _ _ _ _ _ _ Hc). destruct (copy_step_frame _ _ _ _ _ _ Hc) as [(_ & _ & E1 & _) (_ & _ & E2 & _ & E3)].
    unfold open_weight. rewrite E1, E2, E3. lia.
  - pose proof (copy_step_weight _ _ _ _ _ _ Hc). destruct (copy_step_frame _ _ _ _ _ _ Hc) as [(_ & _ & E1 & _) (_ & _ & E2 & _ & E3)].
    unfold open_weight. rewrite E1, E2, E3. lia.
  - unfold open_weight. cbn. rewrite Hb. lia.
  - unfold open_weight. cbn. rewrite Hcl. lia.
Qed.

Lemma decided_sn c : decided c -> sn moves c.
Proof.
  remember (weight c) as n eqn:E. revert c E. induction n as [n IH] using lt_wf_ind. intros c -> Hd.
  constructor. intros c' Hm. destruct (moves_decided c c' Hm Hd) as [Hd' Hw]. by apply (IH (weight c')).
Qed.

Lemma moves_sn c : sn moves c.
Proof.
  destruct (cc_flow c) as [p| | |] eqn:E; [|by apply decided_sn; intros p; rewrite E..].
  revert c E. induction p as [a|B q k IH|B g k IH]; intros c E; constructor; intros c' (pr & pr' & Hs).
  - apply decided_sn. destruct Hs; try congruence; intros p; by cbn.
  - destruct Hs; congruence.
  - assert (Hk : match cc_flow c with
                 | FDeciding (Mem f k) => forall pr c', cc_flow c' = FDeciding (k (f pr).1) -> sn moves c'
                 | _ => True
                 end) by (rewrite E; eauto).
    destruct Hs as [pr c C f k' E'| | | | | | | |]; try congruence. rewrite E' in Hk. by apply (Hk pr).
Qed.

(** A connection none of whose goroutines can move. *)
Definition at_rest (c : connection) : Prop := forall c', ~ moves c c'.

(** Both sockets closed and no goroutine left. *)
Definition closed (c : connection) : Prop :=
  so_open (cc_client c) = false /\
  match cc_flow c with
  | FRelaying _ backend up down => so_open backend = false /\ up = CDone /\ down = CDone
  | FRefused => True
  | _ => False
  end.

(** A copy waits for a peer that is connected and sends nothing, or takes nothing. *)
Definition silent (c : copier) (src : socket) : Prop :=
  c = CRead /\ so_open src = true /\ so_in src = [] /\ so_eof src = false /\ so_broken src = false.

Definition full (c : copier) (dst : socket) : Prop :=
  (exists b bs, c = CWrite (b :: bs)) /\ so_open dst = true /\ so_room dst = 0%nat /\ so_broken dst = false.

(** The connection's own goroutine waits for the backend, or for the client. *)
Definition awaits_backend (c : connection) : Prop :=
  match cc_flow c with FRelaying _ backend up down => silent down backend | _ => False end.

Definition awaits_client (c : connection) : Prop :=
  match cc_flow c with FRelaying _ backend up down => full down (cc_client c) | _ => False end.

(** A copy moves unless it has returned, waits for bytes or waits for room. *)
Lemma copy_rest src dst c :
  (exists src' dst' c', copy_step src dst c src' dst' c') \/ c = CDone \/ silent c src \/ full c dst.
Proof.
  destruct c as [|bs|]; [| |by right; left].
  - destruct (so_open src) eqn:Eo; [|left; eexists _, _, _; apply cp_read_error; by left].
    destruct (so_in src) as [|b bs] eqn:Ei; [|left; eexists _, _, _; by apply (cp_read _ _ [b] bs)].
    destruct (so_eof src) eqn:Ee; [left; eexists _, _, _; by apply cp_eof|].
    destruct (so_broken src) eqn:Eb; [left; eexists _, _, _; apply cp_read_error; by right|]. by right; right; left.
  - destruct (so_open dst) eqn:Eo; [|left; eexists _, _, _; apply cp_write_error; by left].
    destruct bs as [|b bs]; [left; eexists _, _, _; apply cp_written|].
    destruct (so_broken dst) eqn:Eb; [left; eexists _, _, _; apply cp_write_error; by right|].
    destruct (so_room dst) as [|n] eqn:Er; [by right; right; right; split; [eauto|]|].
    left. eexists _, _, _. apply (cp_write _ _ [b] bs); [done|done|]. rewrite Er. cbn. lia.
Qed.

Lemma at_rest_cases c : conn_ok c -> at_rest c -> closed c \/ awaits_backend c \/ awaits_client c.
Proof.
  unfold conn_ok, at_rest, moves, closed, awaits_backend, awaits_client. intros Hok Hrest.
  assert (Hno : forall pr pr' c', ~ conn_step pr c pr' c') by (intros pr pr' c' Hs; by eapply Hrest; eauto).
  destruct (cc_flow c) as [[[address|]|B q k|B f k]|address|address backend up down|] eqn:E; cbn in Hok.
  - by destruct (Hno NewProcess _ _ (cs_dial _ _ _ E)).
  - by destruct (Hno NewProcess _ _ (cs_refused _ _ E)).
  - tauto.
  - by destruct (Hno NewProcess _ _ (cs_mem _ _ _ _ _ E)).
  - by destruct (Hno NewProcess _ _ (cs_connected _ _ _ E)).
  - destruct Hok as [_ [_ _ _ _ Hb Hcl]].
    destruct (copy_rest backend (cc_client c) down) as [(b' & c' & d' & Hd)|[->|[Hw|Hw]]].
    { by destruct (Hno NewProcess _ _ (cs_down _ _ _ _ _ _ _ _ _ E Hd)). }
    2: by right; left.
    2: by right; right.
    destruct (so_open backend) eqn:Eb; [by destruct (Hno NewProcess _ _ (cs_close_backend _ _ _ _ _ E Eb))|].
    destruct (so_open (cc_client c)) eqn:Ec; [by destruct (Hno NewProcess _ _ (cs_close_client _ _ _ _ _ E Eb Ec))|].
    destruct (copy_rest (cc_client c) backend up) as [(c' & b' & u' & Hu)|[->|[Hw|Hw]]];
      [|by left|destruct Hw as (_ & ? & _); congruence|destruct Hw as (_ & ? & _); congruence].
    by destruct (Hno NewProcess _ _ (cs_up _ _ _ _ _ _ _ _ _ E Hu)).
  - left. by destruct Hok.
Qed.

(** The backend has ended its stream or the connection to it has failed. *)
Definition backend_ended (c : connection) : Prop :=
  match cc_flow c with
  | FRelaying _ backend _ _ => so_eof backend = true \/ so_broken backend = true
  | FRefused => True
  | _ => False
  end.

Lemma moves_ended c c' : moves c c' -> backend_ended c -> backend_ended c'.
Proof.
  unfold backend_ended. intros (pr & pr' & Hs). destruct Hs as [pr c B f k E|pr c E|pr c address E|pr c address E|pr c address E
    |pr c address backend up down client' backend' up' E Hc|pr c address backend up down client' backend' down' E Hc
    |pr c address backend up E Hb|pr c address backend up E Hb Hcl]; rewrite E; cbn; try done.
  - destruct (copy_step_frame _ _ _ _ _ _ Hc) as [_ (-> & -> & _)]. done.
  - destruct (copy_step_frame _ _ _ _ _ _ Hc) as [(-> & -> & _) _]. done.
Qed.

Lemma moves_rtc c c' : rtc moves c c' -> conn_ok c -> conn_ok c' /\ (backend_ended c -> backend_ended c').
Proof.
  induction 1 as [c|c c1 c2 Hm Hr IH]; intros Hok; [done|].
  destruct (IH ltac:(destruct Hm as (pr & pr' & Hs); by eapply conn_step_ok)) as [Hok' Hb].
  split; [done|]. intros He. by eapply Hb, moves_ended.
Qed.

(** What the bytes that went through a connection say about its peers. *)
Definition relayed (c : connection) : Prop :=
  let client := cc_client c in
  match cc_flow c with
  | FRelaying address backend up down =>
      granted c address /\
      so_out backend `prefix_of` so_sent client /\ so_out client `prefix_of` so_sent backend /\
      (up = CDone -> whole client backend \/ failed client backend \/ so_open backend = false) /\
      (so_open client = false \/ so_open backend = false -> whole backend client \/ failed client backend)
  | _ => so_out client = []
  end.

(** C9: the relay carries only what was permitted, in order and whole.  Whatever the peers
    and the other connections do, nothing is written to a client before its connection is
    decided; a backend is one its decision permits, with the answers it was given; what
    either side is sent is a prefix of what the other has sent; the program closes the
    connection only when all the backend sent, to its end, was written to the client,
    unless a connection failed; the client's bytes all reach a backend that stays.  No
    connection changes the allocations. *)
Theorem relay_faithful listening pr g :
  rtc dataplane_step (dataplane_init listening pr) g ->
  Forall relayed (dp_conns g) /\ p_alloc (dp_process g) = p_alloc pr /\ p_lastRenewed (dp_process g) = p_lastRenewed pr.
Proof.
  intros (Hc & Ha & Hl)%dataplane_reachable. split; [|done]. eapply Forall_impl; [exact Hc|]. intros c.
  unfold conn_ok, relayed. destruct (cc_flow c) as [p|address|address backend up down|]; [tauto..| |tauto].
  intros [Hg [Hu Hd Hud Hdd Hb Hcl]]. split_and!; [done|apply Hu|apply Hd|done|]. intros Ho. apply Hdd, Hb.
  destruct Ho as [Ho|Ho]; [by apply Hcl|done].
Qed.

(** C19: connections end.  The goroutines of a connection always come to rest between two
    events of its peers; at rest both sockets are closed and both copies have returned, or
    the connection's own goroutine waits for a backend that is connected and silent, or
    for a client that is connected and takes nothing.  Once the backend has ended its
    stream, or its connection has failed, only such a client is waited for; otherwise no
    goroutine and no socket is left behind. *)
Theorem relay_ends listening pr g c :
  rtc dataplane_step (dataplane_init listening pr) g -> c ∈ dp_conns g ->
  sn moves c /\
  forall c', rtc moves c c' -> at_rest c' ->
    (closed c' \/ awaits_backend c' \/ awaits_client c') /\ (backend_ended c -> closed c' \/ awaits_client c').
Proof.
  intros (Hc & _)%dataplane_reachable Hin. rewrite Forall_forall in Hc. split; [apply moves_sn|].
  intros c' Hr Hrest. destruct (moves_rtc c c' Hr (Hc c Hin)) as [Hok Hend].
  destruct (at_rest_cases c' Hok Hrest) as [|[Hw|]]; [tauto| |tauto]. split; [tauto|]. intros He. specialize (Hend He).
  unfold awaits_backend, backend_ended in *. destruct (cc_flow c'); try done.
  destruct Hw as (_ & _ & _ & E1 & E2), Hend; congruence.
Qed.

(** The end of the client's stream is not passed on: with a silent backend the connection
    is at rest and open however long ago the client ended its side. *)
Lemma half_close_waits c address backend :
  cc_flow c = FRelaying address backend CDone CRead -> so_open backend = true ->
  so_in backend = [] -> so_eof backend = false -> so_broken backend = false -> at_rest c.
Proof.
  intros E Ho Hi He Hb c' (pr & pr' & Hs).
  destruct Hs as [| | | | |? ? ? ? ? ? ? ? ? E' Hc|? ? ? ? ? ? ? ? ? E' Hc| |]; try congruence.
  - rewrite E in E'. injection E' as <- <- <- <-. inversion Hc.
  - rewrite E in E'. injection E' as <- <- <- <-.
    inversion Hc as [? ? bs rest _ Hi' Hne|? ? _ _ He'|? ? [Ho'|Hb']| | |]; subst; try congruence.
    rewrite Hi in Hi'. by destruct bs.
Qed.
End connections.

(** ** A request and its reply *)

(** A connection decided without interruption. *)
Lemma decision_runs `{UnicodeTable} s dial Q listening pr c p r pr' :
  counts Q p -> run (DB := table_db) p pr ∅ = (r, pr', ∅) ->
  rtc (dataplane_step s dial) (mkDataplane listening pr [set_flow c (FDeciding p)])
    (mkDataplane listening pr' [set_flow c (FDeciding (Ret r))]).
Proof.
  revert pr. induction p as [a|B q k IH|B f k IH]; intros pr Hp Hr; cbn in *.
  - injection Hr as -> ->. done.
  - done.
  - destruct (Hp pr) as (_ & _ & Hk). destruct (f pr) as [b pr1] eqn:Ef. cbn in Hk.
    eapply rtc_l; [|by apply (IH b pr1)].
    pose proof (gs_conn s dial (mkDataplane listening pr [set_flow c (FDeciding (Mem f k))]) [] _ [] _ _ eq_refl
      (cs_mem pr (set_flow c (FDeciding (Mem f k))) _ f k eq_refl)) as Hs. by rewrite Ef in Hs.
Qed.

Definition lab_answers : answers :=
  mkAnswers lab_identity (fun _ => Some [lit "App.example.com."]) None (fun _ => Some [AddrFrom4 192 0 2 80]).

Definition lab_client : conn := mkConn true "100.64.0.5:40000" (Wrote (sockaddr_in 184418305 443)).

Definition lab_dataplane := @dataplane_step table_min (lab_service sql_lifecycle) false.

(** A connection that is relayed, with what was exchanged so far. *)
Definition lab_relaying (client backend : socket) (up down : copier) : connection :=
  mkConnection (Redirected lab_client) lab_answers client (FRelaying "192.0.2.80:443" backend up down).

Lemma lab_connects : exists pr,
  rtc lab_dataplane (dataplane_init true NewProcess)
    (mkDataplane true pr [lab_relaying socket_init socket_init CRead CRead]).
Proof.
  destruct (run (DB := table_db) (@decision_of table_min (lab_service sql_lifecycle) false lab_answers (Redirected lab_client))
    NewProcess ∅) as [[r pr] d] eqn:E.
  assert (r = Some (lit "192.0.2.80:443") /\ d = ∅) as [-> ->] by (vm_compute in E; by simplify_eq).
  exists pr. eapply rtc_l; [by apply (gs_accept _ _ _ lab_client lab_answers)|]. cbn [dp_conns dp_process dataplane_init app].
  etrans; [eapply (decision_runs _ _ _ _ _ (new_connection (H := table_min) (lab_service sql_lifecycle) false (Redirected lab_client) lab_answers));
    [apply (proxy_counts (H0 := lab_identity))|exact E]|].
  eapply rtc_l; [eapply (gs_conn _ _ _ [] _ []); [reflexivity|by eapply cs_dial]|].
  eapply rtc_l; [eapply (gs_conn _ _ _ [] _ []); [reflexivity|by eapply cs_connected]|].
  apply rtc_refl.
Qed.

(** One step of a copy, and one event. *)
Ltac copy_moves dir rule :=
  eapply rtc_l; [eapply (gs_conn _ _ _ [] _ []); [reflexivity|eapply dir; [reflexivity|by apply rule]]|]; cbn.
Ltac conn_moves rule := eapply rtc_l; [eapply (gs_conn _ _ _ [] _ []); [reflexivity|by eapply rule]|]; cbn.
Ltac client_event rule := eapply rtc_l; [eapply (gs_event _ _ _ [] _ []); [reflexivity|eapply ce_client; by apply rule]|]; cbn.
Ltac backend_event rule :=
  eapply rtc_l; [eapply (gs_event _ _ _ [] _ []); [reflexivity|eapply ce_backend; [reflexivity|by apply rule]]|]; cbn.

(** The client sends a request and ends its side; the request reaches the backend. *)
Definition lab_asked : connection :=
  lab_relaying (mkSocket [] true false true 0 [] "ping") (mkSocket [] false false true 0 "ping" []) CDone CRead.

Definition lab_run (c : connection) : Prop :=
  exists pr, rtc lab_dataplane (dataplane_init true NewProcess) (mkDataplane true pr [c]).

Lemma lab_asks : lab_run lab_asked.
Proof.
  destruct lab_connects as [pr Hr]. exists pr. etrans; [exact Hr|]. clear Hr.
  client_event (pe_send socket_init "ping"). client_event pe_fin. backend_event (pe_room socket_init 4).
  copy_moves cs_up (fun c b => cp_read c b "ping" []). copy_moves cs_up (fun c b => cp_write c b "ping" []).
  copy_moves cs_up cp_written. copy_moves cs_up cp_eof. apply rtc_refl.
Qed.

(** No goroutine of this connection can move: the backend does not learn that the request
    is complete. *)
Example half_close_stalls : lab_run lab_asked /\ at_rest lab_asked.
Proof. split; [apply lab_asks|]. by eapply half_close_waits. Qed.

(** The backend replies and ends its side. *)
Definition lab_replying : connection :=
  lab_relaying (mkSocket [] true false true 4 [] "ping") (mkSocket "pong" true false true 0 "ping" "pong") CDone CRead.

Definition lab_closed : connection :=
  lab_relaying (mkSocket [] true false false 0 "pong" "ping") (mkSocket [] true false false 0 "ping" "pong") CDone CDone.

Lemma lab_replies : lab_run lab_replying.
Proof.
  destruct lab_asks as [pr Hr]. exists pr. etrans; [exact Hr|]. clear Hr.
  client_event (fun so => pe_room so 4). backend_event (fun so => pe_send so "pong"). backend_event pe_fin. apply rtc_refl.
Qed.

Lemma lab_closes : lab_run lab_closed.
Proof.
  destruct lab_replies as [pr Hr]. exists pr. etrans; [exact Hr|]. clear Hr.
  copy_moves cs_down (fun c b => cp_read c b "pong" []). copy_moves cs_down (fun c b => cp_write c b "pong" []).
  copy_moves cs_down cp_written. copy_moves cs_down cp_eof.
  conn_moves cs_close_backend. conn_moves cs_close_client. apply rtc_refl.
Qed.

Lemma relay_faithful_witness :
  lab_run lab_closed /\ @granted table_min (lab_service sql_lifecycle) lab_closed "192.0.2.80:443".
Proof.
  split; [apply lab_closes|]. destruct lab_closes as [pr Hr].
  destruct (@relay_faithful table_min (lab_service sql_lifecycle) false true NewProcess _ Hr) as [Hc _].
  apply Forall_inv in Hc. apply Hc.
Defined.

Lemma relay_ends_witness :
  lab_run lab_replying /\ sn moves lab_replying /\
  forall c, rtc moves lab_replying c -> at_rest c -> closed c \/ awaits_client c.
Proof.
  split; [apply lab_replies|]. destruct lab_replies as [pr Hr].
  destruct (@relay_ends table_min (lab_service sql_lifecycle) false true NewProcess _ lab_replying Hr) as [Hsn Hends].
  { apply list_elem_of_here. }
  split; [exact Hsn|]. intros c Hc Hrest. apply (Hends c Hc Hrest). by left.
Defined.
