(* ===== verification/Startup.v ===== *)
(** * Starting a role

    [systemUpstream], [newTSNet], [allocationStore], [runDNS], [runEgress] and [main] of
    [cmd/domain-gateway/main.go] and [openTailnetTransport] of [transport.go]: what is
    read, checked and put together before a role serves.  Everything outside the process
    is in a [world]; a call of [log.Fatal] is [Fatal]. *)

From S2P Require Import Prelude GoStrings GoFlag GoTime NetAddr Json Policy PolicySpec Alloc Upstream Url Tags Store StoreSpec OpenStore.
From S2P Require Import Service ServiceSpec Egress EgressSpec Command LocalApi TSNet Gateway.

(** ** The host's resolver *)

(** One line of [/etc/resolv.conf]. *)
Definition nameserver (line : str) : option str :=
  match Fields line with
  | [keyword; server] =>
      if negb (str_eqb keyword "nameserver") || str_eqb server "100.100.100.100" then None
      else if ParseIP_ok server then Some (JoinHostPort server "53") else None
  | _ => None
  end.

Fixpoint first_nameserver (lines : list str) : option str :=
  match lines with
  | [] => None
  | line :: rest => match nameserver line with Some r => Some r | None => first_nameserver rest end
  end.

(** [systemUpstream]; the file may be unreadable. *)
Definition systemUpstream (resolv_conf : option str) : option str :=
  match resolv_conf with
  | None => None
  | Some b => first_nameserver (Split b [byte_of 10])
  end.

(** ** The embedded node *)

Record tsnet_server := mkTSNetServer {
  sr_Dir : str; sr_Hostname : str; sr_AuthKey : str; sr_ControlURL : str; sr_AdvertiseTags : list str }.

(** [newTSNet]; [TS_AUTHKEY] is the environment variable. *)
Definition newTSNet (TS_AUTHKEY : str) (c : config) : option tsnet_server :=
  let t := cf_TSNet c in
  if str_eqb (ts_Dir t) [] then None else
  let authKey := if str_eqb (ts_AuthKey t) [] then TS_AUTHKEY else ts_AuthKey t in
  let advertiseTags := if negb (str_eqb authKey []) then [] else ts_Tags t in
  Some (mkTSNetServer (ts_Dir t) (ts_Hostname t) authKey (ts_ControlURL t) advertiseTags).

(** A node that is up: its client's replies, its first address, whether it accepts
    subnet routes, the resolvers its DNS configuration lists, and the addresses it can
    listen on. *)
Record node := mkNode {
  nd_whoIs : Addr -> option tsWhoIs;
  nd_status : option tailnet_status;
  nd_IP : Addr;
  nd_AcceptRoutes : bool;
  nd_DNSConfig : option (list str);
  nd_ListenPacket : str -> bool;
}.

(** ** The world *)

Record world := mkWorld {
  wo_TS_AUTHKEY : str;
  wo_resolv_conf : option str;
  wo_daemon : str -> http;                    (* the daemon behind a socket *)
  wo_up : tsnet_server -> option node;        (* [server.Up] and [LocalClient] *)
  wo_ListenPacket : str -> bool;              (* [net.ListenPacket] on the host *)
  wo_resolve_udp : str -> bool;               (* [net.ResolveUDPAddr] *)
  wo_now : Time;
}.

Inductive startup (A : Type) := Fatal | Panicked | Started (a : A).
Arguments Fatal {A}.
Arguments Panicked {A}.
Arguments Started {A} _.

#[export] Instance startup_ret : MRet startup := fun A => Started.
#[export] Instance startup_bind : MBind startup := fun A B f m =>
  match m with Started a => f a | Fatal => Fatal | Panicked => Panicked end.

#[export] Instance startup_fmap : FMap startup := fun A B f m =>
  match m with Started a => Started (f a) | Fatal => Fatal | Panicked => Panicked end.

(** A step whose error is fatal. *)
Definition must_have {A} (o : option A) : startup A := match o with Some a => Started a | None => Fatal end.
Definition must_hold (b : bool) : startup unit := if b then Started tt else Fatal.

(** ** The transport *)

Record tailnetTransport := mkTransport {
  tt_Identity : Identity;
  tt_Nodes : option (list TaggedNode);   (* the inventory, when it is asked for *)
  tt_NodeConfig : option NodeConfig;     (* or its error *)
  tt_IP : Addr;
  tt_Server : option node;
}.

Definition openTailnetTransport `{RawJson} (w : world) (c : config) (mode : str) (needIP : bool) : startup tailnetTransport :=
  if str_eqb mode "tailscaled" then
    let http_get := wo_daemon w (cf_TailscaledSocket c) in
    let status := local_status http_get in
    let transport ip := mkTransport (LocalAPI (whoIs http_get)) (LocalAPI_TaggedNodes status)
                          (LocalAPI_NodeConfig status) ip None in
    if needIP then ip ← must_have (LocalAPI_TailscaleIP status); mret (transport ip)
    else mret (transport AddrZero)
  else
    server ← must_have (newTSNet (wo_TS_AUTHKEY w) c);
    n ← must_have (wo_up w server);
    match TSNet_NodeConfig (nd_status n) with
    | None => Panicked
    | Some nodeConfig =>
        mret (mkTransport (TSNetIdentity (nd_whoIs n)) (TSNet_TaggedNodes (nd_status n)) nodeConfig
                (if needIP then nd_IP n else AddrZero) (Some n))
    end.

(** [listenUDP], through the embedded node if there is one; [false] is its error. *)
Definition listenUDP (w : world) (t : tailnetTransport) (address : str) : bool :=
  match tt_Server t with
  | Some server => nd_ListenPacket server address
  | None => wo_ListenPacket w address
  end.

(** [mustAddr]. *)
Definition mustAddr (w : world) (s : str) : startup unit := must_hold (wo_resolve_udp w s).

(** ** The DNS role *)

(** [allocationStore]: the handle of the store, if one is configured. *)
Definition allocationStore `{HostSyntax, Disk} (sql_Open : driver -> str -> option handle) (w : world) (c : config)
  : startup (option handle) :=
  if negb (str_eqb (cf_Database c) []) then
    match OpenAllocationStore sql_Open (cf_Database c) (wo_now w) with
    | (Some _, h) => mret h
    | (None, _) => Fatal
    end
  else mret None.

Record dns_role `{Disk} := mkDnsRole {
  dr_Identity : Identity;
  dr_Nodes : option (list TaggedNode);
  dr_Service : Service;
  dr_Store : option handle;
  dr_Listen : str;
  dr_Upstream : str;
}.
#[global] Arguments mkDnsRole {_} _ _ _ _ _ _.

Definition runDNS `{HostSyntax, Disk, RawJson, FloatProduct} (sql_Open : driver -> str -> option handle)
  (w : world) (c : config) (transport : str) : startup dns_role :=
  tailnet ← openTailnetTransport w c transport true;
  nodeConfig ← must_have (tt_NodeConfig tailnet);
  '(gs, upstream) ← must_have (dnsGateways (systemUpstream (wo_resolv_conf w)) nodeConfig);
  store ← allocationStore sql_Open w c;
  let lease := if negb (str_eqb (cf_AllocationLease c) []) then default 0 (ParseDuration (cf_AllocationLease c)) else Hour in
  let s := mkService gs false [] (Some (mkLifecycle (bool_decide (is_Some store)) [] lease)) 0 in
  let listen := dnsListenAddress (cf_Listen c) (tt_IP tailnet) in
  must_hold (listenUDP w tailnet listen);;
  mustAddr w upstream;;
  mret (mkDnsRole (tt_Identity tailnet) (tt_Nodes tailnet) s store listen upstream).

(** ** The egress role *)

(** Where the PTR lookups go: the default resolver of the host, the configured one over
    the host's network, or resolvers in order over the network of an interface. *)
Inductive ptr_source :=
| DefaultResolver
| HostResolver (resolver : str)
| NodeResolvers (resolvers : list str) (interface : str).

Record egress_role := mkEgressRole {
  er_Identity : Identity;
  er_Service : Service;
  er_SystemResolver : option str;
  er_ResolverDial : option str;   (* the interface [resolverDialFor] was given *)
  er_PTR : ptr_source;
  er_Server : option node;        (* the embedded node, or the host's listener *)
}.

Definition gateway_service (gs : gmap str Gateway) : Service := mkService gs false [] None 0.

Definition runEgress `{RawJson} (w : world) (c : config) (transport : str) : startup egress_role :=
  let system := systemUpstream (wo_resolv_conf w) in
  if str_eqb transport "tailscaled" then
    tailnet ← openTailnetTransport w c transport false;
    '(resolver, systemResolver) ← must_have (egressBackendResolver system c (default NodeConfigZero (tt_NodeConfig tailnet)));
    gs ← must_have (egressGateways c resolver systemResolver);
    '(ptrResolver, configured) ← must_have (egressPTRResolver c);
    mret (mkEgressRole (tt_Identity tailnet) (gateway_service gs) system None
            (if configured : bool then HostResolver ptrResolver else DefaultResolver) None)
  else
    tailnet ← openTailnetTransport w c transport false;
    match tt_Server tailnet with
    | None => Panicked
    | Some server =>
        must_hold (nd_AcceptRoutes server);;
        upstreamResolverInterface ← must_have (egressUpstreamResolverInterface c);
        ptrResolverInterface ← must_have (egressPTRResolverInterface c);
        '(backendResolver, systemResolver) ← must_have (egressBackendResolver system c (default NodeConfigZero (tt_NodeConfig tailnet)));
        resolvers ← must_have (dnsResolvers c (nd_DNSConfig server));
        gs ← must_have (egressGateways c backendResolver systemResolver);
        mret (mkEgressRole (tt_Identity tailnet) (gateway_service gs) system (Some upstreamResolverInterface)
                (NodeResolvers resolvers ptrResolverInterface) (Some server))
    end.

(** ** [main] *)

Definition main `{HostSyntax, Disk, RawJson, FloatProduct} (sql_Open : driver -> str -> option handle)
  (load : str -> option json) (w : world) (args : list str) : startup (dns_role + egress_role) :=
  match parseCommand load args with
  | inl _ => Fatal
  | inr cmd =>
      if str_eqb (cm_Role cmd) "dns" then inl <$> runDNS sql_Open w (cm_Config cmd) (cm_Transport cmd)
      else inr <$> runEgress w (cm_Config cmd) (cm_Transport cmd)
  end.

(** ** Properties *)

(** The host's resolver is the first usable line. *)
Lemma systemUpstream_first b r :
  systemUpstream (Some b) = Some r <->
  exists before line after, Split b [byte_of 10] = before ++ line :: after /\
    Forall (fun l => nameserver l = None) before /\ nameserver line = Some r.
Proof.
  cbn. induction (Split b [byte_of 10]) as [|l ls IH]; cbn.
  { split; [done|]. intros ([|? ?] & ? & ? & ? & _); done. }
  destruct (nameserver l) as [r'|] eqn:E.
  - split.
    + intros [= <-]. exists [], l, ls. done.
    + intros ([|x before] & line & after & Eq & Hb & Hl); simplify_eq/=; [congruence|].
      apply Forall_cons in Hb as [Hx _]. congruence.
  - rewrite IH. split.
    + intros (before & line & after & -> & Hb & Hl). exists (l :: before), line, after. split_and!; [done|by constructor|done].
    + intros ([|x before] & line & after & Eq & Hb & Hl); simplify_eq/=.
      apply Forall_cons in Hb as [_ Hb]. eauto 10.
Qed.

Example resolv_conf_example :
  systemUpstream (Some ("# resolver" ++ [byte_of 10] ++ "nameserver 100.100.100.100" ++ [byte_of 10] ++
    "search lab" ++ [byte_of 10] ++ "nameserver" ++ [byte_of 9] ++ "fd00::53" ++ [byte_of 10])) = Some (lit "[fd00::53]:53").
Proof. by vm_compute. Qed.

(** With an auth key no tags are asked for. *)
Lemma newTSNet_tags env c server :
  newTSNet env c = Some server ->
  sr_AdvertiseTags server = (if str_eqb (sr_AuthKey server) [] then ts_Tags (cf_TSNet c) else []) /\
  sr_Dir server = ts_Dir (cf_TSNet c) /\ sr_Dir server <> [].
Proof.
  unfold newTSNet. destruct (str_eqb (ts_Dir _) []) eqn:Ed; [done|]. intros [= <-]. cbn.
  split_and!; [by destruct (str_eqb (if str_eqb _ [] then _ else _) [])|done|]. by apply bool_decide_eq_false_1 in Ed.
Qed.

Lemma bind_started {A B} (m : startup A) (f : A -> startup B) b :
  m ≫= f = Started b <-> exists a, m = Started a /\ f a = Started b.
Proof. destruct m; cbn; naive_solver. Qed.

Lemma bind_fatal {A B} (m : startup A) (f : A -> startup B) :
  m ≫= f = Fatal <-> m = Fatal \/ exists a, m = Started a /\ f a = Fatal.
Proof. destruct m; cbn; naive_solver. Qed.

Lemma must_have_started {A} (o : option A) a : must_have o = Started a <-> o = Some a.
Proof. destruct o; cbn; naive_solver. Qed.

Lemma must_have_fatal {A} (o : option A) : must_have o = Fatal <-> o = None.
Proof. destruct o; cbn; naive_solver. Qed.

Lemma must_hold_started b u : must_hold b = Started u <-> b = true.
Proof. destruct b, u; cbn; naive_solver. Qed.

Lemma must_hold_fatal b : must_hold b = Fatal <-> b = false.
Proof. destruct b; cbn; naive_solver. Qed.

Create Rewrite HintDb startup.
#[export] Hint Rewrite @must_have_started @must_have_fatal must_hold_started must_hold_fatal : startup.

(** The steps a started role went through. *)
Ltac startup_inv H :=
  lazymatch type of H with
  | (_ ≫= _) = Started _ =>
      let x := fresh "x" in let Hx := fresh "Hx" in
      apply bind_started in H as (x & Hx & H); autorewrite with startup in Hx;
      try (match type of x with (_ * _)%type => destruct x end); startup_inv H
  | mret _ = Started _ => injection H as <-
  | _ => idtac
  end.

(** The gateways a started egress role enforces. *)
Lemma runEgress_service `{RawJson} w c transport role :
  runEgress w c transport = Started role ->
  exists resolver system gs, egressGateways c resolver system = Some gs /\ er_Service role = gateway_service gs.
Proof.
  unfold runEgress. destruct (str_eqb transport "tailscaled"); intros Hr; startup_inv Hr; [by eauto|].
  destruct (tt_Server x); [|done]. startup_inv Hr. by eauto.
Qed.

(** What the checks of the command line leave for the start. *)
Lemma egress_config_parts c :
  egress_config_ok c = true -> forall resolver system,
  is_Some (egressGateways c resolver system) /\ is_Some (egressUpstreamResolverInterface c) /\
  is_Some (egressPTRResolverInterface c) /\ is_Some (egressPTRResolver c).
Proof.
  unfold egress_config_ok. intros H resolver system. bool_simp. split_and!; try done.
  destruct (egressGateways c [] false) as [gs|] eqn:E; [|by destruct H].
  apply egressGateways_policy in E as (e & ps & He & Hn & Hp & Hwf & _).
  eexists. apply egressGateways_policy. eauto 10.
Qed.

Lemma backend_some c nc system :
  egress_config_ok c = true ->
  (nc_HasUpstreamDNS nc = true -> is_Some (configuredResolver (nc_UpstreamDNS nc))) ->
  is_Some (egressBackendResolver (Some system) c nc).
Proof.
  intros Hok Hnc. unfold egressBackendResolver.
  assert (Hc : is_Some (configuredResolver (cf_UpstreamResolver c))) by (unfold egress_config_ok in Hok; by bool_simp).
  assert (Hr : is_Some (configuredResolver (if nc_HasUpstreamDNS nc then nc_UpstreamDNS nc else cf_UpstreamResolver c))).
  { destruct (nc_HasUpstreamDNS nc); [by apply Hnc|done]. }
  set (r := if nc_HasUpstreamDNS nc then _ else _) in *.
  destruct (str_eqb r []); [by eexists; vm_compute|]. destruct Hr as [r' ->]. by destruct (IsSystemResolver r').
Qed.

Lemma dnsResolvers_some c advertised e q :
  cf_Egress c = Some e -> egressPTRResolver c = Some q ->
  (eg_PTRResolver e <> [] \/ exists addrs addr, advertised = Some addrs /\ addr ∈ addrs /\ addr <> []) ->
  is_Some (dnsResolvers c advertised).
Proof.
  intros He Hq Hptr. unfold dnsResolvers. rewrite Hq. destruct q as [q []]; [done|].
  destruct Hptr as [Hne|(addrs & addr & -> & Hin & Hne)].
  - revert Hq. unfold egressPTRResolver. rewrite He, (str_eqb_false _ _ Hne).
    repeat case_match; intros; simplify_eq.
  - destruct addrs as [|a addrs]; [by apply not_elem_of_nil in Hin|].
    case_match eqn:El; [|done]. apply Nat.eqb_eq, nil_length_inv, fmap_nil_inv in El.
    assert (addr ∈ filter (fun addr => addr <> []) (a :: addrs)) as Hf by (by apply list_elem_of_filter).
    rewrite El in Hf. by apply not_elem_of_nil in Hf.
Qed.

(** With one gateway, the gateway of a destination is that one if it contains it. *)
Lemma single_gateway k g dst g' :
  gatewayForDestination (gateway_service {[ k := g ]}) dst = (g', true) ->
  g' = g /\ containsPrefix (Prefixes g) dst = true.
Proof.
  unfold gatewayForDestination. cbn [sv_Gateways gateway_service]. rewrite map_to_list_singleton. cbn.
  destruct (containsPrefix (Prefixes g) dst); cbn; [|done]. intros [= <- _]. done.
Qed.

Lemma single_handles k g dst :
  handles (gateway_service {[ k := g ]}) dst = containsPrefix (Prefixes g) dst.
Proof. unfold handles. cbn [sv_Gateways gateway_service]. rewrite map_to_list_singleton. cbn. apply orb_false_r. Qed.

Section main.
Context `{HS : HostSyntax, DK : Disk, RJ : RawJson, FP : FloatProduct}.
Context (sql_Open : driver -> str -> option handle) (load : str -> option json) (w : world).

Lemma main_egress args role :
  main sql_Open load w args = Started (inr role) ->
  exists cmd, parseCommand load args = inr cmd /\ cm_Role cmd = "egress" /\
    runEgress w (cm_Config cmd) (cm_Transport cmd) = Started role.
Proof.
  unfold main. destruct (parseCommand load args) as [|cmd] eqn:Ep; [done|].
  pose proof (cw_role _ (parseCommand_command_wf _ _ _ Ep)) as Hrole.
  destruct (str_eqb (cm_Role cmd) "dns") eqn:Ed.
  - by destruct (runDNS _ _ _ _).
  - destruct (runEgress _ _ _) eqn:Er; cbn; [done|done|]. intros [= <-]. exists cmd. split_and!; try done.
    destruct Hrole as [E|E]; [|done]. by rewrite E, str_eqb_refl in Ed.
Qed.

Lemma main_dns args role :
  main sql_Open load w args = Started (inl role) ->
  exists cmd, parseCommand load args = inr cmd /\ cm_Role cmd = "dns" /\
    runDNS sql_Open w (cm_Config cmd) (cm_Transport cmd) = Started role.
Proof.
  unfold main. destruct (parseCommand load args) as [|cmd] eqn:Ep; [done|].
  destruct (str_eqb (cm_Role cmd) "dns") eqn:Ed.
  - apply str_eqb_true in Ed. destruct (runDNS _ _ _ _) eqn:Er; cbn; [done|done|]. intros [= <-]. by exists cmd.
  - by destruct (runEgress _ _ _).
Qed.

(** C2: from the command line to a connection.  An egress process that comes up was
    given an accepted egress command; it owns exactly the ranges that command configures,
    a non-empty list of canonical and pairwise disjoint IPv4 prefixes, and the transport's
    identity answers for the policy.  Whatever resolvers and clients do from then on, a
    flow leads to a connection only if its destination lies in those ranges, has exactly
    one PTR name, and a grant for the flow with exactly those ranges allows that name at
    that port over TCP. *)
Theorem egress_end_to_end `{UnicodeTable, Database} args role :
  main sql_Open load w args = Started (inr role) ->
  exists cmd e ps,
    parseCommand load args = inr cmd /\ cm_Role cmd = "egress" /\ cf_Egress (cm_Config cmd) = Some e /\
    parse_ranges (eg_Ranges e) [] = Some ps /\ wf_ranges ps /\
    (forall dst, handles (er_Service role) dst = containsPrefix ps dst) /\
    forall ptr sysr dial lookup src dst port pr d address pr' d',
      run (serve_flow (H0 := er_Identity role) (er_Service role) ptr sysr dial lookup src dst port) pr d
        = (Some address, pr', d') ->
      containsPrefix ps dst = true /\
      exists name caps ip, ptr dst = Some [name] /\ Capabilities (Identity := er_Identity role) src dst = Some caps /\
        Authorize (Parse caps) ps (ToLower (TrimSuffix name ".")) "tcp" port = true /\
        address = JoinHostPort (AddrString ip) (Itoa port).
Proof.
  intros (cmd & Hp & Hrole & (resolver & system & gs & Hg & Hs)%runEgress_service)%main_egress.
  apply egressGateways_policy in Hg as (e & ps & He & _ & Hps & Hwf & ->).
  exists cmd, e, ps. rewrite Hs. split_and!; try done.
  { intros dst. apply single_handles. }
  intros ptr sysr dial lookup src dst port pr d address pr' d' Hrun.
  pose proof (counts_run _ _ pr d (serve_flow_counts (H0 := er_Identity role)
    (gateway_service {[ localEgressGatewayKey := mkGateway ps resolver system ]}) ptr sysr dial lookup src dst port)) as Hperm.
  rewrite Hrun in Hperm. destruct Hperm as (_ & _ & _ & Hperm).
  destruct (Hperm address eq_refl) as (name & caps & g & gw & pl & ip & ips & Hptr & Hn & _ & Hc & Hgd & Ha & _ & _ & _ & Hd).
  apply single_gateway in Hgd as [-> Hin]. split; [exact Hin|]. exists name, caps, ip. rewrite Hn in Ha. auto.
Qed.

(** The transport of the embedded node has it. *)
Lemma transport_server c mode needIP tailnet :
  openTailnetTransport w c mode needIP = Started tailnet ->
  if str_eqb mode "tailscaled" then tt_Server tailnet = None
  else exists n, tt_Server tailnet = Some n /\ tt_Identity tailnet = TSNetIdentity (nd_whoIs n).
Proof.
  unfold openTailnetTransport. destruct (str_eqb mode "tailscaled").
  - destruct needIP; intros Ht; startup_inv Ht; done.
  - intros Ht; startup_inv Ht. destruct (TSNet_NodeConfig (nd_status x0)); [|done]. startup_inv Ht. eauto.
Qed.


(** The store of a started DNS role. *)
Lemma allocationStore_ready c store :
  (forall d dsn h, sql_Open d dsn = Some h -> handle_closed h = false) ->
  allocationStore sql_Open w c = Started store ->
  (store = None <-> cf_Database c = []) /\
  forall h, store = Some h -> handle_closed h = false /\
    exists dr dsn h0, sql_Open dr dsn = Some h0 /\
      content h = NewTable (backfill (UnixNano (wo_now w + Hour)) (rows_of (content h0))).
Proof.
  intros Hopen. unfold allocationStore. destruct (str_eqb (cf_Database c) []) eqn:Ed; cbn [negb].
  { apply str_eqb_true in Ed. intros [= <-]. done. }
  unfold OpenAllocationStore. destruct (data_source (cf_Database c)) as [[dr dsn]|]; [|done].
  destruct (sql_Open dr dsn) as [h|] eqn:Eo; [|done].
  pose proof (open_handle_spec dr (wo_now w) h (Hopen _ _ _ Eo)) as [Hok _].
  destruct (open_handle dr (wo_now w) h) as [[] h2]; [|done]. intros [= <-].
  destruct (Hok eq_refl) as [Hc Ht]. split.
  - split; [done|]. intros E. by rewrite E, str_eqb_refl in Ed.
  - intros ? [= <-]. split; [done|]. by exists dr, dsn, h.
Qed.

(** A DNS process that comes up.  It was given an accepted DNS command and the node's
    configuration was valid; it owns no gateways; its lease is the configured duration or
    an hour, and positive; it has a store exactly when a database is configured, and then
    on an open handle to the migrated table; it passes queries on to the node's resolver,
    or to the host's when that is [system]. *)
Lemma dns_ready args role :
  (forall d dsn h, sql_Open d dsn = Some h -> handle_closed h = false) ->
  main sql_Open load w args = Started (inl role) ->
  exists cmd nc lc,
    parseCommand load args = inr cmd /\ cm_Role cmd = "dns" /\
    sv_Gateways (dr_Service role) = ∅ /\ sv_Lifecycle (dr_Service role) = Some lc /\
    (cf_AllocationLease (cm_Config cmd) = [] /\ l_Lease lc = Hour \/
     ParseDuration (cf_AllocationLease (cm_Config cmd)) = Some (l_Lease lc)) /\
    0 < l_Lease lc < 2 ^ 63 /\ l_Store lc = bool_decide (is_Some (dr_Store role)) /\
    (dr_Store role = None <-> cf_Database (cm_Config cmd) = []) /\
    (forall h, dr_Store role = Some h -> handle_closed h = false /\
       exists dr dsn h0, sql_Open dr dsn = Some h0 /\
         content h = NewTable (backfill (UnixNano (wo_now w + Hour)) (rows_of (content h0)))) /\
    (if IsSystemResolver (nc_UpstreamDNS nc) then systemUpstream (wo_resolv_conf w) = Some (dr_Upstream role)
     else dr_Upstream role = nc_UpstreamDNS nc) /\
    exists tailnet, openTailnetTransport w (cm_Config cmd) (cm_Transport cmd) true = Started tailnet /\
      tt_NodeConfig tailnet = Some nc /\ dr_Identity role = tt_Identity tailnet /\
      dr_Listen role = dnsListenAddress (cf_Listen (cm_Config cmd)) (tt_IP tailnet).
Proof.
  intros Hopen (cmd & Hp & Hrole & Hr)%main_dns.
  pose proof (cw_lease _ (parseCommand_command_wf _ _ _ Hp)) as Hlease.
  unfold runDNS in Hr. startup_inv Hr.
  pose proof (allocationStore_ready (cm_Config cmd) x1 Hopen Hx2) as [Hnone Hsome].
  eexists cmd, x0, _. cbn. split_and!; try done; cycle -1.
  { by exists x. }
  all: try (by unfold dnsGateways in Hx1; repeat case_match; simplify_eq).
  - destruct Hlease as [->|(d & Hd & _)]; [by left|]. right. rewrite Hd.
    destruct (cf_AllocationLease (cm_Config cmd)); [by vm_compute in Hd|done].
  - destruct Hlease as [->|(d & Hd & Hb)]; [by vm_compute|]. rewrite Hd. destruct (negb _); [cbn; lia|by vm_compute].
  - destruct Hlease as [->|(d & Hd & Hb)]; [by vm_compute|]. rewrite Hd. destruct (negb _); [cbn; lia|by vm_compute].
Qed.
End main.

(** ** A small deployment *)

(** A daemon with one address whose peers all hold one grant. *)
Definition sample_daemon (url : str) : option (Z * option json) :=
  if HasSuffix url "/status"
  then Some (200, Some (JObj [(lit "TailscaleIPs", JArr [JStr "100.64.0.2"])]))
  else Some (200, Some (JObj [(lit "CapMap", JObj [(Capability, JArr [JObj [
         (lit "range", JArr [JStr "10.254.0.0/24"; JStr "10.254.1.0/24"]);
         (lit "resources", JArr [JStr "app.example.com:443"])]])])])).

Definition sample_world : world :=
  mkWorld [] (Some (lit "nameserver 192.0.2.53")) (fun _ => sample_daemon) (fun _ => None)
    (fun _ => true) (fun _ => true) (10 ^ 18).

Definition no_special : HostSyntax := fun _ _ => None.
Definition no_raw : RawJson := fun _ => None.
Definition sample_open (d : driver) (dsn : str) : option (@handle memory_disk) := Some (legacy, false, []).

Definition sample_main (data : json) (args : list str) :=
  @main no_special memory_disk no_raw exact_product sample_open (only_config data) sample_world args.

Definition sample_egress : egress_role :=
  mkEgressRole (LocalAPI (whoIs sample_daemon))
    (gateway_service {[ localEgressGatewayKey := mkGateway
       [mkPrefix (Addr4 0x0AFE0000) 24; mkPrefix (Addr4 0x0AFE0100) 24] "192.0.2.53:53" true ]})
    (Some (lit "192.0.2.53:53")) None DefaultResolver None.

Lemma sample_egress_started : sample_main egress_file egress_args = Started (inr sample_egress).
Proof. unfold sample_main, main. rewrite egress_command_parsed. lazy zeta iota. reflexivity. Qed.

(** A flow of a peer that the deployment lets through. *)
Definition sample_flow (port : Z) :=
  (run (DB := table_db) (@serve_flow table_min (er_Identity sample_egress) (er_Service sample_egress)
     (fun _ => Some [lit "App.example.com."]) (Some (er_SystemResolver sample_egress)) false
     (fun _ => Some [AddrFrom4 192 0 2 80]) (AddrFrom4 100 64 0 5) (AddrFrom4 10 254 1 7) port) NewProcess ∅).1.1.

Example sample_flow_dials : sample_flow 443 = Some (lit "192.0.2.80:443") /\ sample_flow 80 = None.
Proof. by vm_compute. Qed.

Lemma egress_end_to_end_witness :
  exists caps, Capabilities (Identity := er_Identity sample_egress) (AddrFrom4 100 64 0 5) (AddrFrom4 10 254 1 7) = Some caps /\
    @Authorize (@Parse table_min caps) [mkPrefix (Addr4 0x0AFE0000) 24; mkPrefix (Addr4 0x0AFE0100) 24] "app.example.com" "tcp" 443 = true.
Proof.
  destruct (@egress_end_to_end no_special memory_disk no_raw exact_product sample_open (only_config egress_file) sample_world
    table_min table_db egress_args sample_egress sample_egress_started) as (cmd & e & ps & Hp & _ & He & Hps & _ & _ & Hflow).
  rewrite egress_command_parsed in Hp. injection Hp as <-. injection He as <-.
  assert (ps = [mkPrefix (Addr4 0x0AFE0000) 24; mkPrefix (Addr4 0x0AFE0100) 24]) as -> by (vm_compute in Hps; injection Hps as <-; reflexivity).
  assert (Hrun : sample_flow 443 = Some (lit "192.0.2.80:443")) by (by vm_compute).
  unfold sample_flow in Hrun. destruct (run _ _ _) as [[r pr'] d'] eqn:E. cbn in Hrun. subst r.
  destruct (Hflow _ _ _ _ _ _ _ _ _ _ _ _ E) as (_ & name & caps & ip & [= <-] & Hc & Ha & _).
  exists caps. split; [done|]. exact Ha.
Defined.


Definition dns_file : json :=
  JObj [(lit "database", JStr "sqlite:///var/lib/dgw.db"); (lit "allocation_lease", JStr "1h30m")].

Definition sample_dns : @dns_role memory_disk :=
  @mkDnsRole memory_disk (LocalAPI (whoIs sample_daemon)) (LocalAPI_TaggedNodes (local_status sample_daemon))
    (mkService ∅ false [] (Some (mkLifecycle true [] (5400 * 10 ^ 9))) 0)
    (Some (NewTable (backfill (10 ^ 18 + Hour) (rows_of legacy)), false, [])) "100.64.0.2:53" "192.0.2.53:53".

Lemma dns_command_parsed :
  parseCommand (H := exact_product) (only_config dns_file) [lit "dns"; lit "-mode=tailscaled"]
  = inr (mkCommand "dns" "tailscaled"
      (mkConfig [] [] [] "sqlite:///var/lib/dgw.db" "1h30m" [] [] None (mkTSNetConfig [] [] [] [] []))).
Proof. by vm_compute. Qed.

Lemma sample_dns_started : sample_main dns_file [lit "dns"; lit "-mode=tailscaled"] = Started (inl sample_dns).
Proof. unfold sample_main, main. rewrite dns_command_parsed. lazy zeta iota. reflexivity. Qed.
