(* ===== verification/Authority.v ===== *)
(** * The DNS authority

    The decision closure of [runDNS] in [cmd/domain-gateway/main.go]: reverse
    questions from the allocation authority, the [.tags] namespace from the tailnet
    inventory, everything else from the domain service; plugged into the wire server
    of [dnsudp] with the process's memory and database as its state. *)

From S2P Require Import Prelude GoStrings NetAddr Json Policy PolicySpec Alloc AllocSpec AllocCache.
From S2P Require Import DnsWire DnsWireSpec Tags Store StoreSpec Replicas Service ServiceSpec.

Definition decision (o : Outcome) : Decision := mkDecision o AddrZero [].

(** The last part of the closure: the domain service. *)
Definition decide_domain `{UnicodeTable, Identity} (s : Service) (now : Time) (source : Addr) (name : str)
  : prog Decision :=
  if negb (IsValid source) then mret (decision NoResponse) else
  '(ip, outcome) ← DNSAnswer s now source name;
  mret match outcome with
       | DNSSynthesized => mkDecision Address ip []
       | DNSUnavailable => decision Unavailable
       | DNSPassthrough => decision Passthrough
       end.

(** The tag namespace, then the domain service. *)
Definition decide_name `{UnicodeTable, Identity} (s : Service) (nodes : option (list TaggedNode)) (now : Time)
  (source : Addr) (question : Question) : prog Decision :=
  let '(ips, tagged) := ResolveTags (q_Name question) nodes in
  if tagged : bool then
    mret match (if q_Type question =? TypeA then ips else []) with
         | ip0 :: _ => match ParseAddr ip0 with
                       | Some ip => mkDecision Address ip []
                       | None => decision NoResponse
                       end
         | [] => decision NoResponse
         end
  else decide_domain s now source (q_Name question).

Definition decide `{UnicodeTable, Identity} (s : Service) (nodes : option (list TaggedNode)) (now : Time)
  (source : Addr) (question : Question) : prog Decision :=
  if q_Type question =? TypePTR then
    match ReverseIPv4 (q_Name question) with
    | (synthetic, true) =>
        '(mapping, found) ← PTRMapping s now synthetic;
        mret (if found : bool then mkDecision PTR AddrZero (m_Domain mapping) else decision PTR)
    | (_, false) => decide_name s nodes now source question
    end
  else decide_name s nodes now source question.

(** The closure as the server's [Decide], over the process and its database. *)
Definition authority `{UnicodeTable, Identity, Database} (s : Service) (nodes : option (list TaggedNode)) (now : Time)
  (st : Process * db) (source : Addr) (question : Question) : Decision * (Process * db) :=
  let '(dec, pr, d) := run (decide s nodes now source question) st.1 st.2 in (dec, (pr, d)).

(** ** A question and its reverse, on the wire *)

Lemma labels_bytes_total ls : length (labels_bytes ls) = sum_list ((fun l => S (length l)) <$> ls).
Proof.
  induction ls as [|l ls IH]; [done|]. rewrite labels_bytes_cons. cbn [length]. rewrite length_app, IH. done.
Qed.

Lemma split_total c s : sum_list ((fun l => S (length l)) <$> Split s [c]) = S (length s).
Proof.
  induction s as [|a s IH]; [done|]. rewrite split_char_cons.
  destruct (Ascii.eqb a c); cbn in *; [lia|].
  destruct (Split s [c]); cbn in *; lia.
Qed.

(** A name of [k] bytes takes at most [k + 2] bytes on the wire. *)
Lemma encodeName_length name : (length (encodeName name) <= length name + 2)%nat.
Proof.
  unfold encodeName. rewrite length_app. fold (labels_bytes (Split (TrimSuffix name ".") ".")).
  rewrite labels_bytes_total. change ("." : str) with ["."%char]. rewrite split_total.
  assert (length (TrimSuffix name ["."%char]) <= length name)%nat; [|cbn; lia].
  unfold TrimSuffix. case_match; [|lia]. rewrite length_take. lia.
Qed.

(** A header a plain query carries: one question and no records. *)
Record plain (h : list byte) : Prop := {
  plain_length : length h = 12%nat;
  plain_qd : u16 h 4 = Some 1;
  plain_an : u16 h 6 = Some 0;
  plain_ns : u16 h 8 = Some 0;
  plain_ar : u16 h 10 = Some 0;
}.

Definition reverse_of (v : Z) : str := reverse_name (octet v 3) (octet v 2) (octet v 1) (octet v 0).

Lemma Itoa_label n : 0 <= n < 256 -> (1 <= length (Itoa n) <= 63)%nat.
Proof. apply (forall_below (fun n => (1 <= length (Itoa n) <= 63)%nat) 256). by vm_compute. Qed.

Lemma reverse_of_labels v : Forall label_ok (Split (TrimSuffix (reverse_of v) ".") ".").
Proof.
  assert (Hsplit : Split (reverse_of v) ["."%char] =
    [Itoa (octet v 0); Itoa (octet v 1); Itoa (octet v 2); Itoa (octet v 3); lit "in-addr"; lit "arpa"]).
  { apply split_join_char; [done|].
    rewrite !Forall_cons. split_and!; try (by apply octet_text_free); [..|by constructor];
      apply has_byte_false; by vm_compute. }
  rewrite TrimSuffix_id.
  - change ("." : str) with ["."%char]. rewrite Hsplit.
    rewrite !Forall_cons. unfold label_ok.
    split_and!; try (by apply Itoa_label, octet_bound); [cbn; lia..|by constructor].
  - intros s0 Hs. change ("." : str) with ["."%char] in Hs.
    rewrite Hs, split_char_mid in Hsplit. apply (f_equal last) in Hsplit.
    rewrite last_app, split_char_nil in Hsplit. done.
Qed.

Lemma reverse_of_trim v : TrimSuffix (reverse_of v) "." = reverse_of v.
Proof.
  apply TrimSuffix_id. intros s0 Hs. apply (f_equal last) in Hs.
  unfold reverse_of, reverse_name in Hs. cbn [Join] in Hs. rewrite !app_assoc, !last_app in Hs. done.
Qed.

Lemma ReverseIPv4_reverse_of `{UnicodeTable} v : 0 <= v < 2 ^ 32 -> ReverseIPv4 (reverse_of v) = (Addr4 v, true).
Proof.
  intros Hv. pose proof (ReverseIPv4_round_trip (octet v 3) (octet v 2) (octet v 1) (octet v 0) []
    (octet_bound _ _) (octet_bound _ _) (octet_bound _ _) (octet_bound _ _) ltac:(by left)) as Hr.
  rewrite app_nil_r in Hr. fold (reverse_of v) in Hr. unfold AddrFrom4 in Hr. by rewrite octets_value in Hr.
Qed.

Lemma query_parse h name t :
  plain h -> Forall label_ok (Split (TrimSuffix name ".") ".") -> 0 <= t < 65536 ->
  parseQuestion (query h name t) =
    Some (mkQuestion (TrimSuffix name ".") t, (12 + length (encodeName name) + 4)%nat, true) /\
  u16 (query h name t) 6 = Some 0 /\ u16 (query h name t) 8 = Some 0 /\ u16 (query h name t) 10 = Some 0.
Proof.
  intros [Hl Hq H6 H8 H10] Hls Ht. unfold query. split.
  - rewrite <-(parse_encodeName h name t 1 [] Hl Hq Ht ltac:(lia) Hls). by rewrite app_nil_r.
  - by rewrite !u16_prefix by lia.
Qed.

Section wire.
Context `{UT : UnicodeTable, DB : Database, RL : !Reliable, ID : Identity} (s : Service).
Context (Hstore : l_Store (lifecycle s) = true).

Abbreviation L := (lease (lifecycle s)).

Lemma decide_address_wp nodes now source name n rs pr d :
  time_ok L now -> table_ok L now (table d) -> proc_ok L now (table d) pr ->
  IsValid source = true -> (ResolveTags name nodes).2 = false ->
  pool_for s source name = Some (n, rs) ->
  wp (decide s nodes now source (mkQuestion name TypeA))
    (fun dec pr' t' => kept L now (table d) pr' t' /\
       ((exists v, dec = mkDecision Address (Addr4 v) [] /\ v ∈ pool rs /\
           served L now t' (rangeKey rs) n (Addr4 v)) \/
        (dec = decision Unavailable /\
         forall v, v ∈ pool rs -> exists k, k <> (rangeKey rs, n) /\ live_row (table d) now k (Addr4 v)))) pr d.
Proof.
  intros Ht Hok Hp Hsrc Htag Hpool. unfold decide, decide_name. cbn [q_Type q_Name].
  change (TypeA =? TypePTR) with false. cbn iota.
  destruct (ResolveTags name nodes) as [ips tagged]. cbn in Htag. subst tagged.
  unfold decide_domain. rewrite Hsrc. cbn [negb].
  eapply wp_bind; [by apply DNSAnswer_wp|]. cbv beta.
  intros r pr' d' [Hk [(v & -> & Hv & Hsv)|[-> Hfull]]]; apply wp_ret; (split; [done|]); [left|right]; eauto.
Qed.

Lemma decide_reverse nodes now now' source g n v pr d :
  time_ok L now' -> now <= now' <= now + (L - renewalDebounce) ->
  table_ok L now (table d) -> proc_ok L now (table d) pr -> 0 <= v < 2 ^ 32 ->
  served L now (table d) g n (Addr4 v) ->
  (run (decide s nodes now' source (mkQuestion (reverse_of v) TypePTR)) pr d).1.1
    = mkDecision PTR AddrZero n.
Proof.
  intros Ht Hn Hok Hp Hv Hsv. unfold decide. cbn [q_Type q_Name].
  change (TypePTR =? TypePTR) with true. cbn iota.
  rewrite ReverseIPv4_reverse_of by done.
  assert (Hlook : (run (PTRMapping s now' (Addr4 v)) pr d).1.1 = (mkMapping g n, true)).
  { eapply served_lookup; eauto. by exists v. }
  rewrite run_bind. destruct (run (PTRMapping _ _ _) pr d) as [[r pr'] d']. cbn in Hlook. by subst r.
Qed.
End wire.

Lemma pool_for_valid `{UnicodeTable, Identity} s source name n rs :
  pool_for s source name = Some (n, rs) -> validName n = true.
Proof.
  unfold pool_for. destruct (fromGateway s source); [done|].
  destruct (NormalName name) as [n' []] eqn:E; [|done]. apply NormalName_valid in E.
  destruct (Capabilities source AddrZero) as [caps|]; [|done].
  destruct (RangesForName (Parse caps) n') as [rs' []]; [|done]. by intros [= <- <-].
Qed.

Lemma valid_name_decision o ip n : validName n = true -> (IsValid ip = true -> Is4 ip = true) ->
  decision_ok (mkDecision o ip n).
Proof.
  intros Hv Hip. split; [done|]. cbn. pose proof (encodeName_length n) as Hl.
  unfold validName in Hv. bool_simp. lia.
Qed.

(** A decision with records, as the reply of a plain query. *)
Lemma respond_answer {St} (dcd : St -> Addr -> Question -> Decision * St) st st' h name t source dec rc rrs :
  plain h -> Forall label_ok (Split (TrimSuffix name ".") ".") -> 0 <= t < 65536 ->
  dcd st (sourceIP source) (mkQuestion (TrimSuffix name ".") t) = (dec, st') ->
  decision_ok dec -> decision_records dec (mkQuestion (TrimSuffix name ".") t) = Some (rc, rrs) ->
  exists response,
    Respond (Some dcd) st (query h name t) source = Some (Some response, false, st') /\
    read_reply response = reply_to (query h name t) (mkQuestion (TrimSuffix name ".") t) rc rrs.
Proof.
  intros Hh Hls Ht Hd Hok Hrec. destruct (query_parse h name t Hh Hls Ht) as (Hp & H6 & H8 & H10).
  destruct (Respond_reply dcd st st' _ source _ _ dec Hp H6 H8 H10 Hd Hok) as (r & Hr & Hread).
  rewrite Hrec in Hread. destruct r as [response|]; [|done]. cbn in Hread. simplify_eq.
  exists response. split; [|done]. rewrite Hr. do 2 f_equal. f_equal.
  apply bool_decide_eq_false_2. intros Ho. unfold decision_records in Hrec. by rewrite Ho in Hrec.
Qed.

(** A plain A query for [name] is answered on the wire.  Either the reply holds one A
    record with an address [v] of the pool [rs], and for a lease less the renewal interval
    the PTR query for [v], whoever sends it, is answered with the name [n]; or other names
    hold the whole pool and the reply is SERVFAIL.  Nothing is forwarded. *)
Definition answered_on_the_wire `{UT : UnicodeTable, DB : Database, ID : Identity}
    s nodes now h name source n rs pr d : Prop :=
  let request := query h name TypeA in
  let q := mkQuestion (TrimSuffix name ".") TypeA in
  exists response st',
    Respond (Some (authority s nodes now)) (pr, d) request source = Some (Some response, false, st') /\
    ((exists v, v ∈ pool rs /\
        read_reply response = reply_to request q 0 [mkRR TypeA 1 600 (be_bytes 4 v)] /\
        forall now' nodes' h' source',
          time_ok (lease (lifecycle s)) now' ->
          now <= now' <= now + (lease (lifecycle s) - renewalDebounce) -> plain h' ->
          exists response' st'',
            Respond (Some (authority s nodes' now')) st' (query h' (reverse_of v) TypePTR) source'
              = Some (Some response', false, st'') /\
            read_reply response' =
              reply_to (query h' (reverse_of v) TypePTR) (mkQuestion (reverse_of v) TypePTR) 0
                [mkRR TypePTR 1 600 (encodeName n)]) \/
     (read_reply response = reply_to request q 2 [] /\
      forall v, v ∈ pool rs -> exists k, k <> (rangeKey rs, n) /\ live_row (table d) now k (Addr4 v))).

Section wire.
Context `{UT : UnicodeTable, DB : Database, RL : !Reliable, ID : Identity}.

Lemma authority_answers s nodes now h name source n rs pr d :
  l_Store (lifecycle s) = true -> time_ok (lease (lifecycle s)) now ->
  table_ok (lease (lifecycle s)) now (table d) -> proc_ok (lease (lifecycle s)) now (table d) pr ->
  plain h -> Forall label_ok (Split (TrimSuffix name ".") ".") ->
  IsValid (sourceIP source) = true -> (ResolveTags (TrimSuffix name ".") nodes).2 = false ->
  pool_for s (sourceIP source) (TrimSuffix name ".") = Some (n, rs) ->
  answered_on_the_wire s nodes now h name source n rs pr d.
Proof.
  intros Hs Ht Hok Hp Hh Hls Hsrc Htag Hpool. unfold answered_on_the_wire. set (request := query h name TypeA).
  set (q := mkQuestion (TrimSuffix name ".") TypeA).
  pose proof (pool_for_valid _ _ _ _ _ Hpool) as Hvn. pose proof (pool_for_wf _ _ _ _ _ Hpool) as Hrs.
  pose proof (decide_address_wp s Hs nodes now _ _ n rs pr d Ht Hok Hp Hsrc Htag Hpool) as Hw.
  unfold wp in Hw. destruct (run _ pr d) as [[dec pr'] d'] eqn:Hrun.
  assert (Hauth : authority s nodes now (pr, d) (sourceIP source) q = (dec, (pr', d'))).
  { unfold authority. cbn [fst snd]. unfold q. by rewrite Hrun. }
  destruct Hw as [(Hok' & _ & Hp') [(v & -> & Hv & Hsv)|[-> Hfull]]].
  - destruct (respond_answer (authority s nodes now) (pr, d) (pr', d') h name TypeA source
      _ 0 [mkRR TypeA 1 600 (be_bytes 4 v)] Hh Hls ltac:(by vm_compute) Hauth) as (r & Hr & Hread);
      [by split; vm_compute|done|].
    exists r, (pr', d'). split; [done|]. left. exists v. split_and!; [done|done|].
    intros now' nodes' h' source' Ht' Hn Hh'.
    pose proof (pool_bound rs ltac:(apply Hrs)) as Hb. rewrite Forall_forall in Hb.
    pose proof (decide_reverse s Hs nodes' now now' (sourceIP source') _ n v pr' d' Ht' Hn Hok' Hp' (Hb v Hv) Hsv) as Hdec.
    destruct (authority s nodes' now' (pr', d') (sourceIP source') (mkQuestion (reverse_of v) TypePTR))
      as [dec' st''] eqn:Ea.
    assert (dec' = mkDecision PTR AddrZero n) as ->.
    { unfold authority in Ea. cbn [fst snd] in Ea. destruct (run _ pr' d') as [[dec2 pr2] d2]. cbn in Hdec. congruence. }
    destruct (respond_answer (authority s nodes' now') (pr', d') st'' h' (reverse_of v) TypePTR source'
      (mkDecision PTR AddrZero n) 0 [mkRR TypePTR 1 600 (encodeName n)] Hh' (reverse_of_labels v)
      ltac:(by vm_compute)) as (r' & Hr' & Hread').
    + by rewrite reverse_of_trim.
    + by apply valid_name_decision.
    + unfold decision_records. cbn [d_Outcome d_PTRName]. destruct (str_eqb n []) eqn:En; [|done].
      apply str_eqb_true in En as ->. done.
    + rewrite reverse_of_trim in Hread'. by exists r', st''.
  - destruct (respond_answer (authority s nodes now) (pr, d) (pr', d') h name TypeA source
      _ 2 [] Hh Hls ltac:(by vm_compute) Hauth) as (r & Hr & Hread); [by split; vm_compute|done|].
    exists r, (pr', d'). split; [done|]. by right.
Qed.
End wire.

(** C1: the whole authority on the wire, in any coherent state of process and database.
    A client that may resolve a name sends a plain A query for it.  Either it reads a
    reply with one A record whose address is in the authorised pool, and from then on,
    for a lease less the renewal interval, anyone who sends the PTR query for that
    address reads a reply with one PTR record holding the normalised name; or other names
    hold the whole pool and it reads SERVFAIL.  The query is never forwarded upstream. *)
Theorem authority_on_the_wire `{UT : UnicodeTable, DB : Database, RL : !Reliable, ID : Identity}
    s nodes now h name source n rs pr d :
  l_Store (lifecycle s) = true -> time_ok (lease (lifecycle s)) now ->
  table_ok (lease (lifecycle s)) now (table d) -> proc_ok (lease (lifecycle s)) now (table d) pr ->
  plain h -> Forall label_ok (Split (TrimSuffix name ".") ".") ->
  IsValid (sourceIP source) = true -> (ResolveTags (TrimSuffix name ".") nodes).2 = false ->
  pool_for s (sourceIP source) (TrimSuffix name ".") = Some (n, rs) ->
  answered_on_the_wire s nodes now h name source n rs pr d.
Proof. apply authority_answers. Qed.

Lemma plain_header_plain : plain plain_header.
Proof. by split; vm_compute. Qed.

Lemma authority_on_the_wire_witness :
  exists response st',
    Respond (Some (@authority table_min lab_identity table_db (lab_service sql_lifecycle) (Some []) noon))
      (NewProcess, ∅) (query plain_header "App.example.com." TypeA) (UDPAddr (be_bytes 4 1681915909))
    = Some (Some response, false, st').
Proof.
  destruct (@authority_on_the_wire table_min table_db _ lab_identity (lab_service sql_lifecycle) (Some []) noon
    plain_header "App.example.com." (UDPAddr (be_bytes 4 1681915909)) "app.example.com" lab NewProcess ∅)
    as (response & st' & H & _).
  - reflexivity.
  - apply noon_ok.
  - apply table_ok_empty.
  - apply proc_ok_new.
  - apply plain_header_plain.
  - vm_compute. repeat constructor.
  - reflexivity.
  - by vm_compute.
  - by vm_compute.
  - by exists response, st'.
Defined.
