(* ===== verification/Deployment.v ===== *)
(** * A DNS process from its command line to the wire

    [main], [runDNS] and [OpenAllocationStore] put together with the authority they serve:
    what a client reads from a DNS process that was started on the table of an earlier
    run, or of an earlier release.  The handle of the store and the database behind it are
    related by their content only. *)

From S2P Require Import Prelude GoStrings GoTime NetAddr Json Policy PolicySpec Alloc AllocSpec AllocCache.
From S2P Require Import DnsWire DnsWireSpec Tags Store StoreSpec Replicas Url OpenStore Service ServiceSpec.
From S2P Require Import Egress Command LocalApi TSNet Startup Authority.

(** What earlier runs with leases up to [L] left in a table, the expiry column possibly
    missing: unique IPv4 addresses of the pools the keys name. *)
Record earlier_rows (L : Z) (now : Time) (t : Table) : Prop := {
  er_unique : forall k k' ip e e', t !! k = Some (ip, e) -> t !! k' = Some (ip, e') -> k = k';
  er_rows : forall k ip e, t !! k = Some (ip, e) -> nul_free k.1 /\
    (exists v, ip = AddrString (Addr4 v) /\ 0 <= v < 2 ^ 32 /\ owns k.1 v) /\ forall x, e = Some x -> x <= now + L;
}.

Section deployment.
Context `{HS : HostSyntax, DK : Disk, RJ : RawJson, FP : FloatProduct}.
Context (sql_Open : driver -> str -> option handle) (load : str -> option json) (w : world).

End deployment.

(** ** A deployment on the table of an earlier release *)

Lemma legacy_earlier : earlier_rows (5400 * 10 ^ 9) (10 ^ 18) (rows_of legacy).
Proof.
  assert (Hl : forall k row, rows_of legacy !! k = Some row ->
            k = (lit "10.254.0.0/30", lit "a.lab") /\ row = (lit "10.254.0.1", None)).
  { intros k row. cbn [rows_of legacy]. unfold add_expires. rewrite map_fmap_singleton, lookup_singleton_Some. naive_solver. }
  split.
  - intros k k' ip e e' [-> _]%Hl [-> _]%Hl. done.
  - intros k ip e [-> [= -> ->]]%Hl. split_and!; [| |done].
    + by apply (bool_decide_unpack _); vm_compute.
    + exists 184418305. split; [by vm_compute|]. split; [lia|].
      exists [mkPrefix (Addr4 184418304) 30]. split_and!; [by repeat constructor; vm_compute|by vm_compute|].
      by apply (bool_decide_unpack _); vm_compute.
Qed.

