(* ===== verification/Memory.v ===== *)
(** * Allocations in memory

    [AllocationLifecycle] of [internal/domain/state.go] without a store: the allocator is
    the authority.  Its requests are programs of critical sections; here each is shown
    safe among the others, whatever the interleaving, against the book of names that the
    allocator represents ([AllocSpec]). *)

From S2P Require Import Prelude GoStrings NetAddr Policy PolicySpec Alloc AllocSpec AllocCache Store.

(** ** Books that grow *)

(** Names are only ever added, at the end of their pool. *)
Definition book_le (b b' : book) : Prop := forall g, names_of b g `prefix_of` names_of b' g.

#[export] Instance book_le_preorder : PreOrder book_le.
Proof. split; [by intros b g|]. intros b1 b2 b3 H1 H2 g. transitivity (names_of b2 g); [apply H1|apply H2]. Qed.

Lemma assigned_le G b b' g n v : book_le b b' -> assigned G b g n v -> assigned G b' g n v.
Proof.
  intros Hle (ps & i & Hg & Hn & Hv). exists ps, i. split_and!; [done| |done].
  destruct (Hle g) as [l ->]. by apply lookup_app_l_Some.
Qed.

Lemma spec_allocate_le b g ps n : book_le b (spec_allocate b g ps n).2.
Proof.
  unfold spec_allocate. destruct (list_find _ _) as [[i y]|]; [done|].
  destruct (pool ps !! _) as [v|]; [|done]. cbn. intros h. unfold names_of at 2.
  destruct (decide (h = g)) as [->|Hne]; [rewrite lookup_insert_eq; apply prefix_app_r; done|].
  by rewrite lookup_insert_ne.
Qed.

Lemma spec_allocate_names (P : str -> Prop) b g ps n :
  P n -> (forall h m, m ∈ names_of b h -> P m) -> forall h m, m ∈ names_of (spec_allocate b g ps n).2 h -> P m.
Proof.
  intros HP Hb h m. unfold spec_allocate. destruct (list_find _ _) as [[i y]|]; [apply Hb|].
  destruct (pool ps !! _) as [v|]; [|apply Hb]. cbn. unfold names_of at 1. destruct (decide (h = g)) as [->|Hne].
  - rewrite lookup_insert_eq. cbn. rewrite elem_of_app, list_elem_of_singleton. intros [Hm| ->]; [by eapply Hb|done].
  - rewrite lookup_insert_ne by done. apply Hb.
Qed.

Section memory.
Context (G : gmap str (list Prefix)) (HG : pools_ok G).
(** What is known of the names that are asked for. *)
Context (P : str -> Prop).

(** The allocator is a book of such names. *)
Record keeps (b : book) (a : Allocator) : Prop := {
  ke_book : represents G b a;
  ke_names : forall g n, n ∈ names_of b g -> P n;
}.

Lemma keeps_new : keeps ∅ NewAllocator.
Proof. split; [apply represents_new|]. intros g n. unfold names_of. rewrite lookup_empty. cbn. by rewrite elem_of_nil. Qed.

(** [p] runs no statement, every critical section of it keeps the allocator a book and
    only adds names, and it ends with [Q], whatever other threads do in between. *)
Fixpoint msafe {A} (p : prog A) (Q : A -> book -> Prop) (b : book) : Prop :=
  match p with
  | Ret a => Q a b
  | Sql _ _ => False
  | Mem f k => forall b1 pr, book_le b b1 -> keeps b1 (p_alloc pr) ->
      exists b2, book_le b1 b2 /\ keeps b2 (p_alloc (f pr).2) /\ msafe (k (f pr).1) Q b2
  end.

Definition mstable {A} (Q : A -> book -> Prop) : Prop := forall a b b', book_le b b' -> Q a b -> Q a b'.

Lemma msafe_le {A} (p : prog A) Q b b' : mstable Q -> book_le b b' -> msafe p Q b -> msafe p Q b'.
Proof.
  intros HQ Hle. destruct p as [a|B s k|B f k]; cbn; [by apply HQ|done|].
  intros H b1 pr Hb1. apply H. by etrans.
Qed.

Lemma msafe_mono {A} (p : prog A) (Q Q' : A -> book -> Prop) b :
  (forall a b', Q a b' -> Q' a b') -> msafe p Q b -> msafe p Q' b.
Proof.
  intros HQ. revert b. induction p as [a|B s k IH|B f k IH]; intros b; cbn; [auto|done|].
  intros H b1 pr Hle Hr. destruct (H b1 pr Hle Hr) as (b2 & ? & ? & ?). exists b2. auto.
Qed.

Lemma msafe_bind {A B} (p : prog A) (f : A -> prog B) (R : A -> book -> Prop) Q b :
  msafe p R b -> (forall a b1, book_le b b1 -> R a b1 -> msafe (f a) Q b1) -> msafe (p ≫= f) Q b.
Proof.
  revert b. induction p as [a|C s k IH|C g k IH]; intros b Hp Hf; cbn in *; [by apply Hf|done|].
  intros b1 pr Hle Hr. destruct (Hp b1 pr Hle Hr) as (b2 & Hle2 & Hr2 & Hk). exists b2. split_and!; [done..|].
  apply IH; [done|]. intros a b3 Hle3. apply Hf. etrans; [done|]. by etrans.
Qed.

(** A critical section that leaves the allocator as it is. *)
Lemma msafe_read {A B} (g : Allocator -> B) (h : Allocator -> Allocator) (k : B -> prog A) Q b :
  (forall b1 a, book_le b b1 -> keeps b1 a -> h a = a /\ msafe (k (g a)) Q b1) ->
  msafe (x ← cache (fun a => (g a, h a)); k x) Q b.
Proof.
  intros H b1 pr Hle Hr. exists b1. cbn. destruct (H b1 (p_alloc pr) Hle Hr) as [-> Hk].
  split_and!; [done| |done]. by destruct pr.
Qed.

(** The address of a name of a pool. *)
Definition holds (g n : str) (ip : Addr) (b : book) : Prop := exists v, ip = Addr4 v /\ assigned G b g n v.

Lemma holds_le g n ip b b' : book_le b b' -> holds g n ip b -> holds g n ip b'.
Proof. intros Hle (v & -> & Ha). exists v. split; [done|]. by eapply assigned_le. Qed.

Lemma represents_key b a g ps n ip :
  represents G b a -> G !! g = Some ps -> byKey a !! akey g n = Some ip -> holds g n ip b.
Proof.
  intros Hr Hg Hk. apply (rep_key_spec G HG b a g ps n ip Hr Hg) in Hk as (i & v & Hn & Hv & ->).
  exists v. split; [done|]. by exists ps, i.
Qed.

Lemma cacheKeyLive_msafe g ps n now b :
  G !! g = Some ps -> msafe (cacheKeyLive g n now) (fun r b => r.2 = true -> holds g n r.1 b) b.
Proof.
  intros Hg. apply (msafe_read (fun a => LookupKey a g n) (fun a => a)). intros b1 a Hle Hr. split; [done|].
  unfold LookupKey. destruct (byKey a !! akey g n) as [ip|] eqn:Ek; [|done]. cbn [negb].
  pose proof (represents_key _ _ _ _ _ _ (ke_book _ _ Hr) Hg Ek) as Hh.
  intros b2 pr Hle2 Hr2. exists b2. split; [done|]. cbn.
  pose proof (LookupLive_no_expiry (p_alloc pr) ip now (rep_expires _ _ _ (ke_book _ _ Hr2))) as E.
  destruct (LookupLive (p_alloc pr) ip now) as [[m ok] a']. cbn in *. subst a'. split; [by destruct pr|].
  intros _. by eapply holds_le.
Qed.

Lemma cacheAllocate_msafe g ps n b :
  G !! g = Some ps -> P n -> msafe (cacheAllocate g ps n) (fun r b => r.2 = None -> holds g n r.1 b) b.
Proof.
  intros Hg HP. apply (msafe_read (fun a => AllocateRead a g n) (fun a => a)). intros b1 a Hle Hr. split; [done|].
  unfold AllocateRead. destruct (byKey a !! akey g n) as [ip|] eqn:Ek.
  { cbn. intros _. by eapply represents_key; [apply Hr|..]. }
  intros b2 pr Hle2 Hr2. exists (spec_allocate b2 g ps n).2. split; [apply spec_allocate_le|]. cbn.
  pose proof (locked_refines G HG b2 (p_alloc pr) g ps n (ke_book _ _ Hr2) Hg) as [_ Hr3].
  pose proof (spec_allocate_names P b2 g ps n HP (ke_names _ _ Hr2)) as Hn3.
  pose proof (AllocateLocked_result (p_alloc pr) g ps n) as Hres.
  destruct (AllocateLocked (p_alloc pr) g ps n) as [[ip|] a']; cbn in *; (split; [by split; destruct pr|]); [|done].
  intros _. eapply represents_key; [done..|]. by apply Hres.
Qed.

(** A reverse lookup. *)
Lemma cacheLookup_msafe ip b :
  msafe (cache (fun a => (Lookup a ip, a))) (fun r b => r.2 = true -> holds (m_Gateway r.1) (m_Domain r.1) ip b) b.
Proof.
  intros b1 pr Hle Hr. exists b1. split; [done|]. cbn. split; [by destruct pr|]. unfold Lookup.
  destruct (byIP (p_alloc pr) !! ip) as [m|] eqn:E; [|done]. cbn. intros _. by apply (rep_ip G b1 _ (ke_book _ _ Hr)) in E.
Qed.

(** Two names that are held: the same address exactly when they are the same name. *)
Lemma holds_agree b a g n ip g' n' ip' :
  represents G b a -> holds g n ip b -> holds g' n' ip' b -> ip = ip' <-> (g, n) = (g', n').
Proof.
  intros Hr (v & -> & Ha) (v' & -> & Ha'). split.
  - intros [= <-]. assert (E1 : byIP a !! Addr4 v = Some (mkMapping g n)) by (apply (rep_ip G b a Hr); eauto).
    assert (E2 : byIP a !! Addr4 v = Some (mkMapping g' n')) by (apply (rep_ip G b a Hr); eauto). congruence.
  - intros [= <- <-]. assert (E1 : byKey a !! akey g n = Some (Addr4 v)) by (apply (rep_key G b a Hr); eauto 10).
    assert (E2 : byKey a !! akey g n = Some (Addr4 v')) by (apply (rep_key G b a Hr); eauto 10). congruence.
Qed.

Lemma holds_pool b g ps n ip : G !! g = Some ps -> holds g n ip b -> exists v, ip = Addr4 v /\ v ∈ pool ps.
Proof.
  intros Hg (v & -> & ps' & i & Hg' & _ & Hv). simplify_eq. exists v. split; [done|]. by eapply list_elem_of_lookup_2.
Qed.
End memory.
