(* ===== verification/Backing.v ===== *)
(** * What decisions rest on

    The DNS role keeps its allocations in a SQL database shared by replicas or in the
    memory of one process.  [Backing] is what the servers rely on in either case: which
    addresses names have, that programs of the allocation lifecycle are safe among others,
    and what they return.  [store_backing] discharges it with the statement-level results
    of [Converge], [memory_backing] with those of [Memory]. *)

From S2P Require Import Prelude GoStrings NetAddr Json Policy PolicySpec Alloc AllocSpec AllocCache.
From S2P Require Import Store StoreSpec Replicas Converge Memory Service ServiceSpec Authority.

(** ** The interface *)

(** [world] is what one replica's decisions rest on and [grows] how it may change;
    [row w k ip] says that [k], a pool's key and a name, has the address [ip]; [kept]
    relates the worlds of the replicas to the database and the processes; [guarded p Q w]
    says that [p] keeps this relation at each of its steps and ends with [Q], whatever
    other threads do in between. *)
Class Backing `{UT : UnicodeTable, DB : Database} (s : Service) (first last : Time) (identity : nat -> Identity) := {
  world : Type;
  grows : relation world;
  grows_preorder :: PreOrder grows;
  row : world -> str * str -> Addr -> Prop;
  kept : (nat -> world) -> db -> (nat -> Process) -> Prop;
  guarded : forall A, prog A -> (A -> world -> Prop) -> world -> Prop;

  row_grows : forall w w' k ip, grows w w' -> row w k ip -> row w' k ip;
  row_ok : forall ws d procs i k ip, kept ws d procs -> row (ws i) k ip -> ipv4 ip /\ validName k.2 = true;
  row_pool : forall ws d procs i rs n v, kept ws d procs -> wf_ranges rs -> 0 <= v < 2 ^ 32 ->
    row (ws i) (rangeKey rs, n) (Addr4 v) -> v ∈ pool rs;
  row_agree : forall ws d procs i k ip k' ip', kept ws d procs ->
    row (ws i) k ip -> row (ws i) k' ip' -> (ip = ip' <-> k = k');

  guarded_ret : forall A (a : A) Q w, guarded A (Ret a) Q w <-> Q a w;
  guarded_grows : forall A (p : prog A) Q w w', (forall a w1 w2, grows w1 w2 -> Q a w1 -> Q a w2) ->
    grows w w' -> guarded A p Q w -> guarded A p Q w';
  guarded_mono : forall A (p : prog A) (Q Q' : A -> world -> Prop) w,
    (forall a w', Q a w' -> Q' a w') -> guarded A p Q w -> guarded A p Q' w;
  guarded_bind : forall A B (p : prog A) (f : A -> prog B) (R : A -> world -> Prop) Q w,
    guarded A p R w -> (forall a w', grows w w' -> R a w' -> guarded B (f a) Q w') -> guarded B (p ≫= f) Q w;
  guarded_count : forall A B (g : Process -> Process) (x : B) (k : B -> prog A) Q w,
    (forall pr, p_alloc (g pr) = p_alloc pr) -> (forall w', grows w w' -> guarded A (k x) Q w') ->
    guarded A (b ← mem (fun pr => (x, g pr)); k b) Q w;
  guarded_sql : forall A B (q : stmt B) (k : option B -> prog A) Q ws d procs i r d',
    kept ws d procs -> guarded A (Sql q k) Q (ws i) -> exec q d = (r, d') ->
    exists ws', (forall j, grows (ws j) (ws' j)) /\ kept ws' d' procs /\ guarded A (k r) Q (ws' i);
  guarded_mem : forall A B (f : Process -> B * Process) (k : B -> prog A) Q ws d procs i b pr',
    kept ws d procs -> guarded A (Mem f k) Q (ws i) -> f (procs i) = (b, pr') ->
    exists ws', (forall j, grows (ws j) (ws' j)) /\ kept ws' d (set_proc procs i pr') /\ guarded A (k b) Q (ws' i);

  guarded_allocate : forall i source name n rs now w,
    first <= now <= last -> @pool_for _ (identity i) s source name = Some (n, rs) ->
    guarded _ (Lifecycle_Allocate (lifecycle s) now (rangeKey rs) rs n)
      (fun r w' => r.2 = None -> row w' (rangeKey rs, n) r.1) w;
  guarded_lookup : forall now ip w,
    first <= now <= last -> ipv4 ip ->
    guarded _ (Lifecycle_Lookup (lifecycle s) now ip)
      (fun r w' => r.2 = true -> row w' (m_Gateway r.1, m_Domain r.1) ip) w;
}.
#[global] Arguments guarded {_ _ _ _ _ _ _ A} _ _ _.

(** ** The shared table *)

Section store.
Context `{UT : UnicodeTable, DB : Database} (s : Service) (first last : Time) (identity : nat -> Identity).
Context (Hstore : l_Store (lifecycle s) = true) (HW : window_ok (lease (lifecycle s)) first last).

(** Every replica's decisions rest on the one table, and its cache on rows that outlive
    the window. *)
Record table_kept (ws : nat -> Table) (d : db) (procs : nat -> Process) : Prop := {
  tk_table : forall i, ws i = table d;
  tk_quiet : quiet first last (table d);
  tk_procs : forall i, cache_pinned last (table d) (procs i);
}.

Lemma counter_safe {A B} (g : Process -> Process) (x : B) (k : B -> prog A) Q t :
  (forall p, p_alloc (g p) = p_alloc p) -> (forall t1, future last t t1 -> safe first last (k x) Q t1) ->
  safe first last (b ← mem (fun p => (x, g p)); k b) Q t.
Proof.
  intros Hg Hk. apply safe_mem. intros t1 pr b pr' Ht1 _ [Hc1 Hc2] E. simplify_eq.
  split; [split; rewrite Hg; done|by apply Hk].
Qed.

(** The row of a name holds an address of its pool. *)
Lemma quiet_row_pool t rs n v e :
  quiet first last t -> wf_ranges rs -> 0 <= v < 2 ^ 32 -> t !! (rangeKey rs, n) = Some (AddrString (Addr4 v), e) ->
  v ∈ pool rs.
Proof.
  intros Hq Hrs Hv Hrow. destruct (q_rows _ _ _ Hq _ _ _ Hrow) as (_ & w & Es & Hw & ps & Hps & Ek & Hin).
  apply AddrString4_inj in Es as ->; [|done|done]. cbn in Ek.
  apply rangeKey_injective in Ek as ->; [done|apply Hrs| |apply Hrs|done].
  intros ->. by apply elem_of_nil in Hin.
Qed.

Lemma store_sql A B (q : stmt B) (k : option B -> prog A) Q ws d procs i r d' :
  table_kept ws d procs -> safe first last (Sql q k) Q (ws i) -> exec q d = (r, d') ->
  exists ws', (forall j, future last (ws j) (ws' j)) /\ table_kept ws' d' procs /\ safe first last (k r) Q (ws' i).
Proof.
  intros [Ht Hq Hp] Hs He. rewrite (Ht i) in Hs. cbn in Hs.
  assert (Hex : match r with Some a => sql_step q (table d) a (table d')
                | None => table d' = table d \/ exists a, sql_step q (table d) a (table d') end)
    by (destruct r; [by apply exec_ok|by apply exec_err]).
  destruct (Hs (table d) r (table d')) as (Hq' & Hf & Hk); [reflexivity|done|done|].
  exists (fun _ => table d'). split; [intros j; by rewrite Ht|]. split; [|done]. split; try done.
  intros j. by eapply cache_pinned_future.
Qed.

Lemma store_mem A B (f : Process -> B * Process) (k : B -> prog A) Q ws d procs i b pr' :
  table_kept ws d procs -> safe first last (Mem f k) Q (ws i) -> f (procs i) = (b, pr') ->
  exists ws', (forall j, future last (ws j) (ws' j)) /\ table_kept ws' d (set_proc procs i pr') /\ safe first last (k b) Q (ws' i).
Proof.
  intros [Ht Hq Hp] Hs He. rewrite (Ht i) in Hs. cbn in Hs.
  destruct (Hs (table d) (procs i)) as [Hc Hk]; [reflexivity|done|done|]. rewrite He in Hc, Hk.
  exists (fun _ => table d). split; [intros j; by rewrite Ht|]. split; [|done]. split; try done.
  intros j. unfold set_proc. by destruct (j =? i)%nat.
Qed.

Definition store_backing : Backing s first last identity.
Proof.
  refine {| world := Table; grows := future last; row := pinned last; kept := table_kept;
            guarded A := safe first last |}.
  - intros w w' k ip Hf. apply Hf.
  - intros ws d procs i k ip [Ht Hq _] Hp. rewrite Ht in Hp. split; [apply Hp|].
    destruct Hp as [_ (x & Hx & _)]. by apply (q_names _ _ _ Hq _ _ Hx).
  - intros ws d procs i rs n v [Ht Hq _] Hrs Hv Hp. rewrite Ht in Hp. destruct Hp as [_ (x & Hx & _)].
    by eapply quiet_row_pool.
  - intros ws d procs i k ip k' ip' [Ht Hq _]. rewrite !Ht. by apply pinned_agree with (first := first).
  - done.
  - intros A p Q w w' HQ. by apply safe_future.
  - intros A p Q Q' w. apply safe_mono.
  - intros A B p f R Q w. apply safe_bind.
  - intros A B g x k Q w. apply counter_safe.
  - intros *. apply store_sql.
  - intros *. apply store_mem.
  - intros i source name n rs now w Hn Hpool. pose proof (pool_for_wf (H0 := identity i) _ _ _ _ _ Hpool) as Hrs.
    apply Lifecycle_Allocate_safe; [done..|apply Hrs|by eapply (pool_for_valid (H0 := identity i))].
  - intros now ip w. by apply Lifecycle_Lookup_safe.
Defined.
End store.

(** ** The memory of a process *)

Section memory.
Context `{UT : UnicodeTable, DB : Database} (s : Service) (first last : Time) (identity : nat -> Identity).
Context (Hstore : l_Store (lifecycle s) = false) (Hpath : l_StatePath (lifecycle s) = []).
(** The pools that any source may be granted, by their keys. *)
Context (G : gmap str (list Prefix)) (HG : pools_ok G).
Context (Hkeys : forall g ps, G !! g = Some ps -> wf_ranges ps /\ g = rangeKey ps).
Context (Hpools : forall i source name n rs, @pool_for _ (identity i) s source name = Some (n, rs) -> G !! rangeKey rs = Some rs).

Abbreviation valid := (fun n => validName n = true).

(** Each replica has its own book. *)
Definition book_kept (ws : nat -> book) (d : db) (procs : nat -> Process) : Prop :=
  forall i, keeps G valid (ws i) (p_alloc (procs i)).

Lemma memory_mem A B (f : Process -> B * Process) (k : B -> prog A) Q ws d procs i b pr' :
  book_kept ws d procs -> msafe G valid (Mem f k) Q (ws i) -> f (procs i) = (b, pr') ->
  exists ws', (forall j, book_le (ws j) (ws' j)) /\ book_kept ws' d (set_proc procs i pr') /\ msafe G valid (k b) Q (ws' i).
Proof.
  intros Hk Hs He. destruct (Hs (ws i) (procs i)) as (b2 & Hle & Hk2 & Hs2); [reflexivity|apply Hk|]. rewrite He in Hk2, Hs2.
  exists (fun j => if (j =? i)%nat then b2 else ws j). rewrite Nat.eqb_refl. split_and!; [| |done].
  - intros j. by destruct (Nat.eqb_spec j i) as [->|].
  - intros j. unfold set_proc. destruct (Nat.eqb_spec j i); [done|apply Hk].
Qed.

Lemma memory_count A B (g : Process -> Process) (x : B) (k : B -> prog A) Q b :
  (forall pr, p_alloc (g pr) = p_alloc pr) -> (forall b', book_le b b' -> msafe G valid (k x) Q b') ->
  msafe G valid (y ← mem (fun pr => (x, g pr)); k y) Q b.
Proof. intros Hg Hk b1 pr Hle Hb. exists b1. cbn. rewrite Hg. split_and!; [done..|]. by apply Hk. Qed.

Lemma memory_allocate ps n now b :
  G !! rangeKey ps = Some ps -> validName n = true ->
  msafe G valid (Lifecycle_Allocate (lifecycle s) now (rangeKey ps) ps n)
    (fun r b' => r.2 = None -> holds G (rangeKey ps) n r.1 b') b.
Proof.
  intros Hg Hn. unfold Lifecycle_Allocate. rewrite Hstore, Hpath.
  eapply msafe_bind; [by apply (cacheKeyLive_msafe G HG valid _ ps)|]. intros [ip []] b1 _ Hh; [by intros _; apply Hh|].
  eapply msafe_bind; [by apply (cacheAllocate_msafe G HG valid)|]. intros [ip' e] b2 _ Hh'. cbn in *.
  by rewrite andb_false_r.
Qed.

Lemma holds_facts b a k ip :
  keeps G valid b a -> holds G k.1 k.2 ip b -> ipv4 ip /\ validName k.2 = true.
Proof.
  intros Hk (v & -> & ps & j & Hg & Hn & Hv). split.
  - exists v. split; [done|]. destruct (Hkeys _ _ Hg) as [Hw _]. apply list_elem_of_lookup_2 in Hv.
    pose proof (pool_bound ps (sep_wf _ (po_sep G HG _ _ Hg))) as Hb. rewrite Forall_forall in Hb. by apply Hb.
  - apply (ke_names _ _ _ _ Hk k.1). by eapply list_elem_of_lookup_2.
Qed.

Lemma holds_in_pool rs n v b :
  wf_ranges rs -> holds G (rangeKey rs) n (Addr4 v) b -> v ∈ pool rs.
Proof.
  intros Hrs (w & [= <-] & ps & j & Hg & _ & Hv). destruct (Hkeys _ _ Hg) as [Hps E].
  apply rangeKey_injective in E as ->; [by eapply list_elem_of_lookup_2|apply Hrs|apply Hps|apply Hrs|apply Hps].
Qed.

Definition memory_backing : Backing s first last identity.
Proof.
  refine {| world := book; grows := book_le; row b k ip := holds G k.1 k.2 ip b; kept := book_kept;
            guarded A := msafe G valid |}.
  - intros w w' k ip. apply holds_le.
  - intros ws d procs i k ip Hk. by eapply holds_facts.
  - intros ws d procs i rs n v _ Hrs _. by apply holds_in_pool.
  - intros ws d procs i [g n] ip [g' n'] ip' Hk. apply (holds_agree G (ws i) (p_alloc (procs i))), Hk.
  - done.
  - intros A p Q w w' HQ. by apply msafe_le.
  - intros A p Q Q' w. apply msafe_mono.
  - intros A B p f R Q w. apply msafe_bind.
  - intros A B g x k Q w. apply memory_count.
  - by intros * _ [].
  - intros *. apply memory_mem.
  - intros i source name n rs now w _ Hpool. apply memory_allocate; [by eapply Hpools|by eapply (pool_for_valid (H0 := identity i))].
  - intros now ip w _ _. unfold Lifecycle_Lookup. rewrite Hstore. apply cacheLookup_msafe.
Defined.
End memory.
