(* ===== verification/Fleet.v ===== *)
(** * A fleet of DNS servers

    Everything the DNS role does while it serves, at once: any number of replicas, each
    with the read loop of [internal/dnsudp/server.go], its buffers and its handlers, and
    each handler calls the decision closure of [runDNS], whose critical sections and SQL
    statements interleave with those of all the others.  [DnsServe] and [Converge] or
    [Memory] are the two halves; here the decision a handler waits for is the result of
    the program the closure is.  The invariant is proved once, against [Backing]. *)

From S2P Require Import Prelude GoStrings NetAddr Json Policy PolicySpec Alloc AllocSpec AllocCache.
From S2P Require Import DnsWire DnsWireSpec DnsServe Tags Store StoreSpec Replicas Converge Memory Service ServiceSpec Authority Backing.

(** ** The fleet *)

(** The database, and for each replica its process and its server; [fl_calls] holds what
    is left of the [Decide] call of a replica's handler, by the number of its packet. *)
Record fleet `{Database} := mkFleet {
  fl_db : db;
  fl_procs : nat -> Process;
  fl_servers : nat -> server;
  fl_calls : gmap (nat * nat) (prog Decision);
}.
#[global] Arguments mkFleet {_} _ _ _ _.

Definition set_server (servers : nat -> server) (i : nat) (sv : server) : nat -> server :=
  fun j => if (j =? i)%nat then sv else servers j.

(** The handler between [h1] and [h2] has its response. *)
Definition responded (sv : server) (h1 : list handler) (h : handler) (h2 : list handler)
  (response : option (list byte)) (fwd : bool) : server :=
  let p := match response with
           | Some response => HWrite response
           | None => if fwd then HForward else HRelease
           end in
  mkServer (sv_reader sv) (sv_pool sv) (sv_heap sv) (sv_jobs sv) (h1 ++ set_phase h p :: h2)
    (sv_received sv) (sv_sent sv) (sv_crashed sv).

Definition crashed (sv : server) : server :=
  mkServer (sv_reader sv) (sv_pool sv) (sv_heap sv) (sv_jobs sv) (sv_handlers sv) (sv_received sv) (sv_sent sv) true.

Section fleet.
Context `{UT : UnicodeTable, DB : Database} (s : Service) (first last : Time).
(** The identity each replica asks and the upstream it forwards to. *)
Context (identity : nat -> Identity) (upstream : nat -> option (list byte -> option (list byte) -> Prop)).

(** The call of [Decide] in [Respond]; a packet that is no question makes none. *)
Definition decide_call (i : nat) (nodes : option (list TaggedNode)) (now : Time) (packet : list byte) (source : NetAddr)
  : prog Decision :=
  match parseQuestion packet with
  | Some (q, _, true) => @decide _ (identity i) s nodes now (sourceIP source) q
  | _ => mret (decision NoResponse)
  end.

(** No decision: the steps of a server that makes none are those of its reader and those
    of its handlers before and after [Respond]. *)
Definition undecided (_ : Addr) (_ : Question) (_ : Decision) : Prop := False.

Inductive fleet_step : fleet -> fleet -> Prop :=
| fs_serve f i sv :
    serve_step undecided (upstream i) (fl_servers f i) sv ->
    fleet_step f (mkFleet (fl_db f) (fl_procs f) (set_server (fl_servers f) i sv) (fl_calls f))
| fs_call f i h nodes now :
    (* a handler calls [Decide]; the inventory and the clock are as they are then *)
    h ∈ sv_handlers (fl_servers f i) -> h_phase h = HRespond -> fl_calls f !! (i, h_id h) = None ->
    first <= now <= last ->
    fleet_step f (mkFleet (fl_db f) (fl_procs f) (fl_servers f)
      (<[(i, h_id h) := decide_call i nodes now (request_of (fl_servers f i) h) (h_source h)]> (fl_calls f)))
| fs_sql f i id B (q : stmt B) k r d' :
    fl_calls f !! (i, id) = Some (Sql q k) -> exec q (fl_db f) = (r, d') ->
    fleet_step f (mkFleet d' (fl_procs f) (fl_servers f) (<[(i, id) := k r]> (fl_calls f)))
| fs_mem f i id B (g : Process -> B * Process) k b pr' :
    fl_calls f !! (i, id) = Some (Mem g k) -> g (fl_procs f i) = (b, pr') ->
    fleet_step f (mkFleet (fl_db f) (set_proc (fl_procs f) i pr') (fl_servers f) (<[(i, id) := k b]> (fl_calls f)))
| fs_return f i h1 h h2 dec response fwd :
    sv_handlers (fl_servers f i) = h1 ++ h :: h2 -> h_phase h = HRespond ->
    fl_calls f !! (i, h_id h) = Some (Ret dec) ->
    Respond (as_decide (fun _ _ => dec)) tt (request_of (fl_servers f i) h) (h_source h) = Some (response, fwd, tt) ->
    fleet_step f (mkFleet (fl_db f) (fl_procs f)
      (set_server (fl_servers f) i (responded (fl_servers f i) h1 h h2 response fwd)) (delete (i, h_id h) (fl_calls f)))
| fs_panic f i h1 h h2 dec :
    sv_handlers (fl_servers f i) = h1 ++ h :: h2 -> h_phase h = HRespond ->
    fl_calls f !! (i, h_id h) = Some (Ret dec) ->
    Respond (as_decide (fun _ _ => dec)) tt (request_of (fl_servers f i) h) (h_source h) = None ->
    fleet_step f (mkFleet (fl_db f) (fl_procs f) (set_server (fl_servers f) i (crashed (fl_servers f i))) (fl_calls f)).

Definition fleet_init (d : db) : fleet := mkFleet d (fun _ => NewProcess) (fun _ => server_init) ∅.
End fleet.

(** ** Decisions and the table that backs them *)

(** A question for the name of an address. *)
Definition reverse_question `{UnicodeTable} (q : Question) : bool :=
  (q_Type q =? TypePTR) && (ReverseIPv4 (q_Name q)).2.

(** What the closure may decide on a question, by the policy and the addresses that names
    have. *)
Inductive justified `{UT : UnicodeTable, ID : Identity} (s : Service) (source : Addr) (q : Question)
  (has : str * str -> Addr -> Prop) : Decision -> Prop :=
| j_none : justified s source q has (decision NoResponse)
| j_tag nodes dec :
    reverse_question q = false -> (ResolveTags (q_Name q) nodes).2 = true -> justified s source q has dec
| j_pass :
    reverse_question q = false -> pool_for s source (q_Name q) = None -> justified s source q has (decision Passthrough)
| j_full n rs :
    reverse_question q = false -> pool_for s source (q_Name q) = Some (n, rs) ->
    justified s source q has (decision Unavailable)
| j_address n rs ip :
    reverse_question q = false -> pool_for s source (q_Name q) = Some (n, rs) -> has (rangeKey rs, n) ip ->
    justified s source q has (mkDecision Address ip [])
| j_name ip g n :
    q_Type q = TypePTR -> ReverseIPv4 (q_Name q) = (ip, true) -> has (g, n) ip ->
    justified s source q has (mkDecision PTR AddrZero n)
| j_no_name ip :
    q_Type q = TypePTR -> ReverseIPv4 (q_Name q) = (ip, true) -> justified s source q has (decision PTR).

Lemma justified_mono `{UnicodeTable, Identity} s source q (has has' : str * str -> Addr -> Prop) dec :
  (forall k ip, has k ip -> has' k ip) -> justified s source q has dec -> justified s source q has' dec.
Proof.
  intros Hf. destruct 1; [by constructor|by eapply j_tag|by constructor|by eapply j_full|..].
  - eapply j_address; [done..|by apply Hf].
  - eapply j_name; [done..|by apply Hf].
  - by eapply j_no_name.
Qed.

Section decisions.
Context `{UT : UnicodeTable, DB : Database} (s : Service) (first last : Time) (identity : nat -> Identity).
Context `{BK : !Backing s first last identity}.

(** What decisions of replica [i] in world [w] may be. *)
Abbreviation justified_at i w := (fun source q dec => @justified _ (identity i) s source q (row w) dec).

Lemma justified_grows i w w' source q dec :
  grows w w' -> justified_at i w source q dec -> justified_at i w' source q dec.
Proof. intros Hg. apply justified_mono. intros k ip. by apply row_grows. Qed.

Lemma decide_domain_guarded i now source q w :
  first <= now <= last -> reverse_question q = false ->
  guarded (@decide_domain _ (identity i) s now source (q_Name q)) (fun dec w' => justified_at i w' source q dec) w.
Proof.
  intros Hn Hq. unfold decide_domain. destruct (IsValid source); cbn [negb]; [|apply guarded_ret; constructor].
  rewrite DNSAnswer_pool_for. destruct (@pool_for _ (identity i) s source (q_Name q)) as [[n rs]|] eqn:Hpool.
  2:{ apply guarded_count; [done|]. intros w1 _. apply guarded_ret. by apply j_pass. }
  eapply guarded_bind; [eapply guarded_bind; [by apply (guarded_allocate i source (q_Name q) n rs)|]|].
  - intros [ip [e|]] w1 _ Hp; cbn [bool_decide].
    + apply (guarded_count _ _ _ _ _ (fun r w' => justified_at i w' source q
        match r.2 with DNSSynthesized => mkDecision Address r.1 [] | DNSUnavailable => decision Unavailable
                     | DNSPassthrough => decision Passthrough end)); [done|].
      intros w2 _. apply guarded_ret. by eapply j_full.
    + apply guarded_count; [done|]. intros w2 Hw2. apply guarded_ret. eapply j_address; [done..|].
      eapply row_grows; [done|]. by apply Hp.
  - intros [ip []] w1 _ Hj; apply guarded_ret; exact Hj.
Qed.

Lemma decide_guarded i nodes now source q w :
  first <= now <= last ->
  guarded (@decide _ (identity i) s nodes now source q) (fun dec w' => justified_at i w' source q dec) w.
Proof.
  intros Hn. unfold decide.
  assert (Hname : reverse_question q = false ->
    guarded (@decide_name _ (identity i) s nodes now source q) (fun dec w' => justified_at i w' source q dec) w).
  { intros Hq. unfold decide_name. destruct (ResolveTags (q_Name q) nodes) as [ips tagged] eqn:Et.
    destruct tagged; [|by apply decide_domain_guarded]. apply guarded_ret, (j_tag _ _ _ _ nodes); [done|]. by rewrite Et. }
  unfold reverse_question in Hname. destruct (Z.eqb_spec (q_Type q) TypePTR) as [Hty|]; [|by apply Hname].
  destruct (ReverseIPv4 (q_Name q)) as [ip []] eqn:Hr; [|by apply Hname].
  eapply guarded_bind.
  - apply (guarded_lookup now ip); [done|]. by apply ReverseIPv4_valid in Hr as (v & -> & Hv); exists v.
  - intros [m []] w1 _ Hp; apply guarded_ret; cbn; [|by eapply j_no_name]. eapply j_name; [done..|by apply Hp].
Qed.
End decisions.

(** ** The invariant *)

(** A decision counts only for the question of the packet. *)
Lemma Respond_ext f g packet source :
  (forall q e, parseQuestion packet = Some (q, e, true) -> f (sourceIP source) q = g (sourceIP source) q) ->
  Respond (as_decide f) tt packet source = Respond (as_decide g) tt packet source.
Proof.
  intros H. unfold Respond. destruct (parseQuestion packet) as [[[q e] []]|]; cbn; [|done|done].
  by rewrite (H q e eq_refl).
Qed.

Section invariant.
Context `{UT : UnicodeTable, DB : Database} (s : Service) (first last : Time) (identity : nat -> Identity).
Context `{BK : !Backing s first last identity}.
Context (upstream : nat -> option (list byte -> option (list byte) -> Prop)).

Abbreviation justified_at i w := (fun source q dec => @justified _ (identity i) s source q (row w) dec).

(** What a call on a packet may return. *)
Definition returns (i : nat) (packet : list byte) (source : NetAddr) (dec : Decision) (w : world) : Prop :=
  forall q e, parseQuestion packet = Some (q, e, true) -> justified_at i w (sourceIP source) q dec.

Lemma returns_stable i packet source dec w w' :
  grows w w' -> returns i packet source dec w -> returns i packet source dec w'.
Proof. intros Hg H q e Hq. eapply justified_grows; [done|by eapply H]. Qed.

Lemma decide_call_guarded i nodes now packet source w :
  first <= now <= last -> guarded (decide_call s identity i nodes now packet source) (returns i packet source) w.
Proof.
  intros Hn. unfold decide_call. destruct (parseQuestion packet) as [[[q e] []]|] eqn:Ep.
  - eapply guarded_mono; [|by apply decide_guarded]. intros dec w1 Hj q' e' Eq. by simplify_eq.
  - apply guarded_ret. intros q' e' Eq. congruence.
  - apply guarded_ret. intros q' e' Eq. congruence.
Qed.

Record fleet_ok (f : fleet) (ws : nat -> world) : Prop := {
  fo_kept : kept ws (fl_db f) (fl_procs f);
  fo_servers : forall i, server_ok (justified_at i (ws i)) (upstream i) (fl_servers f i);
  fo_calls : forall i id p, fl_calls f !! (i, id) = Some p -> exists packet source,
    sv_received (fl_servers f i) !! id = Some (packet, source) /\ guarded p (returns i packet source) (ws i);
}.

Lemma fleet_init_ok d ws : kept ws d (fun _ => NewProcess) -> fleet_ok (fleet_init d) ws.
Proof.
  intros Hk. split; cbn; [done|intros; apply server_init_ok|].
  intros i id p. by rewrite lookup_empty.
Qed.

(** Servers in worlds that have grown. *)
Lemma servers_grow f ws ws' :
  fleet_ok f ws -> (forall i, grows (ws i) (ws' i)) ->
  forall i, server_ok (justified_at i (ws' i)) (upstream i) (fl_servers f i).
Proof.
  intros Hf Hg i. eapply server_ok_weaken; [|by apply (fo_servers _ _ Hf)]. intros src q dec. by apply justified_grows.
Qed.

(** A step of one server. *)
Lemma server_step_ok f ws i sv :
  fleet_ok f ws -> server_ok (justified_at i (ws i)) (upstream i) sv ->
  forall j, server_ok (justified_at j (ws j)) (upstream j) (set_server (fl_servers f) i sv j).
Proof.
  intros Hf Hsv j. unfold set_server. destruct (Nat.eqb_spec j i) as [->|]; [done|]. apply (fo_servers _ _ Hf).
Qed.

(** A server step keeps the packets that were received. *)
Lemma serve_step_received allowed up sv sv' id x :
  serve_step allowed up sv sv' -> sv_received sv !! id = Some x -> sv_received sv' !! id = Some x.
Proof. destruct 1; cbn; try done. apply lookup_app_l_Some. Qed.

Lemma calls_kept f ws servers' ws' :
  fleet_ok f ws -> (forall i, grows (ws i) (ws' i)) ->
  (forall i id x, sv_received (fl_servers f i) !! id = Some x -> sv_received (servers' i) !! id = Some x) ->
  forall i id p, fl_calls f !! (i, id) = Some p -> exists packet source,
    sv_received (servers' i) !! id = Some (packet, source) /\ guarded p (returns i packet source) (ws' i).
Proof.
  intros Hf Hg Hrec i id p Hp. destruct (fo_calls _ _ Hf i id p Hp) as (packet & source & Hr & Hs).
  exists packet, source. split; [by apply Hrec|]. eapply guarded_grows; [apply returns_stable|apply Hg|done].
Qed.

(** One call moves on, in worlds that may have grown. *)
Lemma call_step_ok f ws ws' i id packet source p' d' procs' :
  fleet_ok f ws -> (forall j, grows (ws j) (ws' j)) -> kept ws' d' procs' ->
  sv_received (fl_servers f i) !! id = Some (packet, source) -> guarded p' (returns i packet source) (ws' i) ->
  fleet_ok (mkFleet d' procs' (fl_servers f) (<[(i, id) := p']> (fl_calls f))) ws'.
Proof.
  intros Hf Hg Hk Hr Hs. split; cbn; [done|by eapply servers_grow|].
  intros j id' p0. rewrite lookup_insert_Some. intros [[[= <- <-] <-]|[_ Hp0]]; [eauto|].
  by eapply (calls_kept f ws).
Qed.

(** A decision that is justified for the question of a packet, as a decision on any
    question. *)
Definition decision_for (packet : list byte) (source : NetAddr) (dec : Decision) (src : Addr) (q : Question) : Decision :=
  match parseQuestion packet with
  | Some (q', _, true) => if bool_decide (src = sourceIP source /\ q = q') then dec else decision NoResponse
  | _ => decision NoResponse
  end.

Lemma decision_for_decides i packet source dec w :
  returns i packet source dec w -> decides (justified_at i w) (decision_for packet source dec).
Proof.
  intros H src q. unfold decision_for. destruct (parseQuestion packet) as [[[q' e] []]|] eqn:Ep; [|constructor..].
  case_bool_decide as E; [|constructor]. destruct E as [-> ->]. by eapply H.
Qed.

Lemma decision_for_Respond packet source dec :
  Respond (as_decide (decision_for packet source dec)) tt packet source
  = Respond (as_decide (fun _ _ => dec)) tt packet source.
Proof. apply Respond_ext. intros q e Ep. unfold decision_for. rewrite Ep. by rewrite bool_decide_eq_true_2. Qed.

(** The packet of a handler and what its call returned. *)
Lemma handler_returned f ws i h1 h h2 dec :
  fleet_ok f ws -> sv_handlers (fl_servers f i) = h1 ++ h :: h2 -> fl_calls f !! (i, h_id h) = Some (Ret dec) ->
  returns i (request_of (fl_servers f i) h) (h_source h) dec (ws i).
Proof.
  intros Hf Eh Hc. destruct (fo_calls _ _ Hf _ _ _ Hc) as (packet & source & Hr & Hs). rewrite guarded_ret in Hs.
  pose proof (so_handlers _ _ _ (fo_servers _ _ Hf i)) as Hh. rewrite Eh, Forall_app, Forall_cons in Hh.
  destruct Hh as (_ & [Hp _] & _). unfold holds_packet in Hp. rewrite Hr in Hp. by injection Hp as -> ->.
Qed.

Lemma fleet_step_ok f f' ws :
  fleet_ok f ws -> fleet_step s first last identity upstream f f' -> exists ws', fleet_ok f' ws'.
Proof.
  intros Hf Hstep. pose proof Hf as [Hk Hsv Hcalls].
  destruct Hstep as [f i sv Hst|f i h nodes now Hin Hph _ Hn|f i id B q k r d' Hc He|f i id B g k b pr' Hc Hg
                    |f i h1 h h2 dec response fwd Eh Hph Hc Hr|f i h1 h h2 dec Eh Hph Hc Hr].
  - exists ws. split; cbn; [done|..].
    + apply server_step_ok; [done|]. eapply serve_step_ok; [by apply Hsv|].
      eapply serve_step_weaken; [|exact Hst]. by intros ???.
    + apply (calls_kept f ws); [done|intros ?; reflexivity|]. intros j id x Hx. unfold set_server.
      destruct (Nat.eqb_spec j i) as [->|]; [|done]. by eapply serve_step_received.
  - exists ws. split; cbn; [done|done|]. intros j id p. rewrite lookup_insert_Some.
    intros [[[= <- <-] <-]|[_ Hp0]]; [|by eapply Hcalls].
    pose proof (so_handlers _ _ _ (Hsv i)) as Hh. rewrite Forall_forall in Hh. destruct (Hh h Hin) as [Hpk _].
    eexists _, _. split; [exact Hpk|]. by apply decide_call_guarded.
  - destruct (Hcalls _ _ _ Hc) as (packet & source & Hrec & Hs).
    destruct (guarded_sql _ _ _ _ _ _ _ _ _ _ _ Hk Hs He) as (ws' & Hg & Hk' & Hs'). exists ws'. by eapply call_step_ok.
  - destruct (Hcalls _ _ _ Hc) as (packet & source & Hrec & Hs).
    destruct (guarded_mem _ _ _ _ _ _ _ _ _ _ _ Hk Hs Hg) as (ws' & Hgr & Hk' & Hs'). exists ws'. by eapply call_step_ok.
  - pose proof (handler_returned _ _ _ _ _ _ _ Hf Eh Hc) as Hret. exists ws. split; cbn; [done|..].
    + apply server_step_ok; [done|]. eapply serve_step_ok; [by apply Hsv|].
      apply (ss_respond _ _ _ h1 h h2 _ response fwd Eh Hph (decision_for_decides _ _ _ _ _ Hret)).
      by rewrite decision_for_Respond.
    + intros j id p. rewrite lookup_delete_Some. intros [_ Hp0]. eapply (calls_kept f ws); [done|intros ?; reflexivity| |done].
      intros j' id' x Hx. unfold set_server. by destruct (Nat.eqb_spec j' i) as [->|].
  - exfalso. destruct (Respond_defined (as_decide (fun _ _ => dec)) tt (request_of (fl_servers f i) h) (h_source h))
      as (? & ? & ? & ?). congruence.
Qed.

Lemma fleet_reachable_ok d f ws :
  kept ws d (fun _ => NewProcess) -> rtc (fleet_step s first last identity upstream) (fleet_init d) f ->
  exists ws', fleet_ok f ws'.
Proof.
  intros Hk. apply (rtc_ind_r (fun f => exists ws, fleet_ok f ws)); [eauto using fleet_init_ok|].
  intros f1 f2 _ Hs [ws' Ho]. by eapply fleet_step_ok.
Qed.

End invariant.

(** ** Replies *)

Section replies.
Context `{UT : UnicodeTable, DB : Database} (s : Service) (first last : Time) (identity : nat -> Identity).
Context `{BK : !Backing s first last identity}.
Context (upstream : nat -> option (list byte -> option (list byte) -> Prop)).

Abbreviation justified_at i w := (fun source q dec => @justified _ (identity i) s source q (row w) dec).
Abbreviation fleet_ok := (fleet_ok s first last identity upstream).

Lemma justified_ok ws d procs i source q dec :
  kept ws d procs -> (forall nodes, (ResolveTags (q_Name q) nodes).2 = false) \/ reverse_question q = true ->
  justified_at i (ws i) source q dec -> decision_ok dec.
Proof.
  intros Hk Htag. destruct 1 as [|nodes dec Hr Ht|Hr Hp|n rs Hr Hp|n rs ip Hr Hp Hrow|ip g n Hty Hr Hrow|ip Hty Hr];
    try (by split; [|vm_compute]).
  - destruct Htag as [Htag|]; congruence.
  - destruct (row_ok _ _ _ _ _ _ Hk Hrow) as [(v & -> & Hv) _]. by split; [|vm_compute].
  - destruct (row_ok _ _ _ _ _ _ Hk Hrow) as [_ Hv]. by apply valid_name_decision.
Qed.

(** The decision behind a datagram that answers a plain query. *)
Lemma sent_decision f ws i id reply peer h name ty :
  fleet_ok f ws -> (id, reply, peer) ∈ sv_sent (fl_servers f i) ->
  sv_received (fl_servers f i) !! id = Some (query h name ty, peer) ->
  plain h -> Forall label_ok (Split (TrimSuffix name ".") ".") -> 0 <= ty < 65536 ->
  let q := mkQuestion (TrimSuffix name ".") ty in
  (forall nodes, (ResolveTags (q_Name q) nodes).2 = false) \/ reverse_question q = true ->
  exists dec, justified_at i (ws i) (sourceIP peer) q dec /\
    (d_Outcome dec = Passthrough \/
     exists rc rrs, decision_records dec q = Some (rc, rrs) /\ read_reply reply = reply_to (query h name ty) q rc rrs).
Proof.
  intros Hf Hin Hrec Hh Hls Hty q Htag.
  pose proof (so_sent _ _ _ (fo_servers _ _ _ _ _ _ _ Hf i)) as Hs. rewrite Forall_forall in Hs.
  destruct (Hs _ Hin) as (packet & Hp & Hre). cbn in Hp, Hre. assert (packet = query h name ty) as -> by congruence.
  destruct (query_parse h name ty Hh Hls Hty) as (Hparse & H6 & H8 & H10).
  assert (Hresp : forall g, decides (justified_at i (ws i)) g -> exists response,
    Respond (as_decide g) tt (query h name ty) peer
      = Some (response, bool_decide (d_Outcome (g (sourceIP peer) q) = Passthrough), tt) /\
    (read_reply <$> response) = ((fun '(rc, rrs) => reply_to (query h name ty) q rc rrs)
                                   <$> decision_records (g (sourceIP peer) q) q)).
  { intros g Hg. eapply Respond_reply; [done..|]. by eapply justified_ok; [apply (fo_kept _ _ _ _ _ _ _ Hf)| |apply Hg]. }
  destruct Hre as [(fwd & g & Hg & Hr)|[(g & Hg & Hr) _]]; destruct (Hresp g Hg) as (response & Hr' & Hread);
    rewrite Hr in Hr'; injection Hr' as <- E; exists (g (sourceIP peer) q); (split; [apply Hg|]).
  - right. cbn in Hread. destruct (decision_records _ q) as [[rc rrs]|]; [|done]. cbn in Hread. simplify_eq. eauto.
  - left. by apply (bool_decide_eq_true_1 (d_Outcome _ = Passthrough)).
Qed.
End replies.

(** ** What clients read *)

Section answers.
Context `{UT : UnicodeTable, DB : Database} (s : Service) (identity : nat -> Identity).

(** Packet [id] of replica [i] is a plain A query for a name outside the tag namespace
    that its sender may resolve: [n], normalised, with the pool [rs]. *)
Definition asked (f : fleet) (i id : nat) (peer : NetAddr) (h : list byte) (name n : str) (rs : list Prefix) : Prop :=
  sv_received (fl_servers f i) !! id = Some (query h name TypeA, peer) /\
  plain h /\ Forall label_ok (Split (TrimSuffix name ".") ".") /\
  (forall nodes, (ResolveTags (TrimSuffix name ".") nodes).2 = false) /\
  @pool_for _ (identity i) s (sourceIP peer) (TrimSuffix name ".") = Some (n, rs).

(** Some client has read from replica [i] that [n], of the pool [rs], is at [v]. *)
Definition gave (f : fleet) (i : nat) (n : str) (rs : list Prefix) (v : Z) : Prop :=
  0 <= v < 2 ^ 32 /\ exists id reply peer h name,
    asked f i id peer h name n rs /\ (id, reply, peer) ∈ sv_sent (fl_servers f i) /\
    read_reply reply = reply_to (query h name TypeA) (mkQuestion (TrimSuffix name ".") TypeA) 0
                         [mkRR TypeA 1 600 (be_bytes 4 v)].
End answers.

Section convergence.
Context `{UT : UnicodeTable, DB : Database} (s : Service) (first last : Time) (identity : nat -> Identity).
Context `{BK : !Backing s first last identity}.
Context (upstream : nat -> option (list byte -> option (list byte) -> Prop)).

Lemma reply_to_records request q rc rrs rc' rrs' :
  is_Some (reply_to request q rc rrs) -> reply_to request q rc rrs = reply_to request q rc' rrs' -> rc = rc' /\ rrs = rrs'.
Proof.
  unfold reply_to. destruct (u16 request 0); cbn; [|by intros [? ?]]. destruct (u16 request 2); cbn; [|by intros [? ?]].
  intros _ [= -> ->]. done.
Qed.

Lemma query_reply_some h name ty q rc rrs : plain h -> is_Some (reply_to (query h name ty) q rc rrs).
Proof.
  intros Hh. pose proof (plain_length _ Hh) as Hl. unfold reply_to, query. rewrite !u16_prefix by lia.
  header12 h. by eexists.
Qed.

Lemma be4_inj v v' : 0 <= v < 2 ^ 32 -> 0 <= v' < 2 ^ 32 -> be_bytes 4 v = be_bytes 4 v' -> v = v'.
Proof.
  intros Hv Hv'. cbn [be_bytes]. intros [= E3 E2 E1 E0].
  apply (f_equal bval) in E0, E1, E2, E3. autorewrite with dgw in *.
  rewrite !Z.shiftr_div_pow2 in * by lia. cbn in *. Z.div_mod_to_equations. lia.
Qed.

(** A reply to an authorised question, and the row behind it. *)
Lemma sent_address f ws i id reply peer h name n rs :
  fleet_ok s first last identity upstream f ws -> asked s identity f i id peer h name n rs ->
  (id, reply, peer) ∈ sv_sent (fl_servers f i) ->
  let q := mkQuestion (TrimSuffix name ".") TypeA in
  (exists v, v ∈ pool rs /\ 0 <= v < 2 ^ 32 /\ row (ws i) (rangeKey rs, n) (Addr4 v) /\
     read_reply reply = reply_to (query h name TypeA) q 0 [mkRR TypeA 1 600 (be_bytes 4 v)]) \/
  read_reply reply = reply_to (query h name TypeA) q 2 [].
Proof.
  intros Hf (Hrec & Hh & Hls & Htag & Hpool) Hin q.
  destruct (sent_decision s first last identity upstream f ws i id reply peer h name TypeA Hf Hin Hrec Hh Hls ltac:(by vm_compute) (or_introl Htag))
    as (dec & Hj & Hdec).
  destruct Hj as [|nodes dec Hr Ht|Hr Hp|n' rs' Hr Hp|n' rs' ip Hr Hp Hrow|ip g n' Hty Hr Hrow|ip Hty Hr]; try done.
  - destruct Hdec as [|(rc & rrs & [=] & _)]; done.
  - exfalso. by rewrite Htag in Ht.
  - exfalso. cbn [q_Name] in Hp. by rewrite Hpool in Hp.
  - destruct Hdec as [|(rc & rrs & [= <- <-] & Hread)]; [done|]. by right.
  - cbn [q_Name] in Hp. rewrite Hpool in Hp. injection Hp as <- <-.
    destruct Hdec as [|(rc & rrs & Hrr & Hread)]; [done|]. left.
    pose proof (fo_kept _ _ _ _ _ _ _ Hf) as Hk. destruct (row_ok _ _ _ _ _ _ Hk Hrow) as [(v & -> & Hv) _].
    exists v. cbn in Hrr. injection Hrr as <- <-. split_and!; try (done || lia).
    eapply row_pool; [done|by eapply (pool_for_wf (H0 := identity i))|done|done].
Qed.

Lemma gave_row f ws i n rs v :
  fleet_ok s first last identity upstream f ws -> gave s identity f i n rs v ->
  wf_ranges rs /\ row (ws i) (rangeKey rs, n) (Addr4 v).
Proof.
  intros Hf (Hv & id & reply & peer & h & name & Hask & Hin & Hread).
  pose proof Hask as (_ & Hh & _ & _ & Hpool). split; [by eapply (pool_for_wf (H0 := identity i))|].
  destruct (sent_address _ _ _ _ _ _ _ _ _ _ Hf Hask Hin) as [(v' & _ & Hv' & Hp & Hread')|Hread'];
    rewrite Hread in Hread'; apply reply_to_records in Hread' as [? Hrr]; try (by apply query_reply_some); [|done].
  assert (v = v') as -> by (apply be4_inj; congruence). done.
Qed.

(** A reply to a question for the name of an address that the replica knows. *)
Lemma sent_name f ws j v k id reply peer h :
  fleet_ok s first last identity upstream f ws -> row (ws j) k (Addr4 v) ->
  sv_received (fl_servers f j) !! id = Some (query h (reverse_of v) TypePTR, peer) -> plain h ->
  (id, reply, peer) ∈ sv_sent (fl_servers f j) ->
  exists rrs, read_reply reply = reply_to (query h (reverse_of v) TypePTR) (mkQuestion (reverse_of v) TypePTR) 0 rrs /\
    (rrs = [mkRR TypePTR 1 600 (encodeName k.2)] \/ rrs = []).
Proof.
  intros Hf Hp Hrec Hh Hin. pose proof (fo_kept _ _ _ _ _ _ _ Hf) as Hk.
  destruct (row_ok _ _ _ _ _ _ Hk Hp) as [(w & [= <-] & Hv) _].
  assert (Hrev : ReverseIPv4 (reverse_of v) = (Addr4 v, true)) by (by apply ReverseIPv4_reverse_of).
  assert (Hq : reverse_question (mkQuestion (TrimSuffix (reverse_of v) ".") TypePTR) = true).
  { unfold reverse_question. cbn [q_Type q_Name]. by rewrite reverse_of_trim, Hrev. }
  destruct (sent_decision s first last identity upstream f ws j id reply peer h (reverse_of v) TypePTR Hf Hin Hrec Hh
    (reverse_of_labels v) ltac:(by vm_compute) (or_intror Hq)) as (dec & Hj & Hdec).
  destruct Hj as [|nodes dec Hr|Hr|n' rs' Hr|n' rs' ip Hr|ip g n Hty Hr Hrow|ip Hty Hr]; try congruence.
  - destruct Hdec as [|(rc & rrs & [=] & _)]; done.
  - cbn [q_Name] in Hr. rewrite reverse_of_trim, Hrev in Hr. injection Hr as <-.
    rewrite reverse_of_trim in Hdec. destruct Hdec as [|(rc & rrs & Hrr & Hread)]; [done|].
    pose proof (proj1 (row_agree _ _ _ _ _ _ _ _ Hk Hp Hrow) eq_refl) as ->.
    cbn in Hrr. destruct (str_eqb n []); injection Hrr as <- <-; eauto.
  - rewrite reverse_of_trim in Hdec. destruct Hdec as [|(rc & rrs & [= <- <-] & Hread)]; [done|]. eauto.
Qed.

(** Addresses that replicas with the same world gave, and the names behind them. *)
Lemma gave_agree f ws i j n rs v n' rs' v' :
  fleet_ok s first last identity upstream f ws -> ws i = ws j ->
  gave s identity f i n rs v -> gave s identity f j n' rs' v' -> (v = v' <-> n = n' /\ rs = rs').
Proof.
  intros Hf Hij Hg Hg'.
  destruct (gave_row _ _ _ _ _ _ Hf Hg) as [Hrs Hp]. destruct (gave_row _ _ _ _ _ _ Hf Hg') as [Hrs' Hp'].
  rewrite Hij in Hp. pose proof (row_agree _ _ _ _ _ _ _ _ (fo_kept _ _ _ _ _ _ _ Hf) Hp Hp') as Ha. split.
  - intros <-. injection (proj1 Ha eq_refl) as Ek ->. split; [done|].
    by apply rangeKey_injective in Ek; [|apply Hrs|apply Hrs'|apply Hrs|apply Hrs'].
  - intros [-> ->]. by injection (proj2 Ha eq_refl) as ->.
Qed.

(** What holds of the answers of replicas [i] and [j]. *)
Definition answers_agree (f : fleet) (i j : nat) : Prop :=
  (forall n rs v n' rs' v', gave s identity f i n rs v -> gave s identity f j n' rs' v' ->
     (v = v' <-> n = n' /\ rs = rs')) /\
  (forall n rs v id reply peer h, gave s identity f i n rs v ->
     sv_received (fl_servers f j) !! id = Some (query h (reverse_of v) TypePTR, peer) -> plain h ->
     (id, reply, peer) ∈ sv_sent (fl_servers f j) ->
     exists rrs, read_reply reply = reply_to (query h (reverse_of v) TypePTR) (mkQuestion (reverse_of v) TypePTR) 0 rrs /\
       (rrs = [mkRR TypePTR 1 600 (encodeName n)] \/ rrs = [])).

(** What holds of the server of replica [i]. *)
Definition serves_well (f : fleet) (i : nat) : Prop :=
  sv_crashed (fl_servers f i) = false /\ (sv_jobs (fl_servers f i) <= 256)%nat /\
  (forall id reply peer h name n rs,
     asked s identity f i id peer h name n rs -> (id, reply, peer) ∈ sv_sent (fl_servers f i) ->
     (exists v, v ∈ pool rs /\ gave s identity f i n rs v) \/
     read_reply reply = reply_to (query h name TypeA) (mkQuestion (TrimSuffix name ".") TypeA) 2 []).

Lemma fleet_serves_well f ws i : fleet_ok s first last identity upstream f ws -> serves_well f i.
Proof.
  intros Hf. destruct (fo_servers _ _ _ _ _ _ _ Hf i) as []. split_and!; [done..|].
  intros id reply peer h name n rs Hask Hin.
  destruct (sent_address _ _ _ _ _ _ _ _ _ _ Hf Hask Hin) as [(v & Hv & Hb & _ & Hread)|]; [left|by right].
  exists v. split; [done|]. split; [done|]. by exists id, reply, peer, h, name.
Qed.

Lemma fleet_answers_agree f ws i j :
  fleet_ok s first last identity upstream f ws -> ws i = ws j -> answers_agree f i j.
Proof.
  intros Hf Hij. split; [by intros; eapply gave_agree|].
  intros n rs v id reply peer h Hg Hrec Hh Hin. destruct (gave_row _ _ _ _ _ _ Hf Hg) as [_ Hp].
  rewrite Hij in Hp. by eapply (sent_name _ _ _ _ (rangeKey rs, n)).
Qed.
End convergence.



(** ** Serving a packet *)

Section serving.
Context `{UT : UnicodeTable, DB : Database} (s : Service) (first last : Time).
Context (identity : nat -> Identity) (upstream : nat -> option (list byte -> option (list byte) -> Prop)).

Abbreviation steps := (rtc (fleet_step s first last identity upstream)).

Definition idle (sv : server) : Prop := sv_reader sv = RGet /\ sv_handlers sv = [] /\ sv_jobs sv = 0%nat.

(** A call that is not interrupted runs like the program alone. *)
Lemma call_runs p : forall d procs servers calls i id dec pr' d',
  calls !! (i, id) = Some p -> run p (procs i) d = (dec, pr', d') ->
  exists procs', steps (mkFleet d procs servers calls) (mkFleet d' procs' servers (<[(i, id) := Ret dec]> calls)) /\
    procs' i = pr' /\ forall j, j <> i -> procs' j = procs j.
Proof.
  induction p as [dec0|B q k IH|B g k IH]; intros d procs servers calls i id dec pr' d' Hc Hrun; cbn in Hrun.
  - simplify_eq. exists procs. by rewrite insert_id.
  - destruct (exec q d) as [r d1] eqn:Ee.
    destruct (IH r d1 procs servers (<[(i, id) := k r]> calls) i id dec pr' d') as (procs' & Hs & Hi & Hj);
      [by rewrite lookup_insert_eq|done|]. rewrite insert_insert_eq in Hs.
    exists procs'. split; [|done]. eapply rtc_l; [|exact Hs]. by eapply (fs_sql _ _ _ _ _ (mkFleet d procs servers calls)).
  - destruct (g (procs i)) as [b pr1] eqn:Eg.
    destruct (IH b d (set_proc procs i pr1) servers (<[(i, id) := k b]> calls) i id dec pr' d') as (procs' & Hs & Hi & Hj).
    { by rewrite lookup_insert_eq. }
    { unfold set_proc. by rewrite Nat.eqb_refl. }
    rewrite insert_insert_eq in Hs. exists procs'. split; [|split; [done|]].
    + eapply rtc_l; [|exact Hs]. by eapply (fs_mem _ _ _ _ _ (mkFleet d procs servers calls)).
    + intros j Hne. rewrite (Hj j Hne). unfold set_proc. by destruct (Nat.eqb_spec j i).
Qed.

Lemma set_server_eq servers i sv : set_server servers i sv i = sv.
Proof. unfold set_server. by rewrite Nat.eqb_refl. Qed.

(** An idle server reads a packet of at most a buffer's size and starts a handler. *)
Lemma server_reads up sv packet peer :
  idle sv -> (length packet <= buffer_size)%nat -> exists b heap,
  rtc (serve_step undecided up) sv
    (mkServer RGet (sv_pool sv) heap 1 [mkHandler b (length packet) peer (length (sv_received sv)) HRespond]
       (sv_received sv ++ [(packet, peer)]) (sv_sent sv) (sv_crashed sv)) /\
  take (length packet) (default [] (heap !! b)) = packet.
Proof.
  intros (Er & Eh & Ej) Hl. set (b := fresh (dom (sv_heap sv))). set (buffer := replicate buffer_size (byte_of 0)).
  assert (Hn : length packet = Nat.min (length packet) (length buffer)) by (unfold buffer; rewrite length_replicate; lia).
  exists b, (<[b := fill buffer packet]> (<[b := buffer]> (sv_heap sv))). split.
  - eapply rtc_l; [apply (ss_get_new _ _ sv b Er), not_elem_of_dom, is_fresh|].
    eapply rtc_l; [apply (ss_read _ _ _ b buffer packet peer); [done|apply lookup_insert_eq]|].
    cbn [sv_reader sv_pool sv_heap sv_jobs sv_handlers sv_received sv_sent sv_crashed].
    rewrite <-Hn, firstn_all. apply rtc_once.
    match goal with |- serve_step _ _ ?s1 _ => pose proof (ss_spawn undecided up s1 b (length packet) peer _ eq_refl) as Hstep end.
    cbn [sv_reader sv_pool sv_heap sv_jobs sv_handlers sv_received sv_sent sv_crashed] in Hstep.
    rewrite Eh, Ej in Hstep |- *. apply Hstep. unfold max_jobs. lia.
  - rewrite lookup_insert_eq. cbn [default from_option id]. rewrite take_fill by done. by rewrite firstn_all.
Qed.

(** Its only handler sends the response and ends. *)
Lemma server_writes up sv h reply :
  sv_reader sv = RGet -> sv_handlers sv = [h] -> sv_jobs sv = 1%nat -> h_phase h = HWrite reply ->
  rtc (serve_step undecided up) sv
    (mkServer RGet (h_buf h :: sv_pool sv) (sv_heap sv) 0 [] (sv_received sv)
       (sv_sent sv ++ [(h_id h, reply, h_source h)]) (sv_crashed sv)).
Proof.
  intros Er Eh Ej Ep. eapply rtc_l; [apply (ss_write _ _ sv [] h [] reply true Eh Ep)|].
  eapply rtc_l; [by apply (ss_release _ _ _ [] (set_phase h HRelease) []); [..|cbn; rewrite Ej; lia]|]. cbn.
  apply rtc_once. rewrite Er, Ej. match goal with |- serve_step _ _ ?s1 _ =>
    pose proof (ss_put undecided up s1 [] (set_phase (set_phase h HRelease) HPut) [] eq_refl eq_refl) as Hstep end.
  exact Hstep.
Qed.

(** The steps of one server as steps of the fleet. *)
Lemma server_runs f i sv :
  rtc (serve_step undecided (upstream i)) (fl_servers f i) sv -> exists servers,
  steps f (mkFleet (fl_db f) (fl_procs f) servers (fl_calls f)) /\ servers i = sv /\
  forall j, j <> i -> servers j = fl_servers f j.
Proof.
  remember (fl_servers f i) as sv0 eqn:E. intros Hr. revert f E. induction Hr as [sv0|sv0 sv1 sv2 Hst Hr IH]; intros f ->.
  { exists (fl_servers f). by destruct f. }
  destruct (IH (mkFleet (fl_db f) (fl_procs f) (set_server (fl_servers f) i sv1) (fl_calls f))) as (servers & Hs & Hi & Hj).
  { cbn. by rewrite set_server_eq. }
  exists servers. split; [|split; [done|]].
  - eapply rtc_l; [by apply fs_serve|exact Hs].
  - intros j Hne. rewrite (Hj j Hne). cbn. unfold set_server. by destruct (Nat.eqb_spec j i).
Qed.

(** A packet served without interruption by an idle replica: the reply is what [Respond]
    makes of the decision of the program run alone. *)
Lemma packet_served f i packet peer nodes now dec pr' d' reply fwd :
  let sv := fl_servers f i in let id := length (sv_received sv) in
  idle sv -> (length packet <= buffer_size)%nat -> fl_calls f !! (i, id) = None -> first <= now <= last ->
  run (decide_call s identity i nodes now packet peer) (fl_procs f i) (fl_db f) = (dec, pr', d') ->
  Respond (as_decide (fun _ _ => dec)) tt packet peer = Some (Some reply, fwd, tt) ->
  exists f', steps f f' /\ fl_db f' = d' /\ fl_calls f' = fl_calls f /\ fl_procs f' i = pr' /\
    idle (fl_servers f' i) /\ sv_received (fl_servers f' i) = sv_received sv ++ [(packet, peer)] /\
    sv_sent (fl_servers f' i) = sv_sent sv ++ [(id, reply, peer)] /\
    forall j, j <> i -> fl_servers f' j = fl_servers f j /\ fl_procs f' j = fl_procs f j.
Proof.
  intros sv id Hidle Hl Hfree Hn Hrun Hresp.
  destruct (server_reads (upstream i) sv packet peer Hidle Hl) as (b & heap & Hr1 & Hpk).
  set (h := mkHandler b (length packet) peer id HRespond) in *. fold id h in Hr1.
  set (sv1 := mkServer RGet _ _ _ _ _ _ _) in Hr1.
  destruct (server_runs f i sv1 Hr1) as (sv1s & Hs1 & Ei1 & Ej1).
  set (f1 := mkFleet (fl_db f) (fl_procs f) sv1s (fl_calls f)) in Hs1.
  assert (Hreq : request_of (sv1s i) h = packet) by (rewrite Ei1; exact Hpk).
  assert (Hcall : fleet_step s first last identity upstream f1
    (mkFleet (fl_db f) (fl_procs f) sv1s (<[(i, id) := decide_call s identity i nodes now packet peer]> (fl_calls f)))).
  { rewrite <-Hreq. apply (fs_call s first last identity upstream f1 i h nodes now); [|done|done|done].
    cbn. rewrite Ei1. apply list_elem_of_here. }
  destruct (call_runs _ (fl_db f) (fl_procs f) sv1s _ i id dec pr' d' (lookup_insert_eq (fl_calls f) (i, id) _) Hrun)
    as (procs' & Hs2 & Epi & Epj). rewrite insert_insert_eq in Hs2.
  set (f2 := mkFleet d' procs' sv1s _) in Hs2.
  pose proof (fs_return s first last identity upstream f2 i [] h [] dec (Some reply) fwd) as Hret.
  cbn [fl_servers fl_calls fl_db fl_procs f2] in Hret. rewrite Hreq, Ei1, lookup_insert_eq in Hret.
  specialize (Hret eq_refl eq_refl eq_refl Hresp). rewrite delete_insert_id in Hret by done.
  match type of Hret with fleet_step _ _ _ _ _ _ ?f => set (f3 := f) in Hret end.
  destruct (server_runs f3 i _ (server_writes (upstream i) (fl_servers f3 i) (set_phase h (HWrite reply)) reply
    ltac:(cbn; by rewrite set_server_eq) ltac:(cbn; by rewrite set_server_eq) ltac:(cbn; by rewrite set_server_eq) eq_refl))
    as (sv4s & Hs4 & Ei4 & Ej4).
  eexists. split.
  { etrans; [exact Hs1|]. eapply rtc_l; [exact Hcall|]. etrans; [exact Hs2|]. eapply rtc_l; [exact Hret|]. exact Hs4. }
  cbn. rewrite Ei4. cbn. rewrite set_server_eq. split_and!; try done.
  intros j Hne. split; [|by apply Epj]. rewrite (Ej4 j Hne). cbn. unfold set_server.
  destruct (Nat.eqb_spec j i); [done|]. by apply Ej1.
Qed.
End serving.

(** ** Two replicas asked for one name *)

Definition lab_fleet_step (l : AllocationLifecycle) :=
  @fleet_step table_min table_db (lab_service l) noon (noon + 2 * Minute) (fun _ => lab_identity) (fun _ => None).

Definition peer_a : NetAddr := UDPAddr (be_bytes 4 1681915909).
Definition peer_b : NetAddr := UDPAddr (be_bytes 4 1681915910).

(** The call of a replica on a query for the lab's name, run alone. *)
Definition lab_call (l : AllocationLifecycle) (i : nat) (now : Time) (name : str) (peer : NetAddr) (pr : Process) (d : Table) :=
  @run table_db _ (@decide_call table_min (lab_service l) (fun _ => lab_identity) i (Some []) now
    (query plain_header name TypeA) peer) pr d.

Definition first_call := lab_call sql_lifecycle 0 noon "App.example.com." peer_a NewProcess ∅.
Definition second_call := lab_call sql_lifecycle 1 (noon + Minute) "app.example.com" peer_b NewProcess first_call.2.

Definition lab_decision : Decision := mkDecision Address (AddrFrom4 10 254 0 1) [].

Lemma lab_decisions : first_call.1.1 = lab_decision /\ second_call.1.1 = lab_decision.
Proof. by vm_compute. Qed.

Definition lab_reply (name : str) : list byte :=
  default [] (addressAnswer (query plain_header name TypeA) (length (query plain_header name TypeA)) (AddrFrom4 10 254 0 1)).

(** One of the replicas answers the query. *)
Lemma lab_served l (f : @fleet table_db) i name peer now r :
  i = 0%nat /\ name = lit "App.example.com." \/ i = 1%nat /\ name = lit "app.example.com" ->
  idle (fl_servers f i) -> fl_calls f = ∅ -> noon <= now <= noon + 2 * Minute ->
  lab_call l i now name peer (fl_procs f i) (fl_db f) = r -> r.1.1 = lab_decision ->
  exists f', rtc (lab_fleet_step l) f f' /\ fl_db f' = r.2 /\ fl_calls f' = ∅ /\
    sv_received (fl_servers f' i) = sv_received (fl_servers f i) ++ [(query plain_header name TypeA, peer)] /\
    sv_sent (fl_servers f' i) = sv_sent (fl_servers f i) ++ [(length (sv_received (fl_servers f i)), lab_reply name, peer)] /\
    forall j, j <> i -> fl_servers f' j = fl_servers f j /\ fl_procs f' j = fl_procs f j.
Proof.
  intros Hi Hidle Hcalls Hn Hr Hdec. destruct r as [[dec pr'] d']. cbn in Hdec. subst dec.
  destruct (@packet_served table_min table_db (lab_service l) noon (noon + 2 * Minute) (fun _ => lab_identity)
    (fun _ => None) f i (query plain_header name TypeA) peer (Some []) now lab_decision pr' d' (lab_reply name) false)
    as (f' & Hs & Hd & Hc & _ & _ & Hrec & Hsent & Hj); try done.
  - unfold buffer_size. destruct Hi as [[_ ->]|[_ ->]]; vm_compute length; lia.
  - by rewrite Hcalls.
  - by destruct Hi as [[_ ->]|[_ ->]]; vm_compute.
  - exists f'. split_and!; try done. by rewrite Hc.
Qed.

Definition lab_fleet_run (l : AllocationLifecycle) (f : @fleet table_db) : Prop :=
  rtc (lab_fleet_step l) (@fleet_init table_db ∅) f.

(** Replica 0, then replica 1, whose clock is a minute ahead. *)
Lemma lab_fleet : exists f, lab_fleet_run sql_lifecycle f /\
  sv_received (fl_servers f 0) = [(query plain_header "App.example.com." TypeA, peer_a)] /\
  sv_sent (fl_servers f 0) = [(0%nat, lab_reply "App.example.com.", peer_a)] /\
  sv_received (fl_servers f 1) = [(query plain_header "app.example.com" TypeA, peer_b)] /\
  sv_sent (fl_servers f 1) = [(0%nat, lab_reply "app.example.com", peer_b)].
Proof.
  destruct (lab_served sql_lifecycle (@fleet_init table_db ∅) 0 "App.example.com." peer_a noon first_call)
    as (f1 & Hs1 & Hd1 & Hc1 & Hr1 & Ht1 & Hj1).
  { by left. }
  { by repeat split. }
  { reflexivity. }
  { by vm_compute. }
  { unfold first_call. reflexivity. }
  { exact (proj1 lab_decisions). }
  destruct (Hj1 1%nat) as [Ev Ep]; [done|].
  destruct (lab_served sql_lifecycle f1 1 "app.example.com" peer_b (noon + Minute) second_call)
    as (f2 & Hs2 & Hd2 & Hc2 & Hr2 & Ht2 & Hj2).
  { right. split; reflexivity. }
  { rewrite Ev. by repeat split. }
  { exact Hc1. }
  { split; vm_compute; discriminate. }
  { rewrite Hd1, Ep. unfold second_call. reflexivity. }
  { exact (proj2 lab_decisions). }
  destruct (Hj2 0%nat) as [Ev0 _]; [done|].
  exists f2. rewrite Ev0, Hr1, Ht1, Hr2, Ht2, Ev. split; [|by repeat split]. unfold lab_fleet_run. by etrans.
Qed.

Lemma lab_gave l f i name peer :
  i = 0%nat /\ name = lit "App.example.com." \/ i = 1%nat /\ name = lit "app.example.com" ->
  peer = peer_a \/ peer = peer_b ->
  sv_received (fl_servers f i) = [(query plain_header name TypeA, peer)] ->
  sv_sent (fl_servers f i) = [(0%nat, lab_reply name, peer)] ->
  @gave table_min table_db (lab_service l) (fun _ => lab_identity) f i "app.example.com" lab 184418305.
Proof.
  intros Hi Hp Hr Hs. split; [lia|]. exists 0%nat, (lab_reply name), peer, plain_header, name. split; [|split].
  - split; [by rewrite Hr|]. split; [apply plain_header_plain|]. split; [|split].
    + destruct Hi as [[_ ->]|[_ ->]]; vm_compute; repeat constructor.
    + intros [nodes|]; by destruct Hi as [[_ ->]|[_ ->]]; vm_compute.
    + destruct Hi as [[_ ->]|[_ ->]], Hp as [->| ->]; by vm_compute.
  - rewrite Hs. apply list_elem_of_here.
  - destruct Hi as [[_ ->]|[_ ->]]; by vm_compute.
Qed.


(** ** A server without a database *)

Definition memory_lifecycle : AllocationLifecycle := mkLifecycle false [] 0.

Definition memory_call := lab_call memory_lifecycle 0 noon "App.example.com." peer_a NewProcess ∅.

Lemma memory_decision : memory_call.1.1 = lab_decision.
Proof. by vm_compute. Qed.

Lemma memory_fleet : exists f, lab_fleet_run memory_lifecycle f /\
  sv_received (fl_servers f 0) = [(query plain_header "App.example.com." TypeA, peer_a)] /\
  sv_sent (fl_servers f 0) = [(0%nat, lab_reply "App.example.com.", peer_a)].
Proof.
  destruct (lab_served memory_lifecycle (@fleet_init table_db ∅) 0 "App.example.com." peer_a noon memory_call)
    as (f1 & Hs1 & Hd1 & Hc1 & Hr1 & Ht1 & Hj1).
  { by left. }
  { by repeat split. }
  { reflexivity. }
  { by vm_compute. }
  { unfold memory_call. reflexivity. }
  { exact memory_decision. }
  exists f1. rewrite Hr1, Ht1. split; [exact Hs1|]. by repeat split.
Qed.

(** The only pool of the lab. *)
Definition lab_family : gmap str (list Prefix) := {[ rangeKey lab := lab ]}.

Lemma lab_separated : separated lab.
Proof.
  split.
  - by repeat constructor; vm_compute.
  - intros [|i] [|j] p q Hp Hq Hne; simplify_eq/=; done.
  - unfold lab. intros p q Hp%list_elem_of_singleton Hq%list_elem_of_singleton. subst. by vm_compute.
  - unfold lab. intros p Hp%list_elem_of_singleton. subst. by vm_compute.
Qed.

Lemma lab_pools_ok : pools_ok lab_family.
Proof.
  unfold lab_family. split.
  - intros g ps [<- <-]%lookup_singleton_Some. apply lab_separated.
  - intros g ps [<- <-]%lookup_singleton_Some. apply rangeKey_no_nul. by repeat constructor; vm_compute.
  - intros g h ps qs x [<- <-]%lookup_singleton_Some [<- <-]%lookup_singleton_Some. done.
Qed.

Lemma lab_only l i source name n rs :
  @pool_for table_min ((fun _ : nat => lab_identity) i) (lab_service l) source name = Some (n, rs) -> rs = lab.
Proof.
  unfold pool_for. destruct (fromGateway _ source); [done|]. destruct (NormalName name) as [n' []]; [|done].
  change (Capabilities source AddrZero) with (Some lab_caps). cbn iota beta.
  assert (E : exists r, @Parse table_min lab_caps = [mkGrant [] [r] lab]) by (eexists; vm_compute; reflexivity).
  destruct E as [r ->]. unfold RangesForName. cbn. destruct (match_ (Domain r) n'); cbn; [|done]. by intros [= _ <-].
Qed.

Lemma lab_family_keys g ps : lab_family !! g = Some ps -> wf_ranges ps /\ g = rangeKey ps.
Proof.
  unfold lab_family. intros [<- <-]%lookup_singleton_Some. split; [|done].
  split; [done|apply lab_wf|exact (sep_disjoint _ lab_separated)].
Qed.

Lemma lab_family_pools l (i : nat) source name n rs :
  @pool_for table_min ((fun _ : nat => lab_identity) i) (lab_service l) source name = Some (n, rs) ->
  lab_family !! rangeKey rs = Some rs.
Proof. intros ->%(lab_only l i). by vm_compute. Qed.

