(* ===== verification/JsonText.v ===== *)
(** * The text of JSON values

    [json.Marshal] and [json.Unmarshal] as the state file uses them: the compact text of a
    value, with the escapes of [encoding/json], and a parser of the whole grammar, white
    space, escapes, surrogate pairs and malformed UTF-8 included.  The tree a text denotes
    is decoded by the rules of [Json]. *)

From S2P Require Import Prelude GoStrings NetAddr Json.

(** ** Printing *)

Definition quot : byte := byte_of 34.
Definition bslash : byte := byte_of 92.

(** The escape of an ASCII byte; [<], [>] and [&] are escaped too. *)
Definition escape_byte (c : byte) : str :=
  let x := bval c in
  if (x =? 34) || (x =? 92) then [bslash; c]
  else if x =? 8 then [bslash; "b"%char]
  else if x =? 12 then [bslash; "f"%char]
  else if x =? 10 then [bslash; "n"%char]
  else if x =? 13 then [bslash; "r"%char]
  else if x =? 9 then [bslash; "t"%char]
  else if (x <? 32) || (x =? 60) || (x =? 62) || (x =? 38)
    then bslash :: "u00" ++ [hex_digit (Z.shiftr x 4); hex_digit (Z.land x 15)]
  else [c].

(** The contents of a string; [skip] bytes of the current rune remain. *)
Fixpoint quote_go (skip : nat) (s : str) : str :=
  match s with
  | [] => []
  | c :: s' =>
      match skip with
      | S k => quote_go k s'
      | O =>
          if bval c <? 128 then escape_byte c ++ quote_go 0 s' else
          let '(r, w) := DecodeRune s in
          (if (w =? 1)%nat then bslash :: "ufffd"
           else if (r =? 8232) || (r =? 8233) then bslash :: "u202" ++ [hex_digit (Z.land r 15)]
           else take w s) ++ quote_go (w - 1) s'
      end
  end.

Definition quote (s : str) : str := quot :: quote_go 0 s ++ [quot].

Fixpoint commas (l : list str) : str :=
  match l with
  | [] => []
  | [x] => x
  | x :: l' => x ++ "," ++ commas l'
  end.

Fixpoint print (j : json) : str :=
  match j with
  | JNull => "null"
  | JBool b => if b then "true" else "false"
  | JNum text => text
  | JStr s => quote s
  | JArr l => "[" ++ commas (map print l) ++ "]"
  | JObj l => "{" ++ commas (map (fun kv => quote kv.1 ++ ":" ++ print kv.2) l) ++ "}"
  end.

(** ** Parsing *)

Inductive parsed (A : Type) := Parsed (a : A) (rest : str) | Malformed | OutOfFuel.
#[global] Arguments Parsed {A} _ _.
#[global] Arguments Malformed {A}.
#[global] Arguments OutOfFuel {A}.

Definition is_space (c : byte) : bool :=
  let x := bval c in (x =? 32) || (x =? 9) || (x =? 10) || (x =? 13).

Fixpoint skip_space (s : str) : str :=
  match s with
  | c :: s' => if is_space c then skip_space s' else s
  | [] => []
  end.

Definition digit_value (c : byte) : option Z :=
  let x := bval c in
  if (48 <=? x) && (x <=? 57) then Some (x - 48)
  else if (97 <=? x) && (x <=? 102) then Some (x - 87)
  else if (65 <=? x) && (x <=? 70) then Some (x - 55)
  else None.

(** Four hexadecimal digits. *)
Definition getu4 (a b c d : byte) : option Z :=
  match digit_value a, digit_value b, digit_value c, digit_value d with
  | Some a, Some b, Some c, Some d => Some (a * 4096 + b * 256 + c * 16 + d)
  | _, _, _, _ => None
  end.

Definition is_surrogate (r : Z) : bool := (55296 <=? r) && (r <? 57344).

(** [utf16.DecodeRune]. *)
Definition surrogate_pair (r1 r2 : Z) : option Z :=
  if (55296 <=? r1) && (r1 <? 56320) && (56320 <=? r2) && (r2 <? 57344)
  then Some (Z.lor (Z.shiftl (r1 - 55296) 10) (r2 - 56320) + 65536) else None.

(** The escapes of one letter. *)
Definition unescape (c : byte) : option byte :=
  let x := bval c in
  if (x =? 34) || (x =? 92) || (x =? 47) then Some c
  else if x =? 98 then Some (byte_of 8)
  else if x =? 102 then Some (byte_of 12)
  else if x =? 110 then Some (byte_of 10)
  else if x =? 114 then Some (byte_of 13)
  else if x =? 116 then Some (byte_of 9)
  else None.

Definition prepend (bs : str) (r : option (str * str)) : option (str * str) :=
  match r with Some (s, rest) => Some (bs ++ s, rest) | None => None end.

(** A string up to its closing quote, and the rest. *)
Fixpoint unquote (skip : nat) (s : str) : option (str * str) :=
  match s with
  | [] => None
  | c :: s' =>
      match skip with
      | S k => unquote k s'
      | O =>
          if bval c =? 34 then Some ([], s')
          else if bval c =? 92 then
            match s' with
            | [] => None
            | e :: s2 =>
                match unescape e with
                | Some b => prepend [b] (unquote 0 s2)
                | None =>
                    if negb (bval e =? 117) then None else
                    match s2 with
                    | h1 :: h2 :: h3 :: h4 :: s3 =>
                        match getu4 h1 h2 h3 h4 with
                        | None => None
                        | Some r =>
                            if negb (is_surrogate r) then prepend (EncodeRune r) (unquote 0 s3) else
                            match s3 with
                            | b :: u :: l1 :: l2 :: l3 :: l4 :: s4 =>
                                match (if (bval b =? 92) && (bval u =? 117)
                                       then getu4 l1 l2 l3 l4 ≫= surrogate_pair r else None) with
                                | Some r' => prepend (EncodeRune r') (unquote 0 s4)
                                | None => prepend (EncodeRune RuneError) (unquote 0 s3)
                                end
                            | _ => prepend (EncodeRune RuneError) (unquote 0 s3)
                            end
                        end
                    | _ => None
                    end
                end
            end
          else if bval c <? 32 then None
          else if bval c <? 128 then prepend [c] (unquote 0 s')
          else let '(r, w) := DecodeRune s in prepend (EncodeRune r) (unquote (w - 1) s')
      end
  end.

Fixpoint digits (s : str) : str * str :=
  match s with
  | c :: s' => if is_digit c then let '(d, r) := digits s' in (c :: d, r) else ([], s)
  | [] => ([], [])
  end.

(** At least one digit. *)
Definition digits1 (s : str) : option (str * str) :=
  match digits s with ([], _) => None | (d, r) => Some (d, r) end.

Definition scan_int (s : str) : option (str * str) :=
  match s with
  | c :: s' => if bval c =? 48 then Some ([c], s') else digits1 s
  | [] => None
  end.

Definition scan_fraction (s : str) : option (str * str) :=
  match s with
  | c :: s' => if bval c =? 46 then prepend [c] (digits1 s') else Some ([], s)
  | [] => Some ([], [])
  end.

Definition scan_exponent (s : str) : option (str * str) :=
  match s with
  | c :: s' =>
      if (bval c =? 101) || (bval c =? 69) then
        match s' with
        | sg :: s2 =>
            if (bval sg =? 43) || (bval sg =? 45) then prepend [c; sg] (digits1 s2) else prepend [c] (digits1 s')
        | [] => None
        end
      else Some ([], s)
  | [] => Some ([], [])
  end.

(** A number: its text is kept. *)
Definition scan_number (s : str) : option (str * str) :=
  let '(sign, s1) := match s with
                     | c :: s' => if bval c =? 45 then ([c], s') else ([], s)
                     | [] => ([], [])
                     end in
  match scan_int s1 with
  | Some (i, s2) =>
      match scan_fraction s2 with
      | Some (fr, s3) =>
          match scan_exponent s3 with
          | Some (ex, s4) => Some (sign ++ i ++ fr ++ ex, s4)
          | None => None
          end
      | None => None
      end
  | None => None
  end.

Definition max_depth : Z := 10000.

(** A value that is no array and no object. *)
Definition parse_scalar (s : str) : parsed json :=
  match s with
  | [] => Malformed
  | c :: s' =>
      if bval c =? 34 then match unquote 0 s' with Some (t, r) => Parsed (JStr t) r | None => Malformed end
      else if HasPrefix s "null" then Parsed JNull (drop 4 s)
      else if HasPrefix s "true" then Parsed (JBool true) (drop 4 s)
      else if HasPrefix s "false" then Parsed (JBool false) (drop 5 s)
      else match scan_number s with Some (t, r) => Parsed (JNum t) r | None => Malformed end
  end.

(** The key of a member, its colon included. *)
Definition parse_key (s : str) : option (str * str) :=
  match skip_space s with
  | c :: s' =>
      if negb (bval c =? 34) then None else
      match unquote 0 s' with
      | Some (k, r) =>
          match skip_space r with
          | c' :: r' => if bval c' =? 58 then Some (k, r') else None
          | [] => None
          end
      | None => None
      end
  | [] => None
  end.

(** What follows an element: a comma, or the end. *)
Inductive separator := More (rest : str) | End (rest : str) | Neither.

Definition parse_separator (close : Z) (s : str) : separator :=
  match skip_space s with
  | c :: r => if bval c =? 44 then More r else if bval c =? close then End r else Neither
  | [] => Neither
  end.

(** An immediately closed array or object. *)
Definition closes (close : Z) (s : str) : option str :=
  match skip_space s with
  | c :: r => if bval c =? close then Some r else None
  | [] => None
  end.

Fixpoint parse_value (fuel : nat) (depth : Z) (s : str) : parsed json :=
  match fuel with
  | O => OutOfFuel
  | S f =>
      match skip_space s with
      | [] => Malformed
      | c :: s1 =>
          if bval c =? 91 then
            if max_depth <=? depth then Malformed else
            match closes 93 s1 with
            | Some r => Parsed (JArr []) r
            | None =>
                match parse_elems f (depth + 1) s1 with
                | Parsed l r => Parsed (JArr l) r
                | Malformed => Malformed
                | OutOfFuel => OutOfFuel
                end
            end
          else if bval c =? 123 then
            if max_depth <=? depth then Malformed else
            match closes 125 s1 with
            | Some r => Parsed (JObj []) r
            | None =>
                match parse_members f (depth + 1) s1 with
                | Parsed l r => Parsed (JObj l) r
                | Malformed => Malformed
                | OutOfFuel => OutOfFuel
                end
            end
          else parse_scalar (c :: s1)
      end
  end
with parse_elems (fuel : nat) (depth : Z) (s : str) : parsed (list json) :=
  match fuel with
  | O => OutOfFuel
  | S f =>
      match parse_value f depth s with
      | Parsed j r =>
          match parse_separator 93 r with
          | End r' => Parsed [j] r'
          | More r' =>
              match parse_elems f depth r' with
              | Parsed l r2 => Parsed (j :: l) r2
              | Malformed => Malformed
              | OutOfFuel => OutOfFuel
              end
          | Neither => Malformed
          end
      | Malformed => Malformed
      | OutOfFuel => OutOfFuel
      end
  end
with parse_members (fuel : nat) (depth : Z) (s : str) : parsed (list (str * json)) :=
  match fuel with
  | O => OutOfFuel
  | S f =>
      match parse_key s with
      | None => Malformed
      | Some (k, s1) =>
          match parse_value f depth s1 with
          | Parsed j r =>
              match parse_separator 125 r with
              | End r' => Parsed [(k, j)] r'
              | More r' =>
                  match parse_members f depth r' with
                  | Parsed l r2 => Parsed ((k, j) :: l) r2
                  | Malformed => Malformed
                  | OutOfFuel => OutOfFuel
                  end
              | Neither => Malformed
              end
          | Malformed => Malformed
          | OutOfFuel => OutOfFuel
          end
      end
  end.

(** The fuel is enough for any text: every two calls read at least a byte. *)
Definition parse_fuel (s : str) : nat := 2 * length s + 2.

(** The tree of a text; [None] is a syntax error. *)
Definition parse_json (s : str) : option json :=
  match parse_value (parse_fuel s) 0 s with
  | Parsed j r => if str_eqb (skip_space r) [] then Some j else None
  | _ => None
  end.

(** ** Printing and parsing *)

(** What the round trip is about: strings of ASCII bytes, and no numbers. *)
Fixpoint plain_json (j : json) : bool :=
  match j with
  | JNull | JBool _ => true
  | JNum _ => false
  | JStr s => is_ascii s
  | JArr l => forallb plain_json l
  | JObj l => forallb (fun kv => is_ascii kv.1 && plain_json kv.2) l
  end.

Fixpoint height (j : json) : Z :=
  match j with
  | JArr l => 1 + foldr Z.max 0 (map height l)
  | JObj l => 1 + foldr Z.max 0 (map (fun kv => height kv.2) l)
  | _ => 0
  end.

Section json_induction.
Context (P : json -> Prop).
Context (Hnull : P JNull) (Hbool : forall b, P (JBool b)) (Hnum : forall t, P (JNum t)) (Hstr : forall s, P (JStr s)).
Context (Harr : forall l, Forall P l -> P (JArr l)) (Hobj : forall l, Forall (fun kv => P kv.2) l -> P (JObj l)).

Fixpoint json_induction (j : json) : P j :=
  match j with
  | JNull => Hnull
  | JBool b => Hbool b
  | JNum t => Hnum t
  | JStr s => Hstr s
  | JArr l => Harr l ((fix go l := match l return Forall P l with
                                   | [] => Forall_nil_2 _
                                   | j :: l' => Forall_cons_2 _ _ _ (json_induction j) (go l')
                                   end) l)
  | JObj l => Hobj l ((fix go l := match l return Forall (fun kv => P kv.2) l with
                                   | [] => Forall_nil_2 _
                                   | kv :: l' => Forall_cons_2 _ _ _ (json_induction kv.2) (go l')
                                   end) l)
  end.
End json_induction.

Lemma unquote_escape c t : bval c < 128 -> unquote 0 (escape_byte c ++ t) = prepend [c] (unquote 0 t).
Proof. intros Hc. destruct c as [[] [] [] [] [] [] [] []]; try reflexivity; by exfalso; vm_compute in Hc. Qed.

Lemma unquote_quote s r : is_ascii s = true -> unquote 0 (quote_go 0 s ++ quot :: r) = Some (s, r).
Proof.
  induction s as [|c s IH]; [done|]. intros [Hc Hs]%andb_prop. cbn [quote_go]. rewrite Hc.
  apply Z.ltb_lt in Hc. rewrite <-app_assoc, unquote_escape by done. by rewrite (IH Hs).
Qed.

(** The text of a plain value starts with a byte that is neither space nor a bracket that
    closes. *)
Lemma print_head j : plain_json j = true -> exists c t, print j = c :: t /\ is_space c = false /\ bval c <> 93.
Proof. destruct j as [|[]|t|s|l|l]; intros Hp; try done; by eexists _, _. Qed.

Lemma print_skip j r : plain_json j = true -> skip_space (print j ++ r) = print j ++ r /\ closes 93 (print j ++ r) = None.
Proof.
  intros (c & t & E & Hs & Hn)%print_head. rewrite E. unfold closes. cbn [app skip_space]. rewrite Hs.
  by rewrite (proj2 (Z.eqb_neq _ _) Hn).
Qed.

Lemma quote_ascii_length s : (2 <= length (quote s))%nat.
Proof. unfold quote. cbn. rewrite length_app. cbn. lia. Qed.

Lemma commas_cons x l : commas (x :: l) = x ++ match l with [] => [] | _ => "," ++ commas l end.
Proof. destruct l; cbn [commas]; [by rewrite app_nil_r|done]. Qed.

(** What one value's round trip says, with fuel twice the length of its text. *)
Definition parses_back (j : json) : Prop := plain_json j = true -> forall fuel depth r,
  (2 * length (print j) <= fuel)%nat -> depth + height j <= max_depth -> parse_value fuel depth (print j ++ r) = Parsed j r.

Lemma parse_elems_print l : Forall parses_back l -> forallb plain_json l = true -> l <> [] -> forall fuel depth r,
  (2 * length (commas (map print l)) + 2 <= fuel)%nat -> depth + foldr Z.max 0 (map height l) <= max_depth ->
  parse_elems fuel depth (commas (map print l) ++ "]" ++ r) = Parsed l r.
Proof.
  intros Hf. induction Hf as [|j l Hj Hl IH]; intros Hp Hne fuel depth r Hfuel Hd; [done|].
  cbn in Hp. apply andb_prop in Hp as [Hpj Hpl]. cbn [map foldr] in *. rewrite commas_cons in *.
  rewrite length_app in Hfuel. destruct fuel as [|f]; [lia|]. cbn [parse_elems]. rewrite <-app_assoc.
  rewrite Hj by (done || lia). destruct l as [|j' l]; [done|]. cbn [map] in *.
  change (parse_separator 93 (("," ++ commas (print j' :: map print l)) ++ "]" ++ r))
    with (More (commas (print j' :: map print l) ++ "]" ++ r)).
  rewrite length_app in Hfuel. change (length (lit ",")) with 1%nat in Hfuel. cbn iota beta.
  rewrite (IH Hpl) by (done || lia). done.
Qed.

Abbreviation print_member kv := (quote kv.1 ++ ":" ++ print kv.2).

Lemma parse_members_print l :
  Forall (fun kv => parses_back kv.2) l -> forallb (fun kv => is_ascii kv.1 && plain_json kv.2) l = true -> l <> [] ->
  forall fuel depth r,
  (2 * length (commas (map (fun kv => print_member kv) l)) + 2 <= fuel)%nat ->
  depth + foldr Z.max 0 (map (fun kv => height kv.2) l) <= max_depth ->
  parse_members fuel depth (commas (map (fun kv => print_member kv) l) ++ "}" ++ r) = Parsed l r.
Proof.
  intros Hf. induction Hf as [|[k j] l Hj Hl IH]; intros Hp Hne fuel depth r Hfuel Hd; [done|].
  cbn [forallb fst snd] in Hp. apply andb_prop in Hp as [[Hk Hpj]%andb_prop Hpl]. cbn [map foldr fst snd] in *.
  rewrite commas_cons in *. rewrite !length_app in Hfuel. change (length (lit ":")) with 1%nat in Hfuel.
  destruct fuel as [|f]; [lia|]. cbn [parse_members].
  assert (Hkey : forall t, parse_key (quote k ++ ":" ++ print j ++ t) = Some (k, print j ++ t)).
  { intros t. unfold parse_key, quote. cbn [app skip_space]. change (is_space quot) with false. cbn iota.
    change (negb (bval quot =? 34)) with false. cbn iota. rewrite <-!app_assoc. cbn [app]. by rewrite unquote_quote. }
  rewrite <-!app_assoc, Hkey, Hj by (done || lia).
  destruct l as [|kv l]; [done|]. cbn [map] in *.
  change (parse_separator 125 (("," ++ commas (print_member kv :: map (fun kv => print_member kv) l)) ++ "}" ++ r))
    with (More (commas (print_member kv :: map (fun kv => print_member kv) l) ++ "}" ++ r)).
  rewrite length_app in Hfuel. change (length (lit ",")) with 1%nat in Hfuel. cbn iota beta.
  rewrite (IH Hpl) by (done || lia). done.
Qed.

Lemma print_parses_back j : parses_back j.
Proof.
  induction j as [|b|t|s|l Hl|l Hl] using json_induction; intros Hp fuel depth r Hfuel Hd; try done.
  - destruct fuel as [|f]; [cbn in Hfuel; lia|done].
  - destruct fuel as [|f]; [destruct b; cbn in Hfuel; lia|by destruct b].
  - pose proof (quote_ascii_length s). cbn [print] in *. destruct fuel as [|f]; [lia|].
    cbn [parse_value]. unfold quote. cbn [app skip_space]. change (is_space quot) with false. cbn iota.
    change (bval quot =? 91) with false. change (bval quot =? 123) with false. cbn iota. unfold parse_scalar.
    change (bval quot =? 34) with true. cbn iota. rewrite <-app_assoc. cbn [app]. by rewrite unquote_quote.
  - cbn [print height] in *. rewrite !length_app in Hfuel. change (length (lit "[")) with 1%nat in Hfuel.
    change (length (lit "]")) with 1%nat in Hfuel. destruct fuel as [|f]; [lia|].
    assert (Hdp : (max_depth <=? depth) = false).
    { apply Z.leb_gt. enough (0 <= foldr Z.max 0 (map height l)) by lia. clear. induction l; cbn; lia. }
    destruct l as [|j l]; [cbn; by rewrite Hdp|].
    rewrite <-!app_assoc. match goal with |- context [lit "[" ++ ?x] => change (lit "[" ++ x) with ("["%char :: x) end.
    cbn [parse_value skip_space]. change (is_space "[") with false. cbn iota. change (bval "[" =? 91) with true. cbn iota. rewrite Hdp.
    assert (Hc : closes 93 (commas (map print (j :: l)) ++ "]" ++ r) = None).
    { cbn [map]. rewrite commas_cons, <-app_assoc. apply print_skip. by apply andb_prop in Hp as []. }
    rewrite Hc, parse_elems_print by (done || lia). done.
  - cbn [print height] in *. rewrite !length_app in Hfuel. change (length (lit "{")) with 1%nat in Hfuel.
    change (length (lit "}")) with 1%nat in Hfuel. destruct fuel as [|f]; [lia|].
    assert (Hdp : (max_depth <=? depth) = false).
    { apply Z.leb_gt. enough (0 <= foldr Z.max 0 (map (fun kv => height kv.2) l)) by lia. clear. induction l; cbn; lia. }
    destruct l as [|kv l]; [cbn; by rewrite Hdp|].
    rewrite <-!app_assoc. match goal with |- context [lit "{" ++ ?x] => change (lit "{" ++ x) with ("{"%char :: x) end.
    cbn [parse_value skip_space]. change (is_space "{") with false. cbn iota. change (bval "{" =? 91) with false. cbn iota.
    change (bval "{" =? 123) with true. cbn iota. rewrite Hdp.
    assert (Hc : closes 125 (commas (map (fun kv => print_member kv) (kv :: l)) ++ "}" ++ r) = None).
    { cbn [map]. by rewrite commas_cons. }
    rewrite Hc, parse_members_print by (done || lia). done.
Qed.

(** A plain value is read back from its text. *)
Theorem parse_print j : plain_json j = true -> height j <= max_depth -> parse_json (print j) = Some j.
Proof.
  intros Hp Hh. unfold parse_json, parse_fuel. rewrite <-(app_nil_r (print j)).
  rewrite (print_parses_back j Hp) by (rewrite ?app_nil_r; lia). done.
Qed.

(** ** The fuel is enough *)

Lemma skip_space_length s : (length (skip_space s) <= length s)%nat.
Proof. induction s as [|c s IH]; cbn; [lia|]. destruct (is_space c); cbn; lia. Qed.

Lemma prepend_Some bs o t r : prepend bs o = Some (t, r) -> exists t', o = Some (t', r).
Proof. destruct o as [[t' r']|]; cbn; [|done]. intros [= <- <-]. eauto. Qed.

(** A reader that consumes at least [n] bytes. *)
Definition consumes (n : nat) (s : str) (o : option (str * str)) : Prop :=
  forall t r, o = Some (t, r) -> (n + length r <= length s)%nat.

Lemma consumes_prepend n bs s o : consumes n s o -> consumes n s (prepend bs o).
Proof. intros H t r [t' E]%prepend_Some. by eapply H. Qed.

Lemma unquote_consumes s skip : consumes 1 s (unquote skip s).
Proof.
  remember (length s) as n eqn:E. revert s skip E. induction n as [n IH] using lt_wf_ind. intros s skip ->.
  assert (Hrec : forall bs s' k, (length s' < length s)%nat -> consumes 1 s (prepend bs (unquote k s'))).
  { intros bs s' k Hl. apply consumes_prepend. intros t r Hr. specialize (IH _ Hl s' k eq_refl t r Hr). lia. }
  destruct s as [|c s']; [done|]. cbn [unquote].
  destruct skip as [|k]; [|intros t r Hr; specialize (IH (length s') ltac:(cbn; lia) s' k eq_refl t r Hr); cbn; lia].
  destruct (bval c =? 34); [intros t r [= _ <-]; cbn; lia|].
  destruct (bval c =? 92); [|destruct (bval c <? 32); [done|]; destruct (bval c <? 128);
    [apply Hrec; cbn; lia|destruct (DecodeRune (c :: s')) as [x w]; apply Hrec; cbn; lia]].
  destruct s' as [|e s2]; [done|]. destruct (unescape e); [apply Hrec; cbn; lia|].
  destruct (negb (bval e =? 117)); [done|].
  destruct s2 as [|h1 [|h2 [|h3 [|h4 s3]]]]; try done. destruct (getu4 h1 h2 h3 h4) as [x|]; [|done].
  destruct (negb (is_surrogate x)); [apply Hrec; cbn; lia|].
  destruct s3 as [|b [|u [|l1 [|l2 [|l3 [|l4 s4]]]]]]; try (apply Hrec; cbn; lia).
  destruct (if (bval b =? 92) && (bval u =? 117) then _ else None); apply Hrec; cbn; lia.
Qed.

Lemma digits_length s : length (digits s).1 = (length s - length (digits s).2)%nat /\ (length (digits s).2 <= length s)%nat.
Proof.
  induction s as [|c s IH]; cbn; [lia|]. destruct (is_digit c); cbn; [|lia]. destruct (digits s). cbn in *. lia.
Qed.

Lemma digits1_consumes s : consumes 1 s (digits1 s).
Proof.
  intros t r. unfold digits1. pose proof (digits_length s) as H. destruct (digits s) as [[|c d] r']; [done|].
  cbn in H. intros [= <- <-]. lia.
Qed.

Lemma consumes_weaken n m s s' o : consumes n s' o -> (m + length s' <= n + length s)%nat -> consumes m s o.
Proof. intros H Hl t r E. specialize (H t r E). lia. Qed.

Lemma scan_number_consumes s : consumes 1 s (scan_number s).
Proof.
  intros t r. unfold scan_number.
  assert (Hsg : exists sign s1, match s with c :: s' => if bval c =? 45 then ([c], s') else ([], s) | [] => ([], []) end
    = (sign, s1) /\ (length s1 <= length s)%nat).
  { destruct s as [|c s']; [by eexists _, _|]. destruct (bval c =? 45); eexists _, _; (split; [done|cbn; lia]). }
  destruct Hsg as (sign & s1 & -> & Hs1).
  destruct (scan_int s1) as [[i s2]|] eqn:Ei; [|done].
  assert (H2 : consumes 1 s1 (scan_int s1)).
  { unfold scan_int. destruct s1 as [|c s']; [done|]. destruct (bval c =? 48); [|apply digits1_consumes].
    intros ? ? [= _ <-]. cbn. lia. }
  specialize (H2 _ _ Ei).
  destruct (scan_fraction s2) as [[fr s3]|] eqn:Ef; [|done].
  assert (H3 : consumes 0 s2 (scan_fraction s2)).
  { unfold scan_fraction. destruct s2 as [|c s']; [by intros ? ? [= _ <-]|]. destruct (bval c =? 46).
    - eapply consumes_prepend, consumes_weaken; [apply digits1_consumes|cbn; lia].
    - intros ? ? [= _ <-]. lia. }
  specialize (H3 _ _ Ef).
  destruct (scan_exponent s3) as [[ex s4]|] eqn:Ee; [|done].
  assert (H4 : consumes 0 s3 (scan_exponent s3)).
  { unfold scan_exponent. destruct s3 as [|c s']; [by intros ? ? [= _ <-]|].
    destruct ((bval c =? 101) || (bval c =? 69)); [|intros ? ? [= _ <-]; lia]. destruct s' as [|sg s'']; [done|].
    destruct ((bval sg =? 43) || (bval sg =? 45)); (eapply consumes_prepend, consumes_weaken; [apply digits1_consumes|cbn; lia]). }
  specialize (H4 _ _ Ee). intros [= _ <-]. lia.
Qed.

(** A parser that reads at least a byte and does not run out. *)
Definition parses {A} (s : str) (p : parsed A) : Prop :=
  match p with Parsed _ r => (length r < length s)%nat | Malformed => True | OutOfFuel => False end.

Lemma parse_scalar_parses s : parses s (parse_scalar s).
Proof.
  unfold parse_scalar. destruct s as [|c s']; [done|]. destruct (bval c =? 34).
  { destruct (unquote 0 s') as [[t r]|] eqn:E; [|done]. apply unquote_consumes in E. cbn. lia. }
  destruct (HasPrefix _ "null"); [cbn; rewrite length_drop; lia|].
  destruct (HasPrefix _ "true"); [cbn; rewrite length_drop; lia|].
  destruct (HasPrefix _ "false"); [cbn; rewrite length_drop; lia|].
  destruct (scan_number (c :: s')) as [[t r]|] eqn:E; [|done]. apply scan_number_consumes in E. cbn in *. lia.
Qed.

Lemma parse_key_consumes s : consumes 1 s (parse_key s).
Proof.
  intros t r. unfold parse_key. pose proof (skip_space_length s). destruct (skip_space s) as [|c s']; [done|].
  destruct (negb (bval c =? 34)); [done|]. destruct (unquote 0 s') as [[k r']|] eqn:E; [|done].
  apply unquote_consumes in E. pose proof (skip_space_length r'). destruct (skip_space r') as [|c' r2]; [done|].
  destruct (bval c' =? 58); [|done]. intros [= _ <-]. cbn in *. lia.
Qed.

Lemma parse_separator_length close s :
  match parse_separator close s with More r | End r => (length r < length s)%nat | Neither => True end.
Proof.
  unfold parse_separator. pose proof (skip_space_length s). destruct (skip_space s) as [|c r]; [done|]. cbn in *.
  destruct (bval c =? 44); [lia|]. destruct (bval c =? close); [lia|done].
Qed.

Lemma closes_length close s r : closes close s = Some r -> (length r < length s)%nat.
Proof.
  unfold closes. pose proof (skip_space_length s). destruct (skip_space s) as [|c r']; [done|]. cbn in *.
  destruct (bval c =? close); [|done]. intros [= <-]. lia.
Qed.

Lemma parse_value_parses fuel : forall depth s,
  ((2 * length s + 1 <= fuel)%nat -> parses s (parse_value fuel depth s)) /\
  ((2 * length s + 2 <= fuel)%nat -> parses s (parse_elems fuel depth s) /\ parses s (parse_members fuel depth s)).
Proof.
  induction fuel as [|f IH]; intros depth s; (split; intros Hf; [|split]); try lia.
  - cbn [parse_value]. pose proof (skip_space_length s) as Hl. destruct (skip_space s) as [|c s1]; [done|]. cbn in Hl.
    destruct (proj2 (IH (depth + 1) s1) ltac:(lia)) as [He Hm].
    destruct (bval c =? 91); [|destruct (bval c =? 123)].
    + destruct (max_depth <=? depth); [done|]. destruct (closes 93 s1) eqn:Ec; [apply closes_length in Ec; cbn; lia|].
      destruct (parse_elems f (depth + 1) s1); cbn in *; [lia|done..].
    + destruct (max_depth <=? depth); [done|]. destruct (closes 125 s1) eqn:Ec; [apply closes_length in Ec; cbn; lia|].
      destruct (parse_members f (depth + 1) s1); cbn in *; [lia|done..].
    + pose proof (parse_scalar_parses (c :: s1)) as Hs. destruct (parse_scalar (c :: s1)); cbn in *; [lia|done..].
  - cbn [parse_elems]. pose proof (proj1 (IH depth s) ltac:(lia)) as Hv. destruct (parse_value f depth s) as [j r| |]; [|done..].
    cbn in Hv. pose proof (parse_separator_length 93 r) as Hs. destruct (parse_separator 93 r) as [r'|r'|]; [|cbn; lia|done].
    destruct (proj2 (IH depth r') ltac:(lia)) as [He _]. destruct (parse_elems f depth r'); cbn in *; [lia|done..].
  - cbn [parse_members]. destruct (parse_key s) as [[k s1]|] eqn:Ek; [|done]. apply parse_key_consumes in Ek.
    pose proof (proj1 (IH depth s1) ltac:(lia)) as Hv. destruct (parse_value f depth s1) as [j r| |]; [|done..].
    cbn in Hv. pose proof (parse_separator_length 125 r) as Hs. destruct (parse_separator 125 r) as [r'|r'|]; [|cbn; lia|done].
    destruct (proj2 (IH depth r') ltac:(lia)) as [_ Hm]. destruct (parse_members f depth r'); cbn in *; [lia|done..].
Qed.

(** [parse_json] is [None] on syntax errors only. *)
Theorem parse_json_fuel s : parse_value (parse_fuel s) 0 s <> OutOfFuel.
Proof.
  pose proof (proj1 (parse_value_parses (parse_fuel s) 0 s)) as H. unfold parse_fuel in *.
  intros E. rewrite E in H. by apply H; lia.
Qed.

(** White space, escapes and surrogate pairs are read; raw control bytes, trailing commas
    and a second value are not. *)
Example parse_json_cases :
  parse_json (" [1.5e+3 , " ++ [quot] ++ "\u00e9\ud83d\ude00\ud83d" ++ [quot] ++ "] ")
    = Some (JArr [JNum "1.5e+3"; JStr (map byte_of [195; 169; 240; 159; 152; 128; 239; 191; 189])]) /\
  parse_json ([quot; byte_of 9; quot]) = None /\ parse_json "[1,]" = None /\ parse_json "{} 1" = None /\
  parse_json "01" = None /\ print (JStr (map byte_of [60; 9; 255; 226; 128; 168])) = quot :: "\u003c\t\ufffd\u2028" ++ [quot].
Proof. by vm_compute. Qed.
