(* ===== verification/StateFile.v ===== *)
(** * The state file

    [Allocator.Save] and [Allocator.Load] of [internal/domain/state.go] with the text of
    the file, and [AllocationLifecycle] in the mode that uses them: requests allocate in
    memory and save before they answer, the process may stop between any two steps, and a
    new one loads what it finds. *)

From S2P Require Import Prelude GoStrings NetAddr Json Policy PolicySpec Alloc AllocSpec AllocCache Store StoreSpec Memory JsonText.

(** ** The text of the rows *)

(** [json.Marshal] of a row: the fields in the order of the struct. *)
Definition row_json (r : diskMapping) : json :=
  JObj [(lit "Gateway", JStr (d_Gateway r)); (lit "Domain", JStr (d_Domain r)); (lit "IP", JStr (d_IP r))].

Definition state_text (rows : list diskMapping) : str := print (JArr (row_json <$> rows)).

(** [json.Unmarshal] into [[]diskMapping]; other members are ignored. *)
Definition dec_field (r : diskMapping) (k : str) (v : json) : option diskMapping :=
  if key_is k "Gateway" then (fun x => mkDisk x (d_Domain r) (d_IP r)) <$> dec_string (d_Gateway r) v
  else if key_is k "Domain" then (fun x => mkDisk (d_Gateway r) x (d_IP r)) <$> dec_string (d_Domain r) v
  else if key_is k "IP" then (fun x => mkDisk (d_Gateway r) (d_Domain r) x) <$> dec_string (d_IP r) v
  else Some r.

Definition row_zero : diskMapping := mkDisk [] [] [].

Definition dec_rows (j : json) : option (list diskMapping) := dec_slice row_zero (dec_struct dec_field) [] j.

Definition parse_state (text : str) : option (list diskMapping) := parse_json text ≫= dec_rows.

(** What [os.ReadFile] came to. *)
Inductive read_result := Missing | ReadFailed | Contents (text : str).

Inductive load_error := ErrRead | ErrSyntax | ErrRow.

(** [Allocator.Load]: no file is no error; the rows before a malformed address stay. *)
Definition Load (file : read_result) (a : Allocator) : option load_error * Allocator :=
  match file with
  | Missing => (None, a)
  | ReadFailed => (Some ErrRead, a)
  | Contents text =>
      match parse_state text with
      | None => (Some ErrSyntax, a)
      | Some rows => let '(ok, a') := load_rows a rows in ((if ok : bool then None else Some ErrRow), a')
      end
  end.

Definition plain_row (r : diskMapping) : bool := is_ascii (d_Gateway r) && is_ascii (d_Domain r) && is_ascii (d_IP r).

(** Rows of ASCII text are read back from the file. *)
Lemma parse_state_text rows : forallb plain_row rows = true -> parse_state (state_text rows) = Some rows.
Proof.
  intros Hp. unfold parse_state, state_text. rewrite parse_print.
  - cbn. clear Hp. induction rows as [|[g n ip] rows IH]; [done|]. cbn in *. by rewrite IH.
  - cbn. induction rows as [|[g n ip] rows IH]; [done|]. cbn in *. unfold plain_row in Hp. cbn in Hp.
    apply andb_prop in Hp as [[[Hg Hn]%andb_prop Hip]%andb_prop Hp]. rewrite Hg, Hn, Hip, IH by done. done.
  - cbn. unfold max_depth. enough (foldr Z.max 0 (map height (row_json <$> rows)) <= 1) by lia.
    clear. induction rows as [|r rows IH]; cbn in *; lia.
Qed.

Lemma String4_ascii v : is_ascii (String4 v) = true.
Proof.
  assert (Hd : forall i, is_ascii (Itoa (octet v i)) = true).
  { intros i. unfold is_ascii. pose proof (Itoa_octet_digits v i) as H. rewrite forallb_forall in H |- *.
    intros c Hc. apply H in Hc. unfold is_digit in Hc. apply andb_prop in Hc as [_ Hc%Z.leb_le]. apply Z.ltb_lt. lia. }
  unfold is_ascii, String4 in *. cbn [Join]. rewrite !forallb_app. by rewrite !Hd.
Qed.

(** The names the service asks for are ASCII. *)
Lemma validName_ascii n : validName n = true -> is_ascii n = true.
Proof.
  intros Hl%validName_labels. rewrite <-(join_split_char "." n). change [("."%char : byte)] with (lit ".").
  induction Hl as [|l ls Hv Hl IH]; [done|].
  assert (Ha : is_ascii l = true).
  { unfold valid_label in Hv. bool_simp. unfold is_ascii. rewrite forallb_forall in *. intros c Hc.
    apply Z.ltb_lt. match goal with H : forall x, In x l -> name_char x = true |- _ => apply H in Hc end.
    unfold name_char, is_digit in Hc. destruct (Ascii.eqb c "-") eqn:Ed; [apply Ascii.eqb_eq in Ed; by rewrite Ed|].
    rewrite orb_false_r in Hc. apply orb_prop in Hc as [Hc|Hc]; bool_simp; lia. }
  destruct ls as [|l' ls]; [done|]. change (Join (l :: l' :: ls) ".") with (l ++ "." ++ Join (l' :: ls) ".").
  unfold is_ascii in *. by rewrite !forallb_app, Ha, IH.
Qed.

(** ** A restart resumes where the file stands *)

(** Pools whose ranges are listed in ascending order. *)
Definition ascending (G : gmap str (list Prefix)) : Prop := forall g ps i j x y,
  G !! g = Some ps -> (i < j)%nat -> pool ps !! i = Some x -> pool ps !! j = Some y -> x < y.

Lemma Less4 v w : Less (Addr4 v) (Addr4 w) = (v <? w).
Proof. unfold Less. cbn. destruct (Z.eqb_spec v w) as [->|]; [by rewrite Z.ltb_irrefl|done]. Qed.

(** [next] after loading: the highest address of the gateway's rows, plus one. *)
Definition tops (S : Z -> Prop) (ip : Addr) : Prop :=
  (ip = AddrZero /\ forall v, ~ S v) \/ exists w, ip = Addr4 (w + 1) /\ S w /\ forall v, S v -> v <= w.

Lemma tops_proper (S S' : Z -> Prop) ip : (forall v, S' v <-> S v) -> tops S ip -> tops S' ip.
Proof.
  intros HS [[-> H]|(w & -> & Hw & H)].
  - left. split; [done|]. intros v Hv%HS. by apply (H v).
  - right. exists w. split_and!; [done|by apply HS|]. intros v Hv%HS. by apply H.
Qed.

Lemma load_row_tops a g n v S :
  Next (Addr4 v) = Addr4 (v + 1) -> tops S (next_of a g) ->
  tops (fun x => S x \/ x = v) (next_of (load_row a g n (Addr4 v)) g).
Proof.
  intros Hn Ht. unfold load_row, bump_next. unfold next_of at 1. cbn [next]. rewrite Hn.
  destruct Ht as [[E HS]|(w & E & Hw & HS)]; rewrite E.
  - cbn. rewrite lookup_insert_eq. right. exists v. split_and!; [done|by right|]. intros x [Hx| ->]; [by destruct (HS x)|lia].
  - rewrite Less4. cbn [negb IsValid Addr4 addr_kind orb]. right. destruct (Z.ltb_spec (w + 1) (v + 1)).
    + exists v. rewrite lookup_insert_eq. split_and!; [done|by right|]. intros x [Hx%HS| ->]; lia.
    + exists w. unfold next_of in E. split_and!; [done|by left|]. intros x [Hx%HS| ->]; lia.
Qed.

Lemma load_row_next_ne a g g' n v : g' <> g -> next_of (load_row a g n (Addr4 v)) g' = next_of a g'.
Proof.
  intros Hne. unfold load_row, bump_next, next_of. cbn [next]. destruct (_ || _); [|done]. by rewrite lookup_insert_ne.
Qed.

Lemma load_pairs_tops l a g S :
  Forall (fun x : Addr * Mapping => exists v, x.1 = Addr4 v /\ Next (Addr4 v) = Addr4 (v + 1)) l ->
  tops S (next_of a g) ->
  tops (fun v => S v \/ exists m, (Addr4 v, m) ∈ l /\ m_Gateway m = g) (next_of (load_pairs a l) g).
Proof.
  revert a S. induction l as [|[ip [g' n]] l IH]; intros a S Hf Ht.
  { eapply tops_proper; [|exact Ht]. intros v. setoid_rewrite elem_of_nil. split; [|by left]. by intros [?|(m & [] & _)]. }
  apply Forall_cons in Hf as [(v & E & Hv) Hf]. cbn in E. subst ip. unfold load_pairs. cbn [foldl m_Gateway m_Domain fst snd].
  fold (load_pairs (load_row a g' n (Addr4 v)) l). destruct (decide (g' = g)) as [->|Hne].
  - pose proof (IH _ _ Hf (load_row_tops a g n v S Hv Ht)) as H.
    eapply tops_proper; [|exact H]. intros x. setoid_rewrite elem_of_cons. split.
    + intros [?|(m & [[= -> ->]|?] & ?)]; eauto.
    + intros [[?| ->]|(m & ? & ?)]; eauto 10.
  - pose proof (IH (load_row a g' n (Addr4 v)) S Hf) as H. rewrite load_row_next_ne in H by done.
    eapply tops_proper; [|exact (H Ht)]. intros x. setoid_rewrite elem_of_cons. split.
    + intros [?|(m & [[= -> ->]|?] & Hm)]; [by left|by destruct Hne|eauto].
    + intros [?|(m & ? & ?)]; eauto 10.
Qed.

Lemma represents_linked G b a : represents G b a -> linked a.
Proof.
  intros Hr. split.
  - intros ip m (v & -> & Ha)%(rep_ip G b a Hr). apply (rep_key G b a Hr). eauto 10.
  - intros k ip (g & n & v & -> & -> & Ha)%(rep_key G b a Hr). exists (mkMapping g n). split; [|done].
    apply (rep_ip G b a Hr). eauto.
Qed.

Lemma load_pairs_expires l a : expires (load_pairs a l) = expires a.
Proof. unfold load_pairs. revert a. induction l as [|x l IH]; intros a; cbn; [done|]. by rewrite IH. Qed.

(** With ascending pools the rows of a snapshot, in any order, load into an allocator that
    stands exactly where the saved one stood. *)
Lemma load_represents G b a rows :
  pools_ok G -> ascending G -> represents G b a -> rows ≡ₚ save_rows a ->
  exists a', load_rows NewAllocator rows = (true, a') /\ represents G b a'.
Proof.
  intros HG Has Hr Hp.
  assert (H4 : forall ip m, byIP a !! ip = Some m -> exists v, ip = Addr4 v /\ 0 <= v < 2 ^ 32 /\ Next (Addr4 v) = Addr4 (v + 1)).
  { intros ip m (v & -> & ps & i & Hg & _ & Hv)%(rep_ip G b a Hr). exists v. split; [done|].
    apply list_elem_of_lookup_2 in Hv. split; [|by apply (pool_Next ps); [apply (po_sep G HG _ _ Hg)|]].
    pose proof (pool_bound ps (sep_wf _ (po_sep G HG _ _ Hg))) as Hb. rewrite Forall_forall in Hb. by apply Hb. }
  destruct (save_load a rows (represents_linked G b a Hr)) as (l & Hl & Hload & Hip & Hkey);
    [intros ip m (v & -> & Hv & _)%H4; by exists v|done|].
  exists (load_pairs NewAllocator l). split; [done|]. split.
  - intros k ip. rewrite Hkey. apply (rep_key G b a Hr).
  - intros ip m. rewrite Hip. apply (rep_ip G b a Hr).
  - intros g ps Hg. destruct (rep_next G b a Hr g ps Hg) as [_ Hle]. split; [|done].
    pose proof (load_pairs_tops l NewAllocator g (fun _ => False)) as Ht.
    assert (HS : forall v, (False \/ exists m, (Addr4 v, m) ∈ l /\ m_Gateway m = g) <->
      exists i, (i < length (names_of b g))%nat /\ pool ps !! i = Some v).
    { intros v. split.
      - intros [[]|(m & Hm%Hl & <-)]. apply (rep_ip G b a Hr) in Hm as (w & [= <-] & ps' & i & Hg' & Hn & Hv).
        simplify_eq. exists i. split; [by eapply lookup_lt_Some|done].
      - intros (i & Hi & Hv). right. destruct (lookup_lt_is_Some_2 _ _ Hi) as [n Hn]. exists (mkMapping g n).
        split; [|done]. apply Hl, (rep_ip G b a Hr). exists v. split; [done|]. by exists ps, i. }
    specialize (Ht ltac:(apply Forall_forall; intros [ip m] (v & -> & _ & Hv)%Hl%H4; by exists v)
      ltac:(left; split; [by unfold next_of; cbn; rewrite lookup_empty|auto])).
    destruct Ht as [[-> Hno]|(w & -> & Hw & Hmax)].
    + destruct (names_of b g) as [|n ns]; [done|]. exfalso. cbn in Hle.
      destruct (lookup_lt_is_Some_2 (pool ps) 0) as [v Hv]; [lia|]. apply (Hno v), HS. exists 0%nat. cbn. split; [lia|done].
    + apply HS in Hw as (i & Hi & Hw). destruct (length (names_of b g)) as [|k] eqn:Ek; [lia|]. cbn [cursor].
      destruct (lookup_lt_is_Some_2 (pool ps) k) as [v Hv]; [lia|]. rewrite Hv. cbn. f_equal.
      assert (v <= w) by (apply Hmax, HS; exists k; split; [lia|done]).
      destruct (decide (i = k)) as [->|Hne]; [simplify_eq; lia|]. assert (w < v) by (by apply (Has g ps i k); [|lia|..]). lia.
  - apply (rep_nodup G b a Hr).
  - by rewrite load_pairs_expires.
Qed.

(** ** [Save] step by step *)

(** Where a call of [Save] is: before [persistMu.Lock], before the snapshot, at [MkdirAll],
    at the opening of the temporary file, in its writing with the bytes that are left,
    before [Rename], before the deferred [Unlock], or returned. *)
Inductive saver :=
| SLock
| SSnapshot
| SMkdir (text : str)
| SOpen (text : str)
| SWrite (rest : str)
| SRename
| SUnlock (ok : bool)
| SDone (ok : bool).

(** The files, by their path, and the holder of [persistMu]. *)
Record disk_state := mkDiskState { ds_files : gmap str str; ds_holder : option nat }.

Definition tmp_path (path : str) : str := path ++ ".tmp".

(** The steps of call [id] on the allocator it finds; any of the file operations may fail. *)
Inductive save_step (path : str) (id : nat) (a : Allocator) : disk_state -> saver -> disk_state -> saver -> Prop :=
| sv_lock files : save_step path id a (mkDiskState files None) SLock (mkDiskState files (Some id)) SSnapshot
| sv_snapshot d rows :
    rows ≡ₚ save_rows a -> save_step path id a d SSnapshot d (SMkdir (state_text rows))
| sv_mkdir d text (ok : bool) : save_step path id a d (SMkdir text) d (if ok then SOpen text else SUnlock false)
| sv_open d text :
    save_step path id a d (SOpen text) (mkDiskState (<[tmp_path path := []]> (ds_files d)) (ds_holder d)) (SWrite text)
| sv_open_failed d text : save_step path id a d (SOpen text) d (SUnlock false)
| sv_write d written bs rest :
    ds_files d !! tmp_path path = Some written ->
    save_step path id a d (SWrite (bs ++ rest))
      (mkDiskState (<[tmp_path path := written ++ bs]> (ds_files d)) (ds_holder d)) (SWrite rest)
| sv_written d : save_step path id a d (SWrite []) d SRename
| sv_write_failed d rest : save_step path id a d (SWrite rest) d (SUnlock false)
| sv_rename d text :
    ds_files d !! tmp_path path = Some text ->
    save_step path id a d SRename
      (mkDiskState (<[path := text]> (delete (tmp_path path) (ds_files d))) (ds_holder d)) (SUnlock true)
| sv_rename_failed d : save_step path id a d SRename d (SUnlock false)
| sv_unlock d ok : save_step path id a d (SUnlock ok) (mkDiskState (ds_files d) None) (SDone ok).

(** ** Requests of a process with a state file *)

(** Where a call of [AllocationLifecycle.Allocate] is: in [LookupKeyLive], in
    [Allocator.Allocate], or in [Save] with the address it will return. *)
Inductive alloc_phase :=
| QLookup (p : prog (Addr * bool))
| QAllocate (p : prog (Addr * option err))
| QSave (ip : Addr) (sv : saver).

Record request := mkRequest { rq_gateway : str; rq_ranges : list Prefix; rq_domain : str; rq_phase : alloc_phase }.

Definition set_request (r : request) (p : alloc_phase) : request :=
  mkRequest (rq_gateway r) (rq_ranges r) (rq_domain r) p.

(** The memory of the process, the disk and the calls under way.  [mc_answers] records
    what was answered, by this process and those before it, and whether it had saved. *)
Record machine := mkMachine {
  mc_proc : Process;
  mc_disk : disk_state;
  mc_reqs : gmap nat request;
  mc_answers : list (str * str * Addr * bool);
}.

Definition answer (m : machine) (id : nat) (r : request) (ip : Addr) (saved : bool) : machine :=
  mkMachine (mc_proc m) (mc_disk m) (delete id (mc_reqs m))
    ((rq_gateway r, rq_domain r, ip, saved) :: mc_answers m).

Definition fail_request (m : machine) (id : nat) : machine :=
  mkMachine (mc_proc m) (mc_disk m) (delete id (mc_reqs m)) (mc_answers m).

Definition advance (m : machine) (pr : Process) (id : nat) (r : request) : machine :=
  mkMachine pr (mc_disk m) (<[id := r]> (mc_reqs m)) (mc_answers m).

Definition read_state (path : str) (d : disk_state) : read_result :=
  match ds_files d !! path with Some text => Contents text | None => Missing end.

Section machine.
Context (G : gmap str (list Prefix)) (path : str).

Inductive machine_step : machine -> machine -> Prop :=
| ms_request m id g ps n now :
    mc_reqs m !! id = None -> G !! g = Some ps -> is_ascii n = true ->
    machine_step m (advance m (mc_proc m) id (mkRequest g ps n (QLookup (cacheKeyLive g n now))))
| ms_lookup m id r B (f : Process -> B * Process) k :
    mc_reqs m !! id = Some r -> rq_phase r = QLookup (Mem f k) ->
    machine_step m (advance m (f (mc_proc m)).2 id (set_request r (QLookup (k (f (mc_proc m)).1))))
| ms_hit m id r ip :
    mc_reqs m !! id = Some r -> rq_phase r = QLookup (Ret (ip, true)) -> machine_step m (answer m id r ip false)
| ms_miss m id r ip :
    mc_reqs m !! id = Some r -> rq_phase r = QLookup (Ret (ip, false)) ->
    machine_step m (advance m (mc_proc m) id (set_request r (QAllocate (cacheAllocate (rq_gateway r) (rq_ranges r) (rq_domain r)))))
| ms_allocate m id r B (f : Process -> B * Process) k :
    mc_reqs m !! id = Some r -> rq_phase r = QAllocate (Mem f k) ->
    machine_step m (advance m (f (mc_proc m)).2 id (set_request r (QAllocate (k (f (mc_proc m)).1))))
| ms_exhausted m id r ip e :
    mc_reqs m !! id = Some r -> rq_phase r = QAllocate (Ret (ip, Some e)) -> machine_step m (fail_request m id)
| ms_allocated m id r ip :
    mc_reqs m !! id = Some r -> rq_phase r = QAllocate (Ret (ip, None)) ->
    machine_step m (advance m (mc_proc m) id (set_request r (QSave ip SLock)))
| ms_save m id r ip sv d' sv' :
    mc_reqs m !! id = Some r -> rq_phase r = QSave ip sv ->
    save_step path id (p_alloc (mc_proc m)) (mc_disk m) sv d' sv' ->
    machine_step m (mkMachine (mc_proc m) d' (<[id := set_request r (QSave ip sv')]> (mc_reqs m)) (mc_answers m))
| ms_saved m id r ip (ok : bool) :
    mc_reqs m !! id = Some r -> rq_phase r = QSave ip (SDone ok) ->
    machine_step m (if ok then answer m id r ip true else fail_request m id)
| ms_restart m a :
    (* the process stops, wherever it is, and a new one loads the state *)
    Load (read_state path (mc_disk m)) NewAllocator = (None, a) ->
    machine_step m (mkMachine (set_alloc a NewProcess) (mkDiskState (ds_files (mc_disk m)) None) ∅ (mc_answers m)).

Definition machine_init (files : gmap str str) : machine := mkMachine NewProcess (mkDiskState files None) ∅ [].
End machine.

(** ** What is on the disk *)

Section durability.
Context (G : gmap str (list Prefix)) (path : str).
Context (HG : pools_ok G) (Hasc : ascending G) (Hkeys : forall g ps, G !! g = Some ps -> is_ascii g = true).

Abbreviation plain_name := (fun n => is_ascii n = true).
Abbreviation keeps := (keeps G plain_name).
Abbreviation msafe := (msafe G plain_name).

(** [text] is a complete snapshot of the book [b]. *)
Definition snapshot_of (text : str) (b : book) : Prop :=
  exists rows a, text = state_text rows /\ rows ≡ₚ save_rows a /\ keeps b a.

Definition file_ok (file : option str) (b : book) : Prop :=
  match file with Some text => snapshot_of text b | None => b = ∅ end.

Lemma snapshot_rows_plain b a : keeps b a -> forallb plain_row (save_rows a) = true.
Proof.
  intros [Hr Hn]. apply forallb_forall. intros r. rewrite <-list_elem_of_In. unfold save_rows. rewrite list_elem_of_fmap.
  intros ([ip m] & -> & Hm%elem_of_map_to_list). apply (rep_ip G b a Hr) in Hm as (v & -> & ps & i & Hg & Hi & _).
  unfold plain_row. cbn [d_Gateway d_Domain d_IP fst snd]. rewrite (Hkeys _ _ Hg), (Hn _ _ (list_elem_of_lookup_2 _ _ _ Hi)). cbn. apply String4_ascii.
Qed.

(** A complete snapshot loads into the book it was taken of. *)
Lemma Load_snapshot text b : snapshot_of text b -> exists a, Load (Contents text) NewAllocator = (None, a) /\ keeps b a.
Proof.
  intros (rows & a & -> & Hp & Hk). unfold Load. rewrite parse_state_text.
  2:{ pose proof (snapshot_rows_plain b a Hk) as H. rewrite forallb_forall in H |- *. intros r Hr. apply H.
      rewrite <-list_elem_of_In in *. by rewrite <-Hp. }
  destruct (load_represents G b a rows HG Hasc (ke_book _ _ _ _ Hk) Hp) as (a' & -> & Hr). exists a'. split; [done|].
  split; [done|]. apply Hk.
Qed.

Lemma Load_file d b : file_ok (ds_files d !! path) b ->
  exists a, Load (read_state path d) NewAllocator = (None, a) /\ keeps b a.
Proof.
  unfold read_state. destruct (ds_files d !! path) as [text|]; [by apply Load_snapshot|]. intros ->.
  exists NewAllocator. split; [done|]. apply keeps_new.
Qed.

Lemma tmp_path_ne : tmp_path path <> path.
Proof. unfold tmp_path. intros E. apply (f_equal length) in E. rewrite length_app in E. cbn in E. lia. Qed.

(** ** The invariant *)

Section saver.
Context (d : disk_state) (b bf : book) (id : nat) (g n : str) (ip : Addr).

(** A snapshot on its way to the file, which holds the name that is being saved. *)
Definition snapped (text : str) : Prop :=
  exists bs, book_le bf bs /\ book_le bs b /\ holds G g n ip bs /\ snapshot_of text bs.

Definition saver_ok (sv : saver) : Prop :=
  match sv with
  | SLock => ds_holder d <> Some id
  | SSnapshot => ds_holder d = Some id
  | SMkdir text | SOpen text => ds_holder d = Some id /\ snapped text
  | SWrite rest => ds_holder d = Some id /\ exists w, ds_files d !! tmp_path path = Some w /\ snapped (w ++ rest)
  | SRename => ds_holder d = Some id /\ exists text, ds_files d !! tmp_path path = Some text /\ snapped text
  | SUnlock ok => ds_holder d = Some id /\ (ok = true -> holds G g n ip bf)
  | SDone ok => ds_holder d <> Some id /\ (ok = true -> holds G g n ip bf)
  end.
End saver.

Lemma saver_ok_grows d b b' bf id g n ip sv :
  book_le b b' -> saver_ok d b bf id g n ip sv -> saver_ok d b' bf id g n ip sv.
Proof.
  intros Hle.
  assert (Hsn : forall text, snapped b bf g n ip text -> snapped b' bf g n ip text).
  { intros text (bs & H1 & H2 & H3). exists bs. split; [done|]. split; [by etrans|done]. }
  destruct sv; cbn; try done; try (by intros [? ?]; auto).
  - intros [Hh (w & Hw & Hs)]. eauto.
  - intros [Hh (t & Ht & Hs)]. eauto.
Qed.

(** A call that does not hold the lock is not concerned by the one that does. *)
Lemma saver_ok_other d d' b bf bf' id g n ip sv :
  ds_holder d <> Some id -> ds_holder d' <> Some id -> book_le bf bf' ->
  saver_ok d b bf id g n ip sv -> saver_ok d' b bf' id g n ip sv.
Proof.
  intros Hd Hd' Hle. destruct sv; cbn; try done; try (by intros [? ?]).
  intros [_ Hok]. split; [done|]. intros E. eapply holds_le; [done|]. by apply Hok.
Qed.

Lemma save_step_ok id a d sv d' sv' b bf g n ip :
  save_step path id a d sv d' sv' -> keeps b a -> book_le bf b -> holds G g n ip b ->
  file_ok (ds_files d !! path) bf -> saver_ok d b bf id g n ip sv ->
  exists bf', book_le bf bf' /\ book_le bf' b /\ file_ok (ds_files d' !! path) bf' /\ saver_ok d' b bf' id g n ip sv' /\
    forall id', id' <> id -> ds_holder d <> Some id' /\ ds_holder d' <> Some id'.
Proof.
  intros Hs Hk Hle Hh Hf Hok. pose proof tmp_path_ne as Hne.
  destruct Hs as [files|d rows Hp|d text ok|d text|d text|d w bs rest Hw|d|d rest|d text Ht|d|d ok]; cbn in *.
  - exists bf. split_and!; try done. intros id' Hid. split; [done|]. congruence.
  - exists bf. split_and!; try done; [|intros id' Hid; split; congruence].
    exists b. split_and!; try done. by exists rows, a.
  - destruct Hok as [Hl Hsn]. exists bf. split_and!; try done; [by destruct ok|intros id' Hid; split; congruence].
  - destruct Hok as [Hl Hsn]. exists bf. rewrite lookup_insert_ne by done.
    split_and!; try done; [|intros id' Hid; split; congruence]. exists []. by rewrite lookup_insert_eq.
  - destruct Hok as [Hl Hsn]. exists bf. split_and!; try done. intros id' Hid; split; congruence.
  - destruct Hok as (Hl & w' & Hw' & Hsn). simplify_eq. exists bf. rewrite lookup_insert_ne by done.
    split_and!; try done; [|intros id' Hid; split; congruence]. exists (w ++ bs). by rewrite lookup_insert_eq, <-app_assoc.
  - destruct Hok as (Hl & w & Hw & Hsn). rewrite app_nil_r in Hsn. exists bf.
    split_and!; try done; [by exists w|intros id' Hid; split; congruence].
  - destruct Hok as [Hl _]. exists bf. split_and!; try done. intros id' Hid; split; congruence.
  - destruct Hok as (Hl & text' & Ht' & bs & H1 & H2 & H3 & H4). simplify_eq. exists bs. rewrite lookup_insert_eq.
    split_and!; try done. intros id' Hid; split; congruence.
  - destruct Hok as [Hl _]. exists bf. split_and!; try done. intros id' Hid; split; congruence.
  - destruct Hok as [Hl Hsv]. exists bf. split_and!; try done. intros id' Hid; split; [congruence|done].
Qed.

Definition phase_ok (d : disk_state) (b bf : book) (id : nat) (r : request) : Prop :=
  let g := rq_gateway r in let n := rq_domain r in
  match rq_phase r with
  | QLookup p => ds_holder d <> Some id /\ msafe p (fun x b => x.2 = true -> holds G g n x.1 b) b
  | QAllocate p => ds_holder d <> Some id /\ msafe p (fun x b => x.2 = None -> holds G g n x.1 b) b
  | QSave ip sv => holds G g n ip b /\ saver_ok d b bf id g n ip sv
  end.

Record machine_ok (m : machine) (b bf : book) : Prop := {
  mo_memory : keeps b (p_alloc (mc_proc m));
  mo_file : file_ok (ds_files (mc_disk m) !! path) bf;
  mo_le : book_le bf b;
  mo_reqs : forall id r, mc_reqs m !! id = Some r ->
    G !! rq_gateway r = Some (rq_ranges r) /\ plain_name (rq_domain r) /\ phase_ok (mc_disk m) b bf id r;
  mo_holder : forall id, mc_reqs m !! id = None -> ds_holder (mc_disk m) <> Some id;
  mo_answers : forall g n ip, (g, n, ip, true) ∈ mc_answers m -> is_Some (G !! g) /\ holds G g n ip bf;
}.

Lemma phase_ok_grows d b b' bf id r : book_le b b' -> phase_ok d b bf id r -> phase_ok d b' bf id r.
Proof.
  intros Hle. unfold phase_ok. destruct (rq_phase r) as [p|p|ip sv]; intros [Hh Hs]; (split; [try done|]).
  - eapply msafe_le; [|done..]. intros x b1 b2 Hb Hx E. eapply holds_le; [done|]. by apply Hx.
  - eapply msafe_le; [|done..]. intros x b1 b2 Hb Hx E. eapply holds_le; [done|]. by apply Hx.
  - by eapply holds_le.
  - by eapply saver_ok_grows.
Qed.

(** One call moves on, in a memory that may have grown. *)
Lemma advance_ok m b bf b' pr id r :
  machine_ok m b bf -> book_le b b' -> keeps b' (p_alloc pr) ->
  G !! rq_gateway r = Some (rq_ranges r) -> plain_name (rq_domain r) -> phase_ok (mc_disk m) b' bf id r ->
  machine_ok (advance m pr id r) b' bf.
Proof.
  intros [Hm Hf Hle Hr Hh Ha] Hb Hk Hg Hn Hp. split; cbn; try done; [by transitivity b| |].
  - intros id' r'. rewrite lookup_insert_Some. intros [[<- <-]|[_ Hr']]; [done|].
    destruct (Hr id' r' Hr') as (? & ? & Hph). split_and!; [done..|]. by eapply phase_ok_grows.
  - intros id' [Hid _]%lookup_insert_None. by apply Hh.
Qed.

(** One call, without the lock, returns. *)
Lemma return_ok m b bf id answers :
  machine_ok m b bf -> ds_holder (mc_disk m) <> Some id ->
  (forall g n ip, (g, n, ip, true) ∈ answers -> is_Some (G !! g) /\ holds G g n ip bf) ->
  machine_ok (mkMachine (mc_proc m) (mc_disk m) (delete id (mc_reqs m)) answers) b bf.
Proof.
  intros [Hm Hf Hle Hr Hh Ha] Hd Hans. split; cbn; try done; [intros id' r' [_ Hr']%lookup_delete_Some; by apply Hr|].
  intros id' [<-|Hid]%lookup_delete_None; [done|by apply Hh].
Qed.

Lemma save_step_machine m b bf id r ip sv d' sv' :
  machine_ok m b bf -> mc_reqs m !! id = Some r -> rq_phase r = QSave ip sv ->
  save_step path id (p_alloc (mc_proc m)) (mc_disk m) sv d' sv' ->
  exists bf', machine_ok (mkMachine (mc_proc m) d' (<[id := set_request r (QSave ip sv')]> (mc_reqs m)) (mc_answers m)) b bf'.
Proof.
  intros [Hk Hf Hle Hr Hfree Ha] Hid Hp Hstep. destruct (Hr id r Hid) as (Hg & Hn & Hph). unfold phase_ok in Hph.
  rewrite Hp in Hph. destruct Hph as [Hh Hsv].
  destruct (save_step_ok _ _ _ _ _ _ b bf _ _ _ Hstep Hk Hle Hh Hf Hsv) as (bf' & H1 & H2 & H3 & H4 & H5).
  exists bf'. split; cbn; try done.
  - intros id' r'. rewrite lookup_insert_Some. intros [[<- <-]|[Hne Hr']]; [done|].
    destruct (Hr id' r' Hr') as (? & ? & Hph'). destruct (H5 id') as [Hd Hd']; [congruence|]. split_and!; [done..|].
    unfold phase_ok in *. destruct (rq_phase r') as [p|p|ip' sv'']; [split; [done|apply Hph']..|].
    destruct Hph' as [Hh' Hs']. split; [done|]. by apply (saver_ok_other (mc_disk m) d' b bf bf').
  - intros id' [Hid' Hne]%lookup_insert_None. apply H5. congruence.
  - intros g n ip' Hin. destruct (Ha g n ip' Hin) as [? Hh']. split; [done|]. by eapply holds_le.
Qed.

Lemma machine_step_ok m m' b bf :
  machine_step G path m m' -> machine_ok m b bf -> exists b' bf', machine_ok m' b' bf'.
Proof.
  intros Hs Hm. pose proof Hm as [Hk Hf Hle Hr Hfree Ha].
  destruct Hs as [m id g ps n now Hid Hg Hn|m id r B f k Hid Hp|m id r ip Hid Hp|m id r ip Hid Hp|m id r B f k Hid Hp
    |m id r ip e Hid Hp|m id r ip Hid Hp|m id r ip sv d' sv' Hid Hp Hstep|m id r ip ok Hid Hp|m a Hload];
    try (destruct (Hr id r Hid) as (Hg & Hn & Hph); unfold phase_ok in Hph; rewrite Hp in Hph; destruct Hph as [Hh Hph]).
  - exists b, bf. apply (advance_ok m b); try done. split; [by apply Hfree|]. by eapply (cacheKeyLive_msafe G HG).
  - destruct (Hph b (mc_proc m)) as (b2 & Hb & Hk2 & Hk3); [reflexivity|done|]. exists b2, bf. by apply (advance_ok m b).
  - exists b, bf. apply return_ok; [done..|]. intros g n ip' [?|Hin]%elem_of_cons; [done|by apply Ha].
  - exists b, bf. apply (advance_ok m b); try done. split; [done|]. by apply (cacheAllocate_msafe G HG).
  - destruct (Hph b (mc_proc m)) as (b2 & Hb & Hk2 & Hk3); [reflexivity|done|]. exists b2, bf. by apply (advance_ok m b).
  - exists b, bf. by apply return_ok.
  - exists b, bf. apply (advance_ok m b); try done. split; [by apply Hph|done].
  - destruct (save_step_machine m b bf id r ip sv d' sv') as [bf' ?]; try done. by exists b, bf'.
  - destruct Hph as [Hd Hok]. exists b, bf. destruct ok; [|by apply return_ok].
    apply return_ok; [done..|]. intros g n ip' [[= -> -> ->]|Hin]%elem_of_cons; [|by apply Ha]. split; [by eexists|by apply Hok].
  - destruct (Load_file _ _ Hf) as (a' & Hload' & Hk'). rewrite Hload in Hload'. injection Hload' as <-.
    exists bf, bf. split; cbn; try done.
Qed.

Lemma machine_reachable files m :
  files !! path = None -> rtc (machine_step G path) (machine_init files) m -> exists b bf, machine_ok m b bf.
Proof.
  intros Hfile. apply (rtc_ind_r (fun m => exists b bf, machine_ok m b bf)).
  - exists ∅, ∅. split; cbn; try done; [apply keeps_new|by rewrite Hfile|]. intros g n ip. by rewrite elem_of_nil.
  - intros m1 m2 _ Hs (b & bf & Hm). by eapply machine_step_ok.
Qed.
End durability.

(** C16: the state file survives crashes.  Requests of one process for ASCII names, as all
    valid names are ([validName_ascii]), interleave at their critical sections, at the lock
    of [Save] and at every file operation, each of which may fail, and the process may stop
    anywhere and be started again, any number of times.  Over pools that are apart from
    each other and list their ranges in ascending order, the file always loads without
    error, and into an allocator that maps every name whose request saved and answered,
    before whichever crash, to the very address that was answered and back; such addresses
    are of the pool that was asked, and equal exactly for the same name. *)
Theorem state_file_durable G path files m :
  pools_ok G -> ascending G -> (forall g ps, G !! g = Some ps -> is_ascii g = true) -> files !! path = None ->
  rtc (machine_step G path) (machine_init files) m ->
  (exists a, Load (read_state path (mc_disk m)) NewAllocator = (None, a) /\
     forall g n ip, (g, n, ip, true) ∈ mc_answers m ->
       LookupKey a g n = (ip, true) /\ Lookup a ip = (mkMapping g n, true)) /\
  (forall g n ip g' n' ip', (g, n, ip, true) ∈ mc_answers m -> (g', n', ip', true) ∈ mc_answers m ->
     (ip = ip' <-> (g, n) = (g', n')) /\ exists ps v, G !! g = Some ps /\ ip = Addr4 v /\ v ∈ pool ps).
Proof.
  intros HG Hasc Hkeys Hfile Hr.
  destruct (machine_reachable G path HG Hasc Hkeys files m Hfile Hr) as (b & bf & [_ Hf _ _ _ Ha]).
  destruct (Load_file G path HG Hasc Hkeys _ _ Hf) as (a & Hload & [Hk _]). split.
  - exists a. split; [done|]. intros g n ip (_ & v & -> & Has)%Ha. unfold LookupKey, Lookup.
    assert (byKey a !! akey g n = Some (Addr4 v)) as -> by (apply (rep_key G bf a Hk); eauto 10).
    by assert (byIP a !! Addr4 v = Some (mkMapping g n)) as -> by (apply (rep_ip G bf a Hk); eauto).
  - intros g n ip g' n' ip' [[ps Hg] Hh]%Ha [_ Hh']%Ha. split; [by apply (holds_agree G bf a)|].
    destruct (holds_pool G bf g ps n ip Hg Hh) as (v & -> & Hv). eauto.
Qed.

(** ** Runs *)

(** A program of critical sections only. *)
Fixpoint memory_only {A} (p : prog A) : Prop :=
  match p with Ret _ => True | Sql _ _ => False | Mem _ k => forall b, memory_only (k b) end.

Section runs.
Context (G : gmap str (list Prefix)) (path : str).
Abbreviation steps := (rtc (machine_step G path)).

Lemma lookup_runs p : forall m pr id r x pr',
  memory_only p -> run (DB := table_db) p pr ∅ = (x, pr', ∅) ->
  steps (advance m pr id (set_request r (QLookup p))) (advance m pr' id (set_request r (QLookup (Ret x)))).
Proof.
  induction p as [a|B s k IH|B f k IH]; intros m pr id r x pr' Hp Hr; cbn in *; [by simplify_eq|done|].
  destruct (f pr) as [b pr1] eqn:Ef. eapply rtc_l; [|by apply (IH b)].
  pose proof (ms_lookup G path (advance m pr id (set_request r (QLookup (Mem f k)))) id _ _ f k (lookup_insert_eq _ _ _) eq_refl) as Hs.
  cbn in Hs. rewrite Ef in Hs. unfold advance in Hs. cbn in Hs. by rewrite insert_insert_eq in Hs.
Qed.

Lemma allocate_runs p : forall m pr id r x pr',
  memory_only p -> run (DB := table_db) p pr ∅ = (x, pr', ∅) ->
  steps (advance m pr id (set_request r (QAllocate p))) (advance m pr' id (set_request r (QAllocate (Ret x)))).
Proof.
  induction p as [a|B s k IH|B f k IH]; intros m pr id r x pr' Hp Hr; cbn in *; [by simplify_eq|done|].
  destruct (f pr) as [b pr1] eqn:Ef. eapply rtc_l; [|by apply (IH b)].
  pose proof (ms_allocate G path (advance m pr id (set_request r (QAllocate (Mem f k)))) id _ _ f k (lookup_insert_eq _ _ _) eq_refl) as Hs.
  cbn in Hs. rewrite Ef in Hs. unfold advance in Hs. cbn in Hs. by rewrite insert_insert_eq in Hs.
Qed.

Lemma cacheKeyLive_memory g n now : memory_only (cacheKeyLive g n now).
Proof. intros [ip []]; cbn; [|done]. by intros [m ok]. Qed.

Lemma cacheAllocate_memory g ps n : memory_only (cacheAllocate g ps n).
Proof. by intros [ip|]; [|intros [ip|]]. Qed.

(** A new name, allocated and not yet saved. *)
Lemma request_allocates m id g ps n now ip0 pr1 ip pr2 :
  mc_reqs m !! id = None -> G !! g = Some ps -> is_ascii n = true ->
  run (DB := table_db) (cacheKeyLive g n now) (mc_proc m) ∅ = ((ip0, false), pr1, ∅) ->
  run (DB := table_db) (cacheAllocate g ps n) pr1 ∅ = ((ip, None), pr2, ∅) ->
  steps m (advance m pr2 id (mkRequest g ps n (QSave ip SLock))).
Proof.
  intros Hid Hg Hn H1 H2. set (r := mkRequest g ps n (QSave ip SLock)).
  eapply rtc_l; [by apply (ms_request _ _ m id g ps n now)|].
  etrans; [apply (lookup_runs _ m (mc_proc m) id r _ _ (cacheKeyLive_memory g n now) H1)|].
  eapply rtc_l; [by eapply (ms_miss _ _ _ id); [apply lookup_insert_eq|]|]. unfold advance. cbn. rewrite insert_insert_eq.
  etrans; [apply (allocate_runs _ m pr1 id r _ _ (cacheAllocate_memory g ps n) H2)|].
  apply rtc_once. pose proof (ms_allocated G path (advance m pr2 id (set_request r (QAllocate (Ret (ip, None))))) id _ ip
    (lookup_insert_eq _ _ _) eq_refl) as Hs. unfold advance in Hs. cbn in Hs. by rewrite insert_insert_eq in Hs.
Qed.

(** An uninterrupted [Save], and the answer. *)
Lemma save_runs pr files reqs answers id r ip :
  rq_phase r = QSave ip SLock -> reqs !! id = None -> exists files',
  steps (mkMachine pr (mkDiskState files None) (<[id := r]> reqs) answers)
    (mkMachine pr (mkDiskState files' None) reqs ((rq_gateway r, rq_domain r, ip, true) :: answers)) /\
  files' !! path = Some (state_text (save_rows (p_alloc pr))).
Proof.
  intros Hp Hid. set (text := state_text (save_rows (p_alloc pr))).
  exists (<[path := text]> (delete (tmp_path path) (<[tmp_path path := text]> (<[tmp_path path := []]> files)))).
  split; [|apply lookup_insert_eq].
  assert (Hstep : forall d sv d' sv' m', save_step path id (p_alloc pr) d sv d' sv' ->
    steps (mkMachine pr d' (<[id := set_request r (QSave ip sv')]> reqs) answers) m' ->
    steps (mkMachine pr d (<[id := set_request r (QSave ip sv)]> reqs) answers) m').
  { intros d sv d' sv' m' Hs Hr. eapply rtc_l; [|exact Hr].
    pose proof (ms_save G path (mkMachine pr d (<[id := set_request r (QSave ip sv)]> reqs) answers) id _ ip sv d' sv'
      (lookup_insert_eq _ _ _) eq_refl Hs) as H. cbn in H. by rewrite insert_insert_eq in H. }
  assert (Hwrite : forall d, ds_files d !! tmp_path path = Some [] -> save_step path id (p_alloc pr) d (SWrite text)
    (mkDiskState (<[tmp_path path := text]> (ds_files d)) (ds_holder d)) (SWrite [])).
  { intros d Hd. pose proof (sv_write path id (p_alloc pr) d [] text [] Hd) as H. by rewrite app_nil_r in H. }
  replace r with (set_request r (QSave ip SLock)) at 1 by (destruct r; cbn in *; by subst).
  eapply Hstep; [apply sv_lock|]. eapply Hstep; [by apply (sv_snapshot _ _ _ _ (save_rows (p_alloc pr)))|]. fold text. clearbody text.
  eapply Hstep; [apply (sv_mkdir _ _ _ _ _ true)|]. eapply Hstep; [apply sv_open|]. cbn [ds_files ds_holder].
  eapply Hstep; [apply Hwrite, lookup_insert_eq|]. cbn [ds_files ds_holder].
  eapply Hstep; [apply sv_written|]. eapply Hstep; [apply (sv_rename _ _ _ _ text), lookup_insert_eq|]. cbn [ds_files ds_holder].
  eapply Hstep; [apply sv_unlock|]. cbn [ds_files].
  apply rtc_once. match goal with |- machine_step _ _ (mkMachine ?p ?d _ _) _ =>
    pose proof (ms_saved G path (mkMachine p d (<[id := set_request r (QSave ip (SDone true))]> reqs) answers) id _ ip true
      (lookup_insert_eq reqs id _) eq_refl) as Hs end.
  unfold answer in Hs. cbn in Hs. by rewrite (delete_insert_id reqs id) in Hs by done.
Qed.
End runs.

Definition pair_steps := rtc (machine_step pair_family "/state").

Lemma pair_ascending : ascending pair_family.
Proof.
  unfold pair_family. intros g ps i j x y [<- <-]%lookup_singleton_Some Hij.
  assert (E : pool pair_ranges = [184418305; 184418306; 184418307; 184418561; 184418562; 184418563]) by (by vm_compute).
  rewrite E. do 6 (destruct i as [|i]; [do 6 (destruct j as [|j]; [cbn; intros; simplify_eq; lia|]); done|]). done.
Qed.

Lemma pair_keys_ascii g ps : pair_family !! g = Some ps -> is_ascii g = true.
Proof. unfold pair_family. by intros [<- <-]%lookup_singleton_Some. Qed.

Definition name_a : str := "a.example.com".
Definition name_b : str := "b.example.com".
Definition first_ip : Addr := AddrFrom4 10 254 0 1.

(** The memory of a process that has allocated one name. *)
Definition allocated (n : str) : Process := (run (DB := table_db) (cacheAllocate "pair" pair_ranges n) NewProcess ∅).1.2.

Lemma allocates_first m id n :
  n = name_a \/ n = name_b -> mc_proc m = NewProcess -> mc_reqs m !! id = None ->
  pair_steps m (advance m (allocated n) id (mkRequest "pair" pair_ranges n (QSave first_ip SLock))).
Proof.
  intros Hn Hm Hid. apply (request_allocates pair_family "/state" m id "pair" pair_ranges n 0 AddrZero NewProcess first_ip (allocated n)).
  - done.
  - by vm_compute.
  - by destruct Hn as [-> | ->]; vm_compute.
  - rewrite Hm. by destruct Hn as [-> | ->].
  - by destruct Hn as [-> | ->]; vm_compute.
Qed.

(** A name is allocated, saved and answered, and the process is started again. *)
Lemma saved_run : exists m, pair_steps (machine_init ∅) m /\ mc_answers m = [(lit "pair", name_a, first_ip, true)].
Proof.
  destruct (save_runs pair_family "/state" (allocated name_a) ∅ ∅ [] 0 (mkRequest "pair" pair_ranges name_a (QSave first_ip SLock)) first_ip)
    as (files & Hs & Hf); [done..|].
  eexists. split; [|shelve]. etrans; [by apply (allocates_first _ 0 name_a); [left|..]|]. etrans; [exact Hs|].
  apply rtc_once. apply ms_restart. unfold read_state. cbn [mc_disk ds_files]. rewrite Hf. vm_compute. reflexivity.
  Unshelve. done.
Qed.

Lemma state_file_durable_witness : exists m, pair_steps (machine_init ∅) m /\
  exists a, Load (read_state "/state" (mc_disk m)) NewAllocator = (None, a) /\ LookupKey a "pair" name_a = (first_ip, true).
Proof.
  destruct saved_run as (m & Hr & Ha). exists m. split; [exact Hr|].
  destruct (state_file_durable pair_family "/state" ∅ m pair_pools_ok pair_ascending pair_keys_ascii (lookup_empty _) Hr) as [(a & Hl & Hk) _].
  exists a. split; [exact Hl|]. apply Hk. rewrite Ha. apply list_elem_of_here.
Defined.

(** An answer that was not saved by its own request is not durable: the second request for
    a name finds it in memory while the first is still saving, and answers; the process
    stops, and the next one gives the address to another name. *)
Theorem unsaved_answer_lost : exists m, pair_steps (machine_init ∅) m /\
  mc_answers m = [(lit "pair", name_b, first_ip, true); (lit "pair", name_a, first_ip, false)].
Proof.
  destruct (save_runs pair_family "/state" (allocated name_b) ∅ ∅ [(lit "pair", name_a, first_ip, false)] 0
    (mkRequest "pair" pair_ranges name_b (QSave first_ip SLock)) first_ip) as (files & Hs & Hf); [done..|].
  eexists. split; [etrans; [|exact Hs]|reflexivity].
  etrans; [by apply (allocates_first _ 0 name_a); [left|..]|].
  eapply rtc_l; [by apply (ms_request _ _ _ 1 "pair" pair_ranges name_a 0)|].
  etrans; [eapply (lookup_runs _ _ (cacheKeyLive "pair" name_a 0) _ _ 1 (mkRequest "pair" pair_ranges name_a (QSave first_ip SLock)));
    [apply cacheKeyLive_memory|reflexivity]|].
  eapply rtc_l; [eapply (ms_hit _ _ _ 1); [apply lookup_insert_eq|reflexivity]|].
  eapply rtc_l; [by apply (ms_restart _ _ _ NewAllocator)|].
  match goal with |- rtc _ ?m _ => pose proof (allocates_first m 0 name_b (or_intror eq_refl) eq_refl (lookup_empty _)) as Hb end.
  exact Hb.
Qed.
